(* ===== verification/_CoqProject ===== *)
-Q . S2P
Prelude.v
Config.v
Varint.v
Wire.v
Transaction.v
IntUtil.v
Currency.v
Extra.v
TreeHash.v
PqHash.v
PqDerive.v
PqValidation.v
BlockFormat.v
Db.v
ChainStore.v
Checkpoints.v
ChainRules.v
TransactionPool.v
Blockchain.v
Ledger.v
ChainSwitch.v
FinalityDepth.v
Mining.v
MinedBlock.v
Bech32.v
PqAddress.v
AccountNumber.v
Base58.v
PqOutputs.v
PqPaymentProof.v
Seeds.v
English.v
WalletLedger.v
PqTransactionBuilder.v
PqSender.v
WalletSpend.v
