(* ===== verification/Prelude.v ===== *)
(** * Discrete: a verification library for the node and the wallet

    Discrete is a proof-of-work currency whose transactions are signed with ML-DSA
    and whose outputs are encrypted with ML-KEM. This library models the parts of
    the program that decide who owns what: the wire formats, the validation rules,
    the database and the chain built on it, the pool, alternative chains, the
    miner, addresses and seeds, and the wallet that scans the chain and builds
    transactions. Paths below are relative to the source tree ([src/] holds the
    program, [include/] its public headers).

    ** How the parts work together

    Bytes that arrive are decoded ([Varint], [Wire], [Transaction]) into
    transactions and blocks. A transaction goes through the checks that need no
    chain ([PqValidation], [Extra]), then those that read the database
    ([ChainRules], over the tables of [Db]), into the pool ([TransactionPool]). The
    miner takes a template from the pool and seals it ([Mining]); a block, mined or
    received, goes to [ChainSwitch.addNewBlock], which extends the main chain
    ([Blockchain.pushBlock], writing through [ChainStore]), keeps it as an
    alternative, or switches branches, moving transactions between chain and pool.
    A wallet derives its keys from a seed ([Seeds]), hands out addresses
    ([PqAddress], [AccountNumber]), recognises its outputs in blocks ([PqOutputs],
    [WalletLedger]) and spends them ([PqTransactionBuilder], [PqSender]) in
    transactions that the node's rules accept.

    ** Files

    - [Prelude]: bytes, machine words, errors, tactics and shared lemmas.
    - [Config]: the constants of [CryptoNoteConfig.h], [CryptoNote.h] and
      [PqTxType.h], with the two fee functions.
    - [Varint], [Wire], [Transaction]: [Common/Varint.h], [Common/StreamTools.cpp],
      the binary serializers ([Serialization/Binary*]) and the formats of
      [CryptoNoteSerialization.cpp]. The serializers are a small state monad over
      the input; a class [CodecOk] states what a codec promises, and every codec has
      an instance.
    - [IntUtil]: [Common/int-util.h] and [check_hash] of [Difficulty.cpp].
    - [Currency]: emission, block reward, penalty, difficulty and size limits.
    - [Extra]: the tag grammar of [TransactionExtra.cpp].
    - [TreeHash]: [crypto/tree-hash.c] as loops over its buffers.
    - [PqHash], [PqDerive], [PqValidation]: HKDF, the consensus derivations and
      signing transcripts of [crypto_pq/], and [PqValidation.cpp].
    - [BlockFormat]: block ids, hashing blobs and the proof of work with its prover
      and verifier ([CryptoNoteFormatUtils.cpp]).
    - [Db], [ChainStore]: the tables of [LMDBBlockchainDB.cpp] with their write
      transactions, and the part of [Blockchain.cpp] that writes and removes a block.
    - [Checkpoints], [ChainRules]: checkpoint zones, and the rules that read the
      chain: inputs, registrations with their proof caches, difficulty, timestamps,
      sizes and the coinbase.
    - [TransactionPool]: the pool with its indices ([TransactionPool.cpp],
      [BlockchainIndices]), against a class [ValidatorLaws] of what it asks of the
      chain, with the chain's instance.
    - [Blockchain]: [pushBlock], [popBlock], batches and rollback of one node over a
      store with a committed and a pending state.
    - [Ledger]: the abstract specification, a map of unspent outputs, and the
      refinement of it by the chain.
    - [ChainSwitch], [FinalityDepth]: alternative chains, switching with its
      rollback, finality forks, and a run that reorganises deeper than the finality
      depth.
    - [Mining], [MinedBlock]: [Core.cpp]'s handling of transactions and blocks, the
      block template, the search of a worker of [Miner.cpp], and the composition.
    - [Bech32], [PqAddress], [AccountNumber], [Base58]: text forms of addresses.
    - [Seeds], [English]: [PqSeed], the mnemonic phrases and the English word list.
    - [PqOutputs], [PqPaymentProof]: building and scanning outputs, payment proofs.
    - [WalletLedger], [PqTransactionBuilder], [PqSender], [WalletSpend]: the wallet's
      book of outputs, the builder, coin selection and the spend path, and the
      composition of the book with the node's spend rule.

    Each definition keeps the name of the function it translates; a loop that the
    source writes inside a function is a [Fixpoint] of its own with a descriptive
    name. Structures are records with the source's field names, enumerations and
    variants inductive types. A function that may throw returns [result]; state is
    passed explicitly ([Db], [Store], [Node], [Pool], [Chain], [Book]). Unsigned
    arithmetic wraps at its width wherever the source's can ([wrap]).

    ** What the theorems show

    - Formats: decoding accepts exactly what encoding produces ([tx_wire_exact] and
      its kin for varints, extra fields, Bech32m, Base58, addresses, account numbers,
      phrases and the wallet file), so ids bind contents ([block_id_binding]).
    - Arithmetic: the word-level routines compute the numbers they stand for
      ([check_hash_target], [tree_hash_is_merkle_root]), with the places where they
      do not ([next_difficulty_overflow]).
    - Rules: an accepted transfer balances, is authorised by the keys of the outputs
      it spends, and spends outputs of the chain that are unlocked
      ([pq_transfer_balance], [pq_transfer_authorized], [chain_spend_rule]).
    - Chain: connecting a block is atomic under every failure of the database,
      removal undoes it, rollback ends at the height asked for, and every reachable
      node refines the ledger of unspent outputs ([push_block_atomic],
      [pop_undoes_push], [rollback_to_height], [node_invariant],
      [chain_refines_ledger]).
    - Switching: a reorganisation either completes or leaves the node where it was,
      and no transaction is lost on the way ([switch_outcome]).
    - Pool and miner: the pool keeps its indices and policy, a template is one the
      rules allow, and a block sealed on it is accepted ([pool_invariant],
      [template_sound], [mined_template_added]).
    - Wallet: what the book credits, the node lets it spend; a reorganisation leaves
      the book as if the wallet had only seen the new chain; what the sender builds
      is accepted, balances, and reaches its recipients ([credited_spendable],
      [wallet_reorganisation], [send_accepted], [payment_received]).
    - Some theorems state behaviour that the code or its comments do not intend:
      [popped_fee_lost], [stale_ready_served], [coinbase_maturity_unenforced],
      [deep_reorganisation], [mined_deposit_stuck].

    ** Parameters, bounds and fuel

    Code outside the tree is a parameter of the definitions that call it: SHA3 and
    SHAKE, [cn_fast_hash], ML-DSA, ML-KEM, ChaCha20-Poly1305, yespower, [std::sort]
    where ties matter, the clock and the failures of LMDB calls. What is assumed of
    them is stated where it is used, and every theorem with such an assumption has a
    witness with concrete functions. Theorems about hashes have the form "the
    property, or two of the strings hashed collide": nothing assumes injectivity.

    Loops that are not structural carry fuel. It is the bound the code itself has
    (ten attempts at a template, the number of alternative blocks on a branch), or a
    measure of the input, and a lemma next to the definition shows that it is enough
    ([round_fuel], [encode_loop_places], [walk_branch_complete], [build_loop_spec] and
    the like). The worker
    of the miner takes the number of nonces it tries, and its theorems hold for every
    number.

    ** Not modelled

    - Primitives: Keccak, yespower, ML-DSA, ML-KEM and the random generator are
      external or assembly-level code; they are parameters.
    - Concurrency: threads, coroutines, sockets and timers. Each public operation of
      the chain and the pool runs under the lock the source takes, so an operation is
      a step; what interleaves between operations is the order of the steps.
    - The peer-to-peer layer, RPC, JSON and the key-value formats, node proxies,
      wallet containers, the payment gate, the explorer, the daemon and the user
      interfaces: input and output around the operations modelled here.
    - Logging, observers and statistics: they change no state the theorems speak of.
    - The word lists other than English, which are data of the same shape. *)

From Stdlib Require Import ZArith String List Lia Bool.
From coqutil Require Import Byte Z.BitOps.
From coqutil Require Import Word.LittleEndianList.
Import ListNotations.
Open Scope Z_scope.

(** ** Bytes

    [uint8_t] and [char] are both [byte]; [byte.unsigned] and [byte.of_Z] are
    the casts between a byte and a number, the latter reducing modulo 256 as a
    narrowing [static_cast<uint8_t>] does.  A [std::string] is the list of its
    bytes. *)

Declare Scope discrete_scope.
Delimit Scope discrete_scope with discrete.
Open Scope discrete_scope.

Abbreviation bytes := (list Init.Byte.byte).
Abbreviation u8 := byte.unsigned.
Abbreviation b8 := byte.of_Z.

(** A C string literal, without its terminator. *)
Definition str (s : string) : bytes := list_byte_of_string s.

(** Byte lists are compared with [==b], as [std::vector]'s and
    [std::string]'s [operator==] do. *)
Fixpoint bytes_eqb (a b : bytes) : bool :=
  match a, b with
  | [], [] => true
  | x :: a', y :: b' => Byte.eqb x y && bytes_eqb a' b'
  | _, _ => false
  end.
Notation "a ==b b" := (bytes_eqb a b) (at level 70, no associativity) : discrete_scope.

(** ** Machine words: unsigned arithmetic wraps modulo [2 ^ w]. *)

Definition wrap (w z : Z) : Z := z mod 2 ^ w.
Abbreviation w8 := (wrap 8).
Abbreviation w16 := (wrap 16).
Abbreviation w32 := (wrap 32).
Abbreviation w64 := (wrap 64).

(** A 64-bit word read as [int64_t]. *)
Definition s64 (z : Z) : Z := let u := w64 z in if u <? 2 ^ 63 then u else u - 2 ^ 64.

(** [in_w w z]: [z] is a value of the [w]-bit unsigned type. *)
Definition in_w (w z : Z) : Prop := 0 <= z < 2 ^ w.
Definition in_wb (w z : Z) : bool := (0 <=? z) && (z <? 2 ^ w).

(** ** Errors

    An operation that may throw (or return [false] with a reason) yields a
    [result]: a value or the error it stops with. *)

Inductive result (E A : Type) : Type :=
| Ok (a : A)
| Err (e : E).
Arguments Ok {E A} a.
Arguments Err {E A} e.

Definition bind {E A B} (c : result E A) (k : A -> result E B) : result E B :=
  match c with Ok a => k a | Err e => Err e end.

Notation "'let*' p ':=' c 'in' k" := (bind c (fun p => k))
  (at level 10, p strict pattern, c at level 150, k at level 200,
   format "'[v' 'let*'  p  ':='  c  'in' '/' k ']'") : discrete_scope.

(** [guard b e]: the code throws (or fails with) [e] unless [b] holds. *)
Definition guard {E} (b : bool) (e : E) : result E unit := if b then Ok tt else Err e.

Notation "'check' b 'else' e ';;' k" := (bind (guard b e) (fun _ => k))
  (at level 10, b at level 150, e at level 99, k at level 200,
   format "'[v' 'check'  b  'else'  e ';;' '/' k ']'") : discrete_scope.

(** ** Automation *)

Create HintDb disc.

(** Case analysis on the scrutinee of a [match] or [if]. *)
Ltac case_match_in H :=
  match type of H with
  | context [match ?x with _ => _ end] =>
      let E := fresh "E" in destruct x eqn:E; try discriminate H
  end.
Ltac case_match_goal :=
  match goal with
  | |- context [match ?x with _ => _ end] => let E := fresh "E" in destruct x eqn:E
  end.

(** Booleans to propositions. *)
Ltac bprop :=
  repeat match goal with
  | H : (_ && _)%bool = true |- _ => apply andb_true_iff in H; destruct H
  | H : (_ || _)%bool = false |- _ => apply orb_false_iff in H; destruct H
  | H : negb _ = true |- _ => apply negb_true_iff in H
  | H : negb _ = false |- _ => apply negb_false_iff in H
  | H : (_ <? _) = true |- _ => apply Z.ltb_lt in H
  | H : (_ <? _) = false |- _ => apply Z.ltb_ge in H
  | H : (_ <=? _) = true |- _ => apply Z.leb_le in H
  | H : (_ <=? _) = false |- _ => apply Z.leb_gt in H
  | H : (_ =? _) = true |- _ => apply Z.eqb_eq in H
  | H : (_ =? _) = false |- _ => apply Z.eqb_neq in H
  | H : Nat.eqb _ _ = true |- _ => apply Nat.eqb_eq in H
  | H : Nat.eqb _ _ = false |- _ => apply Nat.eqb_neq in H
  | H : Nat.ltb _ _ = true |- _ => apply Nat.ltb_lt in H
  | H : Nat.ltb _ _ = false |- _ => apply Nat.ltb_ge in H
  | H : Nat.leb _ _ = true |- _ => apply Nat.leb_le in H
  | H : Nat.leb _ _ = false |- _ => apply Nat.leb_gt in H
  end.

(** Inverts an equation between a [bind] chain and a value: every step that
    could have failed is named. *)
Ltac inv_bind H :=
  match type of H with
  | bind ?c _ = Ok _ =>
      let E := fresh "E" in
      destruct c as [?a|?e] eqn:E; cbn [bind] in H; [| discriminate H]
  end.
Ltac inv_guard :=
  repeat match goal with
  | H : guard ?b _ = Ok _ |- _ =>
      let E := fresh "G" in destruct b eqn:E; cbn [guard] in H; [clear H | discriminate H]
  end.
Ltac inv_ok :=
  repeat match goal with
  | H : Ok _ = Ok _ |- _ => injection H as H; subst
  | H : Err _ = Ok _ |- _ => discriminate H
  | H : Ok _ = Err _ |- _ => discriminate H
  | H : (_, _) = (_, _) |- _ => injection H as H; subst
  | H : Some _ = Some _ |- _ => injection H as H; subst
  end.

(** Linear arithmetic with [/] and [mod] by constants. *)
Ltac dmlia := Z.div_mod_to_equations; lia.

(** ** Arithmetic lemmas *)

Lemma wrap_range w z : 0 <= w -> in_w w (wrap w z).
Proof. intros. unfold in_w, wrap. apply Z.mod_pos_bound. lia. Qed.

Lemma wrap_small w z : in_w w z -> wrap w z = z.
Proof. unfold in_w, wrap. intros. apply Z.mod_small. assumption. Qed.

Lemma s64_small z : - 2 ^ 63 <= z < 2 ^ 63 -> s64 z = z.
Proof.
  unfold s64, wrap. intros. destruct (Z.lt_ge_cases z 0).
  - rewrite <- (Zmod_unique z (2 ^ 64) (-1) (z + 2 ^ 64)) by lia.
    destruct (Z.ltb_spec (z + 2 ^ 64) (2 ^ 63)); lia.
  - rewrite Z.mod_small by lia. destruct (Z.ltb_spec z (2 ^ 63)); lia.
Qed.

Lemma in_wb_spec w z : in_wb w z = true <-> in_w w z.
Proof. unfold in_wb, in_w. rewrite andb_true_iff, Z.leb_le, Z.ltb_lt. reflexivity. Qed.

Lemma byte_range b : 0 <= u8 b < 256.
Proof. apply byte.unsigned_range. Qed.

Lemma u8_b8 z : 0 <= z < 256 -> u8 (b8 z) = z.
Proof. intros. rewrite byte.unsigned_of_Z. apply Z.mod_small. exact H. Qed.

Lemma u8_b8_wrap z : u8 (b8 z) = z mod 256.
Proof. apply byte.unsigned_of_Z. Qed.

Lemma b8_u8 b : b8 (u8 b) = b.
Proof. apply byte.of_Z_unsigned. Qed.

Lemma b8_inj x y : 0 <= x < 256 -> 0 <= y < 256 -> b8 x = b8 y -> x = y.
Proof. intros Hx Hy H. apply (f_equal u8) in H. rewrite !u8_b8 in H; assumption. Qed.

#[export] Hint Resolve byte_range wrap_range : disc.

(** Disjoint bit fields: [or] is [+]. *)
Lemma lor_shiftl_add a b n : 0 <= n -> 0 <= a < 2 ^ n -> Z.lor a (Z.shiftl b n) = a + b * 2 ^ n.
Proof.
  intros Hn Ha. rewrite <- Z.shiftl_mul_pow2 by lia. apply or_to_plus.
  apply Z.bits_inj'. intros i Hi. rewrite Z.land_spec, Z.bits_0.
  destruct (Z.lt_ge_cases i n).
  - rewrite Z.shiftl_spec_low by lia. apply andb_false_r.
  - rewrite <- (Z.mod_small a (2 ^ n)) by lia.
    rewrite Z.mod_pow2_bits_high by lia. reflexivity.
Qed.

(** ** Byte-list lemmas *)

Lemma byte_eqb_eq x y : Byte.eqb x y = true <-> x = y.
Proof.
  split; [apply Byte.byte_dec_bl | apply Byte.byte_dec_lb].
Qed.

Lemma bytes_eqb_eq a : forall b, a ==b b = true <-> a = b.
Proof.
  induction a as [|x a IH]; destruct b as [|y b]; cbn; try (split; congruence).
  rewrite andb_true_iff, byte_eqb_eq, IH. split; [intros [-> ->]; reflexivity|].
  intros H; injection H; auto.
Qed.

Lemma bytes_eqb_refl a : a ==b a = true.
Proof. apply bytes_eqb_eq. reflexivity. Qed.

Lemma bytes_eq_dec (a b : bytes) : {a = b} + {a <> b}.
Proof.
  destruct (bytes_eqb a b) eqn:E; [left; now apply bytes_eqb_eq|right].
  intros ->. rewrite bytes_eqb_refl in E. discriminate.
Qed.

Lemma firstn_app_exact {A} (l r : list A) n : length l = n -> firstn n (l ++ r) = l.
Proof. intros <-. rewrite firstn_app, Nat.sub_diag, firstn_all, firstn_O, app_nil_r. reflexivity. Qed.

Lemma skipn_app_exact {A} (l r : list A) n : length l = n -> skipn n (l ++ r) = r.
Proof. intros <-. rewrite skipn_app, Nat.sub_diag, skipn_all. reflexivity. Qed.

Lemma Forall_take {A} (P : A -> Prop) n l : Forall P l -> Forall P (firstn n l).
Proof. rewrite <- (firstn_skipn n l) at 1. rewrite Forall_app. tauto. Qed.

Lemma split_at {A} n (l : list A) : (n <= length l)%nat ->
  exists a b, l = a ++ b /\ length a = n /\ length b = (length l - n)%nat.
Proof.
  intros. exists (firstn n l), (skipn n l). rewrite firstn_skipn, length_firstn, length_skipn. split; [reflexivity|]. lia.
Qed.

(** Little-endian numbers are positional. *)
Lemma le_combine_app_add a b :
  le_combine (a ++ b) = le_combine a + le_combine b * 2 ^ (8 * Z.of_nat (length a)).
Proof.
  rewrite le_combine_app, (Z.mul_comm (Z.of_nat _) 8).
  apply lor_shiftl_add; [lia|]. apply le_combine_bound.
Qed.

(** Equal-length prefixes of equal lists are equal. *)
Lemma app_inj_len {A} (a a' b b' : list A) :
  length a = length a' -> a ++ b = a' ++ b' -> a = a' /\ b = b'.
Proof.
  revert a'. induction a as [|x a IH]; destruct a' as [|y a']; cbn; intros L H; try discriminate.
  - auto.
  - injection H as -> H. destruct (IH a') as [-> ->]; auto.
Qed.

#[export] Hint Rewrite @length_app @length_map @repeat_length @length_rev : disc.

(** ** Collisions

    [h] takes two different members of [l] to one value.  Theorems that bind a
    hash to what was hashed name the strings that were hashed: some collision
    exists for every hash function with a bounded output, a collision among given
    strings does not. *)
Definition collides (h : bytes -> bytes) (l : list bytes) : Prop :=
  exists x y, In x l /\ In y l /\ x <> y /\ h x = h y.

Lemma collides_incl h l l' : incl l l' -> collides h l -> collides h l'.
Proof. intros I (x & y & Hx & Hy & H). exists x, y. auto. Qed.

Lemma hash_cases h l x y : In x l -> In y l -> h x = h y -> x = y \/ collides h l.
Proof. intros Hx Hy H. destruct (bytes_eq_dec x y); [auto|right]. exists x, y. auto. Qed.

Lemma hash_cases2 h x y : h x = h y -> x = y \/ collides h [x; y].
Proof. apply hash_cases; cbn; auto. Qed.
