(* ===== verification/Config.v ===== *)
(** * Consensus constants

    [CryptoNoteConfig.h] (namespace [parameters]), the wire sizes of
    [include/CryptoNote.h], the transaction subtypes of [include/PqTxType.h], and
    the two fee functions the configuration header defines. *)

From Stdlib Require Import ZArith Lia Bool.
From S2P Require Import Prelude.
Open Scope Z_scope.
Open Scope discrete_scope.

Module parameters.

Definition DIFFICULTY_TARGET : Z := 90.
Definition EXPECTED_NUMBER_OF_BLOCKS_PER_DAY : Z := 24 * 60 * 60 / DIFFICULTY_TARGET.
Definition CRYPTONOTE_MAX_BLOCK_NUMBER : Z := 500000000.
Definition CRYPTONOTE_MINED_MONEY_UNLOCK_WINDOW : Z := 10.
Definition CRYPTONOTE_FINALITY_DEPTH : Z := 10.
Definition EMISSION_CURVE_TARGET : Z := 2100000000.
Definition TAIL_EMISSION_REWARD : Z := 100.
Definition CRYPTONOTE_COIN_VERSION : Z := 1.
Definition EMISSION_SPEED_FACTOR : Z := 18.
Definition CRYPTONOTE_BLOCK_GRANTED_FULL_REWARD_ZONE : Z := 1000000.
Definition MINIMUM_FEE : Z := 1.
Definition MAX_EXTRA_SIZE : Z := 4096.
Definition MAX_EXTRA_SIZE_PQ : Z := 4096.
Definition TX_EXTRA_FEE_FREE_BYTES : Z := 3200.
Definition TX_EXTRA_FEE_CHUNK_BYTES : Z := 100.
Definition MAX_PQ_INPUTS_PER_TX : Z := 32.
Definition MAX_PQ_OUTPUTS_PER_TX : Z := 64.
Definition MAX_PQ_TX_SIZE : Z := 256 * 1024.
Definition MAX_PQ_GROUPED_INPUTS_PER_TX : Z := 256.
Definition FREE_REG_REF_WINDOW : Z := 60.
Definition FREE_REG_PER_BLOCK : Z := 100.
Definition FREE_REG_POW_TARGET : Z := 0x00007FFFFFFFFFFF.
Definition PQ_TRANSCRIPT_V2_HEIGHT : Z := 2 ^ 32 - 1.
Definition PQ_GROUPED_AUTH_HEIGHT : Z := PQ_TRANSCRIPT_V2_HEIGHT.
Definition DIFFICULTY_WINDOW : Z := 60.
Definition MINIMUM_DIFFICULTY : Z := 100000.
Definition CRYPTONOTE_BLOCK_FUTURE_TIME_LIMIT_V1 : Z := DIFFICULTY_TARGET * 3.
Definition BLOCKCHAIN_TIMESTAMP_CHECK_WINDOW_V1 : Z := 11.
Definition CRYPTONOTE_REWARD_BLOCKS_WINDOW : Z := 100.
Definition CRYPTONOTE_LOCKED_TX_ALLOWED_DELTA_BLOCKS : Z := 1.
Definition FREE_REG_POOL_LIMIT : Z := FREE_REG_PER_BLOCK * 20.
Definition CRYPTONOTE_COINBASE_BLOB_RESERVED_SIZE : Z := 600.
Definition CRYPTONOTE_MEMPOOL_TX_LIVETIME : Z := 60 * 60 * 24.
Definition CRYPTONOTE_MEMPOOL_TX_FROM_ALT_BLOCK_LIVETIME : Z := 60 * 60 * 24 * 7.
Definition CRYPTONOTE_NUMBER_OF_PERIODS_TO_FORGET_TX_DELETED_FROM_POOL : Z := 7.
Definition FREE_REG_BAD_PROOF_CACHE_SIZE : Z := 8192.
Definition UPGRADE_HEIGHT_V2 : Z := 4294967294.
Definition UPGRADE_HEIGHT_V3 : Z := 4294967294.
Definition UPGRADE_HEIGHT_V4 : Z := 4294967294.
Definition UPGRADE_HEIGHT_V5 : Z := 4294967294.
Definition UPGRADE_HEIGHT_V6 : Z := 4294967294.
Definition UPGRADE_HEIGHT_V7 : Z := 4294967294.
Definition UPGRADE_HEIGHT_V8 : Z := 4294967294.
Definition PQ_DELIVERY_V2_HEIGHT : Z := 4294967294.
Definition PQ_DELIVERY_V2_HEIGHT_TESTNET : Z := 4294967294.
Definition MAX_BLOCK_SIZE_INITIAL : Z := 1000000.
Definition MAX_BLOCK_SIZE_GROWTH_SPEED_NUMERATOR : Z := 512 * 1024.
Definition MAX_BLOCK_SIZE_GROWTH_SPEED_DENOMINATOR : Z := 365 * 24 * 60 * 60 / DIFFICULTY_TARGET.

(** [pqTxExtraSurcharge]: one [minFee] per started chunk past the allowance, in
    64-bit arithmetic. *)
Definition pqTxExtraSurcharge (minFee extraSize : Z) : Z :=
  if extraSize <=? TX_EXTRA_FEE_FREE_BYTES then 0
  else
    let chargeable := w64 (extraSize - TX_EXTRA_FEE_FREE_BYTES) in
    w64 (minFee * (w64 (chargeable + TX_EXTRA_FEE_CHUNK_BYTES - 1) / TX_EXTRA_FEE_CHUNK_BYTES)).

Definition pqTxFeeFloor (minFee extraSize : Z) : Z :=
  w64 (minFee + pqTxExtraSurcharge minFee extraSize).

End parameters.

Definition TRANSACTION_VERSION_1 : Z := 1.
Definition BLOCK_MAJOR_VERSION_1 : Z := 1.
Definition BLOCK_MAJOR_VERSION_2 : Z := 2.
Definition BLOCK_MAJOR_VERSION_3 : Z := 3.
Definition BLOCK_MAJOR_VERSION_4 : Z := 4.
Definition BLOCK_MAJOR_VERSION_5 : Z := 5.
Definition BLOCK_MAJOR_VERSION_6 : Z := 6.
Definition BLOCK_MAJOR_VERSION_7 : Z := 7.
Definition BLOCK_MAJOR_VERSION_8 : Z := 8.

(** [maxExtraSize]: the coinbase cap. *)
Definition maxExtraSize (blockMajorVersion : Z) : Z := parameters.MAX_EXTRA_SIZE_PQ.

(** Wire sizes ([include/CryptoNote.h]). *)
Definition PQ_KEM_CIPHERTEXT_SIZE : Z := 1088.
Definition PQ_ENC_PAYLOAD_SIZE : Z := 56.
Definition PQ_AUTH_PUB_SIZE : Z := 1952.
Definition PQ_RHO_SIZE : Z := 32.
Definition PQ_SIGNATURE_SIZE : Z := 3309.
Definition PQ_NO_KEY_REF : Z := 0xFFFFFFFF.

(** Transaction subtypes ([include/PqTxType.h]). *)
Definition TX_COINBASE : Z := 0x00.
Definition TX_PQ : Z := 0x01.
Definition TX_FREE_REG : Z := 0x03.
Definition TX_PQ_V2 : Z := 0x04.
Definition isPqTransfer (txType : Z) : bool := (txType =? TX_PQ) || (txType =? TX_PQ_V2).

(** Within the consensus cap on [tx_extra] nothing wraps: the floor is the
    mathematical one. *)
Lemma pqTxFeeFloor_exact minFee n :
  0 <= minFee < 2 ^ 56 -> 0 <= n <= parameters.MAX_EXTRA_SIZE_PQ ->
  parameters.pqTxFeeFloor minFee n = minFee * (1 + Z.max 0 (n - 3200 + 99) / 100).
Proof.
  unfold parameters.pqTxFeeFloor, parameters.pqTxExtraSurcharge, parameters.MAX_EXTRA_SIZE_PQ,
    parameters.TX_EXTRA_FEE_FREE_BYTES, parameters.TX_EXTRA_FEE_CHUNK_BYTES, wrap.
  intros Hf Hn. destruct (Z.leb_spec n 3200).
  - rewrite Z.mod_small by lia. replace (Z.max 0 (n - 3200 + 99) / 100) with 0; [lia|].
    symmetry. apply Z.div_small. lia.
  - rewrite (Z.mod_small (n - 3200)) by lia. rewrite (Z.mod_small (n - 3200 + 100 - 1)) by lia.
    replace (Z.max 0 (n - 3200 + 99)) with (n - 3200 + 100 - 1) by lia.
    assert (0 <= (n - 3200 + 100 - 1) / 100 <= 9) by dmlia.
    rewrite (Z.mod_small (minFee * _)) by nia. rewrite Z.mod_small by nia. lia.
Qed.
