(* ===== verification/Varint.v ===== *)
(** * Variable-length integers and byte streams

    [Common/MemoryInputStream.cpp] (the stream every wire object is read from),
    [Common/StreamTools.cpp] ([read], [readVarint], [writeVarint]),
    [Common/Varint.h] ([write_varint], [read_varint]) and the private varint pair
    of [crypto_pq/PqAddress.cpp].  The theorems show that the stream reader
    accepts exactly the image of the writer: one encoding per integer. *)

From Stdlib Require Import ZArith List Lia Bool.
From coqutil Require Import Byte Z.bitblast.
From S2P Require Import Prelude.
Import ListNotations.
Open Scope Z_scope.
Open Scope discrete_scope.

(** The exceptions thrown while an object is read from or written to a stream,
    one per [throw] of the modelled code. *)
Inductive exn : Type :=
| EndOfStream            (** "Failed to read from IInputStream" *)
| VarintOverflow         (** "readVarint, value overflow" *)
| VarintInvalid          (** "readVarint, invalid value representation" *)
| ArraySizeTooBig        (** "array size does not fit in size_t" *)
| StringTooBig           (** "string size is too big" *)
| WrongTxVersion         (** "Wrong transaction version" *)
| KeyInputNotAllowed     (** "KeyInput (ECC ring-sig) not allowed" *)
| KeyRefOutOfRange       (** "PqInput key reference out of range" *)
| UnknownInputTag        (** "Unknown transaction input tag" *)
| KeyOutputNotAllowed    (** "KeyOutput (ECC stealth) not allowed" *)
| UnknownOutputTag       (** "Unknown transaction output tag" *)
| WrongFieldSize         (** "PQ wire field has wrong size" *)
| TooManyPqInputs        (** "too many PQ inputs before key-reference expansion" *)
| BadKeyRef              (** "key reference does not name an earlier key-carrying input" *)
| WrongBlockVersion.     (** "Wrong block major version" *)

(** A [MemoryInputStream] is the part of its buffer after [position]. *)
Definition stream := bytes.

(** A reader consumes a prefix of the stream or throws. *)
Definition reader (A : Type) := stream -> result exn (A * stream).

Module MemoryInputStream.

Definition endOfStream (s : stream) : bool := match s with [] => true | _ => false end.

(** [readSome]: up to [size] bytes, fewer when the buffer ends. *)
Definition readSome (s : stream) (size : Z) : bytes * stream :=
  let readSize := Z.to_nat (Z.min size (Z.of_nat (length s))) in
  (firstn readSize s, skipn readSize s).

End MemoryInputStream.

Module StreamTools.
Import MemoryInputStream.

(** [read(in, data, size)]: loops over [readSome] until [size] bytes arrived. *)
Fixpoint read_loop (fuel : nat) (s : stream) (data : bytes) (size : Z)
  : result exn (bytes * stream) :=
  if 0 <? size then
    match fuel with
    | O => Err EndOfStream
    | S fuel =>
        let (chunk, s') := readSome s size in
        let readSize := Z.of_nat (length chunk) in
        if readSize =? 0 then Err EndOfStream
        else read_loop fuel s' (data ++ chunk) (size - readSize)
    end
  else Ok (data, s).

Definition read (size : Z) : reader bytes := fun s => read_loop (S (length s)) s [] size.

(** [read<uint8_t>(in)] *)
Definition read_u8 : reader byte := fun s =>
  let* (d, s') := read 1 s in
  match d with b :: _ => Ok (b, s') | [] => Err EndOfStream end.

(** [readVarint(in, uintW_t&)]; the four overloads differ in the width [w]. *)
Fixpoint readVarint_loop (w shift temp : Z) (s : stream) : result exn (Z * stream) :=
  match s with
  | [] => Err EndOfStream
  | piece :: s' =>
      if (w - 7 <=? shift) && (2 ^ (w - shift) <=? u8 piece) then Err VarintOverflow
      else
        let temp := wrap w (Z.lor temp (Z.shiftl (Z.land (u8 piece) 0x7f) shift)) in
        if Z.land (u8 piece) 0x80 =? 0 then
          if (u8 piece =? 0) && negb (shift =? 0) then Err VarintInvalid
          else Ok (temp, s')
        else readVarint_loop w (shift + 7) temp s'
  end.

Definition readVarint (w : Z) : reader Z := readVarint_loop w 0 0.

(** [writeVarint(out, uint64_t)]: ten 7-bit groups cover a 64-bit value. *)
Fixpoint writeVarint_loop (fuel : nat) (value : Z) : bytes :=
  match fuel with
  | O => []
  | S fuel =>
      if 0x80 <=? value
      then b8 (Z.lor value 0x80) :: writeVarint_loop fuel (Z.shiftr value 7)
      else [b8 value]
  end.

Definition writeVarint (value : Z) : bytes := writeVarint_loop 10 value.

End StreamTools.

Module Tools.

(** [Tools::write_varint] *)
Fixpoint write_varint_loop (fuel : nat) (i : Z) : bytes :=
  match fuel with
  | O => []
  | S fuel =>
      if 0x80 <=? i
      then b8 (Z.lor (Z.land (wrap 8 i) 0x7f) 0x80) :: write_varint_loop fuel (Z.shiftr i 7)
      else [b8 i]
  end.

Definition write_varint (i : Z) : bytes := write_varint_loop 10 i.

(** [Tools::get_varint_data] *)
Definition get_varint_data (v : Z) : bytes := write_varint v.

(** [Tools::read_varint<bits>]: returns the number of bytes read, [-1] for an
    overflow, [-2] for a non-canonical form, the value and the rest.  Running
    out of input ends the loop with what was read so far. *)
Fixpoint read_varint_loop (bits shift read i : Z) (s : bytes) : Z * Z * bytes :=
  match s with
  | [] => (read, i, [])
  | b :: s' =>
      let read := read + 1 in
      if (bits <=? shift + 7) && (2 ^ (bits - shift) <=? u8 b) then (-1, i, s')
      else if (u8 b =? 0) && negb (shift =? 0) then (-2, i, s')
      else
        let i := wrap bits (Z.lor i (Z.shiftl (Z.land (u8 b) 0x7f) shift)) in
        if Z.land (u8 b) 0x80 =? 0 then (read, i, s')
        else read_varint_loop bits (shift + 7) read i s'
  end.

Definition read_varint (bits : Z) (s : bytes) : Z * Z * bytes := read_varint_loop bits 0 0 0 s.

End Tools.

Module AddressVarint.

(** [writeVarint] of [PqAddress.cpp] *)
Fixpoint writeVarint_loop (fuel : nat) (v : Z) : bytes :=
  match fuel with
  | O => []
  | S fuel =>
      if 0x80 <=? v
      then b8 (Z.lor (Z.land v 0x7f) 0x80) :: writeVarint_loop fuel (Z.shiftr v 7)
      else [b8 (Z.land v 0x7f)]
  end.

Definition writeVarint (v : Z) : bytes := writeVarint_loop 10 v.

(** [readVarint] of [PqAddress.cpp]: no canonicality check. *)
Fixpoint readVarint_loop (shift v : Z) (s : bytes) : option (Z * bytes) :=
  match s with
  | [] => None
  | b :: s' =>
      if 63 <? shift then None
      else
        let v := Z.lor v (wrap 64 (Z.shiftl (Z.land (u8 b) 0x7f) shift)) in
        if Z.land (u8 b) 0x80 =? 0 then Some (v, s')
        else readVarint_loop (shift + 7) v s'
  end.

Definition readVarint (s : bytes) : option (Z * bytes) := readVarint_loop 0 0 s.

End AddressVarint.

(** ** Lemmas *)

Import MemoryInputStream StreamTools.

Lemma land_127 z : Z.land z 0x7f = z mod 128.
Proof. change 0x7f with (Z.ones 7). apply Z.land_ones. lia. Qed.

Lemma shiftr_7 z : Z.shiftr z 7 = z / 128.
Proof. apply Z.shiftr_div_pow2. lia. Qed.

(** The continuation bit of a byte. *)
Lemma land_128 b : (Z.land (u8 b) 0x80 =? 0) = (u8 b <? 128).
Proof. destruct b; reflexivity. Qed.

Lemma cont_byte q : 0 <= q -> u8 (b8 (Z.lor q 0x80)) = q mod 128 + 128.
Proof.
  intros Hq. rewrite u8_b8_wrap.
  replace (q mod 128 + 128) with (Z.lor (q mod 2 ^ 7) (Z.shiftl 1 7))
    by (rewrite lor_shiftl_add; [reflexivity | lia | apply Z.mod_pos_bound; lia]).
  change 256 with (2 ^ 8). change 0x80 with (Z.shiftl 1 7).
  Z.bitblast.
  - replace l with 0 by lia. cbn [Z.testbit]. rewrite !orb_true_r. reflexivity.
  - rewrite (Z.bits_above_log2 1 l) by (cbn; lia). reflexivity.
Qed.

(** The writer's loop: ten groups are enough for every 64-bit value. *)
Lemma writeVarint_loop_fuel f : forall q, 0 <= q < 128 * 128 ^ Z.of_nat f ->
  writeVarint_loop (S f) q = writeVarint_loop (S (S f)) q.
Proof.
  induction f as [|f IH]; intros q Hq.
  - cbn [writeVarint_loop]. destruct (Z.leb_spec 0x80 q); [cbn in Hq; lia | reflexivity].
  - remember (S f) as g. cbn [writeVarint_loop]. subst g.
    destruct (Z.leb_spec 0x80 q); [|reflexivity].
    rewrite shiftr_7, IH; [reflexivity|]. split; [apply Z.div_pos; lia|].
    apply Z.div_lt_upper_bound; [lia|].
    rewrite Nat2Z.inj_succ, Z.pow_succ_r in Hq by lia. lia.
Qed.

Lemma writeVarint_small q : q < 128 -> writeVarint q = [b8 q].
Proof. intros. unfold writeVarint. cbn [writeVarint_loop]. destruct (Z.leb_spec 0x80 q); [lia|reflexivity]. Qed.

Lemma writeVarint_step q : 128 <= q < 2 ^ 64 ->
  writeVarint q = b8 (Z.lor q 0x80) :: writeVarint (q / 128).
Proof.
  intros Hq. unfold writeVarint at 1. cbn [writeVarint_loop].
  destruct (Z.leb_spec 0x80 q); [|lia]. rewrite shiftr_7.
  f_equal. apply (writeVarint_loop_fuel 8). split; [apply Z.div_pos; lia|].
  apply Z.div_lt_upper_bound; lia.
Qed.

Lemma writeVarint_nonnil q : writeVarint q <> [].
Proof. unfold writeVarint. cbn [writeVarint_loop]. destruct (0x80 <=? q); discriminate. Qed.

Lemma writeVarint_length q : (length (writeVarint q) <= 10)%nat.
Proof.
  unfold writeVarint. generalize 10%nat as f. intros f. revert q.
  induction f as [|f IH]; intros q; cbn [writeVarint_loop]; [auto|].
  destruct (0x80 <=? q); cbn [length]; [specialize (IH (Z.shiftr q 7))|]; lia.
Qed.

Lemma le_mul_pos a p : 0 <= a -> 0 < p -> a <= a * p.
Proof. nia. Qed.

(** One group read: the accumulator grows by [d * 2 ^ shift] without wrapping. *)
Lemma acc_step w shift temp d :
  0 <= shift -> 0 <= temp < 2 ^ shift -> 0 <= d < 128 -> temp + d * 2 ^ shift < 2 ^ w ->
  wrap w (Z.lor temp (Z.shiftl d shift)) = temp + d * 2 ^ shift.
Proof.
  intros Hs Ht Hd Hw. rewrite lor_shiftl_add by lia. apply wrap_small. unfold in_w.
  split; [|exact Hw]. assert (0 < 2 ^ shift) by (apply Z.pow_pos_nonneg; lia). nia.
Qed.

Section StreamVarint.
Variable w : Z.
Hypothesis w_min : 7 <= w.
Hypothesis w_max : w <= 64.

(** The value a suspended read still has to deliver. *)
Definition reads (shift temp : Z) (s : stream) (v : Z) (r : stream) : Prop :=
  exists q, 0 <= q /\ (shift <> 0 -> q <> 0) /\ v = temp + q * 2 ^ shift /\ v < 2 ^ w /\
            s = writeVarint q ++ r.

Lemma pow_split shift : 0 <= shift <= w -> 2 ^ w = 2 ^ shift * 2 ^ (w - shift).
Proof. intros. rewrite <- Z.pow_add_r by lia. f_equal. lia. Qed.

Lemma readVarint_sound s : forall shift temp v r,
  0 <= shift < w -> 0 <= temp < 2 ^ shift ->
  readVarint_loop w shift temp s = Ok (v, r) -> reads shift temp s v r.
Proof.
  induction s as [|b s IH]; intros shift temp v r Hs Ht H; [discriminate|].
  cbn [readVarint_loop] in H. rewrite land_127, land_128 in H.
  pose proof (byte_range b) as Hb. pose proof (pow_split shift ltac:(lia)) as Hp.
  assert (0 < 2 ^ shift) by (apply Z.pow_pos_nonneg; lia).
  assert (Hroom : 2 ^ (w - shift) < 128 -> w - 7 <= shift)
    by (intros; destruct (Z.le_gt_cases 8 (w - shift)); [|lia];
        pose proof (Z.pow_le_mono_r 2 8 (w - shift)); lia).
  destruct ((w - 7 <=? shift) && (2 ^ (w - shift) <=? u8 b)) eqn:Ov; [discriminate|].
  assert (Hfit : temp + u8 b mod 128 * 2 ^ shift < 2 ^ w).
  { rewrite Hp. pose proof (Z.mod_pos_bound (u8 b) 128).
    destruct (Z.le_gt_cases (w - 7) shift).
    - replace (w - 7 <=? shift) with true in Ov by (symmetry; apply Z.leb_le; lia).
      cbn in Ov. bprop. pose proof (Z.mod_le (u8 b) 128). nia.
    - pose proof (Z.pow_le_mono_r 2 8 (w - shift)). nia. }
  rewrite acc_step in H by (try apply Z.mod_pos_bound; lia).
  destruct (Z.ltb_spec (u8 b) 128) as [Hlt|Hge].
  - rewrite (Z.mod_small (u8 b) 128) in * by lia.
    destruct ((u8 b =? 0) && negb (shift =? 0)) eqn:C; [discriminate|]. inv_ok.
    exists (u8 b). repeat split; try lia.
    rewrite writeVarint_small, b8_u8 by lia. reflexivity.
  - assert (Hsh : shift + 7 < w).
    { destruct (Z.le_gt_cases (w - 7) shift); [|lia].
      replace (w - 7 <=? shift) with true in Ov by (symmetry; apply Z.leb_le; lia).
      cbn in Ov. bprop. pose proof (Z.pow_le_mono_r 2 (w - shift) 7). lia. }
    pose proof (Z.mod_pos_bound (u8 b) 128).
    assert (Hpow : 2 ^ (shift + 7) = 2 ^ shift * 128) by (rewrite Z.pow_add_r by lia; reflexivity).
    apply IH in H; [|lia|nia]. destruct H as (q & Hq0 & Hqn & -> & Hv & ->).
    assert (Hd : u8 b mod 128 = u8 b - 128) by dmlia.
    exists (q * 128 + u8 b mod 128). rewrite Hpow in *. repeat split; try nia.
    assert (q * 128 + u8 b mod 128 < 2 ^ 64).
    { pose proof (Z.pow_le_mono_r 2 w 64 ltac:(lia) w_max).
      apply Z.le_lt_trans with ((q * 128 + u8 b mod 128) * 2 ^ shift); [apply le_mul_pos; lia|lia]. }
    rewrite (writeVarint_step (q * 128 + _)) by (specialize (Hqn ltac:(lia)); lia). cbn [app]. f_equal.
    + rewrite <- (b8_u8 b) at 1. apply byte.unsigned_inj. rewrite cont_byte by lia.
      rewrite b8_u8. clear - Hd Hb Hge. dmlia.
    + do 2 f_equal. rewrite Z.div_add_l, (Z.div_small (u8 b mod 128)) by lia. lia.
Qed.

Lemma readVarint_last q shift temp r :
  0 <= q < 128 -> (shift <> 0 -> q <> 0) ->
  0 <= shift -> 0 <= temp < 2 ^ shift -> temp + q * 2 ^ shift < 2 ^ w ->
  readVarint_loop w shift temp (writeVarint q ++ r) = Ok (temp + q * 2 ^ shift, r).
Proof.
  intros Hq Hnz Hs Ht Hv. assert (0 < 2 ^ shift) by (apply Z.pow_pos_nonneg; lia).
  rewrite writeVarint_small by lia. cbn [app readVarint_loop].
  rewrite land_127, land_128, u8_b8, Z.mod_small by lia.
  assert (Hov : (w - 7 <=? shift) && (2 ^ (w - shift) <=? q) = false).
  { destruct (Z.leb_spec (w - 7) shift); [|reflexivity]. cbn. apply Z.leb_gt.
    destruct (Z.eq_dec q 0) as [->|Hnq]; [destruct (Z.eq_dec shift 0); [subst|lia];
      apply Z.pow_pos_nonneg; lia|].
    destruct (Z.le_gt_cases shift w); [pose proof (pow_split shift ltac:(lia)); nia|].
    pose proof (Z.pow_lt_mono_r 2 w shift). nia. }
  rewrite Hov, acc_step by lia. destruct (Z.ltb_spec q 128); [|lia].
  assert ((q =? 0) && negb (shift =? 0) = false) as ->; [lia|reflexivity].
Qed.

Lemma readVarint_complete n : forall q shift temp r,
  q < 128 * 128 ^ Z.of_nat n -> 0 <= q -> (shift <> 0 -> q <> 0) ->
  0 <= shift -> 0 <= temp < 2 ^ shift -> temp + q * 2 ^ shift < 2 ^ w ->
  readVarint_loop w shift temp (writeVarint q ++ r) = Ok (temp + q * 2 ^ shift, r).
Proof.
  induction n as [|n IH]; intros q shift temp r Hn Hq Hnz Hs Ht Hv;
    [apply readVarint_last; cbn in Hn; lia|].
  destruct (Z.lt_ge_cases q 128) as [Hlt|Hge]; [apply readVarint_last; lia|].
  assert (0 < 2 ^ shift) by (apply Z.pow_pos_nonneg; lia).
  assert (Hsh : shift < w - 7).
  { destruct (Z.lt_ge_cases shift (w - 7)); [assumption|exfalso].
    assert (2 ^ w <= 2 ^ (shift + 7)) by (apply Z.pow_le_mono_r; lia).
    rewrite Z.pow_add_r in * by lia. nia. }
  assert (q < 2 ^ 64).
  { pose proof (Z.pow_le_mono_r 2 w 64 ltac:(lia) w_max).
    apply Z.le_lt_trans with (q * 2 ^ shift); [apply le_mul_pos; lia|lia]. }
  rewrite writeVarint_step by lia. cbn [app readVarint_loop].
  rewrite land_127, land_128, cont_byte by lia.
  pose proof (Z.mod_pos_bound q 128 ltac:(lia)). pose proof (Z.div_mod q 128 ltac:(lia)).
  replace (w - 7 <=? shift) with false by (symmetry; apply Z.leb_gt; lia). cbn [andb].
  replace ((q mod 128 + 128) mod 128) with (q mod 128) by dmlia.
  destruct (Z.ltb_spec (q mod 128 + 128) 128); [lia|].
  rewrite acc_step by nia.
  assert (Hpow : 2 ^ (shift + 7) = 2 ^ shift * 128) by (rewrite Z.pow_add_r by lia; reflexivity).
  rewrite Nat2Z.inj_succ, Z.pow_succ_r in Hn by lia.
  assert (Hsum : temp + q mod 128 * 2 ^ shift + q / 128 * (2 ^ shift * 128) = temp + q * 2 ^ shift)
    by (transitivity (temp + (128 * (q / 128) + q mod 128) * 2 ^ shift); [ring | congruence]).
  rewrite IH; rewrite ?Hpow, ?Hsum; try lia; try reflexivity.
  nia.
Qed.

(** Reading accepts exactly the writer's encodings. *)
Lemma readVarint_iff s v r :
  readVarint w s = Ok (v, r) <-> in_w w v /\ s = writeVarint v ++ r.
Proof.
  unfold readVarint, in_w. split.
  - intros H. apply readVarint_sound in H; try lia.
    destruct H as (q & ? & _ & -> & ? & ->). replace (0 + q * 2 ^ 0) with q in * by lia. auto.
  - intros [Hv ->]. rewrite (readVarint_complete 9); try lia.
    + do 2 f_equal. lia.
    + pose proof (Z.pow_le_mono_r 2 w 64). cbn. lia.
Qed.

End StreamVarint.

(** ** Raw reads *)

Lemma readSome_length s size : 0 <= size ->
  Z.of_nat (length (fst (readSome s size))) = Z.min size (Z.of_nat (length s)).
Proof. intros. cbn [fst readSome]. rewrite length_firstn. lia. Qed.

Lemma read_ok_iff n s d r : 0 <= n ->
  read n s = Ok (d, r) <-> s = d ++ r /\ Z.of_nat (length d) = n.
Proof.
  intros Hn. unfold read. cbn [read_loop].
  destruct (Z.ltb_spec 0 n) as [Hpos|Hz].
  2:{ split; [intros; inv_ok; cbn; split; [reflexivity|lia]|].
      intros [-> Hl]. destruct d; cbn in Hl; [reflexivity|lia]. }
  unfold readSome. set (k := Z.to_nat (Z.min n (Z.of_nat (length s)))).
  assert (Hk : length (firstn k s) = k) by (rewrite length_firstn; lia).
  rewrite Hk. destruct (Z.eqb_spec (Z.of_nat k) 0) as [Hk0|Hk0].
  { split; [discriminate|]. intros [Heq Hl]. apply (f_equal (@length _)) in Heq.
    rewrite length_app in Heq. lia. }
  cbn [app]. destruct (length s) as [|m] eqn:Hs; [lia|].
  destruct (Z.le_gt_cases n (Z.of_nat (S m))) as [Hle|Hgt].
  - cbn [read_loop]. replace (n - Z.of_nat k) with 0 by lia. cbn [Z.ltb Z.compare].
    split.
    + intros; inv_ok. rewrite firstn_skipn, Hk. split; [reflexivity|lia].
    + intros [-> Hl]. replace k with (length d) by lia.
      rewrite firstn_app_exact, skipn_app_exact by reflexivity. reflexivity.
  - split.
    + cbn [read_loop]. destruct (Z.ltb_spec 0 (n - Z.of_nat k)); [|lia].
      replace k with (length s) by lia. rewrite skipn_all. cbn. rewrite Z.min_r, firstn_nil by lia.
      discriminate.
    + intros [Heq Hl]. apply (f_equal (@length _)) in Heq. rewrite length_app in Heq. lia.
Qed.

Lemma read_u8_iff s b r : read_u8 s = Ok (b, r) <-> s = b :: r.
Proof.
  unfold read_u8. split.
  - intros H. destruct (read 1 s) as [[d r']|] eqn:E; [|discriminate]. cbn [bind] in H.
    apply read_ok_iff in E as [-> Hl]; [|lia]. destruct d as [|x [|]]; cbn in Hl; try lia.
    inv_ok. reflexivity.
  - intros ->. rewrite (proj2 (read_ok_iff 1 (b :: r) [b] r ltac:(lia))); auto.
Qed.

(** ** The other varint implementations *)

Lemma cont_byte_masked q : 0 <= q ->
  b8 (Z.lor (Z.land q 0x7f) 0x80) = b8 (Z.lor q 0x80).
Proof.
  intros. apply byte.unsigned_inj. rewrite land_127, !cont_byte by (lia || dmlia).
  rewrite Z.mod_mod by lia. reflexivity.
Qed.

Lemma tools_write_varint_eq v : 0 <= v -> Tools.write_varint v = writeVarint v.
Proof.
  unfold Tools.write_varint, writeVarint. generalize 10%nat as f. intros f. revert v.
  induction f as [|f IH]; intros v Hv; [reflexivity|].
  cbn [Tools.write_varint_loop writeVarint_loop].
  destruct (Z.leb_spec 0x80 v); [|reflexivity].
  rewrite IH by (apply Z.shiftr_nonneg; lia). f_equal.
  unfold wrap. rewrite cont_byte_masked by dmlia. apply byte.unsigned_inj.
  rewrite !cont_byte by dmlia. dmlia.
Qed.

Lemma address_writeVarint_eq v : 0 <= v -> AddressVarint.writeVarint v = writeVarint v.
Proof.
  unfold AddressVarint.writeVarint, writeVarint. generalize 10%nat as f. intros f. revert v.
  induction f as [|f IH]; intros v Hv; [reflexivity|].
  cbn [AddressVarint.writeVarint_loop writeVarint_loop].
  destruct (Z.leb_spec 0x80 v).
  - rewrite IH by (apply Z.shiftr_nonneg; lia). rewrite cont_byte_masked by lia. reflexivity.
  - rewrite land_127, Z.mod_small by lia. reflexivity.
Qed.

(** [Tools::read_varint] and the stream reader walk the same state. *)
Lemma read_varint_loop_agrees bits s : forall shift n i,
  match readVarint_loop bits shift i s with
  | Ok (v, r) => Tools.read_varint_loop bits shift n i s = (n + Z.of_nat (length s) - Z.of_nat (length r), v, r)
  | Err VarintOverflow => fst (fst (Tools.read_varint_loop bits shift n i s)) = -1
  | Err VarintInvalid => fst (fst (Tools.read_varint_loop bits shift n i s)) = -2
  | Err _ => exists v, Tools.read_varint_loop bits shift n i s = (n + Z.of_nat (length s), v, [])
  end.
Proof.
  induction s as [|b s IH]; intros shift n i; cbn [readVarint_loop Tools.read_varint_loop].
  - exists i. cbn. rewrite Z.add_0_r. reflexivity.
  - replace (bits <=? shift + 7) with (bits - 7 <=? shift) by lia.
    destruct ((bits - 7 <=? shift) && (2 ^ (bits - shift) <=? u8 b)); [reflexivity|].
    set (i' := wrap bits _). rewrite land_128.
    destruct (Z.ltb_spec (u8 b) 128).
    + destruct ((u8 b =? 0) && negb (shift =? 0)); [reflexivity|].
      do 2 f_equal. cbn [length]. lia.
    + replace (u8 b =? 0) with false by lia. cbn [andb].
      specialize (IH (shift + 7) (n + 1) i').
      destruct (readVarint_loop bits (shift + 7) i' s) as [[v r]|[]]; try exact IH.
      all: rewrite ?IH; cbn [length]; try (destruct IH as [v ->]; exists v);
           do 2 f_equal; lia.
Qed.

(** ** The address varint: complete, but not canonical *)

Lemma address_readVarint_last q shift temp r :
  0 <= q < 128 -> 0 <= shift <= 63 -> 0 <= temp < 2 ^ shift -> temp + q * 2 ^ shift < 2 ^ 64 ->
  AddressVarint.readVarint_loop shift temp (writeVarint q ++ r) = Some (temp + q * 2 ^ shift, r).
Proof.
  intros Hq Hs Ht Hv. assert (0 < 2 ^ shift) by (apply Z.pow_pos_nonneg; lia).
  rewrite writeVarint_small by lia. cbn [app AddressVarint.readVarint_loop].
  rewrite land_127, land_128, u8_b8, Z.mod_small by lia.
  destruct (Z.ltb_spec 63 shift); [lia|]. destruct (Z.ltb_spec q 128); [|lia].
  rewrite wrap_small by (unfold in_w; rewrite Z.shiftl_mul_pow2 by lia; nia).
  rewrite lor_shiftl_add by lia. reflexivity.
Qed.

Lemma address_readVarint_complete n : forall q shift temp r,
  q < 128 * 128 ^ Z.of_nat n -> 0 <= q -> 0 <= shift <= 63 -> 0 <= temp < 2 ^ shift ->
  temp + q * 2 ^ shift < 2 ^ 64 ->
  AddressVarint.readVarint_loop shift temp (writeVarint q ++ r) = Some (temp + q * 2 ^ shift, r).
Proof.
  induction n as [|n IH]; intros q shift temp r Hn Hq Hs Ht Hv;
    [apply address_readVarint_last; cbn in Hn; lia|].
  destruct (Z.lt_ge_cases q 128) as [Hlt|Hge]; [apply address_readVarint_last; lia|].
  assert (0 < 2 ^ shift) by (apply Z.pow_pos_nonneg; lia).
  assert (Hsh : shift + 7 <= 63).
  { destruct (Z.le_gt_cases (shift + 7) 63); [assumption|exfalso].
    assert (2 ^ 64 <= 2 ^ (shift + 7)) by (apply Z.pow_le_mono_r; lia).
    rewrite Z.pow_add_r in * by lia. nia. }
  assert (q < 2 ^ 64) by (apply Z.le_lt_trans with (q * 2 ^ shift); [apply le_mul_pos; lia|lia]).
  rewrite writeVarint_step by lia. cbn [app AddressVarint.readVarint_loop].
  rewrite land_127, land_128, cont_byte by lia.
  pose proof (Z.mod_pos_bound q 128 ltac:(lia)). pose proof (Z.div_mod q 128 ltac:(lia)).
  replace ((q mod 128 + 128) mod 128) with (q mod 128) by dmlia.
  destruct (Z.ltb_spec 63 shift); [lia|]. destruct (Z.ltb_spec (q mod 128 + 128) 128); [lia|].
  rewrite wrap_small by (unfold in_w; rewrite Z.shiftl_mul_pow2 by lia; nia).
  rewrite lor_shiftl_add by lia.
  assert (Hpow : 2 ^ (shift + 7) = 2 ^ shift * 128) by (rewrite Z.pow_add_r by lia; reflexivity).
  rewrite Nat2Z.inj_succ, Z.pow_succ_r in Hn by lia.
  assert (Hsum : temp + q mod 128 * 2 ^ shift + q / 128 * (2 ^ shift * 128) = temp + q * 2 ^ shift)
    by (transitivity (temp + (128 * (q / 128) + q mod 128) * 2 ^ shift); [ring | congruence]).
  rewrite IH; rewrite ?Hpow, ?Hsum; try lia; try reflexivity. nia.
Qed.

Lemma address_readVarint_writeVarint v r : in_w 64 v ->
  AddressVarint.readVarint (AddressVarint.writeVarint v ++ r) = Some (v, r).
Proof.
  intros Hv. unfold in_w in Hv. rewrite address_writeVarint_eq by lia. unfold AddressVarint.readVarint.
  rewrite (address_readVarint_complete 9); try lia. do 2 f_equal. lia.
Qed.

(** ** Properties *)

(** The width of one of the four [readVarint] overloads. *)
Definition varint_width (w : Z) : Prop := w = 8 \/ w = 16 \/ w = 32 \/ w = 64.

(** for each of the four integer widths, [readVarint] returns a value and a
    rest exactly when the stream starts with the bytes [writeVarint] produces for
    that value and the value fits the width: the stream reader inverts the
    writer, and every integer has one accepted encoding. *)
Theorem readVarint_exact w s v r (Hw : varint_width w) :
  readVarint w s = Ok (v, r) <-> in_w w v /\ s = writeVarint v ++ r.
Proof. apply readVarint_iff; destruct Hw as [->|[->|[->| ->]]]; lia. Qed.

Lemma readVarint_exact_witness :
  varint_width 64 /\ readVarint 64 (writeVarint 624485 ++ [b8 7]) = Ok (624485, [b8 7]).
Proof.
  split; [unfold varint_width; auto|].
  apply (readVarint_exact 64); [unfold varint_width; auto | split; [split; lia | reflexivity]].
Defined.

(** the template reader of [Varint.h] agrees with the stream reader on every
    input: same value, same rest and the number of bytes consumed on success, [-1]
    exactly for an overflow, [-2] exactly for a non-canonical form; and where the
    stream reader throws because the input ends inside the varint, the template
    reader reports the bytes it saw instead of an error. *)
Theorem read_varint_agrees w s :
  match readVarint w s with
  | Ok (v, r) => Tools.read_varint w s = (Z.of_nat (length s) - Z.of_nat (length r), v, r)
  | Err VarintOverflow => fst (fst (Tools.read_varint w s)) = -1
  | Err VarintInvalid => fst (fst (Tools.read_varint w s)) = -2
  | Err _ => exists v, Tools.read_varint w s = (Z.of_nat (length s), v, [])
  end.
Proof. exact (read_varint_loop_agrees w s 0 0 0). Qed.
