(* ===== verification/Wire.v ===== *)
(** * The binary serializers

    [Serialization/BinaryInputStreamSerializer.cpp] and
    [BinaryOutputStreamSerializer.cpp] (integers, strings, raw blocks, arrays)
    and the container template [serializeContainer] of
    [Serialization/SerializationOverloads.h].

    One C++ [serialize] function runs in both directions; here its two paths are
    a writer and a reader, packed in a [codec].  The class [CodecOk] is what a
    codec promises to the codecs built from it: the reader accepts exactly the
    writer's bytes for the well-formed values.  Every wire object of the program
    is proved against this interface only. *)

From Stdlib Require Import ZArith List Lia Bool.
From coqutil Require Import Byte Word.LittleEndianList.
From S2P Require Import Prelude Varint.
Import ListNotations.
Open Scope Z_scope.
Open Scope discrete_scope.
Import StreamTools.

(** A writer may throw too ("PQ wire field has wrong size"). *)
Definition writer (A : Type) := A -> result exn bytes.

Record codec (A : Type) : Type := mkCodec {
  c_write : writer A;
  c_read : reader A;
  c_wf : A -> Prop       (** the values the type and the format allow *)
}.
Arguments mkCodec {A}.
Arguments c_write {A}.
Arguments c_read {A}.
Arguments c_wf {A}.

Class CodecOk {A} (c : codec A) : Prop := {
  codec_exact : forall s a r,
    c_read c s = Ok (a, r) <-> c_wf c a /\ exists b, c_write c a = Ok b /\ s = b ++ r;
  codec_total : forall a, c_wf c a -> exists b, c_write c a = Ok b;
  codec_nonempty : forall a b, c_wf c a -> c_write c a = Ok b -> b <> []
}.

(** ** Primitives *)

Module BinarySerializer.

(** [operator()(uintW_t&)]: a varint of the value's width. *)
Definition out_uint : writer Z := fun v => Ok (writeVarint v).
Definition in_uint (w : Z) : reader Z := readVarint w.
Definition uint (w : Z) : codec Z := mkCodec out_uint (in_uint w) (in_w w).

(** [binary(void*, size_t)]: [size] raw bytes, no length prefix. *)
Definition out_binary : writer bytes := fun v => Ok v.
Definition in_binary (size : Z) : reader bytes := read size.
Definition binary (size : Z) : codec bytes :=
  mkCodec out_binary (in_binary size) (fun v => Z.of_nat (length v) = size).

(** [operator()(std::string&)] and [binary(std::string&)]: size, then bytes; the
    reader refuses more than 100 MiB, the writer does not look. *)
Definition max_string : Z := 100 * 1024 * 1024.
Definition out_string : writer bytes := fun v =>
  Ok (writeVarint (Z.of_nat (length v)) ++ v).
Definition in_string : reader bytes := fun s =>
  let* (size, s) := readVarint 64 s in
  if max_string <? size then Err StringTooBig
  else if 0 <? size then read size s
  else Ok ([], s).
Definition string_ : codec bytes :=
  mkCodec out_string in_string (fun v => Z.of_nat (length v) <= max_string).

(** [beginArray]: the element count; [size_t] is 64 bits wide. *)
Definition out_beginArray (size : Z) : bytes := writeVarint size.
Definition in_beginArray : reader Z := fun s =>
  let* (count, s) := readVarint 64 s in
  check negb (2 ^ 64 - 1 <? count) else ArraySizeTooBig ;;
  Ok (count, s).

(** [serializeContainer] *)
Fixpoint out_elements {A} (c : codec A) (l : list A) : result exn bytes :=
  match l with
  | [] => Ok []
  | x :: l => let* b := c_write c x in let* t := out_elements c l in Ok (b ++ t)
  end.
Definition out_container {A} (c : codec A) : writer (list A) := fun l =>
  let* t := out_elements c l in
  Ok (out_beginArray (Z.of_nat (length l)) ++ t).

(** Every element of this program takes a byte at least, so the bytes at hand
    bound the number of iterations that can succeed. *)
Fixpoint in_elements {A} (c : codec A) (fuel : nat) (size : Z) (s : stream)
  : result exn (list A * stream) :=
  if 0 <? size then
    match fuel with
    | O => Err EndOfStream
    | S fuel =>
        let* (x, s) := c_read c s in
        let* (l, s) := in_elements c fuel (size - 1) s in
        Ok (x :: l, s)
    end
  else Ok ([], s).
Definition in_container {A} (c : codec A) : reader (list A) := fun s =>
  let* (size, s) := in_beginArray s in in_elements c (S (length s)) size s.
Definition container {A} (c : codec A) : codec (list A) :=
  mkCodec (out_container c) (in_container c)
    (fun l => Z.of_nat (length l) < 2 ^ 64 /\ Forall (c_wf c) l).

(** [serializePod(Hash)], and every other 32-byte value. *)
Definition hash : codec bytes := binary 32.

(** [serializer.binary(&nonce, 4)]: the object representation, little endian. *)
Definition out_pod (n : nat) : writer Z := fun v => Ok (le_split n v).
Definition in_pod (n : nat) : reader Z := fun s =>
  let* (d, s) := read (Z.of_nat n) s in Ok (le_combine d, s).
Definition pod (n : nat) : codec Z :=
  mkCodec (out_pod n) (in_pod n) (in_w (Z.of_nat n * 8)).

End BinarySerializer.
Import BinarySerializer.

(** ** The interface at work: how codecs are chained *)

Lemma codec_read_app {A} (c : codec A) `{!CodecOk c} a b r :
  c_wf c a -> c_write c a = Ok b -> c_read c (b ++ r) = Ok (a, r).
Proof. intros. apply codec_exact. eauto. Qed.

(** The bytes a codec read are the bytes it writes. *)
Lemma codec_read_inv {A} (c : codec A) `{!CodecOk c} s a r :
  c_read c s = Ok (a, r) -> c_wf c a /\ exists b, c_write c a = Ok b /\ s = b ++ r.
Proof. apply codec_exact. Qed.

(** Soundness and completeness make a codec. *)
Lemma mkCodec_ok {A} (w : writer A) (r : reader A) (wf : A -> Prop) :
  (forall s a t, r s = Ok (a, t) -> wf a /\ exists b, w a = Ok b /\ s = b ++ t) ->
  (forall a, wf a -> exists b, w a = Ok b /\ b <> [] /\ forall t, r (b ++ t) = Ok (a, t)) ->
  CodecOk (mkCodec w r wf).
Proof.
  intros Hs Hc. constructor; cbn.
  - intros s a t. split; [apply Hs|]. intros (Hw & b & Hb & ->).
    destruct (Hc a Hw) as (b' & Hb' & _ & Hr). rewrite Hb in Hb'. injection Hb' as <-. apply Hr.
  - intros a Hw. destruct (Hc a Hw) as (b & Hb & _). eauto.
  - intros a b Hw Hb. destruct (Hc a Hw) as (b' & Hb' & Hne & _). congruence.
Qed.

(** Unfolds a chain of reads in hypothesis [H] into the parts it read. *)
Ltac inv_reads H :=
  repeat (
    match type of H with
    | bind (guard _ _) _ = Ok _ => inv_bind H; inv_guard
    | bind ?c _ = Ok _ =>
        let T := type of c in
        lazymatch T with
        | result _ (_ * _)%type => idtac
        | _ => fail
        end;
        let E := fresh "E" in
        destruct c as [[? ?]|?] eqn:E; cbn [bind] in H; [|discriminate H];
        try (apply codec_read_inv in E; [|typeclasses eauto];
             let Hf := fresh "Hf" in let b := fresh "b" in let Hb := fresh "Hb" in
             destruct E as (Hf & b & Hb & ->))
    | bind _ _ = Ok _ => inv_bind H
    end); inv_ok.

(** ** Primitive codecs keep the interface *)

#[export] Instance uint_ok w (Hw : 7 <= w <= 64) : CodecOk (uint w).
Proof.
  constructor; cbn.
  - intros. unfold in_uint, out_uint. rewrite readVarint_iff by lia.
    split; [intros [? ->]; eauto | intros (? & ? & ? & ->); inv_ok; auto].
  - unfold out_uint. eauto.
  - unfold out_uint. intros; inv_ok. apply writeVarint_nonnil.
Qed.

#[export] Instance uint8_ok : CodecOk (uint 8) := uint_ok 8 ltac:(lia).
#[export] Instance uint32_ok : CodecOk (uint 32) := uint_ok 32 ltac:(lia).
#[export] Instance uint64_ok : CodecOk (uint 64) := uint_ok 64 ltac:(lia).

#[export] Instance binary_ok n (Hn : 0 < n) : CodecOk (binary n).
Proof.
  constructor; unfold binary, c_read, c_write, c_wf, in_binary, out_binary.
  - intros. rewrite read_ok_iff by lia.
    split; [intros [-> ?]; eauto | intros (? & ? & ? & ->); inv_ok; auto].
  - eauto.
  - intros a b Hl H. inv_ok. destruct b; cbn in *; [lia|discriminate].
Qed.

#[export] Instance hash_ok : CodecOk hash := binary_ok 32 ltac:(lia).

#[export] Instance string_ok : CodecOk string_.
Proof.
  constructor; unfold string_, c_read, c_write, c_wf, in_string, out_string.
  - intros s a r. split.
    + intros H. destruct (readVarint 64 s) as [[size s']|] eqn:E; [|discriminate]. cbn [bind] in H.
      apply readVarint_iff in E as [Hsz ->]; [|lia|lia]. unfold in_w in Hsz.
      destruct (Z.ltb_spec max_string size); [discriminate|].
      destruct (Z.ltb_spec 0 size).
      * apply read_ok_iff in H as [-> Hl]; [|lia]. split; [lia|].
        exists (writeVarint size ++ a). rewrite Hl, app_assoc. auto.
      * inv_ok. replace size with 0 by lia. split; [cbn; unfold max_string; lia|].
        exists (writeVarint 0). rewrite app_nil_r. auto.
    + intros (Hl & b & Hb & ->). inv_ok. rewrite <- app_assoc.
      assert (Hw : in_w 64 (Z.of_nat (length a))) by (unfold in_w, max_string in *; lia).
      rewrite (proj2 (readVarint_iff 64 ltac:(lia) ltac:(lia) _ _ _) (conj Hw eq_refl)).
      cbn [bind]. destruct (Z.ltb_spec max_string (Z.of_nat (length a))); [lia|].
      destruct (Z.ltb_spec 0 (Z.of_nat (length a))).
      * apply read_ok_iff; [lia|auto].
      * destruct a; [reflexivity|cbn in *; lia].
  - eauto.
  - intros a b _ H. inv_ok. destruct (writeVarint (Z.of_nat (length a))) eqn:E; [|discriminate].
    now apply writeVarint_nonnil in E.
Qed.

#[export] Instance pod_ok n (Hn : (0 < n)%nat) : CodecOk (pod n).
Proof.
  constructor; unfold pod, c_read, c_write, c_wf, in_pod, out_pod.
  - intros s a r. split.
    + intros H. destruct (read (Z.of_nat n) s) as [[d s']|] eqn:E; [|discriminate]. cbn [bind] in H.
      inv_ok. apply read_ok_iff in E as [-> Hl]; [|lia]. split.
      * pose proof (le_combine_bound d). unfold in_w. rewrite <- Hl. now rewrite Z.mul_comm.
      * exists d. rewrite split_le_combine' by lia. auto.
    + intros (Ha & b & Hb & ->). inv_ok.
      rewrite (proj2 (read_ok_iff (Z.of_nat n) _ (le_split n a) r ltac:(lia))).
      * cbn [bind]. rewrite le_combine_split. unfold in_w in Ha. rewrite Z.mod_small by lia. reflexivity.
      * rewrite length_le_split. auto.
  - eauto.
  - intros a b _ H. inv_ok. destruct n; [lia|]. discriminate.
Qed.

#[export] Instance pod4_ok : CodecOk (pod 4) := pod_ok 4 ltac:(lia).

(** ** Arrays *)

Section Container.
Context {A : Type} (c : codec A) `{!CodecOk c}.

Lemma out_elements_total l : Forall (c_wf c) l -> exists b, out_elements c l = Ok b.
Proof.
  induction 1 as [|x l Hx _ [t Ht]]; cbn [out_elements]; [eauto|].
  destruct (codec_total x Hx) as [b Hb]. rewrite Hb, Ht. cbn. eauto.
Qed.

Lemma in_elements_sound fuel : forall size s l r,
  0 <= size -> in_elements c fuel size s = Ok (l, r) ->
  Forall (c_wf c) l /\ Z.of_nat (length l) = size /\ exists b, out_elements c l = Ok b /\ s = b ++ r.
Proof.
  induction fuel as [|fuel IH]; intros size s l r Hs H; cbn [in_elements] in H;
    (destruct (Z.ltb_spec 0 size); [|inv_ok; cbn; repeat split; [constructor|lia|eauto]]).
  - discriminate.
  - inv_reads H. apply IH in E as (Hl' & Hl & t & Ht & ->); [|lia].
    repeat split; [constructor; assumption | cbn [length]; lia|].
    cbn [out_elements]. rewrite Hb, Ht. cbn. eexists. rewrite <- app_assoc. eauto.
Qed.

Lemma in_elements_complete l : forall fuel b r,
  Forall (c_wf c) l -> out_elements c l = Ok b -> (length b < fuel)%nat ->
  in_elements c fuel (Z.of_nat (length l)) (b ++ r) = Ok (l, r).
Proof.
  induction l as [|x l IH]; intros fuel b r Hf Hb Hfuel; cbn [out_elements] in Hb.
  - inv_ok. destruct fuel; reflexivity.
  - inversion Hf; subst. inv_bind Hb. inv_bind Hb. inv_ok.
    pose proof (codec_nonempty _ _ H1 E) as Hne.
    destruct fuel as [|fuel]; [lia|]. cbn [in_elements length]. destruct (Z.ltb_spec 0 (Z.of_nat (S (length l)))); [|lia].
    rewrite <- app_assoc, (codec_read_app c _ _ _ H1 E). cbn [bind].
    replace (Z.of_nat (S (length l)) - 1) with (Z.of_nat (length l)) by lia.
    rewrite IH; [reflexivity|assumption|reflexivity|].
    rewrite length_app in Hfuel. destruct a; [congruence|cbn in Hfuel; lia].
Qed.

#[export] Instance container_ok : CodecOk (container c).
Proof.
  constructor; unfold container, c_read, c_write, c_wf, in_container, out_container; fold (c_wf c).
  - intros s l r. split.
    + intros H. unfold in_beginArray in H. destruct (readVarint 64 s) as [[n s']|] eqn:E; [|discriminate].
      cbn [bind] in H. destruct (negb (2 ^ 64 - 1 <? n)) eqn:G; [|discriminate]. cbn [guard bind] in H.
      apply readVarint_iff in E as [Hn ->]; [|lia|lia]. unfold in_w in Hn.
      apply in_elements_sound in H as (Hf & Hl & b & Hb & ->); [|lia].
      split; [split; [lia|assumption]|]. exists (writeVarint n ++ b). rewrite Hb, Hl, app_assoc. auto.
    + intros ([Hl Hf] & b & Hb & ->). inv_bind Hb. inv_ok. rewrite <- app_assoc. unfold in_beginArray, out_beginArray.
      assert (Hw : in_w 64 (Z.of_nat (length l))) by (unfold in_w; lia).
      rewrite (proj2 (readVarint_iff 64 ltac:(lia) ltac:(lia) _ _ _) (conj Hw eq_refl)). cbn [bind].
      replace (2 ^ 64 - 1 <? Z.of_nat (length l)) with false by lia. cbn [negb guard bind].
      apply in_elements_complete; [assumption|assumption|]. rewrite length_app. lia.
  - intros l [_ Hf]. destruct (out_elements_total l Hf) as [b ->]. cbn. eauto.
  - intros l b _ H. inv_bind H. inv_ok. unfold out_beginArray.
    destruct (writeVarint (Z.of_nat (length l))) eqn:W; [|discriminate]. now apply writeVarint_nonnil in W.
Qed.

End Container.
