(* ===== verification/Transaction.v ===== *)
(** * Transactions and blocks on the wire

    The data types of [include/CryptoNote.h] and both directions of
    [CryptoNoteCore/CryptoNoteSerialization.cpp], with the whole-buffer wrappers
    and object hashes of [CryptoNoteTools.h].

    The main results are exactness theorems: a byte string parses to an object
    exactly when the object is well formed and serializes to that string.  So
    parsing inverts serialization, and no object has a second wire form (an
    identifier that hashes the wire form cannot be changed by re-encoding). *)

From Stdlib Require Import ZArith List Lia Bool.
From coqutil Require Import Byte Word.LittleEndianList.
From S2P Require Import Prelude Config Varint Wire.
Import ListNotations.
Open Scope Z_scope.
Open Scope discrete_scope.
Import BinarySerializer.

(** ** Data *)

Record BaseInput := mkBaseInput { blockIndex : Z }.

Record PqInput := mkPqInput {
  prevTxid : bytes;
  prevOutIndex : Z;
  authPub : bytes;
  rhoReveal : bytes;
  keyRef : Z
}.

Inductive TransactionInput :=
| InBase (i : BaseInput)
| InPq (i : PqInput).

Record PqOutput := mkPqOutput {
  kemCt : bytes;
  encPayload : bytes;
  pq_spendCommit : bytes
}.

Record CoinbaseOutput := mkCoinbaseOutput { cb_spendCommit : bytes }.

Inductive TransactionOutputTarget :=
| OutKey (key : bytes)            (** legacy stub: has no wire form *)
| OutPq (o : PqOutput)
| OutCoinbase (o : CoinbaseOutput).

Record TransactionOutput := mkTransactionOutput {
  amount : Z;
  out_unlockHeight : Z;
  target : TransactionOutputTarget
}.

Record TransactionPrefix := mkTransactionPrefix {
  version : Z;
  txType : Z;
  unlockHeight : Z;
  inputs : list TransactionInput;
  outputs : list TransactionOutput;
  extra : bytes
}.

Record Transaction := mkTransaction {
  prefix : TransactionPrefix;
  pqSignatures : list bytes
}.

Record BlockHeader := mkBlockHeader {
  majorVersion : Z;
  minorVersion : Z;
  nonce : Z;
  timestamp : Z;
  previousBlockHash : bytes
}.

(** The merge-mining [parentBlock] member is never serialized and has no
    counterpart here. *)
Record Block := mkBlock {
  header : BlockHeader;
  baseTransaction : Transaction;
  signature : bytes;
  transactionHashes : list bytes
}.

(** ** Serializers *)

Module Serialization.

Definition len (b : bytes) : Z := Z.of_nat (length b).

(** The one-byte variant tag, [serializer.binary(&tag, 1)]. *)
Definition tag_codec : codec Z := pod 1.

(** [serializePqBlob] *)
Definition out_pqBlob (expected : Z) : writer bytes := fun v =>
  check len v =? expected else WrongFieldSize ;; Ok v.
Definition pqBlob (expected : Z) : codec bytes :=
  mkCodec (out_pqBlob expected) (in_binary expected) (fun v => len v = expected).

Definition authPub_codec : codec bytes := pqBlob PQ_AUTH_PUB_SIZE.
Definition rho_codec : codec bytes := pqBlob PQ_RHO_SIZE.
Definition kemCt_codec : codec bytes := pqBlob PQ_KEM_CIPHERTEXT_SIZE.
Definition encPayload_codec : codec bytes := pqBlob PQ_ENC_PAYLOAD_SIZE.
Definition signature_codec : codec bytes := pqBlob PQ_SIGNATURE_SIZE.

(** [serialize(BaseInput&)] *)
Definition out_BaseInput : writer BaseInput := fun gen => c_write (uint 32) (blockIndex gen).
Definition in_BaseInput : reader BaseInput := fun s =>
  let* (h, s) := c_read (uint 32) s in Ok (mkBaseInput h, s).
Definition BaseInput_codec : codec BaseInput :=
  mkCodec out_BaseInput in_BaseInput (fun g => in_w 32 (blockIndex g)).

(** [serialize(PqInput&)], both wire forms.  The reader is told the form by the
    preset [keyRef], as [getVariantValue] does. *)
Definition out_PqInput : writer PqInput := fun key =>
  let* a := c_write hash (prevTxid key) in
  let* b := c_write (uint 32) (prevOutIndex key) in
  let* c := (if keyRef key =? PQ_NO_KEY_REF then c_write authPub_codec (authPub key)
             else c_write (uint 32) (keyRef key)) in
  let* d := c_write rho_codec (rhoReveal key) in
  Ok (a ++ b ++ c ++ d).
Definition in_PqInput (presetKeyRef : Z) : reader PqInput := fun s =>
  let* (txid, s) := c_read hash s in
  let* (idx, s) := c_read (uint 32) s in
  if presetKeyRef =? PQ_NO_KEY_REF then
    let* (auth, s) := c_read authPub_codec s in
    let* (rho, s) := c_read rho_codec s in
    Ok (mkPqInput txid idx auth rho presetKeyRef, s)
  else
    let* (ref, s) := c_read (uint 32) s in
    let* (rho, s) := c_read rho_codec s in
    Ok (mkPqInput txid idx [] rho ref, s).

(** [BinaryVariantTagGetter] on inputs *)
Definition input_tag (i : TransactionInput) : Z :=
  match i with
  | InBase _ => 0xff
  | InPq i => if keyRef i =? PQ_NO_KEY_REF then 0x10 else 0x13
  end.

(** [getVariantValue] on inputs *)
Definition in_input_value (tag : Z) : reader TransactionInput := fun s =>
  if tag =? 0xff then let* (v, s) := in_BaseInput s in Ok (InBase v, s)
  else if tag =? 0x2 then Err KeyInputNotAllowed
  else if tag =? 0x10 then let* (v, s) := in_PqInput PQ_NO_KEY_REF s in Ok (InPq v, s)
  else if tag =? 0x13 then
    let* (v, s) := in_PqInput 0 s in
    check negb (keyRef v =? PQ_NO_KEY_REF) else KeyRefOutOfRange ;;
    Ok (InPq v, s)
  else Err UnknownInputTag.

(** [serialize(TransactionInput&)] *)
Definition out_TransactionInput : writer TransactionInput := fun i =>
  let* t := c_write tag_codec (input_tag i) in
  let* v := match i with InBase g => out_BaseInput g | InPq k => out_PqInput k end in
  Ok (t ++ v).
Definition in_TransactionInput : reader TransactionInput := fun s =>
  let* (tag, s) := c_read tag_codec s in in_input_value tag s.

(** What the wire form of an input holds: a key-reference input has no key. *)
Definition wf_PqInput (k : PqInput) : Prop :=
  len (prevTxid k) = 32 /\ in_w 32 (prevOutIndex k) /\ in_w 32 (keyRef k) /\
  len (rhoReveal k) = PQ_RHO_SIZE /\
  (if keyRef k =? PQ_NO_KEY_REF then len (authPub k) = PQ_AUTH_PUB_SIZE else authPub k = []).
Definition wf_wire_input (i : TransactionInput) : Prop :=
  match i with InBase g => in_w 32 (blockIndex g) | InPq k => wf_PqInput k end.
Definition input_codec : codec TransactionInput :=
  mkCodec out_TransactionInput in_TransactionInput wf_wire_input.

(** [resolvePqKeyReferences]: [done] are the inputs before index [i], already
    resolved; [size] is [inputs.size()]. *)
Definition set_authPub (k : PqInput) (a : bytes) : PqInput :=
  mkPqInput (prevTxid k) (prevOutIndex k) a (rhoReveal k) (keyRef k).

Definition resolve_one (size : Z) (done : list TransactionInput) (x : TransactionInput)
  : result exn TransactionInput :=
  match x with
  | InBase _ => Ok x
  | InPq k =>
      if keyRef k =? PQ_NO_KEY_REF then Ok x
      else
        check negb (parameters.MAX_PQ_GROUPED_INPUTS_PER_TX <? size) else TooManyPqInputs ;;
        check negb (Z.of_nat (length done) <=? keyRef k) else BadKeyRef ;;
        match nth_error done (Z.to_nat (keyRef k)) with
        | Some (InPq t) =>
            check keyRef t =? PQ_NO_KEY_REF else BadKeyRef ;;
            Ok (InPq (set_authPub k (authPub t)))
        | _ => Err BadKeyRef
        end
  end.

Fixpoint resolve_loop (size : Z) (done rest : list TransactionInput)
  : result exn (list TransactionInput) :=
  match rest with
  | [] => Ok done
  | x :: rest =>
      let* y := resolve_one size done x in resolve_loop size (done ++ [y]) rest
  end.

Definition resolvePqKeyReferences (ins : list TransactionInput)
  : result exn (list TransactionInput) :=
  resolve_loop (Z.of_nat (length ins)) [] ins.

(** [serialize(PqOutput&)], [serialize(CoinbaseOutput&)] *)
Definition out_PqOutput : writer PqOutput := fun o =>
  let* a := c_write kemCt_codec (kemCt o) in
  let* b := c_write encPayload_codec (encPayload o) in
  let* c := c_write hash (pq_spendCommit o) in
  Ok (a ++ b ++ c).
Definition in_PqOutput : reader PqOutput := fun s =>
  let* (ct, s) := c_read kemCt_codec s in
  let* (enc, s) := c_read encPayload_codec s in
  let* (sc, s) := c_read hash s in
  Ok (mkPqOutput ct enc sc, s).

Definition out_CoinbaseOutput : writer CoinbaseOutput := fun o => c_write hash (cb_spendCommit o).
Definition in_CoinbaseOutput : reader CoinbaseOutput := fun s =>
  let* (sc, s) := c_read hash s in Ok (mkCoinbaseOutput sc, s).

(** [serialize(TransactionOutputTarget&)] with its tag getter and
    [getVariantValue] *)
Definition out_target : writer TransactionOutputTarget := fun t =>
  match t with
  | OutKey _ => Err KeyOutputNotAllowed
  | OutPq o => let* t := c_write tag_codec 0x10 in let* v := out_PqOutput o in Ok (t ++ v)
  | OutCoinbase o => let* t := c_write tag_codec 0x11 in let* v := out_CoinbaseOutput o in Ok (t ++ v)
  end.
Definition in_target_value (tag : Z) : reader TransactionOutputTarget := fun s =>
  if tag =? 0x2 then Err KeyOutputNotAllowed
  else if tag =? 0x10 then let* (v, s) := in_PqOutput s in Ok (OutPq v, s)
  else if tag =? 0x11 then let* (v, s) := in_CoinbaseOutput s in Ok (OutCoinbase v, s)
  else Err UnknownOutputTag.
Definition in_target : reader TransactionOutputTarget := fun s =>
  let* (tag, s) := c_read tag_codec s in in_target_value tag s.
Definition wf_target (t : TransactionOutputTarget) : Prop :=
  match t with
  | OutKey _ => False
  | OutPq o => len (kemCt o) = PQ_KEM_CIPHERTEXT_SIZE /\ len (encPayload o) = PQ_ENC_PAYLOAD_SIZE /\
               len (pq_spendCommit o) = 32
  | OutCoinbase o => len (cb_spendCommit o) = 32
  end.
Definition target_codec : codec TransactionOutputTarget := mkCodec out_target in_target wf_target.

(** [serialize(TransactionOutput&)] *)
Definition out_TransactionOutput : writer TransactionOutput := fun o =>
  let* a := c_write (uint 64) (amount o) in
  let* b := c_write (uint 64) (out_unlockHeight o) in
  let* c := c_write target_codec (target o) in
  Ok (a ++ b ++ c).
Definition in_TransactionOutput : reader TransactionOutput := fun s =>
  let* (a, s) := c_read (uint 64) s in
  let* (u, s) := c_read (uint 64) s in
  let* (t, s) := c_read target_codec s in
  Ok (mkTransactionOutput a u t, s).
Definition wf_TransactionOutput (o : TransactionOutput) : Prop :=
  in_w 64 (amount o) /\ in_w 64 (out_unlockHeight o) /\ wf_target (target o).
Definition output_codec : codec TransactionOutput :=
  mkCodec out_TransactionOutput in_TransactionOutput wf_TransactionOutput.

(** [serialize(TransactionPrefix&)] *)
Definition out_TransactionPrefix : writer TransactionPrefix := fun txP =>
  let* v := c_write (uint 8) (version txP) in
  check version txP =? TRANSACTION_VERSION_1 else WrongTxVersion ;;
  let* t := c_write (uint 8) (txType txP) in
  let* u := c_write (uint 64) (unlockHeight txP) in
  let* i := c_write (container input_codec) (inputs txP) in
  let* o := c_write (container output_codec) (outputs txP) in
  let* e := c_write string_ (extra txP) in
  Ok (v ++ t ++ u ++ i ++ o ++ e).
Definition in_TransactionPrefix : reader TransactionPrefix := fun s =>
  let* (v, s) := c_read (uint 8) s in
  check v =? TRANSACTION_VERSION_1 else WrongTxVersion ;;
  let* (t, s) := c_read (uint 8) s in
  let* (u, s) := c_read (uint 64) s in
  let* (raw, s) := c_read (container input_codec) s in
  let* i := resolvePqKeyReferences raw in
  let* (o, s) := c_read (container output_codec) s in
  let* (e, s) := c_read string_ s in
  Ok (mkTransactionPrefix v t u i o e, s).

(** A well-formed input list: every key reference names an earlier
    key-carrying input and repeats its key. *)
Definition strip (i : TransactionInput) : TransactionInput :=
  match i with
  | InPq k => if keyRef k =? PQ_NO_KEY_REF then i else InPq (set_authPub k [])
  | InBase _ => i
  end.
Definition ref_ok (size : Z) (before : list TransactionInput) (i : TransactionInput) : Prop :=
  match i with
  | InPq k => keyRef k <> PQ_NO_KEY_REF ->
      size <= parameters.MAX_PQ_GROUPED_INPUTS_PER_TX /\
      exists t, 0 <= keyRef k /\ nth_error before (Z.to_nat (keyRef k)) = Some (InPq t) /\
                keyRef t = PQ_NO_KEY_REF /\ authPub k = authPub t
  | InBase _ => True
  end.
Definition refs_ok (ins : list TransactionInput) : Prop :=
  forall before i after, ins = before ++ i :: after -> ref_ok (Z.of_nat (length ins)) before i.

Definition wf_TransactionPrefix (txP : TransactionPrefix) : Prop :=
  version txP = TRANSACTION_VERSION_1 /\ in_w 8 (txType txP) /\ in_w 64 (unlockHeight txP) /\
  c_wf (container input_codec) (map strip (inputs txP)) /\ refs_ok (inputs txP) /\
  c_wf (container output_codec) (outputs txP) /\ c_wf string_ (extra txP).
Definition prefix_codec : codec TransactionPrefix :=
  mkCodec out_TransactionPrefix in_TransactionPrefix wf_TransactionPrefix.

(** [serialize(Transaction&)] *)
Definition carries_key (i : TransactionInput) : bool :=
  match i with InPq k => keyRef k =? PQ_NO_KEY_REF | InBase _ => false end.
Definition pqCount (ins : list TransactionInput) : nat := length (filter carries_key ins).

Definition sig_array : codec bytes := binary PQ_SIGNATURE_SIZE.
Fixpoint in_signatures (count : nat) (s : stream) : result exn (list bytes * stream) :=
  match count with
  | O => Ok ([], s)
  | S count =>
      let* (x, s) := c_read sig_array s in
      let* (l, s) := in_signatures count s in
      Ok (x :: l, s)
  end.
Definition out_Transaction : writer Transaction := fun tx =>
  let* p := c_write prefix_codec (prefix tx) in
  let* s := out_elements sig_array (pqSignatures tx) in
  Ok (p ++ s).
Definition in_Transaction : reader Transaction := fun s =>
  let* (p, s) := c_read prefix_codec s in
  let* (l, s) := in_signatures (pqCount (inputs p)) s in
  Ok (mkTransaction p l, s).
Definition wf_Transaction (tx : Transaction) : Prop :=
  wf_TransactionPrefix (prefix tx) /\
  length (pqSignatures tx) = pqCount (inputs (prefix tx)) /\
  Forall (c_wf sig_array) (pqSignatures tx).
Definition tx_codec : codec Transaction := mkCodec out_Transaction in_Transaction wf_Transaction.

(** [serializeBlockHeader] *)
Definition major_ok (v : Z) : bool :=
  negb ((v <? BLOCK_MAJOR_VERSION_1) || (BLOCK_MAJOR_VERSION_8 <? v)).
Definition out_BlockHeader : writer BlockHeader := fun h =>
  let* a := c_write (uint 8) (majorVersion h) in
  check major_ok (majorVersion h) else WrongBlockVersion ;;
  let* b := c_write (uint 8) (minorVersion h) in
  let* c := c_write (uint 64) (timestamp h) in
  let* d := c_write hash (previousBlockHash h) in
  let* e := c_write (pod 4) (nonce h) in
  Ok (a ++ b ++ c ++ d ++ e).
Definition in_BlockHeader : reader BlockHeader := fun s =>
  let* (a, s) := c_read (uint 8) s in
  check major_ok a else WrongBlockVersion ;;
  let* (b, s) := c_read (uint 8) s in
  let* (c, s) := c_read (uint 64) s in
  let* (d, s) := c_read hash s in
  let* (e, s) := c_read (pod 4) s in
  Ok (mkBlockHeader a b e c d, s).
Definition wf_BlockHeader (h : BlockHeader) : Prop :=
  BLOCK_MAJOR_VERSION_1 <= majorVersion h <= BLOCK_MAJOR_VERSION_8 /\ in_w 8 (minorVersion h) /\
  in_w 64 (timestamp h) /\ len (previousBlockHash h) = 32 /\ in_w 32 (nonce h).
Definition header_codec : codec BlockHeader := mkCodec out_BlockHeader in_BlockHeader wf_BlockHeader.

(** [serialize(Block&)] *)
Definition out_Block : writer Block := fun b =>
  let* h := c_write header_codec (header b) in
  let* g := c_write signature_codec (signature b) in
  let* t := c_write tx_codec (baseTransaction b) in
  let* l := c_write (container hash) (transactionHashes b) in
  Ok (h ++ g ++ t ++ l).
Definition in_Block : reader Block := fun s =>
  let* (h, s) := c_read header_codec s in
  let* (g, s) := c_read signature_codec s in
  let* (t, s) := c_read tx_codec s in
  let* (l, s) := c_read (container hash) s in
  Ok (mkBlock h t g l, s).
Definition wf_Block (b : Block) : Prop :=
  wf_BlockHeader (header b) /\ len (signature b) = PQ_SIGNATURE_SIZE /\
  wf_Transaction (baseTransaction b) /\ c_wf (container hash) (transactionHashes b).
Definition block_codec : codec Block := mkCodec out_Block in_Block wf_Block.

(** [toBinaryArray], [fromBinaryArray], [getObjectBinarySize],
    [getObjectHash] (with the hash function a parameter) *)
Definition toBinaryArray {A} (c : codec A) (object : A) : option bytes :=
  match c_write c object with Ok b => Some b | Err _ => None end.
Definition fromBinaryArray {A} (c : codec A) (binaryArray : bytes) : option A :=
  match c_read c binaryArray with
  | Ok (object, s) => if MemoryInputStream.endOfStream s then Some object else None
  | Err _ => None
  end.
Definition getObjectBinarySize {A} (c : codec A) (object : A) : bool * Z :=
  match toBinaryArray c object with Some b => (true, len b) | None => (false, 2 ^ 64 - 1) end.
Definition NULL_HASH : bytes := repeat (b8 0) 32.
Definition getObjectHash {A} (cn_fast_hash : bytes -> bytes) (c : codec A) (object : A)
  : bool * bytes :=
  match toBinaryArray c object with
  | Some b => (true, cn_fast_hash b)
  | None => (false, NULL_HASH)
  end.

End Serialization.
Import Serialization.

(** ** Records over the codec interface *)

(** Runs a reader on the bytes its writer produced. *)
Ltac run_reads :=
  repeat (rewrite <- ?app_assoc;
    match goal with
    | |- context [c_read ?c (?b ++ ?r)] =>
        match goal with
        | H : c_write c ?a = Ok b |- _ =>
            rewrite (codec_read_app c a b r) by (first [assumption | cbn; assumption | cbn; auto]);
            cbn [bind]
        end
    end).

(** A writer chain succeeds when each of its parts does. *)
Ltac run_writes :=
  repeat match goal with
  | Hw : c_wf ?c ?a |- context [c_write ?c ?a] =>
      let b := fresh "b" in let Hb := fresh "Hb" in
      destruct (codec_total (c := c) a Hw) as [b Hb]; rewrite Hb; cbn [bind]
  end; eauto.

(** The output of a chain is not empty when its first part is not. *)
Lemma app_nonnil_l {A} (a b : list A) : a <> [] -> a ++ b <> [].
Proof. destruct a; [congruence|discriminate]. Qed.

#[export] Instance pqBlob_ok n (Hn : 0 < n) : CodecOk (pqBlob n).
Proof.
  constructor; unfold pqBlob, c_read, c_write, c_wf, out_pqBlob, len.
  - intros s a r. pose proof (@codec_exact _ (binary n) (binary_ok n Hn) s a r) as E.
    unfold binary, c_read, c_write, c_wf, out_binary in E. rewrite E.
    split; intros (Hl & b & Hb & ->); (split; [assumption|]).
    + exists a. rewrite Hl, Z.eqb_refl. inv_ok. auto.
    + rewrite Hl, Z.eqb_refl in Hb. cbn in Hb. inv_ok. eauto.
  - intros a Hl. rewrite Hl, Z.eqb_refl. cbn. eauto.
  - intros a b Hl H. rewrite Hl, Z.eqb_refl in H. cbn in H. inv_ok. destruct b; cbn in *; [lia|discriminate].
Qed.

#[export] Instance authPub_ok : CodecOk authPub_codec := pqBlob_ok PQ_AUTH_PUB_SIZE eq_refl.
#[export] Instance rho_ok : CodecOk rho_codec := pqBlob_ok PQ_RHO_SIZE eq_refl.
#[export] Instance kemCt_ok : CodecOk kemCt_codec := pqBlob_ok PQ_KEM_CIPHERTEXT_SIZE eq_refl.
#[export] Instance encPayload_ok : CodecOk encPayload_codec := pqBlob_ok PQ_ENC_PAYLOAD_SIZE eq_refl.
#[export] Instance signature_ok : CodecOk signature_codec := pqBlob_ok PQ_SIGNATURE_SIZE eq_refl.
#[export] Instance sig_array_ok : CodecOk sig_array := binary_ok PQ_SIGNATURE_SIZE eq_refl.
#[export] Instance tag_ok : CodecOk tag_codec := pod_ok 1 ltac:(lia).

Lemma tag_write t : c_write tag_codec t = Ok (le_split 1 t).
Proof. reflexivity. Qed.

Lemma tag_read t s : in_w 8 t -> c_read tag_codec (le_split 1 t ++ s) = Ok (t, s).
Proof. intros. apply codec_read_app; [typeclasses eauto|assumption|reflexivity]. Qed.

(** The parts read are the parts written. *)
Ltac join_bytes := eexists; split; [reflexivity|]; rewrite <- ?app_assoc; reflexivity.

(** Closes the completeness half of a record codec once its parts are written. *)
Ltac close_codec :=
  eexists; split; [reflexivity|]; split;
  [ try apply app_nonnil_l;
    match goal with
    | W : c_wf ?c ?a, H : c_write ?c ?a = Ok ?b |- ?b <> [] => exact (codec_nonempty a b W H)
    end
  | intros; run_reads; try reflexivity ].

#[export] Instance BaseInput_ok : CodecOk BaseInput_codec.
Proof.
  apply mkCodec_ok; unfold in_BaseInput, out_BaseInput.
  - intros s a r H. inv_reads H. eauto.
  - intros [h] Hw. cbn [blockIndex] in *. change (c_wf (uint 32) h) in Hw. run_writes. close_codec.
Qed.

(** The two wire forms of a PQ input, each a codec of its own. *)
Definition carrying_codec : codec PqInput :=
  mkCodec out_PqInput (in_PqInput PQ_NO_KEY_REF) (fun k => wf_PqInput k /\ keyRef k = PQ_NO_KEY_REF).
Definition reference_codec : codec PqInput :=
  mkCodec out_PqInput
    (fun s => let* (v, s) := in_PqInput 0 s in
              check negb (keyRef v =? PQ_NO_KEY_REF) else KeyRefOutOfRange ;; Ok (v, s))
    (fun k => wf_PqInput k /\ keyRef k <> PQ_NO_KEY_REF).

Lemma wf_PqInput_parts k : wf_PqInput k ->
  c_wf hash (prevTxid k) /\ c_wf (uint 32) (prevOutIndex k) /\ c_wf (uint 32) (keyRef k) /\
  c_wf rho_codec (rhoReveal k).
Proof. unfold wf_PqInput. intuition. Qed.

#[export] Instance carrying_ok : CodecOk carrying_codec.
Proof.
  apply mkCodec_ok; unfold in_PqInput, out_PqInput; rewrite ?Z.eqb_refl.
  - intros s a r H. inv_reads H. cbn [prevTxid prevOutIndex authPub rhoReveal keyRef].
    rewrite Z.eqb_refl. split; [split; [|reflexivity]|].
    + unfold wf_PqInput. cbn [prevTxid prevOutIndex authPub rhoReveal keyRef]. rewrite Z.eqb_refl.
      repeat split; try assumption; try apply Hf0; vm_compute; congruence.
    + rewrite Hb, Hb0, Hb1, Hb2. cbn [bind]. join_bytes.
  - intros [txid idx auth rho ref] [Hw Href]. cbn [keyRef] in Href. subst ref.
    destruct (wf_PqInput_parts _ Hw) as (H1 & H2 & _ & H4). destruct Hw as (_ & _ & _ & _ & H3).
    cbn [prevTxid prevOutIndex authPub rhoReveal keyRef] in *. rewrite Z.eqb_refl in *.
    change (c_wf authPub_codec auth) in H3. run_writes. close_codec.
Qed.

#[export] Instance reference_ok : CodecOk reference_codec.
Proof.
  apply mkCodec_ok; unfold in_PqInput, out_PqInput; cbn [Z.eqb PQ_NO_KEY_REF].
  - intros s a r H. inv_bind H. destruct a0 as [v s']. inv_bind H. inv_guard. inv_ok. inv_reads E.
    bprop. cbn [prevTxid prevOutIndex authPub rhoReveal keyRef] in *. split; [split; [|assumption]|].
    + unfold wf_PqInput. cbn [prevTxid prevOutIndex authPub rhoReveal keyRef].
      apply Z.eqb_neq in G. rewrite G. repeat split; assumption || apply Hf0 || apply Hf1.
    + apply Z.eqb_neq in G. rewrite G. rewrite Hb, Hb0, Hb1, Hb2. cbn [bind]. join_bytes.
  - intros [txid idx auth rho ref] [Hw Href]. cbn [keyRef] in Href.
    destruct (wf_PqInput_parts _ Hw) as (H1 & H2 & H3 & H4). destruct Hw as (_ & _ & _ & _ & H5).
    cbn [prevTxid prevOutIndex authPub rhoReveal keyRef] in *. apply Z.eqb_neq in Href. rewrite Href in *.
    subst auth. run_writes. close_codec. cbn [keyRef]. rewrite Href. reflexivity.
Qed.

Lemma in_input_value_codecs tag s :
  in_input_value tag s =
    if tag =? 0xff then let* (v, s) := c_read BaseInput_codec s in Ok (InBase v, s)
    else if tag =? 0x2 then Err KeyInputNotAllowed
    else if tag =? 0x10 then let* (v, s) := c_read carrying_codec s in Ok (InPq v, s)
    else if tag =? 0x13 then let* (v, s) := c_read reference_codec s in Ok (InPq v, s)
    else Err UnknownInputTag.
Proof.
  unfold in_input_value. repeat (destruct (Z.eqb tag _); [reflexivity || shelve|]). Unshelve.
  - reflexivity.
  - unfold c_read, reference_codec. destruct (in_PqInput 0 s) as [[v s']|]; [|reflexivity].
    cbn [bind]. destruct (negb (keyRef v =? PQ_NO_KEY_REF)); reflexivity.
Qed.

(** One alternative of a tagged union: tag [t], then the codec [c]. *)
Lemma tagged_complete {A B} (c : codec A) `{!CodecOk c} t (f : A -> B) (rd : Z -> reader B) a :
  in_w 8 t -> c_wf c a ->
  (forall s, rd t s = (let* (v, s) := c_read c s in Ok (f v, s))) ->
  exists b, (let* x := c_write tag_codec t in let* v := c_write c a in Ok (x ++ v)) = Ok b /\
    b <> [] /\ forall r, (let* (tag, s) := c_read tag_codec (b ++ r) in rd tag s) = Ok (f a, r).
Proof.
  intros Ht Hw Hrd. rewrite tag_write. run_writes. eexists. split; [reflexivity|]. split; [discriminate|].
  intros. rewrite <- app_assoc, tag_read by assumption. cbn [bind]. rewrite Hrd. run_reads. reflexivity.
Qed.

#[export] Instance input_ok : CodecOk input_codec.
Proof.
  apply mkCodec_ok; unfold in_TransactionInput, out_TransactionInput.
  - intros s a r H. inv_reads H. rewrite in_input_value_codecs in H.
    destruct (Z.eqb_spec z 0xff) as [->|_]; [|destruct (z =? 0x2); [discriminate|]];
      [|destruct (Z.eqb_spec z 0x10) as [->|_]]; [| |destruct (Z.eqb_spec z 0x13) as [->|_]; [|discriminate]];
      inv_reads H; cbn [input_tag wf_wire_input].
    + rewrite Hb. cbn [bind]. change (out_BaseInput b0) with (c_write BaseInput_codec b0). rewrite Hb0.
      split; [exact Hf0|]. cbn [bind]. join_bytes.
    + destruct Hf0 as [Hw Hk]. rewrite Hk, Z.eqb_refl, Hb. cbn [bind].
      change (out_PqInput p) with (c_write carrying_codec p). rewrite Hb0.
      split; [exact Hw|]. cbn [bind]. join_bytes.
    + destruct Hf0 as [Hw Hk]. apply Z.eqb_neq in Hk. rewrite Hk, Hb. cbn [bind].
      change (out_PqInput p) with (c_write reference_codec p). rewrite Hb0.
      split; [exact Hw|]. cbn [bind]. join_bytes.
  - intros [g|k] Hw; cbn [wf_wire_input input_tag] in *.
    + apply (tagged_complete BaseInput_codec 0xff InBase); [easy|exact Hw|]. intros. apply in_input_value_codecs.
    + destruct (Z.eqb_spec (keyRef k) PQ_NO_KEY_REF) as [Hk|Hk].
      * apply (tagged_complete carrying_codec 0x10 InPq); [easy|split; assumption|]. intros. apply in_input_value_codecs.
      * apply (tagged_complete reference_codec 0x13 InPq); [easy|split; assumption|]. intros. apply in_input_value_codecs.
Qed.

(** Output targets. *)
Definition PqOutput_codec : codec PqOutput := mkCodec out_PqOutput in_PqOutput (fun o => wf_target (OutPq o)).
Definition CoinbaseOutput_codec : codec CoinbaseOutput :=
  mkCodec out_CoinbaseOutput in_CoinbaseOutput (fun o => wf_target (OutCoinbase o)).

#[export] Instance PqOutput_ok : CodecOk PqOutput_codec.
Proof.
  apply mkCodec_ok; unfold in_PqOutput, out_PqOutput.
  - intros s a r H. inv_reads H. split; [exact (conj Hf (conj Hf0 Hf1))|].
    cbn [kemCt encPayload pq_spendCommit]. rewrite Hb, Hb0, Hb1. cbn [bind]. join_bytes.
  - intros [ct enc sc] (H1 & H2 & H3). cbn [kemCt encPayload pq_spendCommit] in *.
    change (c_wf kemCt_codec ct) in H1. change (c_wf encPayload_codec enc) in H2. change (c_wf hash sc) in H3.
    run_writes. close_codec.
Qed.

#[export] Instance CoinbaseOutput_ok : CodecOk CoinbaseOutput_codec.
Proof.
  apply mkCodec_ok; unfold in_CoinbaseOutput, out_CoinbaseOutput.
  - intros s a r H. inv_reads H. split; [exact Hf|]. cbn [cb_spendCommit]. eauto.
  - intros [sc] H. change (c_wf hash sc) in H. cbn [cb_spendCommit]. run_writes. close_codec.
Qed.

#[export] Instance target_ok : CodecOk target_codec.
Proof.
  apply mkCodec_ok; unfold in_target, out_target.
  - intros s a r H. inv_reads H. unfold in_target_value in H.
    destruct (z =? 0x2); [discriminate|].
    change in_PqOutput with (c_read PqOutput_codec) in H.
    change in_CoinbaseOutput with (c_read CoinbaseOutput_codec) in H.
    destruct (Z.eqb_spec z 0x10) as [->|_]; [|destruct (Z.eqb_spec z 0x11) as [->|_]; [|discriminate]];
      inv_reads H; (split; [exact Hf0|]); rewrite Hb; cbn [bind].
    + change (out_PqOutput p) with (c_write PqOutput_codec p). rewrite Hb0. cbn [bind]. join_bytes.
    + change (out_CoinbaseOutput c) with (c_write CoinbaseOutput_codec c). rewrite Hb0. cbn [bind]. join_bytes.
  - intros [k|o|o] Hw; [destruct Hw| |].
    + apply (tagged_complete PqOutput_codec 0x10 OutPq); [easy|exact Hw|reflexivity].
    + apply (tagged_complete CoinbaseOutput_codec 0x11 OutCoinbase); [easy|exact Hw|reflexivity].
Qed.

#[export] Instance output_ok : CodecOk output_codec.
Proof.
  apply mkCodec_ok; unfold in_TransactionOutput, out_TransactionOutput.
  - intros s a r H. inv_reads H. split; [exact (conj Hf (conj Hf0 Hf1))|].
    cbn [amount out_unlockHeight target]. rewrite Hb, Hb0, Hb1. cbn [bind]. join_bytes.
  - intros [a u t] (H1 & H2 & H3). cbn [amount out_unlockHeight target] in *.
    change (c_wf (uint 64) a) in H1. change (c_wf (uint 64) u) in H2. change (c_wf target_codec t) in H3.
    run_writes. close_codec.
Qed.

(** ** Key references *)

Lemma wire_stripped x : wf_wire_input x -> strip x = x.
Proof.
  destruct x as [g|[txid idx auth rho ref]]; [reflexivity|]. cbn.
  intros (_ & _ & _ & _ & H). cbn [keyRef authPub] in *. destruct (ref =? PQ_NO_KEY_REF); [reflexivity|].
  subst. reflexivity.
Qed.

Lemma resolve_one_iff size done x y : wf_wire_input x ->
  resolve_one size done x = Ok y <-> strip y = x /\ ref_ok size done y.
Proof.
  intros Hx. destruct x as [g|k]; cbn [resolve_one].
  - split; [intros; inv_ok; cbn; auto|]. intros [H _]. f_equal. destruct y as [|k']; cbn in H; [auto|].
    destruct (keyRef k' =? PQ_NO_KEY_REF); discriminate.
  - destruct (Z.eqb_spec (keyRef k) PQ_NO_KEY_REF) as [Hk|Hk].
    + split.
      * intros. inv_ok. cbn. rewrite Hk, Z.eqb_refl. intuition.
      * intros [H _]. f_equal. destruct y as [|k']; cbn in H; [discriminate|].
        destruct (Z.eqb_spec (keyRef k') PQ_NO_KEY_REF); [auto|]. injection H as <-. cbn in Hk. congruence.
    + pose proof (wire_stripped _ Hx) as Hs. destruct Hx as (_ & _ & [Hr _] & _). cbn in Hs.
      apply Z.eqb_neq in Hk as Hk'. rewrite Hk' in Hs. injection Hs as Hs. split.
      * intros H. inv_bind H. inv_bind H. inv_guard. bprop. case_match_in H. destruct t as [|t]; [discriminate|].
        inv_bind H. inv_guard. inv_ok. bprop. cbn. rewrite (proj2 (Z.eqb_neq _ _) Hk). split; [f_equal; exact Hs|].
        intros _. split; [assumption|]. exists t. auto.
      * intros [H Hok]. destruct y as [|k']; cbn in H; [discriminate|].
        destruct (Z.eqb_spec (keyRef k') PQ_NO_KEY_REF) as [E|E]; [injection H as ->; congruence|].
        injection H as <-. cbn [keyRef set_authPub] in *. destruct (Hok E) as (Hsz & t & _ & Hnth & Ht & Ha).
        replace (parameters.MAX_PQ_GROUPED_INPUTS_PER_TX <? size) with false by lia.
        assert (Z.to_nat (keyRef k') < length done)%nat by (apply nth_error_Some; congruence).
        replace (Z.of_nat (length done) <=? keyRef k') with false by lia. cbn [negb guard bind].
        rewrite Hnth, Ht. cbn. destruct k'; cbn in *; subst; reflexivity.
Qed.

Lemma resolve_loop_iff size rest : forall done ins, Forall wf_wire_input rest ->
  resolve_loop size done rest = Ok ins <->
  exists res, ins = done ++ res /\ map strip res = rest /\
    forall before i after, res = before ++ i :: after -> ref_ok size (done ++ before) i.
Proof.
  induction rest as [|x rest IH]; intros done ins Hf; cbn [resolve_loop].
  - split.
    + intros. inv_ok. exists []. rewrite app_nil_r. split; [auto|]. split; [auto|]. intros [|]; discriminate.
    + intros (res & -> & Hm & _). apply map_eq_nil in Hm as ->. now rewrite app_nil_r.
  - inversion_clear Hf as [|? ? Hx Hr]. split.
    + intros H. inv_bind H. apply resolve_one_iff in E as [Hs Ho]; [|assumption].
      apply IH in H as (res & -> & Hm & Hall); [|assumption]. exists (a :: res).
      rewrite <- app_assoc. split; [reflexivity|]. split; [cbn; congruence|].
      intros [|b before] i after Heq; injection Heq as -> Heq.
      * now rewrite app_nil_r.
      * specialize (Hall before i after Heq). now rewrite <- app_assoc in Hall.
    + intros ([|y res] & -> & Hm & Hall); [discriminate|]. injection Hm as Hy Hm.
      assert (resolve_one size done x = Ok y) as ->.
      { apply resolve_one_iff; [assumption|]. split; [assumption|].
        specialize (Hall [] y res eq_refl). now rewrite app_nil_r in Hall. }
      cbn [bind]. apply IH; [assumption|]. exists res. rewrite <- app_assoc. split; [reflexivity|].
      split; [assumption|]. intros before i after ->. rewrite <- app_assoc. apply (Hall (y :: before) i after). reflexivity.
Qed.

(** Resolution inverts stripping on the lists whose references are sound, and
    refuses every other list. *)
Lemma resolve_iff raw ins : Forall wf_wire_input raw ->
  resolvePqKeyReferences raw = Ok ins <-> map strip ins = raw /\ refs_ok ins.
Proof.
  intros Hf. unfold resolvePqKeyReferences, refs_ok. rewrite resolve_loop_iff by assumption. split.
  - intros (res & -> & <- & H). cbn [app]. rewrite length_map in H. auto.
  - intros [<- H]. exists ins. rewrite length_map. auto.
Qed.

(** The writer does not look at the key of a reference. *)
Lemma out_input_strip x : out_TransactionInput (strip x) = out_TransactionInput x.
Proof.
  destruct x as [g|[txid idx auth rho ref]]; [reflexivity|]. cbn [strip keyRef].
  destruct (ref =? PQ_NO_KEY_REF) eqn:E; [reflexivity|].
  unfold out_TransactionInput, input_tag, out_PqInput. cbn [keyRef set_authPub]. rewrite E. reflexivity.
Qed.

Lemma out_inputs_strip l :
  c_write (container input_codec) (map strip l) = c_write (container input_codec) l.
Proof.
  unfold container, c_write, out_container. rewrite length_map.
  enough (out_elements input_codec (map strip l) = out_elements input_codec l) as -> by reflexivity.
  induction l as [|x l IH]; [reflexivity|]. cbn [map out_elements]. rewrite IH.
  unfold c_write, input_codec at 1 3. rewrite out_input_strip. reflexivity.
Qed.

#[export] Instance prefix_ok : CodecOk prefix_codec.
Proof.
  apply mkCodec_ok; unfold in_TransactionPrefix, out_TransactionPrefix.
  - intros s a r H. inv_reads H.
    apply resolve_iff in E as [<- Hrefs]; [|apply Hf2]. rewrite out_inputs_strip in Hb2. bprop.
    split; [exact (conj G (conj Hf0 (conj Hf1 (conj Hf2 (conj Hrefs (conj Hf3 Hf4))))))|].
    cbn [version txType unlockHeight inputs outputs extra].
    rewrite Hb. cbn [bind]. rewrite (proj2 (Z.eqb_eq _ _) G). cbn [guard bind].
    rewrite Hb0, Hb1, Hb2, Hb3, Hb4. cbn [bind]. join_bytes.
  - intros [v t u i o e] (H1 & H2 & H3 & H4 & H5 & H6 & H7).
    cbn [version txType unlockHeight inputs outputs extra] in *. subst v. rewrite Z.eqb_refl. cbn [guard bind].
    assert (H1 : c_wf (uint 8) TRANSACTION_VERSION_1) by easy.
    change (c_wf (uint 8) t) in H2. change (c_wf (uint 64) u) in H3. rewrite <- out_inputs_strip.
    run_writes. eexists. split; [reflexivity|].
    split; [apply app_nonnil_l; exact (codec_nonempty _ _ H1 Hb)|].
    intros. run_reads. rewrite Z.eqb_refl. cbn [guard bind]. run_reads.
    rewrite (proj2 (resolve_iff (map strip i) i ltac:(apply H4))) by auto. cbn [bind]. run_reads. reflexivity.
Qed.

(** ** Transactions and blocks *)

Lemma in_signatures_sound n : forall s l r, in_signatures n s = Ok (l, r) ->
  length l = n /\ Forall (c_wf sig_array) l /\ exists b, out_elements sig_array l = Ok b /\ s = b ++ r.
Proof.
  induction n as [|n IH]; intros s l r H; cbn [in_signatures] in H.
  - inv_ok. cbn. eauto.
  - inv_reads H. apply IH in E as (<- & Hl & t & Ht & ->). split; [reflexivity|].
    split; [constructor; assumption|]. cbn [out_elements]. rewrite Hb, Ht. cbn [bind]. join_bytes.
Qed.

Lemma in_signatures_complete l : forall b r, Forall (c_wf sig_array) l ->
  out_elements sig_array l = Ok b -> in_signatures (length l) (b ++ r) = Ok (l, r).
Proof.
  induction l as [|x l IH]; intros b r Hf Hb; cbn [out_elements] in Hb; [inv_ok; reflexivity|].
  inversion_clear Hf. inv_bind Hb. inv_bind Hb. inv_ok. cbn [in_signatures length]. run_reads.
  rewrite IH by auto. reflexivity.
Qed.

#[export] Instance tx_ok : CodecOk tx_codec.
Proof.
  apply mkCodec_ok; unfold in_Transaction, out_Transaction.
  - intros s a r H. inv_reads H. apply in_signatures_sound in E as (Hl & Hs & bs & Ht & ->).
    split; [exact (conj Hf (conj Hl Hs))|]. cbn [prefix pqSignatures]. rewrite Hb, Ht. cbn [bind]. join_bytes.
  - intros [p l] (Hp & Hl & Hs). cbn [prefix pqSignatures] in *. change (c_wf prefix_codec p) in Hp.
    destruct (out_elements_total sig_array l Hs) as [t Ht]. rewrite Ht. run_writes. close_codec.
    rewrite <- Hl, (in_signatures_complete l t _ Hs Ht). reflexivity.
Qed.

#[export] Instance header_ok : CodecOk header_codec.
Proof.
  apply mkCodec_ok; unfold in_BlockHeader, out_BlockHeader.
  - intros s a r H. inv_reads H.
    assert (Hm : BLOCK_MAJOR_VERSION_1 <= z <= BLOCK_MAJOR_VERSION_8) by (unfold major_ok in G; lia).
    split; [exact (conj Hm (conj Hf0 (conj Hf1 (conj Hf2 Hf3))))|].
    cbn [majorVersion minorVersion nonce timestamp previousBlockHash].
    rewrite Hb. cbn [bind]. rewrite G. cbn [guard bind].
    rewrite Hb0, Hb1, Hb2, Hb3. cbn [bind]. join_bytes.
  - intros [a b e c d] (H1 & H2 & H3 & H4 & H5).
    cbn [majorVersion minorVersion nonce timestamp previousBlockHash] in *.
    assert (Ha : c_wf (uint 8) a).
    { unfold BLOCK_MAJOR_VERSION_1, BLOCK_MAJOR_VERSION_8 in H1. cbn. unfold in_w. lia. }
    assert (G : major_ok a = true) by (unfold major_ok; lia).
    change (c_wf (uint 8) b) in H2. change (c_wf (uint 64) c) in H3. change (c_wf hash d) in H4.
    change (c_wf (pod 4) e) in H5. rewrite G. cbn [guard bind]. run_writes.
    eexists. split; [reflexivity|]. split; [apply app_nonnil_l; exact (codec_nonempty _ _ Ha Hb)|].
    intros. run_reads. rewrite G. cbn [guard bind]. run_reads. reflexivity.
Qed.

#[export] Instance block_ok : CodecOk block_codec.
Proof.
  apply mkCodec_ok; unfold in_Block, out_Block.
  - intros s a r H. inv_reads H. split; [exact (conj Hf (conj Hf0 (conj Hf1 Hf2)))|].
    cbn [header signature baseTransaction transactionHashes]. rewrite Hb, Hb0, Hb1, Hb2. cbn [bind]. join_bytes.
  - intros [h t g l] (H1 & H2 & H3 & H4). cbn [header signature baseTransaction transactionHashes] in *.
    change (c_wf header_codec h) in H1. change (c_wf signature_codec g) in H2. change (c_wf tx_codec t) in H3.
    run_writes. close_codec.
Qed.

(** ** Whole buffers *)

Lemma fromBinaryArray_iff {A} (c : codec A) `{!CodecOk c} b a :
  fromBinaryArray c b = Some a <-> c_wf c a /\ toBinaryArray c a = Some b.
Proof.
  unfold fromBinaryArray, toBinaryArray. split.
  - destruct (c_read c b) as [[o s]|] eqn:E; [|discriminate].
    destruct s; cbn; [|discriminate]. intros. inv_ok. apply codec_exact in E as (Hw & b' & Hb & ->).
    rewrite Hb, app_nil_r. auto.
  - intros [Hw Hb]. destruct (c_write c a) as [b'|] eqn:E; [|discriminate]. inv_ok.
    rewrite <- (app_nil_r b), (codec_read_app c a b [] Hw E). reflexivity.
Qed.

(** Every well-formed object has a wire form, and parsing it gives it back. *)
Lemma toBinaryArray_total {A} (c : codec A) `{!CodecOk c} a :
  c_wf c a -> exists b, toBinaryArray c a = Some b /\ fromBinaryArray c b = Some a.
Proof.
  intros Hw. destruct (codec_total a Hw) as [b Hb].
  assert (Ht : toBinaryArray c a = Some b) by (unfold toBinaryArray; now rewrite Hb).
  exists b. split; [exact Ht|]. apply fromBinaryArray_iff; auto.
Qed.

(** Objects with the same wire hash are equal, or two byte strings collide. *)
Lemma getObjectHash_binding {A} (c : codec A) `{!CodecOk c} (cn_fast_hash : bytes -> bytes) x y u v :
  c_wf c x -> c_wf c y -> toBinaryArray c x = Some u -> toBinaryArray c y = Some v ->
  cn_fast_hash u = cn_fast_hash v -> x = y \/ collides cn_fast_hash [u; v].
Proof.
  intros Hx Hy Eu Ev E. destruct (hash_cases2 cn_fast_hash u v E) as [<-|C]; [left|auto].
  assert (Some x = Some y) by (rewrite <- (proj2 (fromBinaryArray_iff c u x) (conj Hx Eu));
                               apply fromBinaryArray_iff; auto).
  congruence.
Qed.

(** ** Properties *)

(** C26: The transaction parser accepts exactly the serializer's output. A byte
    string parses to [tx] (whole buffer consumed) if and only if [tx] is well
    formed and serializes to that byte string; so parsing is the inverse of
    serialization and no transaction has two wire forms. *)
Theorem tx_wire_exact b tx :
  fromBinaryArray tx_codec b = Some tx <-> wf_Transaction tx /\ toBinaryArray tx_codec tx = Some b.
Proof. exact (fromBinaryArray_iff tx_codec b tx). Qed.

(** The block parser accepts exactly the serializer's output: header with a
    known major version, one fixed-size proof signature, coinbase transaction and
    transaction hashes, nothing after them, one wire form per block. *)
Theorem block_wire_exact b blk :
  fromBinaryArray block_codec b = Some blk <-> wf_Block blk /\ toBinaryArray block_codec blk = Some b.
Proof. exact (fromBinaryArray_iff block_codec b blk). Qed.

(** Every well-formed transaction has a wire form, and both the node's parser
    and the object hash agree on it: the serializer never throws on it and parsing
    gives the same transaction back. *)
Theorem tx_roundtrip_total tx : wf_Transaction tx ->
  exists b, toBinaryArray tx_codec tx = Some b /\ fromBinaryArray tx_codec b = Some tx /\
    forall cn_fast_hash, getObjectHash cn_fast_hash tx_codec tx = (true, cn_fast_hash b).
Proof.
  intros Hw. destruct (toBinaryArray_total tx_codec tx Hw) as (b & Hb & Hp). exists b.
  repeat split; try assumption. intros. unfold getObjectHash. now rewrite Hb.
Qed.

(** A coinbase transaction, for the witnesses. *)
Definition sample_coinbase : Transaction :=
  mkTransaction
    (mkTransactionPrefix 1 TX_COINBASE 20 [InBase (mkBaseInput 10)]
       [mkTransactionOutput 4000 0 (OutCoinbase (mkCoinbaseOutput (repeat (b8 7) 32)))] [b8 0x01; b8 0x02])
    [].

Lemma sample_coinbase_wf : wf_Transaction sample_coinbase.
Proof.
  assert (H : exists b, fromBinaryArray tx_codec b = Some sample_coinbase).
  { exists (match toBinaryArray tx_codec sample_coinbase with Some b => b | None => [] end). vm_compute. reflexivity. }
  destruct H as [b H]. apply (fromBinaryArray_iff tx_codec) in H as [Hw _]. exact Hw.
Qed.

Lemma tx_roundtrip_total_witness :
  exists b, toBinaryArray tx_codec sample_coinbase = Some b /\ fromBinaryArray tx_codec b = Some sample_coinbase /\
    forall cn_fast_hash, getObjectHash cn_fast_hash tx_codec sample_coinbase = (true, cn_fast_hash b).
Proof. apply (tx_roundtrip_total sample_coinbase). exact sample_coinbase_wf. Defined.

(** The transaction hash binds the transaction: two accepted byte strings
    with the same object hash are the same transaction, or they are themselves a
    collision of the hash function. *)
Theorem tx_hash_binding (cn_fast_hash : bytes -> bytes) b1 b2 t1 t2 h :
  fromBinaryArray tx_codec b1 = Some t1 -> fromBinaryArray tx_codec b2 = Some t2 ->
  getObjectHash cn_fast_hash tx_codec t1 = (true, h) ->
  getObjectHash cn_fast_hash tx_codec t2 = (true, h) ->
  (b1 = b2 /\ t1 = t2) \/ (b1 <> b2 /\ cn_fast_hash b1 = cn_fast_hash b2).
Proof.
  intros H1 H2. apply (fromBinaryArray_iff tx_codec) in H1 as H1'. apply (fromBinaryArray_iff tx_codec) in H2 as H2'.
  destruct H1' as [_ E1], H2' as [_ E2]. unfold getObjectHash. rewrite E1, E2. intros F1 F2.
  destruct (bytes_eqb b1 b2) eqn:E.
  - apply bytes_eqb_eq in E as ->. left. split; congruence.
  - right. split; [intros ->; rewrite bytes_eqb_refl in E; discriminate | congruence].
Qed.

Definition sample_coinbase_bytes : bytes :=
  match toBinaryArray tx_codec sample_coinbase with Some b => b | None => [] end.

Lemma tx_hash_binding_witness :
  (sample_coinbase_bytes = sample_coinbase_bytes /\ sample_coinbase = sample_coinbase) \/
  (sample_coinbase_bytes <> sample_coinbase_bytes /\ rev sample_coinbase_bytes = rev sample_coinbase_bytes).
Proof.
  apply (tx_hash_binding (@rev _) _ _ _ _ (rev sample_coinbase_bytes)); vm_compute; reflexivity.
Defined.

(** Key-reference resolution succeeds exactly on the lists in which every
    reference names an earlier key-carrying input (and which are then within the
    grouped-input cap); it fills in that input's key and changes nothing else. *)
Theorem key_references_resolved raw ins : Forall wf_wire_input raw ->
  resolvePqKeyReferences raw = Ok ins <-> map strip ins = raw /\ refs_ok ins.
Proof. exact (resolve_iff raw ins). Qed.

Definition sample_refs : list TransactionInput :=
  let z := repeat (b8 0) 32 in
  [InPq (mkPqInput z 0 (repeat (b8 9) 1952) z PQ_NO_KEY_REF); InPq (mkPqInput z 1 [] z 0)].
Definition sample_refs_resolved : list TransactionInput :=
  let z := repeat (b8 0) 32 in
  [InPq (mkPqInput z 0 (repeat (b8 9) 1952) z PQ_NO_KEY_REF);
   InPq (mkPqInput z 1 (repeat (b8 9) 1952) z 0)].

Lemma key_references_resolved_witness :
  Forall wf_wire_input sample_refs /\ refs_ok sample_refs_resolved.
Proof.
  assert (Hw : Forall wf_wire_input sample_refs)
    by (repeat constructor; cbn; unfold in_w; first [lia | reflexivity | vm_compute; congruence]).
  split; [exact Hw|].
  apply (key_references_resolved sample_refs sample_refs_resolved Hw). vm_compute. reflexivity.
Defined.
