(* ===== verification/IntUtil.v ===== *)
(** * 128-bit arithmetic and the proof-of-work target

    [Common/int-util.h] (the 64x64 multiplication and the 128/32 long division
    written with 32-bit halves) and [CryptoNoteCore/Difficulty.cpp] ([check_hash],
    a multiplication of a 256-bit hash by the difficulty done word by word with
    explicit carries). *)

From Stdlib Require Import ZArith List Lia Bool.
From coqutil Require Import Byte Word.LittleEndianList.
From S2P Require Import Prelude.
Import ListNotations.
Open Scope Z_scope.
Open Scope discrete_scope.

Module int_util.

Definition hi_dword (val : Z) : Z := Z.shiftr val 32.
Definition lo_dword (val : Z) : Z := Z.land val 0xFFFFFFFF.

(** Returns (product_lo, product_hi). *)
Definition mul128 (multiplier multiplicand : Z) : Z * Z :=
  let a := hi_dword multiplier in
  let b := lo_dword multiplier in
  let c := hi_dword multiplicand in
  let d := lo_dword multiplicand in
  let ac := w64 (a * c) in
  let ad := w64 (a * d) in
  let bc := w64 (b * c) in
  let bd := w64 (b * d) in
  let adbc := w64 (ad + bc) in
  let adbc_carry := if adbc <? ad then 1 else 0 in
  let product_lo := w64 (bd + w64 (Z.shiftl adbc 32)) in
  let product_lo_carry := if product_lo <? bd then 1 else 0 in
  let product_hi :=
    w64 (ac + Z.shiftr adbc 32 + w64 (Z.shiftl adbc_carry 32) + product_lo_carry) in
  (product_lo, product_hi).

(** Returns (quotient, new remainder). *)
Definition div_with_reminder (dividend divisor remainder : Z) : Z * Z :=
  let dividend := Z.lor dividend (w64 (Z.shiftl remainder 32)) in
  (dividend / divisor, w32 (dividend mod divisor)).

(** Returns (quotient_hi, quotient_lo, remainder). *)
Definition div128_32 (dividend_hi dividend_lo divisor : Z) : Z * Z * Z :=
  let remainder := 0 in
  let d3 := hi_dword dividend_hi in
  let d2 := lo_dword dividend_hi in
  let d1 := hi_dword dividend_lo in
  let d0 := lo_dword dividend_lo in
  let (q3, remainder) := div_with_reminder d3 divisor remainder in
  let quotient_hi := w64 (Z.shiftl q3 32) in
  let (q2, remainder) := div_with_reminder d2 divisor remainder in
  let quotient_hi := Z.lor quotient_hi q2 in
  let (q1, remainder) := div_with_reminder d1 divisor remainder in
  let quotient_lo := w64 (Z.shiftl q1 32) in
  let (q0, remainder) := div_with_reminder d0 divisor remainder in
  let quotient_lo := Z.lor quotient_lo q0 in
  (quotient_hi, quotient_lo, remainder).

End int_util.

Module Difficulty.

(** [mul]: the [__int128] version; returns (low, high). *)
Definition mul (a b : Z) : Z * Z :=
  let res := a * b in (w64 res, w64 (Z.shiftr res 64)).

Definition cadd (a b : Z) : bool := w64 (a + b) <? a.
Definition cadc (a b : Z) (c : bool) : bool :=
  (w64 (a + b) <? a) || (c && (w64 (a + b) =? 2 ^ 64 - 1)).

(** The [i]-th 64-bit word of the hash, through [swap64le]. *)
Definition hash_word (hash : bytes) (i : nat) : Z := le_combine (firstn 8 (skipn (8 * i) hash)).

Definition check_hash (hash : bytes) (difficulty : Z) : bool :=
  let (top, high) := mul (hash_word hash 3) difficulty in
  if negb (high =? 0) then false
  else
    let (low, cur) := mul (hash_word hash 0) difficulty in
    let (low, high) := mul (hash_word hash 1) difficulty in
    let carry := cadd cur low in
    let cur := high in
    let (low, high) := mul (hash_word hash 2) difficulty in
    let carry := cadc cur low carry in
    let carry := cadc high top carry in
    negb carry.

End Difficulty.
Import int_util.

(** ** Halves of a word *)

Lemma hi_lo_dword v : in_w 64 v ->
  v = hi_dword v * 2 ^ 32 + lo_dword v /\ 0 <= hi_dword v < 2 ^ 32 /\ 0 <= lo_dword v < 2 ^ 32.
Proof.
  unfold in_w, hi_dword, lo_dword. intros H.
  change 0xFFFFFFFF with (Z.ones 32). rewrite Z.land_ones, Z.shiftr_div_pow2 by lia. dmlia.
Qed.

(** A carry out of a 64-bit sum is visible as the sum being small. *)
Lemma sum_carry a b : in_w 64 a -> in_w 64 b ->
  a + b = w64 (a + b) + (if w64 (a + b) <? a then 2 ^ 64 else 0) /\ 0 <= w64 (a + b) < 2 ^ 64.
Proof.
  unfold in_w, wrap. intros Ha Hb. destruct (Z.lt_ge_cases (a + b) (2 ^ 64)).
  - rewrite Z.mod_small by lia. destruct (Z.ltb_spec (a + b) a); lia.
  - assert ((a + b) mod 2 ^ 64 = a + b - 2 ^ 64) as -> by
      (symmetry; apply (Z.mod_unique _ _ 1); lia).
    destruct (Z.ltb_spec (a + b - 2 ^ 64) a); lia.
Qed.

Lemma mul_bound x y m n : 0 <= x < m -> 0 <= y < n -> 0 <= x * y <= (m - 1) * (n - 1).
Proof.
  intros. split; [apply Z.mul_nonneg_nonneg; lia|]. apply Z.mul_le_mono_nonneg; lia.
Qed.

(** ** The multiplication is exact *)

Lemma mul128_exact a b : in_w 64 a -> in_w 64 b ->
  let (lo, hi) := mul128 a b in a * b = hi * 2 ^ 64 + lo /\ in_w 64 lo /\ in_w 64 hi.
Proof.
  intros Ha Hb. unfold mul128.
  destruct (hi_lo_dword a Ha) as (Ea & H1 & H2). destruct (hi_lo_dword b Hb) as (Eb & H3 & H4).
  generalize dependent (hi_dword a). generalize dependent (lo_dword a). intros y Hy x Ea Hx.
  generalize dependent (hi_dword b). generalize dependent (lo_dword b). intros v Hv u Eb Hu.
  pose proof (mul_bound _ _ _ _ Hx Hu). pose proof (mul_bound _ _ _ _ Hx Hv).
  pose proof (mul_bound _ _ _ _ Hy Hu). pose proof (mul_bound _ _ _ _ Hy Hv).
  rewrite (wrap_small 64 (x * u)), (wrap_small 64 (x * v)), (wrap_small 64 (y * u)),
    (wrap_small 64 (y * v)) by (unfold in_w; lia).
  destruct (sum_carry (x * v) (y * u)) as [S1 R1]; [unfold in_w; lia ..|].
  generalize dependent (w64 (x * v + y * u)). intros adbc S1 R1.
  assert (Hs : w64 (Z.shiftl adbc 32) = (adbc mod 2 ^ 32) * 2 ^ 32).
  { unfold wrap. rewrite Z.shiftl_mul_pow2 by lia. change (2 ^ 64) with (2 ^ 32 * 2 ^ 32).
    rewrite Z.mul_mod_distr_r by lia. reflexivity. }
  assert (Hh : adbc = (Z.shiftr adbc 32) * 2 ^ 32 + adbc mod 2 ^ 32 /\ 0 <= adbc mod 2 ^ 32 < 2 ^ 32
               /\ 0 <= Z.shiftr adbc 32 < 2 ^ 32)
    by (rewrite Z.shiftr_div_pow2 by lia; dmlia).
  rewrite Hs. destruct Hh as (Hh & Hm & Hq).
  destruct (sum_carry (y * v) ((adbc mod 2 ^ 32) * 2 ^ 32)) as [S2 R2]; [unfold in_w; lia ..|].
  generalize dependent (w64 (y * v + (adbc mod 2 ^ 32) * 2 ^ 32)). intros lo S2 R2.
  assert (Hc : w64 (Z.shiftl (if adbc <? x * v then 1 else 0) 32) = if adbc <? x * v then 2 ^ 32 else 0)
    by (destruct (adbc <? x * v); reflexivity).
  rewrite Hc.
  assert (Hab : a * b = x * u * 2 ^ 64 + (x * v + y * u) * 2 ^ 32 + y * v) by (rewrite Ea, Eb; ring).
  assert (Hhi : a * b = (x * u + Z.shiftr adbc 32 + (if adbc <? x * v then 2 ^ 32 else 0)
            + (if lo <? y * v then 1 else 0)) * 2 ^ 64 + lo)
    by (rewrite Hab; destruct (adbc <? x * v), (lo <? y * v); lia).
  assert (Hr : 0 <= a * b < 2 ^ 64 * 2 ^ 64) by (pose proof (mul_bound _ _ _ _ Ha Hb); lia).
  rewrite wrap_small by (unfold in_w; lia). unfold in_w. lia.
Qed.

(** ** The long division is exact *)

Lemma div_step d divisor r : 0 <= d < 2 ^ 32 -> 0 < divisor < 2 ^ 32 -> 0 <= r < divisor ->
  let (q, r') := div_with_reminder d divisor r in
  r * 2 ^ 32 + d = q * divisor + r' /\ 0 <= q < 2 ^ 32 /\ 0 <= r' < divisor.
Proof.
  intros Hd Hv Hr. unfold div_with_reminder.
  rewrite (wrap_small 64) by (unfold in_w; rewrite Z.shiftl_mul_pow2; lia).
  rewrite lor_shiftl_add by lia.
  pose proof (Z.mod_pos_bound (d + r * 2 ^ 32) divisor ltac:(lia)).
  rewrite wrap_small by (unfold in_w; lia).
  pose proof (Z.div_mod (d + r * 2 ^ 32) divisor ltac:(lia)). split; [lia|].
  split; [|lia]. split; [apply Z.div_pos; lia|]. apply Z.div_lt_upper_bound; [lia|].
  enough ((r + 1) * 2 ^ 32 <= divisor * 2 ^ 32) by lia. apply Z.mul_le_mono_nonneg_r; lia.
Qed.

Lemma lor_halves h l : 0 <= h < 2 ^ 32 -> 0 <= l < 2 ^ 32 ->
  Z.lor (w64 (Z.shiftl h 32)) l = h * 2 ^ 32 + l.
Proof.
  intros. rewrite wrap_small by (unfold in_w; rewrite Z.shiftl_mul_pow2; lia).
  rewrite Z.lor_comm, lor_shiftl_add by lia. lia.
Qed.

Lemma div128_32_exact hi lo divisor : in_w 64 hi -> in_w 64 lo -> 0 < divisor < 2 ^ 32 ->
  let '(qhi, qlo, r) := div128_32 hi lo divisor in
  hi * 2 ^ 64 + lo = (qhi * 2 ^ 64 + qlo) * divisor + r /\ 0 <= r < divisor /\
  in_w 64 qhi /\ in_w 64 qlo.
Proof.
  intros Hh Hl Hv. unfold div128_32.
  destruct (hi_lo_dword hi Hh) as (Eh & H3 & H2). destruct (hi_lo_dword lo Hl) as (El & H1 & H0).
  pose proof (div_step _ divisor 0 H3 Hv ltac:(lia)) as S3.
  destruct (div_with_reminder (hi_dword hi) divisor 0) as [q3 r3]. destruct S3 as (S3 & Q3 & R3).
  pose proof (div_step _ divisor r3 H2 Hv R3) as S2.
  destruct (div_with_reminder (lo_dword hi) divisor r3) as [q2 r2]. destruct S2 as (S2 & Q2 & R2).
  pose proof (div_step _ divisor r2 H1 Hv R2) as S1.
  destruct (div_with_reminder (hi_dword lo) divisor r2) as [q1 r1]. destruct S1 as (S1 & Q1 & R1).
  pose proof (div_step _ divisor r1 H0 Hv R1) as S0.
  destruct (div_with_reminder (lo_dword lo) divisor r1) as [q0 r0]. destruct S0 as (S0 & Q0 & R0).
  rewrite !lor_halves by assumption. unfold in_w. split; [|lia].
  rewrite Eh, El. replace ((hi_dword hi * 2 ^ 32 + lo_dword hi) * 2 ^ 64 + (hi_dword lo * 2 ^ 32 + lo_dword lo))
    with ((0 * 2 ^ 32 + hi_dword hi) * 2 ^ 96 + lo_dword hi * 2 ^ 64 + hi_dword lo * 2 ^ 32 + lo_dword lo) by ring.
  rewrite S3. lia.
Qed.

(** Long division is division. *)
Lemma div128_32_spec hi lo divisor : in_w 64 hi -> in_w 64 lo -> 0 < divisor < 2 ^ 32 ->
  div128_32 hi lo divisor =
    (((hi * 2 ^ 64 + lo) / divisor) / 2 ^ 64, ((hi * 2 ^ 64 + lo) / divisor) mod 2 ^ 64,
     (hi * 2 ^ 64 + lo) mod divisor).
Proof.
  intros Hh Hl Hv. pose proof (div128_32_exact hi lo divisor Hh Hl Hv) as E.
  destruct (div128_32 hi lo divisor) as [[qh ql] r]. destruct E as (E & Hr & Hqh & Hql). unfold in_w in *.
  rewrite <- (Z.div_unique_pos _ _ (qh * 2 ^ 64 + ql) r Hr) by lia.
  rewrite <- (Z.mod_unique_pos _ _ (qh * 2 ^ 64 + ql) r Hr) by lia.
  rewrite <- (Z.div_unique_pos _ _ qh ql Hql) by lia.
  rewrite <- (Z.mod_unique_pos _ _ qh ql Hql) by lia. reflexivity.
Qed.

(** ** The target test *)

Import Difficulty.

(** The portable multiplication and the [__int128] one are the same. *)
Lemma mul_spec a b : in_w 64 a -> in_w 64 b ->
  let (lo, hi) := mul a b in a * b = hi * 2 ^ 64 + lo /\ in_w 64 lo /\ in_w 64 hi.
Proof.
  unfold mul, wrap, in_w. intros Ha Hb. rewrite Z.shiftr_div_pow2 by lia.
  pose proof (mul_bound _ _ _ _ Ha Hb).
  rewrite (Z.mod_small (a * b / 2 ^ 64)) by dmlia. dmlia.
Qed.

Lemma mul_mul128 a b : in_w 64 a -> in_w 64 b -> mul a b = mul128 a b.
Proof.
  intros Ha Hb. pose proof (mul_spec a b Ha Hb) as H1. pose proof (mul128_exact a b Ha Hb) as H2.
  destruct (mul a b), (mul128 a b). unfold in_w in *. f_equal; lia.
Qed.

(** Carry of a three-way addition. *)
Lemma cadc_spec a b c : in_w 64 a -> in_w 64 b ->
  cadc a b c = (2 ^ 64 <=? a + b + (if c then 1 else 0)).
Proof.
  intros Ha Hb. unfold cadc. destruct (sum_carry a b Ha Hb) as [S R]. unfold in_w in *.
  destruct (Z.ltb_spec (w64 (a + b)) a); destruct c; cbn [andb orb]; lia.
Qed.

Lemma cadd_cadc a b : cadd a b = cadc a b false.
Proof. unfold cadd, cadc. now rewrite orb_false_r. Qed.

Lemma hash_word_range h i : in_w 64 (hash_word h i).
Proof.
  unfold in_w, hash_word. pose proof (le_combine_bound (firstn 8 (skipn (8 * i) h))).
  pose proof (firstn_le_length 8 (skipn (8 * i) h)).
  assert (2 ^ (8 * Z.of_nat (length (firstn 8 (skipn (8 * i) h)))) <= 2 ^ 64) by
    (apply Z.pow_le_mono_r; lia). lia.
Qed.

Lemma le_combine_skip h k : (k <= length h)%nat ->
  le_combine h = le_combine (firstn k h) + le_combine (skipn k h) * 2 ^ (8 * Z.of_nat k).
Proof.
  intros. rewrite <- (firstn_skipn k h) at 1. rewrite le_combine_app_add, length_firstn, Nat.min_l by lia.
  reflexivity.
Qed.

Lemma hash_words h : length h = 32%nat ->
  le_combine h = hash_word h 0 + hash_word h 1 * 2 ^ 64 + hash_word h 2 * 2 ^ 128 + hash_word h 3 * 2 ^ 192.
Proof.
  intros H. unfold hash_word. cbn [Nat.mul Nat.add]. rewrite skipn_O.
  assert (L3 : length (skipn 24 h) = 8%nat) by (rewrite length_skipn, H; reflexivity).
  rewrite (le_combine_skip h 8), (le_combine_skip (skipn 8 h) 8), (le_combine_skip (skipn 8 (skipn 8 h)) 8)
    by (rewrite ?length_skipn; lia).
  rewrite !skipn_skipn. cbn [Nat.add]. rewrite (firstn_all2 (skipn 24 h)) by lia.
  change (8 * Z.of_nat 8) with 64. ring.
Qed.

Lemma check_hash_iff h d : length h = 32%nat -> in_w 64 d ->
  check_hash h d = true <-> le_combine h * d < 2 ^ 256.
Proof.
  intros Hl Hd. rewrite hash_words by assumption. unfold check_hash.
  pose proof (hash_word_range h 0) as R0. pose proof (hash_word_range h 1) as R1.
  pose proof (hash_word_range h 2) as R2. pose proof (hash_word_range h 3) as R3.
  generalize dependent (hash_word h 0). generalize dependent (hash_word h 1).
  generalize dependent (hash_word h 2). generalize dependent (hash_word h 3). intros x3 R3 x2 R2 x1 R1 x0 R0.
  pose proof (mul_spec x3 d R3 Hd) as M3. destruct (mul x3 d) as [top h3]. destruct M3 as (M3 & T3 & H3).
  pose proof (mul_spec x0 d R0 Hd) as M0. destruct (mul x0 d) as [l0 h0]. destruct M0 as (M0 & T0 & H0).
  pose proof (mul_spec x1 d R1 Hd) as M1. destruct (mul x1 d) as [l1 h1]. destruct M1 as (M1 & T1 & H1).
  pose proof (mul_spec x2 d R2 Hd) as M2. destruct (mul x2 d) as [l2 h2]. destruct M2 as (M2 & T2 & H2).
  replace ((x0 + x1 * 2 ^ 64 + x2 * 2 ^ 128 + x3 * 2 ^ 192) * d) with
    (x0 * d + x1 * d * 2 ^ 64 + x2 * d * 2 ^ 128 + x3 * d * 2 ^ 192) by ring.
  rewrite M0, M1, M2, M3. clear M0 M1 M2 M3 R0 R1 R2 R3 Hl. unfold in_w in *.
  destruct (Z.eqb_spec h3 0) as [->|N]; cbn [negb].
  - rewrite cadd_cadc, !cadc_spec by (unfold in_w; lia). rewrite negb_true_iff.
    destruct (Z.leb_spec (2 ^ 64) (h0 + l1 + 0)); destruct (Z.leb_spec (2 ^ 64) (h1 + l2 + 1));
      destruct (Z.leb_spec (2 ^ 64) (h1 + l2 + 0)); rewrite Z.leb_gt; lia.
  - split; [discriminate|]. lia.
Qed.

(** C27: The proof-of-work test is exactly the 256-bit target inequality: for a
    32-byte hash read as a little-endian number and a 64-bit difficulty,
    [check_hash] accepts if and only if [hash * difficulty < 2^256]; the
    word-by-word carries lose nothing. *)
Theorem check_hash_target h d : length h = 32%nat -> in_w 64 d ->
  check_hash h d = true <-> le_combine h * d < 2 ^ 256.
Proof. exact (check_hash_iff h d). Qed.

Lemma check_hash_target_witness :
  check_hash (repeat (b8 0xff) 31 ++ [b8 0]) 255 = true /\
  check_hash (repeat (b8 0xff) 31 ++ [b8 0]) 257 = false.
Proof.
  split.
  - apply (check_hash_target (repeat (b8 0xff) 31 ++ [b8 0]) 255); [reflexivity|easy|vm_compute; reflexivity].
  - vm_compute. reflexivity.
Defined.

(** The portable 64x64 multiplication returns the exact 128-bit product, and
    the long division by a 32-bit divisor returns the exact quotient and
    remainder of a 128-bit dividend. *)
Theorem wide_arithmetic_exact a b hi lo divisor :
  in_w 64 a -> in_w 64 b -> in_w 64 hi -> in_w 64 lo -> 0 < divisor < 2 ^ 32 ->
  mul128 a b = ((a * b) mod 2 ^ 64, (a * b) / 2 ^ 64) /\
  div128_32 hi lo divisor =
    (((hi * 2 ^ 64 + lo) / divisor) / 2 ^ 64, ((hi * 2 ^ 64 + lo) / divisor) mod 2 ^ 64,
     (hi * 2 ^ 64 + lo) mod divisor).
Proof.
  intros Ha Hb Hh Hl Hv. split; [|apply div128_32_spec; assumption].
  rewrite <- mul_mul128 by assumption. unfold mul, wrap. f_equal.
  rewrite Z.shiftr_div_pow2 by lia. apply Z.mod_small. unfold in_w in *.
  pose proof (mul_bound _ _ _ _ Ha Hb). dmlia.
Qed.

Lemma wide_arithmetic_exact_witness :
  mul128 (2 ^ 64 - 1) (2 ^ 64 - 1) = (1, 2 ^ 64 - 2) /\
  div128_32 (2 ^ 64 - 1) (2 ^ 64 - 1) 10 = ((2 ^ 128 - 1) / 10 / 2 ^ 64, (2 ^ 128 - 1) / 10 mod 2 ^ 64, 5).
Proof.
  apply (wide_arithmetic_exact (2 ^ 64 - 1) (2 ^ 64 - 1) (2 ^ 64 - 1) (2 ^ 64 - 1) 10); easy.
Defined.
