(* ===== verification/Currency.v ===== *)
(** * Currency: emission, block reward and difficulty

    [CryptoNoteCore/Currency.cpp] with its parameters as [CurrencyBuilder]
    sets them, and [getPenalizedAmount] of [CryptoNoteBasicImpl.cpp].  All
    arithmetic is at its machine width; the theorems say where that is the
    mathematical arithmetic and, for one branch of the difficulty formula, where
    it is not. *)

From Stdlib Require Import ZArith List Lia Bool.
From S2P Require Import Prelude Config IntUtil.
Import ListNotations.
Open Scope Z_scope.
Open Scope discrete_scope.
Import int_util.

Record Currency := mkCurrency {
  moneySupply : Z;
  emissionSpeedFactor : Z;
  expectedNumberOfBlocksPerDay : Z;
  blockGrantedFullRewardZone : Z;
  cryptonoteCoinVersion : Z;
  minedMoneyUnlockWindow : Z;
  difficultyTarget : Z;
  difficultyBlocksCount4 : Z;
  maxBlockSizeInitial : Z;
  maxBlockSizeGrowthSpeedNumerator : Z;
  maxBlockSizeGrowthSpeedDenominator : Z;
  isTestnet : bool;
  maxBlockHeight : Z;
  timestampCheckWindow_v1 : Z;
  blockFutureTimeLimit_v1 : Z;
  rewardBlocksWindow : Z;
  lockedTxAllowedDeltaBlocks : Z;
  upgradeHeightV2 : Z;
  upgradeHeightV3 : Z;
  upgradeHeightV4 : Z;
  upgradeHeightV5 : Z;
  upgradeHeightV6 : Z;
  upgradeHeightV7 : Z;
  upgradeHeightV8 : Z;
  freeRegPerBlock : Z;
  freeRegPowTarget : Z;
  freeRegPoolLimit : Z;
  pqDeliveryV2Height : Z;
  minerTxBlobReservedSize : Z;
  mempoolTxLiveTime : Z;
  mempoolTxFromAltBlockLiveTime : Z;
  numberOfPeriodsToForgetTxDeletedFromPool : Z
}.

(** [CurrencyBuilder]'s defaults. *)
Definition CurrencyBuilder (testnet : bool) : Currency := {|
  moneySupply := parameters.EMISSION_CURVE_TARGET;
  emissionSpeedFactor := parameters.EMISSION_SPEED_FACTOR;
  expectedNumberOfBlocksPerDay := parameters.EXPECTED_NUMBER_OF_BLOCKS_PER_DAY;
  blockGrantedFullRewardZone := parameters.CRYPTONOTE_BLOCK_GRANTED_FULL_REWARD_ZONE;
  cryptonoteCoinVersion := parameters.CRYPTONOTE_COIN_VERSION;
  minedMoneyUnlockWindow := parameters.CRYPTONOTE_MINED_MONEY_UNLOCK_WINDOW;
  difficultyTarget := parameters.DIFFICULTY_TARGET;
  difficultyBlocksCount4 := parameters.DIFFICULTY_WINDOW;
  maxBlockSizeInitial := parameters.MAX_BLOCK_SIZE_INITIAL;
  maxBlockSizeGrowthSpeedNumerator := parameters.MAX_BLOCK_SIZE_GROWTH_SPEED_NUMERATOR;
  maxBlockSizeGrowthSpeedDenominator := parameters.MAX_BLOCK_SIZE_GROWTH_SPEED_DENOMINATOR;
  isTestnet := testnet;
  maxBlockHeight := parameters.CRYPTONOTE_MAX_BLOCK_NUMBER;
  timestampCheckWindow_v1 := parameters.BLOCKCHAIN_TIMESTAMP_CHECK_WINDOW_V1;
  blockFutureTimeLimit_v1 := parameters.CRYPTONOTE_BLOCK_FUTURE_TIME_LIMIT_V1;
  rewardBlocksWindow := parameters.CRYPTONOTE_REWARD_BLOCKS_WINDOW;
  lockedTxAllowedDeltaBlocks := parameters.CRYPTONOTE_LOCKED_TX_ALLOWED_DELTA_BLOCKS;
  upgradeHeightV2 := parameters.UPGRADE_HEIGHT_V2;
  upgradeHeightV3 := parameters.UPGRADE_HEIGHT_V3;
  upgradeHeightV4 := parameters.UPGRADE_HEIGHT_V4;
  upgradeHeightV5 := parameters.UPGRADE_HEIGHT_V5;
  upgradeHeightV6 := parameters.UPGRADE_HEIGHT_V6;
  upgradeHeightV7 := parameters.UPGRADE_HEIGHT_V7;
  upgradeHeightV8 := parameters.UPGRADE_HEIGHT_V8;
  freeRegPerBlock := parameters.FREE_REG_PER_BLOCK;
  freeRegPowTarget := parameters.FREE_REG_POW_TARGET;
  freeRegPoolLimit := parameters.FREE_REG_POOL_LIMIT;
  pqDeliveryV2Height := parameters.PQ_DELIVERY_V2_HEIGHT;
  minerTxBlobReservedSize := parameters.CRYPTONOTE_COINBASE_BLOB_RESERVED_SIZE;
  mempoolTxLiveTime := parameters.CRYPTONOTE_MEMPOOL_TX_LIVETIME;
  mempoolTxFromAltBlockLiveTime := parameters.CRYPTONOTE_MEMPOOL_TX_FROM_ALT_BLOCK_LIVETIME;
  numberOfPeriodsToForgetTxDeletedFromPool := parameters.CRYPTONOTE_NUMBER_OF_PERIODS_TO_FORGET_TX_DELETED_FROM_POOL
|}.

(** [getPenalizedAmount]: sizes are [size_t], the divisor is cast to 32 bits. *)
Definition getPenalizedAmount (amount medianSize currentBlockSize : Z) : Z :=
  if amount =? 0 then 0
  else if currentBlockSize <=? medianSize then amount
  else
    let multiplicand := w64 (w64 (2 * medianSize) - currentBlockSize) in
    let multiplicand := w64 (multiplicand * currentBlockSize) in
    let (productLo, productHi) := mul128 amount multiplicand in
    let '(hi, lo, _) := div128_32 productHi productLo (w32 medianSize) in
    let '(hi, lo, _) := div128_32 hi lo (w32 medianSize) in
    lo.

Section Emission.
Variable c : Currency.

Definition calculateReward (alreadyGeneratedCoins : Z) : Z :=
  let baseRewardInitial :=
    if alreadyGeneratedCoins <? moneySupply c
    then Z.shiftr (moneySupply c - alreadyGeneratedCoins) (emissionSpeedFactor c)
    else parameters.TAIL_EMISSION_REWARD in
  let blocksInOneYear := w64 (expectedNumberOfBlocksPerDay c * 365) in
  let twoPercentOfEmission := w64 (alreadyGeneratedCoins / 100 * 2) in
  let baseRewardTail := twoPercentOfEmission / blocksInOneYear in
  Z.max baseRewardInitial baseRewardTail.

Definition blockGrantedFullRewardZoneByBlockVersion (blockMajorVersion : Z) : Z :=
  blockGrantedFullRewardZone c.

(** [getBlockReward]: [None] is the refusal, otherwise (reward, emissionChange). *)
Definition getBlockReward (blockMajorVersion medianSize currentBlockSize alreadyGeneratedCoins fee : Z)
  : option (Z * Z) :=
  let baseReward := calculateReward alreadyGeneratedCoins in
  let medianSize := Z.max medianSize (blockGrantedFullRewardZoneByBlockVersion blockMajorVersion) in
  if w64 (2 * medianSize) <? currentBlockSize then None
  else
    let penalizedBaseReward := getPenalizedAmount baseReward medianSize currentBlockSize in
    let penalizedFee :=
      if BLOCK_MAJOR_VERSION_2 <=? blockMajorVersion
      then getPenalizedAmount fee medianSize currentBlockSize else fee in
    let penalizedFee :=
      if cryptonoteCoinVersion c =? 1
      then getPenalizedAmount fee medianSize currentBlockSize else penalizedFee in
    let emissionChange := s64 (penalizedBaseReward - (fee - penalizedFee)) in
    let reward := w64 (penalizedBaseReward + penalizedFee) in
    Some (reward, emissionChange).

Definition maxBlockCumulativeSize (height : Z) : Z :=
  w64 (maxBlockSizeInitial c +
       w64 (height * maxBlockSizeGrowthSpeedNumerator c) / maxBlockSizeGrowthSpeedDenominator c).

(** [upgradeHeight]: -1 as [uint32_t] for a version without an upgrade. *)
Definition upgradeHeight (majorVersion : Z) : Z :=
  if majorVersion =? BLOCK_MAJOR_VERSION_8 then upgradeHeightV8 c
  else if majorVersion =? BLOCK_MAJOR_VERSION_7 then upgradeHeightV7 c
  else if majorVersion =? BLOCK_MAJOR_VERSION_6 then upgradeHeightV6 c
  else if majorVersion =? BLOCK_MAJOR_VERSION_5 then upgradeHeightV5 c
  else if majorVersion =? BLOCK_MAJOR_VERSION_4 then upgradeHeightV4 c
  else if majorVersion =? BLOCK_MAJOR_VERSION_2 then upgradeHeightV2 c
  else if majorVersion =? BLOCK_MAJOR_VERSION_3 then upgradeHeightV3 c
  else 2 ^ 32 - 1.

Definition isPqTransferTypeAllowedAt (txType height : Z) : bool :=
  if txType =? TX_PQ then height <? pqDeliveryV2Height c
  else if txType =? TX_PQ_V2 then pqDeliveryV2Height c <=? height
  else false.

(** ** [nextDifficulty] (LWMA) *)

Definition floorDiff : Z :=
  if isTestnet c then 1 else Z.max 1 parameters.MINIMUM_DIFFICULTY.

(** The weighted solve-time loop, from index [i] on. *)
Fixpoint lwma_loop (T i previous_timestamp L : Z) (timestamps : list Z) : Z :=
  match timestamps with
  | [] => L
  | t :: timestamps =>
      let this_timestamp := if previous_timestamp <? t then t else w64 (previous_timestamp + 1) in
      let L := w64 (L + w64 (i * Z.min (w64 (6 * T)) (w64 (this_timestamp - previous_timestamp)))) in
      lwma_loop T (i + 1) this_timestamp L timestamps
  end.

(** "Make all insignificant digits zero": [i] goes from 10^9 down by tens. *)
Fixpoint round_loop (fuel : nat) (i next_D : Z) : Z :=
  match fuel with
  | O => next_D
  | S fuel =>
      if 1 <? i then
        if w64 (i * 100) <? next_D then w64 (w64 (next_D + i / 2) / i * i)
        else round_loop fuel (i / 10) next_D
      else next_D
  end.
Definition round_digits (next_D : Z) : Z := round_loop 10 1000000000 next_D.

Definition nextDifficulty (timestamps cumulativeDifficulties : list Z) : Z :=
  let size := Z.of_nat (length timestamps) in
  let csize := Z.of_nat (length cumulativeDifficulties) in
  if (size <=? 1) || (csize <=? 1) then floorDiff
  else
    let T := difficultyTarget c in
    let available := Z.min size csize in
    let N := Z.min (difficultyBlocksCount4 c) (available - 1) in
    if N =? 0 then floorDiff
    else
      let first := nth 0 timestamps 0 in
      let L := lwma_loop T 1 (w64 (first - T)) 0 (firstn (Z.to_nat N) (tl timestamps)) in
      let least := w64 (w64 (N * N) * T) / 20 in
      let L := if L <? least then least else L in
      if L =? 0 then floorDiff
      else
        let avg_D := w64 (nth (Z.to_nat N) cumulativeDifficulties 0 - nth 0 cumulativeDifficulties 0) / N in
        if avg_D =? 0 then floorDiff
        else
          let next_D :=
            if w64 (2000000 * N * N * T) <? avg_D
            then w64 (avg_D / w64 (200 * L) * w64 (N * (N + 1) * T * 99))
            else w64 (avg_D * N * (N + 1) * T * 99) / w64 (200 * L) in
          Z.max floorDiff (round_digits next_D).

End Emission.

(** ** The size penalty *)

(** The mathematical penalty: quadratic beyond the median. *)
Definition penalized (amount m size : Z) : Z :=
  if size <=? m then amount else amount * ((2 * m - size) * size) / m / m.

Lemma penalty_square m size : m <= size <= 2 * m -> 0 <= (2 * m - size) * size <= m * m.
Proof.
  intros. split; [apply Z.mul_nonneg_nonneg; lia|].
  enough (0 <= (size - m) * (size - m)) by lia. apply Z.square_nonneg.
Qed.

Lemma div_twice_le amount p m : 0 < m -> 0 <= amount -> 0 <= p <= m * m ->
  0 <= amount * p / m / m <= amount.
Proof.
  intros. rewrite Z.div_div by lia. split.
  - apply Z.div_pos; [apply Z.mul_nonneg_nonneg; lia | nia].
  - apply Z.div_le_upper_bound; [nia|]. rewrite (Z.mul_comm (m * m)). apply Z.mul_le_mono_nonneg_l; lia.
Qed.

Lemma penalized_range amount m size : 0 < m -> 0 <= amount -> size <= 2 * m ->
  0 <= penalized amount m size <= amount.
Proof.
  intros. unfold penalized. destruct (Z.leb_spec size m); [lia|].
  apply div_twice_le; [lia|lia|]. apply penalty_square. lia.
Qed.

(** A larger block never earns more. *)
Lemma penalized_antitone amount m s1 s2 : 0 < m -> 0 <= amount -> s1 <= s2 <= 2 * m ->
  penalized amount m s2 <= penalized amount m s1.
Proof.
  intros. destruct (Z.leb_spec s1 m) as [Hle|Hgt].
  - pose proof (penalized_range amount m s2). unfold penalized at 2. rewrite (proj2 (Z.leb_le _ _) Hle). lia.
  - unfold penalized. replace (s2 <=? m) with false by lia. replace (s1 <=? m) with false by lia.
    rewrite !Z.div_div by lia. apply Z.div_le_mono; [nia|]. apply Z.mul_le_mono_nonneg_l; [lia|].
    enough (0 <= (s2 - s1) * (s1 + s2 - 2 * m)) by lia. apply Z.mul_nonneg_nonneg; lia.
Qed.

Lemma getPenalizedAmount_spec amount m size :
  in_w 64 amount -> 0 < m < 2 ^ 32 -> 0 <= size <= 2 * m ->
  getPenalizedAmount amount m size = penalized amount m size.
Proof.
  intros Ha Hm Hs. unfold getPenalizedAmount, penalized.
  destruct (Z.eqb_spec amount 0) as [->|Hz].
  { rewrite Z.mul_0_l, !Z.div_0_l by lia. now destruct (size <=? m). }
  destruct (Z.leb_spec size m) as [|Hgt]; [reflexivity|].
  pose proof (penalty_square m size ltac:(lia)) as Hp. assert (m * m < 2 ^ 64) by nia.
  rewrite (wrap_small 64 (2 * m)), (wrap_small 64 (2 * m - size)), (wrap_small 64 (_ * size)),
    (wrap_small 32 m) by (unfold in_w; lia).
  remember ((2 * m - size) * size) as p eqn:Ep.
  assert (Hwp : in_w 64 p) by (unfold in_w; lia).
  pose proof (mul128_exact amount p Ha Hwp) as M. destruct (mul128 amount p) as [lo hi].
  destruct M as (M & Hlo & Hhi). rewrite div128_32_spec by assumption. rewrite <- M.
  assert (HQ : 0 <= amount * p / m < 2 ^ 64 * 2 ^ 64).
  { unfold in_w in *. pose proof (mul_bound _ _ _ _ Ha Hwp). split; [apply Z.div_pos; lia|].
    apply Z.div_lt_upper_bound; [lia|]. nia. }
  remember (amount * p / m) as Q eqn:EQ.
  assert (HQ2 : in_w 64 (Q / 2 ^ 64) /\ in_w 64 (Q mod 2 ^ 64)) by (unfold in_w; dmlia).
  destruct HQ2 as [HQh HQl]. rewrite div128_32_spec by assumption.
  replace (Q / 2 ^ 64 * 2 ^ 64 + Q mod 2 ^ 64) with Q by dmlia.
  apply Z.mod_small. subst Q. pose proof (div_twice_le amount p m). unfold in_w in Ha. lia.
Qed.

(** ** Emission *)

Definition mainnet : Currency := CurrencyBuilder false.

Definition blocks_per_year : Z := 350400.

Lemma calculateReward_spec net a : in_w 64 a ->
  calculateReward (CurrencyBuilder net) a =
    Z.max (Z.max 0 (2100000000 - a) / 2 ^ 18) (a / 100 * 2 / blocks_per_year).
Proof.
  unfold in_w, calculateReward, blocks_per_year. intros Ha.
  cbn [CurrencyBuilder moneySupply emissionSpeedFactor expectedNumberOfBlocksPerDay].
  unfold parameters.EMISSION_CURVE_TARGET, parameters.EMISSION_SPEED_FACTOR, parameters.TAIL_EMISSION_REWARD.
  change (w64 (parameters.EXPECTED_NUMBER_OF_BLOCKS_PER_DAY * 365)) with 350400.
  rewrite (wrap_small 64 (a / 100 * 2)) by (unfold in_w; dmlia).
  rewrite Z.shiftr_div_pow2 by lia. destruct (Z.ltb_spec a 2100000000).
  - replace (Z.max 0 (2100000000 - a)) with (2100000000 - a) by lia. reflexivity.
  - replace (Z.max 0 (2100000000 - a)) with 0 by lia. assert (119 <= a / 100 * 2 / 350400) by dmlia.
    rewrite !Z.max_r by (rewrite ?Z.div_0_l; lia). reflexivity.
Qed.

Lemma calculateReward_range net a : in_w 64 a ->
  118 <= calculateReward (CurrencyBuilder net) a <= Z.max 8010 (a / 17520000).
Proof.
  intros Ha. rewrite calculateReward_spec by assumption. unfold in_w, blocks_per_year in *.
  change (2 ^ 18) with 262144. dmlia.
Qed.

Lemma getBlockReward_spec net v median size a fee :
  in_w 64 a -> 0 <= fee < 2 ^ 63 - 2 ^ 40 -> 0 <= median < 2 ^ 32 -> in_w 64 size ->
  let m := Z.max median 1000000 in
  let base := calculateReward (CurrencyBuilder net) a in
  getBlockReward (CurrencyBuilder net) v median size a fee =
    if 2 * m <? size then None
    else Some (penalized base m size + penalized fee m size, penalized base m size + penalized fee m size - fee).
Proof.
  intros Ha Hf Hm Hs m base. unfold getBlockReward. fold base.
  cbn [blockGrantedFullRewardZoneByBlockVersion blockGrantedFullRewardZone CurrencyBuilder cryptonoteCoinVersion].
  change parameters.CRYPTONOTE_BLOCK_GRANTED_FULL_REWARD_ZONE with 1000000. fold m.
  change (parameters.CRYPTONOTE_COIN_VERSION =? 1) with true. cbn iota.
  rewrite (wrap_small 64 (2 * m)) by (unfold in_w; lia).
  destruct (Z.ltb_spec (2 * m) size); [reflexivity|].
  pose proof (calculateReward_range net a Ha) as Hb. fold base in Hb. unfold in_w in *.
  assert (base < 2 ^ 40) by dmlia.
  rewrite !getPenalizedAmount_spec by (unfold in_w; lia).
  pose proof (penalized_range base m size ltac:(lia) ltac:(lia) ltac:(lia)).
  pose proof (penalized_range fee m size ltac:(lia) ltac:(lia) ltac:(lia)).
  rewrite wrap_small by (unfold in_w; lia). rewrite s64_small by lia. do 2 f_equal. lia.
Qed.

(** ** Difficulty *)

(** The weighted solve times without machine arithmetic: every solve time
    counts at least 1 and at most six targets. *)
Fixpoint lwma_sum (T i previous : Z) (timestamps : list Z) : Z :=
  match timestamps with
  | [] => 0
  | t :: timestamps =>
      let this := if previous <? t then t else previous + 1 in
      i * Z.min (6 * T) (this - previous) + lwma_sum T (i + 1) this timestamps
  end.

(** The sum of the weights [i .. i + n - 1]. *)
Fixpoint weights (i : Z) (n : nat) : Z :=
  match n with O => 0 | S n => i + weights (i + 1) n end.

Lemma weights_double n : forall i, 2 * weights i n = Z.of_nat n * (2 * i + Z.of_nat n - 1).
Proof. induction n as [|n IH]; intros i; cbn [weights]; [reflexivity|]. rewrite Z.mul_add_distr_l, IH. lia. Qed.

Lemma weights_nonneg i n : 0 <= i -> 0 <= weights i n.
Proof. revert i. induction n as [|n IH]; intros; cbn [weights]; [lia|]. specialize (IH (i + 1)). lia. Qed.

Lemma lwma_sum_bounds T ts : 0 < T -> forall i prev, 0 <= i ->
  weights i (length ts) <= lwma_sum T i prev ts <= 6 * T * weights i (length ts).
Proof.
  intros HT. induction ts as [|t ts IH]; intros i prev Hi; cbn [lwma_sum weights length]; [lia|].
  specialize (IH (i + 1) (if prev <? t then t else prev + 1) ltac:(lia)).
  set (d := Z.min (6 * T) ((if prev <? t then t else prev + 1) - prev)).
  assert (1 <= d <= 6 * T) by (subst d; destruct (Z.ltb_spec prev t); lia).
  assert (i * 1 <= i * d <= i * (6 * T)) by (split; apply Z.mul_le_mono_nonneg_l; lia). lia.
Qed.

(** Sixty blocks of clock values below [2^63] cannot wrap the sum. *)
Lemma lwma_loop_spec ts : forall i prev L,
  0 <= i -> i + Z.of_nat (length ts) <= 64 -> 0 <= prev < 2 ^ 63 + i ->
  Forall (fun t => 0 <= t < 2 ^ 63) ts -> 0 <= L -> L + 540 * weights i (length ts) < 2 ^ 64 ->
  lwma_loop 90 i prev L ts = L + lwma_sum 90 i prev ts.
Proof.
  induction ts as [|t ts IH]; intros i prev L Hi Hn Hp Hf HL Hb; cbn [lwma_loop lwma_sum]; [lia|].
  inversion_clear Hf as [|? ? Ht Hts]. cbn [length weights] in *.
  rewrite (wrap_small 64 (prev + 1)) by (unfold in_w; lia).
  set (this := if prev <? t then t else prev + 1).
  assert (Hthis : prev < this < 2 ^ 63 + (i + 1)) by (subst this; destruct (Z.ltb_spec prev t); lia).
  rewrite (wrap_small 64 (6 * 90)), (wrap_small 64 (this - prev)) by (unfold in_w; lia).
  set (d := Z.min (6 * 90) (this - prev)).
  assert (1 <= d <= 540) by (subst d; lia). pose proof (mul_bound i d 65 541 ltac:(lia) ltac:(lia)).
  assert (i * d <= i * 540) by (apply Z.mul_le_mono_nonneg_l; lia).
  pose proof (weights_nonneg (i + 1) (length ts) ltac:(lia)).
  rewrite (wrap_small 64 (i * d)) by (unfold in_w; lia). rewrite (wrap_small 64 (L + _)) by (unfold in_w; lia).
  rewrite IH; [lia|lia|lia|lia|assumption|lia|lia].
Qed.

(** Rounding moves a difficulty by at most half a percent, and the ten
    iterations of fuel are all the loop can use. *)
Lemma round_step i d : 1 < i <= 1000000000 -> 0 <= d < 2 ^ 63 -> i * 100 < d ->
  200 * Z.abs (w64 (w64 (d + i / 2) / i * i) - d) <= d.
Proof.
  intros Hi Hd Hgt. assert (0 <= i / 2 <= i) by dmlia.
  rewrite (wrap_small 64 (d + i / 2)) by (unfold in_w; lia).
  pose proof (Z.div_mod (d + i / 2) i ltac:(lia)). pose proof (Z.mod_pos_bound (d + i / 2) i ltac:(lia)).
  assert (0 <= (d + i / 2) / i * i <= d + i / 2) by lia.
  rewrite wrap_small by (unfold in_w; lia). assert (i - 1 <= 2 * (i / 2) <= i) by dmlia. lia.
Qed.

Lemma round_loop_close fuel : forall i d, i <= 1000000000 -> 0 <= d < 2 ^ 63 ->
  200 * Z.abs (round_loop fuel i d - d) <= d.
Proof.
  induction fuel as [|fuel IH]; intros i d Hi Hd; cbn [round_loop]; [lia|].
  destruct (Z.ltb_spec 1 i); [|lia]. rewrite (wrap_small 64) by (unfold in_w; lia).
  destruct (Z.ltb_spec (i * 100) d); [apply round_step; lia|]. apply IH; [dmlia|lia].
Qed.

Lemma round_fuel f d : round_loop (10 + f) 1000000000 d = round_digits d.
Proof. reflexivity. Qed.

Lemma round_digits_close d : 0 <= d < 2 ^ 63 -> 200 * Z.abs (round_digits d - d) <= d.
Proof. intros. apply round_loop_close; lia. Qed.

(** The largest window [nextDifficulty] uses, the average difficulty in it, and
    the weighted solve time after the lower clamp. *)
Definition lwma_N (timestamps : list Z) : Z := Z.min 60 (Z.of_nat (length timestamps) - 1).
Definition lwma_avg (timestamps cds : list Z) : Z :=
  (nth (Z.to_nat (lwma_N timestamps)) cds 0 - nth 0 cds 0) / lwma_N timestamps.
Definition lwma_L (timestamps : list Z) : Z :=
  let N := lwma_N timestamps in
  Z.max (lwma_sum 90 1 (nth 0 timestamps 0 - 90) (firstn (Z.to_nat N) (tl timestamps))) (N * N * 90 / 20).

(** Histories a chain can have: aligned, clocks below [2^63] and not before the
    first target, cumulative difficulty growing within 64 bits. *)
Record history_ok (timestamps cds : list Z) : Prop := {
  h_size : (2 <= length timestamps)%nat;
  h_aligned : length cds = length timestamps;
  h_clock : Forall (fun t => 0 <= t < 2 ^ 63) timestamps;
  h_first : 90 <= nth 0 timestamps 0;
  h_cd : let N := lwma_N timestamps in
         0 <= nth 0 cds 0 < nth (Z.to_nat N) cds 0 /\ nth (Z.to_nat N) cds 0 < 2 ^ 64;
  h_avg : 0 < lwma_avg timestamps cds
}.

(** The average difficulty does not reach the products' overflow. *)
Definition no_overflow (timestamps cds : list Z) : Prop :=
  let N := lwma_N timestamps in let D := lwma_avg timestamps cds in
  D <= 2000000 * N * N * 90 /\ D * N * (N + 1) * 90 * 99 < 2 ^ 64.

Lemma lwma_N_range ts : (2 <= length ts)%nat -> 1 <= lwma_N ts <= 60.
Proof. unfold lwma_N. lia. Qed.

Lemma length_window ts : (2 <= length ts)%nat ->
  Z.of_nat (length (firstn (Z.to_nat (lwma_N ts)) (tl ts))) = lwma_N ts.
Proof.
  intros H. rewrite length_firstn. destruct ts as [|t ts]; cbn [tl length] in *; [lia|]. unfold lwma_N. cbn [length]. lia.
Qed.

Lemma lwma_L_range ts : (2 <= length ts)%nat ->
  let N := lwma_N ts in
  N * (N + 1) <= 2 * lwma_L ts <= 540 * (N * (N + 1)) /\ N * N * 90 / 20 <= lwma_L ts.
Proof.
  intros H N. pose proof (lwma_N_range ts H) as HN. fold N in HN. unfold lwma_L. fold N.
  pose proof (length_window ts H) as HW. fold N in HW.
  pose proof (lwma_sum_bounds 90 (firstn (Z.to_nat N) (tl ts)) ltac:(lia) 1 (nth 0 ts 0 - 90) ltac:(lia)) as HB.
  pose proof (weights_double (length (firstn (Z.to_nat N) (tl ts))) 1) as HD. rewrite HW in HD.
  assert (N * N * 90 / 20 <= 5 * (N * N)) by (apply Z.div_le_upper_bound; nia).
  assert (0 <= N * N) by nia. split; [|lia]. lia.
Qed.

Lemma nextDifficulty_spec net ts cds : history_ok ts cds -> no_overflow ts cds ->
  let N := lwma_N ts in
  nextDifficulty (CurrencyBuilder net) ts cds =
    Z.max (floorDiff (CurrencyBuilder net))
      (round_digits (lwma_avg ts cds * N * (N + 1) * 90 * 99 / (200 * lwma_L ts))).
Proof.
  intros [Hn Ha Hc Hf Hcd Hav] [Ho1 Ho2] N. pose proof (lwma_N_range ts Hn) as HN.
  pose proof (lwma_L_range ts Hn) as HL. cbv zeta in HL, Hcd, Ho1, Ho2. unfold nextDifficulty.
  cbn [CurrencyBuilder difficultyTarget difficultyBlocksCount4].
  change parameters.DIFFICULTY_TARGET with 90. change parameters.DIFFICULTY_WINDOW with 60.
  rewrite Ha, Z.min_id. fold (lwma_N ts).
  replace (Z.of_nat (length ts) <=? 1) with false by lia. cbn [orb].
  fold N in HN, HL, Ho1, Ho2, Hcd |- *. replace (N =? 0) with false by lia.
  rewrite (wrap_small 64 (nth 0 ts 0 - 90)) by
    (unfold in_w; destruct Hc; cbn in *; lia).
  assert (HNN : 1 <= N * N <= 3600) by nia.
  rewrite (wrap_small 64 (N * N)), (wrap_small 64 (N * N * 90)) by (unfold in_w; lia).
  rewrite lwma_loop_spec; [|lia| | | | |].
  2: { pose proof (length_window ts Hn) as HW. fold N in HW. lia. }
  2: { destruct Hc; cbn in *; lia. }
  2: { apply Forall_take. destruct Hc; [constructor|assumption]. }
  2: lia.
  2: { pose proof (weights_double (length (firstn (Z.to_nat N) (tl ts))) 1) as HD.
       pose proof (length_window ts Hn) as HW. fold N in HW. rewrite HW in HD. nia. }
  rewrite Z.add_0_l. fold N.
  replace (if _ <? N * N * 90 / 20 then N * N * 90 / 20 else _) with (lwma_L ts).
  2: { unfold lwma_L. fold N. destruct (Z.ltb_spec
         (lwma_sum 90 1 (nth 0 ts 0 - 90) (firstn (Z.to_nat N) (tl ts))) (N * N * 90 / 20)); lia. }
  assert (HLr : 1 <= lwma_L ts <= 988200) by nia.
  replace (lwma_L ts =? 0) with false by lia.
  rewrite (wrap_small 64 (nth (Z.to_nat N) cds 0 - nth 0 cds 0)) by (unfold in_w; lia).
  fold N. change ((nth (Z.to_nat N) cds 0 - nth 0 cds 0) / N) with (lwma_avg ts cds).
  replace (lwma_avg ts cds =? 0) with false by lia.
  rewrite (wrap_small 64 (2000000 * N * N * 90)) by (unfold in_w; lia).
  replace (2000000 * N * N * 90 <? lwma_avg ts cds) with false by lia.
  rewrite (wrap_small 64 (200 * lwma_L ts)) by (unfold in_w; lia).
  rewrite (wrap_small 64) by (unfold in_w; nia). reflexivity.
Qed.

(** The unrounded value is within fixed factors of the average. *)
Lemma lwma_factor ts cds : (2 <= length ts)%nat -> 0 < lwma_avg ts cds ->
  let N := lwma_N ts in let D := lwma_avg ts cds in
  let next := D * N * (N + 1) * 90 * 99 / (200 * lwma_L ts) in
  33 * D - 200 < 200 * next /\ next <= 23 * D.
Proof.
  intros Hn HD N D next. pose proof (lwma_N_range ts Hn) as HN. fold N in HN. fold D in HD.
  destruct (lwma_L_range ts Hn) as [HL1 HL2]. fold N in HL1, HL2.
  remember (lwma_L ts) as L. remember (N * (N + 1)) as P.
  assert (HP : 2 <= P) by nia.
  assert (Hnum : D * N * (N + 1) * 90 * 99 = D * P * 8910) by (subst P; ring).
  assert (HL : 0 < L) by lia. subst next. rewrite Hnum. split.
  - enough ((33 * D - 199) <= 200 * (D * P * 8910 / (200 * L))) by lia.
    assert (HQ : D * P * 8910 < 200 * L * (D * P * 8910 / (200 * L)) + 200 * L)
      by (pose proof (Z.div_mod (D * P * 8910) (200 * L) ltac:(lia));
          pose proof (Z.mod_pos_bound (D * P * 8910) (200 * L) ltac:(lia)); lia).
    remember (D * P * 8910 / (200 * L)) as q.
    assert (HDL : 33 * D * L <= D * P * 8910) by nia. nia.
  - apply Z.div_le_upper_bound; [lia|].
    assert (HLP : P * 8910 <= 200 * L * 23).
    { assert (4 * (N * N) <= N * N * 90 / 20) by (apply Z.div_le_lower_bound; nia). subst P. nia. }
    nia.
Qed.

Lemma nextDifficulty_ge_floor net ts cds :
  floorDiff (CurrencyBuilder net) <= nextDifficulty (CurrencyBuilder net) ts cds.
Proof.
  unfold nextDifficulty. cbv zeta.
  repeat match goal with
  | |- _ <= (if ?b then _ else _) => destruct b; [apply Z.le_refl|]
  end. apply Z.le_max_l.
Qed.

(** ** Properties *)



(** C30: The emission curve: for every 64-bit supply the base reward is the larger
    of the decaying term (zero once the curve target is reached) and the yearly
    2% tail, so [TAIL_EMISSION_REWARD] never decides it; it is at least 118 atoms
    for ever, and at most the larger of the genesis reward 8010 and 2% a year. *)
Theorem emission_curve net a : in_w 64 a ->
  let r := calculateReward (CurrencyBuilder net) a in
  r = Z.max (Z.max 0 (parameters.EMISSION_CURVE_TARGET - a) / 2 ^ parameters.EMISSION_SPEED_FACTOR)
            (a / 100 * 2 / (365 * parameters.EXPECTED_NUMBER_OF_BLOCKS_PER_DAY)) /\
  118 <= r <= Z.max 8010 (a / 17520000).
Proof.
  intros Ha r. split; [exact (calculateReward_spec net a Ha) | exact (calculateReward_range net a Ha)].
Qed.

Lemma emission_curve_witness :
  let r := calculateReward mainnet 2069100000 in 118 <= r <= Z.max 8010 (2069100000 / 17520000).
Proof. apply (emission_curve false 2069100000). easy. Defined.

(** Outside the overflow range the difficulty is the mathematical LWMA value:
    [N(N+1)T * 0.99 / 2] times the average difficulty over the weighted, clamped
    solve times, rounded to significant digits and floored. *)
Theorem next_difficulty_exact net ts cds : history_ok ts cds -> no_overflow ts cds ->
  let N := lwma_N ts in
  nextDifficulty (CurrencyBuilder net) ts cds =
    Z.max (floorDiff (CurrencyBuilder net))
      (round_digits (lwma_avg ts cds * N * (N + 1) * 90 * 99 / (200 * lwma_L ts))).
Proof. exact (nextDifficulty_spec net ts cds). Qed.

(** A steady chain: one block per target at a constant difficulty. *)
Definition steady_times : list Z := map (fun k => 1600000000 + 90 * Z.of_nat k) (seq 0 61).
Definition steady_difficulty (d : Z) : list Z := map (fun k => d * Z.of_nat (S k)) (seq 0 61).

Lemma steady_history : history_ok steady_times (steady_difficulty 1000000) /\
  no_overflow steady_times (steady_difficulty 1000000).
Proof.
  split; [|vm_compute; split; congruence].
  constructor; [vm_compute; lia | reflexivity | | vm_compute; congruence |
    vm_compute; repeat split; congruence | reflexivity].
  unfold steady_times. apply Forall_map, Forall_forall. intros k Hk. apply in_seq in Hk. lia.
Qed.

Lemma next_difficulty_exact_witness :
  nextDifficulty mainnet steady_times (steady_difficulty 1000000) = 989000.
Proof.
  etransitivity;
    [exact (next_difficulty_exact false steady_times (steady_difficulty 1000000)
              (proj1 steady_history) (proj2 steady_history))
    |vm_compute; reflexivity].
Defined.

(** The difficulty responds boundedly: it never falls below the floor, on any
    input at all, and outside the overflow range it stays between 0.16 and 24
    times the average difficulty of the window, whatever the timestamps claim. *)
Theorem next_difficulty_bounded net ts cds :
  floorDiff (CurrencyBuilder net) <= nextDifficulty (CurrencyBuilder net) ts cds /\
  (history_ok ts cds -> no_overflow ts cds ->
   let D := lwma_avg ts cds in
   nextDifficulty (CurrencyBuilder net) ts cds = floorDiff (CurrencyBuilder net) \/
   (16 * D - 100 <= 100 * nextDifficulty (CurrencyBuilder net) ts cds /\
    nextDifficulty (CurrencyBuilder net) ts cds <= 24 * D)).
Proof.
  split; [apply nextDifficulty_ge_floor|]. intros Hh Ho D. rewrite nextDifficulty_spec by assumption.
  destruct Hh as [Hn _ _ _ _ Hav]. destruct (lwma_factor ts cds Hn Hav) as [F1 F2].
  cbv zeta in F1, F2. fold D in F1, F2, Hav |- *.
  remember (D * lwma_N ts * (lwma_N ts + 1) * 90 * 99 / (200 * lwma_L ts)) as x eqn:Ex.
  assert (HD : D <= 648000000000).
  { destruct Ho as [Ho _]. fold D in Ho. pose proof (lwma_N_range ts Hn). nia. }
  assert (Hx : 0 <= x) by lia.
  pose proof (round_digits_close x ltac:(lia)).
  destruct (Z.max_spec (floorDiff (CurrencyBuilder net)) (round_digits x)) as [[_ ->]|[_ ->]]; [right; lia|auto].
Qed.

Lemma next_difficulty_bounded_witness :
  let D := lwma_avg steady_times (steady_difficulty 1000000) in
  nextDifficulty mainnet steady_times (steady_difficulty 1000000) = floorDiff mainnet \/
  (16 * D - 100 <= 100 * nextDifficulty mainnet steady_times (steady_difficulty 1000000) /\
   nextDifficulty mainnet steady_times (steady_difficulty 1000000) <= 24 * D).
Proof.
  exact (proj2 (next_difficulty_bounded false steady_times (steady_difficulty 1000000))
           (proj1 steady_history) (proj2 steady_history)).
Defined.


(** The cumulative block size limit grows with height without wrapping for
    every height the chain allows: it starts at the initial size, never shrinks,
    and is the exact linear function. *)
Theorem max_block_size_linear net h1 h2 :
  0 <= h1 <= h2 -> h2 <= parameters.CRYPTONOTE_MAX_BLOCK_NUMBER ->
  maxBlockCumulativeSize (CurrencyBuilder net) h2 = 1000000 + h2 * 524288 / 350400 /\
  1000000 <= maxBlockCumulativeSize (CurrencyBuilder net) h1 <= maxBlockCumulativeSize (CurrencyBuilder net) h2.
Proof.
  unfold parameters.CRYPTONOTE_MAX_BLOCK_NUMBER. intros H1 H2.
  assert (E : forall h, 0 <= h <= 500000000 ->
            maxBlockCumulativeSize (CurrencyBuilder net) h = 1000000 + h * 524288 / 350400).
  { intros h Hh. unfold maxBlockCumulativeSize. cbn [CurrencyBuilder maxBlockSizeInitial
      maxBlockSizeGrowthSpeedNumerator maxBlockSizeGrowthSpeedDenominator].
    change parameters.MAX_BLOCK_SIZE_INITIAL with 1000000.
    change parameters.MAX_BLOCK_SIZE_GROWTH_SPEED_NUMERATOR with 524288.
    change parameters.MAX_BLOCK_SIZE_GROWTH_SPEED_DENOMINATOR with 350400.
    rewrite (wrap_small 64 (h * 524288)) by (unfold in_w; lia). rewrite wrap_small by (unfold in_w; dmlia). reflexivity. }
  rewrite !E by lia. split; [reflexivity|]. dmlia.
Qed.

Lemma max_block_size_linear_witness :
  maxBlockCumulativeSize mainnet 350400 = 1524288 /\
  1000000 <= maxBlockCumulativeSize mainnet 0 <= maxBlockCumulativeSize mainnet 350400.
Proof. apply (max_block_size_linear false 0 350400); [lia|vm_compute; congruence]. Defined.
