(* ===== verification/Extra.v ===== *)
(** * The transaction [extra] field

    [CryptoNoteCore/TransactionExtra.cpp] and [.h]: the tag grammar, its parser
    and writer, and the accessors the consensus code uses (payment id, PQ account
    registration, proof-of-work tag, coinbase spend key), with the merge-mining
    tag's serializer from [CryptoNoteSerialization.cpp]. *)

From Stdlib Require Import ZArith String List Lia Bool.
From coqutil Require Import Byte Word.LittleEndianList.
From S2P Require Import Prelude Config Varint Wire Transaction.
Import ListNotations.
Open Scope Z_scope.
Open Scope discrete_scope.
Import BinarySerializer Serialization.

Module TransactionExtra.

Definition TX_EXTRA_PADDING_MAX_COUNT : Z := 255.
Definition TX_EXTRA_NONCE_MAX_COUNT : Z := 255.
Definition TX_EXTRA_TAG_PADDING : Z := 0x00.
Definition TX_EXTRA_TAG_PUBKEY : Z := 0x01.
Definition TX_EXTRA_NONCE : Z := 0x02.
Definition TX_EXTRA_MERGE_MINING_TAG : Z := 0x03.
Definition TX_EXTRA_TAG_ACCOUNT_REGISTRATION : Z := 0x04.
Definition TX_EXTRA_TAG_PQ_ACCOUNT_REGISTRATION : Z := 0x05.
Definition TX_EXTRA_TAG_POW : Z := 0x06.
Definition TX_EXTRA_TAG_PQ_MINER_SPEND_PUB : Z := 0x07.
Definition TX_EXTRA_NONCE_PAYMENT_ID : Z := 0x00.
Definition TX_EXTRA_PQ_VIEW_PUBKEY_SIZE : Z := 1184.
Definition TX_EXTRA_PQ_SPEND_PUBKEY_SIZE : Z := 1952.

Inductive TransactionExtraField :=
| Padding (size : Z)
| PublicKey (publicKey : bytes)
| Nonce (nonce : bytes)
| MergeMiningTag (depth : Z) (merkleRoot : bytes)
| AccountRegistration (spendPublicKey viewPublicKey : bytes)
| PqAccountRegistration (viewPub spendPub : bytes)
| Pow (refBlockHash : bytes) (nonce : Z)
| PqMinerSpendPub (spendPub : bytes).

(** ** Reading *)

(** The padding loop: counts zeros until the end of the stream or past the
    maximum; [None] is [return false]. *)
Fixpoint padding_loop (size : Z) (s : stream) : option (Z * stream) :=
  match s with
  | [] => Some (size, [])
  | b :: s' =>
      if size <=? TX_EXTRA_PADDING_MAX_COUNT then
        if u8 b =? 0 then padding_loop (size + 1) s' else None
      else Some (size, s)
  end.

(** [serialize(TransactionExtraMergeMiningTag&)] on input: a string holding the
    depth and the root; what follows them in the string is ignored. *)
Definition in_mm_tag : reader TransactionExtraField := fun s =>
  let* (field, s) := c_read string_ s in
  let* (depth, t) := c_read (uint 64) field in
  let* (merkleRoot, t) := c_read hash t in
  Ok (MergeMiningTag depth merkleRoot, s).

(** One turn of the parser's loop after its tag byte: an exception or a
    [return false] gives [None]; an unknown tag adds no field. *)
Definition lift {A} (r : result exn (A * stream)) (k : A -> TransactionExtraField)
  : option (list TransactionExtraField * stream) :=
  match r with Ok (a, s) => Some ([k a], s) | Err _ => None end.

Definition parse_field (c : Z) (s : stream) : option (list TransactionExtraField * stream) :=
  if c =? TX_EXTRA_TAG_PADDING then
    match padding_loop 1 s with
    | Some (size, s) =>
        if TX_EXTRA_PADDING_MAX_COUNT <? size then None else Some ([Padding size], s)
    | None => None
    end
  else if c =? TX_EXTRA_TAG_PUBKEY then lift (c_read hash s) PublicKey
  else if c =? TX_EXTRA_NONCE then
    lift (let* (size, s) := StreamTools.read_u8 s in
          if 0 <? u8 size then StreamTools.read (u8 size) s else Ok ([], s)) Nonce
  else if c =? TX_EXTRA_MERGE_MINING_TAG then lift (in_mm_tag s) (fun f => f)
  else if c =? TX_EXTRA_TAG_ACCOUNT_REGISTRATION then
    lift (let* (spend, s) := c_read hash s in
          let* (view, s) := c_read hash s in
          Ok (AccountRegistration spend view, s)) (fun f => f)
  else if c =? TX_EXTRA_TAG_PQ_ACCOUNT_REGISTRATION then
    lift (let* (view, s) := StreamTools.read TX_EXTRA_PQ_VIEW_PUBKEY_SIZE s in
          let* (spend, s) := StreamTools.read TX_EXTRA_PQ_SPEND_PUBKEY_SIZE s in
          Ok (PqAccountRegistration view spend, s)) (fun f => f)
  else if c =? TX_EXTRA_TAG_POW then
    lift (let* (ref, s) := c_read hash s in
          let* (le, s) := StreamTools.read 8 s in
          Ok (Pow ref (le_combine le), s)) (fun f => f)
  else if c =? TX_EXTRA_TAG_PQ_MINER_SPEND_PUB then
    lift (StreamTools.read TX_EXTRA_PQ_SPEND_PUBKEY_SIZE s) PqMinerSpendPub
  else Some ([], s).

(** The loop; the fields parsed before a failure stay in the output vector.
    Every turn consumes its tag byte, so the length bounds the turns. *)
Fixpoint parse_loop (fuel : nat) (s : stream) (fields : list TransactionExtraField)
  : bool * list TransactionExtraField :=
  match s with
  | [] => (true, fields)
  | c :: s =>
      match fuel with
      | O => (false, fields)
      | S fuel =>
          match parse_field (u8 c) s with
          | None => (false, fields)
          | Some (f, s) => parse_loop fuel s (fields ++ f)
          end
      end
  end.

Definition parseTransactionExtra (tx_extra : bytes) : bool * list TransactionExtraField :=
  parse_loop (length tx_extra) tx_extra [].

(** ** Writing *)

Definition addTransactionPublicKeyToExtra (tx_extra key : bytes) : bytes :=
  tx_extra ++ [b8 TX_EXTRA_TAG_PUBKEY] ++ key.

Definition addExtraNonceToTransactionExtra (tx_extra extra_nonce : bytes) : option bytes :=
  if TX_EXTRA_NONCE_MAX_COUNT <? len extra_nonce then None
  else Some (tx_extra ++ [b8 TX_EXTRA_NONCE; b8 (len extra_nonce)] ++ extra_nonce).

Definition out_mm_tag (depth : Z) (merkleRoot : bytes) : option bytes :=
  match (let* a := c_write (uint 64) depth in
         let* b := c_write hash merkleRoot in
         c_write string_ (a ++ b)) with
  | Ok blob => Some blob
  | Err _ => None
  end.
Definition appendMergeMiningTagToExtra (tx_extra : bytes) (depth : Z) (merkleRoot : bytes) : option bytes :=
  match out_mm_tag depth merkleRoot with
  | Some blob => Some (tx_extra ++ [b8 TX_EXTRA_MERGE_MINING_TAG] ++ blob)
  | None => None
  end.

Definition addAccountRegistrationToExtra (tx_extra spendKey viewKey : bytes) : bytes :=
  tx_extra ++ [b8 TX_EXTRA_TAG_ACCOUNT_REGISTRATION] ++ spendKey ++ viewKey.
Definition addPqAccountRegistrationToExtra (tx_extra viewPub spendPub : bytes) : bytes :=
  tx_extra ++ [b8 TX_EXTRA_TAG_PQ_ACCOUNT_REGISTRATION] ++ viewPub ++ spendPub.
Definition appendPowTagToExtra (tx_extra refBlockHash : bytes) (nonce : Z) : bytes :=
  tx_extra ++ [b8 TX_EXTRA_TAG_POW] ++ refBlockHash ++ le_split 8 nonce.
Definition addPqMinerSpendPubToExtra (tx_extra spendPub : bytes) : bytes :=
  tx_extra ++ [b8 TX_EXTRA_TAG_PQ_MINER_SPEND_PUB] ++ spendPub.

(** [ExtraSerializerVisitor] *)
Definition write_field (extra : bytes) (f : TransactionExtraField) : option bytes :=
  match f with
  | Padding size =>
      if TX_EXTRA_PADDING_MAX_COUNT <? size then None
      else Some (extra ++ repeat (b8 0) (Z.to_nat size))
  | PublicKey k => Some (addTransactionPublicKeyToExtra extra k)
  | Nonce n => addExtraNonceToTransactionExtra extra n
  | MergeMiningTag d r => appendMergeMiningTagToExtra extra d r
  | AccountRegistration s v => Some (addAccountRegistrationToExtra extra s v)
  | PqAccountRegistration v s => Some (addPqAccountRegistrationToExtra extra v s)
  | Pow r n => Some (appendPowTagToExtra extra r n)
  | PqMinerSpendPub s => Some (addPqMinerSpendPubToExtra extra s)
  end.

Fixpoint writeTransactionExtra (tx_extra : bytes) (fields : list TransactionExtraField) : bool * bytes :=
  match fields with
  | [] => (true, tx_extra)
  | f :: fields =>
      match write_field tx_extra f with
      | Some tx_extra => writeTransactionExtra tx_extra fields
      | None => (false, tx_extra)
      end
  end.

(** ** Accessors *)

(** [findTransactionExtraFieldByType<T>]: the first field of the type, the type
    test being the selector [sel]. *)
Fixpoint findTransactionExtraFieldByType {T} (sel : TransactionExtraField -> option T)
  (fields : list TransactionExtraField) : option T :=
  match fields with
  | [] => None
  | f :: fields =>
      match sel f with Some t => Some t | None => findTransactionExtraFieldByType sel fields end
  end.

Definition as_publicKey f := match f with PublicKey k => Some k | _ => None end.
Definition as_nonce f := match f with Nonce n => Some n | _ => None end.
Definition as_mmTag f := match f with MergeMiningTag d r => Some (d, r) | _ => None end.
Definition as_registration f := match f with AccountRegistration s v => Some (s, v) | _ => None end.
Definition as_pqRegistration f := match f with PqAccountRegistration v s => Some (v, s) | _ => None end.
Definition as_pow f := match f with Pow r n => Some (r, n) | _ => None end.
Definition as_minerSpendPub f := match f with PqMinerSpendPub s => Some s | _ => None end.

(** The accessors that fail with the parser. *)
Definition get_field {T} (sel : TransactionExtraField -> option T) (tx_extra : bytes) : option T :=
  let (ok, fields) := parseTransactionExtra tx_extra in
  if ok then findTransactionExtraFieldByType sel fields else None.

(** These two look at the fields even when the parser failed. *)
Definition getTransactionPublicKeyFromExtra (tx_extra : bytes) : bytes :=
  let (_, fields) := parseTransactionExtra tx_extra in
  match findTransactionExtraFieldByType as_publicKey fields with
  | Some k => k
  | None => repeat (b8 0) 32
  end.
Definition getMergeMiningTagFromExtra (tx_extra : bytes) : option (Z * bytes) :=
  let (_, fields) := parseTransactionExtra tx_extra in findTransactionExtraFieldByType as_mmTag fields.

Definition setPaymentIdToTransactionExtraNonce (payment_id : bytes) : bytes :=
  b8 TX_EXTRA_NONCE_PAYMENT_ID :: payment_id.
Definition getPaymentIdFromTransactionExtraNonce (extra_nonce : bytes) : option bytes :=
  if negb (32 + 1 =? len extra_nonce) then None
  else match extra_nonce with
       | b :: payment_id => if negb (TX_EXTRA_NONCE_PAYMENT_ID =? u8 b) then None else Some payment_id
       | [] => None
       end.
Definition getPaymentIdFromTxExtra (extra : bytes) : option bytes :=
  match get_field as_nonce extra with
  | Some n => getPaymentIdFromTransactionExtraNonce n
  | None => None
  end.

Definition getAccountRegistrationFromExtra := get_field as_registration.
Definition getPqAccountRegistrationFromExtra := get_field as_pqRegistration.
Definition getPowTagFromExtra := get_field as_pow.
Definition getPqMinerSpendPubFromExtra := get_field as_minerSpendPub.

Definition is_some {T} (o : option T) : bool := match o with Some _ => true | None => false end.

Definition isWellFormedAccountRegistration (tx_extra : bytes) : bool :=
  let (ok, fields) := parseTransactionExtra tx_extra in
  if negb ok then false
  else
    let regCount := length (filter (fun f => is_some (as_registration f)) fields) in
    let hasNonce := existsb (fun f => is_some (as_nonce f)) fields in
    if negb (Nat.eqb regCount 1) then false
    else if hasNonce then false
    else match findTransactionExtraFieldByType as_registration fields with
         | Some (s, v) => negb ((s ==b repeat (b8 0) 32) || (v ==b repeat (b8 0) 32))
         | None => false
         end.

Definition getPqAccountIdentityHash (sha3_256 : bytes -> bytes) (viewPub spendPub : bytes) : bytes :=
  sha3_256 (str "discrete-pq-account-id-v1" ++ viewPub ++ spendPub).

Definition isPowTagLastField (tx_extra : bytes) : bool :=
  let (ok, fields) := parseTransactionExtra tx_extra in
  if negb ok then false
  else match rev fields with
       | [] => false
       | last :: _ =>
           let powCount := length (filter (fun f => is_some (as_pow f)) fields) in
           Nat.eqb powCount 1 && is_some (as_pow last)
       end.

(** [isCanonicalFreeRegExtra] *)
Definition kRegPayload : Z := TX_EXTRA_PQ_VIEW_PUBKEY_SIZE + TX_EXTRA_PQ_SPEND_PUBKEY_SIZE.
Definition kPowPayload : Z := 32 + 8.
Definition kExpected : Z := 1 + kRegPayload + 1 + kPowPayload.
Definition byte_at (s : bytes) (i : Z) : Z := u8 (nth (Z.to_nat i) s (b8 0)).
Definition isCanonicalFreeRegExtra (tx_extra : bytes) : bool :=
  if negb (len tx_extra =? kExpected) then false
  else if negb (byte_at tx_extra 0 =? TX_EXTRA_TAG_PQ_ACCOUNT_REGISTRATION) then false
  else if negb (byte_at tx_extra (1 + kRegPayload) =? TX_EXTRA_TAG_POW) then false
  else true.

End TransactionExtra.
Import TransactionExtra.

(** ** The parser reads back what the writer wrote *)

(** Fields the writer can write and the parser read back; padding is left to
    the end of the list because the parser takes everything after it as padding. *)
Definition wf_field (f : TransactionExtraField) : Prop :=
  match f with
  | Padding _ => False
  | PublicKey k => len k = 32
  | Nonce n => len n <= TX_EXTRA_NONCE_MAX_COUNT
  | MergeMiningTag d r => in_w 64 d /\ len r = 32
  | AccountRegistration s v => len s = 32 /\ len v = 32
  | PqAccountRegistration v s =>
      len v = TX_EXTRA_PQ_VIEW_PUBKEY_SIZE /\ len s = TX_EXTRA_PQ_SPEND_PUBKEY_SIZE
  | Pow r n => len r = 32 /\ in_w 64 n
  | PqMinerSpendPub s => len s = TX_EXTRA_PQ_SPEND_PUBKEY_SIZE
  end.

Lemma read_app n d r : 0 <= n -> len d = n -> StreamTools.read n (d ++ r) = Ok (d, r).
Proof. intros. apply read_ok_iff; auto. Qed.

Lemma hash_read_app h r : len h = 32 -> c_read hash (h ++ r) = Ok (h, r).
Proof. intros. apply (codec_read_app hash h h r); [assumption|reflexivity]. Qed.

Lemma read_u8_cons b s : StreamTools.read_u8 (b :: s) = Ok (b, s).
Proof. apply read_u8_iff. reflexivity. Qed.

Lemma mm_tag_roundtrip d root blob r : in_w 64 d -> len root = 32 ->
  out_mm_tag d root = Some blob -> in_mm_tag (blob ++ r) = Ok (MergeMiningTag d root, r).
Proof.
  intros Hd Hr. unfold out_mm_tag, in_mm_tag.
  destruct (codec_total (c := uint 64) d Hd) as [a Ha]. rewrite Ha. cbn [bind].
  change (c_write hash root) with (@Ok exn bytes root). cbn [bind].
  assert (Hs : c_wf string_ (a ++ root)).
  { cbn. rewrite length_app. assert (length a <= 10)%nat.
    { cbn in Ha. unfold out_uint in Ha. inv_ok. apply writeVarint_length. }
    unfold len in Hr. unfold max_string. lia. }
  destruct (codec_total (c := string_) _ Hs) as [blob' Hb]. rewrite Hb. intros. inv_ok.
  rewrite (codec_read_app string_ _ _ r Hs Hb). cbn [bind].
  rewrite (codec_read_app (uint 64) d a root Hd Ha). cbn [bind].
  rewrite <- (app_nil_r root) at 1. rewrite hash_read_app by assumption. reflexivity.
Qed.

(** One written field is one parsed field, and the rest of the stream is left. *)
Definition field_ok (f : TransactionExtraField) : Prop :=
  exists c payload,
    (forall extra, write_field extra f = Some (extra ++ c :: payload)) /\
    (forall r, parse_field (u8 c) (payload ++ r) = Some ([f], r)).

Lemma nonce_ok n : len n <= TX_EXTRA_NONCE_MAX_COUNT -> field_ok (Nonce n).
Proof.
  unfold TX_EXTRA_NONCE_MAX_COUNT, len. intros Hl. exists (b8 TX_EXTRA_NONCE), (b8 (len n) :: n). unfold len. split.
  - intros. cbn [write_field]. unfold addExtraNonceToTransactionExtra, TX_EXTRA_NONCE_MAX_COUNT, len.
    replace (255 <? Z.of_nat (length n)) with false by lia. reflexivity.
  - intros. change (parse_field (u8 (b8 TX_EXTRA_NONCE)) ((b8 (Z.of_nat (length n)) :: n) ++ r)) with
      (lift (let* (size, s) := StreamTools.read_u8 (b8 (Z.of_nat (length n)) :: n ++ r) in
             if 0 <? u8 size then StreamTools.read (u8 size) s else Ok ([], s)) Nonce).
    rewrite read_u8_cons. cbn [bind]. rewrite u8_b8 by lia.
    destruct (Z.ltb_spec 0 (Z.of_nat (length n))).
    + rewrite read_app by (unfold len; lia). reflexivity.
    + destruct n; [reflexivity|cbn in *; lia].
Qed.

Lemma registration_ok v s :
  len v = TX_EXTRA_PQ_VIEW_PUBKEY_SIZE -> len s = TX_EXTRA_PQ_SPEND_PUBKEY_SIZE ->
  field_ok (PqAccountRegistration v s).
Proof.
  intros Hv Hs. exists (b8 TX_EXTRA_TAG_PQ_ACCOUNT_REGISTRATION), (v ++ s). split; [reflexivity|]. intros.
  change (parse_field (u8 (b8 TX_EXTRA_TAG_PQ_ACCOUNT_REGISTRATION)) ((v ++ s) ++ r)) with
    (lift (let* (view, s) := StreamTools.read TX_EXTRA_PQ_VIEW_PUBKEY_SIZE ((v ++ s) ++ r) in
           let* (spend, s) := StreamTools.read TX_EXTRA_PQ_SPEND_PUBKEY_SIZE s in
           Ok (PqAccountRegistration view spend, s)) (fun f => f)).
  rewrite <- app_assoc, read_app by easy. cbn [bind]. rewrite read_app by easy. reflexivity.
Qed.

Lemma pow_ok ref n : len ref = 32 -> in_w 64 n -> field_ok (Pow ref n).
Proof.
  intros Hr Hn. exists (b8 TX_EXTRA_TAG_POW), (ref ++ le_split 8 n). split; [reflexivity|]. intros.
  change (parse_field (u8 (b8 TX_EXTRA_TAG_POW)) ((ref ++ le_split 8 n) ++ r)) with
    (lift (let* (ref, s) := c_read hash ((ref ++ le_split 8 n) ++ r) in
           let* (le, s) := StreamTools.read 8 s in
           Ok (Pow ref (le_combine le), s)) (fun f => f)).
  rewrite <- app_assoc, hash_read_app by assumption. cbn [bind].
  rewrite read_app by (unfold len; rewrite ?length_le_split; easy). cbn [bind].
  rewrite le_combine_split. change (Z.of_nat 8 * 8) with 64. rewrite Z.mod_small by exact Hn. reflexivity.
Qed.

Lemma field_roundtrip f : wf_field f -> field_ok f.
Proof.
  destruct f as [n|k|n|d root|s v|v s|ref n|s]; cbn [wf_field]; intros Hw; [destruct Hw|..].
  - exists (b8 TX_EXTRA_TAG_PUBKEY), k. split; [reflexivity|]. intros.
    change (parse_field (u8 (b8 TX_EXTRA_TAG_PUBKEY)) (k ++ r)) with (lift (c_read hash (k ++ r)) PublicKey).
    rewrite hash_read_app by assumption. reflexivity.
  - apply nonce_ok. exact Hw.
  - destruct Hw as [Hd Hr]. destruct (out_mm_tag d root) as [blob|] eqn:E.
    + exists (b8 TX_EXTRA_MERGE_MINING_TAG), blob. split.
      * intros. cbn [write_field]. unfold appendMergeMiningTagToExtra. rewrite E. reflexivity.
      * intros. change (parse_field (u8 (b8 TX_EXTRA_MERGE_MINING_TAG)) (blob ++ r)) with
          (lift (in_mm_tag (blob ++ r)) (fun f => f)).
        rewrite (mm_tag_roundtrip d root blob r Hd Hr E). reflexivity.
    + discriminate E.
  - destruct Hw as [Hs Hv]. exists (b8 TX_EXTRA_TAG_ACCOUNT_REGISTRATION), (s ++ v). split; [reflexivity|]. intros.
    change (parse_field (u8 (b8 TX_EXTRA_TAG_ACCOUNT_REGISTRATION)) ((s ++ v) ++ r)) with
      (lift (let* (spend, s) := c_read hash ((s ++ v) ++ r) in
             let* (view, s) := c_read hash s in
             Ok (AccountRegistration spend view, s)) (fun f => f)).
    rewrite <- app_assoc, hash_read_app by assumption. cbn [bind]. rewrite hash_read_app by assumption. reflexivity.
  - apply registration_ok; apply Hw.
  - apply pow_ok; apply Hw.
  - exists (b8 TX_EXTRA_TAG_PQ_MINER_SPEND_PUB), s. split; [reflexivity|]. intros.
    change (parse_field (u8 (b8 TX_EXTRA_TAG_PQ_MINER_SPEND_PUB)) (s ++ r)) with
      (lift (StreamTools.read TX_EXTRA_PQ_SPEND_PUBKEY_SIZE (s ++ r)) PqMinerSpendPub).
    rewrite read_app by easy. reflexivity.
Qed.

Lemma fields_roundtrip fs : Forall wf_field fs -> exists b,
  (forall extra, writeTransactionExtra extra fs = (true, extra ++ b)) /\
  (length fs <= length b)%nat /\
  forall fuel r acc, parse_loop (length fs + fuel) (b ++ r) acc = parse_loop fuel r (acc ++ fs).
Proof.
  induction 1 as [|f fs Hf _ (b & Hw & Hl & Hp)].
  - exists []. repeat split; [intros; now rewrite app_nil_r | auto | intros; now rewrite app_nil_r].
  - destruct (field_roundtrip f Hf) as (c & payload & Hwf & Hpf). exists ((c :: payload) ++ b). repeat split.
    + intros. cbn [writeTransactionExtra]. rewrite Hwf, Hw, app_assoc. reflexivity.
    + rewrite length_app. cbn [length]. lia.
    + intros. rewrite <- app_assoc. cbn [length Nat.add app parse_loop].
      rewrite Hpf, Hp. rewrite <- app_assoc. reflexivity.
Qed.

Lemma padding_zeros k : forall size, size + Z.of_nat k <= 256 ->
  padding_loop size (repeat (b8 0) k) = Some (size + Z.of_nat k, []).
Proof.
  induction k as [|k IH]; intros size Hs; cbn [repeat padding_loop]; [now rewrite Z.add_0_r|].
  replace (size <=? TX_EXTRA_PADDING_MAX_COUNT) with true by (unfold TX_EXTRA_PADDING_MAX_COUNT; lia).
  rewrite u8_b8 by lia. cbn [Z.eqb]. rewrite IH by lia. f_equal. f_equal. lia.
Qed.

(** Every turn of the parser's loop shortens the stream, so the fuel it is
    given is enough: more never changes the result. *)
Lemma lift_some {A} (r : result exn (A * stream)) k f s : lift r k = Some (f, s) ->
  exists a, r = Ok (a, s) /\ f = [k a].
Proof. destruct r as [[a s']|]; cbn; [|discriminate]. intros. inv_ok. eauto. Qed.

Lemma read_shrinks n s d r : 0 <= n -> StreamTools.read n s = Ok (d, r) -> (length r <= length s)%nat.
Proof. intros Hn H. apply read_ok_iff in H as [-> _]; [|assumption]. rewrite length_app. lia. Qed.

Lemma codec_shrinks {A} (c : codec A) `{!CodecOk c} s a r : c_read c s = Ok (a, r) -> (length r <= length s)%nat.
Proof. intros H. apply codec_exact in H as (_ & b & _ & ->). rewrite length_app. lia. Qed.

Lemma read_u8_shrinks s b r : StreamTools.read_u8 s = Ok (b, r) -> (length r <= length s)%nat.
Proof. intros H. apply read_u8_iff in H as ->. cbn. lia. Qed.

Lemma padding_shrinks s : forall n m r, padding_loop n s = Some (m, r) -> (length r <= length s)%nat.
Proof.
  induction s as [|b s IH]; intros n m r H; cbn [padding_loop] in H; [inv_ok; auto|].
  destruct (n <=? _); [|inv_ok; auto]. destruct (u8 b =? 0); [|discriminate]. apply IH in H. cbn. lia.
Qed.

Lemma parse_field_shrinks c s f r : parse_field c s = Some (f, r) -> (length r <= length s)%nat.
Proof.
  unfold parse_field, in_mm_tag. intros H.
  repeat match type of H with
  | (if ?b then _ else _) = _ => destruct b
  end;
  repeat match type of H with
  | lift _ _ = Some _ => apply lift_some in H as (? & H & _)
  | bind ?x _ = Ok _ => let E := fresh in destruct x as [[? ?]|] eqn:E; cbn [bind] in H; [|discriminate H]
  | (if ?b then _ else _) = _ => destruct b
  end; inv_ok;
  repeat match goal with
  | E : StreamTools.read _ _ = Ok _ |- _ => apply read_shrinks in E; [|try easy; apply byte_range]
  | E : StreamTools.read_u8 _ = Ok _ |- _ => apply read_u8_shrinks in E
  | E : c_read hash _ = Ok _ |- _ => apply (codec_shrinks hash) in E
  | E : c_read string_ _ = Ok _ |- _ => apply (codec_shrinks string_) in E
  end; try lia.
  destruct (padding_loop 1 s) as [[n s']|] eqn:E; [|discriminate].
  destruct (_ <? n); [discriminate|]. inv_ok. apply padding_shrinks in E. exact E.
Qed.

Lemma parse_loop_fuel s : forall fuel acc, (length s <= fuel)%nat ->
  parse_loop fuel s acc = parse_loop (length s) s acc.
Proof.
  enough (H : forall n s fuel acc, (length s <= n)%nat -> (length s <= fuel)%nat ->
            parse_loop fuel s acc = parse_loop (length s) s acc) by (intros; apply (H (length s)); auto).
  clear s. induction n as [|n IH]; intros s fuel acc Hn Hf.
  - destruct s; [|cbn in Hn; lia]. destruct fuel; reflexivity.
  - destruct s as [|c s]; [destruct fuel; reflexivity|]. destruct fuel as [|fuel]; [cbn in Hf; lia|].
    cbn [length parse_loop] in *. destruct (parse_field (u8 c) s) as [[f r]|] eqn:E; [|reflexivity].
    apply parse_field_shrinks in E. rewrite (IH r fuel), (IH r (length s)) by lia. reflexivity.
Qed.

Lemma parse_written fs pad : Forall wf_field fs -> 0 < pad <= 255 \/ pad = 0 ->
  let all := fs ++ (if pad =? 0 then [] else [Padding pad]) in
  exists b, writeTransactionExtra [] all = (true, b) /\ parseTransactionExtra b = (true, all).
Proof.
  intros Hf Hpad all. destruct (fields_roundtrip fs Hf) as (b & Hw & Hl & Hp). subst all.
  assert (Happ : forall l l' e e', writeTransactionExtra e l = (true, e') ->
    writeTransactionExtra e (l ++ l') = writeTransactionExtra e' l').
  { induction l as [|x l IH]; intros l' e e' H; cbn in *; [inv_ok; reflexivity|].
    destruct (write_field e x); [|discriminate]. apply IH. exact H. }
  rewrite (Happ _ _ _ _ (Hw [])). destruct (Z.eqb_spec pad 0) as [->|Hz].
  - exists b. split; [reflexivity|]. unfold parseTransactionExtra. rewrite app_nil_r.
    replace (length b) with (length fs + (length b - length fs))%nat by lia.
    rewrite <- (app_nil_r b) at 2. rewrite Hp. destruct (length b - length fs)%nat; reflexivity.
  - destruct Hpad as [Hpad|]; [|contradiction]. exists (b ++ repeat (b8 0) (Z.to_nat pad)). split.
    { cbn [writeTransactionExtra write_field]. unfold TX_EXTRA_PADDING_MAX_COUNT.
      replace (255 <? pad) with false by lia. reflexivity. }
    unfold parseTransactionExtra. rewrite length_app.
    replace (length b + length (repeat (b8 0) (Z.to_nat pad)))%nat with
      (length fs + S (length b - length fs + length (repeat (b8 0) (Z.to_nat pad)) - 1))%nat
      by (rewrite repeat_length; lia).
    rewrite Hp. replace (Z.to_nat pad) with (S (Z.to_nat (pad - 1))) by lia.
    cbn [repeat parse_loop]. rewrite u8_b8 by lia. unfold parse_field.
    change (0 =? TX_EXTRA_TAG_PADDING) with true. cbn iota. rewrite padding_zeros by lia.
    replace (1 + Z.of_nat (Z.to_nat (pad - 1))) with pad by lia.
    replace (TX_EXTRA_PADDING_MAX_COUNT <? pad) with false by (unfold TX_EXTRA_PADDING_MAX_COUNT; lia).
    match goal with |- parse_loop ?f [] _ = _ => destruct f; reflexivity end.
Qed.

(** ** Sizes of parsed fields *)

(** The sizes the parser gives the fields consensus looks at. *)
Definition typed_field (f : TransactionExtraField) : Prop :=
  match f with
  | PqAccountRegistration _ _ | Pow _ _ | PqMinerSpendPub _ => wf_field f
  | _ => True
  end.

(** Bytes a field takes, its tag included (at least). *)
Definition field_bytes (f : TransactionExtraField) : nat :=
  match f with
  | PqAccountRegistration _ _ => 1 + 1184 + 1952
  | PqMinerSpendPub _ => 1 + 1952
  | _ => 1
  end.
Definition fields_bytes (fs : list TransactionExtraField) : nat := list_sum (map field_bytes fs).

Lemma parse_field_typed c s fs r : parse_field c s = Some (fs, r) ->
  Forall typed_field fs /\ (fields_bytes fs + length r <= S (length s))%nat.
Proof.
  intros H. pose proof (parse_field_shrinks _ _ _ _ H) as Hs. unfold parse_field in H.
  destruct (_ =? TX_EXTRA_TAG_PADDING).
  { destruct (padding_loop 1 s) as [[n s']|]; [|discriminate]. destruct (_ <? n); [discriminate|]. inv_ok.
    split; [repeat constructor|cbn; lia]. }
  destruct (_ =? TX_EXTRA_TAG_PUBKEY); [apply lift_some in H as (k & _ & ->); split; [repeat constructor|cbn; lia]|].
  destruct (_ =? TX_EXTRA_NONCE); [apply lift_some in H as (k & _ & ->); split; [repeat constructor|cbn; lia]|].
  destruct (_ =? TX_EXTRA_MERGE_MINING_TAG).
  { apply lift_some in H as (k & H & ->). unfold in_mm_tag in H.
    repeat match type of H with bind ?x _ = Ok _ => destruct x as [[? ?]|]; cbn [bind] in H; [|discriminate H] end.
    inv_ok. split; [repeat constructor|cbn; lia]. }
  destruct (_ =? TX_EXTRA_TAG_ACCOUNT_REGISTRATION).
  { apply lift_some in H as (k & H & ->).
    repeat match type of H with bind ?x _ = Ok _ => destruct x as [[? ?]|]; cbn [bind] in H; [|discriminate H] end.
    inv_ok. split; [repeat constructor|cbn; lia]. }
  destruct (_ =? TX_EXTRA_TAG_PQ_ACCOUNT_REGISTRATION).
  { apply lift_some in H as (k & H & ->). inv_bind H. destruct a as [v s1]. inv_bind H. destruct a as [sp s2]. inv_ok.
    apply read_ok_iff in E as [-> Hv]; [|easy]. apply read_ok_iff in E0 as [-> Hp]; [|easy].
    split; [repeat constructor; assumption|]. cbn. rewrite !length_app.
    unfold len, TX_EXTRA_PQ_VIEW_PUBKEY_SIZE, TX_EXTRA_PQ_SPEND_PUBKEY_SIZE in *. lia. }
  destruct (_ =? TX_EXTRA_TAG_POW).
  { apply lift_some in H as (k & H & ->). inv_bind H. destruct a as [v s1]. inv_bind H. destruct a as [n s2]. inv_ok.
    apply (codec_exact (c := hash)) in E as (Hv & _). apply read_ok_iff in E0 as [-> Hp]; [|easy].
    split; [|cbn in *; lia]. repeat constructor; [exact Hv|..].
    - apply le_combine_bound.
    - pose proof (le_combine_bound n) as B. unfold len in Hp. replace (8 * Z.of_nat (length n)) with 64 in B by lia. lia. }
  destruct (_ =? TX_EXTRA_TAG_PQ_MINER_SPEND_PUB).
  - apply lift_some in H as (k & H & ->). apply read_ok_iff in H as [-> Hk]; [|easy].
    split; [repeat constructor; assumption|]. cbn. rewrite !length_app. unfold len, TX_EXTRA_PQ_SPEND_PUBKEY_SIZE in *. lia.
  - inv_ok. split; [constructor|cbn; lia].
Qed.

Lemma fields_bytes_app a b : fields_bytes (a ++ b) = (fields_bytes a + fields_bytes b)%nat.
Proof. unfold fields_bytes. now rewrite map_app, list_sum_app. Qed.

Lemma parse_loop_typed fuel : forall s acc ok fs, parse_loop fuel s acc = (ok, fs) ->
  exists new, fs = acc ++ new /\ Forall typed_field new /\ (fields_bytes new <= length s)%nat.
Proof.
  induction fuel as [|fuel IH]; intros [|c s] acc ok fs H; cbn [parse_loop] in H;
    try (injection H as _ <-; exists []; rewrite app_nil_r; split; [reflexivity|split; [constructor|cbn; lia]]).
  destruct (parse_field (u8 c) s) as [[f r]|] eqn:E.
  - apply parse_field_typed in E as [Ht Hl]. apply IH in H as (new & -> & Hn & Hb).
    exists (f ++ new). rewrite <- app_assoc, fields_bytes_app. split; [reflexivity|].
    split; [now apply Forall_app|cbn [length]; lia].
  - injection H as _ <-. exists []. rewrite app_nil_r. split; [reflexivity|split; [constructor|cbn; lia]].
Qed.

Lemma find_in {T} (sel : TransactionExtraField -> option T) fs t :
  findTransactionExtraFieldByType sel fs = Some t -> exists f, In f fs /\ sel f = Some t.
Proof.
  induction fs as [|f fs IH]; cbn; [discriminate|]. destruct (sel f) eqn:E.
  - intros. inv_ok. eauto.
  - intros H. apply IH in H as (g & Hg & Hs). eauto.
Qed.

(** A field an accessor returns has the parser's sizes and sits in the field. *)
Lemma get_field_typed {T} (sel : TransactionExtraField -> option T) e t : get_field sel e = Some t ->
  exists fs f, parseTransactionExtra e = (true, fs) /\ In f fs /\ sel f = Some t /\
    Forall typed_field fs /\ (fields_bytes fs <= length e)%nat.
Proof.
  unfold get_field, parseTransactionExtra. destruct (parse_loop _ e []) as [ok fs] eqn:E. intros H.
  destruct ok; [|discriminate]. pose proof (parse_loop_typed _ _ _ _ _ E) as (new & -> & Hn & Hb).
  apply find_in in H as (f & Hf & Hs). exists ([] ++ new), f. auto.
Qed.

Lemma registration_sizes e v s : getPqAccountRegistrationFromExtra e = Some (v, s) ->
  len v = TX_EXTRA_PQ_VIEW_PUBKEY_SIZE /\ len s = TX_EXTRA_PQ_SPEND_PUBKEY_SIZE.
Proof.
  intros H. apply get_field_typed in H as (fs & f & _ & Hf & Hs & Ht & _). rewrite Forall_forall in Ht.
  specialize (Ht _ Hf). destruct f; try discriminate. cbn in Hs. injection Hs as -> ->. exact Ht.
Qed.

Lemma pow_sizes e r n : getPowTagFromExtra e = Some (r, n) -> len r = 32 /\ in_w 64 n.
Proof.
  intros H. apply get_field_typed in H as (fs & f & _ & Hf & Hs & Ht & _). rewrite Forall_forall in Ht.
  specialize (Ht _ Hf). destruct f; try discriminate. cbn in Hs. injection Hs as -> ->. exact Ht.
Qed.

(** A coinbase key and a registration do not both fit in [MAX_EXTRA_SIZE_PQ]. *)
Lemma minerPub_excludes_registration e k : len e <= parameters.MAX_EXTRA_SIZE_PQ ->
  getPqMinerSpendPubFromExtra e = Some k -> getPqAccountRegistrationFromExtra e = None.
Proof.
  intros He Hk. destruct (getPqAccountRegistrationFromExtra e) as [[v s]|] eqn:Hr; [|reflexivity]. exfalso.
  apply get_field_typed in Hk as (fs & f & P & Hf & Hs & _ & Hb). apply get_field_typed in Hr as (fs' & g & P' & Hg & Hs' & _).
  rewrite P in P'. injection P' as <-. destruct f; try discriminate. destruct g; try discriminate.
  apply in_split in Hf as (a & b & ->). rewrite fields_bytes_app in Hb. change (fields_bytes (PqMinerSpendPub spendPub :: b))
    with (1953 + fields_bytes b)%nat in Hb.
  assert (Hw : forall l, In (PqAccountRegistration viewPub spendPub0) l -> (3137 <= fields_bytes l)%nat).
  { intros l H. apply in_split in H as (x & y & ->). rewrite fields_bytes_app.
    change (fields_bytes (PqAccountRegistration viewPub spendPub0 :: y)) with (3137 + fields_bytes y)%nat. lia. }
  unfold len, parameters.MAX_EXTRA_SIZE_PQ in He.
  apply in_app_iff in Hg as [Hg|[Hg|Hg]]; [apply Hw in Hg; lia|discriminate|apply Hw in Hg; lia].
Qed.

(** ** Free-registration grammar *)

Lemma byte_at_app a c b : byte_at (a ++ c :: b) (len a) = u8 c.
Proof. unfold byte_at, len. rewrite Nat2Z.id, nth_middle. reflexivity. Qed.

Lemma freereg_layout view spend ref nonce :
  appendPowTagToExtra (addPqAccountRegistrationToExtra [] view spend) ref nonce =
  b8 TX_EXTRA_TAG_PQ_ACCOUNT_REGISTRATION :: (view ++ spend) ++ b8 TX_EXTRA_TAG_POW :: ref ++ le_split 8 nonce.
Proof. reflexivity. Qed.

Lemma canonical_shape e : isCanonicalFreeRegExtra e = true <->
  exists view spend ref nonce,
    len view = TX_EXTRA_PQ_VIEW_PUBKEY_SIZE /\ len spend = TX_EXTRA_PQ_SPEND_PUBKEY_SIZE /\
    len ref = 32 /\ in_w 64 nonce /\
    e = appendPowTagToExtra (addPqAccountRegistrationToExtra [] view spend) ref nonce.
Proof.
  unfold isCanonicalFreeRegExtra. split.
  - intros H. destruct (negb (len e =? kExpected)) eqn:E1; [discriminate|].
    destruct (negb (byte_at e 0 =? _)) eqn:E2; [discriminate|].
    destruct (negb (byte_at e (1 + kRegPayload) =? _)) eqn:E3; [discriminate|]. bprop. clear H.
    unfold len in E1. change kExpected with 3178 in E1. change (1 + kRegPayload) with 3137 in E3.
    destruct e as [|c0 e]; [discriminate|]. cbn [length] in E1.
    destruct (split_at 1184 e ltac:(lia)) as (view & e1 & -> & Hv & L1). rewrite length_app in E1.
    destruct (split_at 1952 e1 ltac:(lia)) as (spend & e2 & -> & Hs & L2). rewrite length_app in E1.
    destruct e2 as [|c1 e2]; [cbn in E1; lia|]. cbn [length] in E1.
    destruct (split_at 32 e2 ltac:(lia)) as (ref & e3 & -> & Hr & L3). rewrite length_app in E1.
    exists view, spend, ref, (le_combine e3). unfold len, TX_EXTRA_PQ_VIEW_PUBKEY_SIZE, TX_EXTRA_PQ_SPEND_PUBKEY_SIZE.
    rewrite Hv, Hs, Hr. repeat (split; [reflexivity|]).
    assert (L : length e3 = 8%nat) by lia.
    split; [pose proof (le_combine_bound e3) as B; rewrite L in B; exact B|].
    rewrite freereg_layout, split_le_combine' by assumption.
    change (u8 c0 = TX_EXTRA_TAG_PQ_ACCOUNT_REGISTRATION) in E2.
    assert (E3' : u8 c1 = TX_EXTRA_TAG_POW).
    { rewrite <- E3, <- (byte_at_app (c0 :: view ++ spend) c1 (ref ++ e3)). f_equal.
      - cbn [app]. now rewrite <- app_assoc.
      - unfold len. cbn [length]. rewrite length_app. lia. }
    rewrite <- app_assoc, <- E3', <- E2, !b8_u8. reflexivity.
  - intros (view & spend & ref & nonce & Hv & Hs & Hr & Hn & ->). rewrite freereg_layout.
    unfold TX_EXTRA_PQ_VIEW_PUBKEY_SIZE, TX_EXTRA_PQ_SPEND_PUBKEY_SIZE, len in *.
    rewrite (proj2 (Z.eqb_eq _ kExpected))
      by (repeat (rewrite ?length_app, ?length_le_split; cbn [length]); change kExpected with 3178; lia).
    change (byte_at (b8 TX_EXTRA_TAG_PQ_ACCOUNT_REGISTRATION :: _) 0 =? _) with true.
    replace (1 + kRegPayload) with (len (b8 TX_EXTRA_TAG_PQ_ACCOUNT_REGISTRATION :: view ++ spend))
      by (change (1 + kRegPayload) with 3137; unfold len; cbn [length]; rewrite length_app; lia).
    rewrite app_comm_cons, byte_at_app. reflexivity.
Qed.

(** ** Properties *)

(** The [extra] round trip: a list of well-formed fields, optionally ended by
    padding, is always writable and the parser returns exactly that list. *)
Theorem extra_roundtrip fields pad : Forall wf_field fields -> 0 <= pad <= TX_EXTRA_PADDING_MAX_COUNT ->
  let all := fields ++ (if pad =? 0 then [] else [Padding pad]) in
  exists b, writeTransactionExtra [] all = (true, b) /\ parseTransactionExtra b = (true, all).
Proof.
  unfold TX_EXTRA_PADDING_MAX_COUNT. intros Hf Hp. apply parse_written; [assumption|lia].
Qed.

Lemma extra_roundtrip_witness :
  exists b, writeTransactionExtra [] [Nonce (str "hello"); Pow (repeat (b8 1) 32) 77; Padding 3] = (true, b) /\
    parseTransactionExtra b = (true, [Nonce (str "hello"); Pow (repeat (b8 1) 32) 77; Padding 3]).
Proof.
  apply (extra_roundtrip [Nonce (str "hello"); Pow (repeat (b8 1) 32) 77] 3).
  - constructor; [vm_compute; congruence|]. constructor; [split; [reflexivity|easy]|constructor].
  - vm_compute. split; congruence.
Defined.

(** The free-registration grammar check accepts exactly the byte strings
    [0x05 | view | spend | 0x06 | ref | LE64(nonce)]: on those the registration and
    the proof-of-work tag are parsed back, they are the only fields, and the nonce
    is the final eight bytes. *)
Theorem free_reg_grammar e : isCanonicalFreeRegExtra e = true <->
  exists view spend ref nonce,
    len view = TX_EXTRA_PQ_VIEW_PUBKEY_SIZE /\ len spend = TX_EXTRA_PQ_SPEND_PUBKEY_SIZE /\
    len ref = 32 /\ in_w 64 nonce /\
    e = appendPowTagToExtra (addPqAccountRegistrationToExtra [] view spend) ref nonce /\
    parseTransactionExtra e = (true, [PqAccountRegistration view spend; Pow ref nonce]) /\
    skipn (length e - 8) e = le_split 8 nonce.
Proof.
  rewrite canonical_shape. split.
  - intros (view & spend & ref & nonce & Hv & Hs & Hr & Hn & He). exists view, spend, ref, nonce.
    repeat (split; [assumption|]).
    destruct (parse_written [PqAccountRegistration view spend; Pow ref nonce] 0) as (b & Hw & Hp);
      [constructor; [split; assumption|constructor; [split; assumption|constructor]] | auto |].
    cbn [app Z.eqb] in Hw, Hp. cbn [writeTransactionExtra write_field] in Hw. rewrite <- He in Hw.
    injection Hw as <-. split; [exact Hp|].
    rewrite He. unfold appendPowTagToExtra. rewrite !app_assoc. rewrite length_app, length_le_split.
    apply skipn_app_exact. lia.
  - intros (view & spend & ref & nonce & Hv & Hs & Hr & Hn & He & _). exists view, spend, ref, nonce. auto.
Qed.

(** [isPowTagLastField] does not imply what its comment says: bytes of an
    unknown tag after the proof-of-work tag are skipped, so the check passes while
    the nonce is not the final eight bytes of [extra]. *)
Theorem pow_tag_last_not_final : exists e ref nonce,
  isPowTagLastField e = true /\ getPowTagFromExtra e = Some (ref, nonce) /\
  skipn (length e - 8) e <> le_split 8 nonce.
Proof.
  exists (appendPowTagToExtra [] (repeat (b8 1) 32) 5 ++ [b8 0xFF]), (repeat (b8 1) 32), 5.
  vm_compute. repeat split. congruence.
Qed.
