(* ===== verification/TreeHash.v ===== *)
(** * The transaction Merkle tree

    [crypto/tree-hash.c]: the root ([tree_hash]), the branch of the first leaf
    ([tree_depth], [tree_branch]) and the root recomputed from a leaf and a branch
    ([tree_hash_from_branch]).  The C code works in place in one buffer of hashes;
    the model keeps the buffer, the index loops and the bit tricks that pick the
    power of two, and the theorems relate them to the tree they compute.

    [cn_fast_hash] (Keccak, [crypto/hash.c]) is a parameter; where a theorem
    speaks of different leaves it names the hashed strings that collide. *)

From Stdlib Require Import ZArith List Lia Bool.
From S2P Require Import Prelude.
Import ListNotations.
Open Scope Z_scope.
Open Scope discrete_scope.

Section TreeHash.
Variable cn_fast_hash : bytes -> bytes.

Definition zero_hash : bytes := repeat (b8 0) 32.
Abbreviation at_ l i := (nth i l zero_hash).

(** A store to [ints[i]]. *)
Fixpoint store {A} (l : list A) (i : nat) (v : A) : list A :=
  match l, i with
  | [], _ => []
  | _ :: l, O => v :: l
  | x :: l, S i => x :: store l i v
  end.

Definition hash2 (a b : bytes) : bytes := cn_fast_hash (a ++ b).

(** The bit trick: the largest power of two below [count]. *)
Definition smear (cnt : Z) : Z :=
  fold_left (fun cnt i => Z.lor cnt (Z.shiftr cnt i)) [1; 2; 4; 8; 16; 32] cnt.
Definition tree_cnt (count : Z) : Z :=
  let cnt := smear (count - 1) in Z.land cnt (Z.lnot (Z.shiftr cnt 1)).

(** [for (i, j; j < cnt; i += 2, ++j) hash(src[i], src[i+1]) -> ints[j]], reading
    the caller's array. *)
Fixpoint leaf_loop (fuel : nat) (hashes : list bytes) (i j cnt : nat) (ints : list bytes) : list bytes :=
  match fuel with
  | O => ints
  | S fuel =>
      if (j <? cnt)%nat
      then leaf_loop fuel hashes (i + 2) (j + 1) cnt
             (store ints j (hash2 (at_ hashes i) (at_ hashes (i + 1))))
      else ints
  end.

(** The same loop reading and writing the one buffer. *)
Fixpoint level_loop (fuel : nat) (i j cnt : nat) (ints : list bytes) : list bytes :=
  match fuel with
  | O => ints
  | S fuel =>
      if (j <? cnt)%nat
      then level_loop fuel (i + 2) (j + 1) cnt (store ints j (hash2 (at_ ints i) (at_ ints (i + 1))))
      else ints
  end.

(** [while (cnt > 2)] *)
Fixpoint halve_loop (fuel : nat) (cnt : nat) (ints : list bytes) : list bytes :=
  match fuel with
  | O => ints
  | S fuel =>
      if (2 <? cnt)%nat
      then let cnt := Nat.div2 cnt in halve_loop fuel cnt (level_loop cnt 0 0 cnt ints)
      else ints
  end.

Definition tree_hash (hashes : list bytes) : bytes :=
  let count := length hashes in
  if (count =? 1)%nat then at_ hashes 0
  else if (count =? 2)%nat then hash2 (at_ hashes 0) (at_ hashes 1)
  else
    let cnt := Z.to_nat (tree_cnt (Z.of_nat count)) in
    let r := (2 * cnt - count)%nat in
    let ints := firstn r hashes ++ skipn r (repeat zero_hash cnt) in
    let ints := leaf_loop cnt hashes r r cnt ints in
    let ints := halve_loop 64 cnt ints in
    hash2 (at_ ints 0) (at_ ints 1).

(** [tree_depth]: [i = 32, 16, 8, 4, 2, 1]. *)
Definition tree_depth (count : Z) : Z :=
  snd (fold_left (fun '(count, depth) i =>
         if 0 <? Z.shiftr count i then (Z.shiftr count i, depth + i) else (count, depth))
       [32; 16; 8; 4; 2; 1] (count, 0)).

(** [tree_branch]: the power of two not above [count], with its exponent. *)
Definition branch_cnt (count : Z) : Z * Z :=
  fold_left (fun '(cnt, depth) i =>
    if Z.shiftl cnt i <=? count then (Z.shiftl cnt i, depth + i) else (cnt, depth))
  [32; 16; 8; 4; 2; 1] (1, 0).

(** [while (depth > 0)]; [branch[depth]] is filled from the last one down. *)
Fixpoint branch_loop (depth : nat) (cnt : nat) (ints : list bytes) (branch : list bytes) : list bytes :=
  match depth with
  | O => branch
  | S depth =>
      let cnt := Nat.div2 cnt in
      branch_loop depth cnt (level_loop (cnt - 1) 1 0 (cnt - 1) ints) (at_ ints 0 :: branch)
  end.

Definition tree_branch (hashes : list bytes) : list bytes :=
  let count := length hashes in
  let (cnt, depth) := branch_cnt (Z.of_nat count) in
  let cnt := Z.to_nat cnt in
  let r := (2 * cnt - count)%nat in
  let ints := firstn (r - 1) (skipn 1 hashes) ++ skipn (r - 1) (repeat zero_hash (cnt - 1)) in
  let ints := leaf_loop (cnt - 1) hashes r (r - 1) (cnt - 1) ints in
  branch_loop (Z.to_nat depth) cnt ints [].

(** [tree_hash_from_branch]: [path] is the optional bit string choosing sides. *)
Definition path_bit (path : option bytes) (depth : nat) : bool :=
  match path with
  | None => false
  | Some p => Z.testbit (u8 (nth (depth / 8) p (b8 0))) (Z.of_nat (depth mod 8))
  end.

Fixpoint from_branch_loop (depth : nat) (branch : list bytes) (leaf : bytes) (path : option bytes)
  (from_leaf : bool) (buffer : bytes * bytes) : bytes * bytes :=
  match depth with
  | O => buffer
  | S depth =>
      let v := if from_leaf then leaf else hash2 (fst buffer) (snd buffer) in
      let buffer := if path_bit path depth then (at_ branch depth, v) else (v, at_ branch depth) in
      from_branch_loop depth branch leaf path false buffer
  end.

Definition tree_hash_from_branch (branch : list bytes) (depth : nat) (leaf : bytes) (path : option bytes) : bytes :=
  match depth with
  | O => leaf
  | _ =>
      let b := from_branch_loop depth branch leaf path true (zero_hash, zero_hash) in
      hash2 (fst b) (snd b)
  end.

(** ** The tree *)

(** One level up. *)
Fixpoint pairs (l : list bytes) : list bytes :=
  match l with
  | a :: b :: l => hash2 a b :: pairs l
  | _ => []
  end.

Fixpoint root_of (d : nat) (l : list bytes) : bytes :=
  match d with
  | O => at_ l 0
  | S d => root_of d (pairs l)
  end.

(** The bottom row of the complete tree: the first leaves stay, the others are
    hashed in pairs. *)
Definition base (L : nat) (l : list bytes) : list bytes :=
  let r := (2 * 2 ^ L - length l)%nat in firstn r l ++ pairs (skipn r l).

(** ** Powers of two *)

(** The [m] bits of [x] from position [L] down are set, none above. *)
Definition top_set (L m x : Z) : Prop :=
  (forall k, 0 <= k -> L - m < k <= L -> Z.testbit x k = true) /\
  (forall k, L < k -> Z.testbit x k = false).

Lemma top_set_step L m x : 0 <= m -> 0 <= L -> top_set L m x -> top_set L (2 * m) (Z.lor x (Z.shiftr x m)).
Proof.
  intros Hm HL [H1 H2]. split; intros k Hk; [intros Hr|].
  - rewrite Z.lor_spec, Z.shiftr_spec by lia.
    destruct (Z.lt_ge_cases (L - m) k); [rewrite H1 by lia; reflexivity|].
    rewrite (H1 (k + m)) by lia. apply orb_true_r.
  - rewrite Z.lor_spec, Z.shiftr_spec, !H2 by lia. reflexivity.
Qed.

Lemma smear_spec x : 0 < x < 2 ^ 64 -> smear x = Z.ones (Z.log2 x + 1).
Proof.
  intros Hx. pose proof (Z.log2_nonneg x) as HL.
  assert (HL2 : Z.log2 x < 64) by (apply Z.log2_lt_pow2; lia).
  assert (H0 : top_set (Z.log2 x) 1 x).
  { split; intros k Hk; [intros Hr; replace k with (Z.log2 x) by lia; apply Z.bit_log2; lia|].
    apply Z.bits_above_log2; lia. }
  do 6 (apply top_set_step in H0; [|lia|lia]).
  destruct H0 as [H1 H2]. unfold smear. cbn [fold_left]. apply Z.bits_inj'. intros k Hk.
  rewrite Z.testbit_ones by lia. destruct (Z.ltb_spec k (Z.log2 x + 1)).
  - replace (0 <=? k) with true by lia. apply H1; lia.
  - replace (0 <=? k) with true by lia. apply H2; lia.
Qed.

Lemma tree_cnt_spec count : 1 < count <= 2 ^ 64 -> tree_cnt count = 2 ^ Z.log2 (count - 1).
Proof.
  intros Hc. unfold tree_cnt. rewrite smear_spec by lia. pose proof (Z.log2_nonneg (count - 1)).
  apply Z.bits_inj'. intros k Hk.
  rewrite Z.land_spec, Z.lnot_spec, Z.shiftr_spec, !Z.testbit_ones, Z.pow2_bits_eqb by lia. lia.
Qed.

Lemma depth_step (c d i c0 : Z) : 0 <= i -> 0 <= d -> c = Z.shiftr c0 d -> 0 < c < 2 ^ (2 * i) ->
  let '(c', d') := if 0 <? Z.shiftr c i then (Z.shiftr c i, d + i) else (c, d) in
  c' = Z.shiftr c0 d' /\ 0 < c' < 2 ^ i /\ 0 <= d'.
Proof.
  intros Hi Hd -> Hc. rewrite Z.shiftr_shiftr by lia. destruct (Z.ltb_spec 0 (Z.shiftr c0 (d + i))) as [H|H].
  - repeat split; try lia. rewrite <- Z.shiftr_shiftr, Z.shiftr_div_pow2 by lia.
    apply Z.div_lt_upper_bound; [lia|]. rewrite <- Z.pow_add_r by lia. now replace (i + i) with (2 * i) by lia.
  - repeat split; try lia. rewrite <- Z.shiftr_shiftr, Z.shiftr_div_pow2 in H by lia.
    apply Z.nle_gt. intros G. assert (1 <= Z.shiftr c0 d / 2 ^ i) by (apply Z.div_le_lower_bound; lia). lia.
Qed.

(** The shift counts of the binary searches: [2^n, ..., 2, 1]. *)
Fixpoint halves (n : nat) : list Z :=
  match n with O => [1] | S m => 2 ^ Z.of_nat n :: halves m end.

Lemma pow_double n : 2 ^ Z.of_nat (S n) = 2 * 2 ^ Z.of_nat n.
Proof. rewrite Nat2Z.inj_succ, Z.pow_succ_r by lia. reflexivity. Qed.

Lemma depth_fold n c0 : forall c d, 0 <= d -> c = Z.shiftr c0 d -> 0 < c < 2 ^ (2 * 2 ^ Z.of_nat n) ->
  let '(c', d') := fold_left (fun '(count, depth) i =>
         if 0 <? Z.shiftr count i then (Z.shiftr count i, depth + i) else (count, depth)) (halves n) (c, d) in
  c' = Z.shiftr c0 d' /\ c' = 1 /\ 0 <= d'.
Proof.
  induction n as [|n IH]; intros c d Hd E R; cbn [halves fold_left].
  - pose proof (depth_step c d 1 c0 ltac:(lia) Hd E R) as S.
    destruct (if 0 <? Z.shiftr c 1 then _ else _) as [c' d']. destruct S as (E' & R' & D'). repeat split; lia.
  - pose proof (depth_step c d (2 ^ Z.of_nat (S n)) c0 ltac:(lia) Hd E R) as S.
    destruct (if 0 <? Z.shiftr c _ then _ else _) as [c' d']. destruct S as (E' & R' & D').
    apply IH; [assumption|assumption|]. now rewrite <- pow_double.
Qed.

Lemma tree_depth_spec count : 0 < count < 2 ^ 64 -> tree_depth count = Z.log2 count.
Proof.
  intros Hc. unfold tree_depth. change [32; 16; 8; 4; 2; 1] with (halves 5).
  pose proof (depth_fold 5 count count 0 ltac:(lia) eq_refl ltac:(easy)) as S.
  destruct (fold_left _ (halves 5) (count, 0)) as [c d]. destruct S as (E & E1 & D).
  cbn [snd]. symmetry. apply Z.log2_unique; [lia|].
  rewrite E1, Z.shiftr_div_pow2 in E by lia. rewrite Z.pow_succ_r by lia.
  pose proof (Z.div_mod count (2 ^ d) ltac:(lia)). pose proof (Z.mod_pos_bound count (2 ^ d) ltac:(lia)). lia.
Qed.

Lemma branch_step (c d i count : Z) : 0 <= i -> 0 <= d -> c = 2 ^ d -> c <= count < c * 2 ^ (2 * i) ->
  let '(c', d') := if Z.shiftl c i <=? count then (Z.shiftl c i, d + i) else (c, d) in
  c' = 2 ^ d' /\ c' <= count < c' * 2 ^ i /\ 0 <= d'.
Proof.
  intros Hi Hd -> Hc. rewrite Z.shiftl_mul_pow2, <- Z.pow_add_r by lia.
  replace (2 * i) with (i + i) in Hc by lia. rewrite (Z.pow_add_r 2 i i), Z.mul_assoc, <- Z.pow_add_r in Hc by lia.
  destruct (Z.leb_spec (2 ^ (d + i)) count); [lia|]. rewrite Z.pow_add_r in * by lia. lia.
Qed.

Lemma branch_fold n count : forall c d, 0 <= d -> c = 2 ^ d -> c <= count < c * 2 ^ (2 * 2 ^ Z.of_nat n) ->
  let '(c', d') := fold_left (fun '(cnt, depth) i =>
    if Z.shiftl cnt i <=? count then (Z.shiftl cnt i, depth + i) else (cnt, depth)) (halves n) (c, d) in
  c' = 2 ^ d' /\ c' <= count < 2 * c' /\ 0 <= d'.
Proof.
  induction n as [|n IH]; intros c d Hd E R; cbn [halves fold_left].
  - pose proof (branch_step c d 1 count ltac:(lia) Hd E R) as S.
    destruct (if Z.shiftl c 1 <=? count then _ else _) as [c' d']. lia.
  - pose proof (branch_step c d (2 ^ Z.of_nat (S n)) count ltac:(lia) Hd E R) as S.
    destruct (if Z.shiftl c _ <=? count then _ else _) as [c' d']. destruct S as (E' & R' & D').
    apply IH; [assumption|assumption|]. now rewrite <- pow_double.
Qed.

Lemma branch_cnt_spec count : 0 < count < 2 ^ 64 -> branch_cnt count = (2 ^ Z.log2 count, Z.log2 count).
Proof.
  intros Hc. unfold branch_cnt. change [32; 16; 8; 4; 2; 1] with (halves 5).
  pose proof (branch_fold 5 count 1 0 ltac:(lia) eq_refl) as S.
  destruct (fold_left _ (halves 5) (1, 0)) as [c d]. destruct S as (E & R & D); [change (1 * 2 ^ (2 * 2 ^ Z.of_nat 5)) with (2 ^ 64); lia|].
  assert (Z.log2 count = d) as ->; [|now rewrite E].
  apply Z.log2_unique; [lia|]. rewrite Z.pow_succ_r by lia. lia.
Qed.

(** ** The loops *)

Lemma store_middle {A} (a : list A) x b v : store (a ++ x :: b) (length a) v = a ++ v :: b.
Proof. induction a as [|y a IH]; cbn; [reflexivity|]. now rewrite IH. Qed.

Lemma skipn_cons {A} (d : A) k l : (k < length l)%nat -> skipn k l = nth k l d :: skipn (S k) l.
Proof.
  revert l. induction k as [|k IH]; intros [|x l] H; cbn in *; try lia; [reflexivity|]. apply IH. lia.
Qed.

Lemma pairs_skipn k l : (k + 2 <= length l)%nat ->
  pairs (skipn k l) = hash2 (at_ l k) (at_ l (k + 1)) :: pairs (skipn (k + 2) l).
Proof.
  intros H. rewrite (skipn_cons zero_hash k), (skipn_cons zero_hash (S k)) by lia.
  cbn [pairs]. now replace (S (S k)) with (k + 2)%nat by lia; replace (S k) with (k + 1)%nat by lia.
Qed.

Lemma leaf_loop_spec hashes n : forall i pre rest,
  length rest = n -> (i + 2 * n <= length hashes)%nat ->
  leaf_loop n hashes i (length pre) (length pre + n) (pre ++ rest) = pre ++ firstn n (pairs (skipn i hashes)).
Proof.
  induction n as [|n IH]; intros i pre rest Hr Hi; cbn [leaf_loop].
  - destruct rest; [reflexivity|discriminate].
  - destruct rest as [|x rest]; [discriminate|]. cbn in Hr.
    replace (length pre <? length pre + S n)%nat with true by (symmetry; apply Nat.ltb_lt; lia).
    rewrite store_middle, pairs_skipn by lia. cbn [firstn].
    set (h := hash2 _ _). specialize (IH (i + 2)%nat (pre ++ [h]) rest ltac:(lia) ltac:(lia)).
    rewrite length_app in IH. cbn [length] in IH. rewrite <- !app_assoc in IH. cbn [app] in IH.
    rewrite <- IH. f_equal. lia.
Qed.

Lemma level_loop_spec s ints0 n : forall done,
  (s + 2 * (length done + n) <= length ints0)%nat ->
  let j := length done in
  level_loop n (s + 2 * j) j (j + n) (done ++ skipn j ints0) =
    done ++ firstn n (pairs (skipn (s + 2 * j) ints0)) ++ skipn (j + n) ints0.
Proof.
  induction n as [|n IH]; intros done Hl j; cbn [level_loop].
  - now rewrite Nat.add_0_r.
  - subst j. replace (length done <? length done + S n)%nat with true by (symmetry; apply Nat.ltb_lt; lia).
    assert (Hnth : forall k, (length done <= k)%nat -> at_ (done ++ skipn (length done) ints0) k = at_ ints0 k).
    { intros k Hk. rewrite app_nth2, nth_skipn by lia. f_equal. lia. }
    rewrite !Hnth by lia. rewrite (skipn_cons zero_hash (length done) ints0) by lia.
    rewrite store_middle, pairs_skipn by lia. cbn [firstn].
    set (h := hash2 _ _). specialize (IH (done ++ [h])). rewrite length_app in IH. cbn [length] in IH.
    specialize (IH ltac:(lia)). rewrite <- !app_assoc in IH. cbn [app] in IH.
    replace (S (length done)) with (length done + 1)%nat by lia.
    replace (s + 2 * length done + 2)%nat with (s + 2 * (length done + 1))%nat by lia.
    replace (length done + S n)%nat with (length done + 1 + n)%nat by lia. exact IH.
Qed.

Lemma level_loop_top s ints n : (s + 2 * n <= length ints)%nat ->
  level_loop n s 0 n ints = firstn n (pairs (skipn s ints)) ++ skipn n ints.
Proof.
  intros H. pose proof (level_loop_spec s ints n [] H) as E. cbn [length Nat.add Nat.mul app] in E.
  rewrite Nat.add_0_r in E. exact E.
Qed.

Lemma length_pairs l : length (pairs l) = Nat.div2 (length l).
Proof.
  enough (H : forall n l, (length l <= n)%nat -> length (pairs l) = Nat.div2 (length l)) by eauto.
  clear l. induction n as [|n IH]; intros [|a [|b l]] Hn; cbn in *; try lia. rewrite IH by lia. reflexivity.
Qed.

Lemma pairs_firstn n : forall l, pairs (firstn (2 * n) l) = firstn n (pairs l).
Proof.
  induction n as [|n IH]; intros l; [reflexivity|].
  replace (2 * S n)%nat with (S (S (2 * n))) by lia.
  destruct l as [|a [|b l]]; cbn [firstn pairs]; [reflexivity|now rewrite ?firstn_nil|]. now rewrite IH.
Qed.

Lemma div2_pow k : Nat.div2 (2 ^ S k) = (2 ^ k)%nat.
Proof. cbn [Nat.pow]. now rewrite Nat.div2_double. Qed.

Lemma pow_pos k : (1 <= 2 ^ k)%nat.
Proof. induction k; cbn; lia. Qed.

Lemma halve_loop_spec k : forall fuel ints, (k <= fuel)%nat -> (2 ^ S k <= length ints)%nat ->
  let b := halve_loop fuel (2 ^ S k) ints in
  hash2 (at_ b 0) (at_ b 1) = root_of (S k) (firstn (2 ^ S k) ints).
Proof.
  induction k as [|k IH]; intros fuel ints Hf Hl b.
  - subst b. assert (halve_loop fuel (2 ^ 1) ints = ints) as -> by (destruct fuel; reflexivity).
    cbn in Hl. destruct ints as [|x [|y ints]]; cbn in Hl; try lia. reflexivity.
  - destruct fuel as [|fuel]; [lia|]. subst b. cbn [halve_loop].
    pose proof (pow_pos k). assert (Hp : (2 ^ S (S k) = 2 * 2 ^ S k)%nat) by reflexivity.
    replace (2 <? 2 ^ S (S k))%nat with true by (symmetry; apply Nat.ltb_lt; cbn; lia).
    cbv zeta. rewrite div2_pow, level_loop_top by (cbn [Nat.add]; lia). rewrite skipn_O.
    rewrite Hp in *. rewrite IH; [|lia|].
    + cbn [root_of]. rewrite pairs_firstn. do 2 f_equal.
      rewrite firstn_app_exact; [reflexivity|]. rewrite length_firstn, length_pairs.
      assert (2 ^ S k <= Nat.div2 (length ints))%nat by (rewrite Nat.div2_div; apply Nat.div_le_lower_bound; lia). lia.
    + rewrite length_app, length_firstn, length_skipn, length_pairs. clear - Hl.
      generalize dependent (2 ^ S k)%nat. intros m Hm. generalize (Nat.min m (Nat.div2 (length ints))). lia.
Qed.

(** ** The routines compute the tree *)

Definition level (l : list bytes) : nat := Z.to_nat (Z.log2 (Z.of_nat (length l) - 1)).

Lemma level_range l : (2 <= length l)%nat -> (2 ^ level l < length l <= 2 * 2 ^ level l)%nat.
Proof.
  intros H. unfold level. pose proof (Z.log2_spec (Z.of_nat (length l) - 1) ltac:(lia)) as [A B].
  rewrite Z.pow_succ_r in B by apply Z.log2_nonneg.
  pose proof (Z.log2_nonneg (Z.of_nat (length l) - 1)) as C.
  remember (Z.log2 (Z.of_nat (length l) - 1)) as k.
  assert (E : Z.of_nat (2 ^ Z.to_nat k) = 2 ^ k) by (rewrite Nat2Z.inj_pow, Z2Nat.id by lia; reflexivity). lia.
Qed.

Lemma tree_cnt_level l : (2 <= length l)%nat -> Z.of_nat (length l) <= 2 ^ 64 ->
  Z.to_nat (tree_cnt (Z.of_nat (length l))) = (2 ^ level l)%nat.
Proof.
  intros H Hl. rewrite tree_cnt_spec by lia. unfold level.
  pose proof (Z.log2_nonneg (Z.of_nat (length l) - 1)). apply Nat2Z.inj.
  rewrite Nat2Z.inj_pow, !Z2Nat.id by lia. reflexivity.
Qed.

Lemma length_base L l : (2 ^ L <= length l <= 2 * 2 ^ L)%nat -> length (base L l) = (2 ^ L)%nat.
Proof.
  intros H. unfold base. generalize dependent (2 ^ L)%nat. intros n H. cbv zeta.
  rewrite length_app, length_firstn, length_pairs, length_skipn.
  replace (length l - (2 * n - length l))%nat with (2 * (length l - n))%nat by lia.
  rewrite Nat.div2_double. lia.
Qed.

(** The buffer after the leaf loop is the bottom row. *)
Lemma leaf_loop_base L l buf : (2 ^ L <= length l <= 2 * 2 ^ L)%nat -> length buf = (2 ^ L)%nat ->
  let r := (2 * 2 ^ L - length l)%nat in
  leaf_loop (2 ^ L - r) l r r (2 ^ L) (firstn r l ++ skipn r buf) = base L l.
Proof.
  intros H Hb r. unfold base. fold r. generalize dependent (2 ^ L)%nat. intros n H Hb r.
  pose proof (leaf_loop_spec l (n - r) r (firstn r l) (skipn r buf)) as E.
  rewrite length_skipn, length_firstn in E. replace (Nat.min r (length l)) with r in E by lia.
  replace (r + (n - r))%nat with n in E by lia. rewrite E by lia. f_equal.
  apply firstn_all2. rewrite length_pairs, length_skipn.
  replace (length l - r)%nat with (2 * (n - r))%nat by lia. rewrite Nat.div2_double. lia.
Qed.

(** Fuel beyond the loop's count changes nothing. *)
Lemma leaf_loop_stop fuel l i cnt ints : leaf_loop fuel l i cnt cnt ints = ints.
Proof. destruct fuel; cbn [leaf_loop]; [reflexivity|]. now rewrite Nat.ltb_irrefl. Qed.

Lemma leaf_loop_fuel extra l n : forall i j ints,
  leaf_loop (n + extra) l i j (j + n) ints = leaf_loop n l i j (j + n) ints.
Proof.
  induction n as [|n IH]; intros i j ints; cbn [Nat.add].
  - rewrite Nat.add_0_r. apply leaf_loop_stop.
  - cbn [leaf_loop]. destruct (j <? j + S n)%nat; [|reflexivity].
    replace (j + S n)%nat with (j + 1 + n)%nat by lia. apply IH.
Qed.

Lemma tree_hash_root l : (2 <= length l)%nat -> Z.of_nat (length l) <= 2 ^ 64 ->
  tree_hash l = root_of (level l) (base (level l) l).
Proof.
  intros H Hl. unfold tree_hash. replace (length l =? 1)%nat with false by (symmetry; apply Nat.eqb_neq; lia).
  destruct (Nat.eqb_spec (length l) 2) as [E2|N2].
  { destruct l as [|a [|b [|c l]]]; try discriminate. reflexivity. }
  rewrite tree_cnt_level by assumption. pose proof (level_range l H) as R.
  destruct (level l) as [|k] eqn:EL; [cbn in R; lia|].
  set (n := (2 ^ S k)%nat) in *. set (r := (2 * n - length l)%nat).
  replace (leaf_loop n l r r n (firstn r l ++ skipn r (repeat zero_hash n))) with (base (S k) l).
  2: { symmetry. rewrite <- (leaf_loop_base (S k) l (repeat zero_hash n)) by (rewrite ?repeat_length; fold n; lia).
       fold n r. pose proof (leaf_loop_fuel r l (n - r) r r (firstn r l ++ skipn r (repeat zero_hash n))) as F.
       replace (n - r + r)%nat with n in F by lia. replace (r + (n - r))%nat with n in F by lia. exact F. }
  pose proof (length_base (S k) l) as LB. fold n in LB.
  pose proof (halve_loop_spec k 64 (base (S k) l)) as HS. fold n in HS. cbv zeta in HS |- *. rewrite HS.
  - rewrite firstn_all2 by lia. reflexivity.
  - assert (Hk : (level l < 64)%nat).
    { unfold level. pose proof (Z.log2_lt_pow2 (Z.of_nat (length l) - 1) 64 ltac:(lia)).
      pose proof (Z.log2_nonneg (Z.of_nat (length l) - 1)). lia. }
    lia.
  - lia.
Qed.

(** ** Branches *)

(** The second node of every row, the bottom one last. *)
Fixpoint row_branch (d : nat) (full : list bytes) : list bytes :=
  match d with
  | O => []
  | S d => row_branch d (pairs full) ++ [at_ full 1]
  end.

Lemma length_row_branch d full : length (row_branch d full) = d.
Proof. revert full. induction d as [|d IH]; intros; cbn; [reflexivity|]. rewrite length_app, IH. cbn. lia. Qed.

Lemma branch_loop_spec d : forall full g acc, length full = (2 ^ d)%nat ->
  branch_loop d (2 ^ d) (tl full ++ g) acc = row_branch d full ++ acc.
Proof.
  induction d as [|d IH]; intros full g acc Hl; [reflexivity|]. cbn [branch_loop row_branch]. cbv zeta.
  rewrite div2_pow. pose proof (pow_pos d) as Hp. assert (H2 : (2 ^ S d = 2 * 2 ^ d)%nat) by reflexivity.
  rewrite H2 in Hl. destruct full as [|x [|y full]]; cbn [length] in Hl; try lia.
  cbn [tl app pairs nth]. rewrite level_loop_top by (cbn [length]; rewrite length_app; lia).
  cbn [skipn]. rewrite <- app_assoc. cbn [app]. rewrite <- IH with (g := skipn (2 ^ d - 1) (y :: full ++ g)).
  - cbn [tl]. do 2 f_equal.
    rewrite <- pairs_firstn, firstn_app_exact by lia. reflexivity.
  - cbn [length]. rewrite length_pairs. replace (length full) with (2 * (2 ^ d - 1))%nat by lia.
    rewrite Nat.div2_double. lia.
Qed.

(** Climbing a branch on the left side. *)
Fixpoint climb (depth : nat) (branch : list bytes) (v : bytes) : bytes :=
  match depth with
  | O => v
  | S d => climb d branch (hash2 v (at_ branch d))
  end.

Lemma from_branch_climb depth branch leaf :
  tree_hash_from_branch branch depth leaf None = climb depth branch leaf.
Proof.
  destruct depth as [|d]; [reflexivity|]. unfold tree_hash_from_branch. cbn [from_branch_loop path_bit climb].
  enough (H : forall d b, let b' := from_branch_loop d branch leaf None false b in
            hash2 (fst b') (snd b') = climb d branch (hash2 (fst b) (snd b))) by (now rewrite H).
  clear d. induction d as [|d IH]; intros b; [reflexivity|]. cbn [from_branch_loop path_bit climb].
  rewrite IH. reflexivity.
Qed.

Lemma climb_prefix d branch more v : length branch = d -> climb d (branch ++ more) v = climb d branch v.
Proof.
  intros Hl. enough (H : forall k v, (k <= d)%nat -> climb k (branch ++ more) v = climb k branch v) by auto.
  induction k as [|k IH]; intros w Hk; [reflexivity|]. cbn [climb]. rewrite IH, app_nth1 by lia. reflexivity.
Qed.

Lemma climb_root d : forall full, length full = (2 ^ d)%nat -> climb d (row_branch d full) (at_ full 0) = root_of d full.
Proof.
  induction d as [|d IH]; intros full Hl; [reflexivity|]. cbn [climb row_branch root_of].
  pose proof (pow_pos d). assert (H2 : (2 ^ S d = 2 * 2 ^ d)%nat) by reflexivity. rewrite H2 in Hl.
  destruct full as [|x [|y full]]; cbn [length] in Hl; try lia. cbn [pairs nth].
  rewrite app_nth2 by (rewrite length_row_branch; lia). rewrite length_row_branch, Nat.sub_diag. cbn [nth].
  rewrite climb_prefix by apply length_row_branch. rewrite <- IH; [reflexivity|].
  cbn [length]. rewrite length_pairs. replace (length full) with (2 * (2 ^ d - 1))%nat by lia.
  rewrite Nat.div2_double. lia.
Qed.

(** The row [tree_branch] starts from, and the one [tree_hash] starts from,
    have the same root. *)
Definition blevel (l : list bytes) : nat := Z.to_nat (Z.log2 (Z.of_nat (length l))).

Lemma blevel_range l : (1 <= length l)%nat -> (2 ^ blevel l <= length l < 2 * 2 ^ blevel l)%nat.
Proof.
  intros H. unfold blevel. pose proof (Z.log2_spec (Z.of_nat (length l)) ltac:(lia)) as [A B].
  rewrite Z.pow_succ_r in B by apply Z.log2_nonneg. pose proof (Z.log2_nonneg (Z.of_nat (length l))) as C.
  remember (Z.log2 (Z.of_nat (length l))) as k.
  assert (E : Z.of_nat (2 ^ Z.to_nat k) = 2 ^ k) by (rewrite Nat2Z.inj_pow, Z2Nat.id by lia; reflexivity). lia.
Qed.

Lemma root_base_eq l : (2 <= length l)%nat -> root_of (blevel l) (base (blevel l) l) = root_of (level l) (base (level l) l).
Proof.
  intros H. pose proof (level_range l H) as R. pose proof (blevel_range l ltac:(lia)) as B.
  assert (Hcase : blevel l = level l \/ blevel l = S (level l)).
  { destruct (Nat.lt_trichotomy (blevel l) (level l)) as [C|[C|C]]; [|auto|].
    - assert (2 ^ S (blevel l) <= 2 ^ level l)%nat by (apply Nat.pow_le_mono_r; lia). cbn in *. lia.
    - destruct (Nat.eq_dec (blevel l) (S (level l))); [auto|].
      assert (2 ^ S (S (level l)) <= 2 ^ blevel l)%nat by (apply Nat.pow_le_mono_r; lia). cbn in *. lia. }
  destruct Hcase as [E|E]; rewrite E in *; [reflexivity|].
  assert (Hl : (length l = 2 * 2 ^ level l)%nat) by (cbn in *; lia).
  assert (B1 : base (S (level l)) l = l).
  { unfold base. replace (2 * 2 ^ S (level l) - length l)%nat with (length l) by (cbn; lia).
    now rewrite firstn_all, skipn_all, app_nil_r. }
  assert (B2 : base (level l) l = pairs l).
  { unfold base. replace (2 * 2 ^ level l - length l)%nat with 0%nat by lia. reflexivity. }
  rewrite B1, B2. reflexivity.
Qed.

Lemma branch_start l : (1 <= length l)%nat -> Z.of_nat (length l) < 2 ^ 64 ->
  tree_branch l = row_branch (blevel l) (base (blevel l) l).
Proof.
  intros H Hl. unfold tree_branch. rewrite branch_cnt_spec by lia. pose proof (blevel_range l H) as R.
  fold (blevel l). pose proof (Z.log2_nonneg (Z.of_nat (length l))).
  replace (Z.to_nat (2 ^ Z.log2 (Z.of_nat (length l)))) with (2 ^ blevel l)%nat.
  2: { apply Nat2Z.inj. unfold blevel. rewrite Nat2Z.inj_pow, !Z2Nat.id by lia. reflexivity. }
  cbv zeta. set (n := (2 ^ blevel l)%nat) in *. set (r := (2 * n - length l)%nat).
  destruct l as [|x l']; [cbn in H; lia|]. set (l := x :: l') in *. change (skipn 1 l) with l'.
  assert (Hr : (1 <= r <= n)%nat) by lia.
  assert (E : leaf_loop (n - 1) l r (r - 1) (n - 1) (firstn (r - 1) l' ++ skipn (r - 1) (repeat zero_hash (n - 1)))
              = tl (base (blevel l) l)).
  { pose proof (leaf_loop_spec l (n - r) r (firstn (r - 1) l') (skipn (r - 1) (repeat zero_hash (n - 1)))) as F.
    assert (Hlen : length l = S (length l')) by reflexivity.
    rewrite length_skipn, length_firstn, repeat_length in F.
    replace (Nat.min (r - 1) (length l')) with (r - 1)%nat in F by lia.
    replace (r - 1 + (n - r))%nat with (n - 1)%nat in F by lia.
    pose proof (leaf_loop_fuel (r - 1) l (n - r) r (r - 1)
                  (firstn (r - 1) l' ++ skipn (r - 1) (repeat zero_hash (n - 1)))) as G.
    replace (n - r + (r - 1))%nat with (n - 1)%nat in G by lia.
    replace (r - 1 + (n - r))%nat with (n - 1)%nat in G by lia.
    rewrite G, F by lia. unfold base. fold n r.
    rewrite (firstn_all2 (n := (n - r)%nat)).
    - replace r with (S (r - 1)) at 3 by lia. reflexivity.
    - rewrite length_pairs, length_skipn. replace (length l - r)%nat with (2 * (n - r))%nat by lia.
      rewrite Nat.div2_double. lia. }
  rewrite E, <- (app_nil_r (tl _)), branch_loop_spec; [apply app_nil_r|]. apply length_base. lia.
Qed.

Lemma branch_leads_to_root l : (1 <= length l)%nat -> Z.of_nat (length l) < 2 ^ 64 ->
  tree_hash_from_branch (tree_branch l) (Z.to_nat (tree_depth (Z.of_nat (length l)))) (at_ l 0) None = tree_hash l.
Proof.
  intros H Hl. rewrite from_branch_climb, branch_start, tree_depth_spec by lia. fold (blevel l).
  pose proof (blevel_range l H) as R. assert (Hb : at_ (base (blevel l) l) 0 = at_ l 0).
  { unfold base. destruct l as [|x l]; [reflexivity|].
    destruct (2 * 2 ^ blevel (x :: l) - length (x :: l))%nat as [|r] eqn:E; [lia|]. reflexivity. }
  rewrite <- Hb, climb_root by (apply length_base; lia).
  destruct (Nat.eq_dec (length l) 1) as [E|E].
  - destruct l as [|x [|y l]]; try discriminate. reflexivity.
  - rewrite root_base_eq, tree_hash_root by lia. reflexivity.
Qed.

(** ** Binding *)

(** The strings hashed: one row, the rows above it, the whole tree. *)
Fixpoint pair_inputs (l : list bytes) : list bytes :=
  match l with
  | a :: b :: l => (a ++ b) :: pair_inputs l
  | _ => []
  end.
Fixpoint root_inputs (d : nat) (l : list bytes) : list bytes :=
  match d with
  | O => []
  | S d => pair_inputs l ++ root_inputs d (pairs l)
  end.
Definition tree_inputs (l : list bytes) : list bytes :=
  match l with
  | [] | [_] => []
  | _ => pair_inputs (skipn (2 * 2 ^ level l - length l) l) ++ root_inputs (level l) (base (level l) l)
  end.

Definition all_hashes (l : list bytes) : Prop := Forall (fun h => length h = 32%nat) l.

Section Binding.
Hypothesis cn_fast_hash_size : forall x, length (cn_fast_hash x) = 32%nat.
Abbreviation collides2 l l' := (collides cn_fast_hash (l ++ l')).

Lemma collides2_incl a a' b b' : incl a b -> incl a' b' -> collides2 a a' -> collides2 b b'.
Proof. intros I I'. apply collides_incl. intros x. rewrite !in_app_iff. intros [H|H]; auto. Qed.

Lemma pairs_all l : all_hashes (pairs l).
Proof.
  enough (H : forall n l, (length l <= n)%nat -> all_hashes (pairs l)) by eauto.
  clear l. induction n as [|n IH]; intros [|a [|b l]] Hn; cbn in *; try constructor; try lia.
  - apply cn_fast_hash_size.
  - apply IH. lia.
Qed.

Lemma pairs_inj n : forall l l', length l = (2 * n)%nat -> length l' = (2 * n)%nat ->
  all_hashes l -> all_hashes l' -> pairs l = pairs l' -> l = l' \/ collides2 (pair_inputs l) (pair_inputs l').
Proof.
  induction n as [|n IH]; intros l l' Hl Hl' Ha Ha' E.
  - destruct l, l'; try discriminate. auto.
  - destruct l as [|a [|b l]]; cbn in Hl; try lia. destruct l' as [|a' [|b' l']]; cbn in Hl'; try lia.
    cbn [pairs pair_inputs] in *. injection E as E1 E2. inversion_clear Ha as [|? ? A1 A2]. inversion_clear A2 as [|? ? A3 A4].
    inversion_clear Ha' as [|? ? B1 B2]. inversion_clear B2 as [|? ? B3 B4].
    destruct (hash_cases cn_fast_hash (((a ++ b) :: pair_inputs l) ++ (a' ++ b') :: pair_inputs l') (a ++ b) (a' ++ b'))
      as [E3|C]; [left; reflexivity|apply in_app_iff; right; left; reflexivity|exact E1| |auto].
    apply app_inj_len in E3 as [-> ->]; [|congruence].
    destruct (IH l l') as [->|C]; [lia|lia|assumption..|auto|right].
    revert C. apply collides2_incl; apply incl_tl, incl_refl.
Qed.

Lemma root_inj d : forall l l', length l = (2 ^ d)%nat -> length l' = (2 ^ d)%nat ->
  all_hashes l -> all_hashes l' -> root_of d l = root_of d l' -> l = l' \/ collides2 (root_inputs d l) (root_inputs d l').
Proof.
  induction d as [|d IH]; intros l l' Hl Hl' Ha Ha' E; cbn [root_of root_inputs] in *.
  - destruct l as [|x [|y l]], l' as [|x' [|y' l']]; try discriminate. cbn in E. subst. auto.
  - change (2 ^ S d)%nat with (2 * 2 ^ d)%nat in *.
    destruct (IH (pairs l) (pairs l')) as [P|C]; [| | apply pairs_all | apply pairs_all | exact E | |].
    + now rewrite length_pairs, Hl, Nat.div2_double.
    + now rewrite length_pairs, Hl', Nat.div2_double.
    + destruct (pairs_inj (2 ^ d) l l') as [->|C]; [assumption..|auto|right].
      revert C. apply collides2_incl; apply incl_appl, incl_refl.
    + right. revert C. apply collides2_incl; apply incl_appr, incl_refl.
Qed.

Lemma base_inj L l l' : length l = length l' -> (2 ^ L <= length l <= 2 * 2 ^ L)%nat ->
  all_hashes l -> all_hashes l' -> base L l = base L l' ->
  l = l' \/ collides2 (pair_inputs (skipn (2 * 2 ^ L - length l) l)) (pair_inputs (skipn (2 * 2 ^ L - length l') l')).
Proof.
  intros Hl HL Ha Ha' E. unfold base in E. rewrite <- Hl in *. set (r := (2 * 2 ^ L - length l)%nat) in *.
  cbv zeta in E. apply app_inj_len in E as [E1 E2]; [|rewrite !length_firstn; lia].
  destruct (pairs_inj (length l - 2 ^ L) (skipn r l) (skipn r l')) as [E|C]; [| | | | exact E2 | |auto].
  - rewrite length_skipn. lia.
  - rewrite length_skipn. lia.
  - unfold all_hashes in *. rewrite <- (firstn_skipn r l) in Ha. now apply Forall_app in Ha.
  - unfold all_hashes in *. rewrite <- (firstn_skipn r l') in Ha'. now apply Forall_app in Ha'.
  - left. rewrite <- (firstn_skipn r l), <- (firstn_skipn r l'). congruence.
Qed.

Lemma base_all L l : all_hashes l -> all_hashes (base L l).
Proof. intros H. apply Forall_app. split; [now apply Forall_take | apply pairs_all]. Qed.

Lemma tree_inputs_eq l : (2 <= length l)%nat -> tree_inputs l =
  pair_inputs (skipn (2 * 2 ^ level l - length l) l) ++ root_inputs (level l) (base (level l) l).
Proof. destruct l as [|x [|y l]]; cbn [length]; intros; [lia..|reflexivity]. Qed.

Lemma tree_hash_binding_ l l' : length l = length l' -> (1 <= length l)%nat -> Z.of_nat (length l) <= 2 ^ 64 ->
  all_hashes l -> all_hashes l' -> tree_hash l = tree_hash l' -> l = l' \/ collides2 (tree_inputs l) (tree_inputs l').
Proof.
  intros Hl H1 H64 Ha Ha' E. destruct (Nat.eq_dec (length l) 1) as [E1|N1].
  - destruct l as [|x [|y l]], l' as [|x' [|y' l']]; try discriminate. cbn in E. subst. auto.
  - pose proof (level_range l ltac:(lia)) as R.
    assert (Hlev : level l' = level l) by (unfold level; now rewrite Hl).
    rewrite !tree_hash_root, Hlev in E by lia. rewrite !tree_inputs_eq, Hlev by lia.
    destruct (root_inj (level l) (base (level l) l) (base (level l) l')) as [B|C];
      [apply length_base; lia | apply length_base; lia | now apply base_all | now apply base_all | exact E | |].
    + destruct (base_inj (level l) l l') as [->|C]; [assumption|lia|assumption..|auto|right].
      revert C. apply collides2_incl; apply incl_appl, incl_refl.
    + right. revert C. apply collides2_incl; apply incl_appr, incl_refl.
Qed.

End Binding.
End TreeHash.

(** ** Properties *)

(** C32: The in-place Merkle routine computes the Merkle tree: the bit trick picks
    the largest power of two below the number of leaves, and the buffer loops give
    the root of the complete tree whose bottom row keeps the first leaves and
    hashes the remaining ones in pairs. *)
Theorem tree_hash_is_merkle_root H l : (2 <= length l)%nat -> Z.of_nat (length l) <= 2 ^ 64 ->
  let L := Z.to_nat (Z.log2 (Z.of_nat (length l) - 1)) in
  tree_cnt (Z.of_nat (length l)) = 2 ^ Z.of_nat L /\ length (base H L l) = (2 ^ L)%nat /\
  tree_hash H l = root_of H L (base H L l).
Proof.
  intros H2 H64 L. pose proof (level_range l H2) as R. fold (level l) in L.
  pose proof (Z.log2_nonneg (Z.of_nat (length l) - 1)). repeat split.
  - rewrite tree_cnt_spec by lia. subst L. unfold level. now rewrite Z2Nat.id.
  - apply length_base. subst L. lia.
  - apply tree_hash_root; assumption.
Qed.

Definition sample_leaves : list bytes := map (fun k => repeat (b8 (Z.of_nat k)) 32) (seq 0 5).
Definition sample_hash (b : bytes) : bytes := firstn 32 (rev b ++ repeat (b8 0) 32).

Lemma tree_hash_is_merkle_root_witness :
  tree_hash sample_hash sample_leaves = root_of sample_hash 2 (base sample_hash 2 sample_leaves).
Proof. apply (tree_hash_is_merkle_root sample_hash sample_leaves); [cbn; lia|vm_compute; congruence]. Defined.

(** A Merkle branch leads back to the root: for every list of leaves,
    recomputing from the first leaf along [tree_branch] for [tree_depth] levels
    gives [tree_hash]. *)
Theorem tree_branch_roundtrip H l : (1 <= length l)%nat -> Z.of_nat (length l) < 2 ^ 64 ->
  tree_hash_from_branch H (tree_branch H l) (Z.to_nat (tree_depth (Z.of_nat (length l)))) (nth 0 l zero_hash) None
  = tree_hash H l.
Proof. exact (branch_leads_to_root H l). Qed.

Lemma tree_branch_roundtrip_witness :
  tree_hash_from_branch sample_hash (tree_branch sample_hash sample_leaves) 2 (nth 0 sample_leaves zero_hash) None
  = tree_hash sample_hash sample_leaves.
Proof. apply (tree_branch_roundtrip sample_hash sample_leaves); [cbn; lia|vm_compute; congruence]. Defined.

(** The Merkle root binds the leaves: two lists of the same length with the
    same root are equal, or [cn_fast_hash] collides on two of the strings hashed
    in the two trees. *)
Theorem tree_hash_binding (cn_fast_hash : bytes -> bytes) l l' :
  (forall x, length (cn_fast_hash x) = 32%nat) ->
  length l = length l' -> (1 <= length l)%nat -> Z.of_nat (length l) <= 2 ^ 64 ->
  all_hashes l -> all_hashes l' -> tree_hash cn_fast_hash l = tree_hash cn_fast_hash l' ->
  l = l' \/ collides cn_fast_hash (tree_inputs cn_fast_hash l ++ tree_inputs cn_fast_hash l').
Proof. intros Hs. apply (tree_hash_binding_ cn_fast_hash Hs). Qed.

Lemma tree_hash_binding_witness :
  sample_leaves = sample_leaves \/
  collides sample_hash (tree_inputs sample_hash sample_leaves ++ tree_inputs sample_hash sample_leaves).
Proof.
  apply (tree_hash_binding sample_hash).
  - intros x. unfold sample_hash. rewrite length_firstn, length_app, length_rev, repeat_length. lia.
  - reflexivity.
  - cbn. lia.
  - vm_compute. congruence.
  - unfold all_hashes, sample_leaves. apply Forall_map, Forall_forall. intros. apply repeat_length.
  - unfold all_hashes, sample_leaves. apply Forall_map, Forall_forall. intros. apply repeat_length.
  - reflexivity.
Defined.
