(* ===== verification/PqHash.v ===== *)
(** * HMAC and HKDF over SHA3-256

    [crypto_pq/PqHash.cpp]: HMAC-SHA3-256 with the sponge rate as block size and
    HKDF (RFC 5869) with its expand loop.  SHA3-256 itself is liboqs, a parameter;
    its incremental interface hashes the concatenation of what was absorbed. *)

From Stdlib Require Import ZArith List Lia Bool.
From coqutil Require Import Byte.
From S2P Require Import Prelude.
Import ListNotations.
Open Scope Z_scope.
Open Scope discrete_scope.

Section PqHash.
Variable sha3_256 : bytes -> bytes.

Definition kSha3_256RateBytes : nat := 136.
Definition kSha3_256DigestBytes : nat := 32.

Definition xor_byte (x : Z) (b : byte) : byte := b8 (Z.lxor (u8 b) x).

(** [hmac_pads]: the zero-filled key block under the two masks. *)
Definition key_block (key : bytes) : bytes :=
  let k := if (kSha3_256RateBytes <? length key)%nat then sha3_256 key else key in
  k ++ repeat (b8 0) (kSha3_256RateBytes - length k).
Definition hmac_pads (key : bytes) : bytes * bytes :=
  (map (xor_byte 0x36) (key_block key), map (xor_byte 0x5c) (key_block key)).

Definition hmac_sha3_256 (key msg : bytes) : bytes :=
  let (ipad, opad) := hmac_pads key in
  let inner := sha3_256 (ipad ++ msg) in
  sha3_256 (opad ++ inner).

(** The expand loop; [counter] is a [uint8_t]. *)
Fixpoint expand_loop (fuel : nat) (ipad opad info : bytes) (okm_len : nat)
  (counter : Z) (t_prev okm : bytes) : bytes :=
  match fuel with
  | O => okm
  | S fuel =>
      if (length okm <? okm_len)%nat then
        let counter := w8 (counter + 1) in
        let inner := sha3_256 (ipad ++ (if 1 <? counter then t_prev else []) ++ info ++ [b8 counter]) in
        let t_curr := sha3_256 (opad ++ inner) in
        let remaining := (okm_len - length okm)%nat in
        let take := if (remaining <? kSha3_256DigestBytes)%nat then remaining else kSha3_256DigestBytes in
        expand_loop fuel ipad opad info okm_len counter t_curr (okm ++ firstn take t_curr)
      else okm
  end.

Definition hkdf_sha3_256_explicit (ikm salt info : bytes) (okm_len : nat) : option bytes :=
  if ((okm_len =? 0) || (255 * kSha3_256DigestBytes <? okm_len))%nat then None
  else
    let salt := if (length salt =? 0)%nat then repeat (b8 0) kSha3_256DigestBytes else salt in
    let prk := hmac_sha3_256 salt ikm in
    let (ipad, opad) := hmac_pads prk in
    Some (expand_loop 255 ipad opad info okm_len 0 [] []).

Definition hkdf_sha3_256 (ikm info : bytes) : bytes :=
  match hkdf_sha3_256_explicit ikm [] info 32 with
  | Some okm => okm
  | None => repeat (b8 0) 32
  end.

(** ** RFC 5869 *)

(** [T(0)] is empty, [T(i) = HMAC(PRK, T(i-1) || info || i)]. *)
Fixpoint hkdf_T (prk info : bytes) (i : nat) : bytes :=
  match i with
  | O => []
  | S j => hmac_sha3_256 prk (hkdf_T prk info j ++ info ++ [b8 (Z.of_nat i)])
  end.
Definition hkdf_blocks (prk info : bytes) (n : nat) : bytes := concat (map (hkdf_T prk info) (seq 1 n)).

Hypothesis sha3_256_size : forall x, length (sha3_256 x) = 32%nat.

Lemma hkdf_T_size prk info i : length (hkdf_T prk info (S i)) = 32%nat.
Proof. cbn [hkdf_T]. unfold hmac_sha3_256, hmac_pads. apply sha3_256_size. Qed.

Lemma hkdf_blocks_S prk info n :
  hkdf_blocks prk info (S n) = hkdf_blocks prk info n ++ hkdf_T prk info (S n).
Proof.
  unfold hkdf_blocks. rewrite seq_S, map_app, concat_app. cbn [map concat Nat.add]. now rewrite app_nil_r.
Qed.

Lemma hkdf_blocks_size prk info n : length (hkdf_blocks prk info n) = (32 * n)%nat.
Proof.
  induction n as [|n IH]; [reflexivity|]. rewrite hkdf_blocks_S, length_app, IH, hkdf_T_size. lia.
Qed.

(** Later blocks do not change the first ones. *)
Lemma hkdf_blocks_prefix prk info n k m : (k <= 32 * n)%nat -> (n <= m)%nat ->
  firstn k (hkdf_blocks prk info m) = firstn k (hkdf_blocks prk info n).
Proof.
  intros Hk Hm. induction Hm as [|m Hm IH]; [reflexivity|].
  rewrite hkdf_blocks_S, firstn_app, hkdf_blocks_size.
  replace (k - 32 * m)%nat with 0%nat by lia. now rewrite firstn_O, app_nil_r.
Qed.

Lemma expand_loop_spec prk info L fuel : forall c,
  (c + fuel = 255)%nat -> (32 * c <= L <= 32 * 255)%nat -> (0 < L)%nat ->
  expand_loop fuel (fst (hmac_pads prk)) (snd (hmac_pads prk)) info L (Z.of_nat c)
    (hkdf_T prk info c) (hkdf_blocks prk info c) = firstn L (hkdf_blocks prk info 255).
Proof.
  induction fuel as [|fuel IH]; intros c Hc HL Hpos; cbn [expand_loop].
  - replace c with 255%nat in * by lia. rewrite firstn_all2; [reflexivity|]. rewrite hkdf_blocks_size. lia.
  - rewrite hkdf_blocks_size. destruct (Nat.ltb_spec (32 * c) L) as [Hlt|Hge].
    2: { rewrite (hkdf_blocks_prefix prk info c L 255) by lia.
         rewrite firstn_all2; [reflexivity|]. rewrite hkdf_blocks_size. lia. }
    rewrite (wrap_small 8) by (unfold in_w; lia).
    set (t := sha3_256 _).
    assert (Ht : t = hkdf_T prk info (S c)).
    { subst t. cbn [hkdf_T]. unfold hmac_sha3_256. destruct (hmac_pads prk) as [ip op]. cbn [fst snd].
      replace (Z.of_nat c + 1) with (Z.of_nat (S c)) by lia. do 3 f_equal.
      destruct c; [reflexivity|]. destruct (Z.ltb_spec 1 (Z.of_nat (S (S c)))); [reflexivity|lia]. }
    rewrite Ht. unfold kSha3_256DigestBytes. destruct (Nat.ltb_spec (L - 32 * c) 32) as [Hp|Hf].
    + rewrite (hkdf_blocks_prefix prk info (S c) L 255), hkdf_blocks_S by lia.
      rewrite (firstn_app L), hkdf_blocks_size. rewrite (firstn_all2 (hkdf_blocks prk info c)) by (rewrite hkdf_blocks_size; lia).
      destruct fuel; cbn [expand_loop]; [reflexivity|].
      replace (_ <? L)%nat with false; [reflexivity|]. symmetry. apply Nat.ltb_ge.
      rewrite length_app, hkdf_blocks_size, length_firstn, hkdf_T_size. lia.
    + rewrite firstn_all2 by (rewrite hkdf_T_size; lia). rewrite <- hkdf_blocks_S.
      replace (Z.of_nat c + 1) with (Z.of_nat (S c)) by lia. apply IH; lia.
Qed.

Lemma hkdf_spec ikm salt info L : (0 < L <= 255 * 32)%nat ->
  hkdf_sha3_256_explicit ikm salt info L =
    Some (firstn L (hkdf_blocks
      (hmac_sha3_256 (if (length salt =? 0)%nat then repeat (b8 0) 32 else salt) ikm) info 255)).
Proof.
  intros HL. unfold hkdf_sha3_256_explicit, kSha3_256DigestBytes.
  replace ((L =? 0) || (255 * 32 <? L))%nat with false.
  2: { symmetry. apply orb_false_iff. split; [apply Nat.eqb_neq|apply Nat.ltb_ge]; lia. }
  set (prk := hmac_sha3_256 _ _). pose proof (expand_loop_spec prk info L 255 0) as E.
  destruct (hmac_pads prk) as [ip op]. cbn [fst snd] in E. change (Z.of_nat 0) with 0 in E.
  change (hkdf_T prk info 0) with (@nil byte) in E. change (hkdf_blocks prk info 0) with (@nil byte) in E.
  f_equal. apply E; lia.
Qed.

End PqHash.

(** HKDF-SHA3-256 is RFC 5869: for every admissible length the expand loop
    returns exactly the first L bytes of [T(1) || T(2) || ...] over the extracted
    key, and lengths outside [1, 255*32] are refused. *)
Theorem hkdf_rfc5869 (sha3_256 : bytes -> bytes) ikm salt info L :
  (forall x, length (sha3_256 x) = 32%nat) ->
  hkdf_sha3_256_explicit sha3_256 ikm salt info L =
    if ((L =? 0) || (255 * 32 <? L))%nat then None
    else Some (firstn L (hkdf_blocks sha3_256
      (hmac_sha3_256 sha3_256 (if (length salt =? 0)%nat then repeat (b8 0) 32 else salt) ikm) info 255)).
Proof.
  intros Hs. destruct ((L =? 0) || (255 * 32 <? L))%nat eqn:E.
  - unfold hkdf_sha3_256_explicit, kSha3_256DigestBytes. now rewrite E.
  - apply hkdf_spec; [assumption|]. apply orb_false_iff in E as [E1 E2]. apply Nat.eqb_neq in E1. apply Nat.ltb_ge in E2. lia.
Qed.

Definition sample_sha3 (b : bytes) : bytes := firstn 32 (rev b ++ repeat (b8 1) 32).
Lemma sample_sha3_size x : length (sample_sha3 x) = 32%nat.
Proof. unfold sample_sha3. rewrite length_firstn, length_app, length_rev, repeat_length. lia. Qed.

Lemma hkdf_rfc5869_witness :
  hkdf_sha3_256_explicit sample_sha3 [b8 1] [] [b8 2] 40 =
    Some (firstn 40 (hkdf_blocks sample_sha3 (hmac_sha3_256 sample_sha3 (repeat (b8 0) 32) [b8 1]) [b8 2] 255)).
Proof. exact (hkdf_rfc5869 sample_sha3 [b8 1] [] [b8 2] 40 sample_sha3_size). Defined.
