(* ===== verification/PqDerive.v ===== *)
(** * Consensus derivations

    [crypto_pq/PqDerive.cpp] and [.h]: the domain-separated SHA3-256 derivations
    (inputs hash, output context, spend commitment, nullifier, coinbase rho) and
    the two signing transcripts.  SHA3-256 is a parameter.  Every binding theorem
    has the form "the arguments are equal, or two different byte strings with the
    same SHA3-256 are exhibited". *)

From Stdlib Require Import ZArith String List Lia Bool.
From coqutil Require Import Byte Word.LittleEndianList.
From S2P Require Import Prelude PqHash.
Import ListNotations.
Open Scope Z_scope.
Open Scope discrete_scope.

Module PqDerive.

Definition kDomainInputsHash : bytes := str "discrete-pq-inputs-hash-v1".
Definition kDomainOutContext : bytes := str "discrete-pq-out-context-v1".
Definition kDomainOutContextV2 : bytes := str "discrete-pq-out-context-v2".
Definition kDomainAeadKey : bytes := str "discrete-pq-aead-key-v1".
Definition kDomainSpendCommit : bytes := str "discrete-pq-spend-commit-v1".
Definition kDomainNullifier : bytes := str "discrete-pq-nullifier-v1".
Definition kDomainTxSign : bytes := str "discrete-pq-tx-sign-v1".
Definition kDomainTxSignV2 : bytes := str "discrete-pq-tx-sign-v2".
Definition kDomainCoinbaseRho : bytes := str "discrete-coinbase-rho-v1".
Definition kReservedCtMask : bytes := str "discrete-pq-ct-mask-v1".
Definition kReservedShieldedSerial : bytes := str "discrete-pq-serial-v1".

Record InputRef := mkInputRef { ir_prevTxid : bytes; ir_prevOutIndex : Z }.

Record DigestInput := mkDigestInput {
  di_prevTxid : bytes;
  di_prevOutIndex : Z;
  di_authPub : bytes;
  di_rhoReveal : bytes;
  di_keyRef : Z
}.

Record DigestOutput := mkDigestOutput {
  do_type : Z;
  do_amount : Z;
  do_unlockHeight : Z;
  do_kemCt : bytes;
  do_encPayload : bytes;
  do_spendCommit : bytes
}.

Record UnsignedTx := mkUnsignedTx {
  u_version : Z;
  u_txType : Z;
  u_unlockHeight : Z;
  u_inputs : list DigestInput;
  u_outputs : list DigestOutput;
  u_extra : bytes;
  u_fee : Z
}.

(** [appendLe32], [appendLe64]: the bytes they push. *)
Definition le32 (v : Z) : bytes := le_split 4 v.
Definition le64 (v : Z) : bytes := le_split 8 v.

Section Derivations.
Variable sha3_256 : bytes -> bytes.

Definition input_ref_bytes (i : InputRef) : bytes := ir_prevTxid i ++ le32 (ir_prevOutIndex i).
Definition inputsHash (inputs : list InputRef) : bytes :=
  sha3_256 (kDomainInputsHash ++ flat_map input_ref_bytes inputs).

Definition outContext (inputsHash kemCt : bytes) (outputIndex : Z) : bytes :=
  sha3_256 (kDomainOutContextV2 ++ inputsHash ++ kemCt ++ le32 outputIndex).

Definition legacyOutContextV1 (inputsHash kemCt : bytes) (outputIndex subaddrIndexT : Z) : bytes :=
  sha3_256 (kDomainOutContext ++ inputsHash ++ kemCt ++ le32 outputIndex ++ le64 subaddrIndexT).

Definition deriveAeadKey (ss outContext : bytes) : bytes :=
  hkdf_sha3_256 sha3_256 ss (kDomainAeadKey ++ outContext).

Definition spendCommit (spendPub rho : bytes) : bytes :=
  sha3_256 (kDomainSpendCommit ++ spendPub ++ rho).

Definition nullifier (spendPub rho prevTxid : bytes) (prevOutIndex : Z) : bytes :=
  sha3_256 (kDomainNullifier ++ spendPub ++ rho ++ prevTxid ++ le32 prevOutIndex).

Definition coinbaseRho (spendPub : bytes) (height outputIndex : Z) : bytes :=
  sha3_256 (kDomainCoinbaseRho ++ spendPub ++ le32 height ++ le32 outputIndex).

(** [appendUnsignedTxBody] *)
Definition input_bytes (i : DigestInput) : bytes :=
  di_prevTxid i ++ le32 (di_prevOutIndex i) ++ di_authPub i ++ di_rhoReveal i.
Definition output_bytes (o : DigestOutput) : bytes :=
  [b8 (do_type o)] ++ le64 (do_amount o) ++ le64 (do_unlockHeight o) ++
  do_kemCt o ++ do_encPayload o ++ do_spendCommit o.
Definition unsignedTxBody (tx : UnsignedTx) : bytes :=
  [b8 (u_version tx)] ++ [b8 (u_txType tx)] ++ le64 (u_unlockHeight tx) ++
  le32 (Z.of_nat (length (u_inputs tx))) ++ flat_map input_bytes (u_inputs tx) ++
  le32 (Z.of_nat (length (u_outputs tx))) ++ flat_map output_bytes (u_outputs tx) ++
  le32 (Z.of_nat (length (u_extra tx))) ++ u_extra tx ++ le64 (u_fee tx).

Definition txSigningDigest (tx : UnsignedTx) : bytes :=
  sha3_256 (kDomainTxSign ++ unsignedTxBody tx).

Definition txSigningPrefixV2 (tx : UnsignedTx) (chainId : bytes) : bytes :=
  kDomainTxSignV2 ++ chainId ++ unsignedTxBody tx ++ flat_map (fun i => le32 (di_keyRef i)) (u_inputs tx).

Definition txSigningDigestV2 (tx : UnsignedTx) (chainId : bytes) (inputIndex : Z) : bytes :=
  sha3_256 (txSigningPrefixV2 tx chainId ++ le32 inputIndex).

(** [txSigningDigestsV2]: the shared prefix absorbed once, finished per index;
    the incremental hash of [prefix] then [index] is the hash of both. *)
Definition txSigningDigestsV2 (tx : UnsignedTx) (chainId : bytes) (inputIndices : list Z) : list bytes :=
  match inputIndices with
  | [] => []
  | _ =>
      let prefix := txSigningPrefixV2 tx chainId in
      map (fun index => sha3_256 (prefix ++ le32 index)) inputIndices
  end.

End Derivations.
End PqDerive.
Import PqDerive.

(** ** Framing

    A [Framed] encoder marks its own end: what is encoded (seen through [proj])
    and what follows are determined by the bytes. *)

Class Framed {A B} (wf : A -> Prop) (proj : A -> B) (enc : A -> bytes) : Prop :=
  framed : forall x y r r', wf x -> wf y -> enc x ++ r = enc y ++ r' -> proj x = proj y /\ r = r'.

Definition sized (n : nat) (b : bytes) : Prop := length b = n.

#[export] Instance framed_sized n : Framed (sized n) (fun b => b) (fun b => b).
Proof. intros x y r r' Hx Hy H. apply app_inj_len in H; [exact H|]. unfold sized in *. congruence. Qed.

#[export] Instance framed_le n : Framed (in_w (Z.of_nat n * 8)) (fun z => z) (le_split n).
Proof.
  intros x y r r' Hx Hy H. apply app_inj_len in H as [H ->]; [|now rewrite !length_le_split].
  split; [|reflexivity]. apply (f_equal le_combine) in H. rewrite !le_combine_split in H.
  unfold in_w in *. rewrite !Z.mod_small in H; assumption.
Qed.

#[export] Instance framed_byte : Framed (in_w 8) (fun z => z) (fun z => [b8 z]).
Proof.
  intros x y r r' Hx Hy H. injection H as H ->. split; [|reflexivity]. apply b8_inj; assumption.
Qed.

#[export] Instance framed_pair {A B A' B'} (wf : A -> Prop) (pr : A -> A') (e : A -> bytes)
  (wf2 : B -> Prop) (pr2 : B -> B') (e2 : B -> bytes) `{!Framed wf pr e} `{!Framed wf2 pr2 e2} :
  Framed (fun p => wf (fst p) /\ wf2 (snd p)) (fun p => (pr (fst p), pr2 (snd p)))
    (fun p => e (fst p) ++ e2 (snd p)).
Proof.
  intros [a b] [a' b'] r r' [H1 H2] [H3 H4] E. cbn in *. rewrite <- !app_assoc in E.
  apply (framed (enc := e)) in E as [E1 E]; [|assumption|assumption].
  apply (framed (enc := e2)) in E as [E2 ->]; [|assumption|assumption]. split; congruence.
Qed.

(** An encoder of a record is framed when it factors through a framed one. *)
Lemma framed_via {A B C D} (wf : A -> Prop) (proj : A -> B) (enc : A -> bytes)
  (wf' : C -> Prop) (proj' : C -> D) (enc' : C -> bytes) `{!Framed wf' proj' enc'} (view : A -> C) (back : D -> B) :
  (forall x, wf x -> wf' (view x)) -> (forall x, enc x = enc' (view x)) ->
  (forall x, proj x = back (proj' (view x))) -> Framed wf proj enc.
Proof.
  intros Hw He Hp x y r r' Hx Hy E. rewrite !He in E. apply (framed (enc := enc')) in E as [E ->]; auto.
  rewrite !Hp, E. auto.
Qed.

(** Lists of framed elements of known, equal length. *)
Lemma framed_flat {A B} (wf : A -> Prop) (proj : A -> B) (enc : A -> bytes) `{!Framed wf proj enc} l :
  forall l' r r', Forall wf l -> Forall wf l' -> length l = length l' ->
  flat_map enc l ++ r = flat_map enc l' ++ r' -> map proj l = map proj l' /\ r = r'.
Proof.
  induction l as [|x l IH]; intros [|y l'] r r' Hl Hl' Hn E; try discriminate; [auto|].
  inversion_clear Hl. inversion_clear Hl'. cbn [flat_map map] in *. rewrite <- !app_assoc in E.
  apply (framed (enc := enc)) in E as [E1 E]; [|assumption|assumption].
  injection Hn as Hn. apply IH in E as [E2 ->]; auto. split; congruence.
Qed.

(** Length-prefixed lists. *)
#[export] Instance framed_list {A B} (wf : A -> Prop) (proj : A -> B) (enc : A -> bytes) `{!Framed wf proj enc} :
  Framed (fun l => Forall wf l /\ Z.of_nat (length l) < 2 ^ 32) (map proj)
    (fun l => le32 (Z.of_nat (length l)) ++ flat_map enc l).
Proof.
  intros l l' r r' [H1 H2] [H3 H4] E. rewrite <- !app_assoc in E.
  apply (framed_le 4) in E as [E1 E]; [|unfold in_w; cbn; lia|unfold in_w; cbn; lia].
  apply (framed_flat wf proj enc) in E; auto. lia.
Qed.

(** Length-prefixed byte strings. *)
#[export] Instance framed_blob :
  Framed (fun b : bytes => Z.of_nat (length b) < 2 ^ 32) (fun b => b) (fun b => le32 (Z.of_nat (length b)) ++ b).
Proof.
  intros l l' r r' H1 H2 E. rewrite <- !app_assoc in E.
  apply (framed_le 4) in E as [E1 E]; [|unfold in_w; cbn; lia|unfold in_w; cbn; lia].
  apply app_inj_len in E; [exact E|lia].
Qed.

(** ** The transcript is framed *)

Definition wf_input (i : DigestInput) : Prop :=
  sized 32 (di_prevTxid i) /\ in_w 32 (di_prevOutIndex i) /\ sized 1952 (di_authPub i) /\
  sized 32 (di_rhoReveal i) /\ in_w 32 (di_keyRef i).
Definition wf_output (o : DigestOutput) : Prop :=
  in_w 8 (do_type o) /\ in_w 64 (do_amount o) /\ in_w 64 (do_unlockHeight o) /\ sized 1088 (do_kemCt o) /\
  sized 56 (do_encPayload o) /\ sized 32 (do_spendCommit o).
Definition wf_unsigned (tx : UnsignedTx) : Prop :=
  in_w 8 (u_version tx) /\ in_w 8 (u_txType tx) /\ in_w 64 (u_unlockHeight tx) /\
  (Forall wf_input (u_inputs tx) /\ Z.of_nat (length (u_inputs tx)) < 2 ^ 32) /\
  (Forall wf_output (u_outputs tx) /\ Z.of_nat (length (u_outputs tx)) < 2 ^ 32) /\
  Z.of_nat (length (u_extra tx)) < 2 ^ 32 /\ in_w 64 (u_fee tx).

(** What the version-1 body says of an input: everything but its key reference. *)
Definition erase_ref (i : DigestInput) : DigestInput :=
  mkDigestInput (di_prevTxid i) (di_prevOutIndex i) (di_authPub i) (di_rhoReveal i) 0.
Definition erase_refs (tx : UnsignedTx) : UnsignedTx :=
  mkUnsignedTx (u_version tx) (u_txType tx) (u_unlockHeight tx) (map erase_ref (u_inputs tx))
    (u_outputs tx) (u_extra tx) (u_fee tx).

(** The fields as nested pairs, the shape of the pair instance. *)

#[export] Instance framed_input : Framed wf_input erase_ref input_bytes.
Proof.
  eapply (framed_via wf_input erase_ref input_bytes _ _ _
    (Framed0 := framed_pair _ _ _ _ _ _ (Framed0 := framed_sized 32)
      (Framed1 := framed_pair _ _ _ _ _ _ (Framed0 := framed_le 4)
        (Framed1 := framed_pair _ _ _ _ _ _ (Framed0 := framed_sized 1952) (Framed1 := framed_sized 32))))
    (fun i => (di_prevTxid i, (di_prevOutIndex i, (di_authPub i, di_rhoReveal i))))
    (fun p => mkDigestInput (fst p) (fst (snd p)) (fst (snd (snd p))) (snd (snd (snd p))) 0)).
  - intros x (H1 & H2 & H3 & H4 & _). cbn. auto.
  - reflexivity.
  - reflexivity.
Qed.

#[export] Instance framed_output : Framed wf_output (fun o => o) output_bytes.
Proof.
  eapply (framed_via wf_output (fun o => o) output_bytes _ _ _
    (Framed0 := framed_pair _ _ _ _ _ _ (Framed0 := framed_byte)
      (Framed1 := framed_pair _ _ _ _ _ _ (Framed0 := framed_le 8)
        (Framed1 := framed_pair _ _ _ _ _ _ (Framed0 := framed_le 8)
          (Framed1 := framed_pair _ _ _ _ _ _ (Framed0 := framed_sized 1088)
            (Framed1 := framed_pair _ _ _ _ _ _ (Framed0 := framed_sized 56) (Framed1 := framed_sized 32))))))
    (fun o => (do_type o, (do_amount o, (do_unlockHeight o, (do_kemCt o, (do_encPayload o, do_spendCommit o))))))
    (fun p => mkDigestOutput (fst p) (fst (snd p)) (fst (snd (snd p))) (fst (snd (snd (snd p))))
                (fst (snd (snd (snd (snd p))))) (snd (snd (snd (snd (snd p))))))).
  - intros x (H1 & H2 & H3 & H4 & H5 & H6). cbn. auto 10.
  - reflexivity.
  - intros []. reflexivity.
Qed.

#[export] Instance framed_body : Framed wf_unsigned erase_refs unsignedTxBody.
Proof.
  eapply (framed_via wf_unsigned erase_refs unsignedTxBody _ _ _
    (Framed0 := framed_pair _ _ _ _ _ _ (Framed0 := framed_byte)
      (Framed1 := framed_pair _ _ _ _ _ _ (Framed0 := framed_byte)
        (Framed1 := framed_pair _ _ _ _ _ _ (Framed0 := framed_le 8)
          (Framed1 := framed_pair _ _ _ _ _ _ (Framed0 := framed_list wf_input erase_ref input_bytes)
            (Framed1 := framed_pair _ _ _ _ _ _ (Framed0 := framed_list wf_output (fun o => o) output_bytes)
              (Framed1 := framed_pair _ _ _ _ _ _ (Framed0 := framed_blob) (Framed1 := framed_le 8)))))))
    (fun t => (u_version t, (u_txType t, (u_unlockHeight t, (u_inputs t, (u_outputs t, (u_extra t, u_fee t)))))))
    (fun p => mkUnsignedTx (fst p) (fst (snd p)) (fst (snd (snd p))) (fst (snd (snd (snd p))))
                (fst (snd (snd (snd (snd p))))) (fst (snd (snd (snd (snd (snd p))))))
                (snd (snd (snd (snd (snd (snd p)))))))).
  - intros x (H1 & H2 & H3 & H4 & H5 & H6 & H7). cbn. auto 10.
  - intros x. unfold unsignedTxBody. cbn [fst snd]. rewrite <- !app_assoc. reflexivity.
  - intros []. unfold erase_refs. cbn. f_equal. now rewrite map_id.
Qed.

(** ** What is hashed *)

(** One call of one derivation. *)
Inductive derivation :=
| DInputs (l : list InputRef)
| DOutContext (ih ct : bytes) (i : Z)
| DOutContextV1 (ih ct : bytes) (i t : Z)
| DSpendCommit (sp rho : bytes)
| DNullifier (sp rho txid : bytes) (i : Z)
| DCoinbaseRho (sp : bytes) (h i : Z)
| DSign (tx : UnsignedTx)
| DSignV2 (tx : UnsignedTx) (chain : bytes) (i : Z).

(** The string a derivation hashes. *)
Definition hashed (d : derivation) : bytes :=
  match d with
  | DInputs l => kDomainInputsHash ++ flat_map input_ref_bytes l
  | DOutContext ih ct i => kDomainOutContextV2 ++ ih ++ ct ++ le32 i
  | DOutContextV1 ih ct i t => kDomainOutContext ++ ih ++ ct ++ le32 i ++ le64 t
  | DSpendCommit sp rho => kDomainSpendCommit ++ sp ++ rho
  | DNullifier sp rho txid i => kDomainNullifier ++ sp ++ rho ++ txid ++ le32 i
  | DCoinbaseRho sp h i => kDomainCoinbaseRho ++ sp ++ le32 h ++ le32 i
  | DSign tx => kDomainTxSign ++ unsignedTxBody tx
  | DSignV2 tx chain i => txSigningPrefixV2 tx chain ++ le32 i
  end.

Section Binding.
Variable sha3_256 : bytes -> bytes.

Definition derive (d : derivation) : bytes :=
  match d with
  | DInputs l => inputsHash sha3_256 l
  | DOutContext ih ct i => outContext sha3_256 ih ct i
  | DOutContextV1 ih ct i t => legacyOutContextV1 sha3_256 ih ct i t
  | DSpendCommit sp rho => spendCommit sha3_256 sp rho
  | DNullifier sp rho txid i => nullifier sha3_256 sp rho txid i
  | DCoinbaseRho sp h i => coinbaseRho sha3_256 sp h i
  | DSign tx => txSigningDigest sha3_256 tx
  | DSignV2 tx chain i => txSigningDigestV2 sha3_256 tx chain i
  end.

Lemma derive_hashed d : derive d = sha3_256 (hashed d).
Proof. destruct d; reflexivity. Qed.

Lemma domain_cancel (d x y : bytes) : d ++ x = d ++ y -> x = y.
Proof. apply app_inv_head. Qed.

Lemma nullifier_inj sp rho txid i sp' rho' txid' i' :
  sized 1952 sp -> sized 1952 sp' -> sized 32 rho -> sized 32 rho' -> sized 32 txid -> sized 32 txid' ->
  in_w 32 i -> in_w 32 i' ->
  nullifier sha3_256 sp rho txid i = nullifier sha3_256 sp' rho' txid' i' ->
  (sp = sp' /\ rho = rho' /\ txid = txid' /\ i = i') \/
  collides sha3_256 [hashed (DNullifier sp rho txid i); hashed (DNullifier sp' rho' txid' i')].
Proof.
  intros H1 H2 H3 H4 H5 H6 H7 H8 H. apply (hash_cases2 sha3_256) in H as [H|C]; [left|auto]. apply domain_cancel in H.
  apply (framed_sized 1952) in H as [-> H]; [|assumption..]. apply (framed_sized 32) in H as [-> H]; [|assumption..].
  apply (framed_sized 32) in H as [-> H]; [|assumption..].
  rewrite <- (app_nil_r (le32 i)), <- (app_nil_r (le32 i')) in H. apply (framed_le 4) in H as [-> _]; auto.
Qed.

Lemma spendCommit_inj sp rho sp' rho' : sized 1952 sp -> sized 1952 sp' ->
  spendCommit sha3_256 sp rho = spendCommit sha3_256 sp' rho' ->
  (sp = sp' /\ rho = rho') \/ collides sha3_256 [hashed (DSpendCommit sp rho); hashed (DSpendCommit sp' rho')].
Proof.
  intros H1 H2 H. apply (hash_cases2 sha3_256) in H as [H|C]; [left|auto]. apply domain_cancel in H.
  apply (framed_sized 1952) in H as [-> ->]; auto.
Qed.

Lemma digest_v1_inj t t' : wf_unsigned t -> wf_unsigned t' ->
  txSigningDigest sha3_256 t = txSigningDigest sha3_256 t' ->
  erase_refs t = erase_refs t' \/ collides sha3_256 [hashed (DSign t); hashed (DSign t')].
Proof.
  intros H1 H2 H. apply (hash_cases2 sha3_256) in H as [H|C]; [left|auto]. apply domain_cancel in H.
  rewrite <- (app_nil_r (unsignedTxBody t)), <- (app_nil_r (unsignedTxBody t')) in H.
  now apply framed_body in H as [H _].
Qed.

Lemma erase_and_refs l : forall l', map erase_ref l = map erase_ref l' -> map di_keyRef l = map di_keyRef l' -> l = l'.
Proof.
  induction l as [|[a b c d e] l IH]; intros [|[a' b' c' d' e'] l'] H1 H2; try discriminate; [reflexivity|].
  cbn in *. injection H1 as -> -> -> -> H1. injection H2 as -> H2. f_equal. auto.
Qed.

Lemma digest_v2_inj t chain i t' chain' i' : wf_unsigned t -> wf_unsigned t' ->
  sized 32 chain -> sized 32 chain' -> in_w 32 i -> in_w 32 i' ->
  txSigningDigestV2 sha3_256 t chain i = txSigningDigestV2 sha3_256 t' chain' i' ->
  (t = t' /\ chain = chain' /\ i = i') \/
  collides sha3_256 [hashed (DSignV2 t chain i); hashed (DSignV2 t' chain' i')].
Proof.
  intros H1 H2 H3 H4 H5 H6 H. apply (hash_cases2 sha3_256) in H as [H|C]; [left|auto].
  unfold txSigningPrefixV2 in H. rewrite <- !app_assoc in H. apply domain_cancel in H.
  apply (framed_sized 32) in H as [-> H]; [|assumption..].
  apply framed_body in H as [He H]; [|assumption..].
  assert (Hrefs : forall u, wf_unsigned u -> Forall (in_w 32) (map di_keyRef (u_inputs u))).
  { intros u (_ & _ & _ & [Hi _] & _). apply Forall_map. eapply Forall_impl; [|exact Hi]. intros a Ha. apply Ha. }
  assert (Hm : forall l, flat_map (fun i => le32 (di_keyRef i)) l = flat_map le32 (map di_keyRef l)).
  { induction l as [|x l IH]; cbn; [reflexivity|]. now rewrite IH. }
  rewrite !Hm in H.
  assert (Hl : length (u_inputs t) = length (u_inputs t')).
  { apply (f_equal (fun u => length (u_inputs u))) in He. cbn in He. now rewrite !length_map in He. }
  apply (framed_flat (in_w 32) (fun z => z) le32 (Framed0 := framed_le 4)) in H as [Hk H];
    [|now apply Hrefs|now apply Hrefs|now rewrite !length_map].
  rewrite !map_id in Hk.
  rewrite <- (app_nil_r (le32 i)), <- (app_nil_r (le32 i')) in H. apply (framed_le 4) in H as [-> _]; [|assumption..].
  split; [|auto]. destruct t, t'. unfold erase_refs in He. cbn in *. injection He as -> -> -> Hin -> -> ->.
  f_equal. now apply erase_and_refs.
Qed.

Lemma coinbaseRho_inj sp h i sp' h' i' : sized 1952 sp -> sized 1952 sp' ->
  in_w 32 h -> in_w 32 h' -> in_w 32 i -> in_w 32 i' ->
  coinbaseRho sha3_256 sp h i = coinbaseRho sha3_256 sp' h' i' ->
  (sp = sp' /\ h = h' /\ i = i') \/
  collides sha3_256 [hashed (DCoinbaseRho sp h i); hashed (DCoinbaseRho sp' h' i')].
Proof.
  intros H1 H2 H3 H4 H5 H6 H. apply (hash_cases2 sha3_256) in H as [H|C]; [left|auto]. apply domain_cancel in H.
  apply (framed_sized 1952) in H as [-> H]; [|assumption..]. apply (framed_le 4) in H as [-> H]; [|assumption..].
  rewrite <- (app_nil_r (le32 i)), <- (app_nil_r (le32 i')) in H. apply (framed_le 4) in H as [-> _]; auto.
Qed.

(** ** Domain separation *)

Definition domain_of (d : derivation) : bytes :=
  match d with
  | DInputs _ => kDomainInputsHash
  | DOutContext _ _ _ => kDomainOutContextV2
  | DOutContextV1 _ _ _ _ => kDomainOutContext
  | DSpendCommit _ _ => kDomainSpendCommit
  | DNullifier _ _ _ _ => kDomainNullifier
  | DCoinbaseRho _ _ _ => kDomainCoinbaseRho
  | DSign _ => kDomainTxSign
  | DSignV2 _ _ _ => kDomainTxSignV2
  end.

Lemma hashed_domain d : exists x, hashed d = domain_of d ++ x.
Proof. destruct d; eexists; reflexivity. Qed.

(** Is one string the beginning of the other? *)
Fixpoint diverge (a b : bytes) : bool :=
  match a, b with
  | x :: a, y :: b => negb (Byte.eqb x y) || diverge a b
  | _, _ => false
  end.

Lemma diverge_app a : forall b x y, diverge a b = true -> a ++ x <> b ++ y.
Proof.
  induction a as [|c a IH]; intros [|d b] x y H; try discriminate. cbn in *. intros E. injection E as -> E.
  apply orb_true_iff in H as [H|H]; [|exact (IH _ _ _ H E)].
  apply negb_true_iff in H. rewrite (proj2 (byte_eqb_eq d d) eq_refl) in H. discriminate.
Qed.

Lemma domains_diverge a b : domain_of a = domain_of b \/ diverge (domain_of a) (domain_of b) = true.
Proof. destruct a, b; first [left; reflexivity | right; reflexivity]. Qed.

End Binding.

(** ** Properties *)

(** Domain separation: values of two derivations with different domain tags
    are never equal unless SHA3-256 collides on the very strings hashed, so a nullifier cannot double as a
    commitment, a coinbase rho, an output context or a signing digest. *)
Theorem domain_separation sha3_256 a b :
  derive sha3_256 a = derive sha3_256 b ->
  domain_of a = domain_of b \/ (hashed a <> hashed b /\ sha3_256 (hashed a) = sha3_256 (hashed b)).
Proof.
  intros H. destruct (domains_diverge a b) as [E|D]; [auto|right]. rewrite !derive_hashed in H. split; [|exact H].
  destruct (hashed_domain a) as [x ->]. destruct (hashed_domain b) as [y ->]. now apply diverge_app.
Qed.

Lemma domain_separation_witness :
  domain_of (DSpendCommit [] []) = domain_of (DSpendCommit [] []) \/
  (hashed (DSpendCommit [] []) <> hashed (DSpendCommit [] []) /\
   hashed (DSpendCommit [] []) = hashed (DSpendCommit [] [])).
Proof. apply (domain_separation (fun x => x) (DSpendCommit [] []) (DSpendCommit [] [])). reflexivity. Defined.

(** C25: The nullifier and the spend commitment bind what they commit to: equal
    nullifiers come from the same key, rho and outpoint, and equal commitments
    from the same key and rho, unless SHA3-256 collides
    on the very strings hashed. *)
Theorem nullifier_commitment_binding sha3_256 sp rho txid i sp' rho' txid' i' :
  sized 1952 sp -> sized 1952 sp' -> sized 32 rho -> sized 32 rho' -> sized 32 txid -> sized 32 txid' ->
  in_w 32 i -> in_w 32 i' ->
  (nullifier sha3_256 sp rho txid i = nullifier sha3_256 sp' rho' txid' i' ->
     (sp = sp' /\ rho = rho' /\ txid = txid' /\ i = i') \/
     collides sha3_256 [hashed (DNullifier sp rho txid i); hashed (DNullifier sp' rho' txid' i')]) /\
  (spendCommit sha3_256 sp rho = spendCommit sha3_256 sp' rho' ->
     (sp = sp' /\ rho = rho') \/
     collides sha3_256 [hashed (DSpendCommit sp rho); hashed (DSpendCommit sp' rho')]).
Proof.
  intros. split; [apply nullifier_inj; assumption | apply spendCommit_inj; assumption].
Qed.

Lemma nullifier_commitment_binding_witness :
  let sp := repeat (b8 1) 1952 in let z := repeat (b8 2) 32 in
  (sp = sp /\ z = z /\ z = z /\ 7 = 7) \/
  collides (fun x => x) [hashed (DNullifier sp z z 7); hashed (DNullifier sp z z 7)].
Proof.
  intros sp z. apply (nullifier_commitment_binding (fun x => x) sp z z 7 sp z z 7); try apply repeat_length; easy.
Defined.

(** C24: The version-2 signing digest fixes everything a signature should: equal
    digests mean the same transaction body (key references included), the same
    chain and the same input position, unless SHA3-256 collides
    on the very strings hashed. *)
Theorem signing_digest_v2_binding sha3_256 t chain i t' chain' i' :
  wf_unsigned t -> wf_unsigned t' -> sized 32 chain -> sized 32 chain' -> in_w 32 i -> in_w 32 i' ->
  txSigningDigestV2 sha3_256 t chain i = txSigningDigestV2 sha3_256 t' chain' i' ->
  (t = t' /\ chain = chain' /\ i = i') \/
  collides sha3_256 [hashed (DSignV2 t chain i); hashed (DSignV2 t' chain' i')].
Proof. apply digest_v2_inj. Qed.

Definition sample_unsigned : UnsignedTx :=
  mkUnsignedTx 1 1 0 [mkDigestInput (repeat (b8 3) 32) 0 (repeat (b8 4) 1952) (repeat (b8 5) 32) 0xFFFFFFFF]
    [mkDigestOutput 16 100 0 (repeat (b8 6) 1088) (repeat (b8 7) 56) (repeat (b8 8) 32)] [] 5.
Lemma sample_unsigned_wf : wf_unsigned sample_unsigned.
Proof. repeat constructor; easy. Qed.

Lemma signing_digest_v2_binding_witness :
  (sample_unsigned = sample_unsigned /\ repeat (b8 9) 32 = repeat (b8 9) 32 /\ 0 = 0) \/
  collides (fun x => x) [hashed (DSignV2 sample_unsigned (repeat (b8 9) 32) 0); hashed (DSignV2 sample_unsigned (repeat (b8 9) 32) 0)].
Proof.
  apply (signing_digest_v2_binding (fun x => x) sample_unsigned (repeat (b8 9) 32) 0
           sample_unsigned (repeat (b8 9) 32) 0 sample_unsigned_wf sample_unsigned_wf); easy.
Defined.

(** The version-1 digest fixes the whole transaction body (subtype, locks,
    inputs, outputs, extra, fee) up to key references, unless SHA3-256 collides
    on the very strings hashed;
    key references are exactly what it does not see. *)
Theorem signing_digest_v1_binding sha3_256 t t' : wf_unsigned t -> wf_unsigned t' ->
  (txSigningDigest sha3_256 t = txSigningDigest sha3_256 t' -> 
   erase_refs t = erase_refs t' \/ collides sha3_256 [hashed (DSign t); hashed (DSign t')]) /\
  (erase_refs t = erase_refs t' -> txSigningDigest sha3_256 t = txSigningDigest sha3_256 t').
Proof.
  intros H1 H2. split; [apply digest_v1_inj; assumption|].
  intros H. unfold txSigningDigest. do 2 f_equal. unfold unsignedTxBody.
  assert (Hb : forall l, flat_map input_bytes l = flat_map input_bytes (map erase_ref l)).
  { induction l as [|x l IH]; cbn; [reflexivity|]. now rewrite IH. }
  destruct t, t'. unfold erase_refs in H. cbn in *. injection H as -> -> -> Hin -> -> ->.
  assert (Hlen : length u_inputs0 = length u_inputs1).
  { apply (f_equal (@length _)) in Hin. now rewrite !length_map in Hin. }
  now rewrite Hlen, (Hb u_inputs0), (Hb u_inputs1), Hin.
Qed.

Lemma signing_digest_v1_binding_witness :
  erase_refs sample_unsigned = erase_refs sample_unsigned \/
  collides (fun x => x) [hashed (DSign sample_unsigned); hashed (DSign sample_unsigned)].
Proof.
  apply (proj1 (signing_digest_v1_binding (fun x => x) sample_unsigned sample_unsigned sample_unsigned_wf sample_unsigned_wf)).
  reflexivity.
Defined.
