(* ===== verification/PqValidation.v ===== *)
(** * Consensus validation of PQ transactions

    [CryptoNoteCore/PqValidation.cpp]: the context-free shape check of a PQ
    transfer, the input check (ownership, nullifiers, balance, fee, signatures)
    and the free-registration checks.  The chain lookups arrive as
    [PqResolvedInput]s, as in the code.  ML-DSA verification, SHA3-256 and
    yespower are parameters.  An error is the message the code reports; a
    [boost::get] of the wrong alternative throws and is the error ["bad_get"]. *)

From Stdlib Require Import ZArith String List Lia Bool.
From coqutil Require Import Byte Word.LittleEndianList.
From S2P Require Import Prelude Config Varint Wire Transaction Extra PqHash PqDerive.
Import ListNotations.
Open Scope string_scope.
Open Scope list_scope.
Open Scope Z_scope.
Open Scope discrete_scope.
Import Serialization TransactionExtra PqDerive.

Module PqValidation.

Record PqResolvedInput := mkPqResolvedInput {
  r_spendCommit : bytes;
  r_amount : Z;
  r_exists : bool;
  r_isPqOutput : bool;
  r_isCoinbase : bool
}.

Record PqSigningContext := mkPqSigningContext {
  useV2 : bool;
  chainId : bytes;
  groupedAuth : bool;
  ctx_txType : Z
}.

Definition pqInputFieldsValid (i : PqInput) : bool :=
  (len (authPub i) =? PQ_AUTH_PUB_SIZE) && (len (rhoReveal i) =? PQ_RHO_SIZE).
Definition pqOutputFieldsValid (o : PqOutput) : bool :=
  (len (kemCt o) =? PQ_KEM_CIPHERTEXT_SIZE) && (len (encPayload o) =? PQ_ENC_PAYLOAD_SIZE).

(** [boost::get<PqInput>], [boost::get<PqOutput>] *)
Definition get_PqInput (i : TransactionInput) : result string PqInput :=
  match i with InPq k => Ok k | InBase _ => Err "bad_get" end.
Definition get_PqOutput (t : TransactionOutputTarget) : result string PqOutput :=
  match t with OutPq o => Ok o | _ => Err "bad_get" end.

Fixpoint traverse {A B} (f : A -> result string B) (l : list A) : result string (list B) :=
  match l with
  | [] => Ok []
  | x :: l => let* y := f x in let* t := traverse f l in Ok (y :: t)
  end.

(** [pqUnsignedTx]; the fixed-size copies are of fields already checked. *)
Definition digest_input (i : TransactionInput) : result string DigestInput :=
  let* k := get_PqInput i in
  Ok (mkDigestInput (prevTxid k) (prevOutIndex k) (authPub k) (rhoReveal k) (keyRef k)).
Definition digest_output (o : TransactionOutput) : result string DigestOutput :=
  let* p := get_PqOutput (target o) in
  Ok (mkDigestOutput 0x10 (amount o) (out_unlockHeight o) (kemCt p) (encPayload p) (pq_spendCommit p)).
Definition pqUnsignedTx (tx : Transaction) (fee : Z) : result string UnsignedTx :=
  let p := prefix tx in
  let* ins := traverse digest_input (inputs p) in
  let* outs := traverse digest_output (outputs p) in
  Ok (mkUnsignedTx (version p) (txType p) (unlockHeight p) ins outs (extra p) fee).

Section Validation.
Variable sha3_256 : bytes -> bytes.
Variable dsa_verify : bytes -> bytes -> bytes -> bool.            (** key, message, signature *)
Variable y_slow_hash : bytes -> bytes -> option bytes.            (** data, seed *)

Definition pqNullifier (i : PqInput) : bytes :=
  if negb (pqInputFieldsValid i) then repeat (b8 0) 32
  else nullifier sha3_256 (authPub i) (rhoReveal i) (prevTxid i) (prevOutIndex i).

(** ** [checkPqTransactionSemantic] *)

(** The input loop: [before] are [tx.inputs[0..i)]; returns [keyInputs]. *)
Fixpoint semantic_inputs (before rest : list TransactionInput) (keyInputs : Z) : result string Z :=
  match rest with
  | [] => Ok keyInputs
  | x :: rest =>
      match x with
      | InBase _ => Err "TX_PQ input is not a PqInput"
      | InPq i =>
          check pqInputFieldsValid i else "PqInput field has wrong length" ;;
          if keyRef i =? PQ_NO_KEY_REF then semantic_inputs (before ++ [x]) rest (keyInputs + 1)
          else
            check negb (Z.of_nat (length before) <=? keyRef i)
              else "PqInput key reference does not name an earlier input" ;;
            let* t := get_PqInput (nth (Z.to_nat (keyRef i)) before (InBase (mkBaseInput 0))) in
            check keyRef t =? PQ_NO_KEY_REF else "PqInput key reference names another key reference" ;;
            check authPub i ==b authPub t else "PqInput key reference does not match the referenced key" ;;
            semantic_inputs (before ++ [x]) rest keyInputs
      end
  end.

Fixpoint semantic_outputs (outs : list TransactionOutput) : result string unit :=
  match outs with
  | [] => Ok tt
  | o :: outs =>
      match target o with
      | OutPq p =>
          check negb (amount o =? 0) else "PQ output with zero amount" ;;
          check pqOutputFieldsValid p else "PqOutput field has wrong length" ;;
          semantic_outputs outs
      | _ => Err "TX_PQ output is not a PqOutput"
      end
  end.

(** [toBinaryArray(tx).size()]: when serialization throws (only the version can
    still do that) the bytes written before count; that is the version varint. *)
Definition serialized_size (tx : Transaction) : Z :=
  match toBinaryArray tx_codec tx with
  | Some b => len b
  | None => len (StreamTools.writeVarint (version (prefix tx)))
  end.

Definition checkPqTransactionSemantic (tx : Transaction) : result string unit :=
  let p := prefix tx in
  check isPqTransfer (txType p) else "not a PQ transfer subtype" ;;
  check negb ((Z.of_nat (length (inputs p)) =? 0) || (Z.of_nat (length (outputs p)) =? 0))
    else "TX_PQ with empty inputs or outputs" ;;
  check negb (parameters.MAX_PQ_GROUPED_INPUTS_PER_TX <? Z.of_nat (length (inputs p)))
    else "too many PQ inputs" ;;
  check negb (parameters.MAX_PQ_OUTPUTS_PER_TX <? Z.of_nat (length (outputs p)))
    else "too many PQ outputs" ;;
  check unlockHeight p =? 0 else "PQ tx must have unlockHeight == 0" ;;
  let* keyInputs := semantic_inputs [] (inputs p) 0 in
  check negb (parameters.MAX_PQ_INPUTS_PER_TX <? keyInputs) else "too many key-carrying PQ inputs" ;;
  check Z.of_nat (length (pqSignatures tx)) =? keyInputs
    else "pqSignatures count must equal the key-carrying input count" ;;
  check negb (parameters.MAX_EXTRA_SIZE_PQ <? len (extra p)) else "tx_extra exceeds MAX_EXTRA_SIZE_PQ" ;;
  let* _ := semantic_outputs (outputs p) in
  check negb (parameters.MAX_PQ_TX_SIZE <? serialized_size tx) else "PQ tx exceeds MAX_PQ_TX_SIZE" ;;
  Ok tt.

(** ** [checkPqTransactionInputs] *)

Definition pqTransferTypeForHeight (height deliveryV2Height : Z) : Z :=
  if deliveryV2Height <=? height then TX_PQ_V2 else TX_PQ.

Definition pqSigningContextForHeight (height : Z) (genesisId : bytes) : PqSigningContext :=
  mkPqSigningContext (parameters.PQ_TRANSCRIPT_V2_HEIGHT <=? height) genesisId
    (parameters.PQ_GROUPED_AUTH_HEIGHT <=? height) TX_PQ.

(** The authorization structure: the indices of the key-carrying inputs. *)
Fixpoint signers_loop (keyRefsAllowed : bool) (before rest : list TransactionInput) : result string (list Z) :=
  match rest with
  | [] => Ok []
  | x :: rest =>
      match x with
      | InBase _ => Err "TX_PQ input is not a PqInput"
      | InPq i =>
          if keyRef i =? PQ_NO_KEY_REF then
            let* l := signers_loop keyRefsAllowed (before ++ [x]) rest in
            Ok (w32 (Z.of_nat (length before)) :: l)
          else
            check keyRefsAllowed else "key-reference inputs are not active at this height" ;;
            check negb (Z.of_nat (length before) <=? keyRef i)
              else "key reference does not name an earlier input" ;;
            let* t := get_PqInput (nth (Z.to_nat (keyRef i)) before (InBase (mkBaseInput 0))) in
            check (keyRef t =? PQ_NO_KEY_REF) && (authPub t ==b authPub i)
              else "key reference does not match a key-carrying input" ;;
            signers_loop keyRefsAllowed (before ++ [x]) rest
      end
  end.

(** The per-input loop; [computed] holds the nullifiers so far, [nullifiers] is
    the set of the same. *)
Fixpoint inputs_loop (ins : list TransactionInput) (resolved : list PqResolvedInput)
  (computed : list bytes) (sumIn : Z) : result string (list bytes * Z) :=
  match ins, resolved with
  | x :: ins, r :: resolved =>
      let* i := get_PqInput x in
      check pqInputFieldsValid i else "PqInput field has wrong length" ;;
      check r_exists r else "referenced output does not exist" ;;
      check r_isPqOutput r else "referenced output is not spendable by a PQ input" ;;
      check spendCommit sha3_256 (authPub i) (rhoReveal i) ==b r_spendCommit r else "spend_commit mismatch" ;;
      let nf := pqNullifier i in
      check negb (existsb (bytes_eqb nf) computed) else "duplicate nullifier within transaction" ;;
      check negb (w64 (sumIn + r_amount r) <? sumIn) else "input amount overflow" ;;
      inputs_loop ins resolved (computed ++ [nf]) (w64 (sumIn + r_amount r))
  | _, _ => Ok (computed, sumIn)
  end.

Fixpoint outputs_loop (outs : list TransactionOutput) (sumOut : Z) : result string Z :=
  match outs with
  | [] => Ok sumOut
  | o :: outs =>
      check negb (w64 (sumOut + amount o) <? sumOut) else "output amount overflow" ;;
      outputs_loop outs (w64 (sumOut + amount o))
  end.

Fixpoint verify_loop (ins : list TransactionInput) (signers : list Z) (digests sigs : list bytes)
  : result string unit :=
  match signers, digests, sigs with
  | k :: signers, d :: digests, sig :: sigs =>
      let* i := get_PqInput (nth (Z.to_nat k) ins (InBase (mkBaseInput 0))) in
      check dsa_verify (authPub i) d sig else "ML-DSA signature verification failed" ;;
      verify_loop ins signers digests sigs
  | _, _, _ => Ok tt
  end.

Definition signing_digests (signing : PqSigningContext) (u : UnsignedTx) (signers : list Z) : list bytes :=
  if useV2 signing then txSigningDigestsV2 sha3_256 u (chainId signing) signers
  else repeat (txSigningDigest sha3_256 u) (length signers).

Definition checkPqTransactionInputs (tx : Transaction) (resolved : list PqResolvedInput) (minFee : Z)
  (signing : PqSigningContext) : result string (list bytes) :=
  let p := prefix tx in
  check Z.of_nat (length resolved) =? Z.of_nat (length (inputs p)) else "resolved inputs size mismatch" ;;
  let keyRefsAllowed := groupedAuth signing && useV2 signing in
  let* signers := signers_loop keyRefsAllowed [] (inputs p) in
  check Z.of_nat (length (pqSignatures tx)) =? Z.of_nat (length signers)
    else "pqSignatures count must equal the key-carrying input count" ;;
  let* (computed, sumIn) := inputs_loop (inputs p) resolved [] 0 in
  let* sumOut := outputs_loop (outputs p) 0 in
  check negb (sumIn <? sumOut) else "outputs exceed inputs" ;;
  let fee := sumIn - sumOut in
  check (minFee =? 0) || negb (fee <? parameters.pqTxFeeFloor minFee (len (extra p))) else "fee below minimum" ;;
  let* u := pqUnsignedTx tx fee in
  let* _ := verify_loop (inputs p) signers (signing_digests signing u signers) (pqSignatures tx) in
  Ok computed.

(** ** Free registration *)

Definition FREE_REG_POW_DOMAIN : bytes := str "discrete-pq-free-reg-pow-v1".

Definition freeRegPreimage (viewPub spendPub refBlockHash : bytes) (nonce : Z) : bytes :=
  FREE_REG_POW_DOMAIN ++ viewPub ++ spendPub ++ refBlockHash ++ le_split 8 nonce.

(** The leading eight bytes, big endian. *)
Definition lead (h : bytes) : Z :=
  fold_left (fun lead b => Z.lor (w64 (Z.shiftl lead 8)) (u8 b)) (firstn 8 h) 0.

Definition checkFreeRegPow (viewPub spendPub refBlockHash : bytes) (nonce target : Z) : bool :=
  match y_slow_hash (freeRegPreimage viewPub spendPub refBlockHash nonce) (repeat (b8 0) 32) with
  | None => false
  | Some h => lead h <=? target
  end.

Fixpoint freereg_fields (fields : list TransactionExtraField) (regCount powCount : Z) : result string (Z * Z) :=
  match fields with
  | [] => Ok (regCount, powCount)
  | f :: fields =>
      match f with
      | PqAccountRegistration _ _ => freereg_fields fields (regCount + 1) powCount
      | Pow _ _ => freereg_fields fields regCount (powCount + 1)
      | _ => Err "TX_FREE_REG: unexpected tx_extra field"
      end
  end.

Definition checkFreeRegTransactionShape (tx : Transaction) : result string unit :=
  let p := prefix tx in
  check txType p =? TX_FREE_REG else "not a TX_FREE_REG subtype" ;;
  check (Z.of_nat (length (inputs p)) =? 0) && (Z.of_nat (length (outputs p)) =? 0)
    else "TX_FREE_REG must have no inputs or outputs" ;;
  check Z.of_nat (length (pqSignatures tx)) =? 0 else "TX_FREE_REG must not carry pqSignatures" ;;
  check unlockHeight p =? 0 else "TX_FREE_REG must have unlockHeight == 0" ;;
  let (ok, fields) := parseTransactionExtra (extra p) in
  check ok else "TX_FREE_REG: malformed tx_extra" ;;
  let* (regCount, powCount) := freereg_fields fields 0 0 in
  check (regCount =? 1) && (powCount =? 1)
    else "TX_FREE_REG must have exactly one registration and one PoW tag" ;;
  check isPowTagLastField (extra p) else "TX_FREE_REG: PoW tag is not the final tx_extra field" ;;
  Ok tt.

(** [checkFreeRegTransactionPow], with the evaluation counter it increments. *)
Definition checkFreeRegTransactionPow (tx : Transaction) (powTarget evaluations : Z)
  : result string unit * Z :=
  let evaluations := w64 (evaluations + 1) in
  match getPqAccountRegistrationFromExtra (extra (prefix tx)), getPowTagFromExtra (extra (prefix tx)) with
  | Some (viewPub, spendPub), Some (ref, nonce) =>
      if checkFreeRegPow viewPub spendPub ref nonce powTarget then (Ok tt, evaluations)
      else (Err "TX_FREE_REG: anti-spam PoW not satisfied", evaluations)
  | _, _ => (Err "TX_FREE_REG: missing registration or PoW tag", evaluations)
  end.

Definition checkFreeRegTransactionSemantic (tx : Transaction) (powTarget evaluations : Z)
  : result string unit * Z :=
  match checkFreeRegTransactionShape tx with
  | Ok _ => checkFreeRegTransactionPow tx powTarget evaluations
  | Err e => (Err e, evaluations)
  end.

End Validation.
End PqValidation.
Import PqValidation.

(** ** Structure of an accepted transfer *)

(** Input [i] (after [before]) is key-carrying, or its reference names an
    earlier key-carrying input with the same key. *)
Definition auth_ok (before : list TransactionInput) (x : TransactionInput) : Prop :=
  exists i, x = InPq i /\
    (keyRef i <> PQ_NO_KEY_REF ->
     exists t, 0 <= keyRef i < Z.of_nat (length before) /\
       nth_error before (Z.to_nat (keyRef i)) = Some (InPq t) /\
       keyRef t = PQ_NO_KEY_REF /\ authPub t = authPub i).

Definition structure_ok (ins : list TransactionInput) : Prop :=
  forall before x after, ins = before ++ x :: after -> auth_ok before x.

(** Wire inputs have non-negative references. *)
Definition refs_nonneg (ins : list TransactionInput) : Prop :=
  Forall (fun x => match x with InPq i => 0 <= keyRef i | InBase _ => True end) ins.

Lemma nth_get before k t :
  get_PqInput (nth k before (InBase (mkBaseInput 0))) = Ok t -> nth_error before k = Some (InPq t).
Proof.
  intros H. destruct (nth_error before k) as [y|] eqn:E.
  - rewrite (nth_error_nth _ _ _ E) in H. destruct y; cbn in H; [discriminate|]. inv_ok. reflexivity.
  - apply nth_error_None in E. rewrite nth_overflow in H by assumption. discriminate.
Qed.

Lemma signers_loop_structure allowed rest : forall before l,
  refs_nonneg rest -> signers_loop allowed before rest = Ok l ->
  forall b x a, rest = b ++ x :: a -> auth_ok (before ++ b) x.
Proof.
  induction rest as [|y rest IH]; intros before l Hn H b x a E; [destruct b; discriminate|].
  inversion_clear Hn as [|? ? Hy Hrest]. cbn [signers_loop] in H. destruct y as [|i]; [discriminate|].
  destruct b as [|z b]; injection E as <- E.
  - rewrite app_nil_r. exists i. split; [reflexivity|]. intros Hk. apply Z.eqb_neq in Hk. rewrite Hk in H.
    inv_bind H. inv_bind H. inv_bind H. inv_bind H. inv_guard. bprop. exists a2. apply nth_get in E2.
    repeat split; try assumption; try lia. now apply bytes_eqb_eq.
  - assert (Hex : exists l', signers_loop allowed (before ++ [InPq i]) rest = Ok l').
    { destruct (keyRef i =? PQ_NO_KEY_REF); [inv_bind H; eauto|].
      inv_bind H. inv_bind H. inv_bind H. inv_bind H. eauto. }
    destruct Hex as [l' Hl']. specialize (IH (before ++ [InPq i]) l' Hrest Hl' b x a E).
    rewrite <- app_assoc in IH. exact IH.
Qed.

(** The positions of the key-carrying inputs, from position [n] on. *)
Fixpoint key_positions (n : Z) (ins : list TransactionInput) : list Z :=
  match ins with
  | [] => []
  | x :: ins => if carries_key x then n :: key_positions (n + 1) ins else key_positions (n + 1) ins
  end.

Lemma signers_positions allowed rest : forall before l,
  Z.of_nat (length before + length rest) <= 2 ^ 32 -> signers_loop allowed before rest = Ok l ->
  l = key_positions (Z.of_nat (length before)) rest.
Proof.
  induction rest as [|x rest IH]; intros before l Hn H; cbn [signers_loop key_positions length] in *; [inv_ok; reflexivity|].
  destruct x as [|i]; [discriminate|]. cbn [carries_key].
  assert (Hl : Z.of_nat (length before) + 1 = Z.of_nat (length (before ++ [InPq i])))
    by (rewrite length_app; cbn [length]; lia).
  destruct (keyRef i =? PQ_NO_KEY_REF).
  - inv_bind H. inv_ok. rewrite wrap_small by (unfold in_w; lia). f_equal.
    rewrite Hl. apply IH; [rewrite length_app; cbn [length]; lia|assumption].
  - inv_bind H. inv_bind H. inv_bind H. inv_bind H.
    rewrite Hl. apply IH; [rewrite length_app; cbn [length]; lia|assumption].
Qed.

Lemma key_positions_in n ins : forall j x, nth_error ins j = Some x -> carries_key x = true ->
  exists k, nth_error (key_positions n ins) k = Some (n + Z.of_nat j).
Proof.
  revert n. induction ins as [|y ins IH]; intros n j x H Hx; [destruct j; discriminate|].
  cbn [key_positions]. destruct j as [|j]; cbn in H.
  - inv_ok. rewrite Hx. exists 0%nat. cbn. f_equal. lia.
  - destruct (IH (n + 1) j x H Hx) as [k Hk]. replace (n + Z.of_nat (S j)) with (n + 1 + Z.of_nat j) by lia.
    destruct (carries_key y); [exists (S k)|exists k]; exact Hk.
Qed.

(** ** The loops *)

Section Loops.
Variable sha3_256 : bytes -> bytes.
Variable dsa_verify : bytes -> bytes -> bytes -> bool.

(** What the per-input loop checks of an input and its referenced output. *)
Definition owned (i : PqInput) (r : PqResolvedInput) : Prop :=
  pqInputFieldsValid i = true /\ r_exists r = true /\ r_isPqOutput r = true /\
  r_spendCommit r = spendCommit sha3_256 (authPub i) (rhoReveal i).

Definition total (l : list Z) : Z := fold_right Z.add 0 l.

Lemma total_app a b : total (a ++ b) = total a + total b.
Proof. induction a as [|x a IH]; cbn; [reflexivity|]. unfold total in *. lia. Qed.

(** The overflow test of a running 64-bit sum is exact. *)
Lemma sum_step s a : in_w 64 s -> in_w 64 a -> negb (w64 (s + a) <? s) = true ->
  w64 (s + a) = s + a /\ in_w 64 (s + a).
Proof.
  unfold in_w, wrap. intros Hs Ha H. destruct (Z.lt_ge_cases (s + a) (2 ^ 64)).
  - rewrite Z.mod_small by lia. lia.
  - exfalso. replace (s + a) with (s + a - 2 ^ 64 + 1 * 2 ^ 64) in H by lia.
    rewrite Z.mod_add, Z.mod_small in H by lia. lia.
Qed.

Lemma inputs_loop_spec ins : forall resolved computed s computed' s',
  length resolved = length ins -> in_w 64 s -> Forall (fun r => in_w 64 (r_amount r)) resolved ->
  inputs_loop sha3_256 ins resolved computed s = Ok (computed', s') ->
  exists ks, ins = map InPq ks /\ Forall2 owned ks resolved /\
    computed' = computed ++ map (pqNullifier sha3_256) ks /\
    (NoDup computed -> NoDup computed') /\ s' = s + total (map r_amount resolved) /\ in_w 64 s'.
Proof.
  induction ins as [|x ins IH]; intros [|r resolved] computed s computed' s' Hl Hs Ha H; try discriminate;
    cbn [inputs_loop] in H.
  - inv_ok. exists []. cbn. rewrite app_nil_r, Z.add_0_r. repeat split; try apply Hs; auto.
  - inversion_clear Ha as [|? ? Hr Hrs]. inv_bind H. do 6 (inv_bind H). inv_guard.
    destruct x as [|i]; [discriminate|]. cbn in E. inv_ok.
    apply sum_step in G as [Hw Hi]; [|assumption|assumption]. rewrite Hw in H.
    apply IH in H as (ks & -> & Hf & -> & Hnd & -> & Hin); [|cbn in Hl; lia|assumption|assumption].
    exists (a :: ks). apply bytes_eqb_eq in G1. cbn [map total fold_right]. fold total. repeat split.
    + constructor; [|assumption]. repeat split; auto.
    + rewrite <- app_assoc. reflexivity.
    + intros Hc. apply Hnd. apply NoDup_app; [assumption|repeat constructor; auto|].
      intros z Hz [<-|[]]. apply negb_true_iff in G0.
      assert (existsb (bytes_eqb (pqNullifier sha3_256 a)) computed = true); [|congruence].
      apply existsb_exists. exists (pqNullifier sha3_256 a). split; [assumption|apply bytes_eqb_refl].
    + unfold total. lia.
    + apply Hin.
    + apply Hin.
Qed.

Lemma outputs_loop_spec outs : forall s s', in_w 64 s -> Forall (fun o => in_w 64 (amount o)) outs ->
  outputs_loop outs s = Ok s' -> s' = s + total (map amount outs).
Proof.
  induction outs as [|o outs IH]; intros s s' Hs Ha H; cbn [outputs_loop map total fold_right] in *.
  - inv_ok. lia.
  - inversion_clear Ha as [|? ? Ho Hos]. inv_bind H. inv_guard. apply sum_step in G as [Hw Hi]; [|assumption..].
    rewrite Hw in H. apply IH in H; [|assumption..]. unfold total in *. lia.
Qed.

Lemma verify_loop_spec ins signers : forall digests sigs k s d sig,
  verify_loop dsa_verify ins signers digests sigs = Ok tt ->
  nth_error signers k = Some s -> nth_error digests k = Some d -> nth_error sigs k = Some sig ->
  exists i, nth_error ins (Z.to_nat s) = Some (InPq i) /\ dsa_verify (authPub i) d sig = true.
Proof.
  induction signers as [|s0 signers IH]; intros [|d0 digests] [|g0 sigs] k s d sig H Hs Hd Hg;
    try (destruct k; discriminate).
  cbn [verify_loop] in H. inv_bind H. inv_bind H. inv_guard. destruct k as [|k]; cbn in Hs, Hd, Hg.
  - inv_ok. exists a. split; [now apply nth_get|assumption].
  - eapply IH; eassumption.
Qed.

(** The digest the signature of the input at position [s] is checked against. *)
Definition signing_digest (signing : PqSigningContext) (u : UnsignedTx) (s : Z) : bytes :=
  if useV2 signing then txSigningDigestV2 sha3_256 u (chainId signing) s else txSigningDigest sha3_256 u.

(** Absorbing the shared prefix once gives the per-index digests. *)
Lemma signing_digests_map signing u signers :
  signing_digests sha3_256 signing u signers = map (signing_digest signing u) signers.
Proof.
  unfold signing_digests, signing_digest. destruct (useV2 signing).
  - destruct signers; reflexivity.
  - induction signers as [|x l IH]; cbn; [reflexivity|]. now rewrite IH.
Qed.

(** The widths a transaction read from the wire and a resolved output have. *)
Record typed (tx : Transaction) (resolved : list PqResolvedInput) : Prop := {
  t_inputs : Z.of_nat (length (inputs (prefix tx))) <= 2 ^ 32;
  t_refs : refs_nonneg (inputs (prefix tx));
  t_outputs : Forall (fun o => in_w 64 (amount o)) (outputs (prefix tx));
  t_resolved : Forall (fun r => in_w 64 (r_amount r)) resolved
}.

(** An input is authorized: the key-carrying input at position [s] holds the same
    key, and its signature verifies under that key over the digest of the whole
    transaction at position [s]. *)
Definition authorized (signing : PqSigningContext) (u : UnsignedTx) (ks : list PqInput) (sigs : list bytes)
  (i : PqInput) : Prop :=
  exists s t k sig,
    nth_error ks s = Some t /\ keyRef t = PQ_NO_KEY_REF /\ authPub t = authPub i /\
    nth_error (key_positions 0 (map InPq ks)) k = Some (Z.of_nat s) /\
    nth_error sigs k = Some sig /\
    dsa_verify (authPub i) (signing_digest signing u (Z.of_nat s)) sig = true.

Lemma authorized_all signing u ks sigs :
  structure_ok (map InPq ks) ->
  length sigs = length (key_positions 0 (map InPq ks)) ->
  verify_loop dsa_verify (map InPq ks) (key_positions 0 (map InPq ks))
    (map (signing_digest signing u) (key_positions 0 (map InPq ks))) sigs = Ok tt ->
  Forall (authorized signing u ks sigs) ks.
Proof.
  intros Hst Hlen Hv. apply Forall_forall. intros i Hi. apply in_split in Hi as (b & a & ->).
  destruct (Hst (map InPq b) (InPq i) (map InPq a)) as (i' & E & Href); [now rewrite map_app|]. injection E as <-.
  assert (Hs : exists s t, nth_error (b ++ i :: a) s = Some t /\ keyRef t = PQ_NO_KEY_REF /\ authPub t = authPub i).
  { destruct (Z.eq_dec (keyRef i) PQ_NO_KEY_REF) as [Hk|Hk].
    - exists (length b), i. rewrite nth_error_app2, Nat.sub_diag by lia. auto.
    - destruct (Href Hk) as (t & Hr & Hn & Ht & Ha). exists (Z.to_nat (keyRef i)), t. rewrite length_map in Hr.
      rewrite nth_error_app1 by lia. rewrite nth_error_map in Hn.
      destruct (nth_error b (Z.to_nat (keyRef i))); [|discriminate]. injection Hn as ->. auto. }
  destruct Hs as (s & t & Hn & Ht & Ha). set (ks := b ++ i :: a) in *.
  assert (Hn' : nth_error (map InPq ks) s = Some (InPq t)) by (rewrite nth_error_map, Hn; reflexivity).
  destruct (key_positions_in 0 (map InPq ks) s (InPq t) Hn') as [k Hk]; [cbn; now apply Z.eqb_eq|].
  rewrite Z.add_0_l in Hk. destruct (nth_error sigs k) as [sig|] eqn:Es.
  2: { apply nth_error_None in Es. assert (k < length (key_positions 0 (map InPq ks)))%nat by
         (apply nth_error_Some; congruence). lia. }
  exists s, t, k, sig. repeat (split; [assumption|]).
  destruct (verify_loop_spec _ _ _ _ k (Z.of_nat s) (signing_digest signing u (Z.of_nat s)) sig Hv Hk) as (i' & Hi' & Hd);
    [rewrite nth_error_map, Hk; reflexivity|assumption|].
  rewrite Nat2Z.id, Hn' in Hi'. injection Hi' as <-. rewrite <- Ha. exact Hd.
Qed.

Lemma checkPqTransactionInputs_inv tx resolved minFee signing nfs : typed tx resolved ->
  checkPqTransactionInputs sha3_256 dsa_verify tx resolved minFee signing = Ok nfs ->
  exists ks fee u,
    inputs (prefix tx) = map InPq ks /\ structure_ok (map InPq ks) /\ Forall2 owned ks resolved /\
    nfs = map (pqNullifier sha3_256) ks /\ NoDup nfs /\
    total (map r_amount resolved) = total (map amount (outputs (prefix tx))) + fee /\ 0 <= fee /\
    (minFee = 0 \/ parameters.pqTxFeeFloor minFee (len (extra (prefix tx))) <= fee) /\
    in_w 64 (total (map r_amount resolved)) /\
    pqUnsignedTx tx fee = Ok u /\ Forall (authorized signing u ks (pqSignatures tx)) ks.
Proof.
  intros [Hti Htr Hto Htv] H. unfold checkPqTransactionInputs in H.
  inv_bind H. inv_bind H. inv_bind H. inv_bind H. destruct a2 as [computed sumIn]. cbn [bind] in H.
  inv_bind H. inv_bind H. inv_bind H. inv_bind H. inv_bind H. inv_guard. inv_ok. bprop.
  apply inputs_loop_spec in E2 as (ks & Hks & Hown & -> & Hnd & Hsum & Hin); [|lia|easy|assumption].
  apply outputs_loop_spec in E3; [|easy|assumption]. rewrite Z.add_0_l in Hsum, E3.
  pose proof (signers_positions _ (inputs (prefix tx)) [] a0 ltac:(cbn [length]; lia) E0) as Hp. cbn [length Z.of_nat] in Hp.
  pose proof (signers_loop_structure _ _ _ _ Htr E0) as Hst. cbn [app] in Hst.
  rewrite signing_digests_map in E7. subst a0. rewrite Hks in *. exists ks, (sumIn - a2), a5.
  rewrite Hsum in Hin. destruct a6. repeat split; try assumption; try lia; try apply Hin.
  - apply Hnd. constructor.
  - apply authorized_all; [assumption| |assumption]. lia.
Qed.

End Loops.

(** ** Shape of an accepted transfer *)

Definition fields_valid (x : TransactionInput) : Prop :=
  exists i, x = InPq i /\ pqInputFieldsValid i = true.

Lemma auth_ok_cons before x b y : auth_ok ((before ++ [x]) ++ b) y <-> auth_ok (before ++ x :: b) y.
Proof. now rewrite <- app_assoc. Qed.

(** A reference that passes the code's three tests is exactly a sound one. *)
Lemma ref_test before i : 0 <= keyRef i -> keyRef i <> PQ_NO_KEY_REF ->
  ((exists t, get_PqInput (nth (Z.to_nat (keyRef i)) before (InBase (mkBaseInput 0))) = Ok t /\
      negb (Z.of_nat (length before) <=? keyRef i) = true /\
      (keyRef t =? PQ_NO_KEY_REF) = true /\ (authPub i ==b authPub t) = true) <-> auth_ok before (InPq i)).
Proof.
  intros H0 Hk. split.
  - intros (t & Ht & Hl & Hr & Ha). exists i. split; [reflexivity|]. intros _. exists t. bprop.
    apply nth_get in Ht. apply bytes_eqb_eq in Ha. repeat split; auto; lia.
  - intros (i' & E & H). injection E as <-. destruct (H Hk) as (t & Hr & Hn & Ht & Ha). exists t.
    rewrite (nth_error_nth _ _ _ Hn). repeat split.
    + lia.
    + now apply Z.eqb_eq.
    + rewrite Ha. apply bytes_eqb_refl.
Qed.

Lemma semantic_inputs_iff rest : forall before n m, refs_nonneg rest ->
  semantic_inputs before rest n = Ok m <->
  m = n + Z.of_nat (pqCount rest) /\ Forall fields_valid rest /\
  forall b x a, rest = b ++ x :: a -> auth_ok (before ++ b) x.
Proof.
  induction rest as [|x rest IH]; intros before n m Hn; cbn [semantic_inputs].
  { split; [intros; inv_ok; cbn; repeat split; [lia|constructor|intros [|]; discriminate]|].
    intros (-> & _). cbn. f_equal. lia. }
  inversion_clear Hn as [|? ? Hx Hrest]. unfold pqCount in *. cbn [filter].
  destruct x as [g|i].
  { split; [discriminate|]. intros (_ & Hv & _). inversion_clear Hv as [|? ? (i & E & _)]. discriminate. }
  cbn [carries_key]. destruct (pqInputFieldsValid i) eqn:Ef; cbn [guard bind].
  2: { split; [discriminate|]. intros (_ & Hv & _). inversion_clear Hv as [|? ? (j & E & Hj)].
       injection E as <-. congruence. }
  assert (Hhead : (forall b y a, InPq i :: rest = b ++ y :: a -> auth_ok (before ++ b) y) <->
    auth_ok before (InPq i) /\ (forall b y a, rest = b ++ y :: a -> auth_ok ((before ++ [InPq i]) ++ b) y)).
  { split.
    - intros H. split; [rewrite <- (app_nil_r before); apply (H [] _ rest eq_refl)|].
      intros b y a ->. rewrite auth_ok_cons. apply (H (InPq i :: b) y a). reflexivity.
    - intros [H1 H2] [|z b] y a E; injection E as <- E; [now rewrite app_nil_r|].
      rewrite <- auth_ok_cons. eapply H2. exact E. }
  rewrite Hhead. assert (Hfv : Forall fields_valid (InPq i :: rest) <-> Forall fields_valid rest).
  { split; [intros H; now inversion H|]. intros H. constructor; [exists i; auto|exact H]. }
  rewrite Hfv. destruct (Z.eqb_spec (keyRef i) PQ_NO_KEY_REF) as [Hk|Hk].
  - rewrite IH by assumption. cbn [length]. assert (auth_ok before (InPq i)) by (exists i; tauto).
    rewrite Nat2Z.inj_succ. intuition lia.
  - pose proof (ref_test before i Hx Hk) as HR. rewrite <- HR. split.
    + intros H. inv_bind H. inv_bind H. inv_bind H. inv_bind H. inv_guard.
      apply IH in H as (-> & Hf & Ha); [|assumption]. repeat split; eauto.
    + intros (-> & Hf & (t & Ht & Hl & Hr & Ha) & Hrec). rewrite Hl, Ht. cbn [guard bind]. rewrite Hr, Ha.
      cbn [guard bind]. apply IH; auto.
Qed.

Definition output_ok_pq (o : TransactionOutput) : Prop :=
  exists p, target o = OutPq p /\ amount o <> 0 /\ pqOutputFieldsValid p = true.

Lemma semantic_outputs_iff outs : semantic_outputs outs = Ok tt <-> Forall output_ok_pq outs.
Proof.
  induction outs as [|o outs IH]; cbn [semantic_outputs]; [split; [constructor|reflexivity]|].
  destruct (target o) as [k|p|c] eqn:Et.
  1,3: split; [discriminate|]; intros H; inversion_clear H as [|? ? (q & E & _)]; congruence.
  destruct (Z.eqb_spec (amount o) 0) as [Ha|Ha]; cbn [negb guard bind].
  { split; [discriminate|]. intros H. inversion_clear H as [|? ? (q & _ & E & _)]. congruence. }
  destruct (pqOutputFieldsValid p) eqn:Ep; cbn [guard bind].
  - rewrite IH. split; [intros; constructor; [exists p; auto|assumption]|intros H; now inversion H].
  - split; [discriminate|]. intros H. inversion_clear H as [|? ? (q & E & _ & F)]. congruence.
Qed.

(** What the shape check promises. *)
Definition pq_shape (tx : Transaction) : Prop :=
  let p := prefix tx in
  isPqTransfer (txType p) = true /\
  1 <= Z.of_nat (length (inputs p)) <= 256 /\ 1 <= Z.of_nat (length (outputs p)) <= 64 /\
  unlockHeight p = 0 /\
  Forall fields_valid (inputs p) /\ structure_ok (inputs p) /\
  (pqCount (inputs p) <= 32)%nat /\ length (pqSignatures tx) = pqCount (inputs p) /\
  len (extra p) <= 4096 /\ Forall output_ok_pq (outputs p) /\ serialized_size tx <= 262144.

Lemma semantic_iff tx : refs_nonneg (inputs (prefix tx)) ->
  checkPqTransactionSemantic tx = Ok tt <-> pq_shape tx.
Proof.
  intros Hn. unfold checkPqTransactionSemantic, pq_shape, structure_ok.
  unfold parameters.MAX_PQ_GROUPED_INPUTS_PER_TX, parameters.MAX_PQ_OUTPUTS_PER_TX,
    parameters.MAX_PQ_INPUTS_PER_TX, parameters.MAX_EXTRA_SIZE_PQ.
  change parameters.MAX_PQ_TX_SIZE with 262144. cbv zeta. split.
  - intros H. do 5 inv_bind H. inv_bind H. do 3 inv_bind H. inv_bind H. inv_bind H. inv_guard. bprop.
    apply semantic_inputs_iff in E4 as (-> & Hf & Ha); [|assumption].
    match goal with U : semantic_outputs _ = Ok ?u |- _ => destruct u; apply semantic_outputs_iff in U end.
    repeat split; try assumption; try lia.
  - intros (H1 & H2 & H3 & H4 & H5 & H6 & H7 & H8 & H9 & H10 & H11). rewrite H1.
    assert (Hi : semantic_inputs [] (inputs (prefix tx)) 0 = Ok (Z.of_nat (pqCount (inputs (prefix tx))))).
    { apply semantic_inputs_iff; [assumption|]. repeat split; auto. }
    rewrite (proj2 (semantic_outputs_iff _) H10), Hi.
    rewrite (proj2 (Z.eqb_eq _ _) H4).
    repeat match goal with
    | |- context [guard ?b _] => replace b with true by lia; cbn [guard bind]
    end. reflexivity.
Qed.

(** ** No output spent twice *)

Definition outpoint (i : PqInput) : bytes * Z := (prevTxid i, prevOutIndex i).

(** The string whose hash is the commitment an input opens. *)
Definition opened (i : PqInput) : bytes := hashed (DSpendCommit (authPub i) (rhoReveal i)).

(** Two inputs that open the same commitment at the same outpoint have the same
    nullifier. *)
Lemma same_opening_same_nullifier sha3_256 x y commit :
  pqInputFieldsValid x = true -> pqInputFieldsValid y = true ->
  commit = spendCommit sha3_256 (authPub x) (rhoReveal x) ->
  commit = spendCommit sha3_256 (authPub y) (rhoReveal y) -> outpoint x = outpoint y ->
  pqNullifier sha3_256 x = pqNullifier sha3_256 y \/ collides sha3_256 [opened x; opened y].
Proof.
  intros Vx Vy Cx Cy E. rewrite Cx in Cy.
  pose proof Vx as Vx'. pose proof Vy as Vy'. unfold pqInputFieldsValid, len in Vx', Vy'. bprop.
  apply spendCommit_inj in Cy as [[Ha Hr]|C]; [left|auto| |].
  - unfold pqNullifier. rewrite Vx, Vy. cbn [negb]. injection E as Et Ei. rewrite Ha, Hr, Et, Ei. reflexivity.
  - unfold sized. change PQ_AUTH_PUB_SIZE with 1952 in *. lia.
  - unfold sized. change PQ_AUTH_PUB_SIZE with 1952 in *. lia.
Qed.

Lemma outpoint_dec (x y : bytes * Z) : {x = y} + {x <> y}.
Proof.
  destruct x as [t i], y as [t' i']. destruct (bytes_eq_dec t t'), (Z.eq_dec i i'); [left; congruence | right; congruence ..].
Qed.

Lemma distinct_outpoints sha3_256 (lookup : bytes * Z -> PqResolvedInput) ks :
  Forall (fun i => owned sha3_256 i (lookup (outpoint i))) ks -> NoDup (map (pqNullifier sha3_256) ks) ->
  NoDup (map outpoint ks) \/ collides sha3_256 (map opened ks).
Proof.
  induction 1 as [|x ks Hx Hks IH]; intros Hn; cbn in *; [left; constructor|].
  inversion_clear Hn as [|? ? Hnx Hnk].
  destruct (IH Hnk) as [IHn|C]; [|right; revert C; apply collides_incl, incl_tl, incl_refl].
  destruct (in_dec outpoint_dec (outpoint x) (map outpoint ks)) as [Hin|Hin]; [right|left; now constructor].
  apply in_map_iff in Hin as (y & E & Hy). rewrite Forall_forall in Hks. pose proof (Hks y Hy) as (Vy & _ & _ & Cy).
  destruct Hx as (Vx & _ & _ & Cx). rewrite E in Cy.
  destruct (same_opening_same_nullifier sha3_256 y x _ Vy Vx Cy Cx E) as [N|C].
  - exfalso. apply Hnx. rewrite <- N. now apply in_map.
  - revert C. apply collides_incl. intros z [<-|[<-|[]]]; [right; now apply in_map|now left].
Qed.

Lemma Forall2_map_r {A C} (P : A -> C -> Prop) (f : A -> C) (l : list A) :
  Forall2 P l (map f l) -> Forall (fun a => P a (f a)) l.
Proof. induction l as [|x l IH]; cbn; intros H; inversion H; subst; constructor; auto. Qed.

(** ** A checked transaction is its own wire form *)

(** The widths of the C++ types, which no check looks at. *)
Definition widths_ok (tx : Transaction) : Prop :=
  version (prefix tx) = TRANSACTION_VERSION_1 /\ in_w 8 (txType (prefix tx)) /\
  Forall (fun x => match x with
                   | InPq i => len (prevTxid i) = 32 /\ in_w 32 (prevOutIndex i) /\ in_w 32 (keyRef i)
                   | InBase g => in_w 32 (blockIndex g)
                   end) (inputs (prefix tx)) /\
  Forall (fun o => in_w 64 (amount o) /\ in_w 64 (out_unlockHeight o) /\
                   match target o with OutPq p => len (pq_spendCommit p) = 32 | _ => True end) (outputs (prefix tx)) /\
  Forall (c_wf sig_array) (pqSignatures tx).

Lemma shape_refs_ok ins : Z.of_nat (length ins) <= 256 -> structure_ok ins -> refs_ok ins.
Proof.
  intros Hl Hs before x after E. destruct (Hs before x after E) as (i & -> & H). cbn. intros Hk.
  destruct (H Hk) as (t & Hr & Hn & Ht & Ha). split; [unfold parameters.MAX_PQ_GROUPED_INPUTS_PER_TX; lia|].
  exists t. repeat split; auto; lia.
Qed.

Lemma shape_wf tx : widths_ok tx -> pq_shape tx -> wf_Transaction tx.
Proof.
  intros (Hv & Ht & Hi & Ho & Hs) (_ & Hni & Hno & Hu & Hf & Hst & _ & Hsig & He & Hout & _).
  split; [|split; assumption]. unfold wf_TransactionPrefix. rewrite Hu.
  split; [assumption|]. split; [assumption|]. split; [easy|].
  split; [split; [rewrite length_map; lia|]|split; [apply shape_refs_ok; [lia|assumption]|split; [split; [lia|]|]]].
  - rewrite Forall_map. apply Forall_forall. intros x Hx.
    rewrite Forall_forall in Hf, Hi. destruct (Hf x Hx) as (i & -> & Hfi). specialize (Hi _ Hx). cbn in Hi.
    unfold pqInputFieldsValid in Hfi. bprop. cbn [strip]. destruct Hi as (H1 & H2 & H3).
    destruct (Z.eqb_spec (keyRef i) PQ_NO_KEY_REF) as [Hk|Hk]; cbn; unfold wf_PqInput; cbn [keyRef set_authPub].
    + rewrite Hk, Z.eqb_refl. repeat split; try apply H2; try apply H3; auto. rewrite <- Hk. apply H3.
    + apply Z.eqb_neq in Hk. rewrite Hk. repeat split; try apply H2; try apply H3; auto.
  - apply Forall_forall. intros o Hin. rewrite Forall_forall in Ho, Hout. specialize (Ho o Hin).
    destruct (Hout o Hin) as (p & Ep & _ & Hp). destruct Ho as (A & U & C). unfold pqOutputFieldsValid in Hp. bprop.
    cbn. unfold wf_TransactionOutput, wf_target. rewrite Ep in *. auto.
  - cbn. unfold len in He. unfold BinarySerializer.max_string. lia.
Qed.

(** ** Properties *)

(** The shape check of a PQ transfer is exactly its specification: it passes
    if and only if the subtype, the counts, the field lengths, the key references
    (each naming an earlier key-carrying input with the same key), the signature
    count, the extra size, the outputs and the serialized size are all as the
    consensus rules say. *)
Theorem pq_semantic_exact tx : refs_nonneg (inputs (prefix tx)) ->
  checkPqTransactionSemantic tx = Ok tt <-> pq_shape tx.
Proof. exact (semantic_iff tx). Qed.

(** A transfer spending one output, with toy primitives: the signature is the
    digest it signs. *)
Definition sample_key : bytes := repeat (b8 11) 1952.
Definition sample_rho : bytes := repeat (b8 12) 32.
Definition sample_verify (key digest sig : bytes) : bool := firstn 32 sig ==b digest.
Definition sample_input : PqInput := mkPqInput (repeat (b8 13) 32) 0 sample_key sample_rho PQ_NO_KEY_REF.
Definition sample_prefix : TransactionPrefix :=
  mkTransactionPrefix 1 TX_PQ 0 [InPq sample_input]
    [mkTransactionOutput 90 0 (OutPq (mkPqOutput (repeat (b8 14) 1088) (repeat (b8 15) 56) (repeat (b8 16) 32)))] [].
Definition sample_sig : bytes :=
  match pqUnsignedTx (mkTransaction sample_prefix []) 10 with
  | Ok u => txSigningDigest sample_sha3 u ++ repeat (b8 0) 3277
  | Err _ => []
  end.
Definition sample_transfer : Transaction := mkTransaction sample_prefix [sample_sig].
Definition sample_resolved : list PqResolvedInput :=
  [mkPqResolvedInput (spendCommit sample_sha3 sample_key sample_rho) 100 true true false].
Definition sample_context : PqSigningContext := pqSigningContextForHeight 1000 (repeat (b8 0) 32).

Lemma sample_typed : typed sample_transfer sample_resolved.
Proof. constructor; [vm_compute; congruence | repeat constructor; easy ..]. Qed.

Lemma sample_accepted :
  checkPqTransactionInputs sample_sha3 sample_verify sample_transfer sample_resolved 1 sample_context =
  Ok [pqNullifier sample_sha3 sample_input].
Proof. vm_compute. reflexivity. Qed.

Lemma pq_semantic_exact_witness : pq_shape sample_transfer.
Proof.
  apply (pq_semantic_exact sample_transfer); [repeat constructor; easy|]. vm_compute. reflexivity.
Defined.

(** C20: Balance: an accepted transfer spends only existing PQ outputs whose
    commitment its inputs open, its inputs' exact sum (no 64-bit wrap) is the sum
    of its outputs plus a non-negative fee that meets the fee floor, and the
    nullifiers returned are those of its inputs, all different. *)
Theorem pq_transfer_balance sha3_256 dsa_verify tx resolved minFee signing nfs :
  typed tx resolved ->
  checkPqTransactionInputs sha3_256 dsa_verify tx resolved minFee signing = Ok nfs ->
  exists ks fee,
    inputs (prefix tx) = map InPq ks /\ Forall2 (owned sha3_256) ks resolved /\
    nfs = map (pqNullifier sha3_256) ks /\ NoDup nfs /\
    total (map r_amount resolved) = total (map amount (outputs (prefix tx))) + fee /\ 0 <= fee /\
    (minFee = 0 \/ parameters.pqTxFeeFloor minFee (len (extra (prefix tx))) <= fee).
Proof.
  intros Ht H. apply checkPqTransactionInputs_inv in H as (ks & fee & u & H1 & H2 & H3 & H4 & H5 & H6 & H7 & H8 & _);
    [|assumption]. exists ks, fee. auto 10.
Qed.

Lemma pq_transfer_balance_witness :
  exists ks fee,
    inputs (prefix sample_transfer) = map InPq ks /\ Forall2 (owned sample_sha3) ks sample_resolved /\
    [pqNullifier sample_sha3 sample_input] = map (pqNullifier sample_sha3) ks /\
    NoDup [pqNullifier sample_sha3 sample_input] /\
    total (map r_amount sample_resolved) = total (map amount (outputs (prefix sample_transfer))) + fee /\ 0 <= fee /\
    (1 = 0 \/ parameters.pqTxFeeFloor 1 (len (extra (prefix sample_transfer))) <= fee).
Proof. exact (pq_transfer_balance _ _ _ _ _ _ _ sample_typed sample_accepted). Defined.

(** C21: Authorization: in an accepted transfer every input, key-carrying or key
    reference, is covered by a signature of this transaction that verifies under
    the input's own key over the digest of the whole unsigned transaction (with
    the fee the balance gives), at the position of the input that carries the key. *)
Theorem pq_transfer_authorized sha3_256 dsa_verify tx resolved minFee signing nfs :
  typed tx resolved ->
  checkPqTransactionInputs sha3_256 dsa_verify tx resolved minFee signing = Ok nfs ->
  exists ks u,
    inputs (prefix tx) = map InPq ks /\
    pqUnsignedTx tx (total (map r_amount resolved) - total (map amount (outputs (prefix tx)))) = Ok u /\
    Forall (authorized sha3_256 dsa_verify signing u ks (pqSignatures tx)) ks.
Proof.
  intros Ht H. apply checkPqTransactionInputs_inv in H as (ks & fee & u & H1 & _ & _ & _ & _ & H6 & _ & _ & _ & H9 & H10);
    [|assumption]. exists ks, u. rewrite H6. replace (_ + fee - _) with fee by lia. auto.
Qed.

Lemma pq_transfer_authorized_witness :
  exists ks u,
    inputs (prefix sample_transfer) = map InPq ks /\
    pqUnsignedTx sample_transfer
      (total (map r_amount sample_resolved) - total (map amount (outputs (prefix sample_transfer)))) = Ok u /\
    Forall (authorized sample_sha3 sample_verify sample_context u ks (pqSignatures sample_transfer)) ks.
Proof. exact (pq_transfer_authorized _ _ _ _ _ _ _ sample_typed sample_accepted). Defined.

(** No output is spent twice in one transfer: when inputs are resolved by
    their outpoint, an accepted transfer's outpoints are pairwise different, or
    SHA3-256 collides on two of the openings the inputs reveal. *)
Theorem pq_transfer_no_double_spend sha3_256 dsa_verify tx ks lookup minFee signing nfs :
  inputs (prefix tx) = map InPq ks ->
  typed tx (map (fun i => lookup (outpoint i)) ks) ->
  checkPqTransactionInputs sha3_256 dsa_verify tx (map (fun i => lookup (outpoint i)) ks) minFee signing = Ok nfs ->
  NoDup (map outpoint ks) \/ collides sha3_256 (map opened ks).
Proof.
  intros Hk Ht H. apply checkPqTransactionInputs_inv in H as (ks' & fee & u & H1 & _ & H3 & H4 & H5 & _); [|assumption].
  rewrite Hk in H1. assert (ks' = ks) as ->.
  { clear - H1. revert ks' H1. induction ks as [|x ks IH]; intros [|y ks'] E; try discriminate; [reflexivity|].
    cbn in E. injection E as -> E. f_equal. now apply IH. }
  subst nfs. apply (distinct_outpoints sha3_256 lookup); [|assumption]. apply Forall2_map_r. exact H3.
Qed.

Lemma pq_transfer_no_double_spend_witness :
  NoDup (map outpoint [sample_input]) \/ collides sample_sha3 (map opened [sample_input]).
Proof.
  apply (pq_transfer_no_double_spend sample_sha3 sample_verify sample_transfer [sample_input]
           (fun _ => hd (mkPqResolvedInput [] 0 false false false) sample_resolved) 1 sample_context
           [pqNullifier sample_sha3 sample_input] eq_refl); [exact sample_typed|exact sample_accepted].
Defined.

(** What is validated is what is serialized: a transaction within its C++
    field widths that passes the shape check has a wire form, and parsing that
    form gives back exactly the transaction that was checked, keys of key
    references included. *)
Theorem pq_checked_is_wire tx : widths_ok tx -> checkPqTransactionSemantic tx = Ok tt ->
  exists b, toBinaryArray tx_codec tx = Some b /\ fromBinaryArray tx_codec b = Some tx.
Proof.
  intros Hw H. apply (toBinaryArray_total tx_codec). apply shape_wf; [assumption|].
  apply semantic_iff; [|assumption]. destruct Hw as (_ & _ & Hi & _). eapply Forall_impl; [|exact Hi].
  intros [g|i]; cbn; [auto|]. intros (_ & _ & Hk). apply Hk.
Qed.

Lemma pq_checked_is_wire_witness :
  exists b, toBinaryArray tx_codec sample_transfer = Some b /\ fromBinaryArray tx_codec b = Some sample_transfer.
Proof.
  apply (pq_checked_is_wire sample_transfer); [|vm_compute; reflexivity].
  repeat constructor; try easy; vm_compute; reflexivity.
Defined.

(** ** Free registration *)

(** The leading eight bytes as a big-endian number. *)
Lemma lead_fold l : forall acc, 0 <= acc < 2 ^ 56 -> (length l <= 8)%nat ->
  acc < 2 ^ (64 - 8 * Z.of_nat (length l)) ->
  fold_left (fun lead b => Z.lor (w64 (Z.shiftl lead 8)) (u8 b)) l acc =
    acc * 2 ^ (8 * Z.of_nat (length l)) + le_combine (rev l).
Proof.
  induction l as [|b l IH]; intros acc Ha Hl Hb; cbn [fold_left rev length] in *;
    [change (2 ^ (8 * Z.of_nat 0)) with 1; change (le_combine []) with 0; lia|].
  pose proof (byte_range b).
  rewrite wrap_small by (unfold in_w; rewrite Z.shiftl_mul_pow2; lia).
  rewrite Z.lor_comm, lor_shiftl_add by lia.
  rewrite le_combine_app_add, le_combine_1, length_rev.
  assert (Hp : 2 ^ (8 * Z.of_nat (S (length l))) = 2 ^ 8 * 2 ^ (8 * Z.of_nat (length l)))
    by (rewrite <- Z.pow_add_r by lia; f_equal; lia).
  destruct l as [|c l].
  - cbn [fold_left length rev]. rewrite le_combine_nil. change (2 ^ (8 * Z.of_nat 1)) with 256.
    change (2 ^ (8 * Z.of_nat 0)) with 1. lia.
  - rewrite IH.
    + rewrite Hp. ring.
    + cbn [length] in *.
      assert (2 ^ (64 - 8 * Z.of_nat (S (S (length l)))) <= 2 ^ 48) by (apply Z.pow_le_mono_r; lia). lia.
    + lia.
    + assert (Hq : 2 ^ (64 - 8 * Z.of_nat (length (c :: l))) = 2 ^ 8 * 2 ^ (64 - 8 * Z.of_nat (S (length (c :: l)))))
        by (cbn [length] in *; rewrite <- Z.pow_add_r by lia; f_equal; lia).
      rewrite Hq. lia.
Qed.

Lemma lead_spec h : (8 <= length h)%nat -> lead h = le_combine (rev (firstn 8 h)).
Proof.
  intros Hl. unfold lead. rewrite lead_fold; [lia|lia|rewrite length_firstn; lia|].
  rewrite length_firstn, Nat.min_l by assumption. lia.
Qed.

Lemma freereg_canonical_fields view spend ref nonce e :
  parseTransactionExtra e = (true, [PqAccountRegistration view spend; Pow ref nonce]) ->
  isPowTagLastField e = true /\ getPqAccountRegistrationFromExtra e = Some (view, spend) /\
  getPowTagFromExtra e = Some (ref, nonce).
Proof.
  intros H. unfold isPowTagLastField, getPqAccountRegistrationFromExtra, getPowTagFromExtra, get_field.
  rewrite H. auto.
Qed.

(** On a canonical free registration the check is exactly the rule: it
    accepts if and only if the transaction is an empty free-registration body and
    the yespower hash of the domain, both public keys, the reference block and the
    nonce has its leading eight bytes (big endian) at most the target; when the
    cheap shape check fails no proof is evaluated. *)
Theorem free_reg_check_exact y_slow_hash tx target evaluations :
  isCanonicalFreeRegExtra (extra (prefix tx)) = true ->
  (forall d s h, y_slow_hash d s = Some h -> length h = 32%nat) ->
  exists view spend ref nonce,
    extra (prefix tx) = appendPowTagToExtra (addPqAccountRegistrationToExtra [] view spend) ref nonce /\
    (fst (checkFreeRegTransactionSemantic y_slow_hash tx target evaluations) = Ok tt <->
     (txType (prefix tx) = TX_FREE_REG /\ inputs (prefix tx) = [] /\ outputs (prefix tx) = [] /\
      pqSignatures tx = [] /\ unlockHeight (prefix tx) = 0) /\
     exists h, y_slow_hash (freeRegPreimage view spend ref nonce) (repeat (b8 0) 32) = Some h /\
       le_combine (rev (firstn 8 h)) <= target) /\
    (checkFreeRegTransactionShape tx <> Ok tt ->
     snd (checkFreeRegTransactionSemantic y_slow_hash tx target evaluations) = evaluations).
Proof.
  intros Hc Hy. apply canonical_shape in Hc as (view & spend & ref & nonce & Hv & Hs & Hr & Hn & He).
  exists view, spend, ref, nonce. split; [exact He|].
  destruct (parse_written [PqAccountRegistration view spend; Pow ref nonce] 0) as (b & Hw & Hp);
    [constructor; [split; assumption|constructor; [split; assumption|constructor]] | auto |].
  cbn [app Z.eqb writeTransactionExtra write_field] in Hw, Hp. rewrite <- He in Hw. injection Hw as <-.
  destruct (freereg_canonical_fields _ _ _ _ _ Hp) as (Hl & Hreg & Hpow).
  unfold checkFreeRegTransactionSemantic, checkFreeRegTransactionShape. rewrite Hp, Hl.
  split; [|intros H; destruct (bind _ _) as [[]|]; [exfalso; apply H; reflexivity|reflexivity]].
  destruct (Z.eqb_spec (txType (prefix tx)) TX_FREE_REG) as [E1|E1]; cbn [guard bind]; [|split; [discriminate|tauto]].
  destruct (inputs (prefix tx)) as [|x ins]; cbn [length Z.of_nat Z.eqb andb guard bind];
    [|split; [discriminate|intros [(_ & F & _) _]; discriminate]].
  destruct (outputs (prefix tx)) as [|o outs]; cbn [length Z.of_nat Z.eqb andb guard bind];
    [|split; [discriminate|intros [(_ & _ & F & _) _]; discriminate]].
  destruct (pqSignatures tx) as [|g sigs]; cbn [length Z.of_nat Z.eqb andb guard bind];
    [|split; [discriminate|intros [(_ & _ & _ & F & _) _]; discriminate]].
  destruct (Z.eqb_spec (unlockHeight (prefix tx)) 0) as [E5|E5]; cbn [guard bind]; [|split; [discriminate|tauto]].
  cbn [freereg_fields bind]. change ((0 + 1 =? 1) && (0 + 1 =? 1)) with true. cbn [guard bind].
  unfold checkFreeRegTransactionPow. rewrite Hreg, Hpow. unfold checkFreeRegPow.
  destruct (y_slow_hash (freeRegPreimage view spend ref nonce) (repeat (b8 0) 32)) as [h|] eqn:Eh.
  - assert (Hld : lead h = le_combine (rev (firstn 8 h))) by (apply lead_spec; rewrite (Hy _ _ _ Eh); lia).
    destruct (Z.leb_spec (lead h) target); cbn [fst]; split; try discriminate.
    + intros _. split; [auto|]. exists h. split; [reflexivity|lia].
    + reflexivity.
    + intros (_ & h' & E & G). injection E as <-. lia.
  - cbn [fst]. split; [discriminate|]. intros (_ & h & E & _). discriminate.
Qed.

Definition sample_registration : Transaction :=
  mkTransaction (mkTransactionPrefix 1 TX_FREE_REG 0 [] []
    (appendPowTagToExtra (addPqAccountRegistrationToExtra [] (repeat (b8 1) 1184) (repeat (b8 2) 1952))
       (repeat (b8 3) 32) 9)) [].

Lemma free_reg_check_exact_witness :
  exists view spend ref nonce h,
    extra (prefix sample_registration) = appendPowTagToExtra (addPqAccountRegistrationToExtra [] view spend) ref nonce /\
    Some (sample_sha3 (freeRegPreimage view spend ref nonce)) = Some h /\ le_combine (rev (firstn 8 h)) <= 2 ^ 64 - 1.
Proof.
  destruct (free_reg_check_exact (fun d s => Some (sample_sha3 d)) sample_registration (2 ^ 64 - 1) 4)
    as (v & s & r & n & E & H & _).
  - vm_compute. reflexivity.
  - intros d s h E. injection E as <-. apply sample_sha3_size.
  - destruct (proj1 H) as (_ & h & Hh); [vm_compute; reflexivity|]. exists v, s, r, n, h. split; [exact E|exact Hh].
Defined.

(** The shape check alone does not pin the bytes of [extra], against its
    comment ("and nothing else", "the nonce is the final 8 bytes"): a transaction
    with trailing bytes of an unknown tag passes it, its proof is the same, and
    only the separate grammar check refuses it. *)
Theorem free_reg_shape_allows_trailing : exists tx tx',
  extra (prefix tx') = extra (prefix tx) ++ [b8 0xFF] /\
  isCanonicalFreeRegExtra (extra (prefix tx)) = true /\ isCanonicalFreeRegExtra (extra (prefix tx')) = false /\
  checkFreeRegTransactionShape tx = Ok tt /\ checkFreeRegTransactionShape tx' = Ok tt /\
  forall y_slow_hash target evaluations,
    checkFreeRegTransactionSemantic y_slow_hash tx' target evaluations =
    checkFreeRegTransactionSemantic y_slow_hash tx target evaluations.
Proof.
  exists sample_registration.
  exists (mkTransaction (mkTransactionPrefix 1 TX_FREE_REG 0 [] []
            (extra (prefix sample_registration) ++ [b8 0xFF])) []).
  split; [reflexivity|]. do 4 (split; [vm_compute; reflexivity|]).
  intros. unfold checkFreeRegTransactionSemantic.
  replace (checkFreeRegTransactionShape sample_registration) with (@Ok string unit tt) by (vm_compute; reflexivity).
  replace (checkFreeRegTransactionShape _) with (@Ok string unit tt) by (vm_compute; reflexivity).
  unfold checkFreeRegTransactionPow. cbn [prefix extra].
  assert (Hr : getPqAccountRegistrationFromExtra (extra (prefix sample_registration) ++ [b8 0xFF]) =
               getPqAccountRegistrationFromExtra (extra (prefix sample_registration))) by (vm_compute; reflexivity).
  assert (Hp : getPowTagFromExtra (extra (prefix sample_registration) ++ [b8 0xFF]) =
               getPowTagFromExtra (extra (prefix sample_registration))) by (vm_compute; reflexivity).
  rewrite Hr, Hp. reflexivity.
Qed.

(** ** Version-1 signatures of one key *)

(** Under the version-1 transcript two inputs of one key carry
    interchangeable signatures: exchanging them leaves the verdict of the input
    check unchanged, while the serialized transaction differs whenever the
    signatures do (the malleability the version-2 transcript removes). *)
Theorem v1_signatures_interchangeable sha3_256 dsa_verify p a b s1 s2 resolved minFee signing :
  inputs p = [InPq a; InPq b] -> keyRef a = PQ_NO_KEY_REF -> keyRef b = PQ_NO_KEY_REF -> authPub a = authPub b ->
  useV2 signing = false ->
  checkPqTransactionInputs sha3_256 dsa_verify (mkTransaction p [s1; s2]) resolved minFee signing =
  checkPqTransactionInputs sha3_256 dsa_verify (mkTransaction p [s2; s1]) resolved minFee signing.
Proof.
  intros Hi Ha Hb Hk Hv. unfold checkPqTransactionInputs. cbn [prefix pqSignatures length].
  rewrite Hi. destruct (guard _ _); [|reflexivity]. cbn [bind]. cbn [signers_loop]. rewrite Ha, Hb, Z.eqb_refl.
  cbn [bind length app]. change (w32 (Z.of_nat 0)) with 0. change (w32 (Z.of_nat 1)) with 1.
  destruct (inputs_loop _ _ _ _ _) as [[computed sumIn]|]; [|reflexivity]. cbn [bind guard].
  destruct (outputs_loop _ _) as [sumOut|]; [|reflexivity]. cbn [bind].
  destruct (guard (negb (sumIn <? sumOut)) _); [|reflexivity]. cbn [bind].
  destruct (guard (_ || _) _); [|reflexivity]. cbn [bind].
  unfold pqUnsignedTx. cbn [prefix]. destruct (traverse digest_input _); [|reflexivity]. cbn [bind].
  destruct (traverse digest_output _); [|reflexivity]. cbn [bind].
  unfold signing_digests. rewrite Hv. cbn [length repeat verify_loop].
  change (Z.to_nat 0) with 0%nat. change (Z.to_nat 1) with 1%nat. cbn [nth get_PqInput bind]. rewrite Hk.
  destruct (dsa_verify (authPub b) _ s1) eqn:E1, (dsa_verify (authPub b) _ s2) eqn:E2; reflexivity.
Qed.

Definition sample_second : PqInput := mkPqInput (repeat (b8 13) 32) 1 sample_key sample_rho PQ_NO_KEY_REF.
Definition sample_pair : TransactionPrefix :=
  mkTransactionPrefix 1 TX_PQ 0 [InPq sample_input; InPq sample_second] (outputs sample_prefix) [].

Lemma v1_signatures_interchangeable_witness :
  checkPqTransactionInputs sample_sha3 sample_verify (mkTransaction sample_pair [sample_sig; []])
    (sample_resolved ++ sample_resolved) 1 sample_context =
  checkPqTransactionInputs sample_sha3 sample_verify (mkTransaction sample_pair [[]; sample_sig])
    (sample_resolved ++ sample_resolved) 1 sample_context.
Proof.
  apply (v1_signatures_interchangeable sample_sha3 sample_verify sample_pair sample_input sample_second sample_sig []);
    reflexivity.
Defined.
