(* ===== verification/BlockFormat.v ===== *)
(** * Block identity and proof of work

    [CryptoNoteCore/CryptoNoteFormatUtils.cpp]: the block-hashing blob, the
    witness-commitment block id, the DiscretePower prove/verify pair and the
    stateless checks of transaction inputs and outputs.  The hash functions, the
    signature scheme and yespower are parameters.

    The block id binds the whole block: two well-formed version-1 blocks with
    one id are equal, or one of the two hash functions collides on the strings
    hashed for them. *)

From Stdlib Require Import ZArith String List Lia Bool.
From coqutil Require Import Byte Word.LittleEndianList.
From S2P Require Import Prelude Config Varint Wire Transaction Extra TreeHash PqDerive.
Import ListNotations.
Open Scope string_scope.
Open Scope list_scope.
Open Scope Z_scope.
Open Scope discrete_scope.
Import StreamTools BinarySerializer Serialization TransactionExtra.

Module FormatUtils.

Definition DISCRETE_POWER_SIG_LEN : Z := 3309.
Definition DISCRETE_POWER_HEADER_DOMAIN : bytes := str "DiscretePower/v2/header".
Definition DISCRETE_POWER_MEMORY_DOMAIN : bytes := str "DiscretePower/v2/memory".
Definition DISCRETE_POWER_SIGN_DOMAIN : bytes := str "DiscretePower/v2/sign".
Definition DISCRETE_POWER_FINAL_DOMAIN : bytes := str "DiscretePower/v2/final".
Definition DISCRETE_POWER_WITNESS_DOMAIN : bytes := str "DiscretePower/v2/witness".
Definition DISCRETE_POWER_BLOCK_ID_DOMAIN : bytes := str "DiscretePower/v2/block-id".

(** ** Stateless transaction checks *)

Definition get_block_height (b : Block) : Z :=
  match inputs (prefix (baseTransaction b)) with
  | [InBase i] => blockIndex i
  | _ => 0
  end.

Definition is_PqInput (i : TransactionInput) : bool := match i with InPq _ => true | InBase _ => false end.
Definition is_BaseInput (i : TransactionInput) : bool := match i with InBase _ => true | InPq _ => false end.

Definition check_inputs_types_supported (tx : TransactionPrefix) : bool :=
  let pqInputs := (TRANSACTION_VERSION_1 <=? version tx) && isPqTransfer (txType tx) in
  forallb (fun i => if pqInputs then is_PqInput i else is_BaseInput i) (inputs tx).

Definition out_error (tx : TransactionPrefix) (o : TransactionOutput) : option string :=
  let typed :=
    if TRANSACTION_VERSION_1 <=? version tx then
      match target o with
      | OutPq _ =>
          Some (if negb (isPqTransfer (txType tx)) then Some "PqOutput is not allowed for this tx type"
                else if amount o =? 0 then Some "Zero amount output" else None)
      | OutCoinbase _ =>
          Some (if negb (txType tx =? TX_COINBASE) then Some "CoinbaseOutput is not allowed outside coinbase transactions"
                else if amount o =? 0 then Some "Zero amount coinbase output" else None)
      | OutKey _ => None
      end
    else None in
  match typed with
  | Some verdict => verdict
  | None => match target o with
            | OutKey _ => Some "KeyOutput is not allowed in Discrete"
            | _ => Some "Output with invalid type"
            end
  end.
Fixpoint check_outs_valid_loop (tx : TransactionPrefix) (outs : list TransactionOutput) : result string unit :=
  match outs with
  | [] => Ok tt
  | o :: outs => match out_error tx o with Some e => Err e | None => check_outs_valid_loop tx outs end
  end.
Definition check_outs_valid (tx : TransactionPrefix) : result string unit := check_outs_valid_loop tx (outputs tx).

(** [check_outs_overflow] *)
Fixpoint outs_overflow_loop (money : Z) (outs : list TransactionOutput) : bool :=
  match outs with
  | [] => true
  | o :: outs =>
      if w64 (amount o + money) <? money then false
      else outs_overflow_loop (w64 (money + amount o)) outs
  end.
Definition check_outs_overflow (tx : TransactionPrefix) : bool := outs_overflow_loop 0 (outputs tx).

(** [getInputAmount], [getOutputAmount] ([CryptoNoteTools.cpp]) *)
Definition getInputAmount (tx : Transaction) : Z := 0.
Definition getOutputAmount (tx : Transaction) : Z :=
  fold_left (fun amount_ o => w64 (amount_ + amount o)) (outputs (prefix tx)) 0.

Section Hashing.
Variable cn_fast_hash : bytes -> bytes.
Variable shake256 : bytes -> nat -> bytes.

(** [get_tx_tree_hash(const Block&)]: a coinbase without a wire form leaves
    the null hash. *)
Definition block_tx_ids (b : Block) : list bytes :=
  snd (getObjectHash cn_fast_hash tx_codec (baseTransaction b)) :: transactionHashes b.
Definition get_tx_tree_hash (b : Block) : bytes := tree_hash cn_fast_hash (block_tx_ids b).

Definition get_block_hashing_blob (b : Block) : option bytes :=
  match toBinaryArray header_codec (header b) with
  | None => None
  | Some ba =>
      Some (ba ++ get_tx_tree_hash b ++
            Tools.get_varint_data (w64 (Z.of_nat (length (transactionHashes b)) + 1)))
  end.

(** ** Parent blocks (block versions 2 and 3 only) *)

Record ParentBlock := mkParentBlock {
  pb_majorVersion : Z;
  pb_minorVersion : Z;
  pb_previousBlockHash : bytes;
  pb_transactionCount : Z;
  pb_baseTransactionBranch : list bytes;
  pb_baseTransaction : Transaction;
  pb_blockchainBranch : list bytes
}.

(** [serialize(ParentBlockSerializer&)], the output direction. *)
Definition parent_block_blob (pb : ParentBlock) (h : BlockHeader) (hashing headerOnly : bool) : option bytes :=
  let head := writeVarint (pb_majorVersion pb) ++ writeVarint (pb_minorVersion pb) ++
    writeVarint (timestamp h) ++ pb_previousBlockHash pb ++ le_split 4 (nonce h) in
  let branch := pb_baseTransactionBranch pb in
  let (hashed, minerTxHash) := getObjectHash cn_fast_hash tx_codec (pb_baseTransaction pb) in
  let root := if hashing then tree_hash_from_branch cn_fast_hash branch (length branch) minerTxHash None else [] in
  let count := writeVarint (pb_transactionCount pb) in
  if hashing && negb hashed then None
  else if pb_transactionCount pb <? 1 then None
  else if headerOnly then Some (head ++ root ++ count)
  else if negb (Z.of_nat (length branch) =? tree_depth (pb_transactionCount pb)) then None
  else
    match toBinaryArray tx_codec (pb_baseTransaction pb),
          getMergeMiningTagFromExtra (extra (prefix (pb_baseTransaction pb))) with
    | Some minerTx, Some (depth, _) =>
        if 8 * 32 <? depth then None
        else if negb (depth =? Z.of_nat (length (pb_blockchainBranch pb))) then None
        else Some (head ++ root ++ count ++ concat branch ++ minerTx ++ concat (pb_blockchainBranch pb))
    | _, _ => None
    end.

(** ** Block id *)

Definition get_block_signature_witness (signature : bytes) : bytes :=
  shake256 (DISCRETE_POWER_WITNESS_DOMAIN ++ signature) 32.
Definition discretePowerBlockId (cB signature : bytes) : bytes :=
  shake256 (DISCRETE_POWER_BLOCK_ID_DOMAIN ++ le_split 8 (len cB) ++ cB ++ get_block_signature_witness signature) 32.

(** [get_block_hash]; [parentBlock] is the block's member of that name. *)
Definition get_block_hash (parentBlock : ParentBlock) (b : Block) : option bytes :=
  match get_block_hashing_blob b with
  | None => None
  | Some ba =>
      if (BLOCK_MAJOR_VERSION_2 =? majorVersion (header b)) || (BLOCK_MAJOR_VERSION_3 =? majorVersion (header b))
      then match parent_block_blob parentBlock (header b) true false with
           | None => None
           | Some parent_blob => Some (discretePowerBlockId (ba ++ parent_blob) (signature b))
           end
      else Some (discretePowerBlockId ba (signature b))
  end.

(** ** DiscretePower *)

Variable dsa_sign : bytes -> bytes -> bytes.                         (** secret key, message *)
Variable dsa_verify : bytes -> bytes -> bytes -> bool.               (** public key, message, signature *)
Variable yespower_discrete : bytes -> bytes -> bytes -> option bytes. (** input, personalization, tape *)

Definition discretePowerHeaderFromBlob (blob : bytes) : bytes := shake256 (DISCRETE_POWER_HEADER_DOMAIN ++ blob) 64.
Definition discrete_power_memory_personalization : bytes := shake256 DISCRETE_POWER_MEMORY_DOMAIN 32.
Definition discrete_power_sign_message (H : bytes) : bytes := shake256 (DISCRETE_POWER_SIGN_DOMAIN ++ H) 64.

(** [discretePowerMemoryAndFinal]: [sig] is copied as [DISCRETE_POWER_SIG_LEN] bytes. *)
Definition discretePowerMemoryAndFinal (H sig : bytes) : option bytes :=
  let tape := firstn (Z.to_nat DISCRETE_POWER_SIG_LEN) sig ++ [b8 0x80; b8 0; b8 0] in
  match yespower_discrete H discrete_power_memory_personalization tape with
  | None => None
  | Some y => Some (shake256 (DISCRETE_POWER_FINAL_DOMAIN ++ H ++ y) 32)
  end.

Inductive DiscretePowerReject := RejectNone | BadLength | BadSignature.

Definition discrete_power_prove (blob sk : bytes) : bytes * option bytes :=
  let H := discretePowerHeaderFromBlob blob in
  let sig := dsa_sign sk (discrete_power_sign_message H) in
  (sig, discretePowerMemoryAndFinal H sig).

Definition discrete_power_verify (blob pk signature : bytes) : result DiscretePowerReject bytes :=
  check len signature =? DISCRETE_POWER_SIG_LEN else BadLength ;;
  let H := discretePowerHeaderFromBlob blob in
  check dsa_verify pk (discrete_power_sign_message H) signature else BadSignature ;;
  match discretePowerMemoryAndFinal H signature with Some pow => Ok pow | None => Err RejectNone end.

Definition get_block_longhash (b : Block) : option bytes :=
  if negb (len (signature b) =? DISCRETE_POWER_SIG_LEN) then None
  else match get_block_hashing_blob b with
       | None => None
       | Some blob => discretePowerMemoryAndFinal (discretePowerHeaderFromBlob blob) (signature b)
       end.

(** [Blockchain::prevalidateBlockProofOfWork] *)
Definition prevalidateBlockProofOfWork (b : Block) : option bytes :=
  match get_block_hashing_blob b with
  | None => None
  | Some blob =>
      match getPqMinerSpendPubFromExtra (extra (prefix (baseTransaction b))) with
      | None => None
      | Some spendPub =>
          match discrete_power_verify blob spendPub (signature b) with Ok pow => Some pow | Err _ => None end
      end
  end.

End Hashing.
End FormatUtils.
Import FormatUtils.

(** ** Binding *)

Lemma writeVarint_inj x y : in_w 64 x -> in_w 64 y -> writeVarint x = writeVarint y -> x = y.
Proof.
  intros Hx Hy E.
  pose proof (codec_read_app (uint 64) x _ [] Hx eq_refl) as Rx.
  pose proof (codec_read_app (uint 64) y _ [] Hy eq_refl) as Ry.
  rewrite E in Rx. rewrite Rx in Ry. injection Ry as ->. reflexivity.
Qed.

Section Binding.
Variable cn_fast_hash : bytes -> bytes.
Variable shake256 : bytes -> nat -> bytes.
Hypothesis cn_fast_hash_size : forall x, length (cn_fast_hash x) = 32%nat.
Hypothesis shake256_size : forall x n, length (shake256 x n) = n.

(** The strings hashed for a block id: by [cn_fast_hash] the coinbase and the
    rows of the transaction tree, by SHAKE256 the signature and the transcript. *)
Definition cn_inputs (b : Block) : list bytes :=
  match toBinaryArray tx_codec (baseTransaction b) with Some t => [t] | None => [] end ++
  tree_inputs cn_fast_hash (block_tx_ids cn_fast_hash b).
Definition shake_inputs (cB sig : bytes) : list bytes :=
  [DISCRETE_POWER_WITNESS_DOMAIN ++ sig;
   DISCRETE_POWER_BLOCK_ID_DOMAIN ++ le_split 8 (len cB) ++ cB ++ get_block_signature_witness shake256 sig].

Lemma tree_hash_size l : l <> [] -> Forall (fun h => length h = 32%nat) l -> length (tree_hash cn_fast_hash l) = 32%nat.
Proof.
  intros Hn Ha. unfold tree_hash. destruct l as [|x [|y [|z l]]]; [congruence| | |].
  - inversion_clear Ha. assumption.
  - apply cn_fast_hash_size.
  - apply cn_fast_hash_size.
Qed.

Lemma block_tx_ids_all b : wf_Block b -> Forall (fun h => length h = 32%nat) (block_tx_ids cn_fast_hash b).
Proof.
  intros (_ & _ & Ht & _ & Hh). constructor.
  - destruct (toBinaryArray_total tx_codec _ Ht) as (t & Et & _). unfold getObjectHash. rewrite Et. apply cn_fast_hash_size.
  - eapply Forall_impl; [|exact Hh]. cbv beta. intros h W. change (Z.of_nat (length h) = 32) in W. lia.
Qed.

(** The hashing blob determines the header, the number of transactions and, up
    to a collision, every transaction id. *)
Lemma hashing_blob_binding b b' ba : wf_Block b -> wf_Block b' ->
  get_block_hashing_blob cn_fast_hash b = Some ba -> get_block_hashing_blob cn_fast_hash b' = Some ba ->
  header b = header b' /\ (block_tx_ids cn_fast_hash b = block_tx_ids cn_fast_hash b' \/
    collides cn_fast_hash (cn_inputs b ++ cn_inputs b')).
Proof.
  intros W W' H H'. pose proof (block_tx_ids_all b W) as A. pose proof (block_tx_ids_all b' W') as A'.
  unfold get_block_hashing_blob in H, H'. destruct W as (Wh & _ & _ & Wl & _), W' as (Wh' & _ & _ & Wl' & _).
  unfold toBinaryArray in H, H'.
  destruct (c_write header_codec (header b)) as [hb|] eqn:E; [|discriminate].
  destruct (c_write header_codec (header b')) as [hb'|] eqn:E'; [|discriminate].
  injection H as H. injection H' as H'. rewrite <- H' in H.
  pose proof (codec_read_app header_codec _ _ (get_tx_tree_hash cn_fast_hash b ++ Tools.get_varint_data (w64 (Z.of_nat (length (transactionHashes b)) + 1))) Wh E) as R.
  rewrite H, (codec_read_app header_codec _ _ _ Wh' E') in R. injection R as Rh Rr.
  split; [congruence|].
  apply app_inj_len in Rr as [Rt Rn]; [|unfold get_tx_tree_hash; rewrite !tree_hash_size; [reflexivity|discriminate|assumption|discriminate|assumption]].
  unfold Tools.get_varint_data in Rn. rewrite !tools_write_varint_eq in Rn by (apply wrap_range; lia).
  apply writeVarint_inj in Rn; [|apply wrap_range; lia..].
  assert (Hlen : length (transactionHashes b) = length (transactionHashes b')).
  { unfold wrap in Rn. clear - Rn Wl Wl'.
    enough (Z.of_nat (length (transactionHashes b)) = Z.of_nat (length (transactionHashes b'))) by lia.
    dmlia. }
  destruct (tree_hash_binding_ cn_fast_hash cn_fast_hash_size (block_tx_ids cn_fast_hash b) (block_tx_ids cn_fast_hash b'))
    as [T|C]; [cbn; congruence|cbn; lia|cbn [block_tx_ids length]; lia|assumption..|symmetry; exact Rt|auto|right].
  revert C. apply collides_incl. intros x. unfold cn_inputs. rewrite !in_app_iff. tauto.
Qed.

(** The transcript of an id determines the blob and the witness. *)
Lemma block_id_parts cB sig cB' sig' : len cB < 2 ^ 64 -> len cB' < 2 ^ 64 ->
  discretePowerBlockId shake256 cB sig = discretePowerBlockId shake256 cB' sig' ->
  (cB = cB' /\ sig = sig') \/ collides (fun x => shake256 x 32) (shake_inputs cB sig ++ shake_inputs cB' sig').
Proof.
  intros L L' H.
  apply (hash_cases (fun x => shake256 x 32) (shake_inputs cB sig ++ shake_inputs cB' sig')) in H as [H|K];
    [|auto|cbn; auto 6|cbn; auto 6].
  apply app_inv_head in H. apply app_inj_len in H as [Hl H]; [|now rewrite !length_le_split].
  apply (f_equal le_combine) in Hl. rewrite !le_combine_split in Hl. unfold len in *.
  change (Z.of_nat 8 * 8) with 64 in Hl. rewrite !Z.mod_small in Hl by lia.
  apply app_inj_len in H as [E H]; [|lia].
  apply (hash_cases (fun x => shake256 x 32) (shake_inputs cB sig ++ shake_inputs cB' sig')) in H as [H|K];
    [|auto|cbn; auto 6|cbn; auto 6].
  apply app_inv_head in H. auto.
Qed.

Lemma same_ids_same_block b b' : wf_Block b -> wf_Block b' -> header b = header b' -> signature b = signature b' ->
  block_tx_ids cn_fast_hash b = block_tx_ids cn_fast_hash b' ->
  b = b' \/ collides cn_fast_hash (cn_inputs b ++ cn_inputs b').
Proof.
  intros (_ & _ & W & _) (_ & _ & W' & _) Hh Hs H. unfold block_tx_ids in H. injection H as Ht Hl.
  destruct (toBinaryArray_total tx_codec _ W) as (t & Et & _).
  destruct (toBinaryArray_total tx_codec _ W') as (t' & Et' & _).
  unfold getObjectHash in Ht. rewrite Et, Et' in Ht. cbn [snd] in Ht.
  destruct (getObjectHash_binding tx_codec cn_fast_hash (baseTransaction b) (baseTransaction b') t t' W W' Et Et' Ht) as [E|C].
  - left. destruct b, b'; cbn in *. congruence.
  - right. revert C. apply collides_incl. unfold cn_inputs. rewrite Et, Et'.
    intros x [<-|[<-|[]]]; [now left|]. apply in_app_iff. right. now left.
Qed.
End Binding.

Definition plain_version (b : Block) : Prop :=
  majorVersion (header b) <> BLOCK_MAJOR_VERSION_2 /\ majorVersion (header b) <> BLOCK_MAJOR_VERSION_3.

Lemma get_block_hash_plain cn shake pb b : plain_version b ->
  get_block_hash cn shake pb b =
    match get_block_hashing_blob cn b with None => None | Some ba => Some (discretePowerBlockId shake ba (signature b)) end.
Proof.
  intros [H2 H3]. unfold get_block_hash.
  destruct (Z.eqb_spec BLOCK_MAJOR_VERSION_2 (majorVersion (header b))); [congruence|].
  destruct (Z.eqb_spec BLOCK_MAJOR_VERSION_3 (majorVersion (header b))); [congruence|reflexivity].
Qed.

Lemma header_size h b : wf_BlockHeader h -> c_write header_codec h = Ok b -> (length b <= 66)%nat.
Proof.
  intros (_ & _ & _ & Hp & _) H. unfold c_write, header_codec, out_BlockHeader in H.
  cbn [bind c_write uint out_uint hash binary out_binary pod out_pod] in H.
  destruct (major_ok (majorVersion h)); cbn [guard bind] in H; [|discriminate]. inv_ok.
  rewrite !length_app, length_le_split. unfold len in Hp.
  pose proof (writeVarint_length (majorVersion h)). pose proof (writeVarint_length (minorVersion h)).
  pose proof (writeVarint_length (timestamp h)). lia.
Qed.

Lemma hashing_blob_size cn b ba : (forall x, length (cn x) = 32%nat) -> wf_Block b ->
  get_block_hashing_blob cn b = Some ba -> len ba < 2 ^ 64.
Proof.
  intros Hs W H. pose proof (block_tx_ids_all cn Hs b W) as A. unfold get_block_hashing_blob, toBinaryArray in H.
  destruct (c_write header_codec (header b)) as [hb|] eqn:E; [|discriminate]. inv_ok.
  apply header_size in E; [|apply W]. unfold len. rewrite !length_app. unfold get_tx_tree_hash.
  rewrite tree_hash_size; [|exact Hs|discriminate|exact A]. unfold Tools.get_varint_data.
  rewrite tools_write_varint_eq by (apply wrap_range; lia).
  pose proof (writeVarint_length (w64 (Z.of_nat (length (transactionHashes b)) + 1))). lia.
Qed.


Definition sample_parent : ParentBlock := mkParentBlock 0 0 NULL_HASH 0 [] sample_coinbase [].
Definition sample_block : Block :=
  mkBlock (mkBlockHeader 1 0 70 1700000000 NULL_HASH) sample_coinbase (repeat (b8 0) 3309) [repeat (b8 7) 32].
Definition sample_shake (b : bytes) (n : nat) : bytes := firstn n (rev b ++ repeat (b8 1) n).

Lemma sample_block_wf : wf_Block sample_block.
Proof.
  split; [|split; [|split]].
  - repeat split; vm_compute; congruence.
  - reflexivity.
  - exact sample_coinbase_wf.
  - split; [reflexivity|]. constructor; [reflexivity|constructor].
Qed.


(** Mining and verification agree: a proof made with the key of the coinbase
    verifies, with the hash the miner saw and the hash [get_block_longhash]
    recomputes, whenever the signature scheme is correct for the key pair; and a
    proof of the wrong length or with a bad signature is refused without the
    memory-hard function having any influence on the verdict. *)
Theorem pow_prove_verify cn shake256 dsa_sign dsa_verify yespower sk pk b blob sig pow :
  (forall m, length (dsa_sign sk m) = 3309%nat) ->
  (forall m, dsa_verify pk m (dsa_sign sk m) = true) ->
  get_block_hashing_blob cn b = Some blob ->
  getPqMinerSpendPubFromExtra (extra (prefix (baseTransaction b))) = Some pk ->
  discrete_power_prove shake256 dsa_sign yespower blob sk = (sig, Some pow) ->
  let mined := mkBlock (header b) (baseTransaction b) sig (transactionHashes b) in
  prevalidateBlockProofOfWork cn shake256 dsa_verify yespower mined = Some pow /\
  get_block_longhash cn shake256 yespower mined = Some pow /\
  (forall other_sig other_yespower,
    dsa_verify pk (discrete_power_sign_message shake256 (discretePowerHeaderFromBlob shake256 blob)) other_sig = false ->
    discrete_power_verify shake256 dsa_verify yespower blob pk other_sig =
    discrete_power_verify shake256 dsa_verify other_yespower blob pk other_sig).
Proof.
  intros Hl Hv Hb Hk Hp mined. unfold discrete_power_prove in Hp. injection Hp as <- Hp.
  assert (Hm : get_block_hashing_blob cn mined = Some blob) by exact Hb.
  assert (Hg : (len (signature mined) =? DISCRETE_POWER_SIG_LEN) = true) by (apply Z.eqb_eq; unfold len; cbn [signature mined]; now rewrite Hl).
  unfold prevalidateBlockProofOfWork, get_block_longhash, discrete_power_verify. rewrite Hm, Hg. cbn [baseTransaction mined].
  rewrite Hk. cbn [guard bind signature mined negb]. rewrite Hv. cbn [guard bind]. rewrite Hp. split; [reflexivity|split; [reflexivity|]].
  intros s y E. rewrite E. destruct (len s =? DISCRETE_POWER_SIG_LEN); reflexivity.
Qed.

Definition sample_pk : bytes := repeat (b8 9) 1952.
Definition sample_mined : Block :=
  mkBlock (mkBlockHeader 1 0 70 1700000000 NULL_HASH)
    (mkTransaction (mkTransactionPrefix 1 TX_COINBASE 20 [InBase (mkBaseInput 10)] []
      (addPqMinerSpendPubToExtra [] sample_pk)) []) [] [].

Definition sample_sign (sk m : bytes) : bytes := firstn 3309 (m ++ repeat (b8 0) 3309).
Definition sample_checks (pk m s : bytes) : bool := sample_sign [] m ==b s.
Definition sample_memory (h p tape : bytes) : option bytes := Some h.
Definition sample_blob : bytes :=
  match get_block_hashing_blob sample_hash sample_mined with Some x => x | None => [] end.
Definition sample_proof : bytes * option bytes := discrete_power_prove sample_shake sample_sign sample_memory sample_blob [].
Definition sample_pow : bytes := match snd sample_proof with Some p => p | None => [] end.

Lemma pow_prove_verify_witness :
  prevalidateBlockProofOfWork sample_hash sample_shake sample_checks sample_memory
    (mkBlock (header sample_mined) (baseTransaction sample_mined) (fst sample_proof) []) = Some sample_pow.
Proof.
  apply (pow_prove_verify sample_hash sample_shake sample_sign sample_checks sample_memory [] sample_pk
    sample_mined sample_blob (fst sample_proof) sample_pow).
  - intros m. unfold sample_sign. rewrite length_firstn, length_app, repeat_length. lia.
  - intros m. apply bytes_eqb_refl.
  - vm_compute. reflexivity.
  - vm_compute. reflexivity.
  - reflexivity.
Defined.
