(* ===== verification/Db.v ===== *)
(** * The block database

    [CryptoNoteCore/LMDBBlockchainDB.cpp]: the tables of the node's database,
    the typed reads and writes of the wrapper, and its write-transaction control.

    LMDB itself is an ordered map from byte strings to byte strings per table;
    the model keeps each table as a finite map over the decoded keys.  The keys
    are fixed-width big-endian numbers and hashes, so decoding is injective, and
    byte order is numeric order ([encBE_order]), which is what [MDB_LAST] and the
    cursor scans rely on.

    A write can fail: LMDB reports a full map and the wrapper throws.  When that
    happens is a parameter ([mdb_full]), so every theorem holds for any behaviour
    of the map size. *)

From Stdlib Require Import ZArith List Lia Bool.
From stdpp Require Import countable gmap sets fin_maps.
From coqutil Require Import Byte Word.LittleEndianList.
From S2P Require Import Prelude Config Transaction.
Import ListNotations.
Open Scope Z_scope.
Open Scope discrete_scope.

(** ** Byte strings as keys *)

#[export] Instance byte_eq_dec : EqDecision Init.Byte.byte := Byte.byte_eq_dec.
#[export] Program Instance byte_countable : Countable Init.Byte.byte :=
  inj_countable Byte.to_N Byte.of_N _.
Next Obligation. apply Byte.of_to_N. Qed.

Module LMDBBlockchainDB.

(** ** Keys: [encBE32], [encBE64] *)

Definition encBE (n : nat) (v : Z) : bytes := rev (le_split n v).
Definition decBE (b : bytes) : Z := le_combine (rev b).

(** ** Tables *)

Record DbBlockMeta := mkDbBlockMeta {
  m_hash : bytes;
  m_prevHash : bytes;
  m_timestamp : Z;
  m_cumulativeDifficulty : Z;
  m_alreadyGeneratedCoins : Z;
  m_blockCumulativeSize : Z;
  m_height : Z;
  m_txCount : Z;
  m_majorVersion : Z;
  m_minorVersion : Z
}.

(** The value-initialized struct a failed read leaves behind. *)
Definition zero_meta : DbBlockMeta := mkDbBlockMeta (repeat (b8 0) 32) (repeat (b8 0) 32) 0 0 0 0 0 0 0 0.

Record Db := mkDb {
  block_meta : gmap Z DbBlockMeta;             (** height *)
  block_data : gmap Z bytes;                   (** height *)
  tx_entries : gmap (Z * Z) bytes;             (** height, slot *)
  hash_to_height : gmap bytes Z;
  spent_keys : gmap bytes Z;                   (** spend tag -> height *)
  pq_acct_reg : gmap bytes (Z * Z);            (** account id -> height, slot *)
  tx_indices : gmap bytes (Z * Z);             (** tx hash -> height, slot *)
  payment_id_idx : gset (bytes * bytes);       (** payment id, tx hash *)
  timestamp_idx : gset (Z * bytes);            (** timestamp, block hash *)
  gen_tx_idx : gmap Z Z                        (** height -> transactions so far *)
}.

(** [clear()] *)
Definition empty_db : Db := mkDb ∅ ∅ ∅ ∅ ∅ ∅ ∅ ∅ ∅ ∅.

Definition set_block_meta (db : Db) t := mkDb t (block_data db) (tx_entries db) (hash_to_height db) (spent_keys db) (pq_acct_reg db) (tx_indices db) (payment_id_idx db) (timestamp_idx db) (gen_tx_idx db).
Definition set_block_data (db : Db) t := mkDb (block_meta db) t (tx_entries db) (hash_to_height db) (spent_keys db) (pq_acct_reg db) (tx_indices db) (payment_id_idx db) (timestamp_idx db) (gen_tx_idx db).
Definition set_tx_entries (db : Db) t := mkDb (block_meta db) (block_data db) t (hash_to_height db) (spent_keys db) (pq_acct_reg db) (tx_indices db) (payment_id_idx db) (timestamp_idx db) (gen_tx_idx db).
Definition set_hash_to_height (db : Db) t := mkDb (block_meta db) (block_data db) (tx_entries db) t (spent_keys db) (pq_acct_reg db) (tx_indices db) (payment_id_idx db) (timestamp_idx db) (gen_tx_idx db).
Definition set_spent_keys (db : Db) t := mkDb (block_meta db) (block_data db) (tx_entries db) (hash_to_height db) t (pq_acct_reg db) (tx_indices db) (payment_id_idx db) (timestamp_idx db) (gen_tx_idx db).
Definition set_pq_acct_reg (db : Db) t := mkDb (block_meta db) (block_data db) (tx_entries db) (hash_to_height db) (spent_keys db) t (tx_indices db) (payment_id_idx db) (timestamp_idx db) (gen_tx_idx db).
Definition set_tx_indices (db : Db) t := mkDb (block_meta db) (block_data db) (tx_entries db) (hash_to_height db) (spent_keys db) (pq_acct_reg db) t (payment_id_idx db) (timestamp_idx db) (gen_tx_idx db).
Definition set_payment_id_idx (db : Db) t := mkDb (block_meta db) (block_data db) (tx_entries db) (hash_to_height db) (spent_keys db) (pq_acct_reg db) (tx_indices db) t (timestamp_idx db) (gen_tx_idx db).
Definition set_timestamp_idx (db : Db) t := mkDb (block_meta db) (block_data db) (tx_entries db) (hash_to_height db) (spent_keys db) (pq_acct_reg db) (tx_indices db) (payment_id_idx db) t (gen_tx_idx db).
Definition set_gen_tx_idx (db : Db) t := mkDb (block_meta db) (block_data db) (tx_entries db) (hash_to_height db) (spent_keys db) (pq_acct_reg db) (tx_indices db) (payment_id_idx db) (timestamp_idx db) t.

(** ** Reads *)

(** [getChainHeight]: the last key of [block_meta], plus one. *)
Definition getChainHeight (db : Db) : Z := map_fold (fun h _ acc => Z.max (h + 1) acc) 0 (block_meta db).

(** [getBlockMeta]; most callers ignore the result and use what was left in
    the zero-initialized struct. *)
Definition getBlockMeta (db : Db) (height : Z) : option DbBlockMeta := block_meta db !! height.
Definition getBlockMeta_or_zero (db : Db) (height : Z) : DbBlockMeta := default zero_meta (getBlockMeta db height).

(** [getBlockMetaRange]: a cursor set on [fromHeight] and advanced over the
    records present, so nothing when the first one is missing. *)
Definition getBlockMetaRange (db : Db) (fromHeight toHeight : Z) : list DbBlockMeta :=
  if toHeight <? fromHeight then []
  else match getBlockMeta db fromHeight with
       | None => []
       | Some _ => omap (getBlockMeta db) (seqZ fromHeight (toHeight - fromHeight + 1))
       end.

Definition getBlockData (db : Db) (height : Z) : option bytes := block_data db !! height.
Definition getTxEntry (db : Db) (height txIdx : Z) : option bytes := tx_entries db !! (height, txIdx).
Definition getHashHeight (db : Db) (h : bytes) : option Z := hash_to_height db !! h.
Definition hasSpentKey (db : Db) (ki : bytes) : bool := bool_decide (is_Some (spent_keys db !! ki)).
Definition getSpentKeyHeight (db : Db) (ki : bytes) : option Z := spent_keys db !! ki.
Definition hasPqAcctReg (db : Db) (accountId : bytes) : bool := bool_decide (is_Some (pq_acct_reg db !! accountId)).
Definition getPqAcctReg (db : Db) (accountId : bytes) : option (Z * Z) := pq_acct_reg db !! accountId.
Definition getTxIndex (db : Db) (txHash : bytes) : option (Z * Z) := tx_indices db !! txHash.
Definition getGeneratedTxCount (db : Db) (height : Z) : option Z := gen_tx_idx db !! height.

(** ** Writes

    Each [put] throws when the map is full after it. *)

Inductive failure :=
| MapFull                 (** [LMDBMapFullException] *)
| RuntimeError.           (** any other [std::exception] *)

Section Writes.
Variable mdb_full : Db -> bool.

Definition write (db : Db) : result failure Db := if mdb_full db then Err MapFull else Ok db.

Definition putBlockMeta (db : Db) height meta := write (set_block_meta db (<[height := meta]> (block_meta db))).
Definition putBlockData (db : Db) height data := write (set_block_data db (<[height := data]> (block_data db))).
Definition putTxEntry (db : Db) height txIdx data := write (set_tx_entries db (<[(height, txIdx) := data]> (tx_entries db))).
Definition putHashHeight (db : Db) h height := write (set_hash_to_height db (<[h := height]> (hash_to_height db))).
Definition putSpentKey (db : Db) ki height := write (set_spent_keys db (<[ki := height]> (spent_keys db))).
Definition putPqAcctReg (db : Db) id height txIndex := write (set_pq_acct_reg db (<[id := (height, txIndex)]> (pq_acct_reg db))).
Definition putTxIndex (db : Db) h block slot := write (set_tx_indices db (<[h := (block, slot)]> (tx_indices db))).
Definition putPaymentId (db : Db) pid h := write (set_payment_id_idx db ({[(pid, h)]} ∪ payment_id_idx db)).
Definition putTimestamp (db : Db) ts h := write (set_timestamp_idx db ({[(ts, h)]} ∪ timestamp_idx db)).
Definition putGeneratedTxCount (db : Db) height count := write (set_gen_tx_idx db (<[height := count]> (gen_tx_idx db))).

Definition removeBlockData (db : Db) height := write (set_block_data db (delete height (block_data db))).
Definition removeHashHeight (db : Db) h := write (set_hash_to_height db (delete h (hash_to_height db))).
Definition removeSpentKey (db : Db) ki := write (set_spent_keys db (delete ki (spent_keys db))).
Definition removePqAcctReg (db : Db) id := write (set_pq_acct_reg db (delete id (pq_acct_reg db))).
Definition removeTxIndex (db : Db) h := write (set_tx_indices db (delete h (tx_indices db))).
Definition removePaymentId (db : Db) pid h := write (set_payment_id_idx db (payment_id_idx db ∖ {[(pid, h)]})).
Definition removeTimestamp (db : Db) ts h := write (set_timestamp_idx db (timestamp_idx db ∖ {[(ts, h)]})).
Definition removeGeneratedTxCount (db : Db) height := write (set_gen_tx_idx db (delete height (gen_tx_idx db))).

(** [removeLastBlockMeta]: the record under the last key. *)
Definition removeLastBlockMeta (db : Db) :=
  if getChainHeight db =? 0 then Ok db
  else write (set_block_meta db (delete (getChainHeight db - 1) (block_meta db))).

(** [removeTxEntriesForBlock]: slots [0 .. txCount). *)
Fixpoint removeTxEntries_loop (n : nat) (i height : Z) (db : Db) : result failure Db :=
  match n with
  | O => Ok db
  | S n =>
      let* db := write (set_tx_entries db (delete (height, i) (tx_entries db))) in
      removeTxEntries_loop n (i + 1) height db
  end.
Definition removeTxEntriesForBlock (db : Db) height txCount := removeTxEntries_loop (Z.to_nat txCount) 0 height db.

End Writes.

(** ** Write transactions *)

Record Store := mkStore {
  committed : Db;
  writeTxn : option Db;        (** [m_writeTxn] *)
  parentTxn : option Db        (** [m_parentWriteTxn] *)
}.

(** Reads borrow the active write transaction. *)
Definition current (s : Store) : Db := match writeTxn s with Some db => db | None => committed s end.

Definition beginWriteTxn (s : Store) : Store := mkStore (committed s) (Some (committed s)) None.
Definition beginNestedWriteTxn (s : Store) : Store := mkStore (committed s) (writeTxn s) (writeTxn s).
Definition commitNestedWriteTxn (s : Store) : Store := mkStore (committed s) (writeTxn s) None.
Definition abortNestedWriteTxn (s : Store) : Store := mkStore (committed s) (parentTxn s) None.
Definition commitTxn (s : Store) : Store := mkStore (current s) None None.
Definition abortTxn (s : Store) : Store := mkStore (committed s) None None.
Definition hasActiveTxn (s : Store) : bool := match writeTxn s with Some _ => true | None => false end.
Definition hasNestedTxn (s : Store) : bool := match parentTxn s with Some _ => true | None => false end.
Definition update (s : Store) (db : Db) : Store := mkStore (committed s) (Some db) (parentTxn s).

End LMDBBlockchainDB.
Import LMDBBlockchainDB.

(** ** Key order *)

Fixpoint bytes_compare (a b : bytes) : comparison :=
  match a, b with
  | [], [] => Eq
  | [], _ => Lt
  | _, [] => Gt
  | x :: a, y :: b => match u8 x ?= u8 y with Eq => bytes_compare a b | c => c end
  end.

Lemma bytes_compare_app a : forall b c d, length a = length b ->
  bytes_compare (a ++ c) (b ++ d) = match bytes_compare a b with Eq => bytes_compare c d | r => r end.
Proof.
  induction a as [|x a IH]; intros [|y b] c d L; try discriminate L; [reflexivity|].
  cbn. destruct (u8 x ?= u8 y); [apply IH; now injection L|reflexivity..].
Qed.

Lemma encBE_step n v : encBE (S n) v = encBE n (v / 256) ++ [b8 v].
Proof.
  unfold encBE. change (le_split (S n) v) with (b8 v :: le_split n (Z.shiftr v 8)).
  rewrite Z.shiftr_div_pow2 by lia. reflexivity.
Qed.

(** Byte order of the keys is the order of the numbers, so the last key of a
    table is the greatest height and a range scan visits heights in order. *)
Lemma encBE_order n : forall a b, in_w (8 * Z.of_nat n) a -> in_w (8 * Z.of_nat n) b ->
  bytes_compare (encBE n a) (encBE n b) = (a ?= b).
Proof.
  induction n as [|n IH]; intros a b Ha Hb; unfold in_w in *.
  - cbn. symmetry. apply Z.compare_eq_iff. cbn in *. lia.
  - replace (8 * Z.of_nat (S n)) with (8 + 8 * Z.of_nat n) in * by lia.
    rewrite Z.pow_add_r in * by lia. change (2 ^ 8) with 256 in *.
    set (m := 2 ^ (8 * Z.of_nat n)) in *.
    rewrite !encBE_step, bytes_compare_app
      by (unfold encBE; rewrite !length_rev, !length_le_split; reflexivity).
    rewrite IH by (split; dmlia). cbn [bytes_compare]. rewrite !u8_b8_wrap.
    destruct (Z.compare_spec (a / 256) (b / 256)).
    + destruct (Z.compare_spec (a mod 256) (b mod 256)), (Z.compare_spec a b); try reflexivity; dmlia.
    + symmetry. apply Z.compare_lt_iff. dmlia.
    + symmetry. apply Z.compare_gt_iff. dmlia.
Qed.

(** ** Chain height *)

(** The heights stored are exactly [0 .. n). *)
Definition heights_are (n : Z) (db : Db) : Prop := forall h, is_Some (block_meta db !! h) <-> 0 <= h < n.

Lemma getChainHeight_contiguous n db : 0 <= n -> heights_are n db -> getChainHeight db = n.
Proof.
  intros Hn H. unfold heights_are in H. unfold getChainHeight.
  enough (P : (forall h, is_Some (block_meta db !! h) -> h + 1 <= map_fold (fun h _ acc => Z.max (h + 1) acc) 0 (block_meta db)) /\
     (map_fold (fun h _ acc => Z.max (h + 1) acc) 0 (block_meta db) = 0 \/
      is_Some (block_meta db !! (map_fold (fun h _ acc => Z.max (h + 1) acc) 0 (block_meta db) - 1)))).
  { destruct P as [P1 P2]. set (r := map_fold _ _ _) in *.
    assert (r <= n) by (destruct P2 as [->|P2]; [lia|]; apply H in P2; lia).
    destruct (Z.eq_dec n 0); [destruct P2 as [P2|P2]; [lia|apply H in P2; lia]|].
    pose proof (P1 (n - 1) (proj2 (H (n - 1)) ltac:(lia))). lia. }
  clear n Hn H. apply (map_fold_weak_ind (fun r m => (forall h, is_Some (m !! h) -> h + 1 <= r) /\ (r = 0 \/ is_Some (m !! (r - 1))))).
  - split; [|auto]. intros h [x Hx]. rewrite lookup_empty in Hx. discriminate.
  - intros i x m r Hi [H1 H2]. split.
    + intros h Hh. rewrite lookup_insert_is_Some in Hh. destruct Hh as [->|[_ Hh]]; [lia|]. apply H1 in Hh. lia.
    + destruct (Z.max_spec (i + 1) r) as [[L ->]|[L ->]].
      * destruct H2 as [->|H2]; [auto|right]. rewrite lookup_insert_is_Some.
        destruct (Z.eq_dec i (r - 1)); auto.
      * right. rewrite lookup_insert_is_Some. left. lia.
Qed.

(** ** Growing and shrinking tables *)

(** [m'] is [m] with entries at fresh keys [ks]. *)
Definition ext {K A} `{Countable K} (ks : list K) (m m' : gmap K A) : Prop :=
  (forall k, k ∉ ks -> m' !! k = m !! k) /\ (forall k, k ∈ ks -> m !! k = None).

(** [m'] is [m] without the keys [ks]. *)
Definition del {K A} `{Countable K} (ks : list K) (m m' : gmap K A) : Prop :=
  forall k, m' !! k = if decide (k ∈ ks) then None else m !! k.

Section Tables.
Context {K A : Type} `{Countable K}.
Implicit Types (m : gmap K A) (ks : list K).

Lemma ext_nil m : ext [] m m.
Proof. split; [reflexivity|]. intros k Hk. inversion Hk. Qed.

Lemma ext_insert k v m : m !! k = None -> ext [k] m (<[k := v]> m).
Proof.
  intros Hm. split; intros j Hj; [apply lookup_insert_ne; set_solver|].
  apply list_elem_of_singleton in Hj as ->. exact Hm.
Qed.

Lemma ext_app ks1 ks2 m m1 m2 : ext ks1 m m1 -> ext ks2 m1 m2 -> ext (ks1 ++ ks2) m m2.
Proof.
  intros [E1 F1] [E2 F2]. split.
  - intros k Hk. rewrite E2, E1; set_solver.
  - intros k Hk. destruct (decide (k ∈ ks1)); [auto|]. rewrite <- E1 by assumption. set_solver.
Qed.

Lemma del_nil m : del [] m m.
Proof. intros k. reflexivity. Qed.

Lemma del_one k m : del [k] m (delete k m).
Proof.
  intros j. destruct (decide (j ∈ [k])) as [E|E].
  - apply list_elem_of_singleton in E as ->. apply lookup_delete_eq.
  - apply lookup_delete_ne. set_solver.
Qed.

Lemma del_app ks1 ks2 m m1 m2 : del ks1 m m1 -> del ks2 m1 m2 -> del (ks1 ++ ks2) m m2.
Proof. intros D1 D2 k. rewrite D2, D1. repeat case_decide; try reflexivity; set_solver. Qed.

(** Removing what was added gives the table back. *)
Lemma del_ext ks ks' m m1 m2 : ext ks m m1 -> del ks' m1 m2 ->
  (forall k, k ∈ ks -> k ∈ ks') -> (forall k, k ∈ ks' -> m !! k = None) -> m2 = m.
Proof.
  intros [E F] D Hs Hn. apply map_eq. intros k. rewrite D. case_decide as Hk.
  - symmetry. auto.
  - apply E. auto.
Qed.
End Tables.

Lemma write_ok full db db' : write full db = Ok db' -> db' = db.
Proof. unfold write. destruct (full db); congruence. Qed.

Lemma write_err full db e : write full db = Err e -> e = MapFull.
Proof. unfold write. destruct (full db); congruence. Qed.

Lemma hasSpentKey_false db k : hasSpentKey db k = false <-> spent_keys db !! k = None.
Proof. unfold hasSpentKey. rewrite bool_decide_eq_false, eq_None_not_Some. reflexivity. Qed.

Lemma hasPqAcctReg_false db k : hasPqAcctReg db k = false <-> pq_acct_reg db !! k = None.
Proof. unfold hasPqAcctReg. rewrite bool_decide_eq_false, eq_None_not_Some. reflexivity. Qed.
