(* ===== verification/ChainStore.v ===== *)
(** * Connecting and disconnecting blocks in the database

    The part of [CryptoNoteCore/Blockchain.cpp] that writes a block's effects to
    the database and takes them back: [pushTransaction], the inner [pushBlock],
    [popTransaction], [removeLastBlock] and [transactionByIndex].

    The main lemma ([removal_undoes]) is that removal undoes connection on every table.  It needs
    one fact about the block that these functions do not check themselves: the
    coinbase carries no registration of an account registered earlier, because
    [popTransaction] removes a coinbase's registration while [pushTransaction]
    never enters one. *)

From Stdlib Require Import ZArith List Lia Bool.
From stdpp Require Import countable gmap sets fin_maps.
From coqutil Require Import Byte Word.LittleEndianList.
From S2P Require Import Prelude Config Transaction Extra PqDerive PqValidation BlockFormat Db.
Import ListNotations.
Open Scope Z_scope.
Open Scope discrete_scope.
Import Serialization TransactionExtra PqValidation LMDBBlockchainDB.

Module ChainStore.

Record TransactionEntry := mkTransactionEntry { te_tx : Transaction; m_global_output_indexes : list Z }.

Record BlockEntry := mkBlockEntry {
  bl : Block;
  be_height : Z;
  block_cumulative_size : Z;
  cumulative_difficulty : Z;
  already_generated_coins : Z;
  be_transactions : list TransactionEntry
}.

(** [toBinaryArray(tx)] for a transaction that has a wire form; the pool holds
    no other. *)
Definition tx_blob (tx : Transaction) : bytes := default [] (toBinaryArray tx_codec tx).

(** [u32 tx_size | tx_blob | u32 num_gidx | u32 gidx ...], in host (little
    endian) order. *)
Definition tx_entry (te : TransactionEntry) : bytes :=
  let blob := tx_blob (te_tx te) in
  let gidx := m_global_output_indexes te in
  le_split 4 (w32 (len blob)) ++ blob ++ le_split 4 (w32 (Z.of_nat (length gidx))) ++
  concat (map (le_split 4) gidx).

(** [transactionByIndex]: a missing, truncated or unreadable entry throws. *)
Definition transactionByIndex (db : Db) (block transaction : Z) : result failure TransactionEntry :=
  match getTxEntry db block transaction with
  | None => Err RuntimeError
  | Some raw =>
      check 4 <=? len raw else RuntimeError ;;
      let txSize := le_combine (firstn 4 raw) in
      let p := skipn 4 raw in
      check 4 + txSize + 4 <=? len raw else RuntimeError ;;
      match fromBinaryArray tx_codec (firstn (Z.to_nat txSize) p) with
      | None => Err RuntimeError
      | Some tx =>
          let p := skipn (Z.to_nat txSize) p in
          let numGidx := Z.to_nat (le_combine (firstn 4 p)) in
          let p := skipn 4 p in
          Ok (mkTransactionEntry tx (map (fun i => le_combine (firstn 4 (skipn (4 * i) p))) (seq 0 numGidx)))
      end
  end.

Section Store.
Variable sha3_256 : bytes -> bytes.
Variable cn_fast_hash : bytes -> bytes.
Variable mdb_full : Db -> bool.

(** [spendImageForInput] *)
Definition spendImageForInput (i : TransactionInput) : option bytes :=
  match i with InPq k => Some (pqNullifier sha3_256 k) | InBase _ => None end.
Definition images (tx : Transaction) : list bytes := omap spendImageForInput (inputs (prefix tx)).

(** The account a transaction's extra registers. *)
Definition registration (tx : Transaction) : option bytes :=
  match getPqAccountRegistrationFromExtra (extra (prefix tx)) with
  | Some (viewPub, spendPub) => Some (getPqAccountIdentityHash sha3_256 viewPub spendPub)
  | None => None
  end.

(** ** [pushTransaction] *)

(** The roll-back of the tags written so far. *)
Fixpoint unspend_loop (done : list TransactionInput) (db : Db) : result failure Db :=
  match done with
  | [] => Ok db
  | i :: done =>
      let* db := match spendImageForInput i with Some prev => removeSpentKey mdb_full db prev | None => Ok db end in
      unspend_loop done db
  end.

Fixpoint spend_loop (height : Z) (done rest : list TransactionInput) (db : Db) : result failure (bool * Db) :=
  match rest with
  | [] => Ok (true, db)
  | i :: rest =>
      match spendImageForInput i with
      | None => spend_loop height (done ++ [i]) rest db
      | Some img =>
          if hasSpentKey db img then let* db := unspend_loop done db in Ok (false, db)
          else let* db := putSpentKey mdb_full db img height in spend_loop height (done ++ [i]) rest db
      end
  end.

Definition put_payment (tx : Transaction) (transactionHash : bytes) (db : Db) : result failure Db :=
  match getPaymentIdFromTxExtra (extra (prefix tx)) with
  | Some paymentId => putPaymentId mdb_full db paymentId transactionHash
  | None => Ok db
  end.

Definition put_registration (tx : Transaction) (height slot : Z) (db : Db) : result failure (bool * Db) :=
  if slot =? 0 then Ok (true, db)
  else match registration tx with
       | None => Ok (true, db)
       | Some accountId =>
           if hasPqAcctReg db accountId then Ok (false, db)
           else let* db := putPqAcctReg mdb_full db accountId height slot in Ok (true, db)
       end.

Definition pushTransaction (db : Db) (height slot : Z) (transactionHash : bytes) (tx : Transaction)
  : result failure (bool * Db) :=
  match getTxIndex db transactionHash with
  | Some _ => Ok (false, db)
  | None =>
      let* (spent, db) := spend_loop height [] (inputs (prefix tx)) db in
      if negb spent then Ok (false, db)
      else
        let gidx := repeat 0 (length (outputs (prefix tx))) in
        let* db := putTxIndex mdb_full db transactionHash height slot in
        let* db := put_payment tx transactionHash db in
        let* (fresh, db) := put_registration tx height slot db in
        if negb fresh then Ok (false, db)
        else
          let* db := putTxEntry mdb_full db height slot (tx_entry (mkTransactionEntry tx gidx)) in
          Ok (true, db)
  end.

(** ** [popTransaction] *)

Definition popTransaction (db : Db) (tx : Transaction) (transactionHash : bytes) : result failure Db :=
  let* db := unspend_loop (inputs (prefix tx)) db in
  let* db := match getPaymentIdFromTxExtra (extra (prefix tx)) with
             | Some paymentId => removePaymentId mdb_full db paymentId transactionHash
             | None => Ok db
             end in
  let* db := match registration tx with
             | Some accountId => removePqAcctReg mdb_full db accountId
             | None => Ok db
             end in
  removeTxIndex mdb_full db transactionHash.

(** ** The inner [pushBlock] *)

Definition block_meta_of (block : BlockEntry) (blockHash : bytes) : DbBlockMeta :=
  let h := header (bl block) in
  mkDbBlockMeta blockHash
    (if 0 <? be_height block then previousBlockHash h else repeat (b8 0) 32)
    (timestamp h) (cumulative_difficulty block) (already_generated_coins block)
    (w32 (block_cumulative_size block)) (be_height block)
    (w16 (Z.of_nat (length (be_transactions block)))) (majorVersion h) (minorVersion h).

Definition block_blob (b : Block) : bytes := default [] (toBinaryArray block_codec b).

Definition pushBlockEntry (db : Db) (block : BlockEntry) (blockHash : bytes) : result failure Db :=
  let height := be_height block in
  let* db := putBlockMeta mdb_full db height (block_meta_of block blockHash) in
  let* db := putBlockData mdb_full db height (block_blob (bl block)) in
  let* db := putHashHeight mdb_full db blockHash height in
  let* db := putTimestamp mdb_full db (timestamp (header (bl block))) blockHash in
  let prevGenTx := if 0 <? height then default 0 (getGeneratedTxCount db (height - 1)) else 0 in
  putGeneratedTxCount mdb_full db height
    (w64 (prevGenTx + Z.of_nat (length (transactionHashes (bl block))) + 1)).

(** ** [removeLastBlock] *)

(** Phase 1: the transactions of the block, with their hashes. *)
Fixpoint read_loop (n : nat) (t : Z) (height : Z) (blk : Block) (db : Db)
  : result failure (list (bytes * Transaction)) :=
  match n with
  | O => Ok []
  | S n =>
      let* te := transactionByIndex db height t in
      let txHash := if t =? 0 then snd (getObjectHash cn_fast_hash tx_codec (baseTransaction blk))
                    else nth (Z.to_nat (t - 1)) (transactionHashes blk) [] in
      let* rest := read_loop n (t + 1) height blk db in
      Ok ((txHash, te_tx te) :: rest)
  end.

Fixpoint pop_loop (txs : list (bytes * Transaction)) (db : Db) : result failure Db :=
  match txs with
  | [] => Ok db
  | (h, tx) :: txs => let* db := popTransaction db tx h in pop_loop txs db
  end.

(** What phase 1 found: the height, the record and the transactions. *)
Record Removal := mkRemoval { rm_height : Z; rm_meta : DbBlockMeta; txToRemove : list (bytes * Transaction) }.

(** [None] is an early [return]. *)
Definition removal_of (db : Db) : result failure (option Removal) :=
  let chainHeight := getChainHeight db in
  if chainHeight =? 0 then Ok None
  else
    let height := chainHeight - 1 in
    match getBlockMeta db height with
    | None => Ok None
    | Some meta =>
        match getBlockData db height with
        | None => Ok None
        | Some bdata =>
            match fromBinaryArray block_codec bdata with
            | None => Ok None
            | Some blk =>
                let* txs := read_loop (Z.to_nat (m_txCount meta)) 0 height blk db in
                Ok (Some (mkRemoval height meta txs))
            end
        end
    end.

(** Phase 2, inside a write transaction. *)
Definition remove (rm : Removal) (db : Db) : result failure Db :=
  let height := rm_height rm in
  let meta := rm_meta rm in
  let* db := pop_loop (rev (txToRemove rm)) db in
  let* db := removeTxEntriesForBlock mdb_full db height (m_txCount meta) in
  let* db := removeBlockData mdb_full db height in
  let* db := removeHashHeight mdb_full db (m_hash meta) in
  let* db := removeGeneratedTxCount mdb_full db height in
  let* db := removeTimestamp mdb_full db (m_timestamp meta) (m_hash meta) in
  removeLastBlockMeta mdb_full db.

(** The transactions of a block, pushed in slot order from [slot] on. *)
Fixpoint push_txs (db : Db) (height slot : Z) (txs : list (bytes * Transaction)) : result failure (bool * Db) :=
  match txs with
  | [] => Ok (true, db)
  | (h, tx) :: txs =>
      let* (ok, db) := pushTransaction db height slot h tx in
      if negb ok then Ok (false, db) else push_txs db height (slot + 1) txs
  end.

End Store.
End ChainStore.
Import ChainStore.

(** ** What [pushTransaction] adds *)

(** Inverts a write that succeeded. *)
Ltac inv_write H :=
  let E := fresh "W" in
  match type of H with
  | bind ?c _ = Ok _ => destruct c eqn:E; cbn [bind] in H; [apply write_ok in E; subst|discriminate H]
  end.

Section Effects.
Variable sha3_256 : bytes -> bytes.
Variable mdb_full : Db -> bool.

Abbreviation images := (images sha3_256).
Abbreviation registration := (registration sha3_256).
Abbreviation spendImage := (spendImageForInput sha3_256).

(** Accounts entered for a transaction in [slot]. *)
Definition entered (slot : Z) (tx : Transaction) : list bytes :=
  if slot =? 0 then [] else option_list (registration tx).
Definition payment (h : bytes) (tx : Transaction) : list (bytes * bytes) :=
  match getPaymentIdFromTxExtra (extra (prefix tx)) with Some p => [(p, h)] | None => [] end.
Definition stored (tx : Transaction) : bytes :=
  tx_entry (mkTransactionEntry tx (repeat 0 (length (outputs (prefix tx))))).

Lemma spend_loop_ok height rest : forall done db db',
  spend_loop sha3_256 mdb_full height done rest db = Ok (true, db') ->
  exists s, db' = set_spent_keys db s /\ NoDup (omap spendImage rest) /\
    ext (omap spendImage rest) (spent_keys db) s /\
    (forall k, k ∈ omap spendImage rest -> s !! k = Some height).
Proof.
  induction rest as [|i rest IH]; intros done db db' H; cbn [spend_loop] in H.
  - inv_ok. exists (spent_keys db'). destruct db'. cbn. repeat split; [constructor|inversion 1|inversion 1].
  - cbn [omap list_omap]. destruct (spendImage i) as [img|] eqn:Ei.
    + destruct (hasSpentKey db img) eqn:Eh.
      { destruct (unspend_loop sha3_256 mdb_full done db); cbn [bind] in H; discriminate. }
      apply hasSpentKey_false in Eh. inv_write H.
      apply IH in H as (s & -> & ND & E & V). exists s. split; [destruct db; reflexivity|].
      change (spent_keys (set_spent_keys db (<[img:=height]> (spent_keys db)))) with (<[img:=height]> (spent_keys db)) in E.
      assert (Hni : img ∉ omap spendImage rest).
      { intros Hin. apply E in Hin. rewrite lookup_insert_eq in Hin. discriminate. }
      split; [now constructor|]. split.
      * apply (ext_app [img] _ _ (<[img:=height]> (spent_keys db))); [now apply ext_insert|exact E].
      * intros k Hk. apply elem_of_cons in Hk as [->|Hk]; [|auto].
        rewrite (proj1 E) by assumption. apply lookup_insert_eq.
    + apply IH in H. exact H.
Qed.

Record push_effect (height slot : Z) (h : bytes) (tx : Transaction) (db db' : Db) : Prop := {
  pe_fresh : tx_indices db !! h = None;
  pe_meta : block_meta db' = block_meta db;
  pe_data : block_data db' = block_data db;
  pe_hash : hash_to_height db' = hash_to_height db;
  pe_ts : timestamp_idx db' = timestamp_idx db;
  pe_gen : gen_tx_idx db' = gen_tx_idx db;
  pe_entries : tx_entries db' = <[(height, slot) := stored tx]> (tx_entries db);
  pe_index : tx_indices db' = <[h := (height, slot)]> (tx_indices db);
  pe_pay : payment_id_idx db' = list_to_set (payment h tx) ∪ payment_id_idx db;
  pe_reg : ext (entered slot tx) (pq_acct_reg db) (pq_acct_reg db');
  pe_reg_at : forall k, k ∈ entered slot tx -> pq_acct_reg db' !! k = Some (height, slot);
  pe_nodup : NoDup (images tx);
  pe_spent : ext (images tx) (spent_keys db) (spent_keys db');
  pe_spent_at : forall k, k ∈ images tx -> spent_keys db' !! k = Some height
}.

Lemma put_registration_ok tx height slot db db' :
  put_registration sha3_256 mdb_full tx height slot db = Ok (true, db') ->
  exists r, db' = set_pq_acct_reg db r /\ ext (entered slot tx) (pq_acct_reg db) r /\
    (forall k, k ∈ entered slot tx -> r !! k = Some (height, slot)).
Proof.
  unfold put_registration, entered. intros H.
  assert (Hid : forall d : Db, d = set_pq_acct_reg d (pq_acct_reg d)) by (intros []; reflexivity).
  destruct (slot =? 0); [inv_ok; exists (pq_acct_reg db'); split; [apply Hid|split; [apply ext_nil|inversion 1]]|].
  destruct (registration tx) as [id|]; [|inv_ok; exists (pq_acct_reg db'); split; [apply Hid|split; [apply ext_nil|inversion 1]]].
  destruct (hasPqAcctReg db id) eqn:E; [discriminate|]. apply hasPqAcctReg_false in E.
  inv_write H. inv_ok. eexists. split; [reflexivity|split; [now apply ext_insert|]].
  intros k Hk. apply list_elem_of_singleton in Hk as ->. apply lookup_insert_eq.
Qed.

Lemma put_payment_ok tx h db db' : put_payment mdb_full tx h db = Ok db' ->
  db' = set_payment_id_idx db (list_to_set (payment h tx) ∪ payment_id_idx db).
Proof.
  unfold put_payment, payment. destruct (getPaymentIdFromTxExtra _) as [p|]; intros H.
  - apply write_ok in H as ->. f_equal. cbn. set_solver.
  - inv_ok. destruct db' as []. cbn. unfold set_payment_id_idx. cbn. f_equal. set_solver.
Qed.

Lemma pushTransaction_ok db height slot h tx db' :
  pushTransaction sha3_256 mdb_full db height slot h tx = Ok (true, db') -> push_effect height slot h tx db db'.
Proof.
  unfold pushTransaction, getTxIndex. destruct (tx_indices db !! h) eqn:Ef; [discriminate|].
  destruct (spend_loop _ _ _ _ _ db) as [[spent db1]|] eqn:Es; cbn [bind]; [|discriminate].
  destruct spent; cbn [negb]; [|discriminate]. apply spend_loop_ok in Es as (s & -> & ND & E & V).
  intros H. inv_write H.
  destruct (put_payment _ _ _ _) eqn:Ep; cbn [bind] in H; [|discriminate]. apply put_payment_ok in Ep as ->.
  destruct (put_registration _ _ _ _ _ _) as [[fresh db2]|] eqn:Er; cbn [bind] in H; [|discriminate].
  destruct fresh; cbn [negb] in H; [|discriminate]. apply put_registration_ok in Er as (r & -> & Hr & Hat).
  inv_write H. inv_ok. constructor; try reflexivity; assumption.
Qed.

(** ** What the transactions of a block add *)

Definition all_images (txs : list (bytes * Transaction)) : list bytes := txs ≫= fun p => images p.2.
Fixpoint all_entered (slot : Z) (txs : list (bytes * Transaction)) : list bytes :=
  match txs with
  | [] => []
  | (h, tx) :: txs => entered slot tx ++ all_entered (slot + 1) txs
  end.
Definition all_payments (txs : list (bytes * Transaction)) : list (bytes * bytes) := txs ≫= fun p => payment p.1 p.2.

Record txs_effect (height slot : Z) (txs : list (bytes * Transaction)) (db db' : Db) : Prop := {
  te_meta : block_meta db' = block_meta db;
  te_data : block_data db' = block_data db;
  te_hash : hash_to_height db' = hash_to_height db;
  te_ts : timestamp_idx db' = timestamp_idx db;
  te_gen : gen_tx_idx db' = gen_tx_idx db;
  te_entries_new : forall i h tx, txs !! i = Some (h, tx) ->
    tx_entries db' !! (height, slot + Z.of_nat i) = Some (stored tx);
  te_entries_old : forall k, k.1 <> height \/ k.2 < slot \/ slot + Z.of_nat (length txs) <= k.2 ->
    tx_entries db' !! k = tx_entries db !! k;
  te_index : ext txs.*1 (tx_indices db) (tx_indices db');
  te_index_nodup : NoDup txs.*1;
  te_index_at : forall i h tx, txs !! i = Some (h, tx) -> tx_indices db' !! h = Some (height, slot + Z.of_nat i);
  te_pay : payment_id_idx db' = list_to_set (all_payments txs) ∪ payment_id_idx db;
  te_reg : ext (all_entered slot txs) (pq_acct_reg db) (pq_acct_reg db');
  te_reg_nodup : NoDup (all_entered slot txs);
  te_reg_at : forall k, k ∈ all_entered slot txs -> exists i, pq_acct_reg db' !! k = Some (height, i);
  te_nodup : NoDup (all_images txs);
  te_spent : ext (all_images txs) (spent_keys db) (spent_keys db');
  te_spent_at : forall k, k ∈ all_images txs -> spent_keys db' !! k = Some height
}.

Lemma txs_effect_nil height slot db : txs_effect height slot [] db db.
Proof.
  constructor; try reflexivity; try apply ext_nil; try apply NoDup_nil_2.
  - intros i h tx Hi. rewrite lookup_nil in Hi. discriminate.
  - intros i h tx Hi. rewrite lookup_nil in Hi. discriminate.
  - cbn. set_solver.
  - intros k Hk. inversion Hk.
  - cbn. set_solver.
Qed.

Lemma entered_nodup slot tx : NoDup (entered slot tx).
Proof. unfold entered. destruct (slot =? 0), (registration tx); cbn; first [apply NoDup_singleton|constructor]. Qed.

Lemma txs_effect_cons height slot h tx txs db db1 db2 :
  push_effect height slot h tx db db1 -> txs_effect height (slot + 1) txs db1 db2 ->
  txs_effect height slot ((h, tx) :: txs) db db2.
Proof.
  intros P T. constructor; try (etransitivity; [solve [apply T]|solve [apply P]]); cbn [fmap list_fmap].
  - intros [|i] g u Hi; cbn in Hi.
    + injection Hi as <- <-. rewrite (te_entries_old _ _ _ _ _ T), (pe_entries _ _ _ _ _ _ P) by (cbn; lia).
      rewrite Z.add_0_r. apply lookup_insert_eq.
    + rewrite <- (te_entries_new _ _ _ _ _ T i g u Hi). do 2 f_equal. lia.
  - intros [a b] Hk. cbn [fst snd length] in Hk. rewrite (te_entries_old _ _ _ _ _ T), (pe_entries _ _ _ _ _ _ P) by (cbn [fst snd]; lia).
    apply lookup_insert_ne. intros E. injection E as E1 E2. lia.
  - apply (ext_app [h] _ _ (tx_indices db1)); [|apply T].
    rewrite (pe_index _ _ _ _ _ _ P). apply ext_insert, P.
  - constructor; [|apply T]. intros Hin. apply (proj2 (te_index _ _ _ _ _ T)) in Hin.
    rewrite (pe_index _ _ _ _ _ _ P), lookup_insert_eq in Hin. discriminate.
  - intros [|i] g u Hi; cbn in Hi.
    + injection Hi as <- <-. rewrite Z.add_0_r, (proj1 (te_index _ _ _ _ _ T)), (pe_index _ _ _ _ _ _ P).
      * apply lookup_insert_eq.
      * intros Hin. apply (proj2 (te_index _ _ _ _ _ T)) in Hin.
        rewrite (pe_index _ _ _ _ _ _ P), lookup_insert_eq in Hin. discriminate.
    + rewrite (te_index_at _ _ _ _ _ T i g u Hi). do 2 f_equal. lia.
  - rewrite (te_pay _ _ _ _ _ T), (pe_pay _ _ _ _ _ _ P). unfold all_payments. cbn [mbind list_bind fst snd].
    rewrite list_to_set_app_L. set_solver.
  - cbn [all_entered]. eapply ext_app; [apply P|apply T].
  - cbn [all_entered]. apply NoDup_app. split; [apply entered_nodup|split; [|apply T]].
    intros k Hk Hin. apply (proj2 (te_reg _ _ _ _ _ T)) in Hin. rewrite (pe_reg_at _ _ _ _ _ _ P k Hk) in Hin. discriminate.
  - cbn [all_entered]. intros k Hk. apply elem_of_app in Hk as [Hk|Hk]; [|now apply T].
    exists slot. rewrite (proj1 (te_reg _ _ _ _ _ T)); [now apply P|].
    intros Hin. apply (proj2 (te_reg _ _ _ _ _ T)) in Hin. rewrite (pe_reg_at _ _ _ _ _ _ P k Hk) in Hin. discriminate.
  - unfold all_images. cbn [mbind list_bind snd]. apply NoDup_app. split; [apply P|split; [|apply T]].
    intros k Hk Hin. apply (proj2 (te_spent _ _ _ _ _ T)) in Hin. rewrite (pe_spent_at _ _ _ _ _ _ P k Hk) in Hin. discriminate.
  - unfold all_images. cbn [mbind list_bind snd]. eapply ext_app; [apply P|apply T].
  - unfold all_images. cbn [mbind list_bind snd]. intros k Hk. apply elem_of_app in Hk as [Hk|Hk]; [|now apply T].
    rewrite (proj1 (te_spent _ _ _ _ _ T)); [now apply P|].
    intros Hin. apply (proj2 (te_spent _ _ _ _ _ T)) in Hin. rewrite (pe_spent_at _ _ _ _ _ _ P k Hk) in Hin. discriminate.
Qed.

Lemma push_txs_ok txs : forall height slot db db',
  push_txs sha3_256 mdb_full db height slot txs = Ok (true, db') -> txs_effect height slot txs db db'.
Proof.
  induction txs as [|[h tx] txs IH]; intros height slot db db' H; cbn [push_txs] in H.
  - inv_ok. apply txs_effect_nil.
  - destruct (pushTransaction _ _ _ _ _ _ _) as [[ok db1]|] eqn:E; cbn [bind] in H; [|discriminate].
    destruct ok; cbn [negb] in H; [|discriminate].
    apply pushTransaction_ok in E. apply IH in H. eapply txs_effect_cons; eassumption.
Qed.
End Effects.

(** ** What [popTransaction] removes *)

Section Removal.
Variable sha3_256 : bytes -> bytes.
Variable mdb_full : Db -> bool.
Abbreviation images := (images sha3_256).
Abbreviation registration := (registration sha3_256).
Abbreviation spendImage := (spendImageForInput sha3_256).
Abbreviation all_images := (all_images sha3_256).

Definition all_registrations (txs : list (bytes * Transaction)) : list bytes :=
  txs ≫= fun p => option_list (registration p.2).

(** A step of the removal ends in the expected state, or the map was full. *)
Definition settles (r : result failure Db) (P : Db -> Prop) : Prop :=
  match r with Ok db => P db | Err e => e = MapFull /\ exists d, mdb_full d = true end.

Lemma settles_bind (r : result failure Db) k P Q :
  settles r P -> (forall db, P db -> settles (k db) Q) -> settles (let* db := r in k db) Q.
Proof. destruct r; cbn; auto. Qed.

Lemma settles_impl (r : result failure Db) (P Q : Db -> Prop) : settles r P -> (forall db, P db -> Q db) -> settles r Q.
Proof. destruct r; cbn; auto. Qed.

Lemma settles_write db : settles (write mdb_full db) (fun db' => db' = db).
Proof. unfold write, settles. destruct (mdb_full db) eqn:E; eauto. Qed.

Lemma unspend_loop_settles done : forall db,
  settles (unspend_loop sha3_256 mdb_full done db) (fun db' =>
    exists s, db' = set_spent_keys db s /\ del (omap spendImage done) (spent_keys db) s).
Proof.
  induction done as [|i done IH]; intros db; cbn [unspend_loop omap list_omap].
  - cbn. exists (spent_keys db). split; [destruct db; reflexivity|apply del_nil].
  - apply (settles_bind _ _ (fun db1 => exists s, db1 = set_spent_keys db s /\
      del (option_list (spendImage i)) (spent_keys db) s)).
    + destruct (spendImage i) as [img|].
      * eapply settles_impl; [apply settles_write|]. intros ? ->. eexists. split; [reflexivity|apply del_one].
      * cbn. exists (spent_keys db). split; [destruct db; reflexivity|apply del_nil].
    + intros db1 (s & -> & D). eapply settles_impl; [apply IH|]. intros ? (s' & -> & D').
      exists s'. split; [destruct db; reflexivity|].
      pose proof (del_app _ _ _ _ _ D D') as DD. destruct (spendImage i); exact DD.
Qed.

Record pop_effect (txs : list (bytes * Transaction)) (db db' : Db) : Prop := {
  po_meta : block_meta db' = block_meta db;
  po_data : block_data db' = block_data db;
  po_entries : tx_entries db' = tx_entries db;
  po_hash : hash_to_height db' = hash_to_height db;
  po_ts : timestamp_idx db' = timestamp_idx db;
  po_gen : gen_tx_idx db' = gen_tx_idx db;
  po_spent : del (all_images txs) (spent_keys db) (spent_keys db');
  po_reg : del (all_registrations txs) (pq_acct_reg db) (pq_acct_reg db');
  po_index : del txs.*1 (tx_indices db) (tx_indices db');
  po_pay : payment_id_idx db' = payment_id_idx db ∖ list_to_set (all_payments txs)
}.

Lemma popTransaction_settles db tx h :
  settles (popTransaction sha3_256 mdb_full db tx h) (pop_effect [(h, tx)] db).
Proof.
  unfold popTransaction. eapply settles_bind; [apply unspend_loop_settles|]. intros ? (s & -> & D).
  apply (settles_bind _ _ (fun db' => db' = set_payment_id_idx (set_spent_keys db s) (payment_id_idx db ∖ list_to_set (payment h tx)))).
  { unfold payment. destruct (getPaymentIdFromTxExtra _) as [p|].
    - eapply settles_impl; [apply settles_write|]. intros ? ->. f_equal. cbn. set_solver.
    - cbn. destruct db. unfold set_spent_keys, set_payment_id_idx. cbn. f_equal. set_solver. }
  intros ? ->.
  apply (settles_bind _ _ (fun db' => exists r, db' = set_pq_acct_reg (set_payment_id_idx (set_spent_keys db s) (payment_id_idx db ∖ list_to_set (payment h tx))) r
     /\ del (option_list (registration tx)) (pq_acct_reg db) r)).
  { destruct (registration tx) as [id|].
    - eapply settles_impl; [apply settles_write|]. intros ? ->. eexists. split; [reflexivity|apply del_one].
    - cbn. exists (pq_acct_reg db). split; [destruct db; reflexivity|apply del_nil]. }
  intros ? (r & -> & Dr). eapply settles_impl; [apply settles_write|]. intros ? ->.
  constructor; try reflexivity; unfold all_images, ChainStore.all_images, all_registrations, all_payments; cbn [mbind list_bind fst snd fmap list_fmap];
    rewrite ?app_nil_r; [exact D|exact Dr|apply del_one|reflexivity].
Qed.

Lemma pop_effect_app txs1 txs2 db db1 db2 : pop_effect txs1 db db1 -> pop_effect txs2 db1 db2 -> pop_effect (txs1 ++ txs2) db db2.
Proof.
  intros P Q. constructor; try (etransitivity; [solve [apply Q]|solve [apply P]]);
    unfold all_images, ChainStore.all_images, all_registrations, all_payments; rewrite ?bind_app, ?fmap_app.
  - eapply del_app; [apply P|apply Q].
  - eapply del_app; [apply P|apply Q].
  - eapply del_app; [apply P|apply Q].
  - rewrite (po_pay _ _ _ Q), (po_pay _ _ _ P), list_to_set_app_L. unfold all_payments. set_solver.
Qed.

Lemma pop_loop_settles txs : forall db, settles (pop_loop sha3_256 mdb_full txs db) (pop_effect txs db).
Proof.
  induction txs as [|[h tx] txs IH]; intros db; cbn [pop_loop].
  - cbn. constructor; try reflexivity; try apply del_nil. cbn. set_solver.
  - eapply settles_bind; [apply popTransaction_settles|]. intros db1 P.
    eapply settles_impl; [apply IH|]. intros db2 Q. exact (pop_effect_app [(h, tx)] txs _ _ _ P Q).
Qed.
End Removal.

(** ** Reading a block back *)

Lemma transactionByIndex_stored db height slot tx :
  wf_Transaction tx -> len (tx_blob tx) < 2 ^ 32 -> tx_entries db !! (height, slot) = Some (stored tx) ->
  exists te, transactionByIndex db height slot = Ok te /\ te_tx te = tx.
Proof.
  intros W L H. unfold transactionByIndex, getTxEntry. rewrite H. unfold stored, tx_entry. cbn [te_tx m_global_output_indexes].
  destruct (toBinaryArray_total tx_codec tx W) as (b & Eb & Rb).
  assert (Hb : tx_blob tx = b) by (unfold tx_blob; now rewrite Eb). rewrite Hb in *. unfold len in L.
  set (tail := le_split 4 _ ++ concat _).
  assert (Ht : 4 <= Z.of_nat (length tail)) by (unfold tail; rewrite length_app, length_le_split; lia).
  rewrite (wrap_small 32 (len b)) by (unfold in_w, len; lia).
  assert (Hl : length (le_split 4 (len b)) = 4%nat) by apply length_le_split.
  rewrite (skipn_app_exact _ _ _ Hl).
  assert (Hf : firstn 4 (le_split 4 (len b) ++ b ++ tail) = le_split 4 (len b)) by (apply firstn_app_exact, Hl).
  rewrite !Hf. clear Hf.
  rewrite le_combine_split, Z.mod_small by (unfold len; change (2 ^ (Z.of_nat 4 * 8)) with (2 ^ 32); lia).
  unfold len in *. rewrite !length_app, Hl.
  do 2 (match goal with |- context [?a <=? ?b] => replace (a <=? b) with true by (symmetry; apply Z.leb_le; lia) end; cbn [guard bind]).
  rewrite Nat2Z.id, firstn_app_exact by reflexivity.
  rewrite Rb. eexists. split; [reflexivity|reflexivity].
Qed.

(** A transaction whose stored entry can be read. *)
Definition storable (tx : Transaction) : Prop := wf_Transaction tx /\ len (tx_blob tx) < 2 ^ 32.

Section Undo.
Variable sha3_256 : bytes -> bytes.
Variable cn_fast_hash : bytes -> bytes.
Variable mdb_full : Db -> bool.
Abbreviation registration := (registration sha3_256).

(** The (hash, transaction) pairs of a block, coinbase first. *)
Definition block_txs (b : Block) (transactions : list Transaction) : list (bytes * Transaction) :=
  (snd (getObjectHash cn_fast_hash tx_codec (baseTransaction b)), baseTransaction b) ::
  zip (transactionHashes b) transactions.

Lemma read_loop_ok b transactions height db n t :
  length (transactionHashes b) = length transactions ->
  Forall storable (baseTransaction b :: transactions) ->
  (forall i h tx, block_txs b transactions !! i = Some (h, tx) -> tx_entries db !! (height, Z.of_nat i) = Some (stored tx)) ->
  (t + n)%nat = length (block_txs b transactions) ->
  read_loop cn_fast_hash n (Z.of_nat t) height b db = Ok (drop t (block_txs b transactions)).
Proof.
  intros Hl Hs He. revert t. induction n as [|n IH]; intros t Hn; cbn [read_loop].
  - rewrite drop_ge by lia. reflexivity.
  - destruct (lookup_lt_is_Some_2 (block_txs b transactions) t) as [[h tx] Ht]; [lia|].
    assert (Hst : storable tx).
    { rewrite Forall_forall in Hs. apply Hs. destruct t; cbn in Ht.
      - injection Ht as _ <-. constructor.
      - apply list_elem_of_further. apply lookup_zip_with_Some in Ht as (x & y & E & _ & Hy). injection E as _ ->. eapply list_elem_of_lookup_2, Hy. }
    destruct (transactionByIndex_stored db height (Z.of_nat t) tx (proj1 Hst) (proj2 Hst) (He _ _ _ Ht)) as (te & Ete & Ex).
    rewrite Ete. cbn [bind]. replace (Z.of_nat t + 1) with (Z.of_nat (S t)) by lia. rewrite IH by lia. cbn [bind].
    rewrite (drop_S _ _ _ Ht), Ex. do 3 f_equal.
    destruct t; [cbn in Ht |- *; now injection Ht|].
    rewrite (proj2 (Z.eqb_neq _ 0)) by lia. cbn in Ht. apply lookup_zip_with_Some in Ht as (x & y & E & Hx & _). injection E as <- _.
    replace (Z.to_nat (Z.of_nat (S t) - 1)) with t by lia. now apply nth_lookup_Some.
Qed.

(** Database well-formedness at height [n]. *)
Record wf_db (n : Z) (db : Db) : Prop := {
  wd_n : 0 <= n;
  wd_heights : heights_are n db;
  wd_data : forall h, is_Some (block_data db !! h) -> 0 <= h < n;
  wd_gen : forall h, is_Some (gen_tx_idx db !! h) -> 0 <= h < n;
  wd_entries : forall k, is_Some (tx_entries db !! k) -> 0 <= k.1 < n;
  wd_pay : forall p h, (p, h) ∈ payment_id_idx db -> is_Some (tx_indices db !! h);
  wd_ts : forall ts h, (ts, h) ∈ timestamp_idx db -> is_Some (hash_to_height db !! h)
}.

Lemma wf_empty : wf_db 0 empty_db.
Proof.
  constructor; try lia; cbn; try (intros h [x Hx]; rewrite lookup_empty in Hx; discriminate); try set_solver.
  intros h. cbn. rewrite lookup_empty. split; [intros [x Hx]; discriminate|lia].
Qed.

(** What the inner [pushBlock] adds. *)
Lemma pushBlockEntry_ok db block blockHash db' : pushBlockEntry mdb_full db block blockHash = Ok db' ->
  exists g, db' = mkDb (<[be_height block := block_meta_of block blockHash]> (block_meta db))
    (<[be_height block := block_blob (bl block)]> (block_data db)) (tx_entries db)
    (<[blockHash := be_height block]> (hash_to_height db)) (spent_keys db) (pq_acct_reg db) (tx_indices db) (payment_id_idx db)
    ({[(timestamp (header (bl block)), blockHash)]} ∪ timestamp_idx db) (<[be_height block := g]> (gen_tx_idx db)).
Proof.
  unfold pushBlockEntry. intros H. do 4 inv_write H. apply write_ok in H. subst. eexists. reflexivity.
Qed.

Lemma removeTxEntries_settles full n : forall i height db,
  settles full (removeTxEntries_loop full n i height db) (fun db' =>
    exists e, db' = set_tx_entries db e /\ del (map (fun j => (height, i + Z.of_nat j)) (seq 0 n)) (tx_entries db) e).
Proof.
  induction n as [|n IH]; intros i height db; cbn [removeTxEntries_loop].
  - cbn. exists (tx_entries db). split; [destruct db; reflexivity|apply del_nil].
  - eapply settles_bind; [apply settles_write|]. intros ? ->. eapply settles_impl; [apply IH|].
    intros ? (e & -> & D). exists e. split; [destruct db; reflexivity|].
    pose proof (del_app [(height, i)] _ _ _ _ (del_one _ _) D) as DD.
    cbn [seq map]. rewrite Z.add_0_r, <- seq_shift, map_map.
    replace (map (fun x => (height, i + Z.of_nat (S x))) (seq 0 n)) with (map (fun j => (height, i + 1 + Z.of_nat j)) (seq 0 n)); [exact DD|].
    apply map_ext. intros a. f_equal. lia.
Qed.

(** A block connected to a well-formed database at height [n]: [db2] is the
    result of pushing its transactions and then the block itself. *)
Record connected (n : Z) (db : Db) (block : BlockEntry) (blockHash : bytes) (transactions : list Transaction) (db2 : Db) : Prop := {
  co_wf : wf_db n db;
  co_new : hash_to_height db !! blockHash = None;
  co_height : be_height block = n;
  co_block : wf_Block (bl block);
  co_hashes : length (transactionHashes (bl block)) = length transactions;
  co_storable : Forall storable (baseTransaction (bl block) :: transactions);
  co_count : length (be_transactions block) = S (length transactions);
  co_count16 : Z.of_nat (S (length transactions)) < 2 ^ 16;
  co_push : exists db1, push_txs sha3_256 mdb_full db n 0 (block_txs (bl block) transactions) = Ok (true, db1) /\
              pushBlockEntry mdb_full db1 block blockHash = Ok db2
}.

Lemma connected_effect n db block blockHash transactions db2 :
  connected n db block blockHash transactions db2 ->
  exists db1 g, txs_effect sha3_256 n 0 (block_txs (bl block) transactions) db db1 /\
    db2 = mkDb (<[n := block_meta_of block blockHash]> (block_meta db))
      (<[n := block_blob (bl block)]> (block_data db)) (tx_entries db1)
      (<[blockHash := n]> (hash_to_height db)) (spent_keys db1) (pq_acct_reg db1) (tx_indices db1) (payment_id_idx db1)
      ({[(timestamp (header (bl block)), blockHash)]} ∪ timestamp_idx db) (<[n := g]> (gen_tx_idx db)).
Proof.
  intros C. destruct (co_push _ _ _ _ _ _ C) as (db1 & H1 & H2).
  apply push_txs_ok in H1. apply pushBlockEntry_ok in H2 as (g & ->).
  exists db1, g. split; [exact H1|]. rewrite (co_height _ _ _ _ _ _ C).
  rewrite (te_meta _ _ _ _ _ _ H1), (te_data _ _ _ _ _ _ H1), (te_hash _ _ _ _ _ _ H1), (te_ts _ _ _ _ _ _ H1), (te_gen _ _ _ _ _ _ H1).
  reflexivity.
Qed.

Lemma connected_wf n db block blockHash transactions db2 :
  connected n db block blockHash transactions db2 -> wf_db (n + 1) db2.
Proof.
  intros C. pose proof (co_wf _ _ _ _ _ _ C) as W. destruct (connected_effect _ _ _ _ _ _ C) as (db1 & g & T & ->).
  pose proof (wd_n _ _ W). constructor; cbn.
  - lia.
  - intros h. cbn. rewrite lookup_insert_is_Some, (wd_heights _ _ W h). lia.
  - intros h Hh. rewrite lookup_insert_is_Some in Hh. destruct Hh as [<-|[_ Hh]]; [lia|apply W in Hh; lia].
  - intros h Hh. rewrite lookup_insert_is_Some in Hh. destruct Hh as [<-|[_ Hh]]; [lia|apply W in Hh; lia].
  - intros k Hk. destruct (decide (k.1 = n)); [lia|].
    rewrite (te_entries_old _ _ _ _ _ _ T) in Hk by auto. apply W in Hk. lia.
  - intros p h Hp. rewrite (te_pay _ _ _ _ _ _ T) in Hp. apply elem_of_union in Hp as [Hp|Hp].
    + apply elem_of_list_to_set in Hp. unfold all_payments in Hp. apply list_elem_of_bind in Hp as ([h' tx] & Hq & Hin).
      unfold payment in Hq. cbn in Hq. destruct (getPaymentIdFromTxExtra _); [|inversion Hq].
      apply list_elem_of_singleton in Hq. injection Hq as _ <-.
      apply list_elem_of_lookup in Hin as [i Hi]. rewrite (te_index_at _ _ _ _ _ _ T _ _ _ Hi). eauto.
    + apply W in Hp as [x Hx]. rewrite (proj1 (te_index _ _ _ _ _ _ T)); [eauto|].
      intros Hin. apply (proj2 (te_index _ _ _ _ _ _ T)) in Hin. congruence.
  - intros ts h Hh. rewrite lookup_insert_is_Some. apply elem_of_union in Hh as [Hh|Hh].
    + apply elem_of_singleton in Hh. injection Hh as _ <-. auto.
    + apply W in Hh. destruct (decide (blockHash = h)); auto.
Qed.

Lemma elem_of_bind_rev {A B} (f : A -> list B) l k : k ∈ (rev l ≫= f) <-> k ∈ (l ≫= f).
Proof.
  rewrite !list_elem_of_bind. split; intros (x & Hx & Hin); exists x; (split; [exact Hx|]);
    rewrite list_elem_of_In in *; [now apply in_rev|now apply in_rev in Hin].
Qed.

Lemma elem_of_fst_rev {A B} (l : list (A * B)) k : k ∈ (rev l).*1 <-> k ∈ l.*1.
Proof.
  rewrite !list_elem_of_fmap. split; intros (x & Hx & Hin); exists x; (split; [exact Hx|]);
    rewrite list_elem_of_In in *; [now apply in_rev|now apply in_rev in Hin].
Qed.

Lemma set_undo {A} `{Countable A} (l l' : list A) (s : gset A) :
  (forall x, x ∈ l <-> x ∈ l') -> (forall x, x ∈ l -> x ∉ s) -> (list_to_set l ∪ s) ∖ list_to_set l' = s.
Proof. intros E F. set_solver. Qed.

Lemma block_blob_read b : wf_Block b -> fromBinaryArray block_codec (block_blob b) = Some b.
Proof.
  intros W. destruct (toBinaryArray_total block_codec b W) as (x & E & R). unfold block_blob. now rewrite E.
Qed.

Lemma all_entered_registrations slot txs k :
  k ∈ all_entered sha3_256 slot txs -> k ∈ all_registrations sha3_256 txs.
Proof.
  revert slot. induction txs as [|[h tx] txs IH]; intros slot Hk; [exact Hk|].
  cbn [all_entered] in Hk. unfold all_registrations. cbn [mbind list_bind snd]. rewrite elem_of_app in *.
  destruct Hk as [Hk|Hk]; [left|right; eapply IH, Hk]. unfold entered in Hk. destruct (slot =? 0); [inversion Hk|exact Hk].
Qed.

(** Everything popping a block removes was added by pushing it, except the
    registration of its coinbase. *)
Lemma registrations_entered b transactions k :
  k ∈ all_registrations sha3_256 (block_txs b transactions) ->
  registration (baseTransaction b) = Some k \/ k ∈ all_entered sha3_256 0 (block_txs b transactions).
Proof.
  unfold all_registrations, block_txs. cbn [mbind list_bind snd all_entered]. rewrite elem_of_app. intros [Hk|Hk].
  - left. destruct (registration (baseTransaction b)); [|inversion Hk]. apply list_elem_of_singleton in Hk as ->. reflexivity.
  - right. apply elem_of_app. right. revert Hk. generalize (zip (transactionHashes b) transactions) as l.
    assert (G : forall l slot, 0 < slot -> k ∈ (l ≫= fun p => option_list (registration p.2)) -> k ∈ all_entered sha3_256 slot l).
    { induction l as [|[h tx] l IH]; intros slot Hs Hk; [exact Hk|]. cbn [mbind list_bind snd all_entered] in *.
      rewrite elem_of_app in *. unfold entered. rewrite (proj2 (Z.eqb_neq slot 0)) by lia.
      destruct Hk as [Hk|Hk]; [auto|right; apply IH; [lia|exact Hk]]. }
    intros l. apply G. lia.
Qed.


(** Table by table, the removals cancel the additions. *)
Lemma undo_tables n db block blockHash transactions db1 g db2 d3 e :
  connected n db block blockHash transactions db2 ->
  (forall id, registration (baseTransaction (bl block)) = Some id -> pq_acct_reg db !! id = None) ->
  txs_effect sha3_256 n 0 (block_txs (bl block) transactions) db db1 ->
  db2 = mkDb (<[n := block_meta_of block blockHash]> (block_meta db))
      (<[n := block_blob (bl block)]> (block_data db)) (tx_entries db1)
      (<[blockHash := n]> (hash_to_height db)) (spent_keys db1) (pq_acct_reg db1) (tx_indices db1) (payment_id_idx db1)
      ({[(timestamp (header (bl block)), blockHash)]} ∪ timestamp_idx db) (<[n := g]> (gen_tx_idx db)) ->
  pop_effect sha3_256 (rev (block_txs (bl block) transactions)) db2 d3 ->
  del (map (fun j => (n, 0 + Z.of_nat j)) (seq 0 (length (block_txs (bl block) transactions)))) (tx_entries d3) e ->
  mkDb (delete n (block_meta d3)) (delete n (block_data d3)) e (delete blockHash (hash_to_height d3))
    (spent_keys d3) (pq_acct_reg d3) (tx_indices d3) (payment_id_idx d3)
    (timestamp_idx d3 ∖ {[(timestamp (header (bl block)), blockHash)]}) (delete n (gen_tx_idx d3)) = db.
Proof.
  intros C Hreg T E2 P De. pose proof (co_wf _ _ _ _ _ _ C) as W.
  rewrite (po_entries _ _ _ _ P) in De. destruct (P) as [P1 P2 _ P4 P5 P6 P7 P8 P9 P10]. rewrite P1, P2, P4, P5, P6, P10, E2.
  rewrite E2 in De, P7, P8, P9.
  cbn [block_meta block_data tx_entries hash_to_height spent_keys pq_acct_reg tx_indices payment_id_idx timestamp_idx gen_tx_idx] in *.
  set (txs := block_txs (bl block) transactions) in *.
  assert (Hfresh : forall A (m : gmap Z A), (forall h, is_Some (m !! h) -> 0 <= h < n) -> m !! n = None).
  { intros A m Hm. apply eq_None_not_Some. intros Hs. apply Hm in Hs. lia. }
  assert (Hmeta : block_meta db !! n = None) by (apply Hfresh; intros h; apply W).
  rewrite (delete_insert_id (block_meta db)) by exact Hmeta.
  rewrite (delete_insert_id (block_data db)) by (apply Hfresh, W).
  rewrite (delete_insert_id (gen_tx_idx db)) by (apply Hfresh, W).
  rewrite (delete_insert_id (hash_to_height db)) by apply C.
  replace (spent_keys d3) with (spent_keys db).
  2:{ symmetry. eapply del_ext; [apply T|exact P7| |]; intros k Hk; [exact (proj2 (elem_of_bind_rev _ txs k) Hk)|].
      apply (proj2 (te_spent _ _ _ _ _ _ T)). exact (proj1 (elem_of_bind_rev _ txs k) Hk). }
  replace (pq_acct_reg d3) with (pq_acct_reg db).
  2:{ symmetry. eapply del_ext; [apply T|exact P8| |]; intros k Hk.
      - apply (proj2 (elem_of_bind_rev _ txs k)). exact (all_entered_registrations _ _ _ Hk).
      - apply (proj1 (elem_of_bind_rev _ txs k)) in Hk. apply registrations_entered in Hk as [Hk|Hk]; [auto|]. now apply (te_reg _ _ _ _ _ _ T). }
  replace (tx_indices d3) with (tx_indices db).
  2:{ symmetry. eapply del_ext; [apply T|exact P9| |]; intros k Hk.
      - exact (proj2 (elem_of_fst_rev txs k) Hk).
      - apply (te_index _ _ _ _ _ _ T). exact (proj1 (elem_of_fst_rev txs k) Hk). }
  replace e with (tx_entries db).
  2:{ symmetry. apply map_eq. intros k. rewrite De. case_decide as Hk.
      - apply list_elem_of_In, in_map_iff in Hk as (j & <- & _). symmetry. apply eq_None_not_Some.
        intros Hs. apply W in Hs. cbn in Hs. lia.
      - apply (te_entries_old _ _ _ _ _ _ T). destruct k as [a c]. cbn [fst snd].
        destruct (decide (a = n)) as [->|]; [|auto]. destruct (decide (c < 0)); [auto|].
        destruct (decide (Z.of_nat (length txs) <= c)); [auto|]. exfalso. apply Hk, list_elem_of_In, in_map_iff.
        exists (Z.to_nat c). rewrite in_seq. split; [f_equal; lia|lia]. }
  rewrite (te_pay _ _ _ _ _ _ T), set_undo.
  - destruct db. cbn. f_equal. assert (F : forall x, x ∈ ({[(timestamp (header (bl block)), blockHash)]} : gset _) -> x ∉ timestamp_idx0).
    { intros x Hx Hin. apply elem_of_singleton in Hx as ->. apply W in Hin as [y Hy].
      pose proof (co_new _ _ _ _ _ _ C) as Hnew. cbn in *. congruence. }
    set_solver.
  - intros x. symmetry. apply (elem_of_bind_rev (fun p => payment p.1 p.2) txs).
  - intros [p h] Hx Hin. unfold all_payments in Hx. apply list_elem_of_bind in Hx as ([h' tx] & Hq & Hx).
    unfold payment in Hq. cbn in Hq. destruct (getPaymentIdFromTxExtra _); [|inversion Hq].
    apply list_elem_of_singleton in Hq. injection Hq as _ <-. apply W in Hin as [y Hy].
    assert (Hk : h ∈ txs.*1) by (apply list_elem_of_fmap; exists (h, tx); auto).
    apply (te_index _ _ _ _ _ _ T) in Hk. congruence.
Qed.

(** [removeLastBlock] takes the last block back, on every table. *)
Lemma removal_undoes full n db block blockHash transactions db2 :
  connected n db block blockHash transactions db2 ->
  (forall id, registration (baseTransaction (bl block)) = Some id -> pq_acct_reg db !! id = None) ->
  exists rm, removal_of cn_fast_hash db2 = Ok (Some rm) /\
    settles full (remove sha3_256 full rm db2) (fun db' => db' = db).
Proof.
  intros C Hreg. pose proof (co_wf _ _ _ _ _ _ C) as W. pose proof (wd_n _ _ W) as Hn.
  assert (Hh : getChainHeight db2 = n + 1) by (apply getChainHeight_contiguous; [lia|apply (connected_wf _ _ _ _ _ _ C)]).
  destruct (connected_effect _ _ _ _ _ _ C) as (db1 & g & T & E2).
  assert (Hcount : m_txCount (block_meta_of block blockHash) = Z.of_nat (length (block_txs (bl block) transactions))).
  { cbn. rewrite (co_count _ _ _ _ _ _ C), length_zip, (co_hashes _ _ _ _ _ _ C), Nat.min_id.
    apply wrap_small. pose proof (co_count16 _ _ _ _ _ _ C). unfold in_w. lia. }
  unfold removal_of. rewrite Hh, (proj2 (Z.eqb_neq (n + 1) 0)) by lia. replace (n + 1 - 1) with n by lia.
  assert (E2m : block_meta db2 = <[n:=block_meta_of block blockHash]> (block_meta db)) by (now rewrite E2).
  unfold getBlockMeta, getBlockData. rewrite E2m, lookup_insert_eq.
  assert (Hd : block_data db2 !! n = Some (block_blob (bl block))) by (rewrite E2; apply lookup_insert_eq).
  rewrite Hd, (block_blob_read _ (co_block _ _ _ _ _ _ C)), Hcount, Nat2Z.id.
  rewrite (read_loop_ok (bl block) transactions n db2 _ 0); [cbn [bind drop] | apply C | apply C | | reflexivity].
  2:{ intros i h tx Hi. rewrite E2. apply (te_entries_new _ _ _ _ _ _ T i h tx Hi). }
  eexists. split; [reflexivity|]. unfold remove. cbn [rm_height rm_meta txToRemove]. rewrite Hcount.
  eapply settles_bind; [apply pop_loop_settles|]. intros d3 P.
  eapply settles_bind; [apply removeTxEntries_settles|]. intros ? (e & -> & De).
  do 4 (eapply settles_bind; [apply settles_write|]; intros ? ->).
  unfold removeLastBlockMeta.
  match goal with |- context [getChainHeight ?d] => assert (Hh3 : getChainHeight d = n + 1) end.
  { rewrite <- Hh. unfold getChainHeight. cbn. now rewrite (po_meta _ _ _ _ P). }
  rewrite Hh3, (proj2 (Z.eqb_neq (n + 1) 0)) by lia. replace (n + 1 - 1) with n by lia.
  eapply settles_impl; [apply settles_write|]. intros ? ->.
  rewrite Nat2Z.id in De.
  exact (undo_tables n db block blockHash transactions db1 g db2 d3 e C Hreg T E2 P De).
Qed.
End Undo.
