(* ===== verification/Checkpoints.v ===== *)
(** * Checkpoints and first-seen finality

    [Checkpoints/Checkpoints.cpp]: the hard-coded points, the zone they cover, and
    the rule that decides whether a block may start or extend an alternative
    chain. *)

From Stdlib Require Import ZArith List Lia Bool.
From stdpp Require Import countable gmap fin_maps.
From S2P Require Import Prelude Config Db.
Open Scope Z_scope.
Open Scope discrete_scope.

Module Checkpoints.

(** [m_points], a [std::map] ordered by height. *)
Abbreviation points := (gmap Z bytes).

(** [add_checkpoint] once the hash is decoded: [insert] keeps an earlier entry. *)
Definition add_checkpoint (m_points : points) (height : Z) (h : bytes) : bool * points :=
  match m_points !! height with
  | Some _ => (false, m_points)
  | None => (true, <[height := h]> m_points)
  end.

(** The greatest key satisfying [P]: [--end()] for all keys, and
    [--upper_bound(n)] for the keys up to [n]. *)
Definition greatest (P : Z -> bool) (m_points : points) : option Z :=
  map_fold (fun h _ acc =>
    if P h then match acc with Some a => Some (Z.max a h) | None => Some h end else acc) None m_points.

Definition is_in_checkpoint_zone (m_points : points) (height : Z) : bool :=
  match greatest (fun _ => true) m_points with
  | None => false
  | Some last => height <=? last
  end.

(** [check_block]: the verdict, and whether the height is a checkpoint. *)
Definition check_block (m_points : points) (height : Z) (h : bytes) : bool * bool :=
  match m_points !! height with
  | None => (true, false)
  | Some p => (p ==b h, true)
  end.

Definition is_finality_violation (m_points : points) (blockchain_height block_height : Z) : bool :=
  (block_height + parameters.CRYPTONOTE_FINALITY_DEPTH <? blockchain_height) &&
  negb (is_in_checkpoint_zone m_points block_height).

Definition is_alternative_block_allowed (m_points : points) (blockchain_height block_height : Z) : bool :=
  if 0 =? block_height then false
  else if is_finality_violation m_points blockchain_height block_height then false
  else match greatest (fun h => h <=? blockchain_height) m_points with
       | None => true
       | Some checkpoint_height => checkpoint_height <? block_height
       end.

End Checkpoints.
Import Checkpoints.

Lemma greatest_spec P (m : points) :
  match greatest P m with
  | None => forall h, is_Some (m !! h) -> P h = false
  | Some g => P g = true /\ is_Some (m !! g) /\ forall h, is_Some (m !! h) -> P h = true -> h <= g
  end.
Proof.
  unfold greatest. apply (map_fold_weak_ind (fun r m => match r with
    | None => forall h, is_Some (m !! h) -> P h = false
    | Some g => P g = true /\ is_Some (m !! g) /\ forall h, is_Some (m !! h) -> P h = true -> h <= g end)).
  - intros h [x Hx]. rewrite lookup_empty in Hx. discriminate.
  - intros i x m' r Hi IH. destruct (P i) eqn:EP.
    + destruct r as [g|].
      * destruct IH as (G1 & G2 & G3). destruct (Z.max_spec g i) as [[L ->]|[L ->]].
        -- split; [exact EP|split; [rewrite lookup_insert_eq; eauto|]].
           intros h Hh Hp. rewrite lookup_insert_is_Some in Hh. destruct Hh as [<-|[_ Hh]]; [lia|].
           specialize (G3 h Hh Hp). lia.
        -- split; [exact G1|split; [rewrite lookup_insert_is_Some; destruct (decide (i = g)); auto|]].
           intros h Hh Hp. rewrite lookup_insert_is_Some in Hh. destruct Hh as [<-|[_ Hh]]; [lia|auto].
      * split; [exact EP|split; [rewrite lookup_insert_eq; eauto|]].
        intros h Hh Hp. rewrite lookup_insert_is_Some in Hh. destruct Hh as [<-|[_ Hh]]; [lia|].
        rewrite (IH h Hh) in Hp. discriminate.
    + destruct r as [g|].
      * destruct IH as (G1 & G2 & G3). split; [exact G1|split].
        -- rewrite lookup_insert_is_Some. destruct (decide (i = g)); auto.
        -- intros h Hh Hp. rewrite lookup_insert_is_Some in Hh. destruct Hh as [<-|[_ Hh]]; [congruence|auto].
      * intros h Hh. rewrite lookup_insert_is_Some in Hh. destruct Hh as [<-|[_ Hh]]; auto.
Qed.

Lemma is_in_checkpoint_zone_iff (m : points) height :
  is_in_checkpoint_zone m height = true <-> exists c, is_Some (m !! c) /\ height <= c.
Proof.
  unfold is_in_checkpoint_zone. pose proof (greatest_spec (fun _ => true) m) as S.
  destruct (greatest (fun _ => true) m) as [g|].
  - destruct S as (_ & S2 & S3). rewrite Z.leb_le. split; [eauto|].
    intros (c & Hc & L). specialize (S3 c Hc eq_refl). lia.
  - split; [discriminate|]. intros (c & Hc & _). discriminate (S c Hc).
Qed.

(** First-seen finality, exactly: a block may enter an alternative chain if
    and only if it is not at height zero, it lies above every checkpoint the node
    has reached, and it is at most [CRYPTONOTE_FINALITY_DEPTH] blocks below the
    chain length unless it lies in the checkpointed zone. The rule is stated on
    plain integers: no chain is too young for it. *)
Theorem alternative_block_rule (m : points) blockchain_height block_height :
  is_alternative_block_allowed m blockchain_height block_height = true <->
  block_height <> 0 /\
  (blockchain_height <= block_height + 10 \/ exists c, is_Some (m !! c) /\ block_height <= c) /\
  (forall c, is_Some (m !! c) -> c <= blockchain_height -> c < block_height).
Proof.
  unfold is_alternative_block_allowed, is_finality_violation.
  change parameters.CRYPTONOTE_FINALITY_DEPTH with 10.
  pose proof (is_in_checkpoint_zone_iff m block_height) as Z1.
  pose proof (greatest_spec (fun h => h <=? blockchain_height) m) as S.
  destruct (Z.eqb_spec 0 block_height) as [E0|E0]; [split; [discriminate|lia]|].
  destruct (Z.ltb_spec (block_height + 10) blockchain_height) as [L|L]; cbn [andb].
  - destruct (is_in_checkpoint_zone m block_height); cbn [negb].
    + destruct (proj1 Z1 eq_refl) as (z & Hz & Lz).
      destruct (greatest _ m) as [g|].
      * destruct S as (S1 & S2 & S3). rewrite Z.ltb_lt. split.
        -- intros Lg. split; [lia|split; [eauto|]]. intros c Hc Lc. specialize (S3 c Hc). lia.
        -- intros (_ & _ & H). apply H; [exact S2|lia].
      * split; [|reflexivity]. intros _. split; [lia|split; [eauto|]]. intros c Hc Lc. specialize (S c Hc). lia.
    + split; [discriminate|]. intros (_ & [H|H] & _); [lia|]. apply Z1 in H. discriminate.
  - destruct (greatest _ m) as [g|].
    + destruct S as (S1 & S2 & S3). rewrite Z.ltb_lt. split.
      * intros Lg. split; [lia|split; [auto|]]. intros c Hc Lc. specialize (S3 c Hc). lia.
      * intros (_ & _ & H). apply H; [exact S2|lia].
    + split; [|reflexivity]. intros _. split; [lia|split; [auto|]]. intros c Hc Lc. specialize (S c Hc). lia.
Qed.
