(* ===== verification/ChainRules.v ===== *)
(** * Rules that need chain state

    The validation half of [CryptoNoteCore/Blockchain.cpp]: resolving and checking
    the inputs of a transaction against the database, the registration proofs and
    their caches, difficulty, timestamps, sizes, and the checks of the coinbase
    and of the block signature.

    Each function reads the database as the call would see it.  Hashes, the
    signature scheme and the two memory-hard functions are parameters. *)

From Stdlib Require Import ZArith String List Lia Bool.
From stdpp Require Import countable gmap sets fin_maps sorting.
From coqutil Require Import Byte Word.LittleEndianList.
From S2P Require Import Prelude Config Varint Wire Transaction IntUtil Currency Extra PqHash PqDerive PqValidation BlockFormat Db ChainStore.
Import ListNotations.
Open Scope string_scope.
Open Scope list_scope.
Open Scope Z_scope.
Open Scope discrete_scope.
Import Serialization TransactionExtra PqValidation FormatUtils LMDBBlockchainDB ChainStore.

(** [Common::medianValue] ([Common/Math.h]) *)
Definition medianValue (v : list Z) : Z :=
  match v with
  | [] => 0
  | [x] => x
  | _ =>
      let n := (length v / 2)%nat in
      let s := merge_sort Z.le v in
      if Nat.odd (length v) then nth n s 0
      else w64 (nth (n - 1) s 0 + nth n s 0) / 2
  end.

Module ChainRules.
Section Rules.
Variable sha3_256 : bytes -> bytes.
Variable cn_fast_hash : bytes -> bytes.
Variable shake256 : bytes -> nat -> bytes.
Variable dsa_verify : bytes -> bytes -> bytes -> bool.
Variable yespower_discrete : bytes -> bytes -> bytes -> option bytes.
Variable y_slow_hash : bytes -> bytes -> option bytes.
Variable c : Currency.
Variable genesisBlockHash : bytes.

(** ** Spending *)

(** [is_tx_spendheight_unlocked(unlock_height)] at the current height. *)
Definition is_tx_spendheight_unlocked (db : Db) (unlock_height : Z) : bool :=
  if unlock_height =? 0 then true
  else if maxBlockHeight c <? unlock_height then false
  else unlock_height <=? w64 (w32 (getChainHeight db - 1) + lockedTxAllowedDeltaBlocks c).

(** [pqReferencedTx]: (block, slot, outputs) of a transaction on the chain. The
    code memoizes it per call; the database does not change meanwhile. *)
Definition pqReferencedTx (db : Db) (txid : bytes) : option (Z * Z * list TransactionOutput) :=
  match getTxIndex db txid with
  | None => None
  | Some (block, slot) =>
      match transactionByIndex db block slot with
      | Ok te => Some (block, slot, outputs (prefix (te_tx te)))
      | Err _ => None
      end
  end.

(** The spend commitment of an output a PQ input can spend. *)
Definition spendable_commit (o : TransactionOutput) : option bytes :=
  match target o with
  | OutPq p => Some (pq_spendCommit p)
  | OutCoinbase p => Some (cb_spendCommit p)
  | OutKey _ => None
  end.

(** The output an input names, where it exists and is of a PQ type. *)
Definition referenced_output (db : Db) (i : PqInput) : option (Z * Z * TransactionOutput) :=
  match pqReferencedTx db (prevTxid i) with
  | None => None
  | Some (block, slot, outs) =>
      if prevOutIndex i <? Z.of_nat (length outs) then
        match nth_error outs (Z.to_nat (prevOutIndex i)) with
        | Some o => match spendable_commit o with Some _ => Some (block, slot, o) | None => None end
        | None => None
        end
      else None
  end.

Definition unresolved : PqResolvedInput := mkPqResolvedInput (repeat (b8 0) 32) 0 false false false.

(** One round of the resolution loop of [checkPqInputs]: the resolved input
    and the height to take into [maxRefHeight]. *)
Definition resolve_input (db : Db) (i : PqInput) : PqResolvedInput * Z :=
  match referenced_output db i with
  | None => (unresolved, 0)
  | Some (block, slot, o) =>
      if is_tx_spendheight_unlocked db (out_unlockHeight o)
      then (mkPqResolvedInput (default [] (spendable_commit o)) (amount o) true true (slot =? 0), block)
      else (unresolved, 0)
  end.

Definition pq_inputs (tx : Transaction) : list PqInput :=
  omap (fun i => match i with InPq k => Some k | InBase _ => None end) (inputs (prefix tx)).

Definition checkPqInputs (db : Db) (tx : Transaction) : option Z :=
  let signing := pqSigningContextForHeight (getChainHeight db) genesisBlockHash in
  if negb (forallb (fun i => match i with
       | InBase _ => false
       | InPq k => negb (negb (keyRef k =? PQ_NO_KEY_REF) && negb (groupedAuth signing && useV2 signing))
       end) (inputs (prefix tx))) then None
  else if existsb (fun k => hasSpentKey db (pqNullifier sha3_256 k)) (pq_inputs tx) then None
  else
    let resolved := map (resolve_input db) (pq_inputs tx) in
    match checkPqTransactionInputs sha3_256 dsa_verify tx (map fst resolved) parameters.MINIMUM_FEE signing with
    | Err _ => None
    | Ok _ => Some (fold_left Z.max (map snd resolved) 0)
    end.

(** [pqReferencedInputAmount], [getPqTransactionFee] *)
Definition pqReferencedInputAmount (db : Db) (tx : Transaction) : Z :=
  fold_left (fun sum k =>
    match referenced_output db k with Some (_, _, o) => w64 (sum + amount o) | None => sum end) (pq_inputs tx) 0.
Definition getPqTransactionFee (db : Db) (tx : Transaction) : option Z :=
  let inAmount := pqReferencedInputAmount db tx in
  let outAmount := getOutputAmount tx in
  if inAmount <? outAmount then None else Some (inAmount - outAmount).

(** ** Registration proofs *)

Record ProofCache := mkProofCache { proofs : gset bytes; order : list bytes }.
Record ProofCaches := mkProofCaches { badFreeRegProofs : ProofCache; goodFreeRegProofs : ProofCache }.
Definition no_proofs : ProofCaches := mkProofCaches (mkProofCache ∅ []) (mkProofCache ∅ []).

(** [isKnown...FreeRegProof], [remember...FreeRegProof]: bounded, first in
    first out. *)
Definition known (k : ProofCache) (proofTuple : bytes) : bool := bool_decide (proofTuple ∈ proofs k).
Definition remember (k : ProofCache) (proofTuple : bytes) : ProofCache :=
  if known k proofTuple then k
  else
    let k := if parameters.FREE_REG_BAD_PROOF_CACHE_SIZE <=? Z.of_nat (length (order k))
             then mkProofCache (proofs k ∖ list_to_set (firstn 1 (order k))) (tl (order k)) else k in
    mkProofCache ({[proofTuple]} ∪ proofs k) (order k ++ [proofTuple]).
Definition rememberBad (s : ProofCaches) t := mkProofCaches (remember (badFreeRegProofs s) t) (goodFreeRegProofs s).
Definition rememberGood (s : ProofCaches) t := mkProofCaches (badFreeRegProofs s) (remember (goodFreeRegProofs s) t).

Definition freeRegProofTuple (identity refBlockHash : bytes) (nonce : Z) : bytes :=
  cn_fast_hash (identity ++ refBlockHash ++ le_split 8 nonce).

(** [freeRegProofTupleOf] *)
Definition freeRegProofTupleOf (tx : Transaction) : option bytes :=
  match getPqAccountRegistrationFromExtra (extra (prefix tx)), getPowTagFromExtra (extra (prefix tx)) with
  | Some (viewPub, spendPub), Some (ref, nonce) =>
      Some (freeRegProofTuple (getPqAccountIdentityHash sha3_256 viewPub spendPub) ref nonce)
  | _, _ => None
  end.

(** [freeRegChainStateOk]: the height of the reference block. *)
Definition freeRegChainStateOk (db : Db) (tx : Transaction) : option Z :=
  match getPqAccountRegistrationFromExtra (extra (prefix tx)), getPowTagFromExtra (extra (prefix tx)) with
  | Some (viewPub, spendPub), Some (ref, nonce) =>
      if (parameters.PQ_TRANSCRIPT_V2_HEIGHT <=? getChainHeight db) && negb (isCanonicalFreeRegExtra (extra (prefix tx))) then None
      else
        let curHeight := getChainHeight db in
        match getHashHeight db ref with
        | None => None
        | Some refHeight =>
            if (curHeight <=? refHeight) || (parameters.FREE_REG_REF_WINDOW <? w32 (curHeight - refHeight)) then None
            else if hasPqAcctReg db (getPqAccountIdentityHash sha3_256 viewPub spendPub) then None
            else Some refHeight
        end
  | _, _ => None
  end.

(** The verdict of [checkFreeRegTransactionPow]. *)
Definition free_reg_pow (tx : Transaction) : bool :=
  match fst (checkFreeRegTransactionPow y_slow_hash tx (freeRegPowTarget c) 0) with Ok _ => true | Err _ => false end.

Definition checkFreeRegInputs (db : Db) (s : ProofCaches) (tx : Transaction) : option Z * ProofCaches :=
  match freeRegChainStateOk db tx, freeRegProofTupleOf tx with
  | Some refHeight, Some proofTuple =>
      if known (badFreeRegProofs s) proofTuple then (None, s)
      else if known (goodFreeRegProofs s) proofTuple then (Some refHeight, s)
      else if free_reg_pow tx then (Some refHeight, rememberGood s proofTuple)
      else (None, rememberBad s proofTuple)
  | _, _ => (None, s)
  end.

Definition precheckFreeRegPow (db : Db) (s : ProofCaches) (tx : Transaction) : bool * ProofCaches :=
  match freeRegProofTupleOf tx with
  | None => (false, s)
  | Some proofTuple =>
      if known (badFreeRegProofs s) proofTuple then (false, s)
      else if known (goodFreeRegProofs s) proofTuple then (true, s)
      else match freeRegChainStateOk db tx with
           | None => (false, s)
           | Some _ =>
               if free_reg_pow tx then (true, rememberGood s proofTuple) else (false, rememberBad s proofTuple)
           end
  end.

(** ** [checkTransactionInputs] *)

Definition isPqAccountAlreadyRegistered (db : Db) (tx : Transaction) : bool :=
  match registration sha3_256 tx with Some id => hasPqAcctReg db id | None => false end.

(** [AT_TIP]: judge at the current height instead of a given one. *)
Definition AT_TIP : Z := 0xFFFFFFFF.

Definition checkTransactionInputs (db : Db) (s : ProofCaches) (tx : Transaction) (validationHeight : Z)
  : option Z * ProofCaches :=
  let p := prefix tx in
  let height := if validationHeight =? AT_TIP then getChainHeight db else validationHeight in
  if negb (version p =? TRANSACTION_VERSION_1) then (None, s)
  else if (isPqTransfer (txType p) || (txType p =? TX_FREE_REG)) && isPqAccountAlreadyRegistered db tx then (None, s)
  else if isPqTransfer (txType p) then
    if negb (isPqTransferTypeAllowedAt c (txType p) height) then (None, s) else (checkPqInputs db tx, s)
  else if txType p =? TX_FREE_REG then checkFreeRegInputs db s tx
  else if txType p =? TX_COINBASE then (Some 0, s)
  else (None, s).

(** ** Difficulty, timestamps, sizes *)

(** [getBlockMajorVersionForHeight]: the detectors' heights are the
    currency's, all of which are set. *)
Definition getBlockMajorVersionForHeight (height : Z) : Z :=
  if upgradeHeight c BLOCK_MAJOR_VERSION_8 <? height then BLOCK_MAJOR_VERSION_8
  else if upgradeHeight c BLOCK_MAJOR_VERSION_7 <? height then BLOCK_MAJOR_VERSION_7
  else if upgradeHeight c BLOCK_MAJOR_VERSION_6 <? height then BLOCK_MAJOR_VERSION_6
  else if upgradeHeight c BLOCK_MAJOR_VERSION_5 <? height then BLOCK_MAJOR_VERSION_5
  else if upgradeHeight c BLOCK_MAJOR_VERSION_4 <? height then BLOCK_MAJOR_VERSION_4
  else if upgradeHeight c BLOCK_MAJOR_VERSION_3 <? height then BLOCK_MAJOR_VERSION_3
  else if upgradeHeight c BLOCK_MAJOR_VERSION_2 <? height then BLOCK_MAJOR_VERSION_2
  else BLOCK_MAJOR_VERSION_1.

Definition checkBlockVersion (b : Block) : bool :=
  majorVersion (header b) =? getBlockMajorVersionForHeight (get_block_height b).

Definition checkParentBlockSize (parentBlock : ParentBlock) (b : Block) : bool :=
  if (majorVersion (header b) =? BLOCK_MAJOR_VERSION_2) || (majorVersion (header b) =? BLOCK_MAJOR_VERSION_3) then
    match parent_block_blob cn_fast_hash parentBlock (header b) false false with
    | None => false
    | Some blob => negb (2 * 1024 <? len blob)
    end
  else true.

Definition difficulty_count (chainHeight : Z) : Z :=
  Z.min (Z.max (if 0 <? chainHeight then chainHeight - 1 else 1) 1) (w32 (difficultyBlocksCount4 c + 1)).

(** The walk over hash links, newest first: (timestamp, cumulative difficulty). *)
Fixpoint difficulty_walk (n : nat) (db : Db) (alt : gmap bytes BlockEntry) (h : bytes) : option (list (Z * Z)) :=
  match n with
  | O => Some []
  | S n =>
      if h ==b NULL_HASH then Some []
      else
        match alt !! h with
        | Some b =>
            match difficulty_walk n db alt (previousBlockHash (header (bl b))) with
            | Some rest => Some ((timestamp (header (bl b)), cumulative_difficulty b) :: rest)
            | None => None
            end
        | None =>
            match getHashHeight db h with
            | None => None
            | Some bh =>
                let meta := getBlockMeta_or_zero db bh in
                match difficulty_walk n db alt (m_prevHash meta) with
                | Some rest => Some ((m_timestamp meta, m_cumulativeDifficulty meta) :: rest)
                | None => None
                end
            end
        end
  end.

(** [getDifficultyForNextBlock]; zero is the failure the callers test for. *)
Definition getDifficultyForNextBlock (db : Db) (alt : gmap bytes BlockEntry) (prevHash : bytes) : Z :=
  if prevHash ==b NULL_HASH then 1
  else
    let count := difficulty_count (getChainHeight db) in
    match getHashHeight db prevHash with
    | Some prevHeight =>
        let fromHeight := if count <=? w32 (prevHeight + 1) then w32 (prevHeight + 1) - count else 0 in
        let metas := getBlockMetaRange db fromHeight prevHeight in
        nextDifficulty c (map m_timestamp metas) (map m_cumulativeDifficulty metas)
    | None =>
        match difficulty_walk (Z.to_nat count) db alt prevHash with
        | None => 0
        | Some l => nextDifficulty c (rev (map fst l)) (rev (map snd l))
        end
    end.

Definition check_block_timestamp (timestamps : list Z) (b : Block) : bool :=
  if Z.of_nat (length timestamps) <? timestampCheckWindow_v1 c then true
  else negb (timestamp (header b) <? medianValue timestamps).

(** [check_block_timestamp_main]; [now] is the adjusted time. *)
Definition check_block_timestamp_main (db : Db) (now : Z) (b : Block) : bool :=
  if w64 (now + blockFutureTimeLimit_v1 c) <? timestamp (header b) then false
  else
    let chainHeight := getChainHeight db in
    let window := w32 (timestampCheckWindow_v1 c) in
    let fromH := if window <? chainHeight then chainHeight - window else 0 in
    check_block_timestamp (map m_timestamp (getBlockMetaRange db fromH (w32 (chainHeight - 1)))) b.

Definition checkCumulativeBlockSize (cumulativeBlockSize height : Z) : bool :=
  negb (maxBlockCumulativeSize c height <? cumulativeBlockSize).

Definition getBackwardBlocksSize (db : Db) (from_height count : Z) : option (list Z) :=
  if from_height <? getChainHeight db then
    let start_offset := w32 (from_height + 1 - Z.min (from_height + 1) count) in
    Some (map m_blockCumulativeSize (getBlockMetaRange db start_offset (w32 from_height)))
  else None.

(** The callers ignore the failure and keep the empty vector. *)
Definition get_last_n_blocks_sizes (db : Db) (count : Z) : list Z :=
  let chainHeight := getChainHeight db in
  if chainHeight =? 0 then [] else default [] (getBackwardBlocksSize db (chainHeight - 1) count).

(** The new [m_current_block_cumul_sz_limit]. *)
Definition update_next_cumulative_size_limit (db : Db) : Z :=
  let zone := blockGrantedFullRewardZoneByBlockVersion c (getBlockMajorVersionForHeight (getChainHeight db)) in
  let median := medianValue (get_last_n_blocks_sizes db (rewardBlocksWindow c)) in
  w64 ((if median <=? zone then zone else median) * 2).

(** ** Coinbase and block signature *)

Definition is_CoinbaseOutput (o : TransactionOutput) : bool :=
  match target o with OutCoinbase _ => true | _ => false end.

Definition prevalidate_miner_transaction (b : Block) (height : Z) : bool :=
  let tx := baseTransaction b in
  let p := prefix tx in
  (version p =? TRANSACTION_VERSION_1) &&
  (txType p =? TX_COINBASE) &&
  (Z.of_nat (length (inputs p)) =? 1) &&
  (if height =? 0 then negb (Z.of_nat (length (outputs p)) =? 0) else Z.of_nat (length (outputs p)) =? 1) &&
  forallb is_CoinbaseOutput (outputs p) &&
  (Z.of_nat (length (pqSignatures tx)) =? 0) &&
  match inputs p with InBase i :: _ => blockIndex i =? height | _ => false end &&
  ((height =? 0) || (unlockHeight p =? w64 (height + minedMoneyUnlockWindow c))) &&
  check_outs_overflow p &&
  negb (maxExtraSize (majorVersion (header b)) <? len (extra p)).

(** [validate_miner_transaction]: (reward, emissionChange) when accepted. *)
Definition validate_miner_transaction (db : Db) (b : Block) (height cumulativeBlockSize alreadyGeneratedCoins fee : Z)
  : option (Z * Z) :=
  let minerReward := getOutputAmount (baseTransaction b) in
  if height =? 0 then Some (minerReward, s64 minerReward)
  else
    let blocksSizeMedian := medianValue (get_last_n_blocks_sizes db (rewardBlocksWindow c)) in
    match getBlockReward c (getBlockMajorVersionForHeight height) blocksSizeMedian cumulativeBlockSize alreadyGeneratedCoins fee with
    | None => None
    | Some (reward, emissionChange) =>
        if reward <? minerReward then None
        else if minerReward <? reward then None
        else Some (reward, emissionChange)
    end.

Definition validate_block_signature (b : Block) (height : Z) : bool :=
  if height =? 0 then true
  else
    let p := prefix (baseTransaction b) in
    if negb (len (signature b) =? PQ_SIGNATURE_SIZE) then false
    else match getPqMinerSpendPubFromExtra (extra p) with
         | None => false
         | Some spendPub =>
             match outputs p with
             | [o] =>
                 match target o with
                 | OutCoinbase cbOut =>
                     cb_spendCommit cbOut ==b PqDerive.spendCommit sha3_256 spendPub (PqDerive.coinbaseRho sha3_256 spendPub height 0)
                 | _ => false
                 end
             | _ => false
             end
         end.

(** [Currency::constructMinerTxPq]; a nonce too long to add is dropped. *)
Definition constructMinerTxPq (blockMajorVersion height medianSize alreadyGeneratedCoins currentBlockSize fee : Z)
  (minerSpendPub extraNonce : bytes) : option Transaction :=
  match getBlockReward c blockMajorVersion medianSize currentBlockSize alreadyGeneratedCoins fee with
  | None => None
  | Some (blockReward, _) =>
      let unlock := w64 (height + minedMoneyUnlockWindow c) in
      let sc := PqDerive.spendCommit sha3_256 minerSpendPub (PqDerive.coinbaseRho sha3_256 minerSpendPub height 0) in
      let out := mkTransactionOutput blockReward unlock (OutCoinbase (mkCoinbaseOutput sc)) in
      let extra := addPqMinerSpendPubToExtra [] minerSpendPub in
      let extra := match extraNonce with
                   | [] => extra
                   | _ => default extra (addExtraNonceToTransactionExtra extra extraNonce)
                   end in
      Some (mkTransaction
              (mkTransactionPrefix TRANSACTION_VERSION_1 TX_COINBASE unlock [InBase (mkBaseInput height)] [out] extra) [])
  end.

(** [checkProofOfWork] *)
Definition checkProofOfWork (b : Block) (currentDiffic : Z) : bool :=
  match prevalidateBlockProofOfWork cn_fast_hash shake256 dsa_verify yespower_discrete b with
  | None => false
  | Some proofOfWork => Difficulty.check_hash proofOfWork currentDiffic
  end.

End Rules.
End ChainRules.
Import ChainRules.

(** ** The registration-proof caches *)

Section Caches.
Variable sha3_256 : bytes -> bytes.
Variable cn_fast_hash : bytes -> bytes.
Variable y_slow_hash : bytes -> bytes -> option bytes.
Variable c : Currency.

Abbreviation tupleOf := (freeRegProofTupleOf sha3_256 cn_fast_hash).
Abbreviation pow_ok tx := (free_reg_pow y_slow_hash c tx).

(** What a check without caches would answer. *)
Definition uncached (db : Db) (tx : Transaction) : option Z :=
  match freeRegChainStateOk sha3_256 db tx with
  | Some refHeight => if pow_ok tx then Some refHeight else None
  | None => None
  end.

(** The calls the node makes, in some order, each on the database of its time. *)
Inductive proof_call :=
| Precheck (db : Db) (tx : Transaction)
| Check_inputs (db : Db) (tx : Transaction).
Definition call_tx (k : proof_call) : Transaction := match k with Precheck _ tx | Check_inputs _ tx => tx end.
Definition run_call (s : ProofCaches) (k : proof_call) : ProofCaches :=
  match k with
  | Precheck db tx => snd (precheckFreeRegPow sha3_256 cn_fast_hash y_slow_hash c db s tx)
  | Check_inputs db tx => snd (checkFreeRegInputs sha3_256 cn_fast_hash y_slow_hash c db s tx)
  end.

(** The strings hashed to name the proof of a transaction. *)
Definition account_hashed (tx : Transaction) : list bytes :=
  match getPqAccountRegistrationFromExtra (extra (prefix tx)) with
  | Some (v, s) => [str "discrete-pq-account-id-v1" ++ v ++ s]
  | None => []
  end.
Definition tuple_hashed (tx : Transaction) : list bytes :=
  match getPqAccountRegistrationFromExtra (extra (prefix tx)), getPowTagFromExtra (extra (prefix tx)) with
  | Some (v, s), Some (r, n) => [getPqAccountIdentityHash sha3_256 v s ++ r ++ le_split 8 n]
  | _, _ => []
  end.
Definition proof_collision (txs : list Transaction) : Prop :=
  collides sha3_256 (flat_map account_hashed txs) \/ collides cn_fast_hash (flat_map tuple_hashed txs).

(** Every remembered tuple is that of a transaction seen, with its verdict; the
    queue lists the set and stays within the bound. *)
Record cache_ok (verdict : bool) (seen : list Transaction) (k : ProofCache) : Prop := {
  ck_verdict : forall t, t ∈ proofs k -> exists tx, In tx seen /\ tupleOf tx = Some t /\ pow_ok tx = verdict;
  ck_set : proofs k = list_to_set (order k);
  ck_nodup : NoDup (order k);
  ck_bound : Z.of_nat (length (order k)) <= parameters.FREE_REG_BAD_PROOF_CACHE_SIZE
}.
Definition caches_ok (seen : list Transaction) (s : ProofCaches) : Prop :=
  cache_ok false seen (badFreeRegProofs s) /\ cache_ok true seen (goodFreeRegProofs s).

Lemma cache_ok_empty verdict : cache_ok verdict [] (mkProofCache ∅ []).
Proof. constructor; cbn; [set_solver|reflexivity|constructor|easy]. Qed.

Lemma cache_ok_mono verdict seen tx k : cache_ok verdict seen k -> cache_ok verdict (seen ++ [tx]) k.
Proof.
  intros [V S N B]. constructor; try assumption. intros t Ht. destruct (V t Ht) as (x & Hx & H).
  exists x. rewrite in_app_iff. auto.
Qed.

Lemma remember_ok verdict seen k tx t : cache_ok verdict seen k -> tupleOf tx = Some t -> pow_ok tx = verdict ->
  cache_ok verdict (seen ++ [tx]) (remember k t).
Proof.
  intros K Ht Hp. apply (cache_ok_mono _ _ tx) in K. unfold remember, known.
  case_bool_decide as Hk; [exact K|]. destruct K as [V S N B].
  assert (Hnew : exists x, In x (seen ++ [tx]) /\ tupleOf x = Some t /\ pow_ok x = verdict).
  { exists tx. rewrite in_app_iff. cbn. auto. }
  assert (Hno : t ∉ order k) by (rewrite S in Hk; set_solver).
  destruct (Z.leb_spec parameters.FREE_REG_BAD_PROOF_CACHE_SIZE (Z.of_nat (length (order k)))) as [L|L].
  - destruct (order k) as [|o os] eqn:Eo; [cbn in L; unfold parameters.FREE_REG_BAD_PROOF_CACHE_SIZE in L; lia|].
    apply NoDup_cons in N as [No Ns]. cbn [firstn tl proofs order] in *. constructor; cbn [proofs order].
    + intros x Hx. apply elem_of_union in Hx as [Hx|Hx]; [apply elem_of_singleton in Hx as ->; exact Hnew|].
      apply V. set_solver.
    + rewrite S, list_to_set_app_L. cbn. set_solver.
    + apply NoDup_app. split; [exact Ns|]. split; [set_solver|]. apply NoDup_singleton.
    + rewrite length_app. cbn [length] in *. lia.
  - constructor; cbn [proofs order].
    + intros x Hx. apply elem_of_union in Hx as [Hx|Hx]; [apply elem_of_singleton in Hx as ->; exact Hnew|auto].
    + rewrite S, list_to_set_app_L. cbn. set_solver.
    + apply NoDup_app. split; [exact N|]. split; [set_solver|]. apply NoDup_singleton.
    + rewrite length_app. cbn [length] in *. lia.
Qed.

(** The chain-state check passes only on transactions that have a tuple. *)
Lemma chain_state_tuple db tx h : freeRegChainStateOk sha3_256 db tx = Some h -> exists t, tupleOf tx = Some t.
Proof.
  unfold freeRegChainStateOk, freeRegProofTupleOf.
  destruct (getPqAccountRegistrationFromExtra _) as [[v s]|]; [|discriminate].
  destruct (getPowTagFromExtra _) as [[r n]|]; [|discriminate]. eauto.
Qed.

Lemma run_call_ok seen s k : caches_ok seen s -> caches_ok (seen ++ [call_tx k]) (run_call s k).
Proof.
  intros [B G].
  assert (Same : forall tx, caches_ok (seen ++ [tx]) s) by (intros; split; now apply cache_ok_mono).
  assert (Eval : forall tx t, tupleOf tx = Some t ->
    caches_ok (seen ++ [tx]) (if pow_ok tx then rememberGood s t else rememberBad s t)).
  { intros tx t Ht. destruct (pow_ok tx) eqn:Ep; split; cbn; first [now apply remember_ok|now apply cache_ok_mono]. }
  destruct k as [db tx|db tx]; cbn [call_tx run_call].
  - unfold precheckFreeRegPow. destruct (tupleOf tx) as [t|] eqn:Et; [|apply Same].
    destruct (known (badFreeRegProofs s) t); [apply Same|]. destruct (known (goodFreeRegProofs s) t); [apply Same|].
    destruct (freeRegChainStateOk sha3_256 db tx); [|apply Same].
    specialize (Eval tx t Et). destruct (pow_ok tx); exact Eval.
  - unfold checkFreeRegInputs. destruct (freeRegChainStateOk sha3_256 db tx); [|apply Same].
    destruct (tupleOf tx) as [t|] eqn:Et; [|apply Same].
    destruct (known (badFreeRegProofs s) t); [apply Same|]. destruct (known (goodFreeRegProofs s) t); [apply Same|].
    specialize (Eval tx t Et). destruct (pow_ok tx); exact Eval.
Qed.

Lemma run_calls_ok calls : forall seen s, caches_ok seen s ->
  caches_ok (seen ++ map call_tx calls) (fold_left run_call calls s).
Proof.
  induction calls as [|k calls IH]; intros seen s H; cbn [map fold_left]; [now rewrite app_nil_r|].
  replace (seen ++ call_tx k :: map call_tx calls) with ((seen ++ [call_tx k]) ++ map call_tx calls)
    by (rewrite <- app_assoc; reflexivity).
  apply IH, run_call_ok, H.
Qed.

(** Transactions with one tuple carry one proof, so they have one verdict. *)
Lemma tuple_verdict tx tx' t txs : (forall x, length (sha3_256 x) = 32%nat) -> In tx txs -> In tx' txs ->
  tupleOf tx = Some t -> tupleOf tx' = Some t -> pow_ok tx = pow_ok tx' \/ proof_collision txs.
Proof.
  intros Hs Hi Hi'. unfold freeRegProofTupleOf, free_reg_pow, checkFreeRegTransactionPow.
  destruct (getPqAccountRegistrationFromExtra (extra (prefix tx))) as [[v s]|] eqn:R; [|discriminate].
  destruct (getPowTagFromExtra (extra (prefix tx))) as [[r n]|] eqn:P; [|discriminate].
  destruct (getPqAccountRegistrationFromExtra (extra (prefix tx'))) as [[v' s']|] eqn:R'; [|discriminate].
  destruct (getPowTagFromExtra (extra (prefix tx'))) as [[r' n']|] eqn:P'; [|discriminate].
  intros E E'. injection E as E. injection E' as E'. rewrite <- E' in E.
  apply (hash_cases cn_fast_hash (flat_map tuple_hashed txs)) in E as [E|C]; [|right; right; exact C|..].
  2: { apply in_flat_map. exists tx. unfold tuple_hashed. rewrite R, P. cbn. auto. }
  2: { apply in_flat_map. exists tx'. unfold tuple_hashed. rewrite R', P'. cbn. auto. }
  apply registration_sizes in R as Rs. apply registration_sizes in R' as Rs'. apply pow_sizes in P as Ps. apply pow_sizes in P' as Ps'.
  unfold len in *. apply app_inj_len in E as [Ei E]; [|unfold getPqAccountIdentityHash; now rewrite !Hs].
  apply app_inj_len in E as [-> E]; [|lia].
  apply (f_equal le_combine) in E. rewrite !le_combine_split in E. change (Z.of_nat 8 * 8) with 64 in E.
  unfold in_w in *. rewrite !Z.mod_small in E by apply Ps || apply Ps'. subst n'.
  apply (hash_cases sha3_256 (flat_map account_hashed txs)) in Ei as [Ei|C]; [|right; left; exact C|..].
  2: { apply in_flat_map. exists tx. unfold account_hashed. rewrite R. cbn. auto. }
  2: { apply in_flat_map. exists tx'. unfold account_hashed. rewrite R'. cbn. auto. }
  apply app_inv_head in Ei. apply app_inj_len in Ei as [-> ->]; [auto|lia].
Qed.

(** With caches filled by the checks of [seen], the verdict is that of the full
    check. *)
Lemma checkFreeRegInputs_uncached seen s db tx : (forall x, length (sha3_256 x) = 32%nat) -> caches_ok seen s ->
  fst (checkFreeRegInputs sha3_256 cn_fast_hash y_slow_hash c db s tx) = uncached db tx \/ proof_collision (tx :: seen).
Proof.
  intros Hs [B G]. unfold checkFreeRegInputs, uncached. destruct (freeRegChainStateOk sha3_256 db tx) as [h|] eqn:Ec; [|auto].
  destruct (chain_state_tuple db tx h Ec) as [t Et]. rewrite Et. unfold known.
  assert (Same : forall verdict k, cache_ok verdict seen k -> t ∈ proofs k -> pow_ok tx = verdict \/ proof_collision (tx :: seen)).
  { intros verdict k K Hk. destruct (ck_verdict _ _ _ K t Hk) as (tx' & Hin & Et' & <-).
    apply (tuple_verdict tx tx' t); auto; [now left|now right]. }
  case_bool_decide as Hb.
  { destruct (Same false _ B Hb) as [->|C]; auto. }
  case_bool_decide as Hg.
  { destruct (Same true _ G Hg) as [->|C]; auto. }
  left. destruct (pow_ok tx); reflexivity.
Qed.

End Caches.

(** ** Spending *)

Section Spending.
Variable sha3_256 : bytes -> bytes.
Variable dsa_verify : bytes -> bytes -> bytes -> bool.
Variable c : Currency.
Variable genesisBlockHash : bytes.

Abbreviation nullifier_of := (pqNullifier sha3_256).

Lemma total_nonneg {A} (f : A -> Z) l : List.Forall (fun x => in_w 64 (f x)) l -> 0 <= total (map f l).
Proof.
  induction 1 as [|x l Hx _ IH]; cbn; [lia|]. unfold in_w in Hx. change (fold_right Z.add 0 (map f l)) with (total (map f l)). lia.
Qed.

Lemma transactionByIndex_wf db block slot te : transactionByIndex db block slot = Ok te -> wf_Transaction (te_tx te).
Proof.
  unfold transactionByIndex. destruct (getTxEntry db block slot) as [raw|]; [|discriminate].
  destruct (4 <=? len raw); cbn [guard bind]; [|discriminate]. destruct (_ <=? len raw); cbn [guard bind]; [|discriminate].
  destruct (fromBinaryArray tx_codec _) as [tx|] eqn:E; [|discriminate]. intros H. injection H as <-.
  apply (fromBinaryArray_iff tx_codec) in E as [W _]. exact W.
Qed.

Lemma wf_amounts tx : wf_Transaction tx -> Forall (fun o => in_w 64 (amount o)) (outputs (prefix tx)).
Proof.
  intros [(_ & _ & _ & _ & _ & [_ Ho] & _) _]. eapply List.Forall_impl; [|exact Ho]. intros o Wo. apply Wo.
Qed.

Lemma referenced_amount db i block slot o : referenced_output db i = Some (block, slot, o) -> in_w 64 (amount o).
Proof.
  unfold referenced_output, pqReferencedTx. destruct (getTxIndex db (prevTxid i)) as [[b s]|]; [|discriminate].
  destruct (transactionByIndex db b s) as [te|] eqn:E; [|discriminate]. apply transactionByIndex_wf, wf_amounts in E.
  destruct (_ <? _); [|discriminate].
  destruct (nth_error (outputs (prefix (te_tx te))) (Z.to_nat (prevOutIndex i))) as [o'|] eqn:En; [|discriminate].
  destruct (spendable_commit o'); [|discriminate]. intros H. injection H as <- <- <-.
  rewrite List.Forall_forall in E. apply E. eapply nth_error_In, En.
Qed.

(** An input the chain lets its owner spend now. *)
Definition spendable (db : Db) (i : PqInput) : Prop :=
  exists block slot o, referenced_output db i = Some (block, slot, o) /\
    is_tx_spendheight_unlocked c db (out_unlockHeight o) = true /\
    spendable_commit o = Some (PqDerive.spendCommit sha3_256 (authPub i) (rhoReveal i)) /\
    pqInputFieldsValid i = true /\ spent_keys db !! nullifier_of i = None.

Definition input_amount (db : Db) (i : PqInput) : Z :=
  match referenced_output db i with Some (_, _, o) => amount o | None => 0 end.

Lemma input_amount_range db i : in_w 64 (input_amount db i).
Proof.
  unfold input_amount. destruct (referenced_output db i) as [[[b s] o]|] eqn:E; [|easy].
  exact (referenced_amount _ _ _ _ _ E).
Qed.

Lemma resolve_amount_range db i : in_w 64 (r_amount (fst (resolve_input c db i))).
Proof.
  unfold resolve_input. destruct (referenced_output db i) as [[[b s] o]|] eqn:E; [|easy].
  destruct (is_tx_spendheight_unlocked c db (out_unlockHeight o)); [|easy]. exact (referenced_amount _ _ _ _ _ E).
Qed.

Lemma resolved_spendable db i : owned sha3_256 i (fst (resolve_input c db i)) -> spent_keys db !! nullifier_of i = None ->
  spendable db i /\ r_amount (fst (resolve_input c db i)) = input_amount db i.
Proof.
  intros (V & X & _ & C) Hs. unfold resolve_input, input_amount in *.
  destruct (referenced_output db i) as [[[b s] o]|] eqn:E; [|discriminate].
  destruct (is_tx_spendheight_unlocked c db (out_unlockHeight o)) eqn:U; [|discriminate]. cbn in *.
  assert (Hc : is_Some (spendable_commit o)).
  { unfold referenced_output in E. destruct (pqReferencedTx db (prevTxid i)) as [[[b' s'] outs]|]; [|discriminate].
    destruct (_ <? _); [|discriminate]. destruct (nth_error outs _) as [o'|]; [|discriminate].
    destruct (spendable_commit o') eqn:Eo; [|discriminate]. injection E as _ _ <-. rewrite Eo. eauto. }
  destruct Hc as [sc Hc]. rewrite Hc in C. cbn in C. subst sc. split; [|reflexivity]. exists b, s, o. auto 10.
Qed.

Lemma pq_inputs_map ks tx : inputs (prefix tx) = map InPq ks -> pq_inputs tx = ks.
Proof.
  unfold pq_inputs. intros ->. induction ks as [|k ks IH]; [reflexivity|]. cbn. f_equal. exact IH.
Qed.

Lemma wrapped_sum {A} (f : A -> Z) l : forall s, in_w 64 s ->
  fold_left (fun sum x => w64 (sum + f x)) l s = w64 (s + total (map f l)).
Proof.
  induction l as [|x l IH]; intros s Hs; cbn [fold_left map total fold_right].
  - rewrite Z.add_0_r. symmetry. now apply wrap_small.
  - rewrite IH by (apply wrap_range; lia). change (fold_right Z.add 0 (map f l)) with (total (map f l)).
    unfold wrap. rewrite Zplus_mod_idemp_l, Z.add_assoc. reflexivity.
Qed.

Lemma getOutputAmount_sum tx : getOutputAmount tx = w64 (total (map amount (outputs (prefix tx)))).
Proof. unfold getOutputAmount. now rewrite wrapped_sum. Qed.

Lemma pqReferencedInputAmount_sum db tx :
  pqReferencedInputAmount db tx = w64 (total (map (input_amount db) (pq_inputs tx))).
Proof.
  unfold pqReferencedInputAmount. rewrite <- (Z.add_0_l (total _)), <- wrapped_sum by easy.
  assert (H0 : in_w 64 0) by easy. revert H0. generalize 0.
  induction (pq_inputs tx) as [|k ks IH]; intros z Hz; [reflexivity|]. cbn [fold_left].
  assert (E : match referenced_output db k with Some (_, _, o) => w64 (z + amount o) | None => z end = w64 (z + input_amount db k)).
  { unfold input_amount. destruct (referenced_output db k) as [[[b s] o]|]; [reflexivity|].
    rewrite Z.add_0_r. symmetry. now apply wrap_small. }
  rewrite E. apply IH, wrap_range. lia.
Qed.

(** What an accepted transfer has been checked for, beyond its signatures. *)
Record transfer_ok (db : Db) (tx : Transaction) (ks : list PqInput) (fee : Z) : Prop := {
  tr_inputs : inputs (prefix tx) = map InPq ks;
  tr_spendable : Forall (spendable db) ks;
  tr_nodup : NoDup (map nullifier_of ks);
  tr_balance : total (map (input_amount db) ks) = total (map amount (outputs (prefix tx))) + fee;
  tr_floor : parameters.pqTxFeeFloor parameters.MINIMUM_FEE (len (extra (prefix tx))) <= fee;
  tr_fee : 0 <= fee;
  tr_width : in_w 64 (total (map (input_amount db) ks))
}.

Lemma shape_inputs_bound tx : pq_shape tx -> Z.of_nat (length (inputs (prefix tx))) <= 2 ^ 32.
Proof. unfold pq_shape. unfold parameters.MAX_PQ_GROUPED_INPUTS_PER_TX, parameters.MAX_PQ_INPUTS_PER_TX. lia. Qed.

Lemma wf_refs_nonneg tx : wf_Transaction tx -> refs_nonneg (inputs (prefix tx)).
Proof.
  intros [(_ & _ & _ & [_ Hi] & _) _]. rewrite List.Forall_forall in Hi. apply List.Forall_forall. intros [g|k] Hx; [exact I|].
  pose proof (Hi _ (in_map strip _ _ Hx)) as H. unfold strip in H.
  destruct (keyRef k =? PQ_NO_KEY_REF); destruct H as (_ & _ & H & _); unfold in_w in H; cbn in H; lia.
Qed.

Lemma wf_typed tx resolved : wf_Transaction tx -> checkPqTransactionSemantic tx = Ok tt ->
  Forall (fun r => in_w 64 (r_amount r)) resolved -> typed tx resolved.
Proof.
  intros W S R. pose proof (wf_refs_nonneg tx W) as Hr. constructor; try assumption.
  - apply shape_inputs_bound. exact (proj1 (semantic_iff tx Hr) S).
  - now apply wf_amounts.
Qed.

Lemma checkPqInputs_ok db tx h : wf_Transaction tx -> checkPqTransactionSemantic tx = Ok tt ->
  checkPqInputs sha3_256 dsa_verify c genesisBlockHash db tx = Some h ->
  exists ks fee, transfer_ok db tx ks fee.
Proof.
  intros W S. unfold checkPqInputs.
  destruct (forallb _ (inputs (prefix tx))); cbn [negb]; [|discriminate].
  destruct (existsb _ (pq_inputs tx)) eqn:Ex; [discriminate|].
  destruct (checkPqTransactionInputs _ _ _ _ _ _) as [nfs|] eqn:E; [|discriminate]. intros _.
  rewrite List.map_map in E.
  apply checkPqTransactionInputs_inv in E as (ks & fee & u & Hi & _ & Ho & -> & Hn & Hb & H0 & Hf & Hw & _).
  2: { apply wf_typed; [assumption..|]. apply List.Forall_map, List.Forall_forall. intros i _. apply resolve_amount_range. }
  rewrite (pq_inputs_map ks tx Hi) in *. exists ks, fee.
  assert (Hs : List.Forall (fun i => spent_keys db !! nullifier_of i = None) ks).
  { apply List.Forall_forall. intros i Hin. apply hasSpentKey_false. destruct (hasSpentKey db (nullifier_of i)) eqn:K; [|reflexivity].
    assert (existsb (fun k => hasSpentKey db (pqNullifier sha3_256 k)) ks = true) by (apply existsb_exists; eauto). congruence. }
  apply Forall2_map_r in Ho. rewrite List.Forall_forall in Ho, Hs.
  assert (Ha : map (fun i => r_amount (fst (resolve_input c db i))) ks = map (input_amount db) ks).
  { apply map_ext_in. intros i Hin. apply (resolved_spendable db i); [apply Ho|apply Hs]; assumption. }
  constructor; try assumption.
  - apply List.Forall_forall. intros i Hin. apply (resolved_spendable db i); [apply Ho|apply Hs]; assumption.
  - now apply base.NoDup_ListNoDup.
  - rewrite <- Ha, <- Hb, List.map_map. reflexivity.
  - destruct Hf as [Hf|Hf]; [discriminate Hf|exact Hf].
  - rewrite <- Ha. rewrite List.map_map in Hw. exact Hw.
Qed.

(** The fee [pushBlock] charges is the exact balance: neither sum wraps. *)
Lemma transfer_fee db tx ks fee : transfer_ok db tx ks fee -> wf_Transaction tx -> getPqTransactionFee db tx = Some fee.
Proof.
  intros [Hi _ _ Hb _ H0 Hw] W. unfold getPqTransactionFee. rewrite pqReferencedInputAmount_sum, getOutputAmount_sum.
  rewrite (pq_inputs_map ks tx Hi). pose proof (total_nonneg amount _ (wf_amounts tx W)) as Hp.
  unfold in_w in Hw. rewrite !wrap_small by (unfold in_w; lia). rewrite (proj2 (Z.ltb_ge _ _)) by lia. f_equal. lia.
Qed.

End Spending.

(** ** The coinbase *)

Section Coinbase.
Variable sha3_256 : bytes -> bytes.
Variable c : Currency.

(** The same block with other per-output locks on its coinbase. *)
Definition relock_output (u : Z) (o : TransactionOutput) : TransactionOutput := mkTransactionOutput (amount o) u (target o).
Definition relock (u : Z) (b : Block) : Block :=
  let tx := baseTransaction b in
  let p := prefix tx in
  mkBlock (header b)
    (mkTransaction (mkTransactionPrefix (version p) (txType p) (unlockHeight p) (inputs p)
                      (map (relock_output u) (outputs p)) (extra p)) (pqSignatures tx))
    (signature b) (transactionHashes b).

Lemma relock_overflow u outs : forall money, outs_overflow_loop money (map (relock_output u) outs) = outs_overflow_loop money outs.
Proof. induction outs as [|o outs IH]; intros money; [reflexivity|]. cbn. destruct (_ <? money); [reflexivity|apply IH]. Qed.

Lemma relock_prevalidate u b h : prevalidate_miner_transaction c (relock u b) h = prevalidate_miner_transaction c b h.
Proof.
  unfold prevalidate_miner_transaction, relock, check_outs_overflow.
  cbn [header baseTransaction prefix version txType inputs outputs unlockHeight extra pqSignatures].
  rewrite length_map, relock_overflow. f_equal. f_equal. f_equal. f_equal. f_equal. f_equal.
  induction (outputs (prefix (baseTransaction b))) as [|o outs IH]; [reflexivity|]. cbn. now rewrite IH.
Qed.

Lemma relock_signature u b h : validate_block_signature sha3_256 (relock u b) h = validate_block_signature sha3_256 b h.
Proof.
  unfold validate_block_signature, relock. cbn [signature baseTransaction prefix outputs extra].
  destruct (outputs (prefix (baseTransaction b))) as [|o [|o' l]]; reflexivity.
Qed.

Lemma relock_amount u b : getOutputAmount (baseTransaction (relock u b)) = getOutputAmount (baseTransaction b).
Proof. rewrite !getOutputAmount_sum. cbn. rewrite List.map_map. reflexivity. Qed.

Lemma relock_reward u db b h size gen fee :
  validate_miner_transaction c db (relock u b) h size gen fee = validate_miner_transaction c db b h size gen fee.
Proof. unfold validate_miner_transaction. now rewrite relock_amount. Qed.

Lemma prevalidate_extra b h : prevalidate_miner_transaction c b h = true ->
  len (extra (prefix (baseTransaction b))) <= parameters.MAX_EXTRA_SIZE_PQ.
Proof. unfold prevalidate_miner_transaction, maxExtraSize. rewrite !andb_true_iff. intros [_ H]. lia. Qed.

(** A coinbase of a mined block carries no registration: its key leaves no room
    for one. [popTransaction] relies on this. *)
Lemma coinbase_no_registration b h : 0 < h -> prevalidate_miner_transaction c b h = true ->
  validate_block_signature sha3_256 b h = true -> registration sha3_256 (baseTransaction b) = None.
Proof.
  intros Hh Hp Hs. apply prevalidate_extra in Hp. unfold validate_block_signature in Hs.
  rewrite (proj2 (Z.eqb_neq h 0)) in Hs by lia. destruct (negb _); [discriminate|].
  destruct (getPqMinerSpendPubFromExtra _) as [k|] eqn:Ek; [|discriminate].
  unfold registration. rewrite (minerPub_excludes_registration _ k Hp Ek). reflexivity.
Qed.

Lemma miner_extra_reads pub nonce : len pub = TX_EXTRA_PQ_SPEND_PUBKEY_SIZE ->
  let e := addPqMinerSpendPubToExtra [] pub in
  let e := match nonce with [] => e | _ => default e (addExtraNonceToTransactionExtra e nonce) end in
  getPqMinerSpendPubFromExtra e = Some pub /\ len e <= 1953 + 257.
Proof.
  intros Hp. assert (Hl : len (addPqMinerSpendPubToExtra [] pub) = 1953).
  { unfold addPqMinerSpendPubToExtra, len, TX_EXTRA_PQ_SPEND_PUBKEY_SIZE in *. cbn. lia. }
  assert (Base : getPqMinerSpendPubFromExtra (addPqMinerSpendPubToExtra [] pub) = Some pub).
  { destruct (parse_written [PqMinerSpendPub pub] 0) as (b & Hw & Hr); [repeat constructor; exact Hp|auto|].
    cbn [app writeTransactionExtra write_field Z.eqb] in Hw. injection Hw as <-.
    unfold getPqMinerSpendPubFromExtra, get_field. rewrite Hr. reflexivity. }
  destruct nonce as [|n0 ns]; [split; [exact Base|lia]|]. set (nonce := n0 :: ns) in *.
  cbn zeta. unfold addExtraNonceToTransactionExtra. destruct (Z.ltb_spec TX_EXTRA_NONCE_MAX_COUNT (len nonce)) as [L|L];
    [split; [exact Base|cbn [default]; lia]|].
  destruct (parse_written [PqMinerSpendPub pub; Nonce nonce] 0) as (b & Hw & Hr);
    [constructor; [exact Hp|constructor; [exact L|constructor]]|auto|].
  cbn [app writeTransactionExtra write_field Z.eqb] in Hw. unfold addExtraNonceToTransactionExtra in Hw.
  rewrite (proj2 (Z.ltb_ge _ _) L) in Hw. injection Hw as <-. cbn [default]. unfold id. split.
  - unfold getPqMinerSpendPubFromExtra, get_field, addPqMinerSpendPubToExtra in *. cbn [app] in Hr |- *. rewrite Hr. reflexivity.
  - unfold TX_EXTRA_NONCE_MAX_COUNT in L. unfold len in *. rewrite !length_app. cbn [length]. lia.
Qed.

End Coinbase.

(** ** Difficulty: the range scan and the walk over hash links *)

(** Blocks [0 .. n) are stored under their hashes and linked to each other. *)
Record linked (n : Z) (db : Db) : Prop := {
  ln_heights : heights_are n db;
  ln_hash : forall h, 0 <= h < n -> getHashHeight db (m_hash (getBlockMeta_or_zero db h)) = Some h;
  ln_inv : forall x h, getHashHeight db x = Some h -> 0 <= h < n /\ x = m_hash (getBlockMeta_or_zero db h);
  ln_first : 0 < n -> m_prevHash (getBlockMeta_or_zero db 0) = NULL_HASH;
  ln_prev : forall h, 0 < h < n -> m_prevHash (getBlockMeta_or_zero db h) = m_hash (getBlockMeta_or_zero db (h - 1));
  ln_null : getHashHeight db NULL_HASH = None
}.

Section Difficulty.
Variable c : Currency.

Abbreviation meta_at := getBlockMeta_or_zero.
Definition point (m : DbBlockMeta) : Z * Z := (m_timestamp m, m_cumulativeDifficulty m).

Lemma meta_range n db from to : heights_are n db -> 0 <= from <= to -> to < n ->
  getBlockMetaRange db from to = map (meta_at db) (seqZ from (to - from + 1)).
Proof.
  intros H Hf Ht. unfold getBlockMetaRange. rewrite (proj2 (Z.ltb_ge to from)) by lia.
  assert (Hs : forall h, from <= h <= to -> getBlockMeta db h = Some (meta_at db h)).
  { intros h Hh. unfold getBlockMeta_or_zero. destruct (proj2 (H h)) as [m Hm]; [lia|].
    unfold getBlockMeta. rewrite Hm. reflexivity. }
  rewrite (Hs from) by lia.
  assert (Hl : forall l, (forall h, h ∈ l -> from <= h <= to) -> omap (getBlockMeta db) l = map (meta_at db) l).
  { induction l as [|h l IH]; intros Hin; [reflexivity|]. cbn. rewrite Hs by (apply Hin; left).
    f_equal. apply IH. intros. apply Hin. now right. }
  apply Hl. intros h Hh. apply elem_of_seqZ in Hh. lia.
Qed.

Lemma walk_linked n db alt : linked n db ->
  (forall x h, getHashHeight db x = Some h -> alt !! x = None) ->
  forall k h, 0 <= h < n -> difficulty_walk k db alt (m_hash (meta_at db h)) =
    Some (map (fun i => point (meta_at db i)) (rev (seqZ (Z.max 0 (h + 1 - Z.of_nat k)) (h + 1 - Z.max 0 (h + 1 - Z.of_nat k))))).
Proof.
  intros L A. induction k as [|k IH]; intros h Hh; cbn [difficulty_walk].
  { replace (h + 1 - Z.max 0 (h + 1 - Z.of_nat 0)) with 0 by lia. reflexivity. }
  pose proof (ln_hash _ _ L h Hh) as Eh.
  destruct (bytes_eqb (m_hash (meta_at db h)) NULL_HASH) eqn:En.
  { apply bytes_eqb_eq in En. rewrite En, (ln_null _ _ L) in Eh. discriminate. }
  rewrite (A _ _ Eh), Eh. set (a := Z.max 0 (h + 1 - Z.of_nat (S k))).
  assert (Hsplit : seqZ a (h + 1 - a) = seqZ a (h - a) ++ [h]).
  { replace (h + 1 - a) with ((h - a) + 1) by lia. rewrite seqZ_app by lia.
    replace (a + (h - a)) with h by lia. reflexivity. }
  rewrite Hsplit, rev_unit. cbn [map].
  assert (Hrest : difficulty_walk k db alt (m_prevHash (meta_at db h)) =
                  Some (map (fun i => point (meta_at db i)) (rev (seqZ a (h - a))))).
  { destruct (Z.eq_dec h 0) as [->|Hz].
    - rewrite (ln_first _ _ L) by lia. replace (0 - a) with 0 by lia.
      destruct k; cbn [difficulty_walk]; [reflexivity|]. rewrite bytes_eqb_refl. reflexivity.
    - rewrite (ln_prev _ _ L) by lia. rewrite IH by lia. subst a.
      replace (h - 1 + 1 - Z.of_nat k) with (h + 1 - Z.of_nat (S k)) by lia.
      replace (h - 1 + 1) with h by lia. reflexivity. }
  rewrite Hrest. reflexivity.
Qed.

End Difficulty.

Lemma difficulty_count_range c h : 1 <= w32 (difficultyBlocksCount4 c + 1) ->
  1 <= difficulty_count c h <= w32 (difficultyBlocksCount4 c + 1).
Proof. unfold difficulty_count. destruct (0 <? h); lia. Qed.

Lemma next_difficulty_by_links c n db alt prevHash h : linked n db -> n < 2 ^ 32 ->
  (forall x h, getHashHeight db x = Some h -> alt !! x = None) ->
  1 <= w32 (difficultyBlocksCount4 c + 1) -> getHashHeight db prevHash = Some h ->
  exists l, difficulty_walk (Z.to_nat (difficulty_count c (getChainHeight db))) db alt prevHash = Some l /\
    getDifficultyForNextBlock c db alt prevHash = nextDifficulty c (rev (map fst l)) (rev (map snd l)).
Proof.
  intros L Hn A Hc Hp. destruct (ln_inv _ _ L _ _ Hp) as [Hh ->].
  pose proof (difficulty_count_range c (getChainHeight db) Hc) as Hk.
  set (k := difficulty_count c (getChainHeight db)) in *.
  rewrite (walk_linked n db alt L A) by assumption. rewrite Z2Nat.id by lia. eexists. split; [reflexivity|].
  unfold getDifficultyForNextBlock. destruct (bytes_eqb (m_hash (getBlockMeta_or_zero db h)) NULL_HASH) eqn:En.
  { apply bytes_eqb_eq in En. rewrite En, (ln_null _ _ L) in Hp. discriminate. }
  rewrite Hp. cbv zeta. fold k. rewrite (wrap_small 32 (h + 1)) by (unfold in_w; lia).
  assert (Hfrom : (if k <=? h + 1 then h + 1 - k else 0) = Z.max 0 (h + 1 - k)) by (destruct (Z.leb_spec k (h + 1)); lia).
  rewrite Hfrom, (meta_range n db _ _ (ln_heights _ _ L)) by lia. rewrite !List.map_map, !map_rev, !rev_involutive.
  replace (h - Z.max 0 (h + 1 - k) + 1) with (h + 1 - Z.max 0 (h + 1 - k)) by lia. reflexivity.
Qed.

Lemma getBlockReward_range c v m s g f r e : getBlockReward c v m s g f = Some (r, e) -> in_w 64 r.
Proof. unfold getBlockReward. destruct (_ <? s); [discriminate|]. intros H. injection H as <- _. apply wrap_range. lia. Qed.

(** ** Properties *)

(** C22: A transfer the chain accepts spends only what the chain lets its owner
    spend: every input names an output stored on the main chain, past its lock,
    whose commitment the revealed key and rho open and whose nullifier is unspent;
    the inputs are pairwise different, and the exact sum of those outputs is the
    sum of the new outputs plus the fee the block charges, which meets the floor. *)
Theorem chain_spend_rule sha3_256 dsa_verify c genesis db tx h :
  wf_Transaction tx -> checkPqTransactionSemantic tx = Ok tt ->
  checkPqInputs sha3_256 dsa_verify c genesis db tx = Some h ->
  exists ks fee, transfer_ok sha3_256 c db tx ks fee /\ getPqTransactionFee db tx = Some fee.
Proof.
  intros W S H. destruct (checkPqInputs_ok sha3_256 dsa_verify c genesis db tx h W S H) as (ks & fee & T).
  exists ks, fee. split; [exact T|]. exact (transfer_fee sha3_256 c db tx ks fee T W).
Qed.

(** A chain of one block whose second transaction holds the output that
    [sample_transfer] spends. *)
Definition sample_funding : Transaction :=
  mkTransaction (mkTransactionPrefix 1 TX_COINBASE 0 []
    [mkTransactionOutput (total (map r_amount sample_resolved)) 0
       (OutCoinbase (mkCoinbaseOutput (PqDerive.spendCommit sample_sha3 sample_key sample_rho)))] []) [].
Definition sample_chain : Db :=
  mkDb {[0 := zero_meta]} ∅ {[(0, 1) := stored sample_funding]} ∅ ∅ ∅ {[repeat (b8 13) 32 := (0, 1)]} ∅ ∅ ∅.

Lemma chain_spend_rule_witness :
  exists ks fee, transfer_ok sample_sha3 mainnet sample_chain sample_transfer ks fee /\
    getPqTransactionFee sample_chain sample_transfer = Some fee.
Proof.
  apply (chain_spend_rule sample_sha3 sample_verify mainnet (repeat (b8 0) 32) sample_chain sample_transfer 0).
  - apply shape_wf; [repeat constructor; easy|]. apply semantic_iff; [repeat constructor; easy|]. vm_compute. reflexivity.
  - vm_compute. reflexivity.
  - vm_compute. reflexivity.
Defined.

(** C23: Coinbase maturity is not enforced: no rule on the coinbase looks at the
    lock of its output, so replacing it by any value (zero included) leaves the
    verdict of every coinbase check unchanged, while spending looks at nothing
    else: an output with lock zero resolves as spendable at any height. *)
Theorem coinbase_maturity_unenforced sha3_256 c db b u h size gen fee i block slot o :
  prevalidate_miner_transaction c (relock u b) h = prevalidate_miner_transaction c b h /\
  validate_block_signature sha3_256 (relock u b) h = validate_block_signature sha3_256 b h /\
  validate_miner_transaction c db (relock u b) h size gen fee = validate_miner_transaction c db b h size gen fee /\
  (referenced_output db i = Some (block, slot, relock_output 0 o) ->
   r_exists (fst (resolve_input c db i)) = true /\ r_amount (fst (resolve_input c db i)) = amount o).
Proof.
  split; [apply relock_prevalidate|]. split; [apply relock_signature|]. split; [apply relock_reward|].
  intros E. unfold resolve_input. rewrite E. cbn. auto.
Qed.

(** The coinbase checks of a coinbase built with their own arguments. *)
Lemma miner_tx_passes sha3_256 c db b height size gen fee pub nonce :
  0 < height -> len pub = TX_EXTRA_PQ_SPEND_PUBKEY_SIZE -> len (signature b) = PQ_SIGNATURE_SIZE ->
  constructMinerTxPq sha3_256 c (getBlockMajorVersionForHeight c height) height
    (medianValue (get_last_n_blocks_sizes db (rewardBlocksWindow c))) gen size fee pub nonce = Some (baseTransaction b) ->
  prevalidate_miner_transaction c b height = true /\
  validate_block_signature sha3_256 b height = true /\
  exists reward emission, validate_miner_transaction c db b height size gen fee = Some (reward, emission).
Proof.
  intros Hh Hp Hs H. unfold constructMinerTxPq in H.
  destruct (getBlockReward _ _ _ _ _ _) as [[r e]|] eqn:E; [|discriminate]. injection H as H.
  pose proof (getBlockReward_range _ _ _ _ _ _ _ _ E) as Hw. destruct (miner_extra_reads pub nonce Hp) as [Hk Hl].
  assert (Hz : (height =? 0) = false) by lia. split; [|split].
  - unfold prevalidate_miner_transaction. rewrite <- H. cbn -[maxExtraSize Z.ltb len w64].
    rewrite Hz, !Z.eqb_refl. cbn -[maxExtraSize Z.ltb len w64].
    unfold check_outs_overflow. cbn -[maxExtraSize Z.ltb len w64].
    unfold maxExtraSize, parameters.MAX_EXTRA_SIZE_PQ, in_w in *. 
    rewrite Z.add_0_r, wrap_small by exact Hw. rewrite (proj2 (Z.ltb_ge r 0)) by lia.
    rewrite (proj2 (Z.ltb_ge 4096 _)) by (etransitivity; [exact Hl|lia]). reflexivity.
  - unfold validate_block_signature. rewrite Hz, Hs, Z.eqb_refl, <- H. cbn [negb prefix extra outputs target cb_spendCommit].
    rewrite Hk. apply bytes_eqb_refl.
  - unfold validate_miner_transaction. rewrite Hz, E.
    assert (Ha : getOutputAmount (baseTransaction b) = r)
      by (rewrite getOutputAmount_sum, <- H; cbn; rewrite Z.add_0_r; now apply wrap_small).
    rewrite Ha, Z.ltb_irrefl. eauto.
Qed.

(** The coinbase the node builds passes the checks the node applies: with the
    version, median, size, supply and fees it was built for, the block is accepted
    by the three coinbase checks, for every miner key and extra nonce. *)
Theorem miner_tx_accepted sha3_256 c db b height size gen fee pub nonce :
  0 < height -> len pub = TX_EXTRA_PQ_SPEND_PUBKEY_SIZE -> len (signature b) = PQ_SIGNATURE_SIZE ->
  constructMinerTxPq sha3_256 c (getBlockMajorVersionForHeight c height) height
    (medianValue (get_last_n_blocks_sizes db (rewardBlocksWindow c))) gen size fee pub nonce = Some (baseTransaction b) ->
  prevalidate_miner_transaction c b height = true /\
  validate_block_signature sha3_256 b height = true /\
  exists reward emission, validate_miner_transaction c db b height size gen fee = Some (reward, emission).
Proof. apply miner_tx_passes. Qed.

Definition sample_template : Block :=
  mkBlock (mkBlockHeader 1 0 70 1700000000 NULL_HASH)
    (default sample_coinbase (constructMinerTxPq sample_sha3 mainnet 1 5 0 1000 5000 3 sample_key [b8 1; b8 2]))
    (repeat (b8 0) 3309) [].

Lemma miner_tx_accepted_witness :
  prevalidate_miner_transaction mainnet sample_template 5 = true /\
  validate_block_signature sample_sha3 sample_template 5 = true /\
  exists reward emission, validate_miner_transaction mainnet sample_chain sample_template 5 5000 1000 3 = Some (reward, emission).
Proof.
  apply (miner_tx_accepted sample_sha3 mainnet sample_chain sample_template 5 5000 1000 3 sample_key [b8 1; b8 2]);
    [lia|reflexivity|reflexivity|vm_compute; reflexivity].
Defined.

(** The caches of registration proofs never change a verdict: after any
    sequence of calls, on any databases, [checkFreeRegInputs] answers what the full
    check without caches answers, unless one of the two hashes collides on the
    strings hashed for the transactions involved; and both caches stay within
    their bound. *)
Theorem free_reg_caches_transparent sha3_256 cn_fast_hash y_slow_hash c calls db tx :
  (forall x, length (sha3_256 x) = 32%nat) ->
  let s := fold_left (run_call sha3_256 cn_fast_hash y_slow_hash c) calls no_proofs in
  (fst (checkFreeRegInputs sha3_256 cn_fast_hash y_slow_hash c db s tx) = uncached sha3_256 y_slow_hash c db tx \/
   proof_collision sha3_256 cn_fast_hash (tx :: map call_tx calls)) /\
  Z.of_nat (size (proofs (badFreeRegProofs s))) <= parameters.FREE_REG_BAD_PROOF_CACHE_SIZE /\
  Z.of_nat (size (proofs (goodFreeRegProofs s))) <= parameters.FREE_REG_BAD_PROOF_CACHE_SIZE.
Proof.
  intros Hs s. assert (K : caches_ok sha3_256 cn_fast_hash y_slow_hash c (map call_tx calls) s).
  { apply (run_calls_ok sha3_256 cn_fast_hash y_slow_hash c calls []). split; apply cache_ok_empty. }
  destruct K as [B G]. split.
  2: { rewrite (ck_set _ _ _ _ _ _ _ B), (ck_set _ _ _ _ _ _ _ G), !size_list_to_set
         by first [apply (ck_nodup _ _ _ _ _ _ _ B)|apply (ck_nodup _ _ _ _ _ _ _ G)].
       split; [apply (ck_bound _ _ _ _ _ _ _ B)|apply (ck_bound _ _ _ _ _ _ _ G)]. }
  apply checkFreeRegInputs_uncached; [exact Hs|split; assumption].
Qed.

Lemma free_reg_caches_transparent_witness :
  let s := fold_left (run_call sample_sha3 sample_sha3 (fun d _ => Some d) mainnet)
             [Precheck sample_chain sample_registration] no_proofs in
  (fst (checkFreeRegInputs sample_sha3 sample_sha3 (fun d _ => Some d) mainnet sample_chain s sample_registration) =
     uncached sample_sha3 (fun d _ => Some d) mainnet sample_chain sample_registration \/
   proof_collision sample_sha3 sample_sha3 [sample_registration; sample_registration]) /\
  Z.of_nat (size (proofs (badFreeRegProofs s))) <= parameters.FREE_REG_BAD_PROOF_CACHE_SIZE /\
  Z.of_nat (size (proofs (goodFreeRegProofs s))) <= parameters.FREE_REG_BAD_PROOF_CACHE_SIZE.
Proof.
  apply (free_reg_caches_transparent sample_sha3 sample_sha3 (fun d _ => Some d) mainnet
           [Precheck sample_chain sample_registration] sample_chain sample_registration sample_sha3_size).
Defined.

(** C28: The range scan that computes the next difficulty during sync gives the
    same difficulty as the walk over hash links, on every main-chain parent. *)
Theorem difficulty_scan_is_walk c n db alt prevHash h :
  linked n db -> n < 2 ^ 32 -> (forall x h, getHashHeight db x = Some h -> alt !! x = None) ->
  1 <= w32 (difficultyBlocksCount4 c + 1) -> getHashHeight db prevHash = Some h ->
  exists l, difficulty_walk (Z.to_nat (difficulty_count c (getChainHeight db))) db alt prevHash = Some l /\
    getDifficultyForNextBlock c db alt prevHash = nextDifficulty c (rev (map fst l)) (rev (map snd l)).
Proof. exact (next_difficulty_by_links c n db alt prevHash h). Qed.

Definition sample_meta (h : Z) : DbBlockMeta :=
  mkDbBlockMeta (repeat (b8 (h + 1)) 32) (repeat (b8 h) 32) (1000 + 90 * h) (100000 * (h + 1)) 0 100 h 1 1 0.
Definition sample_links : Db :=
  mkDb {[0 := sample_meta 0; 1 := sample_meta 1]} ∅ ∅ {[repeat (b8 1) 32 := 0; repeat (b8 2) 32 := 1]} ∅ ∅ ∅ ∅ ∅ ∅.

Lemma sample_links_linked : linked 2 sample_links.
Proof.
  constructor.
  - intros h. cbn [block_meta sample_links]. split.
    + intros [m H]. apply lookup_insert_Some in H as [[<- _]|[_ H]]; [lia|]. apply lookup_singleton_Some in H as [<- _]. lia.
    + intros Hh. assert (h = 0 \/ h = 1) as [-> | ->] by lia; eexists; vm_compute; reflexivity.
  - intros h Hh. assert (h = 0 \/ h = 1) as [-> | ->] by lia; vm_compute; reflexivity.
  - intros x h. unfold getHashHeight. cbn [hash_to_height sample_links]. intros H.
    apply lookup_insert_Some in H as [[<- <-]|[_ H]]; [split; [lia|vm_compute; reflexivity]|].
    apply lookup_singleton_Some in H as [<- <-]. split; [lia|vm_compute; reflexivity].
  - reflexivity.
  - intros h Hh. assert (h = 1) as -> by lia. vm_compute. reflexivity.
  - vm_compute. reflexivity.
Qed.

Lemma difficulty_scan_is_walk_witness :
  exists l, difficulty_walk (Z.to_nat (difficulty_count mainnet (getChainHeight sample_links))) sample_links ∅ (repeat (b8 2) 32)
              = Some l /\
    getDifficultyForNextBlock mainnet sample_links ∅ (repeat (b8 2) 32) = nextDifficulty mainnet (rev (map fst l)) (rev (map snd l)).
Proof.
  apply (difficulty_scan_is_walk mainnet 2 sample_links ∅ (repeat (b8 2) 32) 1 sample_links_linked);
    [lia|intros; apply lookup_empty|vm_compute; congruence|vm_compute; reflexivity].
Defined.
