(* ===== verification/TransactionPool.v ===== *)
(** * The transaction pool

    [tx_memory_pool] ([CryptoNoteCore/TransactionPool.h], [TransactionPool.cpp])
    with its indices ([CryptoNoteCore/BlockchainIndices.cpp]), and the validator it
    is given by [Blockchain] ([ITransactionValidator], [CryptoNoteCore/Blockchain.cpp]).

    The pool sees the chain only through an interface, the record [Validator]; the
    laws the pool's guarantees rely on are the class [ValidatorLaws], which the
    chain's own validator is shown to satisfy. The pool's container is a list in
    the order of its fee index; hash maps are finite maps, hash multimaps lists. *)

From Stdlib Require Import ZArith String List Lia Bool Sorted.
From stdpp Require Import countable gmap sets fin_maps.
From coqutil Require Import Byte Word.LittleEndianList.
From S2P Require Import Prelude Config Varint Wire Transaction IntUtil Currency Extra PqHash PqDerive PqValidation BlockFormat Db ChainStore Checkpoints ChainRules.
Import ListNotations.
Open Scope string_scope.
Open Scope list_scope.
Open Scope Z_scope.
Open Scope discrete_scope.
Import Serialization TransactionExtra PqValidation FormatUtils LMDBBlockchainDB ChainStore ChainRules int_util.

(** ** The interface to the chain *)

Record BlockInfo := mkBlockInfo { bi_height : Z; bi_id : bytes }.
Definition cleared : BlockInfo := mkBlockInfo 0 NULL_HASH.
Definition bi_empty (b : BlockInfo) : bool := bi_id b ==b NULL_HASH.

(** What the pool asks [ITransactionValidator] and [ICore], at one state of the
    chain. *)
Record Validator := mkValidator {
  v_checkTransactionInputs : Transaction -> option BlockInfo;
  v_checkTransactionInputsCached : Transaction -> BlockInfo -> BlockInfo -> bool * BlockInfo * BlockInfo;
  v_haveSpentKeyImages : Transaction -> bool;
  v_checkTransactionSize : Z -> bool;
  v_getPqTransactionFee : Transaction -> option Z;
  v_getPqAccountNumber : bytes -> option (Z * Z);
  v_getCurrentBlockchainHeight : Z;
  v_check_tx_fee : Transaction -> bool
}.

(** ** The indices *)

Module BlockchainIndices.

(** The payment id an explorer shows: fields parsed before an error count. *)
Definition getPaymentId (tx : Transaction) : option bytes :=
  let (_, fields) := parseTransactionExtra (extra (prefix tx)) in
  match findTransactionExtraFieldByType as_nonce fields with
  | Some n => getPaymentIdFromTransactionExtraNonce n
  | None => None
  end.

(** Erase the first entry equal to [x]. *)
Fixpoint erase_one {A} `{EqDecision A} (x : A) (l : list A) : list A :=
  match l with
  | [] => []
  | y :: l => if decide (y = x) then l else y :: erase_one x l
  end.

Section PaymentIds.
Variable cn_fast_hash : bytes -> bytes.

Definition PaymentIdIndex_add (tx : Transaction) (index : list (bytes * bytes)) : list (bytes * bytes) :=
  match getPaymentId tx with
  | None => index
  | Some paymentId => (paymentId, snd (getObjectHash cn_fast_hash tx_codec tx)) :: index
  end.
Definition PaymentIdIndex_remove (tx : Transaction) (index : list (bytes * bytes)) : list (bytes * bytes) :=
  match getPaymentId tx with
  | None => index
  | Some paymentId => erase_one (paymentId, snd (getObjectHash cn_fast_hash tx_codec tx)) index
  end.
Definition PaymentIdIndex_find (paymentId : bytes) (index : list (bytes * bytes)) : list bytes :=
  omap (fun e => if decide (fst e = paymentId) then Some (snd e) else None) index.
End PaymentIds.

(** The multimap ordered by time: a new entry goes after those of its time. *)
Fixpoint TimestampIndex_add (timestamp : Z) (hash : bytes) (index : list (Z * bytes)) : list (Z * bytes) :=
  match index with
  | [] => [(timestamp, hash)]
  | (t, h) :: index =>
      if timestamp <? t then (timestamp, hash) :: (t, h) :: index else (t, h) :: TimestampIndex_add timestamp hash index
  end.
Definition TimestampIndex_remove (timestamp : Z) (hash : bytes) (index : list (Z * bytes)) : list (Z * bytes) :=
  erase_one (timestamp, hash) index.
(** (hashes, their number within the bounds), [None] for an empty answer. *)
Definition TimestampIndex_find (timestampBegin timestampEnd hashesNumberLimit : Z) (index : list (Z * bytes))
  : option (list bytes * Z) :=
  if timestampEnd <? timestampBegin then None
  else
    let within := List.filter (fun e => (timestampBegin <=? fst e) && (fst e <=? timestampEnd)) index in
    let hashes := take (Z.to_nat hashesNumberLimit) (map snd within) in
    match hashes with [] => None | _ => Some (hashes, w32 (Z.of_nat (length within))) end.

End BlockchainIndices.

(** ** The pool *)

Module TransactionPool.
Import BlockchainIndices.

Record TransactionDetails := mkTransactionDetails {
  id : bytes;
  tx : Transaction;
  blobSize : Z;
  fee : Z;
  keptByBlock : bool;
  receiveTime : Z;
  maxUsedBlock : BlockInfo;
  lastFailedBlock : BlockInfo
}.

Record Pool := mkPool {
  m_transactions : list TransactionDetails;
  m_spent_key_images : gmap bytes (gset bytes);
  m_pq_account_registrations : gmap bytes (gset bytes);
  m_freeRegPoolCount : Z;
  m_recentlyDeletedTransactions : gmap bytes Z;
  m_paymentIdIndex : list (bytes * bytes);
  m_timestampIndex : list (Z * bytes);
  m_validated_transactions : gset bytes
}.

(** [tx_verification_context] *)
Record tvc := mkTvc {
  m_should_be_relayed : bool;
  m_verification_failed : bool;
  m_verifivation_impossible : bool;
  m_added_to_pool : bool
}.
Definition tvc_init : tvc := mkTvc false false false false.
Definition tvc_failed : tvc := mkTvc false true false false.

(** [TransactionPriorityComparator] *)
Definition more_profitable (lhs rhs : TransactionDetails) : bool :=
  let (lhs_lo, lhs_hi) := mul128 (fee lhs) (blobSize rhs) in
  let (rhs_lo, rhs_hi) := mul128 (fee rhs) (blobSize lhs) in
  (rhs_hi <? lhs_hi) ||
  ((lhs_hi =? rhs_hi) && (rhs_lo <? lhs_lo)) ||
  ((lhs_hi =? rhs_hi) && (lhs_lo =? rhs_lo) && (blobSize lhs <? blobSize rhs)) ||
  ((lhs_hi =? rhs_hi) && (lhs_lo =? rhs_lo) && (blobSize lhs =? blobSize rhs) && (receiveTime lhs <? receiveTime rhs)).

(** Insertion in the fee index, after the elements of the same priority. *)
Fixpoint insert_by_fee (d : TransactionDetails) (l : list TransactionDetails) : list TransactionDetails :=
  match l with
  | [] => [d]
  | x :: l => if more_profitable d x then d :: x :: l else x :: insert_by_fee d l
  end.

Definition find_tx (i : bytes) (l : list TransactionDetails) : option TransactionDetails :=
  List.find (fun d => id d ==b i) l.
Definition erase_tx (i : bytes) (l : list TransactionDetails) : list TransactionDetails :=
  List.filter (fun d => negb (id d ==b i)) l.

Definition set_transactions (p : Pool) l : Pool :=
  mkPool l (m_spent_key_images p) (m_pq_account_registrations p) (m_freeRegPoolCount p)
    (m_recentlyDeletedTransactions p) (m_paymentIdIndex p) (m_timestampIndex p) (m_validated_transactions p).
Definition set_spent (p : Pool) s : Pool :=
  mkPool (m_transactions p) s (m_pq_account_registrations p) (m_freeRegPoolCount p)
    (m_recentlyDeletedTransactions p) (m_paymentIdIndex p) (m_timestampIndex p) (m_validated_transactions p).
Definition set_regs (p : Pool) r : Pool :=
  mkPool (m_transactions p) (m_spent_key_images p) r (m_freeRegPoolCount p)
    (m_recentlyDeletedTransactions p) (m_paymentIdIndex p) (m_timestampIndex p) (m_validated_transactions p).
Definition set_count (p : Pool) n : Pool :=
  mkPool (m_transactions p) (m_spent_key_images p) (m_pq_account_registrations p) n
    (m_recentlyDeletedTransactions p) (m_paymentIdIndex p) (m_timestampIndex p) (m_validated_transactions p).
Definition set_deleted (p : Pool) d : Pool :=
  mkPool (m_transactions p) (m_spent_key_images p) (m_pq_account_registrations p) (m_freeRegPoolCount p)
    d (m_paymentIdIndex p) (m_timestampIndex p) (m_validated_transactions p).
Definition set_indices (p : Pool) pay ts : Pool :=
  mkPool (m_transactions p) (m_spent_key_images p) (m_pq_account_registrations p) (m_freeRegPoolCount p)
    (m_recentlyDeletedTransactions p) pay ts (m_validated_transactions p).
Definition set_validated (p : Pool) v : Pool :=
  mkPool (m_transactions p) (m_spent_key_images p) (m_pq_account_registrations p) (m_freeRegPoolCount p)
    (m_recentlyDeletedTransactions p) (m_paymentIdIndex p) (m_timestampIndex p) v.

Section Ops.
Variable sha3_256 : bytes -> bytes.
Variable cn_fast_hash : bytes -> bytes.
Variable c : Currency.

Abbreviation image := (spendImageForInput sha3_256).
Abbreviation getPqAccountRegistrationId := (registration sha3_256).
Definition is_free_reg (t : Transaction) : bool :=
  (TRANSACTION_VERSION_1 <=? version (prefix t)) && (txType (prefix t) =? TX_FREE_REG).

(** *** The double-spend index *)

(** The loop of [addTransactionInputs]: [operator[]] creates an empty set. *)
Fixpoint add_images (kept : bool) (i : bytes) (ins : list TransactionInput) (s : gmap bytes (gset bytes))
  : bool * gmap bytes (gset bytes) :=
  match ins with
  | [] => (true, s)
  | x :: ins =>
      match image x with
      | None => add_images kept i ins s
      | Some img =>
          let kei_image_set := default ∅ (s !! img) in
          let s := <[img := kei_image_set]> s in
          if negb (kept || bool_decide (size kei_image_set = 0%nat)) then (false, s)
          else if bool_decide (i ∈ kei_image_set) then (false, s)
          else add_images kept i ins (<[img := {[i]} ∪ kei_image_set]> s)
      end
  end.

Definition addTransactionInputs (kept : bool) (i : bytes) (t : Transaction) (p : Pool) : bool * Pool :=
  let (ok, s) := add_images kept i (inputs (prefix t)) (m_spent_key_images p) in
  let p := set_spent p s in
  if negb ok then (false, p)
  else
    let '(ok, p) :=
      match getPqAccountRegistrationId t with
      | None => (true, p)
      | Some accountId =>
          let txSet := default ∅ (m_pq_account_registrations p !! accountId) in
          let p := set_regs p (<[accountId := txSet]> (m_pq_account_registrations p)) in
          if negb (kept || bool_decide (txSet = ∅)) then (false, p)
          else if bool_decide (i ∈ txSet) then (false, p)
          else (true, set_regs p (<[accountId := {[i]} ∪ txSet]> (m_pq_account_registrations p)))
      end in
    if negb ok then (false, p)
    else (true, if is_free_reg t then set_count p (m_freeRegPoolCount p + 1) else p).

Fixpoint remove_images (i : bytes) (ins : list TransactionInput) (s : gmap bytes (gset bytes))
  : bool * gmap bytes (gset bytes) :=
  match ins with
  | [] => (true, s)
  | x :: ins =>
      match image x with
      | None => remove_images i ins s
      | Some img =>
          match s !! img with
          | None => (false, s)
          | Some key_image_set =>
              if bool_decide (key_image_set = ∅) then (false, s)
              else if negb (bool_decide (i ∈ key_image_set)) then (false, s)
              else
                let key_image_set := key_image_set ∖ {[i]} in
                remove_images i ins (if bool_decide (key_image_set = ∅) then delete img s else <[img := key_image_set]> s)
          end
      end
  end.

Definition removeTransactionInputs (i : bytes) (t : Transaction) (p : Pool) : bool * Pool :=
  let (ok, s) := remove_images i (inputs (prefix t)) (m_spent_key_images p) in
  let p := set_spent p s in
  if negb ok then (false, p)
  else
    let '(ok, p) :=
      match getPqAccountRegistrationId t with
      | None => (true, p)
      | Some accountId =>
          match m_pq_account_registrations p !! accountId with
          | None => (false, p)
          | Some txSet =>
              if negb (bool_decide (i ∈ txSet)) then (false, p)
              else
                let txSet := txSet ∖ {[i]} in
                (true, set_regs p (if bool_decide (txSet = ∅) then delete accountId (m_pq_account_registrations p)
                                   else <[accountId := txSet]> (m_pq_account_registrations p)))
          end
      end in
    if negb ok then (false, p)
    else (true, if is_free_reg t && (0 <? m_freeRegPoolCount p) then set_count p (m_freeRegPoolCount p - 1) else p).

Definition haveSpentInputs (p : Pool) (t : Transaction) : bool :=
  existsb (fun x => match image x with Some img => bool_decide (is_Some (m_spent_key_images p !! img)) | None => false end)
    (inputs (prefix t)).
Definition havePqAccountRegistration (p : Pool) (t : Transaction) : bool :=
  match getPqAccountRegistrationId t with
  | Some accountId => bool_decide (is_Some (m_pq_account_registrations p !! accountId))
  | None => false
  end.

(** *** Adding and taking *)

Definition get_inputs_money_amount (t : Transaction) : Z := 0.

Definition add_tx (v : Validator) (now : Z) (t : Transaction) (i : bytes) (blobSize : Z) (kept : bool) (p : Pool)
  : bool * tvc * Pool :=
  if negb (check_inputs_types_supported (prefix t)) then (false, tvc_failed, p)
  else
    let pqOnlyInputs := (TRANSACTION_VERSION_1 <=? version (prefix t)) && isPqTransfer (txType (prefix t)) in
    let freeRegTransaction := is_free_reg t in
    let inputs_amount := get_inputs_money_amount t in
    let outputs_amount := getOutputAmount t in
    if negb pqOnlyInputs && (inputs_amount <? outputs_amount) then (false, tvc_failed, p)
    else
      let fee := if pqOnlyInputs then 0 else inputs_amount - outputs_amount in
      if negb kept && (haveSpentInputs p t || havePqAccountRegistration p t ||
                       (freeRegTransaction && (freeRegPoolLimit c <=? m_freeRegPoolCount p)))
      then (false, tvc_failed, p)
      else
        let checked := v_checkTransactionInputs v t in
        let inputsValid := is_some checked in
        if negb inputsValid && negb kept then (false, tvc_failed, p)
        else
          let maxUsedBlock := default cleared checked in
          match (if inputsValid && pqOnlyInputs then v_getPqTransactionFee v t else Some fee) with
          | None => (false, mkTvc false true (negb inputsValid) false, p)
          | Some fee =>
              if negb kept && negb (v_checkTransactionSize v blobSize) then (false, tvc_failed, p)
              else if negb kept && bool_decide (is_Some (m_recentlyDeletedTransactions p !! i)) then (true, tvc_init, p)
              else
                let txd := mkTransactionDetails i t blobSize fee kept now maxUsedBlock cleared in
                match find_tx i (m_transactions p) with
                | Some _ => (false, mkTvc false false (negb inputsValid) false, p)
                | None =>
                    let p := set_transactions p (insert_by_fee txd (m_transactions p)) in
                    let p := set_indices p (PaymentIdIndex_add cn_fast_hash t (m_paymentIdIndex p))
                                           (TimestampIndex_add now i (m_timestampIndex p)) in
                    let relay := inputsValid && ((0 <? fee) || (freeRegTransaction && (fee =? 0))) in
                    let '(ok, p) := addTransactionInputs kept i t p in
                    (ok, mkTvc relay (negb ok) (negb inputsValid) true, p)
                end
          end.

(** [add_tx] with the hash and size computed. *)
Definition add_tx_object (v : Validator) (now : Z) (t : Transaction) (kept : bool) (p : Pool) : bool * tvc * Pool :=
  add_tx v now t (snd (getObjectHash cn_fast_hash tx_codec t)) (len (tx_blob t)) kept p.

Definition removeTransaction (d : TransactionDetails) (p : Pool) : Pool :=
  let '(_, p) := removeTransactionInputs (id d) (tx d) p in
  let p := set_indices p (PaymentIdIndex_remove cn_fast_hash (tx d) (m_paymentIdIndex p))
                         (TimestampIndex_remove (receiveTime d) (id d) (m_timestampIndex p)) in
  let p := set_validated p (m_validated_transactions p ∖ {[id d]}) in
  set_transactions p (erase_tx (id d) (m_transactions p)).

(** (transaction, size, fee) *)
Definition take_tx (i : bytes) (p : Pool) : option (Transaction * Z * Z) * Pool :=
  match find_tx i (m_transactions p) with
  | None => (None, p)
  | Some d => (Some (tx d, blobSize d, fee d), removeTransaction d p)
  end.

Definition getTransaction (p : Pool) (i : bytes) : option Transaction := option_map tx (find_tx i (m_transactions p)).
Definition have_tx (p : Pool) (i : bytes) : bool := is_some (find_tx i (m_transactions p)).

(** *** Expiry *)

Fixpoint remove_loop (bad : TransactionDetails -> bool) (l : list TransactionDetails) (p : Pool) : Pool :=
  match l with
  | [] => p
  | d :: l => remove_loop bad l (if bad d then removeTransaction d p else p)
  end.

Definition expired (now : Z) (d : TransactionDetails) : bool :=
  (if keptByBlock d then mempoolTxFromAltBlockLiveTime c else mempoolTxLiveTime c) <? w64 (now - receiveTime d).

Definition removeExpiredTransactions (now : Z) (p : Pool) : Pool :=
  let p := set_deleted p (filter (fun e => w64 (now - snd e) <= w64 (numberOfPeriodsToForgetTxDeletedFromPool c * mempoolTxLiveTime c))
                            (m_recentlyDeletedTransactions p)) in
  let p' := remove_loop (expired now) (m_transactions p) p in
  set_deleted p' (fold_left (fun m d => if expired now d then match m !! id d with None => <[id d := now]> m | Some _ => m end else m)
                    (m_transactions p) (m_recentlyDeletedTransactions p)).

Definition isAccountAlreadyRegisteredOnChain (v : Validator) (t : Transaction) : bool :=
  match getPqAccountRegistrationId t with
  | None => false
  | Some accountId => is_some (v_getPqAccountNumber v accountId)
  end.

Definition removeStaleAccountRegistrations (v : Validator) (p : Pool) : Pool :=
  remove_loop (fun d => isAccountAlreadyRegisteredOnChain v (tx d)) (m_transactions p) p.

(** *** Readiness *)

Definition is_transaction_ready_to_go (v : Validator) (t : Transaction) (used failed : BlockInfo)
  : bool * BlockInfo * BlockInfo :=
  let '(ok, used, failed) := v_checkTransactionInputsCached v t used failed in
  (ok && negb (v_haveSpentKeyImages v t), used, failed).

(** The delivery era of a transfer has passed or not begun. *)
Definition wrong_era (v : Validator) (t : Transaction) : bool :=
  (version (prefix t) =? TRANSACTION_VERSION_1) && isPqTransfer (txType (prefix t)) &&
  negb (isPqTransferTypeAllowedAt c (txType (prefix t)) (v_getCurrentBlockchainHeight v)).

Definition on_blockchain_change (p : Pool) : Pool := set_validated p ∅.

Fixpoint ready_loop (v : Validator) (l : list TransactionDetails) (ready validated : gset bytes) : gset bytes * gset bytes :=
  match l with
  | [] => (ready, validated)
  | d :: l =>
      if wrong_era v (tx d) then ready_loop v l ready validated
      else if bool_decide (id d ∈ validated) then ready_loop v l ({[id d]} ∪ ready) validated
      else if fst (fst (is_transaction_ready_to_go v (tx d) (maxUsedBlock d) (lastFailedBlock d)))
      then ready_loop v l ({[id d]} ∪ ready) ({[id d]} ∪ validated)
      else ready_loop v l ready validated
  end.

(** (new, deleted) as sets: the vectors are in hash order. *)
Definition get_difference (v : Validator) (known_tx_ids : list bytes) (p : Pool) : gset bytes * gset bytes * Pool :=
  let (ready, validated) := ready_loop v (m_transactions p) ∅ (m_validated_transactions p) in
  let known : gset bytes := list_to_set known_tx_ids in
  (ready ∖ known, known ∖ ready, set_validated p validated).

(** *** Block templates *)

Record BlockTemplate := mkBlockTemplate {
  t_keyImages : gset bytes;
  t_registrations : gset bytes;
  t_freeRegCount : Z;
  t_txHashes : list bytes
}.
Definition empty_template : BlockTemplate := mkBlockTemplate ∅ ∅ 0 [].

Definition canAdd (bt : BlockTemplate) (t : Transaction) : bool :=
  negb (existsb (fun x => match image x with Some img => bool_decide (img ∈ t_keyImages bt) | None => false end)
          (inputs (prefix t))) &&
  negb (match getPqAccountRegistrationId t with Some a => bool_decide (a ∈ t_registrations bt) | None => false end) &&
  negb (is_free_reg t && (parameters.FREE_REG_PER_BLOCK <=? t_freeRegCount bt)).

Definition addTransaction (bt : BlockTemplate) (i : bytes) (t : Transaction) : option BlockTemplate :=
  if negb (canAdd bt t) then None
  else Some (mkBlockTemplate (list_to_set (images sha3_256 t) ∪ t_keyImages bt)
               (list_to_set (option_list (getPqAccountRegistrationId t)) ∪ t_registrations bt)
               (if is_free_reg t then t_freeRegCount bt + 1 else t_freeRegCount bt)
               (t_txHashes bt ++ [i])).

Record Filling := mkFilling { f_template : BlockTemplate; f_total_size : Z; f_fee : Z; f_validated : gset bytes }.

Definition set_check (d : TransactionDetails) (used failed : BlockInfo) : TransactionDetails :=
  mkTransactionDetails (id d) (tx d) (blobSize d) (fee d) (keptByBlock d) (receiveTime d) used failed.

(** One round: the entry with its check information, and the state. *)
Definition fill_one (v : Validator) (median_size max_total_size : Z) (d : TransactionDetails) (f : Filling)
  : TransactionDetails * Filling :=
  if wrong_era v (tx d) then (d, f)
  else
    let blockSizeLimit := if fee d =? 0 then median_size else max_total_size in
    if blockSizeLimit <? w64 (f_total_size f + blobSize d) then (d, f)
    else if negb (v_check_tx_fee v (tx d)) then (d, f)
    else if isAccountAlreadyRegisteredOnChain v (tx d) then (d, f)
    else
      let '(ready, used, failed, validated) :=
        if bool_decide (id d ∈ f_validated f) then (true, maxUsedBlock d, lastFailedBlock d, f_validated f)
        else
          let '(ok, used, failed) := is_transaction_ready_to_go v (tx d) (maxUsedBlock d) (lastFailedBlock d) in
          (ok, used, failed, if ok then {[id d]} ∪ f_validated f else f_validated f) in
      let d' := set_check d used failed in
      match (if ready then addTransaction (f_template f) (id d) (tx d) else None) with
      | Some bt => (d', mkFilling bt (w64 (f_total_size f + blobSize d)) (w64 (f_fee f + fee d)) validated)
      | None => (d', mkFilling (f_template f) (f_total_size f) (f_fee f) validated)
      end.

Fixpoint fill_loop (v : Validator) (median_size max_total_size : Z) (l : list TransactionDetails) (f : Filling)
  : list TransactionDetails * Filling :=
  match l with
  | [] => ([], f)
  | d :: l =>
      let (d, f) := fill_one v median_size max_total_size d f in
      let (l, f) := fill_loop v median_size max_total_size l f in
      (d :: l, f)
  end.

(** ((hashes, total_size, fee), pool) *)
Definition fill_block_template (v : Validator) (median_size maxCumulativeSize : Z) (p : Pool)
  : list bytes * Z * Z * Pool :=
  let max_total_size := w64 (125 * median_size) / 100 in
  let max_total_size := w64 (Z.min max_total_size maxCumulativeSize - minerTxBlobReservedSize c) in
  let (l, f) := fill_loop v median_size max_total_size (m_transactions p)
                  (mkFilling empty_template 0 0 (m_validated_transactions p)) in
  (t_txHashes (f_template f), f_total_size f, f_fee f, set_validated (set_transactions p l) (f_validated f)).

(** *** Rebuilding after loading from a file *)

Fixpoint build_loop (l : list TransactionDetails) (p : Pool) : Pool :=
  match l with
  | [] => p
  | d :: l =>
      let p := set_indices p (PaymentIdIndex_add cn_fast_hash (tx d) (m_paymentIdIndex p))
                             (TimestampIndex_add (receiveTime d) (id d) (m_timestampIndex p)) in
      let p := match getPqAccountRegistrationId (tx d) with
               | Some a => set_regs p (<[a := {[id d]} ∪ default ∅ (m_pq_account_registrations p !! a)]> (m_pq_account_registrations p))
               | None => p
               end in
      build_loop l (if is_free_reg (tx d) then set_count p (m_freeRegPoolCount p + 1) else p)
  end.
Definition buildIndices (p : Pool) : Pool := build_loop (m_transactions p) (set_count (set_regs p ∅) 0).

Definition empty_pool : Pool := mkPool [] ∅ ∅ 0 ∅ [] [] ∅.

End Ops.
End TransactionPool.

(** ** The chain's validator *)

Module ChainValidator.
Section Validate.
Variable sha3_256 : bytes -> bytes.
Variable cn_fast_hash : bytes -> bytes.
Variable dsa_verify : bytes -> bytes -> bytes -> bool.
Variable y_slow_hash : bytes -> bytes -> option bytes.
Variable c : Currency.
Variable genesisBlockHash : bytes.
Variable m_checkpoints : Checkpoints.points.

(** The state the calls read: the database, the memo of registration proofs
    (consulted; what a call adds to it changes no verdict) and the size limit. *)
Variable db : Db.
Variable proofs : ProofCaches.
Variable m_current_block_cumul_sz_limit : Z.

Definition getBlockIdByHeight (height : Z) : bytes :=
  match getBlockMeta db height with Some meta => m_hash meta | None => NULL_HASH end.
Definition tail : BlockInfo :=
  let h := getChainHeight db in
  mkBlockInfo (w32 (h - 1)) (if h =? 0 then NULL_HASH else m_hash (getBlockMeta_or_zero db (h - 1))).

(** [checkTransactionInputs(tx, max_used_block_height, max_used_block_id, tail)] *)
Definition check_at_tip (tx : Transaction) (used : BlockInfo) : bool * BlockInfo :=
  match fst (checkTransactionInputs sha3_256 cn_fast_hash dsa_verify y_slow_hash c genesisBlockHash db proofs tx AT_TIP) with
  | None => (false, used)
  | Some h =>
      if negb (h <? getChainHeight db) then (false, mkBlockInfo h (bi_id used))
      else (true, mkBlockInfo h (m_hash (getBlockMeta_or_zero db h)))
  end.

Definition checkTransactionInputs_block (tx : Transaction) : option BlockInfo :=
  let (ok, used) := check_at_tip tx cleared in if ok then Some used else None.

Definition checkTransactionInputs_cached (tx : Transaction) (used failed : BlockInfo) : bool * BlockInfo * BlockInfo :=
  let run :=
    let (ok, used) := check_at_tip tx used in
    (ok, used, if ok then failed else tail) in
  if bi_empty used then
    if negb (bi_empty failed) && (bi_height failed <? getChainHeight db) && (getBlockIdByHeight (bi_height failed) ==b bi_id failed)
    then (false, used, failed)
    else run
  else if getChainHeight db <=? bi_height used then (false, used, failed)
  else if negb (getBlockIdByHeight (bi_height used) ==b bi_id used) && (bi_id failed ==b getBlockIdByHeight (bi_height failed))
  then (false, used, failed)
  else run.

Definition haveTransactionKeyImagesAsSpent (tx : Transaction) : bool :=
  existsb (fun x => match spendImageForInput sha3_256 x with Some img => hasSpentKey db img | None => false end) (inputs (prefix tx)).

Definition checkTransactionSize (blobSize : Z) : bool :=
  negb (w64 (m_current_block_cumul_sz_limit - minerTxBlobReservedSize c) <? blobSize).

(** [Core::check_tx_fee] at the current height *)
Definition check_tx_fee (tx : Transaction) : bool :=
  let height := getChainHeight db in
  let isPqTx := TRANSACTION_VERSION_1 <=? version (prefix tx) in
  if isPqTx && isPqTransfer (txType (prefix tx)) then true
  else
    let inputs_amount := TransactionPool.get_inputs_money_amount tx in
    let outputs_amount := getOutputAmount tx in
    if inputs_amount <? outputs_amount then false
    else
      let fee := inputs_amount - outputs_amount in
      if isPqTx && (txType (prefix tx) =? TX_FREE_REG) && (fee =? 0) then true
      else if negb (Checkpoints.is_in_checkpoint_zone m_checkpoints height) then
        let min := parameters.MINIMUM_FEE in
        let min := w64 (min + parameters.pqTxExtraSurcharge min (len (extra (prefix tx)))) in
        negb (fee <? min)
      else true.

Definition chain_validator : Validator :=
  mkValidator checkTransactionInputs_block checkTransactionInputs_cached haveTransactionKeyImagesAsSpent
    checkTransactionSize (getPqTransactionFee db) (getPqAcctReg db) (getChainHeight db) check_tx_fee.

End Validate.
End ChainValidator.
Import BlockchainIndices TransactionPool ChainValidator.

(** ** Multi-valued indices *)

Section Index.

Definition mem (m : gmap bytes (gset bytes)) (k i : bytes) : Prop := exists s, m !! k = Some s /\ i ∈ s.
Definition nonempty (m : gmap bytes (gset bytes)) : Prop := forall k s, m !! k = Some s -> s ≠ ∅.
Definition m_add (i : bytes) (m : gmap bytes (gset bytes)) (k : bytes) : gmap bytes (gset bytes) :=
  <[k := {[i]} ∪ default ∅ (m !! k)]> m.
Definition m_del (i : bytes) (m : gmap bytes (gset bytes)) (k : bytes) : gmap bytes (gset bytes) :=
  let s := default ∅ (m !! k) ∖ {[i]} in if bool_decide (s = ∅) then delete k m else <[k := s]> m.

Lemma mem_default m k i : mem m k i <-> i ∈ default ∅ (m !! k).
Proof.
  unfold mem. destruct (m !! k) as [s|]; cbn; [|set_solver]. unfold id. split; [|eauto].
  intros (s' & E & H). now injection E as ->.
Qed.

Lemma mem_add i m k k' i' : mem (m_add i m k) k' i' <-> mem m k' i' \/ (k' = k /\ i' = i).
Proof.
  rewrite !mem_default. unfold m_add. destruct (decide (k' = k)) as [->|N].
  - rewrite lookup_insert_eq. cbn. unfold id. set_solver.
  - rewrite lookup_insert_ne by congruence. tauto.
Qed.

Lemma mem_del i m k k' i' : mem (m_del i m k) k' i' <-> mem m k' i' /\ ~ (k' = k /\ i' = i).
Proof.
  rewrite !mem_default. unfold m_del. destruct (decide (k' = k)) as [->|N].
  - case_bool_decide as E.
    + rewrite lookup_delete_eq. cbn. split; [set_solver|]. intros [H1 H2].
      assert (i' ∈ default ∅ (m !! k) ∖ {[i]}) by set_solver. rewrite E in *. set_solver.
    + rewrite lookup_insert_eq. cbn. unfold id. set_solver.
  - case_bool_decide; [rewrite lookup_delete_ne by congruence|rewrite lookup_insert_ne by congruence]; tauto.
Qed.

Lemma nonempty_add i m k : nonempty m -> nonempty (m_add i m k).
Proof. intros N k' s H. unfold m_add in H. apply lookup_insert_Some in H as [[_ <-]|[_ H]]; [set_solver|eauto]. Qed.

Lemma nonempty_del i m k : nonempty m -> nonempty (m_del i m k).
Proof.
  intros N k' s H. unfold m_del in H. case_bool_decide as E.
  - apply lookup_delete_Some in H as [_ H]. eauto.
  - apply lookup_insert_Some in H as [[_ <-]|[_ H]]; [exact E|eauto].
Qed.

Lemma mem_adds i ks : forall m k' i', mem (fold_left (m_add i) ks m) k' i' <-> mem m k' i' \/ (k' ∈ ks /\ i' = i).
Proof.
  induction ks as [|k ks IH]; intros m k' i'; cbn [fold_left]; [set_solver|]. rewrite IH, mem_add. set_solver.
Qed.
Lemma mem_dels i ks : forall m k' i', mem (fold_left (m_del i) ks m) k' i' <-> mem m k' i' /\ ~ (k' ∈ ks /\ i' = i).
Proof.
  induction ks as [|k ks IH]; intros m k' i'; cbn [fold_left]; [set_solver|]. rewrite IH, mem_del. set_solver.
Qed.
Lemma nonempty_adds i ks : forall m, nonempty m -> nonempty (fold_left (m_add i) ks m).
Proof. induction ks as [|k ks IH]; intros m N; cbn; [exact N|]. now apply IH, nonempty_add. Qed.
Lemma nonempty_dels i ks : forall m, nonempty m -> nonempty (fold_left (m_del i) ks m).
Proof. induction ks as [|k ks IH]; intros m N; cbn; [exact N|]. now apply IH, nonempty_del. Qed.

(** A nonempty index has an entry exactly where it has a member. *)
Lemma nonempty_lookup m k : nonempty m -> is_Some (m !! k) <-> exists i, mem m k i.
Proof.
  intros N. split.
  - intros [s H]. destruct (set_choose_L s (N k s H)) as [i Hi]. exists i, s. auto.
  - intros (i & s & H & _). eauto.
Qed.

(** The keys before the first repetition, and whether there is none. *)
Fixpoint distinct_prefix (seen : gset bytes) (l : list bytes) : list bytes * bool :=
  match l with
  | [] => ([], true)
  | x :: l =>
      if bool_decide (x ∈ seen) then ([], false)
      else let (r, ok) := distinct_prefix ({[x]} ∪ seen) l in (x :: r, ok)
  end.

Lemma distinct_prefix_fresh l : forall seen k, k ∈ fst (distinct_prefix seen l) -> k ∈ l /\ k ∉ seen.
Proof.
  induction l as [|x l IH]; intros seen k; cbn [distinct_prefix]; [cbn; set_solver|].
  case_bool_decide as E; [cbn; set_solver|]. destruct (distinct_prefix ({[x]} ∪ seen) l) as [r ok] eqn:D.
  cbn [fst]. intros Hk. apply elem_of_cons in Hk as [->|Hk]; [set_solver|].
  specialize (IH ({[x]} ∪ seen) k). rewrite D in IH. apply IH in Hk. set_solver.
Qed.

Lemma distinct_prefix_nodup l : forall seen, NoDup (fst (distinct_prefix seen l)).
Proof.
  induction l as [|x l IH]; intros seen; cbn [distinct_prefix]; [constructor|].
  case_bool_decide; [constructor|]. pose proof (distinct_prefix_fresh l ({[x]} ∪ seen) x) as F. specialize (IH ({[x]} ∪ seen)).
  destruct (distinct_prefix ({[x]} ∪ seen) l) as [r ok]. cbn [fst] in *. constructor; [set_solver|exact IH].
Qed.

Lemma distinct_prefix_all l : forall seen, NoDup l -> (forall x, x ∈ l -> x ∉ seen) -> distinct_prefix seen l = (l, true).
Proof.
  induction l as [|x l IH]; intros seen N H; cbn [distinct_prefix]; [reflexivity|]. inversion N; subst.
  rewrite bool_decide_eq_false_2 by (apply H; left). rewrite IH; [reflexivity|assumption|]. set_solver.
Qed.

Lemma distinct_prefix_complete l : forall seen, snd (distinct_prefix seen l) = true -> fst (distinct_prefix seen l) = l.
Proof.
  induction l as [|x l IH]; intros seen; cbn [distinct_prefix]; [reflexivity|]. case_bool_decide; [discriminate|].
  specialize (IH ({[x]} ∪ seen)). destruct (distinct_prefix ({[x]} ∪ seen) l) as [r ok]. cbn in *. intros H'. now rewrite (IH H').
Qed.

Variable sha3_256 : bytes -> bytes.
Abbreviation image := (spendImageForInput sha3_256).

Lemma add_images_spec kept i ins : forall seen m, nonempty m -> (forall k, mem m k i <-> k ∈ seen) ->
  kept = true \/ (forall k, k ∈ omap image ins -> k ∉ seen -> m !! k = None) ->
  let dp := distinct_prefix seen (omap image ins) in
  add_images sha3_256 kept i ins m = (snd dp, fold_left (m_add i) (fst dp) m).
Proof.
  induction ins as [|x ins IH]; intros seen m N M K; cbn [add_images omap list_omap]; [reflexivity|].
  cbn [omap list_omap] in K. destruct (image x) as [img|]; [|now apply IH].
  cbn [distinct_prefix]. destruct (decide (img ∈ seen)) as [S|S];
    [rewrite (bool_decide_eq_true_2 _ S)|rewrite (bool_decide_eq_false_2 _ S)].
  - apply M in S. pose proof S as (s & Hs & Hi). rewrite Hs. cbn [default]. unfold id. rewrite insert_id by exact Hs.
    cbn [fst snd fold_left]. destruct (negb _); [reflexivity|]. now rewrite bool_decide_eq_true_2.
  - assert (Hn : i ∉ default ∅ (m !! img)) by (rewrite <- mem_default, M; exact S).
    replace (negb (kept || bool_decide (size (default ∅ (m !! img)) = 0%nat))) with false.
    2: { destruct K as [->|K]; [reflexivity|]. rewrite K by (try left; assumption). destruct kept; reflexivity. }
    rewrite bool_decide_eq_false_2 by exact Hn. rewrite insert_insert_eq.
    change (<[img:={[i]} ∪ default ∅ (m !! img)]> m) with (m_add i m img).
    rewrite (IH ({[img]} ∪ seen)).
    + destruct (distinct_prefix ({[img]} ∪ seen) (omap image ins)). reflexivity.
    + now apply nonempty_add.
    + intros k. rewrite mem_add, M. set_solver.
    + destruct K as [K|K]; [auto|right]. intros k Hk Hs. unfold m_add. rewrite lookup_insert_ne by set_solver.
      apply K; set_solver.
Qed.

Lemma remove_images_spec i ins : forall seen m, nonempty m ->
  (forall k, mem m k i <-> k ∈ fst (distinct_prefix seen (omap image ins))) ->
  let dp := distinct_prefix seen (omap image ins) in
  remove_images sha3_256 i ins m = (snd dp, fold_left (m_del i) (fst dp) m).
Proof.
  induction ins as [|x ins IH]; intros seen m N M; cbn [remove_images omap list_omap]; [reflexivity|].
  cbn [omap list_omap] in M. destruct (image x) as [img|] eqn:E; [|now apply IH]. cbn [distinct_prefix] in *.
  pose proof (distinct_prefix_fresh (omap image ins) ({[img]} ∪ seen)) as F.
  destruct (decide (img ∈ seen)) as [S|S];
    [rewrite (bool_decide_eq_true_2 _ S) in *|rewrite (bool_decide_eq_false_2 _ S) in *]; cbn [fst snd fold_left] in *.
  - assert (Hn : ~ mem m img i) by (rewrite M; set_solver). rewrite mem_default in Hn.
    destruct (m !! img) as [s|]; [|reflexivity]. cbn in Hn. unfold id in Hn.
    case_bool_decide; [reflexivity|]. now rewrite bool_decide_eq_false_2.
  - specialize (IH ({[img]} ∪ seen) (m_del i m img) (nonempty_del i m img N)).
    destruct (distinct_prefix ({[img]} ∪ seen) (omap image ins)) as [r ok]. cbn [fst snd fold_left] in *.
    assert (Hm : mem m img i) by (apply M; left). pose proof Hm as (s & Hs & Hi). rewrite Hs.
    rewrite bool_decide_eq_false_2 by set_solver. rewrite bool_decide_eq_true_2 by exact Hi. cbn [negb].
    replace (if bool_decide (s ∖ {[i]} = ∅) then delete img m else <[img:=s ∖ {[i]}]> m) with (m_del i m img)
      by (unfold m_del; rewrite Hs; reflexivity).
    apply IH. intros k. rewrite mem_del, M, elem_of_cons. split; [set_solver|]. intros Hk. pose proof (F k Hk). set_solver.
Qed.
End Index.

(** ** The fee order *)

(** Sizes are those of blobs in memory. *)
Definition entry_ok (d : TransactionDetails) : Prop := 0 < blobSize d < 2 ^ 63 /\ in_w 64 (fee d).

Lemma more_profitable_spec a b : entry_ok a -> entry_ok b -> more_profitable a b = true <->
  fee b * blobSize a < fee a * blobSize b \/
  (fee a * blobSize b = fee b * blobSize a /\
   (blobSize a < blobSize b \/ (blobSize a = blobSize b /\ receiveTime a < receiveTime b))).
Proof.
  intros [Sa Fa] [Sb Fb]. unfold more_profitable.
  pose proof (mul128_exact (fee a) (blobSize b) Fa ltac:(unfold in_w; lia)) as Ha.
  pose proof (mul128_exact (fee b) (blobSize a) Fb ltac:(unfold in_w; lia)) as Hb.
  destruct (mul128 (fee a) (blobSize b)) as [la ha], (mul128 (fee b) (blobSize a)) as [lb hb].
  destruct Ha as (Ha & Wla & Wha), Hb as (Hb & Wlb & Whb). unfold in_w in *.
  rewrite !orb_true_iff, !andb_true_iff, !Z.ltb_lt, !Z.eqb_eq. rewrite Ha, Hb. lia.
Qed.

(** The order of the fee index: a strict weak order. *)
Definition not_after (a b : TransactionDetails) : Prop := more_profitable b a = false.

Lemma not_after_spec a b : entry_ok a -> entry_ok b -> not_after a b <->
  fee b * blobSize a < fee a * blobSize b \/
  (fee a * blobSize b = fee b * blobSize a /\
   (blobSize a < blobSize b \/ (blobSize a = blobSize b /\ receiveTime a <= receiveTime b))).
Proof.
  intros A B. unfold not_after. rewrite <- not_true_iff_false, more_profitable_spec by assumption. lia.
Qed.

Lemma cross_le (f1 s1 f2 s2 f3 s3 : Z) : 0 < s1 -> 0 < s2 -> 0 < s3 ->
  f2 * s1 <= f1 * s2 -> f3 * s2 <= f2 * s3 ->
  f3 * s1 <= f1 * s3 /\ (f3 * s1 = f1 * s3 -> f2 * s1 = f1 * s2 /\ f3 * s2 = f2 * s3).
Proof.
  intros P1 P2 P3 H1 H2. assert (A : f2 * s1 * s3 <= f1 * s2 * s3) by (apply Z.mul_le_mono_nonneg_r; lia).
  assert (B : f3 * s2 * s1 <= f2 * s3 * s1) by (apply Z.mul_le_mono_nonneg_r; lia).
  split.
  - apply (Z.mul_le_mono_pos_r _ _ s2 P2). lia.
  - intros E. assert (E' : f3 * s1 * s2 = f1 * s3 * s2) by (now rewrite E). split.
    + apply (Z.mul_cancel_r _ _ s3); lia.
    + apply (Z.mul_cancel_r _ _ s1); lia.
Qed.

Lemma not_after_trans a b d : entry_ok a -> entry_ok b -> entry_ok d -> not_after a b -> not_after b d -> not_after a d.
Proof.
  intros A B D. rewrite !not_after_spec by assumption. destruct A as [A _], B as [B _], D as [D _]. intros H1 H2.
  destruct (cross_le (fee a) (blobSize a) (fee b) (blobSize b) (fee d) (blobSize d)); lia.
Qed.

Lemma not_after_total a b : entry_ok a -> entry_ok b -> more_profitable a b = true -> not_after a b.
Proof. intros A B. rewrite more_profitable_spec, not_after_spec by assumption. lia. Qed.

Lemma insert_by_fee_perm d l : insert_by_fee d l ≡ₚ d :: l.
Proof.
  induction l as [|x l IH]; cbn [insert_by_fee]; [reflexivity|]. destruct (more_profitable d x); [reflexivity|]. etransitivity; [apply perm_skip, IH|apply perm_swap].
Qed.

Lemma insert_by_fee_sorted d l : entry_ok d -> Forall entry_ok l -> StronglySorted not_after l ->
  StronglySorted not_after (insert_by_fee d l).
Proof.
  intros Hd. induction l as [|x l IH]; intros Hl S; cbn [insert_by_fee]; [repeat constructor|].
  inversion_clear Hl as [|? ? Hx Hl']. inversion_clear S as [|? ? S' Fx]. destruct (more_profitable d x) eqn:E.
  - constructor; [now constructor|]. pose proof (not_after_total d x Hd Hx E) as L. constructor; [exact L|].
    rewrite List.Forall_forall in *. intros y Hy. eapply not_after_trans; [..|exact L|]; auto.
  - constructor; [now apply IH|]. apply List.Forall_forall. intros y Hy.
    apply (Permutation_in y (insert_by_fee_perm d l)) in Hy as [<-|Hy]; [exact E|].
    rewrite List.Forall_forall in Fx. auto.
Qed.

(** ** What the pool relies on *)

(** A transaction whose inputs the validator accepts spends no nullifier twice,
    and its fee is an amount. *)
Class ValidatorLaws (sha3_256 : bytes -> bytes) (v : Validator) : Prop := {
  law_checked t b : check_inputs_types_supported (prefix t) = true ->
    v_checkTransactionInputs v t = Some b -> NoDup (images sha3_256 t);
  law_cached t used failed u f : check_inputs_types_supported (prefix t) = true ->
    v_checkTransactionInputsCached v t used failed = (true, u, f) -> NoDup (images sha3_256 t);
  law_fee t x : v_getPqTransactionFee v t = Some x -> in_w 64 x
}.

Section ChainLaws.
Variable sha3_256 : bytes -> bytes.
Variable cn_fast_hash : bytes -> bytes.
Variable dsa_verify : bytes -> bytes -> bytes -> bool.
Variable y_slow_hash : bytes -> bytes -> option bytes.
Variable c : Currency.
Variable genesisBlockHash : bytes.

Lemma images_map ks t : inputs (prefix t) = map InPq ks -> images sha3_256 t = map (pqNullifier sha3_256) ks.
Proof. intros E. unfold images. rewrite E. clear E. induction ks as [|k ks IH]; cbn; [reflexivity|]. now f_equal. Qed.

Lemma checked_inputs_nodup db t h : checkPqInputs sha3_256 dsa_verify c genesisBlockHash db t = Some h ->
  NoDup (images sha3_256 t).
Proof.
  unfold checkPqInputs. destruct (negb _); [discriminate|]. destruct (existsb _ _); [discriminate|].
  destruct (checkPqTransactionInputs _ _ _ _ _ _) as [nfs|] eqn:H; [|discriminate]. intros _.
  unfold checkPqTransactionInputs in H. inv_bind H. inv_bind H. inv_bind H. inv_bind H. destruct a2 as [computed sumIn].
  inv_guard. bprop. apply inputs_loop_spec in E2 as (ks & Hks & _ & -> & Hnd & _); [|lia|easy|].
  - rewrite (images_map ks t Hks). apply NoDup_ListNoDup, Hnd. constructor.
  - apply List.Forall_forall. intros r Hr. apply in_map_iff in Hr as (x & <- & Hx). apply in_map_iff in Hx as (k & <- & _).
    apply resolve_amount_range.
Qed.

Lemma untyped_no_images t : isPqTransfer (txType (prefix t)) = false -> check_inputs_types_supported (prefix t) = true ->
  images sha3_256 t = [].
Proof.
  unfold check_inputs_types_supported, images. intros ->. rewrite andb_false_r, forallb_forall. intros H.
  induction (inputs (prefix t)) as [|x l IH]; cbn; [reflexivity|]. destruct x as [|k]; cbn.
  - apply IH. intros y Hy. apply H. now right.
  - specialize (H (InPq k) (or_introl eq_refl)). discriminate.
Qed.

Lemma accepted_nodup db pr t hv h s : check_inputs_types_supported (prefix t) = true ->
  checkTransactionInputs sha3_256 cn_fast_hash dsa_verify y_slow_hash c genesisBlockHash db pr t hv = (Some h, s) ->
  NoDup (images sha3_256 t).
Proof.
  intros T H. unfold checkTransactionInputs in H. destruct (negb (version _ =? _)); [discriminate|].
  destruct (isPqTransfer (txType (prefix t))) eqn:P; [|rewrite untyped_no_images by assumption; constructor].
  destruct (_ && isPqAccountAlreadyRegistered _ _ _); [discriminate|]. destruct (negb _); [discriminate|].
  injection H as H _. eapply checked_inputs_nodup, H.
Qed.

#[export] Instance chain_validator_laws cps db pr limit :
  ValidatorLaws sha3_256 (chain_validator sha3_256 cn_fast_hash dsa_verify y_slow_hash c genesisBlockHash cps db pr limit).
Proof.
  assert (Tip : forall t used u, check_inputs_types_supported (prefix t) = true ->
    check_at_tip sha3_256 cn_fast_hash dsa_verify y_slow_hash c genesisBlockHash db pr t used = (true, u) -> NoDup (images sha3_256 t)).
  { intros t used u T H. unfold check_at_tip in H.
    destruct (checkTransactionInputs _ _ _ _ _ _ _ _ _ _) as [[h|] s] eqn:E; cbn [fst] in H; [|discriminate].
    eapply accepted_nodup; eassumption. }
  constructor; cbn [v_checkTransactionInputs v_checkTransactionInputsCached v_getPqTransactionFee chain_validator].
  - intros t b T H. unfold checkTransactionInputs_block in H.
    destruct (check_at_tip _ _ _ _ _ _ _ _ _ _) as [[] u] eqn:E; [|discriminate]. eauto.
  - intros t used failed u f T H. unfold checkTransactionInputs_cached in H.
    destruct (check_at_tip _ _ _ _ _ _ _ _ t used) as [ok u'] eqn:E.
    destruct (bi_empty used); [destruct (_ && _)|destruct (_ <=? _); [discriminate|destruct (_ && _)]];
      try discriminate; injection H as -> _ _; eauto.
  - intros t x. unfold getPqTransactionFee. destruct (_ <? _) eqn:E; [discriminate|]. intros [= <-]. bprop.
    rewrite pqReferencedInputAmount_sum, getOutputAmount_sum in *.
    pose proof (wrap_range 64 (total (map (input_amount db) (pq_inputs t)))).
    pose proof (wrap_range 64 (total (map amount (outputs (prefix t))))). unfold in_w, w64 in *. lia.
Qed.
End ChainLaws.

(** ** The invariant *)

Section Invariant.
Variable sha3_256 : bytes -> bytes.
Variable cn_fast_hash : bytes -> bytes.
Variable c : Currency.

Definition indexed_images (d : TransactionDetails) : list bytes := fst (distinct_prefix ∅ (images sha3_256 (tx d))).
(** No input repeats another. *)
Definition fully (d : TransactionDetails) : bool := snd (distinct_prefix ∅ (images sha3_256 (tx d))).
Definition indexed_regs (d : TransactionDetails) : list bytes :=
  if fully d then option_list (registration sha3_256 (tx d)) else [].
Definition counted (d : TransactionDetails) : bool := fully d && is_free_reg (tx d).

Definition indexes (f : TransactionDetails -> list bytes) (l : list TransactionDetails) (m : gmap bytes (gset bytes)) : Prop :=
  nonempty m /\ forall k i, mem m k i <-> exists d, d ∈ l /\ id d = i /\ k ∈ f d.

Definition typed_inputs (d : TransactionDetails) : Prop := check_inputs_types_supported (prefix (tx d)) = true.

Record pool_ok (p : Pool) : Prop := {
  pk_ids : NoDup (map id (m_transactions p));
  pk_typed : Forall typed_inputs (m_transactions p);
  pk_entries : Forall entry_ok (m_transactions p);
  pk_sorted : StronglySorted not_after (m_transactions p);
  pk_spent : indexes indexed_images (m_transactions p) (m_spent_key_images p);
  pk_regs : indexes indexed_regs (m_transactions p) (m_pq_account_registrations p);
  pk_count : m_freeRegPoolCount p = Z.of_nat (length (List.filter counted (m_transactions p)));
  pk_validated : forall i, i ∈ m_validated_transactions p -> exists d, d ∈ m_transactions p /\ id d = i /\ fully d = true
}.

Lemma indexes_perm f l l' m : l ≡ₚ l' -> indexes f l m -> indexes f l' m.
Proof. intros P [N H]. split; [exact N|]. intros k i. rewrite H. split; intros (d & Hd & R); exists d; rewrite P in *; auto. Qed.

Lemma indexes_cons f d l m : id d ∉ map id l -> indexes f l m -> indexes f (d :: l) (fold_left (m_add (id d)) (f d) m).
Proof.
  intros Hd [N H]. split; [now apply nonempty_adds|]. intros k i. rewrite mem_adds, H. split.
  - intros [(x & Hx & E & Hk)|[Hk ->]]; [exists x|exists d]; set_solver.
  - intros (x & Hx & E & Hk). apply elem_of_cons in Hx as [->|Hx]; [right|left; exists x]; auto.
Qed.

Lemma elem_of_ids (l : list TransactionDetails) i : i ∈ map id l <-> exists d, d ∈ l /\ id d = i.
Proof.
  rewrite list_elem_of_In, in_map_iff. split; intros (d & A & B); exists d; (split; [|]); try assumption; now apply list_elem_of_In.
Qed.

Lemma indexes_uncons f d l m : id d ∉ map id l -> indexes f (d :: l) m -> indexes f l (fold_left (m_del (id d)) (f d) m).
Proof.
  intros Hd [N H]. split; [now apply nonempty_dels|]. intros k i. rewrite mem_dels, H. split.
  - intros [(x & Hx & E & Hk) Hn]. apply elem_of_cons in Hx as [->|Hx]; [exfalso; apply Hn; auto|exists x; auto].
  - intros (x & Hx & E & Hk). split; [exists x; set_solver|]. intros [_ ->]. apply Hd, elem_of_ids. eauto.
Qed.

Lemma indexes_fresh f l m i : indexes f l m -> i ∉ map id l -> forall k, ~ mem m k i.
Proof. intros [_ H] Hi k Hm. apply H in Hm as (d & Hd & <- & _). apply Hi, elem_of_ids. eauto. Qed.

(** Both checks of [add_tx] on the pool's own indices. *)
Definition clashes (p : Pool) (t : Transaction) : bool :=
  haveSpentInputs sha3_256 p t || havePqAccountRegistration sha3_256 p t.

Lemma no_clash_spent p t : clashes p t = false -> forall k, k ∈ images sha3_256 t -> m_spent_key_images p !! k = None.
Proof.
  unfold clashes, haveSpentInputs. rewrite orb_false_iff. intros [H _] k Hk. unfold images in Hk.
  apply list_elem_of_omap in Hk as (x & Hx & E). apply eq_None_not_Some. intros S.
  assert (T : existsb (fun x => match spendImageForInput sha3_256 x with Some img => bool_decide (is_Some (m_spent_key_images p !! img)) | None => false end)
    (inputs (prefix t)) = true).
  { apply existsb_exists. exists x. split; [now apply list_elem_of_In|]. rewrite E. now apply bool_decide_eq_true_2. }
  congruence.
Qed.

Lemma no_clash_reg p t a : clashes p t = false -> registration sha3_256 t = Some a -> m_pq_account_registrations p !! a = None.
Proof.
  unfold clashes, havePqAccountRegistration. rewrite orb_false_iff. intros [_ H] E. rewrite E in H.
  apply bool_decide_eq_false in H. now apply eq_None_not_Some.
Qed.

Lemma addTransactionInputs_spec kept d p l :
  indexes indexed_images l (m_spent_key_images p) -> indexes indexed_regs l (m_pq_account_registrations p) ->
  id d ∉ map id l -> kept = true \/ clashes p (tx d) = false ->
  addTransactionInputs sha3_256 kept (id d) (tx d) p =
    (fully d, set_count (set_regs (set_spent p (fold_left (m_add (id d)) (indexed_images d) (m_spent_key_images p)))
                          (fold_left (m_add (id d)) (indexed_regs d) (m_pq_account_registrations p)))
                (m_freeRegPoolCount p + if counted d then 1 else 0)).
Proof.
  intros IS IR Hd K. unfold addTransactionInputs.
  rewrite (add_images_spec sha3_256 kept (id d) (inputs (prefix (tx d))) ∅ (m_spent_key_images p)).
  2: apply IS.
  2: { intros k. pose proof (indexes_fresh _ _ _ _ IS Hd k). set_solver. }
  2: { destruct K as [K|K]; [auto|right]. intros k Hk _. exact (no_clash_spent p (tx d) K k Hk). }
  change (omap (spendImageForInput sha3_256) (inputs (prefix (tx d)))) with (images sha3_256 (tx d)).
  change (snd (distinct_prefix ∅ (images sha3_256 (tx d)))) with (fully d).
  change (fst (distinct_prefix ∅ (images sha3_256 (tx d)))) with (indexed_images d).
  unfold counted, indexed_regs. destruct (fully d); cbn [negb andb fold_left].
  2: { destruct p. cbn. now rewrite Z.add_0_r. }
  cbn [m_pq_account_registrations set_spent].
  destruct (registration sha3_256 (tx d)) as [a|] eqn:Ea; cbn [option_list fold_left].
  - assert (Hn : id d ∉ default ∅ (m_pq_account_registrations p !! a)) by (rewrite <- mem_default; now apply (indexes_fresh _ _ _ _ IR)).
    replace (negb (kept || bool_decide (default ∅ (m_pq_account_registrations p !! a) = ∅))) with false.
    2: { destruct K as [->|K]; [reflexivity|]. rewrite (no_clash_reg p (tx d) a K Ea). cbn. now rewrite orb_true_r. }
    rewrite bool_decide_eq_false_2 by exact Hn. cbn [m_pq_account_registrations set_regs negb]. rewrite insert_insert_eq.
    destruct (is_free_reg (tx d)), p; cbn; rewrite ?Z.add_0_r; reflexivity.
  - destruct (is_free_reg (tx d)), p; cbn; rewrite ?Z.add_0_r; reflexivity.
Qed.

Lemma removeTransactionInputs_spec d p l :
  indexes indexed_images (d :: l) (m_spent_key_images p) -> indexes indexed_regs (d :: l) (m_pq_account_registrations p) ->
  id d ∉ map id l -> (counted d = true -> 0 < m_freeRegPoolCount p) ->
  removeTransactionInputs sha3_256 (id d) (tx d) p =
    (fully d, set_count (set_regs (set_spent p (fold_left (m_del (id d)) (indexed_images d) (m_spent_key_images p)))
                          (fold_left (m_del (id d)) (indexed_regs d) (m_pq_account_registrations p)))
                (m_freeRegPoolCount p - if counted d then 1 else 0)).
Proof.
  intros IS IR Hd Hc. unfold removeTransactionInputs.
  assert (Own : forall f m, indexes f (d :: l) m -> forall k, mem m k (id d) <-> k ∈ f d).
  { intros f m [_ H] k. rewrite H. split; [|exists d; set_solver]. intros (x & Hx & E & Hk).
    apply elem_of_cons in Hx as [->|Hx]; [exact Hk|]. exfalso. apply Hd, elem_of_ids. eauto. }
  rewrite (remove_images_spec sha3_256 (id d) (inputs (prefix (tx d))) ∅ (m_spent_key_images p) (proj1 IS) (Own _ _ IS)).
  change (omap (spendImageForInput sha3_256) (inputs (prefix (tx d)))) with (images sha3_256 (tx d)).
  change (snd (distinct_prefix ∅ (images sha3_256 (tx d)))) with (fully d).
  change (fst (distinct_prefix ∅ (images sha3_256 (tx d)))) with (indexed_images d).
  pose proof (Own _ _ IR) as Or. unfold counted, indexed_regs in *. destruct (fully d); cbn [negb andb fold_left] in *.
  2: { destruct p. cbn. now rewrite Z.sub_0_r. }
  cbn [m_pq_account_registrations set_spent m_freeRegPoolCount].
  assert (Cnt : forall n, m_freeRegPoolCount p = n -> (if is_free_reg (tx d) && (0 <? n) then n - 1 else n) = n - if is_free_reg (tx d) then 1 else 0).
  { intros n <-. destruct (is_free_reg (tx d)); cbn [andb]; [|lia]. now rewrite (proj2 (Z.ltb_lt _ _) (Hc eq_refl)). }
  destruct (registration sha3_256 (tx d)) as [a|] eqn:Ea; cbn [option_list fold_left] in *.
  - destruct (proj2 (Or a)) as (s & Hs & Hi); [left|].
    assert (E : m_del (id d) (m_pq_account_registrations p) a =
      if bool_decide (s ∖ {[id d]} = ∅) then delete a (m_pq_account_registrations p)
      else <[a := s ∖ {[id d]}]> (m_pq_account_registrations p)) by (unfold m_del; now rewrite Hs).
    change (fold_left (m_del (id d)) (option_list (Some a)) (m_pq_account_registrations p)) with (m_del (id d) (m_pq_account_registrations p) a).
    rewrite Hs, E. rewrite bool_decide_eq_true_2 by exact Hi. cbn [negb]. destruct p. cbn in *. rewrite <- Cnt by reflexivity.
    destruct (is_free_reg (tx d) && _); reflexivity.
  - destruct p. cbn in *. rewrite <- Cnt by reflexivity. destruct (is_free_reg (tx d) && _); reflexivity.
Qed.
(** ** Every operation keeps the invariant *)

Lemma pool_ok_fields p q : m_transactions q = m_transactions p -> m_spent_key_images q = m_spent_key_images p ->
  m_pq_account_registrations q = m_pq_account_registrations p -> m_freeRegPoolCount q = m_freeRegPoolCount p ->
  m_validated_transactions q = m_validated_transactions p -> pool_ok p -> pool_ok q.
Proof. intros E1 E2 E3 E4 E5 []. constructor; rewrite ?E1, ?E2, ?E3, ?E4, ?E5; assumption. Qed.

Lemma empty_pool_ok : pool_ok empty_pool.
Proof.
  assert (N : forall f, indexes f [] ∅).
  { intros f. split; [intros k s H; rewrite lookup_empty in H; discriminate|]. intros k i. split.
    - intros (s & H & _). rewrite lookup_empty in H. discriminate.
    - intros (d & Hd & _). inversion Hd. }
  constructor; cbn; try apply N; try constructor; set_solver.
Qed.

Lemma filter_perm {A} (f : A -> bool) l l' : l ≡ₚ l' -> List.filter f l ≡ₚ List.filter f l'.
Proof.
  induction 1 as [|x l l' _ IH|x y l|l l' l'' _ IH1 _ IH2]; cbn; [constructor| | |etransitivity; eassumption].
  - destruct (f x); [now constructor|exact IH].
  - destruct (f x), (f y); try reflexivity. apply perm_swap.
Qed.

(** Inserting a transaction that does not clash, or is kept by a block. *)
Lemma pool_insert kept d p pay ts : pool_ok p -> entry_ok d -> typed_inputs d -> id d ∉ map id (m_transactions p) ->
  kept = true \/ clashes p (tx d) = false ->
  let q := set_indices (set_transactions p (insert_by_fee d (m_transactions p))) pay ts in
  exists q', addTransactionInputs sha3_256 kept (id d) (tx d) q = (fully d, q') /\ pool_ok q' /\
    m_transactions q' = insert_by_fee d (m_transactions p).
Proof.
  intros K He Ht Hd Hc q. pose proof (insert_by_fee_perm d (m_transactions p)) as P.
  eexists. split; [apply (addTransactionInputs_spec kept d q (m_transactions p)); try assumption; apply K|].
  split; [|reflexivity]. constructor; cbn [m_transactions m_spent_key_images m_pq_account_registrations m_freeRegPoolCount
    m_validated_transactions set_count set_regs set_spent set_indices set_transactions q].
  - rewrite P. cbn. constructor; [exact Hd|apply K].
  - rewrite P. constructor; [exact Ht|apply K].
  - rewrite P. constructor; [exact He|apply K].
  - apply insert_by_fee_sorted; [exact He|apply K|apply K].
  - apply (indexes_perm _ (d :: m_transactions p)); [now rewrite P|]. apply indexes_cons; [exact Hd|apply K].
  - apply (indexes_perm _ (d :: m_transactions p)); [now rewrite P|]. apply indexes_cons; [exact Hd|apply K].
  - rewrite (Permutation_length (filter_perm counted _ _ P)), (pk_count _ K). cbn [List.filter]. destruct (counted d); cbn [length]; lia.
  - intros i Hi. apply K in Hi as (x & Hx & R). exists x. split; [|exact R]. rewrite P. now right.
Qed.

Lemma erase_tx_perm d l : d ∈ l -> NoDup (map id l) -> l ≡ₚ d :: erase_tx (id d) l /\ id d ∉ map id (erase_tx (id d) l).
Proof.
  intros Hd N. split.
  - induction l as [|x l IH]; [inversion Hd|]. cbn [map] in N. inversion_clear N as [|? ? Hx N'].
    unfold erase_tx. cbn [List.filter]. fold (erase_tx (id d) l). apply elem_of_cons in Hd as [->|Hd].
    + rewrite bytes_eqb_refl. cbn [negb]. constructor.
      assert (E : erase_tx (id x) l = l); [|now rewrite E].
      unfold erase_tx. clear -Hx. induction l as [|y l IH]; [reflexivity|]. cbn [List.filter map] in *.
      destruct (bytes_eqb (id y) (id x)) eqn:E; [apply bytes_eqb_eq in E; set_solver|]. cbn [negb]. f_equal. apply IH. set_solver.
    + destruct (bytes_eqb (id x) (id d)) eqn:E.
      * apply bytes_eqb_eq in E. exfalso. apply Hx, elem_of_ids. exists d. auto.
      * cbn [negb]. etransitivity; [apply perm_skip, (IH Hd N')|apply perm_swap].
  - intros H. apply elem_of_ids in H as (x & Hx & E). unfold erase_tx in Hx. apply list_elem_of_In, filter_In in Hx as [_ Hx].
    rewrite E, bytes_eqb_refl in Hx. discriminate.
Qed.

Lemma StronglySorted_filter {A} (R : A -> A -> Prop) f l : StronglySorted R l -> StronglySorted R (List.filter f l).
Proof.
  induction 1 as [|x l S IH F]; cbn; [constructor|]. destruct (f x); [|exact IH]. constructor; [exact IH|].
  rewrite List.Forall_forall in *. intros y Hy. apply filter_In in Hy as [Hy _]. auto.
Qed.

Lemma pool_remove d p : pool_ok p -> d ∈ m_transactions p ->
  pool_ok (removeTransaction sha3_256 cn_fast_hash d p) /\
  m_transactions (removeTransaction sha3_256 cn_fast_hash d p) = erase_tx (id d) (m_transactions p).
Proof.
  intros K Hd. destruct (erase_tx_perm d _ Hd (pk_ids _ K)) as [P F]. unfold removeTransaction.
  pose proof (indexes_perm _ _ _ _ P (pk_spent _ K)) as IS. pose proof (indexes_perm _ _ _ _ P (pk_regs _ K)) as IR.
  pose proof (pk_count _ K) as C. rewrite (Permutation_length (filter_perm counted _ _ P)) in C. cbn [List.filter] in C.
  rewrite (removeTransactionInputs_spec d p _ IS IR F) by (intros E; rewrite E in C; cbn [length] in C; lia).
  split; [|reflexivity]. constructor; cbn [m_transactions m_spent_key_images m_pq_account_registrations m_freeRegPoolCount
    m_validated_transactions set_count set_regs set_spent set_indices set_transactions set_validated].
  - pose proof (pk_ids _ K) as N. rewrite P in N. cbn in N. now inversion N.
  - pose proof (pk_typed _ K) as N. rewrite P in N. now inversion N.
  - pose proof (pk_entries _ K) as N. rewrite P in N. now inversion N.
  - apply StronglySorted_filter, K.
  - now apply indexes_uncons.
  - now apply indexes_uncons.
  - rewrite C. destruct (counted d); cbn [length]; lia.
  - intros i Hi. apply elem_of_difference in Hi as [Hi Hn]. apply K in Hi as (x & Hx & E & Hf). exists x. split; [|auto].
    rewrite P in Hx. apply elem_of_cons in Hx as [->|Hx]; [set_solver|exact Hx].
Qed.

Lemma find_tx_spec i l d : find_tx i l = Some d -> d ∈ l /\ id d = i.
Proof. intros H. apply find_some in H as [H E]. apply bytes_eqb_eq in E. now rewrite list_elem_of_In. Qed.

Lemma find_tx_none i l : find_tx i l = None -> i ∉ map id l.
Proof.
  intros H Hi. apply elem_of_ids in Hi as (d & Hd & <-). apply list_elem_of_In in Hd.
  pose proof (find_none _ _ H d Hd) as E. cbn in E. now rewrite bytes_eqb_refl in E.
Qed.

Lemma remove_loop_ok bad l : forall p, pool_ok p -> (forall d, d ∈ l -> d ∈ m_transactions p) -> NoDup (map id l) ->
  pool_ok (remove_loop sha3_256 cn_fast_hash bad l p).
Proof.
  induction l as [|d l IH]; intros p K H N; cbn [remove_loop]; [exact K|]. cbn [map] in N. inversion_clear N as [|? ? Hd N'].
  destruct (bad d); [|apply IH; set_solver].
  destruct (pool_remove d p K) as [K' E]; [apply H; left|]. apply IH; [exact K'| |exact N'].
  intros x Hx. rewrite E. unfold erase_tx. apply list_elem_of_In, filter_In. split; [apply list_elem_of_In, H; now right|].
  apply negb_true_iff. destruct (bytes_eqb (id x) (id d)) eqn:B; [|reflexivity]. apply bytes_eqb_eq in B.
  exfalso. apply Hd, elem_of_ids. eauto.
Qed.

(** *** Admission policy: what holds of the transactions no block has carried *)

Definition own (d : TransactionDetails) : bool := negb (keptByBlock d).
Definition disjoint_spends (d e : TransactionDetails) : Prop :=
  (forall k, k ∈ images sha3_256 (tx d) -> k ∉ images sha3_256 (tx e)) /\
  (forall a, registration sha3_256 (tx d) = Some a -> registration sha3_256 (tx e) <> Some a).

Record pool_policy (p : Pool) : Prop := {
  pp_fully : forall d, d ∈ m_transactions p -> own d = true -> fully d = true;
  pp_exclusive : forall d e, d ∈ m_transactions p -> e ∈ m_transactions p -> own d = true -> own e = true ->
    id d <> id e -> disjoint_spends d e;
  pp_free : Z.of_nat (length (List.filter (fun d => own d && is_free_reg (tx d)) (m_transactions p))) <= freeRegPoolLimit c
}.

Lemma disjoint_spends_sym d e : disjoint_spends d e -> disjoint_spends e d.
Proof. intros [A B]. split; [intros k H1 H2; exact (A k H2 H1)|intros a H1 H2; exact (B a H2 H1)]. Qed.

Lemma fully_images d : fully d = true -> indexed_images d = images sha3_256 (tx d).
Proof. apply distinct_prefix_complete. Qed.

Lemma nodup_fully d : NoDup (images sha3_256 (tx d)) -> fully d = true.
Proof. intros H. unfold fully. rewrite distinct_prefix_all; [reflexivity|exact H|set_solver]. Qed.

Lemma fully_nodup d : fully d = true -> NoDup (images sha3_256 (tx d)).
Proof. intros H. rewrite <- (fully_images d H). apply distinct_prefix_nodup. Qed.

(** A transaction that does not clash with the indices is disjoint from every
    fully indexed one. *)
Lemma no_clash_disjoint p d e : pool_ok p -> clashes p (tx d) = false -> e ∈ m_transactions p -> fully e = true ->
  disjoint_spends d e.
Proof.
  intros K C He F. split.
  - intros k Hd Hk. pose proof (no_clash_spent p (tx d) C k Hd) as N.
    assert (M : mem (m_spent_key_images p) k (id e)) by (apply (pk_spent _ K); exists e; rewrite fully_images; auto).
    destruct M as (s & E & _). congruence.
  - intros a Hd Ha. pose proof (no_clash_reg p (tx d) a C Hd) as N.
    assert (M : mem (m_pq_account_registrations p) a (id e)).
    { apply (pk_regs _ K). exists e. unfold indexed_regs. rewrite F, Ha. cbn. set_solver. }
    destruct M as (s & E & _). congruence.
Qed.

Lemma own_free_bound p : pool_ok p -> pool_policy p ->
  Z.of_nat (length (List.filter (fun d => own d && is_free_reg (tx d)) (m_transactions p))) <= m_freeRegPoolCount p.
Proof.
  intros K P. rewrite (pk_count _ K). apply inj_le.
  assert (H : forall d, d ∈ m_transactions p -> own d = true -> fully d = true) by apply P. revert H.
  induction (m_transactions p) as [|d l IH]; intros H; cbn [List.filter]; [reflexivity|].
  assert (IH' := IH ltac:(intros x Hx; apply H; now right)). pose proof (H d ltac:(left)) as Hd.
  assert (C : counted d = fully d && is_free_reg (tx d)) by reflexivity.
  destruct (own d); [rewrite (Hd eq_refl) in C|]; cbn [andb] in *; destruct (counted d), (is_free_reg (tx d));
    cbn [length]; try discriminate; lia.
Qed.

Lemma policy_insert kept d p q : pool_ok p -> pool_policy p -> keptByBlock d = kept -> id d ∉ map id (m_transactions p) ->
  m_transactions q = insert_by_fee d (m_transactions p) ->
  kept = true \/ (clashes p (tx d) = false /\ NoDup (images sha3_256 (tx d)) /\
                  (is_free_reg (tx d) = true -> m_freeRegPoolCount p < freeRegPoolLimit c)) ->
  pool_policy q.
Proof.
  intros K P Hk Hd E H. pose proof (insert_by_fee_perm d (m_transactions p)) as Pm. rewrite <- E in Pm.
  assert (X : own d = true -> clashes p (tx d) = false /\ NoDup (images sha3_256 (tx d)) /\
                  (is_free_reg (tx d) = true -> m_freeRegPoolCount p < freeRegPoolLimit c)).
  { unfold own. rewrite Hk. destruct H as [->|H]; [discriminate|auto]. }
  assert (D : forall e, e ∈ m_transactions p -> own d = true -> own e = true -> disjoint_spends d e).
  { intros e He Od Oe. apply (no_clash_disjoint p d e K); [apply X, Od|exact He|now apply (pp_fully _ P)]. }
  constructor.
  - intros e He Oe. rewrite Pm in He. apply elem_of_cons in He as [->|He]; [now apply nodup_fully, X|now apply (pp_fully _ P)].
  - intros e e' He He' O O' N. rewrite Pm in He, He'. apply elem_of_cons in He as [->|He], He' as [->|He'].
    + congruence.
    + auto.
    + apply disjoint_spends_sym. auto.
    + now apply (pp_exclusive _ P).
  - rewrite (Permutation_length (filter_perm _ _ _ Pm)). cbn [List.filter]. pose proof (own_free_bound p K P). pose proof (pp_free _ P).
    destruct (own d) eqn:O, (is_free_reg (tx d)) eqn:F; cbn [andb length]; lia.
Qed.

Lemma policy_filter p q f : pool_policy p -> m_transactions q = List.filter f (m_transactions p) -> pool_policy q.
Proof.
  intros P E. assert (S : forall d, d ∈ m_transactions q -> d ∈ m_transactions p).
  { intros d. rewrite E, !list_elem_of_In, filter_In. tauto. }
  constructor; [intros; apply (pp_fully _ P); auto|intros; apply (pp_exclusive _ P); auto|].
  etransitivity; [|apply P]. rewrite E. apply inj_le. clear. induction (m_transactions p) as [|d l IH]; cbn [List.filter]; [lia|].
  destruct (f d); cbn [List.filter]; destruct (own d && is_free_reg (tx d)); cbn [length]; lia.
Qed.
End Invariant.

(** ** Operations *)

Section Operations.
Variable sha3_256 : bytes -> bytes.
Variable cn_fast_hash : bytes -> bytes.
Variable c : Currency.

Abbreviation pool_ok := (pool_ok sha3_256).
Abbreviation pool_policy := (pool_policy sha3_256 c).
Definition good (p : Pool) : Prop := pool_ok p /\ pool_policy p.

(** The entry [add_tx] makes of a transaction the validator judged [checked]. *)
Definition new_entry (v : Validator) (now : Z) (t : Transaction) (i : bytes) (size : Z) (kept : bool) : TransactionDetails :=
  let checked := v_checkTransactionInputs v t in
  mkTransactionDetails i t size
    (if is_some checked && ((TRANSACTION_VERSION_1 <=? version (prefix t)) && isPqTransfer (txType (prefix t)))
     then default 0 (v_getPqTransactionFee v t) else 0)
    kept now (default cleared checked) cleared.

(** The fee of an entry is the validator's, or nothing. *)
Definition in_fee (v : Validator) (t : Transaction) (x : Z) : Prop := x = 0 \/ v_getPqTransactionFee v t = Some x.

(** What [add_tx] has checked of a transaction no block carries. *)
Record admissible (v : Validator) (p : Pool) (t : Transaction) (i : bytes) (size : Z) : Prop := {
  ad_checked : is_Some (v_checkTransactionInputs v t);
  ad_clash : clashes sha3_256 p t = false;
  ad_free : is_free_reg t = true -> m_freeRegPoolCount p < freeRegPoolLimit c;
  ad_size : v_checkTransactionSize v size = true;
  ad_deleted : m_recentlyDeletedTransactions p !! i = None
}.

Lemma output_amount_zero t : (0 <? getOutputAmount t) = false -> 0 - getOutputAmount t = 0.
Proof.
  intros H. bprop. rewrite getOutputAmount_sum in *. pose proof (wrap_range 64 (total (map amount (outputs (prefix t))))).
  unfold in_w, w64 in *. lia.
Qed.

(** [add_tx] leaves the pool as it is, or inserts the new entry: unless a block
    carries it, an admissible one. *)
Lemma add_tx_cases v now t i size kept p : let '(ok, ctx, q) := add_tx sha3_256 cn_fast_hash c v now t i size kept p in
  (q = p /\ m_added_to_pool ctx = false) \/
  (let d := new_entry v now t i size kept in
   check_inputs_types_supported (prefix t) = true /\ i ∉ map id (m_transactions p) /\
   (kept = true \/ admissible v p t i size) /\ in_fee v t (fee d) /\ m_added_to_pool ctx = true /\
   (ok, q) = addTransactionInputs sha3_256 kept i t
     (set_indices (set_transactions p (insert_by_fee d (m_transactions p)))
        (PaymentIdIndex_add cn_fast_hash t (m_paymentIdIndex p)) (TimestampIndex_add now i (m_timestampIndex p)))).
Proof.
  unfold add_tx. destruct (check_inputs_types_supported (prefix t)) eqn:T; [|left; split; reflexivity]. cbn [negb].
  unfold get_inputs_money_amount. set (pq := (TRANSACTION_VERSION_1 <=? version (prefix t)) && isPqTransfer (txType (prefix t))).
  destruct (negb pq && (0 <? getOutputAmount t)) eqn:A; [left; split; reflexivity|].
  destruct (negb kept && _) eqn:B; [left; split; reflexivity|].
  destruct (negb (is_some (v_checkTransactionInputs v t)) && negb kept) eqn:C; [left; split; reflexivity|].
  assert (F : match (if is_some (v_checkTransactionInputs v t) && pq then v_getPqTransactionFee v t
                     else Some (if pq then 0 else 0 - getOutputAmount t)) with
              | None => True
              | Some x => x = fee (new_entry v now t i size kept) /\ in_fee v t x
              end).
  { unfold new_entry. fold pq. cbn [fee]. destruct (is_some _), pq; cbn [andb negb] in *;
      try (rewrite (output_amount_zero t A)); [|split; [reflexivity|now left]..].
    destruct (v_getPqTransactionFee v t) eqn:E; [split; [reflexivity|now right]|exact I]. }
  destruct (if is_some (v_checkTransactionInputs v t) && pq then _ else _) as [x|]; [|left; split; reflexivity]. destruct F as [-> F].
  destruct (negb kept && negb (v_checkTransactionSize v size)) eqn:S; [left; split; reflexivity|].
  destruct (negb kept && bool_decide _) eqn:R; [left; split; reflexivity|].
  destruct (find_tx i (m_transactions p)) eqn:N; [left; split; reflexivity|].
  destruct (addTransactionInputs _ _ _ _ _) as [ok q] eqn:Q. right.
  split; [reflexivity|]. split; [now apply find_tx_none|]. split; [|split; [exact F|split; [reflexivity|now rewrite <- Q]]].
  destruct kept; [now left|right]. cbn [negb andb] in B, C, S, R. rewrite !orb_false_iff in B. destruct B as [[B1 B2] B3].
  constructor.
  - destruct (v_checkTransactionInputs v t); [eauto|discriminate].
  - unfold clashes. now rewrite B1, B2.
  - intros E. rewrite E in B3. cbn [andb] in B3. bprop. lia.
  - now apply negb_false_iff.
  - apply bool_decide_eq_false in R. now apply eq_None_not_Some.
Qed.

Lemma add_tx_effect v now t i size kept p : ValidatorLaws sha3_256 v -> 0 < size < 2 ^ 63 -> good p ->
  let '(_, ctx, q) := add_tx sha3_256 cn_fast_hash c v now t i size kept p in
  good q /\ ((q = p /\ m_added_to_pool ctx = false) \/
             (m_added_to_pool ctx = true /\ m_transactions q = insert_by_fee (new_entry v now t i size kept) (m_transactions p))).
Proof.
  intros L Hs [K P]. pose proof (add_tx_cases v now t i size kept p) as H.
  destruct (add_tx _ _ _ _ _ _ _ _ _ _) as [[ok ctx] q].
  destruct H as [[-> Hn]|(T & Hi & Ha & Hf & Hn & Hq)]; [split; [split; assumption|now left]|].
  set (d := new_entry v now t i size kept) in *.
  assert (E : entry_ok d) by (split; [exact Hs|destruct Hf as [->|Hf]; [easy|exact (law_fee _ _ Hf)]]).
  destruct (pool_insert sha3_256 cn_fast_hash kept d p (PaymentIdIndex_add cn_fast_hash t (m_paymentIdIndex p))
              (TimestampIndex_add now i (m_timestampIndex p)) K E T Hi) as (q' & Eq & Kq & Tq).
  { destruct Ha as [->|Ha]; [now left|right; apply Ha]. }
  change (id d) with i in Eq. change (tx d) with t in Eq. rewrite Eq in Hq. injection Hq as -> ->.
  split; [|right; auto]. split; [exact Kq|]. apply (policy_insert sha3_256 cn_fast_hash c kept d p q' K P eq_refl Hi Tq).
  destruct Ha as [->|[[b V] Hc Hr _ _]]; [now left|right]. split; [exact Hc|]. split; [exact (law_checked _ _ T V)|exact Hr].
Qed.

Lemma add_tx_good v now t i size kept p : ValidatorLaws sha3_256 v -> 0 < size < 2 ^ 63 -> good p ->
  good (snd (add_tx sha3_256 cn_fast_hash c v now t i size kept p)).
Proof.
  intros L Hs G. pose proof (add_tx_effect v now t i size kept p L Hs G) as H.
  destruct (add_tx _ _ _ _ _ _ _ _ _ _) as [[ok ctx] q]. apply H.
Qed.

(** A transaction a block carries is stored unless it is there already, whatever
    the chain says of its inputs. *)
Lemma add_kept_stored v now t i size p : check_inputs_types_supported (prefix t) = true ->
  ((TRANSACTION_VERSION_1 <=? version (prefix t)) && isPqTransfer (txType (prefix t)) = true \/ (0 <? getOutputAmount t) = false) ->
  (is_Some (v_checkTransactionInputs v t) -> (TRANSACTION_VERSION_1 <=? version (prefix t)) && isPqTransfer (txType (prefix t)) = true ->
   is_Some (v_getPqTransactionFee v t)) ->
  find_tx i (m_transactions p) = None ->
  m_added_to_pool (snd (fst (add_tx sha3_256 cn_fast_hash c v now t i size true p))) = true.
Proof.
  intros T A F N. unfold add_tx. rewrite T, N. cbn [negb andb orb]. rewrite andb_false_r. cbn [negb].
  unfold get_inputs_money_amount. set (pq := (TRANSACTION_VERSION_1 <=? version (prefix t)) && isPqTransfer (txType (prefix t))) in *.
  replace (negb pq && (0 <? getOutputAmount t)) with false by (destruct A as [->| ->]; [reflexivity|now rewrite andb_false_r]).
  assert (X : exists x, (if is_some (v_checkTransactionInputs v t) && pq then v_getPqTransactionFee v t
                        else Some (if pq then 0 else 0 - getOutputAmount t)) = Some x).
  { destruct (v_checkTransactionInputs v t) as [b|]; cbn [is_some andb]; [|eauto]. destruct pq; [|eauto].
    destruct (F ltac:(eauto) eq_refl) as [x ->]. eauto. }
  destruct X as [x ->]. destruct (addTransactionInputs _ _ _ _ _). reflexivity.
Qed.

Lemma remove_loop_transactions bad l : forall p,
  exists f, m_transactions (remove_loop sha3_256 cn_fast_hash bad l p) = List.filter f (m_transactions p).
Proof.
  assert (F : forall l : list TransactionDetails, List.filter (fun _ => true) l = l) by (induction l0; cbn; congruence).
  induction l as [|d l IH]; intros p; cbn [remove_loop]; [exists (fun _ => true); now rewrite F|].
  destruct (bad d); [|apply IH]. destruct (IH (removeTransaction sha3_256 cn_fast_hash d p)) as [f E]. rewrite E.
  unfold removeTransaction. destruct (removeTransactionInputs _ _ _ _) as [ok q] eqn:R. cbn [m_transactions set_transactions set_validated set_indices].
  replace (m_transactions q) with (m_transactions p).
  - exists (fun x => negb (bytes_eqb (id x) (id d)) && f x). unfold erase_tx.
    induction (m_transactions p) as [|y r IHr]; cbn [List.filter]; [reflexivity|].
    destruct (bytes_eqb (id y) (id d)); cbn [negb andb]; [exact IHr|]. cbn [List.filter]. destruct (f y); [f_equal|]; exact IHr.
  - clear -R. unfold removeTransactionInputs in R. destruct (remove_images _ _ _ _) as [o s]. destruct (negb o); [now injection R as _ <-|].
    cbn [m_pq_account_registrations set_spent] in R. destruct (registration _ _) as [a|]; [destruct (m_pq_account_registrations p !! a) as [x|]; [destruct (negb (bool_decide _))|]|];
      cbn [negb] in R; try (now injection R as _ <-); destruct (_ && _) in R; now injection R as _ <-.
Qed.

Lemma removal_good bad p : good p -> good (remove_loop sha3_256 cn_fast_hash bad (m_transactions p) p).
Proof.
  intros [K P]. split; [apply remove_loop_ok; [exact K|auto|apply K]|].
  destruct (remove_loop_transactions bad (m_transactions p) p) as [f E]. now apply (policy_filter sha3_256 c p _ f).
Qed.

Lemma good_fields p q : m_transactions q = m_transactions p -> m_spent_key_images q = m_spent_key_images p ->
  m_pq_account_registrations q = m_pq_account_registrations p -> m_freeRegPoolCount q = m_freeRegPoolCount p ->
  m_validated_transactions q = m_validated_transactions p -> good p -> good q.
Proof.
  intros E1 E2 E3 E4 E5 [K P]. split; [now apply (pool_ok_fields sha3_256 p)|].
  destruct P. constructor; rewrite E1; assumption.
Qed.

Lemma expiry_good now p : good p -> good (removeExpiredTransactions sha3_256 cn_fast_hash c now p).
Proof.
  intros G. unfold removeExpiredTransactions. cbv zeta. set (q := set_deleted p _).
  apply (good_fields (remove_loop sha3_256 cn_fast_hash (expired c now) (m_transactions q) q)); try reflexivity.
  apply removal_good. revert G. now apply good_fields.
Qed.

Lemma take_good i p : good p -> good (snd (take_tx sha3_256 cn_fast_hash i p)).
Proof.
  intros [K P]. unfold take_tx. destruct (find_tx i (m_transactions p)) as [d|] eqn:E; [|split; assumption]. cbn [snd].
  apply find_tx_spec in E as [Hd _]. destruct (pool_remove sha3_256 cn_fast_hash d p K Hd) as [K' E'].
  split; [exact K'|exact (policy_filter sha3_256 c p _ _ P E')].
Qed.

(** *** Readiness and templates *)

(** An entry with other check information. *)
Definition recheck (d e : TransactionDetails) : Prop := e = set_check d (maxUsedBlock e) (lastFailedBlock e).

Lemma recheck_refl d : recheck d d.
Proof. now destruct d. Qed.

Section Recheck.
Variables l l' : list TransactionDetails.
Hypothesis R : Forall2 recheck l l'.

Lemma recheck_map {A} (f : TransactionDetails -> A) : (forall d e, recheck d e -> f d = f e) -> map f l = map f l'.
Proof. intros H. clear -R H. induction R; cbn; [reflexivity|]. f_equal; auto. Qed.

Lemma recheck_elem e : e ∈ l' -> exists d, d ∈ l /\ recheck d e.
Proof. clear -R. induction R; intros He; [inversion He|]. apply elem_of_cons in He as [->|He]; set_solver. Qed.

Lemma recheck_elem_inv d : d ∈ l -> exists e, e ∈ l' /\ recheck d e.
Proof. clear -R. induction R; intros He; [inversion He|]. apply elem_of_cons in He as [->|He]; set_solver. Qed.

Lemma recheck_indexes f m : (forall d e, recheck d e -> f d = f e) -> indexes f l m -> indexes f l' m.
Proof.
  intros H [N M]. split; [exact N|]. intros k i. rewrite M. split.
  - intros (d & Hd & E & Hk). apply recheck_elem_inv in Hd as (e & He & X). exists e. rewrite <- (H d e X).
    split; [exact He|]. split; [now rewrite X|exact Hk].
  - intros (e & He & E & Hk). apply recheck_elem in He as (d & Hd & X). exists d. rewrite (H d e X).
    split; [exact Hd|]. split; [now rewrite X in E|exact Hk].
Qed.

Lemma recheck_filter f : (forall d e, recheck d e -> f d = f e) -> length (List.filter f l) = length (List.filter f l').
Proof. intros H. clear -R H. induction R as [|d e l l' X Y IH]; cbn; [reflexivity|]. rewrite (H d e X). destruct (f e); cbn; [f_equal|]; exact (IH Y). Qed.

Lemma recheck_sorted : StronglySorted not_after l -> StronglySorted not_after l'.
Proof.
  clear -R. induction R as [|d e l l' X Rl IH]; intros S; [constructor|]. inversion_clear S as [|? ? S' F].
  constructor; [auto|]. apply List.Forall_forall. intros y Hy. apply list_elem_of_In in Hy.
  assert (Z : exists x, x ∈ l /\ recheck x y) by (clear -Rl Hy; induction Rl; [inversion Hy|]; apply elem_of_cons in Hy as [->|Hy]; set_solver).
  destruct Z as (x & Hx & Ex). rewrite List.Forall_forall in F. apply list_elem_of_In in Hx. specialize (F x Hx).
  unfold not_after in *. now rewrite Ex, X.
Qed.
End Recheck.

Lemma recheck_good (p : Pool) (l' : list TransactionDetails) (V : gset bytes) : good p -> Forall2 recheck (m_transactions p) l' ->
  (forall i, i ∈ V -> exists d, d ∈ m_transactions p /\ id d = i /\ fully sha3_256 d = true) ->
  good (set_validated (set_transactions p l') V).
Proof.
  intros [K P] R HV.
  assert (Hi : forall d e, recheck d e -> id d = id e) by (intros d e ->; reflexivity).
  assert (Hx : forall d e, recheck d e -> tx d = tx e) by (intros d e ->; reflexivity).
  assert (Hf : forall d e, recheck d e -> fully sha3_256 d = fully sha3_256 e) by (intros d e ->; reflexivity).
  assert (Back : forall Q : TransactionDetails -> Prop, (forall d e, recheck d e -> Q d -> Q e) ->
    Forall Q (m_transactions p) -> Forall Q l').
  { intros Q HQ F. apply List.Forall_forall. intros e He. apply list_elem_of_In, (recheck_elem _ _ R) in He as (d & Hd & X).
    apply (HQ d e X). rewrite List.Forall_forall in F. now apply F, list_elem_of_In. }
  split; constructor; cbn [m_transactions m_spent_key_images m_pq_account_registrations m_freeRegPoolCount
    m_validated_transactions set_transactions set_validated].
  - rewrite <- (recheck_map _ _ R id Hi). apply K.
  - apply Back; [|apply K]. intros d e ->. exact (fun H => H).
  - apply Back; [|apply K]. intros d e ->. exact (fun H => H).
  - apply (recheck_sorted _ _ R), K.
  - apply (recheck_indexes _ _ R); [intros d e ->; reflexivity|apply K].
  - apply (recheck_indexes _ _ R); [intros d e ->; reflexivity|apply K].
  - rewrite <- (recheck_filter _ _ R); [apply K|intros d e ->; reflexivity].
  - intros i H. apply HV in H as (d & Hd & E & F). apply (recheck_elem_inv _ _ R) in Hd as (e & He & X).
    exists e. split; [exact He|]. now rewrite <- (Hi d e X), <- (Hf d e X).
  - intros e He O. apply (recheck_elem _ _ R) in He as (d & Hd & X). rewrite <- (Hf d e X). apply (pp_fully _ _ _ P d Hd).
    now rewrite X in O.
  - intros e e' He He' O O' N. apply (recheck_elem _ _ R) in He as (d & Hd & X), He' as (d' & Hd' & X').
    rewrite X in O, N. rewrite X' in O', N. pose proof (pp_exclusive _ _ _ P d d' Hd Hd' O O' N) as D.
    unfold disjoint_spends in *. now rewrite <- (Hx d e X), <- (Hx d' e' X').
  - rewrite <- (recheck_filter _ _ R); [apply P|intros d e ->; reflexivity].
Qed.

(** What [fill_block_template] has checked of a transaction it takes: [V] are
    those found ready by an earlier call, since [on_blockchain_change] was last
    called. *)
Record eligible (v : Validator) (V : gset bytes) (d : TransactionDetails) : Prop := {
  el_era : wrong_era c v (tx d) = false;
  el_fee : v_check_tx_fee v (tx d) = true;
  el_account : isAccountAlreadyRegisteredOnChain sha3_256 v (tx d) = false;
  el_ready : id d ∈ V \/ exists u f, is_transaction_ready_to_go v (tx d) (maxUsedBlock d) (lastFailedBlock d) = (true, u, f)
}.

Definition all_images (l : list TransactionDetails) : list bytes := concat (map (fun d => images sha3_256 (tx d)) l).
Definition all_registrations (l : list TransactionDetails) : list bytes := omap (fun d => registration sha3_256 (tx d)) l.
Definition total_size (l : list TransactionDetails) : Z := total (map blobSize l).
Definition total_fee (l : list TransactionDetails) : Z := total (map fee l).
Definition free_count (l : list TransactionDetails) : Z := Z.of_nat (length (List.filter (fun d => is_free_reg (tx d)) l)).

(** The bound a transaction is taken under: free ones only fill up to the median. *)
Definition size_limit (median_size max_total_size : Z) (d : TransactionDetails) : Z :=
  if fee d =? 0 then median_size else max_total_size.

(** The state of the loop after the entries [seen], of which it took [chosen]. *)
Record filled (v : Validator) (V : gset bytes) (median_size max_total_size : Z)
  (seen chosen : list TransactionDetails) (f : Filling) : Prop := {
  fl_sub : chosen `sublist_of` seen;
  fl_hashes : t_txHashes (f_template f) = map id chosen;
  fl_images : t_keyImages (f_template f) = list_to_set (all_images chosen);
  fl_regs : t_registrations (f_template f) = list_to_set (all_registrations chosen);
  fl_count : t_freeRegCount (f_template f) = free_count chosen;
  fl_nodup : NoDup (all_images chosen);
  fl_nodup_regs : NoDup (all_registrations chosen);
  fl_free : free_count chosen <= parameters.FREE_REG_PER_BLOCK;
  fl_size : f_total_size f = total_size chosen;
  fl_limits : forall a d b, chosen = a ++ d :: b -> total_size (a ++ [d]) <= size_limit median_size max_total_size d;
  fl_fee : f_fee f = w64 (total_fee chosen);
  fl_eligible : Forall (eligible v V) chosen;
  fl_validated : forall i, i ∈ f_validated f -> i ∈ V \/ exists d, d ∈ seen /\ id d = i /\ fully sha3_256 d = true
}.

#[local] Arguments fl_images {v V median_size max_total_size seen chosen f}.
#[local] Arguments fl_regs {v V median_size max_total_size seen chosen f}.
#[local] Arguments fl_count {v V median_size max_total_size seen chosen f}.
#[local] Arguments fl_size {v V median_size max_total_size seen chosen f}.
#[local] Arguments fl_hashes {v V median_size max_total_size seen chosen f}.
#[local] Arguments fl_free {v V median_size max_total_size seen chosen f}.
#[local] Arguments fl_limits {v V median_size max_total_size seen chosen f}.
#[local] Arguments fl_fee {v V median_size max_total_size seen chosen f}.
#[local] Arguments fl_eligible {v V median_size max_total_size seen chosen f}.
#[local] Arguments fl_sub {v V median_size max_total_size seen chosen f}.

Lemma canAdd_spec bt t : canAdd sha3_256 bt t = true ->
  (forall k, k ∈ images sha3_256 t -> k ∉ t_keyImages bt) /\
  (forall a, registration sha3_256 t = Some a -> a ∉ t_registrations bt) /\
  (is_free_reg t = true -> t_freeRegCount bt < parameters.FREE_REG_PER_BLOCK).
Proof.
  unfold canAdd. rewrite !andb_true_iff, !negb_true_iff. intros [[H1 H2] H3]. split; [|split].
  - intros k Hk Hin. unfold images in Hk. apply list_elem_of_omap in Hk as (x & Hx & E).
    assert (T : existsb (fun x => match spendImageForInput sha3_256 x with Some img => bool_decide (img ∈ t_keyImages bt) | None => false end)
      (inputs (prefix t)) = true); [|congruence].
    apply existsb_exists. exists x. split; [now apply list_elem_of_In|]. rewrite E. now apply bool_decide_eq_true_2.
  - intros a E. rewrite E in H2. now apply bool_decide_eq_false in H2.
  - intros E. rewrite E in H3. cbn [andb] in H3. bprop. lia.
Qed.

Lemma all_images_snoc l d : all_images (l ++ [d]) = all_images l ++ images sha3_256 (tx d).
Proof. unfold all_images. rewrite map_app, concat_app. cbn. now rewrite app_nil_r. Qed.

Lemma all_registrations_snoc l d : all_registrations (l ++ [d]) = all_registrations l ++ option_list (registration sha3_256 (tx d)).
Proof. unfold all_registrations. rewrite omap_app. f_equal. Qed.

Lemma free_count_snoc l d : free_count (l ++ [d]) = if is_free_reg (tx d) then free_count l + 1 else free_count l.
Proof. unfold free_count. rewrite List.filter_app, length_app. cbn [List.filter]. destruct (is_free_reg (tx d)); cbn [length]; lia. Qed.

Lemma total_size_snoc l d : total_size (l ++ [d]) = total_size l + blobSize d.
Proof. unfold total_size. rewrite map_app, total_app. cbn. lia. Qed.

Lemma total_fee_snoc l d : total_fee (l ++ [d]) = total_fee l + fee d.
Proof. unfold total_fee. rewrite map_app, total_app. cbn. lia. Qed.

(** Taking one more. *)
Lemma filled_take v V median max seen chosen f d validated bt :
  filled v V median max seen chosen f -> eligible v V d -> NoDup (images sha3_256 (tx d)) -> addTransaction sha3_256 (f_template f) (id d) (tx d) = Some bt ->
  f_total_size f + blobSize d < 2 ^ 64 -> 0 <= f_total_size f + blobSize d <= size_limit median max d ->
  (forall i, i ∈ validated -> i ∈ f_validated f \/ (i = id d /\ fully sha3_256 d = true)) ->
  filled v V median max (seen ++ [d]) (chosen ++ [d])
    (mkFilling bt (w64 (f_total_size f + blobSize d)) (w64 (f_fee f + fee d)) validated).
Proof.
  intros F E N A W L HV. unfold addTransaction in A. destruct (canAdd _ _ _) eqn:C; [|discriminate]. injection A as <-.
  apply canAdd_spec in C as (C1 & C2 & C3). rewrite (fl_images F) in C1. rewrite (fl_regs F) in C2.
  rewrite (fl_count F) in C3. pose proof (fl_size F) as Sz.
  assert (At : total_size (chosen ++ [d]) = f_total_size f + blobSize d) by (rewrite Sz; apply total_size_snoc).
  constructor; cbn [f_template f_total_size f_fee f_validated t_txHashes t_keyImages t_registrations t_freeRegCount].
  - apply sublist_app; [apply F|reflexivity].
  - rewrite (fl_hashes F), map_app. reflexivity.
  - rewrite all_images_snoc, (fl_images F), list_to_set_app_L. apply union_comm_L.
  - rewrite all_registrations_snoc, (fl_regs F), list_to_set_app_L. apply union_comm_L.
  - rewrite free_count_snoc, (fl_count F). reflexivity.
  - rewrite all_images_snoc. apply NoDup_app. split; [apply F|]. split; [|exact N]. intros k H1 H2. apply (C1 k H2). now apply elem_of_list_to_set.
  - rewrite all_registrations_snoc. apply NoDup_app. split; [apply F|]. destruct (registration sha3_256 (tx d)) as [a|]; cbn; [|split; [set_solver|constructor]].
    split; [|apply NoDup_singleton]. intros k H1 H2. apply list_elem_of_singleton in H2 as ->. apply (C2 a eq_refl). now apply elem_of_list_to_set.
  - rewrite free_count_snoc. pose proof (fl_free F). destruct (is_free_reg (tx d)); [specialize (C3 eq_refl); lia|assumption].
  - rewrite At. apply wrap_small. unfold in_w. lia.
  - intros a x b Eq. destruct b as [|y b _] using rev_ind.
    + apply app_inj_tail in Eq as [<- <-]. now rewrite At.
    + rewrite app_comm_cons, app_assoc in Eq. apply app_inj_tail in Eq as [-> _]. now apply (fl_limits F a x b).
  - rewrite (fl_fee F). rewrite total_fee_snoc. unfold wrap. now rewrite Zplus_mod_idemp_l.
  - apply Forall_app. split; [apply F|now constructor].
  - intros i Hi. apply HV in Hi as [Hi|[-> Hd]]; [|right; exists d; set_solver].
    apply F in Hi as [Hi|(x & Hx & R)]; [now left|right; exists x; set_solver].
Qed.

Lemma filled_skip v V median max seen chosen f d validated :
  filled v V median max seen chosen f ->
  (forall i, i ∈ validated -> i ∈ f_validated f \/ (i = id d /\ fully sha3_256 d = true)) ->
  filled v V median max (seen ++ [d]) chosen (mkFilling (f_template f) (f_total_size f) (f_fee f) validated).
Proof.
  intros [] HV. constructor; cbn [f_template f_total_size f_fee f_validated]; try assumption.
  - now apply sublist_inserts_r.
  - intros i Hi. apply HV in Hi as [Hi|[-> Hd]]; [|right; exists d; set_solver].
    apply fl_validated0 in Hi as [Hi|(x & Hx & R)]; [now left|right; exists x; set_solver].
Qed.

Section Filling.
Variable v : Validator.
Context {laws : ValidatorLaws sha3_256 v}.
Variable V : gset bytes.
Variables median_size max_total_size : Z.
Hypothesis median_fits : median_size < 2 ^ 63.
Hypothesis max_fits : max_total_size < 2 ^ 63.

(** An entry the loop can meet. *)
Definition fillable (d : TransactionDetails) : Prop :=
  0 < blobSize d < 2 ^ 63 /\ typed_inputs d /\ (id d ∈ V -> fully sha3_256 d = true).

Lemma ready_fully d u f u' f' : typed_inputs d -> is_transaction_ready_to_go v (tx d) u f = (true, u', f') -> fully sha3_256 d = true.
Proof.
  intros T H. unfold is_transaction_ready_to_go in H. destruct (v_checkTransactionInputsCached v (tx d) u f) as [[ok x] y] eqn:E.
  injection H as H _ _. apply andb_true_iff in H as [-> _]. apply nodup_fully, (law_cached _ _ _ _ _ T E).
Qed.

Lemma filled_total seen chosen f : filled v V median_size max_total_size seen chosen f -> Forall fillable seen ->
  0 <= f_total_size f < 2 ^ 63.
Proof.
  intros F S. rewrite (fl_size F). split.
  - pose proof (fl_sub F) as Sub. assert (P : Forall (fun d => 0 < blobSize d) chosen).
    { apply List.Forall_forall. intros d Hd. rewrite List.Forall_forall in S. apply list_elem_of_In in Hd.
      apply S, list_elem_of_In, (elem_of_sublist _ _ _ Hd Sub). }
    clear -P. unfold total_size, total. induction P; cbn; lia.
  - destruct chosen as [|d ch _] using rev_ind; [reflexivity|]. pose proof (fl_limits F ch d [] eq_refl) as L.
    unfold size_limit in L. destruct (fee d =? 0); lia.
Qed.

Lemma fill_one_filled seen chosen f d : filled v V median_size max_total_size seen chosen f -> Forall fillable seen ->
  fillable d -> id d ∉ map id seen ->
  let '(d', f') := fill_one sha3_256 c v median_size max_total_size d f in
  recheck d d' /\ exists chosen', filled v V median_size max_total_size (seen ++ [d]) chosen' f'.
Proof.
  intros F S (Hb & Ht & Hv) Hid. pose proof (filled_total _ _ _ F S) as Ft. unfold fill_one.
  assert (Skip : filled v V median_size max_total_size (seen ++ [d]) chosen f).
  { destruct f. apply (filled_skip _ _ _ _ _ _ _ d _ F). auto. }
  assert (W : w64 (f_total_size f + blobSize d) = f_total_size f + blobSize d) by (apply wrap_small; unfold in_w; lia).
  destruct (wrong_era c v (tx d)) eqn:E1; [split; [apply recheck_refl|eauto]|].
  destruct (_ <? _) eqn:E2; [split; [apply recheck_refl|eauto]|]. rewrite W in E2.
  destruct (v_check_tx_fee v (tx d)) eqn:E3; [|split; [apply recheck_refl|eauto]]. cbn [negb].
  destruct (isAccountAlreadyRegisteredOnChain sha3_256 v (tx d)) eqn:E4; [split; [apply recheck_refl|eauto]|].
  assert (Take : forall bt validated, addTransaction sha3_256 (f_template f) (id d) (tx d) = Some bt -> fully sha3_256 d = true ->
    (id d ∈ V \/ exists u x, is_transaction_ready_to_go v (tx d) (maxUsedBlock d) (lastFailedBlock d) = (true, u, x)) ->
    (forall i, i ∈ validated -> i ∈ f_validated f \/ (i = id d /\ fully sha3_256 d = true)) ->
    filled v V median_size max_total_size (seen ++ [d]) (chosen ++ [d])
      (mkFilling bt (w64 (f_total_size f + blobSize d)) (w64 (f_fee f + fee d)) validated)).
  { intros bt val A Fd R HV. apply filled_take; try assumption; [now constructor|now apply fully_nodup|lia|].
    bprop. unfold size_limit. lia. }
  destruct (bool_decide (id d ∈ f_validated f)) eqn:E5.
  - apply bool_decide_eq_true in E5. assert (Hin : id d ∈ V).
    { apply (fl_validated _ _ _ _ _ _ _ F) in E5 as [H|(x & Hx & E & _)]; [exact H|]. exfalso. apply Hid, elem_of_ids. eauto. }
    destruct (addTransaction _ _ _ _) as [bt|] eqn:A; (split; [reflexivity|]); [exists (chosen ++ [d]); apply Take; auto|].
    exists chosen. apply (filled_skip _ _ _ _ _ _ _ d _ F). auto.
  - destruct (is_transaction_ready_to_go _ _ _ _) as [[ok u] x] eqn:R. destruct ok.
    + pose proof (ready_fully d _ _ _ _ Ht R) as Fd.
      assert (HV : forall i, i ∈ {[id d]} ∪ f_validated f -> i ∈ f_validated f \/ (i = id d /\ fully sha3_256 d = true)) by set_solver.
      destruct (addTransaction _ _ _ _) as [bt|] eqn:A; (split; [reflexivity|]); [exists (chosen ++ [d]); apply Take; eauto|].
      exists chosen. apply (filled_skip _ _ _ _ _ _ _ d _ F HV).
    + split; [reflexivity|]. exists chosen. apply (filled_skip _ _ _ _ _ _ _ d _ F). auto.
Qed.

Lemma fill_loop_filled l : forall seen chosen f, filled v V median_size max_total_size seen chosen f -> Forall fillable seen ->
  Forall fillable l -> NoDup (map id (seen ++ l)) ->
  let '(l', f') := fill_loop sha3_256 c v median_size max_total_size l f in
  Forall2 recheck l l' /\ exists chosen', filled v V median_size max_total_size (seen ++ l) chosen' f'.
Proof.
  induction l as [|d l IH]; intros seen chosen f F S Hl N; cbn [fill_loop].
  - split; [constructor|]. exists chosen. now rewrite app_nil_r.
  - inversion_clear Hl as [|? ? Hd Hl'].
    assert (Hid : id d ∉ map id seen).
    { rewrite map_app in N. apply NoDup_app in N as (_ & N & _). intros H. apply (N _ H). cbn. left. }
    pose proof (fill_one_filled seen chosen f d F S Hd Hid) as H1. destruct (fill_one _ _ _ _ _ _ _) as [d' f'].
    destruct H1 as (R & chosen' & F'). specialize (IH (seen ++ [d]) chosen' f' F').
    destruct (fill_loop _ _ _ _ _ _ _) as [l' f'']. rewrite <- app_assoc in IH. cbn [app] in IH.
    destruct IH as (R' & X); [apply Forall_app; split; [exact S|now constructor]|exact Hl'|exact N|].
    split; [now constructor|exact X].
Qed.
End Filling.

Lemma empty_filled v V median max : filled v V median max [] [] (mkFilling empty_template 0 0 V).
Proof.
  constructor; cbn; try reflexivity; try constructor; try set_solver; try (vm_compute; discriminate).
  intros a d b E. destruct a; discriminate.
Qed.

Lemma good_fillable p d : good p -> d ∈ m_transactions p -> fillable (m_validated_transactions p) d.
Proof.
  intros [K P] Hd. pose proof (pk_entries _ _ K) as E. pose proof (pk_typed _ _ K) as T. rewrite List.Forall_forall in E, T.
  pose proof Hd as Hl. apply list_elem_of_In in Hl. split; [apply E, Hl|]. split; [apply T, Hl|].
  intros H. apply K in H as (x & Hx & Ex & F). pose proof (pk_ids _ _ K) as N.
  assert (x = d); [|now subst]. apply list_elem_of_lookup in Hd as [n Hn], Hx as [m Hm].
  assert (m = n); [|congruence]. apply (NoDup_lookup _ m n (id d) N); rewrite list_lookup_fmap.
  - now rewrite Hm; cbn; rewrite Ex.
  - now rewrite Hn.
Qed.

(** Arguments for which the limits of a template are exact. *)
Definition template_limit (median_size maxCumulativeSize : Z) : Z :=
  Z.min (125 * median_size / 100) maxCumulativeSize - minerTxBlobReservedSize c.
Definition template_args (median_size maxCumulativeSize : Z) : Prop :=
  0 <= median_size < 2 ^ 56 /\ 0 <= template_limit median_size maxCumulativeSize < 2 ^ 63.

Lemma template_limit_exact median maxc : template_args median maxc ->
  w64 (Z.min (w64 (125 * median) / 100) maxc - minerTxBlobReservedSize c) = template_limit median maxc.
Proof.
  intros [M L]. unfold template_limit in *. rewrite (wrap_small 64 (125 * median)) by (unfold in_w; lia).
  apply wrap_small. unfold in_w. lia.
Qed.

Lemma fill_block_template_spec v median maxc p : ValidatorLaws sha3_256 v -> template_args median maxc -> good p ->
  let '(hashes, size, fee, q) := fill_block_template sha3_256 c v median maxc p in
  good q /\ exists chosen f, filled v (m_validated_transactions p) median (template_limit median maxc) (m_transactions p) chosen f /\
    hashes = t_txHashes (f_template f) /\ size = f_total_size f /\ fee = f_fee f.
Proof.
  intros L A G. unfold fill_block_template. cbv zeta. rewrite template_limit_exact by exact A.
  pose proof (fill_loop_filled v (m_validated_transactions p) median (template_limit median maxc)
    ltac:(destruct A; lia) ltac:(destruct A; lia) (m_transactions p) [] [] _ (empty_filled _ _ _ _)) as H.
  destruct (fill_loop _ _ _ _ _ _ _) as [l f]. destruct H as (R & chosen & F).
  - constructor.
  - apply List.Forall_forall. intros d Hd. apply good_fillable; [exact G|]. now apply list_elem_of_In.
  - apply G.
  - split; [|exists chosen, f; auto]. apply recheck_good; [exact G|exact R|]. intros i Hi.
    apply (fl_validated _ _ _ _ _ _ _ F) in Hi as [Hi|Hi]; [|exact Hi]. now apply G.
Qed.

(** A template changes nothing of the entries but their check information. *)
Lemma fill_recheck v median maxc p : let '(_, _, _, q) := fill_block_template sha3_256 c v median maxc p in
  Forall2 recheck (m_transactions p) (m_transactions q).
Proof.
  unfold fill_block_template. cbv zeta. generalize (mkFilling empty_template 0 0 (m_validated_transactions p)).
  generalize (w64 (Z.min (w64 (125 * median) / 100) maxc - minerTxBlobReservedSize c)). intros mx f.
  destruct (fill_loop _ _ _ _ _ _ _) as [l f'] eqn:E. cbn [m_transactions set_validated set_transactions].
  revert f l f' E. induction (m_transactions p) as [|d r IH]; intros f l f' E; cbn [fill_loop] in E; [injection E as <- <-; constructor|].
  assert (X : recheck d (fst (fill_one sha3_256 c v median mx d f))).
  { unfold fill_one. destruct (wrong_era _ _ _); [apply recheck_refl|]. destruct (_ <? _); [apply recheck_refl|].
    destruct (negb _); [apply recheck_refl|]. destruct (isAccountAlreadyRegisteredOnChain _ _ _); [apply recheck_refl|].
    destruct (if bool_decide (id d ∈ f_validated f) then _ else _) as [[[ready u] x] val].
    destruct (if ready then _ else _); reflexivity. }
  destruct (fill_one _ _ _ _ _ d f) as [d' f1]. destruct (fill_loop _ _ _ _ _ r f1) as [l1 f2] eqn:E1. injection E as <- <-.
  constructor; [exact X|exact (IH f1 l1 f2 E1)].
Qed.

Lemma ready_loop_validated v l : ValidatorLaws sha3_256 v -> Forall typed_inputs l -> forall ready validated i,
  i ∈ snd (ready_loop c v l ready validated) ->
  i ∈ validated \/ exists d, d ∈ l /\ id d = i /\ fully sha3_256 d = true.
Proof.
  intros L. induction 1 as [|d l T _ IH]; intros ready validated i; cbn [ready_loop]; [now left|].
  assert (Up : i ∈ validated \/ (exists d, d ∈ l /\ id d = i /\ fully sha3_256 d = true) ->
    i ∈ validated \/ exists x, x ∈ d :: l /\ id x = i /\ fully sha3_256 x = true) by set_solver.
  destruct (wrong_era c v (tx d)); [intros H; apply Up, (IH _ _ _ H)|].
  case_bool_decide; [intros X; apply Up, (IH _ _ _ X)|].
  destruct (is_transaction_ready_to_go _ _ _ _) as [[ok u] f] eqn:R. cbn [fst]. destruct ok; [|intros X; apply Up, (IH _ _ _ X)].
  intros X. apply IH in X as [X|X]; [|apply Up; now right]. apply elem_of_union in X as [X|X]; [|now left].
  apply elem_of_singleton in X as ->. right. exists d. split; [left|]. split; [reflexivity|].
  exact (ready_fully v d _ _ _ _ T R).
Qed.

Lemma difference_good v known p : ValidatorLaws sha3_256 v -> good p -> good (snd (get_difference c v known p)).
Proof.
  intros L G. unfold get_difference. destruct (ready_loop _ _ _ _ _) as [ready validated] eqn:E. cbn [snd].
  replace p with (set_transactions p (m_transactions p)) by (now destruct p). apply recheck_good; [exact G| |].
  - clear. induction (m_transactions p); constructor; [apply recheck_refl|assumption].
  - intros i Hi. destruct G as [K P]. pose proof (ready_loop_validated v (m_transactions p) L (pk_typed _ _ K) ∅ (m_validated_transactions p) i) as H.
    rewrite E in H. apply H in Hi as [Hi|Hi]; [|exact Hi]. now apply K.
Qed.

Lemma change_good p : good p -> good (on_blockchain_change p).
Proof.
  intros [K P]. unfold on_blockchain_change. split.
  - destruct K. constructor; cbn in *; try assumption. set_solver.
  - destruct P. constructor; assumption.
Qed.
End Operations.

(** ** Runs of the pool

    [op_chain_changed] is [on_blockchain_inc] and [on_blockchain_dec], which the
    pool offers; no other code of the repository calls them. *)

Inductive pool_op :=
| op_add (v : Validator) (now : Z) (t : Transaction) (i : bytes) (size : Z) (kept : bool)
| op_take (i : bytes)
| op_expire (now : Z)
| op_stale (v : Validator)
| op_difference (v : Validator) (known : list bytes)
| op_template (v : Validator) (median_size maxCumulativeSize : Z)
| op_chain_changed.

Section Runs.
Variable sha3_256 : bytes -> bytes.
Variable cn_fast_hash : bytes -> bytes.
Variable c : Currency.

Definition run_op (p : Pool) (op : pool_op) : Pool :=
  match op with
  | op_add v now t i size kept => snd (add_tx sha3_256 cn_fast_hash c v now t i size kept p)
  | op_take i => snd (take_tx sha3_256 cn_fast_hash i p)
  | op_expire now => removeExpiredTransactions sha3_256 cn_fast_hash c now p
  | op_stale v => removeStaleAccountRegistrations sha3_256 cn_fast_hash v p
  | op_difference v known => snd (get_difference c v known p)
  | op_template v median maxc => snd (fill_block_template sha3_256 c v median maxc p)
  | op_chain_changed => on_blockchain_change p
  end.

Definition lawful_op (op : pool_op) : Prop :=
  match op with
  | op_add v _ _ _ size _ => ValidatorLaws sha3_256 v /\ 0 < size < 2 ^ 63
  | op_difference v _ => ValidatorLaws sha3_256 v
  | op_template v median maxc => ValidatorLaws sha3_256 v /\ template_args c median maxc
  | _ => True
  end.

Abbreviation good := (good sha3_256 c).

Lemma run_op_good p op : lawful_op op -> good p -> good (run_op p op).
Proof.
  intros L G. destruct op; cbn [run_op lawful_op] in *.
  - destruct L. now apply add_tx_good.
  - now apply take_good.
  - now apply expiry_good.
  - now apply removal_good.
  - now apply difference_good.
  - destruct L as [L A]. pose proof (fill_block_template_spec sha3_256 cn_fast_hash c v median_size maxCumulativeSize p L A G) as H.
    destruct (fill_block_template _ _ _ _ _ _) as [[[h sz] fe] q]. apply H.
  - now apply change_good.
Qed.

Lemma run_ops_good ops p : Forall lawful_op ops -> good p -> good (fold_left run_op ops p).
Proof. intros L. revert p. induction L as [|op ops H _ IH]; intros p G; cbn; [exact G|]. now apply IH, run_op_good. Qed.

Lemma empty_good : 0 <= freeRegPoolLimit c -> good empty_pool.
Proof.
  intros H. split; [apply empty_pool_ok|]. constructor; cbn; [intros d Hd; inversion Hd|intros d e Hd; inversion Hd|exact H].
Qed.
End Runs.

(** ** Samples *)

Definition sample_validator (db : Db) : Validator :=
  chain_validator sample_sha3 sample_sha3 sample_verify (fun d _ => Some d) mainnet (repeat (b8 0) 32) ∅ db no_proofs 1000000.
Definition sample_txid : bytes := repeat (b8 77) 32.

Lemma spent_input_refused sha3_256 dsa_verify c genesis db t k : InPq k ∈ inputs (prefix t) ->
  hasSpentKey db (pqNullifier sha3_256 k) = true -> checkPqInputs sha3_256 dsa_verify c genesis db t = None.
Proof.
  intros Hk Hs. unfold checkPqInputs. destruct (negb _); [reflexivity|].
  replace (existsb _ _) with true; [reflexivity|]. symmetry. apply existsb_exists. exists k. split; [|exact Hs].
  apply list_elem_of_In, list_elem_of_omap. eauto.
Qed.

Lemma spent_transfer_refused sha3_256 cn_fast_hash dsa_verify y_slow_hash c genesis cps db pr limit t k :
  isPqTransfer (txType (prefix t)) = true -> InPq k ∈ inputs (prefix t) -> hasSpentKey db (pqNullifier sha3_256 k) = true ->
  v_checkTransactionInputs (chain_validator sha3_256 cn_fast_hash dsa_verify y_slow_hash c genesis cps db pr limit) t = None.
Proof.
  intros T Hk Hs. cbn [v_checkTransactionInputs chain_validator]. unfold checkTransactionInputs_block, check_at_tip, checkTransactionInputs.
  rewrite T. destruct (negb (version _ =? _)); [reflexivity|]. destruct (_ && isPqAccountAlreadyRegistered _ _ _); [reflexivity|].
  destruct (negb _); [reflexivity|]. cbn [fst]. now rewrite (spent_input_refused _ _ _ _ _ _ k Hk Hs).
Qed.

(** A coinbase made for no fees is refused in a block that charges some. *)
Lemma underpaid_coinbase_refused net sha3_256 db b height size gen F pub nonce :
  let c := CurrencyBuilder net in
  let median := medianValue (get_last_n_blocks_sizes db (rewardBlocksWindow c)) in
  0 < height -> in_w 64 gen -> 0 <= median < 2 ^ 32 -> 0 <= size <= Z.max median 1000000 -> 0 < F < 2 ^ 63 - 2 ^ 40 ->
  constructMinerTxPq sha3_256 c (getBlockMajorVersionForHeight c height) height median gen size 0 pub nonce = Some (baseTransaction b) ->
  validate_miner_transaction c db b height size gen F = None.
Proof.
  intros c median Hh Hg Hm Hs HF H. unfold constructMinerTxPq in H. unfold validate_miner_transaction.
  rewrite (proj2 (Z.eqb_neq height 0)) by lia. fold median.
  assert (R : forall f, 0 <= f < 2 ^ 63 - 2 ^ 40 -> exists e,
    getBlockReward c (getBlockMajorVersionForHeight c height) median size gen f = Some (calculateReward c gen + f, e)).
  { intros f Hf. unfold c at 1. rewrite getBlockReward_spec by (unfold in_w in *; lia). rewrite (proj2 (Z.ltb_ge _ size)) by lia.
    unfold penalized. rewrite !(proj2 (Z.leb_le size _)) by lia. eauto. }
  destruct (R 0 ltac:(lia)) as [e0 E0], (R F ltac:(lia)) as [e E]. rewrite E0 in H. rewrite E. injection H as H.
  assert (Ha : getOutputAmount (baseTransaction b) = calculateReward c gen).
  { rewrite getOutputAmount_sum, <- H. cbn [prefix outputs map amount]. unfold total. cbn [fold_right].
    rewrite !Z.add_0_r. apply wrap_small. pose proof (calculateReward_range net gen Hg) as B. fold c in B.
    unfold in_w in *. dmlia. }
  rewrite Ha, (proj2 (Z.ltb_ge _ (calculateReward c gen))) by lia. now rewrite (proj2 (Z.ltb_lt _ _)) by lia.
Qed.

(** For a transaction found ready before, the answers of the validator on its
    inputs are not asked for again. *)
Lemma fill_loop_cached sha3_256 c v v' median max l : v_getCurrentBlockchainHeight v = v_getCurrentBlockchainHeight v' ->
  (forall t, v_check_tx_fee v t = v_check_tx_fee v' t) -> (forall a, v_getPqAccountNumber v a = v_getPqAccountNumber v' a) ->
  forall f, Forall (fun d => id d ∈ f_validated f) l ->
  fill_loop sha3_256 c v median max l f = fill_loop sha3_256 c v' median max l f.
Proof.
  intros Hh Hf Ha. induction l as [|d l IH]; intros f F; cbn [fill_loop]; [reflexivity|]. inversion_clear F as [|? ? Hd Hl].
  assert (E : fill_one sha3_256 c v median max d f = fill_one sha3_256 c v' median max d f /\
              f_validated (snd (fill_one sha3_256 c v' median max d f)) = f_validated f).
  { unfold fill_one, wrong_era, isAccountAlreadyRegisteredOnChain. rewrite <- Hh, <- Hf, (bool_decide_eq_true_2 _ Hd).
    replace (match registration sha3_256 (tx d) with Some a => is_some (v_getPqAccountNumber v' a) | None => false end)
      with (match registration sha3_256 (tx d) with Some a => is_some (v_getPqAccountNumber v a) | None => false end)
      by (destruct (registration sha3_256 (tx d)); [now rewrite Ha|reflexivity]).
    destruct (_ && negb _); [split; reflexivity|]. destruct (_ <? _); [split; reflexivity|]. destruct (negb _); [split; reflexivity|].
    destruct (match registration _ _ with Some _ => _ | None => _ end); [split; reflexivity|]. cbv beta iota.
    destruct (addTransaction _ _ _ _); split; reflexivity. }
  destruct E as [E V]. rewrite E. destruct (fill_one sha3_256 c v' median max d f) as [d' f']. cbn [snd] in V.
  rewrite (IH f'); [reflexivity|]. now rewrite V.
Qed.

(** ** Properties *)

(** C16: The pool stays consistent under every sequence of its operations, with any
    lawful views of the chain between them: ids are unique, entries are in fee
    order, the nullifier and registration indices hold exactly what the pooled
    transactions spend and register, and the counter of free registrations is
    exact. Of the transactions that no block has carried, none spends a nullifier
    twice, no two share a nullifier or a registered account, and the free
    registrations are within their cap. *)
Theorem pool_invariant sha3_256 cn_fast_hash c ops : 0 <= freeRegPoolLimit c -> Forall (lawful_op sha3_256 c) ops ->
  pool_ok sha3_256 (fold_left (run_op sha3_256 cn_fast_hash c) ops empty_pool) /\
  pool_policy sha3_256 c (fold_left (run_op sha3_256 cn_fast_hash c) ops empty_pool).
Proof. intros H L. apply run_ops_good; [exact L|now apply empty_good]. Qed.

Lemma sample_args : template_args mainnet 1000000 2000000.
Proof. vm_compute. repeat split; discriminate. Qed.

Definition sample_ops : list pool_op :=
  [op_add (sample_validator sample_chain) 5 sample_transfer sample_txid 9000 false;
   op_difference (sample_validator sample_chain) [];
   op_template (sample_validator sample_chain) 1000000 2000000;
   op_chain_changed;
   op_expire 7].

Lemma pool_invariant_witness :
  let q := fold_left (run_op sample_sha3 sample_sha3 mainnet) sample_ops empty_pool in
  map id (m_transactions q) = [sample_txid] /\
  pool_ok sample_sha3 (fold_left (run_op sample_sha3 sample_sha3 mainnet) sample_ops empty_pool) /\
  pool_policy sample_sha3 mainnet (fold_left (run_op sample_sha3 sample_sha3 mainnet) sample_ops empty_pool).
Proof.
  split; [vm_compute; reflexivity|]. apply (pool_invariant sample_sha3 sample_sha3 mainnet sample_ops); [vm_compute; discriminate|].
  repeat apply Forall_cons_2; try apply Forall_nil_2; try exact I.
  - split; [apply chain_validator_laws|lia].
  - apply chain_validator_laws.
  - split; [apply chain_validator_laws|exact sample_args].
Defined.

(** C17: A block template is a selection of the pool in fee order that a block can
    carry: the listed hashes are those of the chosen entries, which spend pairwise
    different nullifiers, register pairwise different accounts, hold at most the
    allowed free registrations, and each of which is of the delivery era, pays
    enough, registers no account of the chain and has been found ready. The size
    reported is their exact total, with every transaction taken within its limit
    (the median for a free one, the block limit for others); the fee reported is
    the sum of the recorded fees. *)
Theorem template_sound sha3_256 (cn_fast_hash : bytes -> bytes) c v median maxc p :
  ValidatorLaws sha3_256 v -> template_args c median maxc -> pool_ok sha3_256 p -> pool_policy sha3_256 c p ->
  let '(hashes, size, fee, q) := fill_block_template sha3_256 c v median maxc p in
  exists chosen, chosen `sublist_of` m_transactions p /\ hashes = map id chosen /\
    NoDup (all_images sha3_256 chosen) /\ NoDup (all_registrations sha3_256 chosen) /\
    free_count chosen <= parameters.FREE_REG_PER_BLOCK /\ size = total_size chosen /\
    (forall a d b, chosen = a ++ d :: b -> total_size (a ++ [d]) <= size_limit median (template_limit c median maxc) d) /\
    fee = w64 (total_fee chosen) /\ Forall (eligible sha3_256 c v (m_validated_transactions p)) chosen.
Proof.
  intros L A K P. pose proof (fill_block_template_spec sha3_256 cn_fast_hash c v median maxc p L A (conj K P)) as H.
  destruct (fill_block_template _ _ _ _ _ _) as [[[h sz] fe] q]. destruct H as (_ & chosen & f & [] & -> & -> & ->).
  exists chosen. auto 10.
Qed.

Definition sample_pool : Pool := fold_left (run_op sample_sha3 sample_sha3 mainnet) (firstn 1 sample_ops) empty_pool.

Lemma template_sound_witness :
  fst (fill_block_template sample_sha3 mainnet (sample_validator sample_chain) 1000000 2000000 sample_pool) = ([sample_txid], 9000, 10) /\
  let '(hashes, size, fee, q) := fill_block_template sample_sha3 mainnet (sample_validator sample_chain) 1000000 2000000 sample_pool in
  exists chosen, chosen `sublist_of` m_transactions sample_pool /\ hashes = map id chosen /\
    NoDup (all_images sample_sha3 chosen) /\ NoDup (all_registrations sample_sha3 chosen) /\
    free_count chosen <= parameters.FREE_REG_PER_BLOCK /\ size = total_size chosen /\
    (forall a d b, chosen = a ++ d :: b -> total_size (a ++ [d]) <= size_limit 1000000 (template_limit mainnet 1000000 2000000) d) /\
    fee = w64 (total_fee chosen) /\ Forall (eligible sample_sha3 mainnet (sample_validator sample_chain) (m_validated_transactions sample_pool)) chosen.
Proof.
  assert (G : good sample_sha3 mainnet sample_pool).
  { apply run_ops_good; [|apply empty_good; vm_compute; discriminate]. constructor; [|constructor]. split; [apply chain_validator_laws|lia]. }
  split; [vm_compute; reflexivity|].
  apply (template_sound sample_sha3 sample_sha3 mainnet (sample_validator sample_chain) 1000000 2000000 sample_pool);
    [apply chain_validator_laws|exact sample_args|apply G|apply G].
Defined.

(** [sample_chain] holding the nullifier of [sample_transfer]. *)
Definition sample_spent_chain : Db :=
  mkDb {[0 := zero_meta]} ∅ {[(0, 1) := stored sample_funding]} ∅ {[pqNullifier sample_sha3 sample_input := 0]} ∅
    {[repeat (b8 13) 32 := (0, 1)]} ∅ ∅ ∅.

(** C19: Once found ready, a pooled transaction is handed to miners whatever happens
    to the chain: when all pooled transactions are in the cache of validated ones,
    the template does not depend on what the chain says of their inputs, so a
    transfer whose nullifier a later block has spent stays in every template. *)
Theorem stale_ready_served sha3_256 c v v' median maxc p :
  Forall (fun d => id d ∈ m_validated_transactions p) (m_transactions p) ->
  v_getCurrentBlockchainHeight v = v_getCurrentBlockchainHeight v' ->
  (forall t, v_check_tx_fee v t = v_check_tx_fee v' t) -> (forall a, v_getPqAccountNumber v a = v_getPqAccountNumber v' a) ->
  fill_block_template sha3_256 c v median maxc p = fill_block_template sha3_256 c v' median maxc p.
Proof. intros F Hh Hf Ha. unfold fill_block_template. now rewrite (fill_loop_cached sha3_256 c v v' _ _ _ Hh Hf Ha). Qed.

(** The transfer is found ready on [sample_chain]; on [sample_spent_chain], where
    its nullifier is spent, the chain refuses it and the template still has it. *)
Definition sample_ready_pool : Pool := fold_left (run_op sample_sha3 sample_sha3 mainnet) (firstn 2 sample_ops) empty_pool.

Lemma stale_ready_served_witness :
  v_checkTransactionInputs (sample_validator sample_spent_chain) sample_transfer = None /\
  fst (fill_block_template sample_sha3 mainnet (sample_validator sample_chain) 1000000 2000000 sample_ready_pool) = ([sample_txid], 9000, 10) /\
  fill_block_template sample_sha3 mainnet (sample_validator sample_spent_chain) 1000000 2000000 sample_ready_pool =
  fill_block_template sample_sha3 mainnet (sample_validator sample_chain) 1000000 2000000 sample_ready_pool.
Proof.
  split; [vm_compute; reflexivity|]. split; [vm_compute; reflexivity|].
  apply (stale_ready_served sample_sha3 mainnet (sample_validator sample_spent_chain) (sample_validator sample_chain) 1000000 2000000 sample_ready_pool).
  - apply List.Forall_forall. intros d Hd. apply (bool_decide_eq_true_1 (id d ∈ m_validated_transactions sample_ready_pool)).
    revert d Hd. apply forallb_forall. vm_compute. reflexivity.
  - vm_compute. reflexivity.
  - intros t. reflexivity.
  - intros a. reflexivity.
Defined.
