(* ===== verification/Blockchain.v ===== *)
(** * The node's chain

    [Blockchain::pushBlock], [popBlock], [flushBatch] and [rollbackBlockchainTo]
    ([CryptoNoteCore/Blockchain.cpp]) over the database with its write-transaction
    stack, and [Core::check_tx_semantic] ([CryptoNoteCore/Core.cpp]), the admission
    check every transaction of a block has passed.

    Everything the code reads from outside (the clock, the failures of LMDB calls)
    is in a record [Env], one per call, so the theorems hold for every behaviour of
    the environment. *)

From Stdlib Require Import ZArith String List Lia Bool.
From stdpp Require Import countable gmap sets fin_maps.
From coqutil Require Import Byte Word.LittleEndianList.
From S2P Require Import Prelude Config Varint Wire Transaction IntUtil Currency Extra PqHash PqDerive PqValidation BlockFormat Db ChainStore Checkpoints ChainRules.
Import ListNotations.
Open Scope string_scope.
Open Scope list_scope.
Open Scope Z_scope.
Open Scope discrete_scope.
Import Serialization TransactionExtra PqValidation FormatUtils LMDBBlockchainDB ChainStore ChainRules.

(** ** Admission of a transaction: [Core::check_tx_semantic] *)

Module Core.
Section Semantic.
Variable sha3_256 : bytes -> bytes.

Fixpoint keyimages_diff_loop (ki : gset bytes) (ins : list TransactionInput) : bool :=
  match ins with
  | [] => true
  | InPq k :: ins =>
      let v := pqNullifier sha3_256 k in
      if bool_decide (v ∈ ki) then false else keyimages_diff_loop ({[v]} ∪ ki) ins
  | InBase _ :: ins => keyimages_diff_loop ki ins
  end.
Definition check_tx_inputs_keyimages_diff (tx : Transaction) : bool := keyimages_diff_loop ∅ (inputs (prefix tx)).

Definition check_tx_semantic (tx : Transaction) (keeped_by_block : bool) : bool :=
  let p := prefix tx in
  if TRANSACTION_VERSION_1 <=? version p then
    if isPqTransfer (txType p) then
      match checkPqTransactionSemantic tx with Ok _ => true | Err _ => false end
    else if txType p =? TX_FREE_REG then
      match checkFreeRegTransactionShape tx with
      | Err _ => false
      | Ok _ => keeped_by_block || isCanonicalFreeRegExtra (extra p)
      end
    else false
  else
    negb (Z.of_nat (length (inputs p)) =? 0) &&
    check_inputs_types_supported p &&
    match check_outs_valid p with Ok _ => true | Err _ => false end &&
    check_outs_overflow p &&
    negb (getInputAmount tx <? getOutputAmount tx) &&
    check_tx_inputs_keyimages_diff tx &&
    match getAccountRegistrationFromExtra (extra p) with
    | Some _ => isWellFormedAccountRegistration (extra p)
    | None => true
    end.

End Semantic.
End Core.

Module Blockchain.

Definition BATCH_SIZE : Z := 1000.

Record Node := mkNode {
  m_db : Store;
  m_batchCount : Z;
  m_batchFastMode : bool;
  m_freeRegProofs : ProofCaches;
  m_alternative_chains : gmap bytes BlockEntry;
  m_current_block_cumul_sz_limit : Z
}.

(** What one call sees of the world: the clock at its three readings, and which
    database calls fail. *)
Record Env := mkEnv {
  t_check : Z;                          (** [get_adjusted_time] *)
  t_begin : Z;                          (** [isSyncing] in [beginBatchIfNeeded] *)
  t_commit : Z;                         (** [isSyncing] in [commitBatchOrBlock] *)
  mdb_full : Db -> bool;
  grow_fails : option failure;          (** [growMapIfNeeded], [setFastSyncMode] *)
  begin_fails : option failure;         (** [beginWriteTxn] *)
  begin_nested_fails : option failure;
  commit_nested_fails : option failure;
  commit_fails : option failure;        (** [commitTxn] *)
  sync_fails : option failure;          (** the flush after a commit *)
  handler_sync_fails : bool;            (** [setFastSyncMode] in a catch clause *)
  resize_fails : bool                   (** [resizeMap] in a catch clause *)
}.

(** How a call ends. *)
Inductive verdict :=
| Added                  (** [true], [m_added_to_main_chain] *)
| VerificationFailed     (** [false], [m_verification_failed] *)
| NotAdded               (** [false] and no flag *)
| Escaped.               (** an exception leaves the function *)

(** ** Batches *)

Definition isSyncing (db : Db) (now : Z) : bool :=
  let h := getChainHeight db in
  if h =? 0 then false
  else match getBlockMeta db (h - 1) with
       | None => false
       | Some meta => (m_timestamp meta <? now) && (3600 <? now - m_timestamp meta)
       end.

Definition set_db (n : Node) (s : Store) : Node :=
  mkNode s (m_batchCount n) (m_batchFastMode n) (m_freeRegProofs n) (m_alternative_chains n) (m_current_block_cumul_sz_limit n).
Definition set_batch (n : Node) (count : Z) (fast : bool) : Node :=
  mkNode (m_db n) count fast (m_freeRegProofs n) (m_alternative_chains n) (m_current_block_cumul_sz_limit n).
Definition set_proofs (n : Node) (s : ProofCaches) : Node :=
  mkNode (m_db n) (m_batchCount n) (m_batchFastMode n) s (m_alternative_chains n) (m_current_block_cumul_sz_limit n).
Definition set_limit (n : Node) (l : Z) : Node :=
  mkNode (m_db n) (m_batchCount n) (m_batchFastMode n) (m_freeRegProofs n) (m_alternative_chains n) l.

(** A call that may throw, with the node it leaves. *)
Definition action : Type := option failure * Node.

Definition beginBatchIfNeeded (env : Env) (n : Node) : action :=
  if m_batchCount n =? 0 then
    match grow_fails env with
    | Some e => (Some e, n)
    | None =>
        let n := set_batch n (m_batchCount n) (isSyncing (current (m_db n)) (t_begin env)) in
        match begin_fails env with
        | Some e => (Some e, n)
        | None => (None, set_db n (beginWriteTxn (m_db n)))
        end
    end
  else (None, n).

Definition commitBatchOrBlock (env : Env) (forceSingle : bool) (n : Node) : action :=
  let n := set_batch n (m_batchCount n + 1) (m_batchFastMode n) in
  let syncing := isSyncing (current (m_db n)) (t_commit env) in
  if forceSingle || negb syncing || (BATCH_SIZE <=? m_batchCount n) then
    match commit_fails env with
    | Some e => (Some e, set_db n (abortTxn (m_db n)))
    | None =>
        let n := set_db (set_batch n 0 (m_batchFastMode n)) (commitTxn (m_db n)) in
        if m_batchFastMode n then
          match sync_fails env with
          | Some e => (Some e, n)
          | None => (None, if negb syncing then set_batch n (m_batchCount n) false else n)
          end
        else (None, n)
    end
  else (None, n).

(** [flushBatch]: the result, or the exception that leaves it. *)
Definition flushBatch (env : Env) (n : Node) : verdict * Node :=
  if m_batchCount n =? 0 then (Added, n)
  else
    match commit_fails env with
    | Some _ =>
        let n := set_batch (set_db n (abortTxn (m_db n))) 0 (m_batchFastMode n) in
        if m_batchFastMode n then
          if handler_sync_fails env then (Escaped, n) else (NotAdded, set_batch n 0 false)
        else (NotAdded, n)
    | None =>
        let n := set_batch (set_db n (commitTxn (m_db n))) 0 (m_batchFastMode n) in
        if m_batchFastMode n then
          match sync_fails env with
          | Some _ => (Escaped, n)
          | None => (Added, set_batch n 0 false)
          end
        else (Added, n)
    end.

(** ** [pushBlock] *)

Section Push.
Variable sha3_256 : bytes -> bytes.
Variable cn_fast_hash : bytes -> bytes.
Variable shake256 : bytes -> nat -> bytes.
Variable dsa_verify : bytes -> bytes -> bytes -> bool.
Variable yespower_discrete : bytes -> bytes -> bytes -> option bytes.
Variable y_slow_hash : bytes -> bytes -> option bytes.
Variable c : Currency.
Variable genesisBlockHash : bytes.
Variable m_checkpoints : Checkpoints.points.

Definition getTailId (db : Db) : bytes :=
  let h := getChainHeight db in
  if h =? 0 then NULL_HASH else m_hash (getBlockMeta_or_zero db (h - 1)).

(** The checks before the write section: the difficulty on success. The
    [parentBlock] is the block's member of that name, [proof] the proof-of-work
    hash when it was validated beforehand. *)
Definition check_header (env : Env) (db : Db) (alt : gmap bytes BlockEntry) (parentBlock : ParentBlock)
  (blockData : Block) (blockHash : bytes) (proof : option bytes) : result verdict Z :=
  check negb (bool_decide (is_Some (getHashHeight db blockHash))) else VerificationFailed ;;
  check checkBlockVersion c blockData else VerificationFailed ;;
  check checkParentBlockSize cn_fast_hash parentBlock blockData else VerificationFailed ;;
  check negb ((BLOCK_MAJOR_VERSION_5 <=? majorVersion (header blockData)) &&
              is_some (getMergeMiningTagFromExtra (extra (prefix (baseTransaction blockData))))) else NotAdded ;;
  check previousBlockHash (header blockData) ==b getTailId db else VerificationFailed ;;
  check check_block_timestamp_main c db (t_check env) blockData else VerificationFailed ;;
  let currentDifficulty := getDifficultyForNextBlock c db alt (previousBlockHash (header blockData)) in
  check negb (currentDifficulty =? 0) else NotAdded ;;
  let newHeight := getChainHeight db in
  check (if newHeight =? 0 then true
         else if Checkpoints.is_in_checkpoint_zone m_checkpoints newHeight
         then fst (Checkpoints.check_block m_checkpoints newHeight blockHash)
         else match proof with
              | Some proofOfWork => Difficulty.check_hash proofOfWork currentDifficulty
              | None => checkProofOfWork cn_fast_hash shake256 dsa_verify yespower_discrete blockData currentDifficulty
              end) else VerificationFailed ;;
  check prevalidate_miner_transaction c blockData newHeight else VerificationFailed ;;
  check validate_block_signature sha3_256 blockData newHeight else VerificationFailed ;;
  Ok currentDifficulty.

(** The fee of one transaction, [None] when it spends more than it has. *)
Definition tx_fee (db : Db) (tx : Transaction) : option Z :=
  if (TRANSACTION_VERSION_1 <=? version (prefix tx)) && isPqTransfer (txType (prefix tx))
  then getPqTransactionFee db tx
  else
    let inAmount := getInputAmount tx in
    let outAmount := getOutputAmount tx in
    if inAmount <? outAmount then None else Some (inAmount - outAmount).

(** Outcome of the part of the write section that can refuse the block. *)
Definition step_result (A : Type) : Type := result failure (option A) * ProofCaches.

(** The loop over the transactions: (database, cumulative size, fees). *)
Fixpoint connect_txs (full : Db -> bool) (inCheckpoint : bool) (height : Z) (txs : list (bytes * Transaction))
  (slot freeRegCount : Z) (registered : gset bytes) (size fees : Z) (db : Db) (s : ProofCaches)
  : step_result (Db * Z * Z) :=
  match txs with
  | [] => (Ok (Some (db, size, fees)), s)
  | (tx_id, curTx) :: txs =>
      let freeReg := (TRANSACTION_VERSION_1 <=? version (prefix curTx)) && (txType (prefix curTx) =? TX_FREE_REG) in
      let freeRegCount := if freeReg then freeRegCount + 1 else freeRegCount in
      if freeReg && (freeRegPerBlock c <? freeRegCount) then (Ok None, s)
      else
        let account := registration sha3_256 curTx in
        if match account with Some id => bool_decide (id ∈ registered) | None => false end then (Ok None, s)
        else
          match tx_fee db curTx with
          | None => (Ok None, s)
          | Some fee =>
              let '(valid, s) :=
                if inCheckpoint then (true, s)
                else let '(r, s) := checkTransactionInputs sha3_256 cn_fast_hash dsa_verify y_slow_hash c genesisBlockHash
                                      db s curTx height in (is_some r, s) in
              if negb valid then (Ok None, s)
              else
                let slot := w16 (slot + 1) in
                match pushTransaction sha3_256 full db height slot tx_id curTx with
                | Err e => (Err e, s)
                | Ok (false, _) => (Ok None, s)
                | Ok (true, db) =>
                    connect_txs full inCheckpoint height txs slot freeRegCount
                      (option_to_set account ∪ registered) (w64 (size + len (tx_blob curTx))) (w64 (fees + fee)) db s
                end
          end
  end.

(** The write section up to the inner [pushBlock]. *)
Definition connect (full : Db -> bool) (db : Db) (blockData : Block) (transactions : list Transaction)
  (blockHash : bytes) (currentDifficulty : Z) (s : ProofCaches) : step_result (Db * BlockEntry) :=
  let newHeight := getChainHeight db in
  let base := baseTransaction blockData in
  let prevMeta := if 0 <? newHeight then getBlockMeta_or_zero db (newHeight - 1) else zero_meta in
  match pushTransaction sha3_256 full db newHeight 0 (snd (getObjectHash cn_fast_hash tx_codec base)) base with
  | Err e => (Err e, s)
  | Ok (false, _) => (Ok None, s)
  | Ok (true, db) =>
      let '(r, s) := connect_txs full (Checkpoints.is_in_checkpoint_zone m_checkpoints newHeight) newHeight
                       (zip (transactionHashes blockData) transactions) 0 0 ∅ (len (tx_blob base)) 0 db s in
      match r with
      | Err e => (Err e, s)
      | Ok None => (Ok None, s)
      | Ok (Some (db, cumulative_block_size, fee_summary)) =>
          if negb (checkCumulativeBlockSize c cumulative_block_size newHeight) then (Ok None, s)
          else
            match validate_miner_transaction c db blockData newHeight cumulative_block_size
                    (m_alreadyGeneratedCoins prevMeta) fee_summary with
            | None => (Ok None, s)
            | Some (reward, emissionChange) =>
                let block := mkBlockEntry blockData newHeight cumulative_block_size
                  (w64 (currentDifficulty + m_cumulativeDifficulty prevMeta))
                  (w64 (m_alreadyGeneratedCoins prevMeta + emissionChange))
                  (map (fun tx => mkTransactionEntry tx (repeat 0 (length (outputs (prefix tx))))) (base :: transactions)) in
                match pushBlockEntry full db block blockHash with
                | Err e => (Err e, s)
                | Ok db => (Ok (Some (db, block)), s)
                end
            end
      end
  end.

(** The two clean-ups. *)
Definition abortCurrentBlockTxn (blockTxnActive : bool) (n : Node) : Node :=
  if blockTxnActive && hasNestedTxn (m_db n) then set_db n (abortNestedWriteTxn (m_db n))
  else if hasActiveTxn (m_db n) && (m_batchCount n =? 0) then set_db n (abortTxn (m_db n))
  else n.

(** The catch clauses: [abortEntireBatchTxn], the flag, and for a full map its
    resizing; a call of theirs can throw in turn. *)
Definition catch (env : Env) (e : failure) (n : Node) : verdict * Node :=
  let n := set_batch (set_db n (abortTxn (m_db n))) 0 (m_batchFastMode n) in
  if m_batchFastMode n && handler_sync_fails env then (Escaped, n)
  else
    let n := set_batch n 0 false in
    match e with
    | MapFull => if resize_fails env then (Escaped, n) else (NotAdded, n)
    | RuntimeError => (NotAdded, n)
    end.

Definition pushBlock (env : Env) (n : Node) (parentBlock : ParentBlock) (blockData : Block)
  (transactions : list Transaction) (blockHash : bytes) (proof : option bytes) : verdict * Node :=
  match check_header env (current (m_db n)) (m_alternative_chains n) parentBlock blockData blockHash proof with
  | Err v => (v, n)
  | Ok currentDifficulty =>
      let newHeight := getChainHeight (current (m_db n)) in
      match beginBatchIfNeeded env n with
      | (Some e, n) => catch env e n
      | (None, n) =>
          let blockTxnActive := 0 <? m_batchCount n in
          match (if blockTxnActive then begin_nested_fails env else None) with
          | Some e => catch env e n
          | None =>
              let n := if blockTxnActive then set_db n (beginNestedWriteTxn (m_db n)) else n in
              let '(r, s) := connect (mdb_full env) (current (m_db n)) blockData transactions blockHash
                               currentDifficulty (m_freeRegProofs n) in
              let n := set_proofs n s in
              match r with
              | Err e => catch env e n
              | Ok None => (VerificationFailed, abortCurrentBlockTxn blockTxnActive n)
              | Ok (Some (db, _)) =>
                  let n := set_db n (update (m_db n) db) in
                  match (if blockTxnActive then commit_nested_fails env else None) with
                  | Some e => catch env e n
                  | None =>
                      let n := if blockTxnActive then set_db n (commitNestedWriteTxn (m_db n)) else n in
                      match commitBatchOrBlock env (newHeight =? 0) n with
                      | (Some e, n) => catch env e n
                      | (None, n) => (Added, set_limit n (update_next_cumulative_size_limit c (current (m_db n))))
                      end
                  end
              end
          end
      end
  end.

(** ** Removal *)

(** [removeLastBlock]: a write transaction of its own when none is active. An
    exception of phase 2 leaves that transaction open, for the caller to abort. *)
Definition removeLastBlock (env : Env) (n : Node) : result failure Node :=
  let* r := removal_of cn_fast_hash (current (m_db n)) in
  match r with
  | None => Ok n
  | Some rm =>
      if hasActiveTxn (m_db n) then
        let* db := remove sha3_256 (mdb_full env) rm (current (m_db n)) in
        Ok (set_db n (update (m_db n) db))
      else
        match begin_fails env with
        | Some e => Err e
        | None =>
            let s := beginWriteTxn (m_db n) in
            let* db := remove sha3_256 (mdb_full env) rm (current s) in
            match commit_fails env with
            | Some e => Err e
            | None => Ok (set_db n (commitTxn (update s db)))
            end
        end
  end.

(** [popBlock]: the transactions given back to the pool, and the node. *)
Fixpoint pop_read_loop (k : nat) (t height : Z) (db : Db) : result failure (list Transaction) :=
  match k with
  | O => Ok []
  | S k =>
      let* te := transactionByIndex db height t in
      let* rest := pop_read_loop k (t + 1) height db in
      Ok (te_tx te :: rest)
  end.
Definition popBlock (env : Env) (n : Node) : result failure (list Transaction * Node) :=
  let db := current (m_db n) in
  let chainHeight := getChainHeight db in
  if chainHeight =? 0 then Ok ([], n)
  else
    let meta := getBlockMeta_or_zero db (chainHeight - 1) in
    let* transactions := pop_read_loop (Z.to_nat (m_txCount meta - 1)) 1 (chainHeight - 1) db in
    let* n := removeLastBlock env n in
    Ok (transactions, n).

(** [rollbackBlockchainTo]: a full map is answered by aborting, doubling the map
    and one more try; [envs] holds the environments of the two tries per block.
    [None] is an exception that leaves the function. *)
Fixpoint rollback_loop (envs : list (Env * Env)) (height : Z) (n : Node) : option Node :=
  if w32 (height + 1) <? getChainHeight (current (m_db n)) then
    match envs with
    | [] => None
    | (first, retry) :: envs =>
        match removeLastBlock first n with
        | Ok n => rollback_loop envs height n
        | Err RuntimeError => None
        | Err MapFull =>
            if resize_fails first then None
            else match removeLastBlock retry (set_db n (abortTxn (m_db n))) with
                 | Ok n => rollback_loop envs height n
                 | Err _ => None
                 end
        end
    end
  else Some n.
Definition rollbackBlockchainTo (env : Env) (envs : list (Env * Env)) (height : Z) (n : Node) : option Node :=
  match flushBatch env n with
  | (Escaped, _) => None
  | (_, n) => rollback_loop envs height n
  end.

End Push.
End Blockchain.
Import Blockchain.

(** ** Connecting a block *)

Section Connect.
Variable sha3_256 : bytes -> bytes.
Variable cn_fast_hash : bytes -> bytes.
Variable dsa_verify : bytes -> bytes -> bytes -> bool.
Variable y_slow_hash : bytes -> bytes -> option bytes.
Variable c : Currency.
Variable genesisBlockHash : bytes.
Variable points : Checkpoints.points.

Abbreviation connect_txs := (connect_txs sha3_256 cn_fast_hash dsa_verify y_slow_hash c genesisBlockHash).
Abbreviation connect := (connect sha3_256 cn_fast_hash dsa_verify y_slow_hash c genesisBlockHash points).
Abbreviation tx_checks := (checkTransactionInputs sha3_256 cn_fast_hash dsa_verify y_slow_hash c genesisBlockHash).

(** One turn of the loop that goes on: what was checked, and the push. *)
Lemma connect_txs_cons full zone height id tx txs slot count regs size fees db s r s' :
  connect_txs full zone height ((id, tx) :: txs) slot count regs size fees db s = (Ok (Some r), s') ->
  exists fee db1 count' regs' s1,
    tx_fee db tx = Some fee /\ (zone = false -> exists s0 h, tx_checks db s0 tx height = (Some h, s1)) /\
    pushTransaction sha3_256 full db height (w16 (slot + 1)) id tx = Ok (true, db1) /\
    connect_txs full zone height txs (w16 (slot + 1)) count' regs' (w64 (size + len (tx_blob tx))) (w64 (fees + fee)) db1 s1
      = (Ok (Some r), s').
Proof.
  cbn [Blockchain.connect_txs]. intros H.
  destruct (_ && (freeRegPerBlock c <? _)); [discriminate|].
  destruct (match registration sha3_256 tx with Some _ => _ | None => _ end); [discriminate|].
  destruct (tx_fee db tx) as [fee|]; [|discriminate].
  destruct zone.
  - cbn [negb] in H. destruct (pushTransaction _ _ _ _ _ _ _) as [[[|] db1]|]; try discriminate.
    eexists fee, db1, _, _, s. split; [reflexivity|]. split; [discriminate|]. split; [reflexivity|exact H].
  - destruct (tx_checks db s tx height) as [[h|] s1] eqn:E; cbn [is_some negb] in H; [|discriminate].
    destruct (pushTransaction _ _ _ _ _ _ _) as [[[|] db1]|]; try discriminate.
    eexists fee, db1, _, _, s1. split; [reflexivity|]. split; [eauto|]. split; [reflexivity|exact H].
Qed.

Lemma connect_txs_push full zone height txs : forall slot count regs size fees db s db' size' fees' s',
  connect_txs full zone height txs slot count regs size fees db s = (Ok (Some (db', size', fees')), s') ->
  0 <= slot -> slot + Z.of_nat (length txs) < 2 ^ 16 ->
  push_txs sha3_256 full db height (slot + 1) txs = Ok (true, db').
Proof.
  induction txs as [|[id tx] txs IH]; intros slot count regs size fees db s db' size' fees' s' H H0 Hl.
  - cbn in H |- *. injection H as -> _ _ _. reflexivity.
  - apply connect_txs_cons in H as (fee & db1 & count' & regs' & s1 & _ & _ & Hp & H). cbn [length] in Hl.
    rewrite wrap_small in Hp, H by (unfold in_w; lia). cbn [push_txs]. rewrite Hp. cbn [bind negb].
    eapply IH; [exact H|lia|lia].
Qed.

(** The write section is the pushes followed by the inner [pushBlock]. *)
Lemma connect_inv full db b txs hash diff s db2 block s' :
  connect full db b txs hash diff s = (Ok (Some (db2, block)), s') ->
  let n := getChainHeight db in
  let prev := if 0 <? n then getBlockMeta_or_zero db (n - 1) else zero_meta in
  exists db0 db1 size fees reward emission s1,
    pushTransaction sha3_256 full db n 0 (snd (getObjectHash cn_fast_hash tx_codec (baseTransaction b))) (baseTransaction b)
      = Ok (true, db0) /\
    connect_txs full (Checkpoints.is_in_checkpoint_zone points n) n (zip (transactionHashes b) txs) 0 0 ∅
      (len (tx_blob (baseTransaction b))) 0 db0 s = (Ok (Some (db1, size, fees)), s1) /\
    validate_miner_transaction c db1 b n size (m_alreadyGeneratedCoins prev) fees = Some (reward, emission) /\
    pushBlockEntry full db1 block hash = Ok db2 /\
    bl block = b /\ be_height block = n /\ length (be_transactions block) = S (length txs) /\
    cumulative_difficulty block = w64 (diff + m_cumulativeDifficulty prev) /\
    already_generated_coins block = w64 (m_alreadyGeneratedCoins prev + emission).
Proof.
  unfold Blockchain.connect. cbv zeta. intros H.
  destruct (pushTransaction _ _ _ _ _ _ _) as [[[|] db0]|] eqn:Ep; try discriminate.
  destruct (Blockchain.connect_txs _ _ _ _ _ _ _ _ _ _ _ _ _ _ _ _ _) as [[[[[db1 size] fees]|]|] s1] eqn:Ec; try discriminate.
  destruct (checkCumulativeBlockSize _ _ _); cbn [negb] in H; [|discriminate].
  destruct (validate_miner_transaction _ _ _ _ _ _ _) as [[reward emission]|] eqn:Em; [|discriminate].
  destruct (pushBlockEntry _ _ _ _) as [d|] eqn:Eb; [|discriminate]. injection H as -> <- _.
  exists db0, db1, size, fees, reward, emission, s1. repeat (split; [first [eassumption|reflexivity]|]).
  split; [cbn; now rewrite length_map|]. split; reflexivity.
Qed.

End Connect.

(** ** The chain a database holds *)

Record ChainBlock := mkChainBlock { cb_entry : BlockEntry; cb_hash : bytes; cb_txs : list Transaction }.
Definition cb_block (k : ChainBlock) : Block := bl (cb_entry k).

(** What the callers guarantee of a block and of the transactions taken from the
    pool for it: they came over the wire, and passed the admission check. *)
Record block_input (sha3_256 : bytes -> bytes) (b : Block) (txs : list Transaction) : Prop := {
  bi_block : wf_Block b;
  bi_hashes : length (transactionHashes b) = length txs;
  bi_storable : Forall storable (baseTransaction b :: txs);
  bi_count : Z.of_nat (S (length txs)) < 2 ^ 16;
  bi_admitted : Forall (fun tx => exists kept, Core.check_tx_semantic sha3_256 tx kept = true) txs
}.

Section Chain.
Variable sha3_256 : bytes -> bytes.
Variable cn_fast_hash : bytes -> bytes.
Variable shake256 : bytes -> nat -> bytes.
Variable dsa_verify : bytes -> bytes -> bytes -> bool.
Variable yespower_discrete : bytes -> bytes -> bytes -> option bytes.
Variable y_slow_hash : bytes -> bytes -> option bytes.
Variable c : Currency.
Variable genesisBlockHash : bytes.
Variable points : Checkpoints.points.

Abbreviation connect := (connect sha3_256 cn_fast_hash dsa_verify y_slow_hash c genesisBlockHash points).
Abbreviation pushBlock :=
  (pushBlock sha3_256 cn_fast_hash shake256 dsa_verify yespower_discrete y_slow_hash c genesisBlockHash points).
Abbreviation removeLastBlock := (removeLastBlock sha3_256 cn_fast_hash).
Abbreviation popBlock := (popBlock sha3_256 cn_fast_hash).
Abbreviation connected := (connected sha3_256 cn_fast_hash).

(** [db2] is [db], of height [n], with block [k] accepted on top. *)
Record extends (n : Z) (db : Db) (k : ChainBlock) (db2 : Db) : Prop := {
  ex_input : block_input sha3_256 (cb_block k) (cb_txs k);
  ex_new : hash_to_height db !! cb_hash k = None;
  ex_prev : previousBlockHash (header (cb_block k)) = getTailId db;
  ex_prevalidate : prevalidate_miner_transaction c (cb_block k) n = true;
  ex_signature : validate_block_signature sha3_256 (cb_block k) n = true;
  ex_connect : exists full diff s s',
    connect full db (cb_block k) (cb_txs k) (cb_hash k) diff s = (Ok (Some (db2, cb_entry k)), s')
}.

Lemma extends_connected n db k db2 : wf_db n db -> extends n db k db2 ->
  exists full, connected full n db (cb_entry k) (cb_hash k) (cb_txs k) db2.
Proof.
  intros W [I Hnew _ _ _ (full & diff & s & s' & H)]. exists full. unfold cb_block in *.
  assert (Hh : getChainHeight db = n) by (apply getChainHeight_contiguous; apply W).
  apply connect_inv in H as (db0 & db1 & size & fees & reward & emission & s1 & Hp & Hc & _ & Hb & _ & Hn & Hl & _).
  rewrite Hh in *. constructor; try assumption; try apply I.
  exists db1. split; [|exact Hb]. unfold block_txs. cbn [push_txs]. rewrite Hp. cbn [bind negb].
  eapply connect_txs_push; [exact Hc|lia|]. pose proof (bi_count _ _ _ I). rewrite length_zip, (bi_hashes _ _ _ I). lia.
Qed.

Inductive holds : list ChainBlock -> Db -> Prop :=
| holds_genesis : holds [] empty_db
| holds_block chain db k db2 :
    holds chain db -> extends (Z.of_nat (length chain)) db k db2 -> holds (chain ++ [k]) db2.

Lemma holds_wf chain db : holds chain db -> wf_db (Z.of_nat (length chain)) db.
Proof.
  induction 1 as [|chain db k db2 _ W E]; [apply wf_empty|].
  destruct (extends_connected _ _ _ _ W E) as (full & C). rewrite length_app. cbn [length].
  replace (Z.of_nat (length chain + 1)) with (Z.of_nat (length chain) + 1) by lia. exact (connected_wf _ _ _ _ _ _ _ _ _ C).
Qed.

Lemma holds_height chain db : holds chain db -> getChainHeight db = Z.of_nat (length chain).
Proof. intros H. apply holds_wf in H. apply getChainHeight_contiguous; apply H. Qed.

(** The last block can be taken back, and what is left holds the rest. *)
Lemma holds_unsnoc chain k db2 : holds (chain ++ [k]) db2 ->
  exists db, holds chain db /\ extends (Z.of_nat (length chain)) db k db2.
Proof.
  intros H. inversion H as [E|chain' db k' db2' H1 H2 E].
  - destruct chain; discriminate.
  - apply app_inj_tail in E as [-> ->]. eauto.
Qed.

Lemma extends_registry chain db k db2 : holds chain db -> extends (Z.of_nat (length chain)) db k db2 ->
  forall id, registration sha3_256 (baseTransaction (cb_block k)) = Some id -> pq_acct_reg db !! id = None.
Proof.
  intros H E id Hid. destruct chain as [|k0 chain].
  - inversion H as [|chain' ? ? ? ? ? Ec]; [apply lookup_empty|destruct chain'; discriminate].
  - rewrite (coinbase_no_registration sha3_256 c (cb_block k) (Z.of_nat (length (k0 :: chain)))) in Hid;
      [discriminate|cbn [length]; lia|apply E|apply E].
Qed.

Lemma remove_settles full chain db k db2 : holds chain db -> extends (Z.of_nat (length chain)) db k db2 ->
  exists rm, removal_of cn_fast_hash db2 = Ok (Some rm) /\ settles full (remove sha3_256 full rm db2) (fun db' => db' = db).
Proof.
  intros H E. destruct (extends_connected _ _ _ _ (holds_wf _ _ H) E) as (f & C).
  exact (removal_undoes sha3_256 cn_fast_hash f full _ _ _ _ _ _ C (extends_registry _ _ _ _ H E)).
Qed.

(** ** Transactions on the store *)

(** Outside a call: no nested transaction, and a write transaction exactly when a
    batch is pending. *)
Definition node_ok (n : Node) : Prop :=
  0 <= m_batchCount n /\ parentTxn (m_db n) = None /\ (m_batchCount n = 0 <-> writeTxn (m_db n) = None).

(** The node sees the chain [chain], and has [old] on disk. *)
Record node_holds (n : Node) (old chain : list ChainBlock) : Prop := {
  nh_ok : node_ok n;
  nh_current : holds chain (current (m_db n));
  nh_committed : holds old (committed (m_db n));
  nh_prefix : exists l, chain = old ++ l
}.

Lemma current_quiet n : m_batchCount n = 0 -> node_ok n -> current (m_db n) = committed (m_db n).
Proof. intros H0 (_ & _ & Hw). apply Hw in H0. unfold current. now rewrite H0. Qed.

Lemma catch_spec env e n v n' : catch env e n = (v, n') ->
  (v = NotAdded \/ v = Escaped) /\ m_db n' = abortTxn (m_db n) /\ m_batchCount n' = 0.
Proof.
  unfold catch. cbv zeta. destruct (_ && handler_sync_fails env).
  - intros H. injection H as <- <-. auto.
  - destruct e; [destruct (resize_fails env)|]; intros H; injection H as <- <-; auto.
Qed.

Lemma begin_spec env n r n' : node_ok n -> beginBatchIfNeeded env n = (r, n') ->
  m_freeRegProofs n' = m_freeRegProofs n /\ m_batchCount n' = m_batchCount n /\
  match r with
  | Some _ => m_db n' = m_db n /\ m_batchCount n = 0
  | None => writeTxn (m_db n') = Some (current (m_db n)) /\ committed (m_db n') = committed (m_db n) /\ parentTxn (m_db n') = None
  end.
Proof.
  intros (Hc & Hp & Hw) H. unfold beginBatchIfNeeded in H. destruct (Z.eqb_spec (m_batchCount n) 0) as [E|E].
  - destruct (grow_fails env); [injection H as <- <-; auto|].
    destruct (begin_fails env); injection H as <- <-; cbn; auto.
    unfold current. rewrite (proj1 Hw E). auto.
  - injection H as <- <-. split; [reflexivity|]. split; [reflexivity|]. split; [|auto].
    unfold current. destruct (writeTxn (m_db n)) eqn:Ew; [reflexivity|]. exfalso. apply E, Hw. reflexivity.
Qed.

Lemma commit_spec env force n r n' : commitBatchOrBlock env force n = (r, n') ->
  match r with
  | None => (m_db n' = m_db n /\ m_batchCount n' = m_batchCount n + 1) \/ (m_db n' = commitTxn (m_db n) /\ m_batchCount n' = 0)
  | Some _ => m_db n' = abortTxn (m_db n) \/ (m_db n' = commitTxn (m_db n) /\ sync_fails env <> None)
  end.
Proof.
  unfold commitBatchOrBlock. cbv zeta. intros H. destruct (_ || _ || _); [|injection H as <- <-; auto].
  destruct (commit_fails env); [injection H as <- <-; auto|]. cbn [m_batchFastMode set_db set_batch] in H.
  destruct (m_batchFastMode n); [|injection H as <- <-; auto].
  destruct (sync_fails env); [injection H as <- <-; right; split; [reflexivity|discriminate]|].
  destruct (negb _); injection H as <- <-; auto.
Qed.

(** How a call of [pushBlock] can end, seen from the databases. *)
Inductive push_end (env : Env) (n : Node) (db2 : Db -> Prop) : verdict -> Node -> Prop :=
| end_unchanged v n' : v <> Added -> node_ok n' ->
    current (m_db n') = current (m_db n) -> committed (m_db n') = committed (m_db n) -> push_end env n db2 v n'
| end_aborted v n' : v = NotAdded \/ v = Escaped -> node_ok n' ->
    m_db n' = abortTxn (m_db n) -> push_end env n db2 v n'
| end_added n' : node_ok n' -> db2 (current (m_db n')) ->
    committed (m_db n') = committed (m_db n) \/ committed (m_db n') = current (m_db n') -> push_end env n db2 Added n'
| end_unsynced v n' : v = NotAdded \/ v = Escaped -> node_ok n' -> sync_fails env <> None -> db2 (current (m_db n')) ->
    committed (m_db n') = current (m_db n') -> push_end env n db2 v n'.

Lemma node_ok_closed n : m_batchCount n = 0 -> writeTxn (m_db n) = None -> parentTxn (m_db n) = None -> node_ok n.
Proof. intros E Hw Hp. split; [lia|]. rewrite Hp, Hw. split; [reflexivity|]. split; auto. Qed.

(** A caught exception after the store has been changed to [s] with the same
    committed database. *)
Lemma catch_aborts env n e m v n' P : catch env e m = (v, n') -> committed (m_db m) = committed (m_db n) ->
  push_end env n P v n'.
Proof.
  intros H Hc. apply catch_spec in H as (Hv & Hd & H0).
  apply end_aborted; [exact Hv| |rewrite Hd; unfold abortTxn; now rewrite Hc].
  apply node_ok_closed; [exact H0|now rewrite Hd|now rewrite Hd].
Qed.

Lemma pushBlock_end env n parent b txs hash proof v n' : node_ok n ->
  pushBlock env n parent b txs hash proof = (v, n') ->
  push_end env n (fun db2 => exists diff s s' block,
    check_header sha3_256 cn_fast_hash shake256 dsa_verify yespower_discrete c points env (current (m_db n))
      (m_alternative_chains n) parent b hash proof = Ok diff /\
    connect (mdb_full env) (current (m_db n)) b txs hash diff s = (Ok (Some (db2, block)), s')) v n'.
Proof.
  intros Ok0 H. unfold Blockchain.pushBlock in H.
  destruct (check_header _ _ _ _ _ _ _ _ _ _ _ _ _ _) as [diff|v0] eqn:Eh.
  2: { injection H as -> ->. apply end_unchanged; auto. intros ->. revert Eh. unfold check_header.
       repeat match goal with |- context [guard ?b _] => destruct b; cbn [guard bind]; [|discriminate] end. discriminate. }
  destruct (beginBatchIfNeeded env n) as [r m] eqn:Eb. apply begin_spec in Eb as (Hs & Hc & Eb); [|exact Ok0].
  destruct r as [e|]; [apply (catch_aborts env n e m); [exact H|now rewrite (proj1 Eb)]|].
  destruct Eb as (Hw & Hk & Hp). destruct Ok0 as (H0 & Hp0 & Hw0).
  destruct (if 0 <? m_batchCount m then begin_nested_fails env else None) as [e|]; [exact (catch_aborts env n e m _ _ _ H Hk)|].
  set (m1 := if 0 <? m_batchCount m then set_db m (beginNestedWriteTxn (m_db m)) else m) in *.
  assert (M1 : writeTxn (m_db m1) = Some (current (m_db n)) /\ committed (m_db m1) = committed (m_db n) /\
               m_batchCount m1 = m_batchCount n /\ parentTxn (m_db m1) = if 0 <? m_batchCount n then Some (current (m_db n)) else None).
  { subst m1. rewrite Hc. destruct (0 <? m_batchCount n); cbn; rewrite ?Hw, ?Hk, ?Hp, ?Hc; auto. }
  rewrite Hc in H. clearbody m1. destruct M1 as (W1 & K1 & C1 & P1).
  assert (Cur : current (m_db m1) = current (m_db n)) by (unfold current at 1; now rewrite W1). rewrite Cur in H.
  destruct (connect (mdb_full env) (current (m_db n)) b txs hash diff (m_freeRegProofs m1)) as [[[[db block]|]|e] s'] eqn:Ec.
  3: { apply (catch_aborts env n e (set_proofs m1 s')); [exact H|exact K1]. }
  2: { injection H as <- <-. unfold abortCurrentBlockTxn. cbn [m_db m_batchCount set_proofs]. unfold hasNestedTxn, hasActiveTxn.
       rewrite P1, W1, C1. destruct (Z.ltb_spec 0 (m_batchCount n)) as [L|L]; cbn [andb].
       - apply end_unchanged; [discriminate| |cbn; unfold current at 1; cbn; now rewrite P1|exact K1].
         split; [cbn; lia|]. cbn. rewrite P1. split; [reflexivity|]. split; [lia|discriminate].
       - rewrite (proj2 (Z.eqb_eq (m_batchCount n) 0)) by lia. cbn [andb].
         apply end_unchanged; [discriminate| | |exact K1].
         + apply node_ok_closed; cbn; [lia|reflexivity|reflexivity].
         + cbn. rewrite K1. unfold current. rewrite (proj1 Hw0) by lia. reflexivity. }
  set (P := fun db2 : Db => _). cbn [m_db set_proofs] in H.
  assert (HP : P db) by (exists diff, (m_freeRegProofs m1), s', block; auto). clearbody P.
  destruct (if 0 <? m_batchCount n then commit_nested_fails env else None) as [e|].
  { apply (catch_aborts env n e _ _ _ _ H). exact K1. }
  set (m2 := if 0 <? m_batchCount n then _ else _) in H.
  assert (M2 : m_db m2 = mkStore (committed (m_db n)) (Some db) None /\ m_batchCount m2 = m_batchCount n).
  { subst m2. destruct (0 <? m_batchCount n); cbn; unfold update, commitNestedWriteTxn; cbn; rewrite ?K1, ?P1, ?C1; auto. }
  clearbody m2. destruct M2 as (D2 & C2).
  destruct (commitBatchOrBlock env _ m2) as [[e|] m3] eqn:Em; apply commit_spec in Em; rewrite D2, ?C2 in Em.
  - apply catch_spec in H as (Hv & Hd & Hz). destruct Em as [Em|[Em Hsync]]; rewrite Em in Hd; cbn in Hd.
    + apply end_aborted; [exact Hv| |exact Hd]. apply node_ok_closed; [exact Hz|now rewrite Hd|now rewrite Hd].
    + apply end_unsynced; [exact Hv| |exact Hsync|now rewrite Hd|now rewrite Hd].
      apply node_ok_closed; [exact Hz|now rewrite Hd|now rewrite Hd].
  - injection H as <- <-. destruct Em as [[Em Hz]|[Em Hz]].
    + apply end_added; cbn; rewrite ?Em; auto. split; [cbn; lia|]. cbn. rewrite Em, Hz. split; [reflexivity|]. split; [lia|discriminate].
    + apply end_added; cbn; rewrite ?Em; auto. apply node_ok_closed; cbn; [exact Hz|now rewrite Em|now rewrite Em].
Qed.

(** ** Steps keep the node on a chain *)

Lemma check_header_ok env db alt parent b hash proof diff :
  check_header sha3_256 cn_fast_hash shake256 dsa_verify yespower_discrete c points env db alt parent b hash proof = Ok diff ->
  hash_to_height db !! hash = None /\ previousBlockHash (header b) = getTailId db /\
  prevalidate_miner_transaction c b (getChainHeight db) = true /\
  validate_block_signature sha3_256 b (getChainHeight db) = true.
Proof.
  unfold check_header. intros H. do 10 (inv_bind H). inv_guard.
  split; [|split; [|split; reflexivity]].
  - apply negb_true_iff, bool_decide_eq_false in G8. now apply eq_None_not_Some.
  - now apply bytes_eqb_eq.
Qed.

Lemma extends_of_push env n chain parent b txs hash proof diff db2 s s' block :
  holds chain (current (m_db n)) -> block_input sha3_256 b txs ->
  check_header sha3_256 cn_fast_hash shake256 dsa_verify yespower_discrete c points env (current (m_db n))
    (m_alternative_chains n) parent b hash proof = Ok diff ->
  connect (mdb_full env) (current (m_db n)) b txs hash diff s = (Ok (Some (db2, block)), s') ->
  bl block = b /\ extends (Z.of_nat (length chain)) (current (m_db n)) (mkChainBlock block hash txs) db2.
Proof.
  intros Hh I Hc H. pose proof (connect_inv _ _ _ _ _ _ _ _ _ _ _ _ _ _ _ _ _ H)
    as (_ & _ & _ & _ & _ & _ & _ & _ & _ & _ & _ & Hb & _). split; [exact Hb|].
  apply check_header_ok in Hc as (Hn & Hp & Hm & Hs). rewrite (holds_height _ _ Hh) in Hm, Hs.
  constructor; unfold cb_block; cbn [cb_entry cb_hash cb_txs]; rewrite ?Hb; try assumption. eauto.
Qed.

Lemma pushBlock_outcome env n old chain parent b txs hash proof v n' :
  node_holds n old chain -> block_input sha3_256 b txs -> pushBlock env n parent b txs hash proof = (v, n') ->
  match v with
  | Added => exists k old', cb_block k = b /\ cb_hash k = hash /\ cb_txs k = txs /\
      (old' = old \/ old' = chain ++ [k]) /\ node_holds n' old' (chain ++ [k])
  | VerificationFailed => node_holds n' old chain
  | NotAdded | Escaped =>
      node_holds n' old chain \/ node_holds n' old old \/
      (sync_fails env <> None /\ exists k, cb_block k = b /\ cb_hash k = hash /\ cb_txs k = txs /\ node_holds n' (chain ++ [k]) (chain ++ [k]))
  end.
Proof.
  intros [Ok0 Hc Ho [l Hl]] I H. apply pushBlock_end in H; [|exact Ok0].
  assert (New : forall db2, (exists diff s s' block,
      check_header sha3_256 cn_fast_hash shake256 dsa_verify yespower_discrete c points env (current (m_db n))
        (m_alternative_chains n) parent b hash proof = Ok diff /\
      connect (mdb_full env) (current (m_db n)) b txs hash diff s = (Ok (Some (db2, block)), s')) ->
    exists k, cb_block k = b /\ cb_hash k = hash /\ cb_txs k = txs /\ holds (chain ++ [k]) db2).
  { intros db2 (diff & s & s' & block & Hh & Hk).
    destruct (extends_of_push env n chain parent b txs hash proof diff db2 s s' block Hc I Hh Hk) as (Hb & E).
    exists (mkChainBlock block hash txs). repeat (split; [assumption || reflexivity|]). exact (holds_block _ _ _ _ Hc E). }
  destruct H as [v n' Hv Hok Hcur Hcom|v n' Hv Hok Hd|n' Hok Hdb Hcom|v n' Hv Hok Hs Hdb Hcom].
  - assert (N : node_holds n' old chain) by (constructor; [exact Hok|now rewrite Hcur|now rewrite Hcom|eauto]).
    destruct v; [contradiction|exact N|auto|auto].
  - assert (N : node_holds n' old old).
    { constructor; [exact Hok|rewrite Hd; exact Ho|rewrite Hd; exact Ho|exists []; now rewrite app_nil_r]. }
    destruct Hv as [-> | ->]; auto.
  - destruct (New _ Hdb) as (k & K1 & K2 & K3 & Hk). destruct Hcom as [Hcom|Hcom].
    + exists k, old. repeat (split; [assumption|]). split; [now left|]. constructor; [exact Hok|exact Hk|now rewrite Hcom|].
      exists (l ++ [k]). rewrite Hl, app_assoc. reflexivity.
    + exists k, (chain ++ [k]). repeat (split; [assumption|]). split; [now right|].
      constructor; [exact Hok|exact Hk|now rewrite Hcom|exists []; now rewrite app_nil_r].
  - destruct (New _ Hdb) as (k & K1 & K2 & K3 & Hk).
    assert (N : node_holds n' (chain ++ [k]) (chain ++ [k])).
    { constructor; [exact Hok|exact Hk|now rewrite Hcom|exists []; now rewrite app_nil_r]. }
    destruct Hv as [-> | ->]; right; right; split; try assumption; exists k; auto.
Qed.

Lemma pushBlock_holds env n old chain parent b txs hash proof v n' :
  node_holds n old chain -> block_input sha3_256 b txs -> pushBlock env n parent b txs hash proof = (v, n') ->
  match v with
  | Added => exists k old', cb_block k = b /\ cb_hash k = hash /\ cb_txs k = txs /\ node_holds n' old' (chain ++ [k])
  | VerificationFailed => node_holds n' old chain
  | NotAdded | Escaped =>
      node_holds n' old chain \/ node_holds n' old old \/
      (sync_fails env <> None /\ exists k, cb_block k = b /\ cb_hash k = hash /\ cb_txs k = txs /\ node_holds n' (chain ++ [k]) (chain ++ [k]))
  end.
Proof.
  intros N I H. pose proof (pushBlock_outcome _ _ _ _ _ _ _ _ _ _ _ N I H) as R. destruct v; try exact R.
  destruct R as (k & old' & K1 & K2 & K3 & _ & R). exists k, old'. auto.
Qed.

Lemma flushBatch_holds env n old chain v n' : node_holds n old chain -> flushBatch env n = (v, n') ->
  m_batchCount n' = 0 /\ (node_holds n' chain chain \/ (commit_fails env <> None /\ node_holds n' old old)).
Proof.
  intros [Ok0 Hc Ho Hp] H. unfold flushBatch in H. destruct (Z.eqb_spec (m_batchCount n) 0) as [E|E].
  - injection H as <- <-. split; [exact E|left]. pose proof (current_quiet n E Ok0) as Q.
    constructor; [exact Ok0|exact Hc|rewrite <- Q; exact Hc|exists []; now rewrite app_nil_r].
  - destruct Ok0 as (_ & P0 & _). destruct (commit_fails env).
    + assert (N : forall fast, node_holds (set_batch (set_db n (abortTxn (m_db n))) 0 fast) old old).
      { intros fast. constructor; [apply node_ok_closed; reflexivity|exact Ho|exact Ho|exists []; now rewrite app_nil_r]. }
      cbn [m_batchFastMode set_db set_batch] in H. destruct (m_batchFastMode n); [destruct (handler_sync_fails env)|];
        injection H as <- <-; (split; [reflexivity|right; split; [discriminate|apply N]]).
    + assert (N : forall fast, node_holds (set_batch (set_db n (commitTxn (m_db n))) 0 fast) chain chain).
      { intros fast. constructor; [apply node_ok_closed; reflexivity|exact Hc|exact Hc|exists []; now rewrite app_nil_r]. }
      cbn [m_batchFastMode set_db set_batch] in H. destruct (m_batchFastMode n); [destruct (sync_fails env)|];
        injection H as <- <-; (split; [reflexivity|left; apply N]).
Qed.

(** With no batch pending, removing the last block commits exactly the database
    it was connected to, or fails for a reason of the database's. *)
Lemma removeLastBlock_exact env n chain db k : node_ok n -> m_batchCount n = 0 ->
  holds chain db -> extends (Z.of_nat (length chain)) db k (current (m_db n)) ->
  match removeLastBlock env n with
  | Ok n' => m_db n' = mkStore db None None /\ m_batchCount n' = 0
  | Err e => (e = MapFull /\ exists d, mdb_full env d = true) \/ begin_fails env = Some e \/ commit_fails env = Some e
  end.
Proof.
  intros Ok0 H0 Hdb E. pose proof (current_quiet n H0 Ok0) as Q. unfold Blockchain.removeLastBlock.
  destruct (remove_settles (mdb_full env) chain db k _ Hdb E) as (rm & Hr & Hs). rewrite Hr. cbn [bind].
  unfold hasActiveTxn. destruct Ok0 as (_ & P0 & W0). rewrite (proj1 W0 H0).
  destruct (begin_fails env); [auto|]. unfold current at 1, beginWriteTxn at 1. cbn [writeTxn]. rewrite <- Q.
  destruct (remove sha3_256 (mdb_full env) rm (current (m_db n))) as [d|e]; cbn [bind settles] in Hs |- *; [subst d|auto].
  destruct (commit_fails env); [auto|]. split; [reflexivity|exact H0].
Qed.

Lemma removeLastBlock_holds env n chain k : node_holds n (chain ++ [k]) (chain ++ [k]) -> m_batchCount n = 0 ->
  match removeLastBlock env n with
  | Ok n' => node_holds n' chain chain /\ m_batchCount n' = 0
  | Err e => (e = MapFull /\ exists d, mdb_full env d = true) \/ begin_fails env = Some e \/ commit_fails env = Some e
  end.
Proof.
  intros [Ok0 Hc _ _] H0. apply holds_unsnoc in Hc as (db & Hdb & E).
  pose proof (removeLastBlock_exact env n chain db k Ok0 H0 Hdb E) as R. destruct (removeLastBlock env n) as [n'|e]; [|exact R].
  destruct R as [D B]. split; [|exact B].
  constructor; [apply node_ok_closed; [exact B|now rewrite D|now rewrite D]|now rewrite D|now rewrite D|exists []; now rewrite app_nil_r].
Qed.

Abbreviation txs_of k := (block_txs cn_fast_hash (cb_block k) (cb_txs k)).

Lemma txs_of_snd k : block_input sha3_256 (cb_block k) (cb_txs k) -> (txs_of k).*2 = baseTransaction (cb_block k) :: cb_txs k.
Proof.
  intros I. unfold block_txs. cbn [fmap list_fmap snd]. f_equal. apply snd_zip. rewrite (bi_hashes _ _ _ I). lia.
Qed.

Lemma pop_read_ok db height (txs : list Transaction) : Forall storable txs -> forall k t,
  (forall i tx, txs !! i = Some tx -> tx_entries db !! (height, t + Z.of_nat i) = Some (stored tx)) ->
  k = length txs -> pop_read_loop k t height db = Ok txs.
Proof.
  induction 1 as [|tx txs Hs _ IH]; intros k t He ->; cbn [length pop_read_loop]; [reflexivity|].
  destruct (transactionByIndex_stored db height t tx (proj1 Hs) (proj2 Hs)) as (te & -> & <-).
  { rewrite <- (He 0%nat tx eq_refl). do 2 f_equal. lia. }
  cbn [bind]. rewrite (IH _ (t + 1)); [reflexivity| |reflexivity].
  intros i x Hi. rewrite <- (He (S i) x Hi). do 2 f_equal. lia.
Qed.

(** The transactions [popBlock] gives back are those of the block. *)
Lemma pop_read_block chain db k db2 : holds chain db -> extends (Z.of_nat (length chain)) db k db2 ->
  getChainHeight db2 = Z.of_nat (length chain) + 1 /\
  pop_read_loop (Z.to_nat (m_txCount (getBlockMeta_or_zero db2 (Z.of_nat (length chain))) - 1)) 1 (Z.of_nat (length chain)) db2
    = Ok (cb_txs k).
Proof.
  intros Hdb E. pose proof (ex_input _ _ _ _ E) as I.
  destruct (extends_connected _ _ _ _ (holds_wf _ _ Hdb) E) as (full & C).
  split; [apply getChainHeight_contiguous; [lia|apply (connected_wf _ _ _ _ _ _ _ _ _ C)]|].
  destruct (connected_effect _ _ _ _ _ _ _ _ _ C) as (db1 & g & T & E2).
  assert (Hm : getBlockMeta_or_zero db2 (Z.of_nat (length chain)) = block_meta_of (cb_entry k) (cb_hash k)).
  { unfold getBlockMeta_or_zero, getBlockMeta. rewrite E2. cbn [block_meta]. now rewrite lookup_insert_eq. }
  rewrite Hm. cbn [m_txCount block_meta_of]. rewrite (co_count _ _ _ _ _ _ _ _ _ C), wrap_small
    by (pose proof (bi_count _ _ _ I); unfold in_w; lia).
  apply pop_read_ok; [| |lia].
  - pose proof (bi_storable _ _ _ I) as S. inversion S; assumption.
  - intros i tx Hi. rewrite E2. cbn [tx_entries].
    assert (Hk : (txs_of k).*2 !! S i = Some tx) by (rewrite txs_of_snd by exact I; exact Hi).
    apply list_lookup_fmap_Some in Hk as ([h tx'] & -> & Hk).
    etransitivity; [|exact (te_entries_new _ _ _ _ _ _ T (S i) h tx' Hk)]. do 2 f_equal. lia.
Qed.

Lemma popBlock_exact env n chain db k : node_ok n -> m_batchCount n = 0 ->
  holds chain db -> extends (Z.of_nat (length chain)) db k (current (m_db n)) ->
  match popBlock env n with
  | Ok (txs, n') => txs = cb_txs k /\ m_db n' = mkStore db None None /\ m_batchCount n' = 0
  | Err e => (e = MapFull /\ exists d, mdb_full env d = true) \/ begin_fails env = Some e \/ commit_fails env = Some e
  end.
Proof.
  intros Ok0 H0 Hdb E. pose proof (removeLastBlock_exact env n chain db k Ok0 H0 Hdb E) as R.
  destruct (pop_read_block chain db k _ Hdb E) as [Hh Hr]. unfold Blockchain.popBlock. rewrite Hh.
  rewrite (proj2 (Z.eqb_neq _ 0)) by lia. replace (Z.of_nat (length chain) + 1 - 1) with (Z.of_nat (length chain)) by lia.
  rewrite Hr. cbn [bind]. destruct (removeLastBlock env n); cbn [bind]; auto.
Qed.

(** [rollbackBlockchainTo] keeps the blocks up to the height. *)
Lemma rollback_loop_holds height envs : 0 <= height < 2 ^ 32 - 1 -> forall n chain n',
  node_holds n chain chain -> m_batchCount n = 0 -> rollback_loop sha3_256 cn_fast_hash envs height n = Some n' ->
  node_holds n' (take (Z.to_nat (height + 1)) chain) (take (Z.to_nat (height + 1)) chain) /\ m_batchCount n' = 0.
Proof.
  intros Hh. induction envs as [|[first retry] envs IH]; intros n chain n' N H0 H; cbn [rollback_loop] in H;
    rewrite (holds_height _ _ (nh_current _ _ _ N)), wrap_small in H by (unfold in_w; lia);
    destruct (Z.ltb_spec (height + 1) (Z.of_nat (length chain))) as [L|L];
    try (injection H as <-; rewrite take_ge by lia; auto); [discriminate|].
  destruct chain as [|k chain _] using rev_ind; [cbn in L; lia|].
  assert (Hskip : take (Z.to_nat (height + 1)) (chain ++ [k]) = take (Z.to_nat (height + 1)) chain).
  { apply take_app_le. rewrite length_app in L. cbn in L. lia. }
  rewrite Hskip. pose proof (removeLastBlock_holds first n chain k N H0) as R.
  destruct (removeLastBlock first n) as [n1|[|]]; [destruct R as [N1 H1]; exact (IH _ _ _ N1 H1 H)| |discriminate].
  destruct (resize_fails first); [discriminate|].
  assert (Na : node_holds (set_db n (abortTxn (m_db n))) (chain ++ [k]) (chain ++ [k])).
  { constructor; [apply node_ok_closed; [exact H0|reflexivity|reflexivity]|apply N|apply N|apply N]. }
  pose proof (removeLastBlock_holds retry _ chain k Na H0) as R2.
  destruct (removeLastBlock retry _) as [n1|]; [|discriminate]. destruct R2 as [N1 H1]. exact (IH _ _ _ N1 H1 H).
Qed.


(** Enough calls without failures bring the loop to its end. *)
Definition quiet (env : Env) : Prop :=
  (forall db, mdb_full env db = false) /\ begin_fails env = None /\ commit_fails env = None.

Lemma rollback_loop_ends height envs : 0 <= height < 2 ^ 32 - 1 -> forall n chain,
  node_holds n chain chain -> m_batchCount n = 0 -> Forall (fun e => quiet (fst e)) envs -> (length chain <= length envs)%nat ->
  exists n', rollback_loop sha3_256 cn_fast_hash envs height n = Some n'.
Proof.
  intros Hh. induction envs as [|[first retry] envs IH]; intros n chain N H0 Q L; cbn [rollback_loop];
    rewrite (holds_height _ _ (nh_current _ _ _ N)), wrap_small by (unfold in_w; lia);
    destruct (Z.ltb_spec (height + 1) (Z.of_nat (length chain))) as [G|G]; eauto; [cbn in L; lia|].
  destruct chain as [|k chain _] using rev_ind; [cbn in G; lia|].
  inversion_clear Q as [|? ? (Qf & Qb & Qc) Qs]. cbn [fst] in *.
  pose proof (removeLastBlock_holds first n chain k N H0) as R. destruct (removeLastBlock first n) as [n1|e].
  - destruct R as [N1 H1]. apply (IH n1 chain N1 H1 Qs). rewrite length_app in L. cbn in L. lia.
  - destruct R as [[_ [d Hd]]|[R|R]]; congruence.
Qed.

(** ** Reachable nodes *)

Definition fresh_node : Node := mkNode (mkStore empty_db None None) 0 false no_proofs ∅ 0.

(** One call. Blocks are popped only after [flushBatch], as the callers do. *)
Inductive step : Node -> Node -> Prop :=
| step_push env n parent b txs hash proof v n' :
    block_input sha3_256 b txs -> pushBlock env n parent b txs hash proof = (v, n') -> step n n'
| step_pop env n txs n' : m_batchCount n = 0 -> popBlock env n = Ok (txs, n') -> step n n'
| step_flush env n v n' : flushBatch env n = (v, n') -> step n n'
| step_rollback env envs height n n' : 0 <= height < 2 ^ 32 - 1 ->
    rollbackBlockchainTo sha3_256 cn_fast_hash env envs height n = Some n' -> step n n'.

Lemma quiet_holds n old chain : node_holds n old chain -> m_batchCount n = 0 -> node_holds n chain chain.
Proof.
  intros [Ok0 Hc _ _] H0. constructor; [exact Ok0|exact Hc| |exists []; now rewrite app_nil_r].
  rewrite <- (current_quiet n H0 Ok0). exact Hc.
Qed.

Lemma step_holds n n' old chain : node_holds n old chain -> step n n' -> exists old' chain', node_holds n' old' chain'.
Proof.
  intros N S. revert N.
  destruct S as [env n1 parent b txs hash proof v n2 I H|env n1 txs n2 H0 H|env n1 v n2 H|env envs height n1 n2 Hh H]; intros N.
  - pose proof (pushBlock_holds _ _ _ _ _ _ _ _ _ _ _ N I H) as R.
    destruct v; [destruct R as (k & old' & _ & _ & _ & R); eauto|eauto|..];
      destruct R as [R|[R|(_ & k & _ & _ & _ & R)]]; eauto.
  - pose proof (quiet_holds _ _ _ N H0) as Q. destruct chain as [|k chain _] using rev_ind.
    + unfold Blockchain.popBlock in H. rewrite (holds_height _ _ (nh_current _ _ _ N)) in H. injection H as _ <-. eauto.
    + destruct (holds_unsnoc _ _ _ (nh_current _ _ _ Q)) as (db & Hdb & E).
      pose proof (popBlock_exact env n1 chain db k (nh_ok _ _ _ Q) H0 Hdb E) as R. rewrite H in R. destruct R as (_ & D & B).
      exists chain, chain. constructor; [apply node_ok_closed; [exact B|now rewrite D|now rewrite D]|now rewrite D|now rewrite D|].
      exists []. now rewrite app_nil_r.
  - destruct (flushBatch_holds _ _ _ _ _ _ N H) as (_ & [R|[_ R]]); eauto.
  - unfold rollbackBlockchainTo in H. destruct (flushBatch env n1) as [v m] eqn:E.
    destruct (flushBatch_holds _ _ _ _ _ _ N E) as (H0 & R).
    assert (L : rollback_loop sha3_256 cn_fast_hash envs height m = Some n2) by (destruct v; first [discriminate|exact H]).
    destruct R as [R|[_ R]]; destruct (rollback_loop_holds height envs Hh m _ n2 R H0 L); eauto.
Qed.

Definition reachable (n : Node) : Prop := rtc step fresh_node n.

Lemma reachable_holds n : reachable n -> exists old chain, node_holds n old chain.
Proof.
  assert (G : forall a b, rtc step a b -> (exists old chain, node_holds a old chain) -> exists old chain, node_holds b old chain).
  { induction 1 as [|a b d S _ IH]; [auto|]. intros (old & chain & N). apply IH. exact (step_holds _ _ _ _ N S). }
  intros R. apply (G _ _ R). exists [], []. constructor; [apply node_ok_closed; reflexivity|constructor|constructor|].
  exists []. reflexivity.
Qed.

(** ** The tables reflect the chain *)

(** [x] is among the [f] of the block at height [h]. *)
Definition at_block {A} (f : ChainBlock -> list A) (chain : list ChainBlock) (x : A) (h : Z) : Prop :=
  exists i k, h = Z.of_nat i /\ chain !! i = Some k /\ x ∈ f k.

Lemma at_block_snoc {A} (f : ChainBlock -> list A) chain k x h :
  at_block f (chain ++ [k]) x h <-> at_block f chain x h \/ (h = Z.of_nat (length chain) /\ x ∈ f k).
Proof.
  unfold at_block. split.
  - intros (i & k' & -> & Hk & Hx). apply lookup_app_Some in Hk as [Hk|[Hl Hk]]; [left; eauto|right].
    apply list_lookup_singleton_Some in Hk as [Hi <-]. split; [f_equal; lia|assumption].
  - intros [(i & k' & -> & Hk & Hx)|[-> Hx]].
    + exists i, k'. split; [reflexivity|]. split; [now apply lookup_app_l_Some|assumption].
    + exists (length chain), k. split; [reflexivity|]. split; [|assumption]. apply list_lookup_middle. reflexivity.
Qed.

Lemma at_block_in {A} (f : ChainBlock -> list A) chain x : x ∈ chain ≫= f <-> exists h, at_block f chain x h.
Proof.
  rewrite list_elem_of_bind. unfold at_block. split.
  - intros (k & Hx & Hk). apply list_elem_of_lookup in Hk as [i Hk]. exists (Z.of_nat i), i, k. auto.
  - intros (h & i & k & _ & Hk & Hx). exists k. split; [assumption|]. eapply list_elem_of_lookup_2, Hk.
Qed.

(** A table keyed by the [f] of the blocks, whose values carry the height. *)
Definition table_of {A V} `{Countable A} (f : ChainBlock -> list A) (height : V -> Z) (chain : list ChainBlock) (m : gmap A V) : Prop :=
  NoDup (chain ≫= f) /\ forall x h, (exists v, m !! x = Some v /\ height v = h) <-> at_block f chain x h.

Lemma table_grows {A V} `{Countable A} (f : ChainBlock -> list A) (height : V -> Z) chain k (m m' : gmap A V) :
  table_of f height chain m -> NoDup (f k) -> ext (f k) m m' ->
  (forall x, x ∈ f k -> exists v, m' !! x = Some v /\ height v = Z.of_nat (length chain)) ->
  table_of f height (chain ++ [k]) m'.
Proof.
  intros [N T] Nk [E F] At. split.
  - rewrite bind_app. cbn [mbind list_bind]. rewrite app_nil_r. apply NoDup_app. split; [exact N|]. split; [|exact Nk].
    intros x Hx Hk. apply at_block_in in Hx as [h Hx]. apply T in Hx as (v & Hv & _). rewrite (F x Hk) in Hv. discriminate.
  - intros x h. rewrite at_block_snoc, <- T. destruct (decide (x ∈ f k)) as [Hx|Hx].
    + destruct (At x Hx) as (v & Hv & Hh). rewrite (F x Hx). split.
      * intros (v' & Hv' & <-). rewrite Hv in Hv'. injection Hv' as <-. auto.
      * intros [(v' & Hv' & _)|[-> _]]; [discriminate|eauto].
    + rewrite (E x Hx). split; [intros; left; assumption|]. intros [R|[_ R]]; [assumption|contradiction].
Qed.

Lemma table_empty {A V} `{Countable A} (f : ChainBlock -> list A) (height : V -> Z) : table_of f height [] ∅.
Proof.
  split; [constructor|]. intros x h. split.
  - intros (v & Hv & _). rewrite lookup_empty in Hv. discriminate.
  - intros (i & k & _ & Hk & _). rewrite lookup_nil in Hk. discriminate.
Qed.

Record reflects (chain : list ChainBlock) (db : Db) : Prop := {
  rf_height : getChainHeight db = Z.of_nat (length chain);
  rf_hashes : table_of (fun k => [cb_hash k]) id chain (hash_to_height db);
  rf_spent : table_of (fun k => all_images sha3_256 (txs_of k)) id chain (spent_keys db);
  rf_accounts : table_of (fun k => all_entered sha3_256 0 (txs_of k)) fst chain (pq_acct_reg db);
  rf_ids : table_of (fun k => (txs_of k).*1) fst chain (tx_indices db);
  rf_entries : forall i k j txid tx, chain !! i = Some k -> txs_of k !! j = Some (txid, tx) ->
    tx_indices db !! txid = Some (Z.of_nat i, Z.of_nat j) /\ tx_entries db !! (Z.of_nat i, Z.of_nat j) = Some (stored tx);
  rf_blocks : forall i k, chain !! i = Some k ->
    block_meta db !! Z.of_nat i = Some (block_meta_of (cb_entry k) (cb_hash k)) /\
    block_data db !! Z.of_nat i = Some (block_blob (cb_block k))
}.

Lemma holds_reflects chain db : holds chain db -> reflects chain db.
Proof.
  induction 1 as [|chain db k db2 H IH E].
  { constructor; try apply table_empty; try reflexivity.
    - intros i k j txid tx Hk. rewrite lookup_nil in Hk. discriminate.
    - intros i k Hk. rewrite lookup_nil in Hk. discriminate. }
  pose proof (holds_height _ _ (holds_block _ _ _ _ H E)) as Hn.
  destruct (extends_connected _ _ _ _ (holds_wf _ _ H) E) as (full & C). pose proof (co_new _ _ _ _ _ _ _ _ _ C) as Hnew.
  destruct (connected_effect _ _ _ _ _ _ _ _ _ C) as (db1 & g & T & ->). change (bl (cb_entry k)) with (cb_block k) in *.
  constructor; [exact Hn| | | | | |]; cbn [hash_to_height spent_keys pq_acct_reg tx_indices tx_entries block_meta block_data].
  - apply (table_grows _ _ _ _ (hash_to_height db)); [apply IH|apply NoDup_singleton|now apply ext_insert|].
    intros x Hx. apply list_elem_of_singleton in Hx as ->. rewrite lookup_insert_eq. eauto.
  - apply (table_grows _ _ _ _ (spent_keys db)); [apply IH|apply T|apply T|].
    intros x Hx. rewrite (te_spent_at _ _ _ _ _ _ T x Hx). eauto.
  - apply (table_grows _ _ _ _ (pq_acct_reg db)); [apply IH|apply T|apply T|].
    intros x Hx. destruct (te_reg_at _ _ _ _ _ _ T x Hx) as [i ->]. eauto.
  - apply (table_grows _ _ _ _ (tx_indices db)); [apply IH|apply T|apply T|].
    intros x Hx. apply list_elem_of_fmap in Hx as ([h tx] & -> & Hx). apply list_elem_of_lookup in Hx as [i Hx].
    eexists. split; [exact (te_index_at _ _ _ _ _ _ T i h tx Hx)|reflexivity].
  - intros i k' j txid tx Hk Hj. apply lookup_app_Some in Hk as [Hk|[Hl Hk]].
    + destruct (rf_entries _ _ IH i k' j txid tx Hk Hj) as [Hi He].
      rewrite (proj1 (te_index _ _ _ _ _ _ T)), (te_entries_old _ _ _ _ _ _ T); [auto|left; cbn; apply lookup_lt_Some in Hk; lia|].
      intros Hin. apply (te_index _ _ _ _ _ _ T) in Hin. congruence.
    + apply list_lookup_singleton_Some in Hk as [Hi <-]. assert (Z.of_nat i = Z.of_nat (length chain)) as -> by lia.
      rewrite (te_index_at _ _ _ _ _ _ T j txid tx Hj). split; [reflexivity|exact (te_entries_new _ _ _ _ _ _ T j txid tx Hj)].
  - intros i k' Hk. apply lookup_app_Some in Hk as [Hk|[Hl Hk]].
    + pose proof (lookup_lt_Some _ _ _ Hk). rewrite !lookup_insert_ne by lia. exact (rf_blocks _ _ IH i k' Hk).
    + apply list_lookup_singleton_Some in Hk as [Hi <-]. assert (Z.of_nat i = Z.of_nat (length chain)) as -> by lia.
      now rewrite !lookup_insert_eq.
Qed.
(** ** Properties *)

(** C13: [pushBlock] is atomic. Whatever the environment does, an accepted block
    leaves the chain extended by exactly that block; a refused one leaves memory
    and disk on the chains they were on; after a failure of the database the node
    is on the chain it saw, on the one it has on disk, or (only when the flush that
    follows a commit failed) on the extended one. *)
Theorem push_block_atomic env n old chain parent b txs hash proof v n' :
  node_holds n old chain -> block_input sha3_256 b txs -> pushBlock env n parent b txs hash proof = (v, n') ->
  match v with
  | Added => exists k old', cb_block k = b /\ cb_hash k = hash /\ cb_txs k = txs /\ node_holds n' old' (chain ++ [k])
  | VerificationFailed => node_holds n' old chain
  | NotAdded | Escaped =>
      node_holds n' old chain \/ node_holds n' old old \/
      (sync_fails env <> None /\ exists k, cb_block k = b /\ cb_hash k = hash /\ cb_txs k = txs /\ node_holds n' (chain ++ [k]) (chain ++ [k]))
  end.
Proof. apply pushBlock_holds. Qed.

(** C14: [popBlock] undoes [pushBlock]: taking back a block that has just been added
    gives back its transactions and restores every table of the database to what
    it was before, unless a database call fails. *)
Theorem pop_undoes_push env env' n old chain parent b txs hash proof n1 :
  node_holds n old chain -> block_input sha3_256 b txs ->
  pushBlock env n parent b txs hash proof = (Added, n1) -> m_batchCount n1 = 0 ->
  match popBlock env' n1 with
  | Ok (txs', n2) => txs' = txs /\ current (m_db n2) = current (m_db n) /\ committed (m_db n2) = current (m_db n)
  | Err e => (e = MapFull /\ exists d, mdb_full env' d = true) \/ begin_fails env' = Some e \/ commit_fails env' = Some e
  end.
Proof.
  intros [Ok0 Hc Ho [l Hl]] I H H0. apply pushBlock_end in H; [|exact Ok0].
  inversion H as [? ? Hv|? ? Hv|? Hok Hdb Hcom|? ? Hv]; subst; [contradiction|now destruct Hv| |now destruct Hv].
  destruct Hdb as (diff & s & s' & block & Hh & Hk).
  destruct (extends_of_push env n _ parent b txs hash proof diff _ s s' block Hc I Hh Hk) as (Hb & E).
  pose proof (popBlock_exact env' n1 _ _ _ Hok H0 Hc E) as R.
  destruct (popBlock env' n1) as [[txs' n2]|e]; [|exact R]. destruct R as (-> & -> & _). auto.
Qed.

(** At every node reachable by pushing, popping, flushing and rolling back, the
    tables reflect a chain of accepted blocks, in memory and on disk, and the chain
    on disk is a prefix: heights are contiguous, no block, transaction or nullifier
    occurs twice on the whole chain, an account number belongs to its first
    registration, and each index entry points at the stored transaction. *)
Theorem reachable_reflects n : reachable n ->
  exists old chain, node_holds n old chain /\ reflects chain (current (m_db n)) /\ reflects old (committed (m_db n)).
Proof.
  intros R. destruct (reachable_holds n R) as (old & chain & N). exists old, chain.
  split; [exact N|]. split; apply holds_reflects; apply N.
Qed.

(** C15: [rollbackBlockchainTo] keeps exactly the blocks up to the height, and gets
    there when the database calls succeed. *)
Theorem rollback_to_height env envs height n old chain : 0 <= height < 2 ^ 32 - 1 -> node_holds n old chain ->
  commit_fails env = None -> sync_fails env = None -> Forall (fun e => quiet (fst e)) envs -> (length chain <= length envs)%nat ->
  exists n', rollbackBlockchainTo sha3_256 cn_fast_hash env envs height n = Some n' /\
    node_holds n' (take (Z.to_nat (height + 1)) chain) (take (Z.to_nat (height + 1)) chain).
Proof.
  intros Hh N Hc Hs Q L. unfold rollbackBlockchainTo. destruct (flushBatch env n) as [v m] eqn:E.
  assert (V : v = Added).
  { revert E. unfold flushBatch. rewrite Hc, Hs. destruct (_ =? 0); [congruence|]. destruct (m_batchFastMode _); congruence. }
  subst v. destruct (flushBatch_holds _ _ _ _ _ _ N E) as (H0 & [R|[F _]]); [|contradiction].
  destruct (rollback_loop_ends height envs Hh m chain R H0 Q L) as [n' Hn']. exists n'. split; [exact Hn'|].
  apply (rollback_loop_holds height envs Hh m chain n' R H0 Hn').
Qed.

End Chain.

(** ** A node that has connected a first block *)

Definition sample_first : Block :=
  mkBlock (mkBlockHeader 1 0 70 1700000000 NULL_HASH)
    (default sample_coinbase (constructMinerTxPq sample_sha3 mainnet 1 0 0 0 0 0 sample_key []))
    (repeat (b8 0) 3309) [].
Definition sample_env : Env :=
  mkEnv 1700000000 1700000000 1700000000 (fun _ => false) None None None None None None false false.
Abbreviation sample_push :=
  (pushBlock sample_sha3 sample_sha3 (fun _ k => repeat (b8 0) k) sample_verify (fun _ _ _ => None) (fun d _ => Some d) mainnet
     NULL_HASH ∅ sample_env fresh_node sample_parent sample_first [] (repeat (b8 1) 32) None).

Lemma sample_storable tx : match fromBinaryArray tx_codec (tx_blob tx) with Some tx' => tx' = tx | None => False end ->
  len (tx_blob tx) <? 2 ^ 32 = true -> storable tx.
Proof.
  intros H L. split; [|lia]. destruct (fromBinaryArray tx_codec (tx_blob tx)) as [tx'|] eqn:E; [|easy].
  subst tx'. now apply (fromBinaryArray_iff tx_codec) in E as [W _].
Qed.

Lemma sample_first_input : block_input sample_sha3 sample_first [].
Proof.
  assert (W : wf_Transaction (baseTransaction sample_first)).
  { assert (H : exists b, fromBinaryArray tx_codec b = Some (baseTransaction sample_first)).
    { exists (match toBinaryArray tx_codec (baseTransaction sample_first) with Some b => b | None => [] end).
      vm_compute. reflexivity. }
    destruct H as [b H]. apply (fromBinaryArray_iff tx_codec) in H as [W _]. exact W. }
  constructor; [|reflexivity| |cbn; lia|constructor].
  - split; [|split; [|split]]; [repeat split; vm_compute; congruence|reflexivity|exact W|split; [reflexivity|constructor]].
  - constructor; [|constructor]. split; [exact W|]. vm_compute. reflexivity.
Qed.

Lemma fresh_node_holds s cn dsa y c g pts : node_holds s cn dsa y c g pts fresh_node [] [].
Proof. constructor; [apply node_ok_closed; reflexivity|constructor|constructor|exists []; reflexivity]. Qed.

Lemma push_block_atomic_witness : exists k old',
  cb_block k = sample_first /\ cb_hash k = repeat (b8 1) 32 /\ cb_txs k = [] /\
  node_holds sample_sha3 sample_sha3 sample_verify (fun d _ => Some d) mainnet NULL_HASH ∅ (snd sample_push) old' [k].
Proof.
  apply (push_block_atomic sample_sha3 sample_sha3 (fun _ k => repeat (b8 0) k) sample_verify (fun _ _ _ => None)
           (fun d _ => Some d) mainnet NULL_HASH ∅ sample_env fresh_node [] [] sample_parent sample_first []
           (repeat (b8 1) 32) None Added (snd sample_push)).
  - apply fresh_node_holds.
  - exact sample_first_input.
  - vm_compute. reflexivity.
Defined.

Abbreviation sample_pop := (popBlock sample_sha3 sample_sha3 sample_env (snd sample_push)).

Lemma pop_undoes_push_witness :
  match sample_pop with
  | Ok (txs', n2) => txs' = [] /\ current (m_db n2) = empty_db /\ committed (m_db n2) = empty_db
  | Err e => (e = MapFull /\ exists d, mdb_full sample_env d = true) \/ begin_fails sample_env = Some e \/ commit_fails sample_env = Some e
  end.
Proof.
  apply (pop_undoes_push sample_sha3 sample_sha3 (fun _ k => repeat (b8 0) k) sample_verify (fun _ _ _ => None)
           (fun d _ => Some d) mainnet NULL_HASH ∅ sample_env sample_env fresh_node [] [] sample_parent sample_first []
           (repeat (b8 1) 32) None (snd sample_push)).
  - apply fresh_node_holds.
  - exact sample_first_input.
  - vm_compute. reflexivity.
  - vm_compute. reflexivity.
Defined.

Lemma reachable_reflects_witness : exists old chain,
  node_holds sample_sha3 sample_sha3 sample_verify (fun d _ => Some d) mainnet NULL_HASH ∅ (snd sample_push) old chain /\
  reflects sample_sha3 sample_sha3 chain (current (m_db (snd sample_push))) /\
  reflects sample_sha3 sample_sha3 old (committed (m_db (snd sample_push))).
Proof.
  apply (reachable_reflects sample_sha3 sample_sha3 (fun _ k => repeat (b8 0) k) sample_verify (fun _ _ _ => None)
           (fun d _ => Some d) mainnet NULL_HASH ∅ (snd sample_push)).
  apply rtc_once. apply (step_push _ _ _ _ _ _ _ _ _ sample_env fresh_node sample_parent sample_first []
    (repeat (b8 1) 32) None Added (snd sample_push)); [exact sample_first_input|]. vm_compute. reflexivity.
Defined.

Lemma sample_push_holds : exists k old,
  node_holds sample_sha3 sample_sha3 sample_verify (fun d _ => Some d) mainnet NULL_HASH ∅ (snd sample_push) old [k].
Proof.
  destruct (pushBlock_holds sample_sha3 sample_sha3 (fun _ k => repeat (b8 0) k) sample_verify (fun _ _ _ => None)
           (fun d _ => Some d) mainnet NULL_HASH ∅ sample_env fresh_node [] [] sample_parent sample_first []
           (repeat (b8 1) 32) None Added (snd sample_push)) as (k & old & _ & _ & _ & N); [|exact sample_first_input| |eauto].
  - apply fresh_node_holds.
  - vm_compute. reflexivity.
Qed.

Lemma rollback_to_height_witness : exists k n',
  rollbackBlockchainTo sample_sha3 sample_sha3 sample_env [(sample_env, sample_env)] 0 (snd sample_push) = Some n' /\
  node_holds sample_sha3 sample_sha3 sample_verify (fun d _ => Some d) mainnet NULL_HASH ∅ n' [k] [k].
Proof.
  destruct sample_push_holds as (k & old & N). exists k.
  apply (rollback_to_height sample_sha3 sample_sha3 sample_verify (fun d _ => Some d) mainnet NULL_HASH ∅
           sample_env [(sample_env, sample_env)] 0 (snd sample_push) old [k]); try reflexivity.
  - lia.
  - exact N.
  - repeat constructor.
Defined.
