(* ===== verification/Ledger.v ===== *)
(** * The chain as a ledger of unspent outputs

    The abstract specification of what the node promises: a map from outpoints to
    amounts, on which a transaction removes the outputs its inputs name, each of
    which must be there, and adds its own. The chain a node holds refines it:
    replaying the accepted blocks never gets stuck, the unspent outputs of the
    ledger are those of the database, and their value is the supply the node
    records, modulo 2^64. *)

From Stdlib Require Import ZArith String List Lia Bool.
From stdpp Require Import countable gmap sets fin_maps.
From coqutil Require Import Byte Word.LittleEndianList.
From S2P Require Import Prelude Config Varint Wire Transaction IntUtil Currency Extra PqHash PqDerive PqValidation BlockFormat Db ChainStore Checkpoints ChainRules Blockchain.
Import ListNotations.
Open Scope string_scope.
Open Scope list_scope.
Open Scope Z_scope.
Open Scope discrete_scope.
Import Serialization TransactionExtra PqValidation FormatUtils LMDBBlockchainDB ChainStore ChainRules Blockchain.

(** ** The ledger *)

Module Ledger.

Abbreviation Utxo := (gmap (bytes * Z) Z).

(** Remove the outputs, with the value they held. *)
Fixpoint spend (os : list (bytes * Z)) (u : Utxo) : option (Utxo * Z) :=
  match os with
  | [] => Some (u, 0)
  | o :: os =>
      match u !! o with
      | None => None
      | Some a => match spend os (delete o u) with Some (u, v) => Some (u, a + v) | None => None end
      end
  end.

Fixpoint create (id : bytes) (j : Z) (amounts : list Z) (u : Utxo) : Utxo :=
  match amounts with
  | [] => u
  | a :: amounts => create id (j + 1) amounts (<[(id, j) := a]> u)
  end.

Definition apply_tx (u : Utxo) (id : bytes) (tx : Transaction) : option Utxo :=
  match spend (map outpoint (pq_inputs tx)) u with
  | None => None
  | Some (u, _) => Some (create id 0 (map amount (outputs (prefix tx))) u)
  end.

Fixpoint apply_txs (u : Utxo) (txs : list (bytes * Transaction)) : option Utxo :=
  match txs with
  | [] => Some u
  | (id, tx) :: txs => match apply_tx u id tx with Some u => apply_txs u txs | None => None end
  end.

Definition value (u : Utxo) : Z := map_fold (fun _ a s => a + s) 0 u.

End Ledger.
Import Ledger.

Lemma elem_of_map {A B} (f : A -> B) l x : x ∈ map f l <-> exists y, x = f y /\ y ∈ l.
Proof.
  rewrite list_elem_of_In, in_map_iff. split; intros (y & E & H); exists y; (split; [auto|]); now apply list_elem_of_In.
Qed.

Lemma lookup_nth_error {A} (l : list A) : forall i, l !! i = nth_error l i.
Proof. induction l as [|x l IH]; intros [|i]; cbn; auto. Qed.

(** ** Values *)

Lemma value_insert u o a : u !! o = None -> value (<[o := a]> u) = a + value u.
Proof. intros H. unfold value. apply map_fold_insert_L; [intros; lia|exact H]. Qed.

Lemma value_delete u o a : u !! o = Some a -> value u = a + value (delete o u).
Proof. intros H. unfold value. apply (map_fold_delete_L (fun _ a s => a + s)); [intros; lia|exact H]. Qed.

Lemma spend_ok os : forall u, NoDup os -> (forall o, o ∈ os -> is_Some (u !! o)) ->
  exists u', spend os u = Some (u', total (map (fun o => default 0 (u !! o)) os)) /\
    value u = total (map (fun o => default 0 (u !! o)) os) + value u' /\
    forall o, u' !! o = if decide (o ∈ os) then None else u !! o.
Proof.
  induction os as [|o os IH]; intros u N H; cbn [spend map].
  - exists u. split; [reflexivity|]. split; [reflexivity|]. intros o. rewrite decide_False by (intros X; inversion X). reflexivity.
  - inversion N as [|? ? Ho N']. subst. destruct (H o) as [a Ha]; [left|]. rewrite Ha.
    destruct (IH (delete o u) N') as (u' & Hs & Hv & Hl).
    { intros o' Hin. rewrite lookup_delete_ne by (intros ->; contradiction). apply H. now right. }
    assert (E : map (fun o' => default 0 (delete o u !! o')) os = map (fun o' => default 0 (u !! o')) os).
    { apply map_ext_in. intros o' Hin. rewrite lookup_delete_ne; [reflexivity|]. intros ->. now apply list_elem_of_In in Hin. }
    rewrite E in *. exists u'. rewrite Hs. split; [reflexivity|]. split.
    + rewrite (value_delete u o a Ha), Hv. cbn. unfold total. lia.
    + intros o'. rewrite Hl. destruct (decide (o' = o)) as [->|Hne].
      * rewrite lookup_delete_eq, (decide_True (P := o ∈ o :: os)) by left. now case_decide.
      * rewrite lookup_delete_ne by congruence. case_decide; case_decide; auto; set_solver.
Qed.

Lemma create_lookup id amounts : forall j u id' j', create id j amounts u !! (id', j') =
  if decide (id' = id /\ j <= j' < j + Z.of_nat (length amounts)) then amounts !! Z.to_nat (j' - j) else u !! (id', j').
Proof.
  induction amounts as [|a l IH]; intros j u id' j'; cbn [create length].
  - case_decide; [lia|reflexivity].
  - rewrite IH. destruct (decide (id' = id /\ j' = j)) as [[-> ->]|Hne].
    + rewrite decide_False by (intros [_ ?]; lia). rewrite decide_True by (split; [reflexivity|lia]). rewrite lookup_insert_eq, Z.sub_diag. reflexivity.
    + rewrite lookup_insert_ne by (intros X; injection X as -> ->; auto).
      case_decide as D1; case_decide as D2; [|exfalso; apply D2; split; [apply D1|lia]|exfalso; apply D1; split; [apply D2|]|reflexivity].
      2: { destruct D2 as [-> D2]. assert (j' <> j) by (intros ->; apply Hne; auto). lia. }
      replace (Z.to_nat (j' - j)) with (S (Z.to_nat (j' - (j + 1)))) by lia. reflexivity.
Qed.

Lemma create_value id amounts : forall j u, (forall j', u !! (id, j') = None) ->
  value (create id j amounts u) = total amounts + value u.
Proof.
  intros j u H. assert (G : forall j u, (forall j', j <= j' -> u !! (id, j') = None) -> value (create id j amounts u) = total amounts + value u).
  { clear. induction amounts as [|a l IH]; intros j u H; cbn [create]; [reflexivity|].
    rewrite IH.
    - rewrite value_insert by (apply H; lia). cbn. unfold total. lia.
    - intros j' Hj. rewrite lookup_insert_ne by (intros X; injection X; lia). apply H. lia. }
  apply G. auto.
Qed.

(** ** The database behind a ledger *)

Section Refinement.
Variable sha3_256 : bytes -> bytes.
Variable c : Currency.

Abbreviation nullifier_of := (pqNullifier sha3_256).

Definition output_at (db : Db) (id : bytes) (j : Z) : option TransactionOutput :=
  match pqReferencedTx db id with
  | Some (_, _, outs) => if 0 <=? j then nth_error outs (Z.to_nat j) else None
  | None => None
  end.

(** An input that names an output of the chain and opens its commitment. *)
Definition opens (db : Db) (i : PqInput) : Prop :=
  exists o, output_at db (prevTxid i) (prevOutIndex i) = Some o /\
    spendable_commit o = Some (PqDerive.spendCommit sha3_256 (authPub i) (rhoReveal i)) /\ pqInputFieldsValid i = true.

(** The ledger [u] of a database whose chain has the inputs [ins]; slot [slot] of
    block [n] is the next to be written. *)
Record represents (n slot : Z) (db : Db) (ins : list PqInput) (u : Utxo) : Prop := {
  rp_lookup : forall id j a, u !! (id, j) = Some a <->
    (exists o, output_at db id j = Some o /\ amount o = a) /\ (id, j) ∉ map outpoint ins;
  rp_opens : Forall (opens db) ins;
  rp_spent : forall i, i ∈ ins -> is_Some (spent_keys db !! nullifier_of i);
  rp_nodup : NoDup (map nullifier_of ins);
  rp_index : forall id p, tx_indices db !! id = Some p -> exists tx, storable tx /\ tx_entries db !! p = Some (stored tx);
  rp_slots : forall k, is_Some (tx_entries db !! k) -> k.1 < n \/ (k.1 = n /\ k.2 < slot)
}.

Lemma represents_empty : represents 0 0 empty_db [] ∅.
Proof.
  constructor.
  - intros id j a. rewrite lookup_empty. split; [discriminate|]. intros [(o & Ho & _) _]. discriminate.
  - constructor.
  - intros i Hi. inversion Hi.
  - constructor.
  - intros id p Hp. cbn [tx_indices empty_db] in Hp. rewrite lookup_empty in Hp. discriminate.
  - intros k [x Hk]. cbn [tx_entries empty_db] in Hk. rewrite lookup_empty in Hk. discriminate.
Qed.

Lemma spendable_opens db i : spendable sha3_256 c db i -> 0 <= prevOutIndex i -> opens db i /\
  exists o, output_at db (prevTxid i) (prevOutIndex i) = Some o /\ input_amount db i = amount o.
Proof.
  intros (b & s & o & Hr & _ & Hc & Hv & _) H0.
  assert (Ho : output_at db (prevTxid i) (prevOutIndex i) = Some o).
  { unfold referenced_output in Hr. unfold output_at. destruct (pqReferencedTx db (prevTxid i)) as [[[b' s'] outs]|]; [|discriminate].
    destruct (_ <? _); [|discriminate]. destruct (nth_error outs _) as [o'|] eqn:En; [|discriminate].
    destruct (spendable_commit o'); [|discriminate]. injection Hr as _ _ <-. rewrite (proj2 (Z.leb_le _ _) H0). reflexivity. }
  split; [exists o; auto|]. exists o. split; [exact Ho|]. unfold input_amount. now rewrite Hr.
Qed.

(** Different nullifiers mean different outpoints. *)
Lemma opens_distinct db l : Forall (opens db) l -> NoDup (map nullifier_of l) ->
  NoDup (map outpoint l) \/ collides sha3_256 (map opened l).
Proof.
  intros H N. set (lookup := fun o : bytes * Z => match output_at db (fst o) (snd o) with
    | Some out => mkPqResolvedInput (default [] (spendable_commit out)) (amount out) true true false | None => unresolved end).
  destruct (distinct_outpoints sha3_256 lookup l) as [D|D]; [| |left; now apply base.NoDup_ListNoDup|auto].
  - apply List.Forall_forall. intros i Hi. rewrite List.Forall_forall in H. destruct (H i Hi) as (o & Ho & Hc & Hv).
    unfold lookup, owned, outpoint. cbn [fst snd]. rewrite Ho, Hc. cbn. auto.
  - now apply base.NoDup_ListNoDup.
Qed.

(** Pushing a transaction adds its outputs and changes no other. *)
Lemma output_at_push n slot id tx db db' ins u id' j : represents n slot db ins u -> storable tx ->
  push_effect sha3_256 n slot id tx db db' ->
  output_at db' id' j = if decide (id' = id) then (if 0 <=? j then nth_error (outputs (prefix tx)) (Z.to_nat j) else None)
                        else output_at db id' j.
Proof.
  intros R [W L] P. unfold output_at, pqReferencedTx, getTxIndex. rewrite (pe_index _ _ _ _ _ _ _ P). case_decide as D.
  - subst id'. rewrite lookup_insert_eq.
    destruct (transactionByIndex_stored db' n slot tx W L) as (te & -> & ->); [|reflexivity].
    rewrite (pe_entries _ _ _ _ _ _ _ P). apply lookup_insert_eq.
  - rewrite lookup_insert_ne by congruence. destruct (tx_indices db !! id') as [[b s]|] eqn:E; [|reflexivity].
    destruct (rp_index _ _ _ _ _ R _ _ E) as (tx' & [W' L'] & He).
    destruct (transactionByIndex_stored db b s tx' W' L' He) as (te & -> & ->).
    destruct (transactionByIndex_stored db' b s tx' W' L') as (te' & -> & ->); [|reflexivity].
    rewrite (pe_entries _ _ _ _ _ _ _ P), lookup_insert_ne; [exact He|].
    intros X. injection X as <- <-. destruct (rp_slots _ _ _ _ _ R (n, slot)) as [X|[_ X]]; [eauto|cbn in X; lia..].
Qed.

Lemma output_at_fresh db id j : tx_indices db !! id = None -> output_at db id j = None.
Proof. intros H. unfold output_at, pqReferencedTx, getTxIndex. now rewrite H. Qed.

Lemma opens_push n slot id tx db db' ins u i : represents n slot db ins u -> storable tx ->
  push_effect sha3_256 n slot id tx db db' -> opens db i -> opens db' i.
Proof.
  intros R S P (o & Ho & H). exists o. split; [|exact H].
  rewrite (output_at_push n slot id tx db db' ins u _ _ R S P), decide_False; [exact Ho|].
  intros E. rewrite E, (output_at_fresh db id _ (pe_fresh _ _ _ _ _ _ _ P)) in Ho. discriminate.
Qed.

Lemma images_of_inputs tx : images sha3_256 tx = map nullifier_of (pq_inputs tx).
Proof.
  unfold images, pq_inputs. induction (inputs (prefix tx)) as [|[g|k] l IH]; [reflexivity|exact IH|]. cbn. f_equal. exact IH.
Qed.

(** The state after the push, given the outputs the ledger has removed. *)
Lemma represents_push n slot id tx db db' ins u u1 : represents n slot db ins u -> storable tx ->
  push_effect sha3_256 n slot id tx db db' -> Forall (opens db) (pq_inputs tx ++ ins) ->
  NoDup (map nullifier_of (pq_inputs tx ++ ins)) ->
  (forall o, u1 !! o = if decide (o ∈ map outpoint (pq_inputs tx)) then None else u !! o) ->
  represents n (slot + 1) db' (pq_inputs tx ++ ins) (create id 0 (map amount (outputs (prefix tx))) u1).
Proof.
  intros R St P Op Nn Hl. pose proof (pe_fresh _ _ _ _ _ _ _ P) as Hf. constructor.
  - intros id' j a. rewrite create_lookup, length_map, Hl, (output_at_push n slot id tx db db' ins u id' j R St P), map_app, elem_of_app.
    assert (Fr : id' = id -> (id', j) ∉ map outpoint (pq_inputs tx) /\ (id', j) ∉ map outpoint ins /\ u !! (id', j) = None).
    { intros ->. assert (No : forall i, i ∈ pq_inputs tx ++ ins -> (id, j) <> outpoint i).
      { intros i Hi E. rewrite Forall_forall in Op. destruct (Op i Hi) as (o & Ho & _). injection E as E1 _.
        rewrite <- E1, (output_at_fresh db id _ Hf) in Ho. discriminate. }
      repeat split; [intros Hx; apply elem_of_map in Hx as (i & E & Hi); apply (No i); set_solver..|].
      apply eq_None_not_Some. intros [x Hx]. apply (rp_lookup _ _ _ _ _ R) in Hx as [(o & Ho & _) _].
      rewrite (output_at_fresh db id j Hf) in Ho. discriminate. }
    destruct (decide (id' = id)) as [E|E].
    + destruct (Fr E) as (F1 & F2 & F3). case_decide as D.
      * rewrite Z.sub_0_r, (proj2 (Z.leb_le 0 j)) by lia. rewrite lookup_nth_error, nth_error_map.
        destruct (nth_error (outputs (prefix tx)) (Z.to_nat j)) as [o|]; cbn; split.
        -- intros X. injection X as <-. split; [eauto|]. intros [X|X]; auto.
        -- intros [(o' & X & <-) _]. now injection X as <-.
        -- discriminate.
        -- intros [(o' & X & _) _]. discriminate.
      * rewrite F3. split; [case_decide; discriminate|]. intros [(o & Ho & _) _]. exfalso.
        destruct (Z.leb_spec 0 j); [|discriminate]. apply D. split; [exact E|].
        assert (Z.to_nat j < length (outputs (prefix tx)))%nat by (apply nth_error_Some; congruence). lia.
    + rewrite decide_False by (intros [? _]; auto). case_decide as D.
      * split; [discriminate|]. intros [_ X]. exfalso. apply X. auto.
      * rewrite (rp_lookup _ _ _ _ _ R). tauto.
  - eapply Forall_impl; [exact Op|]. intros i. now apply (opens_push n slot id tx db db' ins u).
  - intros i Hi. pose proof (pe_spent _ _ _ _ _ _ _ P) as [Ek Ef]. pose proof (pe_spent_at _ _ _ _ _ _ _ P) as At.
    rewrite images_of_inputs in *. destruct (decide (nullifier_of i ∈ map nullifier_of (pq_inputs tx))) as [D|D]; [rewrite At by exact D; eauto|].
    rewrite Ek by exact D. apply (rp_spent _ _ _ _ _ R). apply elem_of_app in Hi as [Hi|Hi]; [|exact Hi].
    exfalso. apply D, elem_of_map. eauto.
  - exact Nn.
  - intros id' p Hp. rewrite (pe_index _ _ _ _ _ _ _ P) in Hp. rewrite (pe_entries _ _ _ _ _ _ _ P).
    apply lookup_insert_Some in Hp as [[<- <-]|[_ Hp]]; [exists tx; split; [exact St|apply lookup_insert_eq]|].
    destruct (rp_index _ _ _ _ _ R _ _ Hp) as (tx' & S' & He). exists tx'. split; [exact S'|].
    rewrite lookup_insert_ne; [exact He|]. intros <-. destruct (rp_slots _ _ _ _ _ R (n, slot)) as [X|[_ X]]; [eauto|cbn in X; lia..].
  - intros k Hk. rewrite (pe_entries _ _ _ _ _ _ _ P), lookup_insert_is_Some in Hk.
    destruct Hk as [<-|[_ Hk]]; [cbn; lia|]. apply (rp_slots _ _ _ _ _ R) in Hk. lia.
Qed.

(** The ledger follows a pushed transaction whose inputs the chain lets spend. *)
Lemma push_represents n slot id tx db db' ins u : represents n slot db ins u -> storable tx ->
  push_effect sha3_256 n slot id tx db db' ->
  Forall (fun i => spendable sha3_256 c db i /\ 0 <= prevOutIndex i) (pq_inputs tx) ->
  (exists u', apply_tx u id tx = Some u' /\ represents n (slot + 1) db' (pq_inputs tx ++ ins) u' /\
     value u' = value u - total (map (input_amount db) (pq_inputs tx)) + total (map amount (outputs (prefix tx)))) \/
  collides sha3_256 (map opened (pq_inputs tx ++ ins)).
Proof.
  intros R St P Sp. pose proof (pe_nodup _ _ _ _ _ _ _ P) as Nk. rewrite images_of_inputs in Nk. rewrite Forall_forall in Sp.
  assert (Op : Forall (opens db) (pq_inputs tx ++ ins)).
  { apply Forall_app. split; [|apply R]. apply Forall_forall. intros i Hi. now apply spendable_opens; apply Sp. }
  assert (Nn : NoDup (map nullifier_of (pq_inputs tx ++ ins))).
  { rewrite map_app. apply NoDup_app. split; [exact Nk|]. split; [|apply R]. intros x Hx Hy.
    apply elem_of_map in Hx as (i & -> & Hi). apply elem_of_map in Hy as (i' & E & Hi').
    destruct (rp_spent _ _ _ _ _ R i' Hi') as [h Hh]. destruct (Sp i Hi) as [(_ & _ & _ & _ & _ & _ & _ & Hn) _].
    rewrite <- E, Hn in Hh. discriminate. }
  destruct (opens_distinct db _ Op Nn) as [D|D]; [left|right; exact D].
  rewrite map_app in D. apply NoDup_app in D as (Dk & Dd & _).
  assert (Hin : forall i, i ∈ pq_inputs tx -> u !! outpoint i = Some (input_amount db i)).
  { intros i Hi. destruct (Sp i Hi) as [Hs H0]. destruct (spendable_opens db i Hs H0) as (_ & o & Ho & Ha).
    apply (rp_lookup _ _ _ _ _ R). split; [exists o; auto|]. apply (Dd (outpoint i)), elem_of_map. eauto. }
  destruct (spend_ok (map outpoint (pq_inputs tx)) u Dk) as (u1 & Hs & Hv & Hl).
  { intros o Ho. apply elem_of_map in Ho as (i & -> & Hi). rewrite Hin by exact Hi. eauto. }
  rewrite List.map_map, (map_ext_in _ (input_amount db)) in Hv
    by (intros i Hi; rewrite Hin by (now apply list_elem_of_In); reflexivity).
  unfold apply_tx. rewrite Hs. eexists. split; [reflexivity|].
  split; [exact (represents_push n slot id tx db db' ins u u1 R St P Op Nn Hl)|].
  rewrite create_value; [lia|]. intros j. rewrite Hl. case_decide; [reflexivity|].
  apply eq_None_not_Some. intros [a Ha]. apply (rp_lookup _ _ _ _ _ R) in Ha as [(o & Ho & _) _].
  rewrite (output_at_fresh db id j (pe_fresh _ _ _ _ _ _ _ P)) in Ho. discriminate.
Qed.

Lemma represents_perm n slot db ins ins' u : ins ≡ₚ ins' -> represents n slot db ins u -> represents n slot db ins' u.
Proof.
  intros E R. assert (M : forall B (f : PqInput -> B), map f ins ≡ₚ map f ins') by (intros; now apply Permutation_map).
  constructor; try apply R.
  - intros id j a. rewrite <- (M _ outpoint). apply R.
  - rewrite <- E. apply R.
  - intros i Hi. rewrite <- E in Hi. now apply R.
  - rewrite <- (M _ nullifier_of). apply R.
Qed.

(** The ledger depends on three tables only. *)
Lemma represents_tables n slot n' slot' db db' ins u : represents n slot db ins u ->
  tx_indices db' = tx_indices db -> tx_entries db' = tx_entries db -> spent_keys db' = spent_keys db ->
  n < n' \/ (n = n' /\ slot <= slot') -> represents n' slot' db' ins u.
Proof.
  intros R Hi He Hs Hn.
  assert (Ho : forall id j, output_at db' id j = output_at db id j).
  { intros id j. unfold output_at, pqReferencedTx, getTxIndex, transactionByIndex, getTxEntry. now rewrite Hi, He. }
  constructor; rewrite ?Hi, ?He, ?Hs; try apply R.
  - intros id j a. rewrite Ho. apply R.
  - eapply Forall_impl; [apply R|]. intros i. unfold opens. now rewrite Ho.
  - intros k Hk. apply R in Hk. lia.
Qed.

(** ** Accepted transactions *)

Variable cn_fast_hash : bytes -> bytes.
Variable dsa_verify : bytes -> bytes -> bytes -> bool.
Variable y_slow_hash : bytes -> bytes -> option bytes.
Variable genesisBlockHash : bytes.
Variable points : Checkpoints.points.

Lemma wf_indices tx : wf_Transaction tx -> forall i, i ∈ pq_inputs tx -> 0 <= prevOutIndex i.
Proof.
  intros [(_ & _ & _ & [_ Hi] & _) _] i Hin. rewrite List.Forall_forall in Hi.
  assert (Hx : In (InPq i) (inputs (prefix tx))).
  { unfold pq_inputs in Hin. apply list_elem_of_In in Hin. induction (inputs (prefix tx)) as [|[g|k] l IH]; [destruct Hin| |].
    - right. apply IH; [|exact Hin]. intros x Hx. apply Hi. now right.
    - cbn in Hin. destruct Hin as [->|Hin]; [now left|right; apply IH; [|exact Hin]]. intros x Hx. apply Hi. now right. }
  pose proof (Hi _ (in_map strip _ _ Hx)) as H. unfold strip in H.
  destruct (keyRef i =? PQ_NO_KEY_REF); destruct H as (_ & H & _); unfold in_w in H; cbn in H; lia.
Qed.

(** What the loop of [pushBlock] has established of a transaction it pushes. *)
Lemma accepted_inputs db s0 tx height h s1 fee kept :
  storable tx -> Core.check_tx_semantic sha3_256 tx kept = true ->
  checkTransactionInputs sha3_256 cn_fast_hash dsa_verify y_slow_hash c genesisBlockHash db s0 tx height = (Some h, s1) ->
  tx_fee db tx = Some fee ->
  Forall (fun i => spendable sha3_256 c db i /\ 0 <= prevOutIndex i) (pq_inputs tx) /\
  total (map (input_amount db) (pq_inputs tx)) = total (map amount (outputs (prefix tx))) + fee.
Proof.
  intros [W _] Sem Chk Fee. unfold checkTransactionInputs in Chk. unfold Core.check_tx_semantic in Sem. unfold tx_fee in Fee.
  destruct (Z.eqb_spec (version (prefix tx)) TRANSACTION_VERSION_1) as [Ev|]; cbn [negb] in Chk; [|discriminate].
  rewrite Ev, Z.leb_refl in *. destruct (_ && isPqAccountAlreadyRegistered _ _ _); [discriminate|].
  destruct (isPqTransfer (txType (prefix tx))); cbn [andb] in *.
  - destruct (isPqTransferTypeAllowedAt _ _ _); cbn [negb] in Chk; [|discriminate].
    destruct (checkPqTransactionSemantic tx) as [[]|] eqn:S; [|discriminate]. injection Chk as Chk _.
    destruct (checkPqInputs_ok sha3_256 dsa_verify c genesisBlockHash db tx h W S Chk) as (ks & fee' & T).
    rewrite (transfer_fee sha3_256 c db tx ks fee' T W) in Fee. injection Fee as <-.
    pose proof (wf_indices tx W) as Hx. rewrite (pq_inputs_map ks tx (tr_inputs _ _ _ _ _ _ T)) in *.
    split; [|apply T]. pose proof (tr_spendable _ _ _ _ _ _ T) as Sp. rewrite List.Forall_forall in Sp.
    apply Forall_forall. intros i Hi. split; [apply Sp; now apply list_elem_of_In|now apply Hx].
  - destruct (txType (prefix tx) =? TX_FREE_REG); [|discriminate].
    destruct (checkFreeRegTransactionShape tx) as [[]|] eqn:S; [|discriminate]. unfold checkFreeRegTransactionShape in S.
    destruct ((_ =? 0) && (_ =? 0)) eqn:G in S; [|inv_bind S; discriminate]. apply andb_true_iff in G as [Gi Go].
    destruct (inputs (prefix tx)) as [|] eqn:Ei; [|discriminate]. destruct (outputs (prefix tx)) as [|] eqn:Eo; [|discriminate].
    unfold getInputAmount, getOutputAmount in Fee. rewrite Eo in Fee. injection Fee as <-. unfold pq_inputs. rewrite Ei. now split.
Qed.

(** ** The transactions of a block *)

Definition inputs_of (txs : list (bytes * Transaction)) : list PqInput := txs ≫= fun p => pq_inputs p.2.

Lemma apply_txs_app u l l' : apply_txs u (l ++ l') = match apply_txs u l with Some u => apply_txs u l' | None => None end.
Proof. revert u. induction l as [|[id tx] l IH]; intros u; [reflexivity|]. cbn. destruct (apply_tx u id tx); auto. Qed.

Lemma collides_opened l l' : (forall i, i ∈ l -> i ∈ l') -> collides sha3_256 (map opened l) -> collides sha3_256 (map opened l').
Proof.
  intros H. apply collides_incl. intros x Hx. apply in_map_iff in Hx as (i & <- & Hi). apply in_map.
  apply list_elem_of_In, H. now apply list_elem_of_In.
Qed.

Abbreviation connect_txs := (connect_txs sha3_256 cn_fast_hash dsa_verify y_slow_hash c genesisBlockHash).

Lemma connect_txs_ledger full n txs : forall slot count regs size fees db s db' size' fees' s' ins u,
  connect_txs full false n txs slot count regs size fees db s = (Ok (Some (db', size', fees')), s') ->
  0 <= slot -> slot + Z.of_nat (length txs) < 2 ^ 16 -> Forall storable txs.*2 ->
  Forall (fun tx => exists kept, Core.check_tx_semantic sha3_256 tx kept = true) txs.*2 ->
  represents n (slot + 1) db ins u ->
  (exists u', apply_txs u txs = Some u' /\ represents n (slot + 1 + Z.of_nat (length txs)) db' (ins ++ inputs_of txs) u' /\
     w64 (value u' + fees') = w64 (value u + fees)) \/
  collides sha3_256 (map opened (ins ++ inputs_of txs)).
Proof.
  induction txs as [|[id tx] txs IH]; intros slot count regs size fees db s db' size' fees' s' ins u H H0 Hl St Ad R.
  - cbn in H. injection H as -> _ -> _. left. exists u. unfold inputs_of. cbn [mbind list_bind length]. rewrite app_nil_r, Z.add_0_r.
    auto.
  - apply connect_txs_cons in H as (fee & db1 & count' & regs' & s1 & Hf & Hz & Hp & H). cbn [length] in Hl.
    destruct (Hz eq_refl) as (s0 & h & Hc). rewrite wrap_small in Hp, H by (unfold in_w; lia).
    inversion_clear St as [|? ? St1 Sts]. inversion_clear Ad as [|? ? [kept A1] As]. cbn [snd] in *.
    destruct (accepted_inputs db s0 tx n h s1 fee kept St1 A1 Hc Hf) as [Sp Bal]. apply pushTransaction_ok in Hp.
    destruct (push_represents n (slot + 1) id tx db db1 ins u R St1 Hp Sp) as [(u1 & Ha & R1 & Hv)|C].
    2: { right. revert C. apply collides_opened. unfold inputs_of. cbn [mbind list_bind snd]. set_solver. }
    apply (represents_perm _ _ _ _ (ins ++ pq_inputs tx)) in R1; [|apply Permutation_app_comm].
    destruct (IH (slot + 1) _ _ _ _ db1 _ db' _ _ _ _ u1 H ltac:(lia) ltac:(lia) Sts As R1) as [(u' & Hu & R' & Hv')|C].
    + left. exists u'. cbn [apply_txs]. rewrite Ha. unfold inputs_of in *. cbn [mbind list_bind snd length]. rewrite app_assoc.
      replace (slot + 1 + Z.of_nat (S (length txs))) with (slot + 1 + 1 + Z.of_nat (length txs)) by lia.
      split; [exact Hu|]. split; [exact R'|]. rewrite Hv'. unfold wrap. rewrite Zplus_mod_idemp_r. f_equal. lia.
    + right. revert C. unfold inputs_of. cbn [mbind list_bind snd]. now rewrite app_assoc.
Qed.

(** ** Blocks *)

Abbreviation holds := (holds sha3_256 cn_fast_hash dsa_verify y_slow_hash c genesisBlockHash points).
Abbreviation extends := (extends sha3_256 cn_fast_hash dsa_verify y_slow_hash c genesisBlockHash points).
Abbreviation txs_of k := (block_txs cn_fast_hash (cb_block k) (cb_txs k)).

(** The supply the tip records. *)
Definition supply (db : Db) : Z :=
  let n := getChainHeight db in
  m_alreadyGeneratedCoins (if 0 <? n then getBlockMeta_or_zero db (n - 1) else zero_meta).

Lemma s64_mod z : s64 z mod 2 ^ 64 = z mod 2 ^ 64.
Proof.
  unfold s64, wrap. destruct (_ <? 2 ^ 63); [apply Z.mod_mod; lia|].
  rewrite <- (Z_mod_plus_full (z mod 2 ^ 64 - 2 ^ 64) 1). rewrite Z.mul_1_l, Z.sub_add. apply Z.mod_mod. lia.
Qed.

(** The emission a block is charged with: its coinbase minus the fees it pays out. *)
Lemma miner_emission db b n size gen fees reward emission :
  validate_miner_transaction c db b n size gen fees = Some (reward, emission) ->
  w64 (emission + fees) = w64 (total (map amount (outputs (prefix (baseTransaction b)))) + if n =? 0 then fees else 0).
Proof.
  unfold validate_miner_transaction. rewrite getOutputAmount_sum. destruct (n =? 0).
  - intros H. injection H as _ <-. unfold wrap. rewrite <- Zplus_mod_idemp_l, s64_mod, Z.mod_mod, Zplus_mod_idemp_l by lia. reflexivity.
  - destruct (getBlockReward _ _ _ _ _ _) as [[r e]|] eqn:E; [|discriminate].
    destruct (Z.ltb_spec r (w64 (total (map amount (outputs (prefix (baseTransaction b))))))); [discriminate|].
    destruct (Z.ltb_spec (w64 (total (map amount (outputs (prefix (baseTransaction b)))))) r); [discriminate|].
    intros X. injection X as <- <-. rewrite Z.add_0_r.
    assert (Hr : r = w64 (total (map amount (outputs (prefix (baseTransaction b)))))) by lia. rewrite <- Hr. clear - E.
    unfold getBlockReward in E. destruct (_ <? size); [discriminate|]. injection E as <- <-.
    unfold wrap. rewrite <- Zplus_mod_idemp_l, s64_mod, Zplus_mod_idemp_l. f_equal. lia.
Qed.

Lemma extends_ledger n db k db2 ins u :
  (forall h, Checkpoints.is_in_checkpoint_zone points h = false) -> (n = 0 -> cb_txs k = []) ->
  getChainHeight db = n -> extends n db k db2 -> represents n 0 db ins u -> w64 (value u) = supply db ->
  (exists u', apply_txs u (txs_of k) = Some u' /\ represents (n + 1) 0 db2 (ins ++ inputs_of (txs_of k)) u' /\
     w64 (value u') = already_generated_coins (cb_entry k)) \/
  collides sha3_256 (map opened (ins ++ inputs_of (txs_of k))).
Proof.
  intros Hz Hg Hn [I _ _ Pre _ (full & diff & s & s' & H)] R Hv. unfold cb_block in *. set (b := bl (cb_entry k)) in *.
  apply connect_inv in H as (db0 & db1 & size & fees & reward & emission & s1 & Hp & Hc & Hm & Hb & _ & Hh & _ & _ & Hgen).
  rewrite Hn in *. change (m_alreadyGeneratedCoins _) with (m_alreadyGeneratedCoins (if 0 <? n then getBlockMeta_or_zero db (n - 1) else zero_meta)) in Hgen.
  rewrite Hz in Hc. pose proof (bi_storable _ _ _ I) as St. inversion_clear St as [|? ? St0 Sts].
  assert (Hin : pq_inputs (baseTransaction b) = []).
  { unfold prevalidate_miner_transaction in Pre. rewrite !andb_true_iff in Pre. destruct Pre as [[[[[[[[[_ _] Hl] _] _] _] Hi] _] _] _].
    apply Z.eqb_eq in Hl. unfold pq_inputs. destruct (inputs (prefix (baseTransaction b))) as [|[g|i] [|]]; try discriminate; cbn in Hl; [reflexivity|lia]. }
  apply pushTransaction_ok in Hp.
  destruct (push_represents n 0 _ (baseTransaction b) db db0 ins u R St0 Hp) as [(u0 & Ha & R0 & Hv0)|C];
    [rewrite Hin; constructor| |right; revert C; apply collides_opened; rewrite Hin; set_solver].
  rewrite Hin in R0, Hv0. cbn [app map total fold_right] in R0, Hv0.
  assert (Hsnd : (zip (transactionHashes b) (cb_txs k)).*2 = cb_txs k) by (apply snd_zip; rewrite (bi_hashes _ _ _ I); lia).
  pose proof (bi_count _ _ _ I) as Hct.
  destruct (connect_txs_ledger full n _ 0 _ _ _ _ db0 _ db1 _ _ _ ins u0 Hc) as [(u' & Hu & R' & Hv')|C];
    [lia|rewrite length_zip, (bi_hashes _ _ _ I); lia|now rewrite Hsnd|rewrite Hsnd; apply I|exact R0| |].
  - left. exists u'. unfold block_txs, inputs_of. cbn [apply_txs mbind list_bind snd]. rewrite Ha, Hin. cbn [app].
    apply pushBlockEntry_ok in Hb as (g & ->). split; [exact Hu|]. split; [eapply represents_tables; [exact R'|reflexivity..|lia]|].
    rewrite Hgen. apply miner_emission in Hm. unfold supply in Hv. rewrite Hn in Hv. rewrite <- Hv.
    assert (E : w64 (value u' + fees) = w64 (w64 (value u) + emission + fees)).
    { rewrite Hv', Z.add_0_r, Hv0. unfold wrap in *. rewrite <- Z.add_assoc, <- (Zplus_mod_idemp_r (emission + fees)), Hm.
      rewrite Zplus_mod_idemp_r, Zplus_mod_idemp_l. f_equal. destruct (Z.eqb_spec n 0) as [En|]; [|lia].
      rewrite (Hg En) in Hc. destruct (transactionHashes b); cbn in Hc; injection Hc as _ _ <- _; lia. }
    unfold wrap in *. replace (value u') with (value u' + fees - fees) by lia. rewrite <- Zminus_mod_idemp_l, E, Zminus_mod_idemp_l.
    f_equal. lia.
  - right. revert C. apply collides_opened. unfold block_txs, inputs_of. cbn [mbind list_bind snd]. set_solver.
Qed.

(** ** Chains *)

Definition chain_txs (chain : list ChainBlock) : list (bytes * Transaction) := chain ≫= fun k => txs_of k.

Lemma chain_txs_snoc chain k : chain_txs (chain ++ [k]) = chain_txs chain ++ txs_of k.
Proof. unfold chain_txs. rewrite bind_app. cbn [mbind list_bind]. now rewrite app_nil_r. Qed.

Lemma extends_supply n db k db2 : getChainHeight db2 = n + 1 -> 0 <= n -> getChainHeight db = n -> extends n db k db2 ->
  supply db2 = already_generated_coins (cb_entry k).
Proof.
  intros H2 H0 Hn [_ _ _ _ _ (full & diff & s & s' & H)].
  apply connect_inv in H as (db0 & db1 & _ & _ & _ & _ & _ & _ & _ & _ & Hb & _ & Hh & _).
  apply pushBlockEntry_ok in Hb as (g & ->). unfold supply. rewrite H2, (proj2 (Z.ltb_lt 0 _)) by lia.
  replace (n + 1 - 1) with n by lia. unfold getBlockMeta_or_zero, getBlockMeta. cbn [block_meta]. rewrite Hh, Hn, lookup_insert_eq. reflexivity.
Qed.


End Refinement.

(** ** A chain of two blocks, the second of which spends the first's coinbase *)

Definition sample_grant : Transaction :=
  mkTransaction (mkTransactionPrefix 1 TX_COINBASE 0 [InBase (mkBaseInput 0)]
    [mkTransactionOutput 100 0 (OutCoinbase (mkCoinbaseOutput (PqDerive.spendCommit sample_sha3 sample_key sample_rho)))] []) [].
Definition sample_id (tx : Transaction) : bytes := snd (getObjectHash sample_sha3 tx_codec tx).
Definition sample_spend_prefix : TransactionPrefix :=
  mkTransactionPrefix 1 TX_PQ 0 [InPq (mkPqInput (sample_id sample_grant) 0 sample_key sample_rho PQ_NO_KEY_REF)]
    [mkTransactionOutput 90 0 (OutPq (mkPqOutput (repeat (b8 14) 1088) (repeat (b8 15) 56) (repeat (b8 16) 32)))] [].
Definition sample_spend : Transaction :=
  mkTransaction sample_spend_prefix
    [match pqUnsignedTx (mkTransaction sample_spend_prefix []) 10 with
     | Ok u => PqDerive.txSigningDigest sample_sha3 u ++ repeat (b8 0) 3277
     | Err _ => []
     end].
Definition sample_block0 : Block :=
  mkBlock (mkBlockHeader 1 0 70 1700000000 NULL_HASH) sample_grant (repeat (b8 0) 3309) [].
Definition sample_block1 : Block :=
  mkBlock (mkBlockHeader 1 0 70 1700000100 (repeat (b8 1) 32))
    (default sample_coinbase (constructMinerTxPq sample_sha3 mainnet 1 1 0 100 10000 10 sample_key [b8 1]))
    (repeat (b8 0) 3309) [sample_id sample_spend].
Abbreviation sample_connect :=
  (connect sample_sha3 sample_sha3 sample_verify (fun d _ => Some d) mainnet NULL_HASH ∅ (fun _ => false)).
Definition sample_entry : BlockEntry := mkBlockEntry sample_block0 0 0 0 0 [].
Definition sample_state (db : Db) (b : Block) (txs : list Transaction) (hash : bytes) : Db * BlockEntry :=
  match sample_connect db b txs hash 1 no_proofs with (Ok (Some r), _) => r | _ => (empty_db, sample_entry) end.
Definition sample_db0 : Db * BlockEntry := sample_state empty_db sample_block0 [] (repeat (b8 1) 32).
Definition sample_db1 : Db * BlockEntry := sample_state (fst sample_db0) sample_block1 [sample_spend] (repeat (b8 2) 32).
Definition sample_two : list ChainBlock :=
  [mkChainBlock (snd sample_db0) (repeat (b8 1) 32) []; mkChainBlock (snd sample_db1) (repeat (b8 2) 32) [sample_spend]].

Lemma sample_extends n db b txs hash r : block_input sample_sha3 b txs -> bl (snd r) = b ->
  hash_to_height db !! hash = None -> previousBlockHash (header b) = getTailId db ->
  prevalidate_miner_transaction mainnet b n = true -> validate_block_signature sample_sha3 b n = true ->
  sample_connect db b txs hash 1 no_proofs = (Ok (Some r), no_proofs) ->
  extends sample_sha3 sample_sha3 sample_verify (fun d _ => Some d) mainnet NULL_HASH ∅ n db (mkChainBlock (snd r) hash txs) (fst r).
Proof.
  destruct r as [d e]. cbn [fst snd]. intros I <- Hn Hp Hm Hs H. constructor; try assumption.
  exists (fun _ => false), 1, no_proofs, no_proofs. exact H.
Qed.

Lemma sample_input_0 : block_input sample_sha3 sample_block0 [].
Proof.
  assert (S : storable sample_grant) by (apply sample_storable; vm_compute; reflexivity).
  constructor; [|reflexivity|repeat constructor; apply S|cbn; lia|constructor].
  split; [|split; [|split]]; [repeat split; vm_compute; congruence|reflexivity|apply S|split; [reflexivity|constructor]].
Qed.

Lemma sample_input_1 : block_input sample_sha3 sample_block1 [sample_spend].
Proof.
  assert (S : storable (baseTransaction sample_block1)) by (apply sample_storable; vm_compute; reflexivity).
  assert (S' : storable sample_spend) by (apply sample_storable; vm_compute; reflexivity).
  constructor; [|reflexivity|repeat constructor; first [apply S|apply S']|cbn; lia|].
  - split; [|split; [|split]]; [repeat split; vm_compute; congruence|reflexivity|apply S|].
    split; [reflexivity|]. repeat constructor.
  - constructor; [|constructor]. exists false. vm_compute. reflexivity.
Qed.

Abbreviation sample_holds := (holds sample_sha3 sample_sha3 sample_verify (fun d _ => Some d) mainnet NULL_HASH ∅).

Lemma sample_two_held : sample_holds sample_two (fst sample_db1).
Proof.
  apply (holds_block _ _ _ _ _ _ _ [mkChainBlock (snd sample_db0) (repeat (b8 1) 32) []] (fst sample_db0)).
  - apply (holds_block _ _ _ _ _ _ _ [] empty_db); [constructor|].
    apply (sample_extends _ _ sample_block0); [exact sample_input_0|vm_compute; reflexivity..].
  - apply (sample_extends _ _ sample_block1); [exact sample_input_1|vm_compute; reflexivity..].
Qed.

