(* ===== verification/ChainSwitch.v ===== *)
(** * Alternative chains

    How the node takes a new block ([Blockchain::addNewBlock]), keeps blocks that
    are not on the main chain and switches to a branch with more work
    ([handle_alternative_block], [switch_to_alternative_blockchain],
    [rollback_blockchain_switching]), moving transactions between the chain and
    the pool ([loadTransactions], [saveTransactions], [popBlock]), and what it
    records of a refused deep fork ([validateCompetingBlock],
    [recordFinalityFork], [resyncToMajority]); all in
    [CryptoNoteCore/Blockchain.cpp].

    The state is the node of [Blockchain], the pool of [TransactionPool] and the
    members that only this code uses. Every call that reads the world (the clock,
    the failures of LMDB) takes the next of an infinite sequence of worlds, so a
    run is a function of that sequence. *)

From Stdlib Require Import ZArith String List Lia Bool.
From stdpp Require Import countable gmap sets fin_maps.
From coqutil Require Import Byte Word.LittleEndianList.
From S2P Require Import Prelude Config Varint Wire Transaction IntUtil Currency Extra PqHash PqDerive PqValidation BlockFormat Db ChainStore Checkpoints ChainRules TransactionPool Blockchain Ledger.
Import ListNotations.
Open Scope string_scope.
Open Scope list_scope.
Open Scope Z_scope.
Open Scope discrete_scope.
Import Serialization TransactionExtra PqValidation FormatUtils LMDBBlockchainDB ChainStore ChainRules Blockchain.
Import BlockchainIndices TransactionPool ChainValidator.

Module ChainSwitch.

Record FinalityForkState := mkFinalityForkState {
  active : bool;
  localTipHeight : Z;
  localTipHash : bytes;
  competingTipHeight : Z;
  competingTipHash : bytes;
  divergenceHeight : Z;
  refusedDepth : Z
}.
Definition no_fork : FinalityForkState := mkFinalityForkState false 0 NULL_HASH 0 NULL_HASH 0 0.

(** [block_verification_context] *)
Record bvc := mkBvc {
  m_added_to_main_chain : bool;
  m_verification_failed : bool;
  m_marked_as_orphaned : bool;
  m_already_exists : bool;
  m_switched_to_alt_chain : bool;
  m_finality_fork : bool
}.
Definition bvc_init : bvc := mkBvc false false false false false false.
Definition bvc_failed : bvc := mkBvc false true false false false false.
Definition bvc_added : bvc := mkBvc true false false false false false.

(** The blockchain with its pool; [k_tick] counts the worlds used. *)
Record Chain := mkChain {
  k_node : Node;
  k_pool : Pool;
  m_orphanBlocksIndex : list (Z * bytes);
  m_finalityForkState : FinalityForkState;
  k_tick : nat
}.

Record World := mkWorld { w_env : Env; w_now : Z }.

(** A call that does not return: an exception leaves it, or the recursion of
    [handle_alternative_block] through [switch_to_alternative_blockchain] went
    deeper than asked for. *)
Inductive stop := Thrown (e : failure) | Unfinished.

Definition set_node (s : Chain) (n : Node) : Chain := mkChain n (k_pool s) (m_orphanBlocksIndex s) (m_finalityForkState s) (k_tick s).
Definition set_pool (s : Chain) (p : Pool) : Chain := mkChain (k_node s) p (m_orphanBlocksIndex s) (m_finalityForkState s) (k_tick s).
Definition set_orphans (s : Chain) o : Chain := mkChain (k_node s) (k_pool s) o (m_finalityForkState s) (k_tick s).
Definition set_fork (s : Chain) (f : FinalityForkState) : Chain := mkChain (k_node s) (k_pool s) (m_orphanBlocksIndex s) f (k_tick s).
Definition tick (s : Chain) : Chain := mkChain (k_node s) (k_pool s) (m_orphanBlocksIndex s) (m_finalityForkState s) (S (k_tick s)).

Definition db_of (s : Chain) : Db := current (m_db (k_node s)).
Definition alts (s : Chain) : gmap bytes BlockEntry := m_alternative_chains (k_node s).
Definition set_alts (s : Chain) (m : gmap bytes BlockEntry) : Chain :=
  let n := k_node s in
  set_node s (mkNode (m_db n) (m_batchCount n) (m_batchFastMode n) (m_freeRegProofs n) m (m_current_block_cumul_sz_limit n)).

(** Value-initialised objects: what [operator[]] and a failed read leave. *)
Definition default_block : Block :=
  mkBlock (mkBlockHeader 0 0 0 0 NULL_HASH) (mkTransaction (mkTransactionPrefix 0 0 0 [] [] []) []) [] [].
Definition default_entry : BlockEntry := mkBlockEntry default_block 0 0 0 0 [].
Definition alt_entry (s : Chain) (h : bytes) : BlockEntry := default default_entry (alts s !! h).

Definition read_block (db : Db) (height : Z) : Block :=
  match getBlockData db height with
  | Some bdata => default default_block (fromBinaryArray block_codec bdata)
  | None => default_block
  end.

Section Run.
Variable sha3_256 : bytes -> bytes.
Variable cn_fast_hash : bytes -> bytes.
Variable shake256 : bytes -> nat -> bytes.
Variable dsa_verify : bytes -> bytes -> bytes -> bool.
Variable yespower_discrete : bytes -> bytes -> bytes -> option bytes.
Variable y_slow_hash : bytes -> bytes -> option bytes.
Variable c : Currency.
Variable genesisBlockHash : bytes.
Variable m_checkpoints : Checkpoints.points.

(** The [parentBlock] member of a block object. *)
Variable parent_of : Block -> ParentBlock.
Variable world : nat -> World.

Definition env_of (s : Chain) : Env := w_env (world (k_tick s)).
Definition now_of (s : Chain) : Z := w_now (world (k_tick s)).

Definition validator_of (s : Chain) : Validator :=
  chain_validator sha3_256 cn_fast_hash dsa_verify y_slow_hash c genesisBlockHash m_checkpoints (db_of s)
    (m_freeRegProofs (k_node s)) (m_current_block_cumul_sz_limit (k_node s)).

Definition block_hash (b : Block) : bytes := default NULL_HASH (get_block_hash cn_fast_hash shake256 (parent_of b) b).

(** ** Between chain and pool *)

(** Putting transactions into the pool as [keptByBlock]: whether all were
    taken. *)
Fixpoint keep_all (v : Validator) (now : Z) (txs : list Transaction) (p : Pool) : bool * Pool :=
  match txs with
  | [] => (true, p)
  | t :: txs =>
      let '(ok, _, p) := add_tx_object sha3_256 cn_fast_hash c v now t true p in
      let '(rest, p) := keep_all v now txs p in
      (ok && rest, p)
  end.

Definition saveTransactions (transactions : list Transaction) (s : Chain) : Chain :=
  set_pool s (snd (keep_all (validator_of s) (now_of s) (rev transactions) (k_pool s))).

(** Put back the first that were taken, stopping at the first failure. *)
Fixpoint put_back (v : Validator) (now : Z) (txs : list Transaction) (p : Pool) : result stop Pool :=
  match txs with
  | [] => Ok p
  | t :: txs =>
      let '(ok, _, p) := add_tx_object sha3_256 cn_fast_hash c v now t true p in
      if ok then put_back v now txs p else Err (Thrown RuntimeError)
  end.

Fixpoint load_loop (v : Validator) (now : Z) (hashes : list bytes) (transactions : list Transaction) (p : Pool)
  : result stop (option (list Transaction) * Pool) :=
  match hashes with
  | [] => Ok (Some transactions, p)
  | h :: hashes =>
      match take_tx sha3_256 cn_fast_hash h p with
      | (Some (t, _, _), p) => load_loop v now hashes (transactions ++ [t]) p
      | (None, p) => let* p := put_back v now (rev transactions) p in Ok (None, p)
      end
  end.
Definition loadTransactions (block : Block) (s : Chain) : result stop (option (list Transaction) * Chain) :=
  let* (r, p) := load_loop (validator_of s) (now_of s) (transactionHashes block) [] (k_pool s) in
  Ok (r, set_pool s p).

(** [pushBlock(blockData, id, bvc, prevalidatedProof)]: added or not, with the
    flag of a failed verification. *)
Definition push_block (b : Block) (id : bytes) (proof : option bytes) (s : Chain) : result stop (bool * bvc * Chain) :=
  let env := env_of s in
  let* (r, s) := loadTransactions b s in
  match r with
  | None => Ok (false, bvc_failed, tick s)
  | Some transactions =>
      match pushBlock sha3_256 cn_fast_hash shake256 dsa_verify yespower_discrete y_slow_hash c genesisBlockHash m_checkpoints
              env (k_node s) (parent_of b) b transactions id proof with
      | (Added, n) => Ok (true, bvc_added, tick (set_node s n))
      | (VerificationFailed, n) => Ok (false, bvc_failed, tick (saveTransactions transactions (set_node s n)))
      | (NotAdded, n) => Ok (false, bvc_init, tick (saveTransactions transactions (set_node s n)))
      | (Escaped, _) => Err (Thrown RuntimeError)
      end
  end.

(** [popBlock]: the transactions go back to the pool before the block is taken
    off the tables. *)
Definition pop_block (s : Chain) : result stop Chain :=
  match popBlock sha3_256 cn_fast_hash (env_of s) (k_node s) with
  | Err e => Err (Thrown e)
  | Ok (transactions, n) => Ok (tick (set_node (saveTransactions transactions s) n))
  end.

Definition flush (s : Chain) : result stop Chain :=
  match flushBatch (env_of s) (k_node s) with
  | (Escaped, _) => Err (Thrown RuntimeError)
  | (_, n) => Ok (tick (set_node s n))
  end.

(** ** Switching *)

(** [while (height > rollback_height) popBlock();] *)
Fixpoint pop_while (fuel : nat) (rollback_height : Z) (s : Chain) : result stop Chain :=
  if rollback_height <? getChainHeight (db_of s) then
    match fuel with
    | O => Err Unfinished
    | S fuel => let* s := pop_block s in pop_while fuel rollback_height s
    end
  else Ok s.

Fixpoint push_all (blocks : list Block) (s : Chain) : result stop (bool * Chain) :=
  match blocks with
  | [] => Ok (true, s)
  | b :: blocks =>
      let* (r, _, s) := push_block b (block_hash b) None s in
      if r then push_all blocks s else Ok (false, s)
  end.

(** A block of the main chain goes with each [popBlock]: as many rounds as there
    are blocks. *)
Definition rollback_blockchain_switching (original_chain : list Block) (rollback_height : Z) (s : Chain)
  : result stop (bool * Chain) :=
  let* s := flush s in
  let* s := pop_while (Z.to_nat (getChainHeight (db_of s))) rollback_height s in
  push_all original_chain s.

(** Disconnecting [k] blocks from [split_height] on, newest first. *)
Fixpoint disconnect (k : nat) (split_height : Z) (s : Chain) (disconnected_chain : list Block)
  : result stop (list Block * Chain) :=
  match k with
  | O => Ok (disconnected_chain, s)
  | S k =>
      let b := read_block (db_of s) (split_height + Z.of_nat k) in
      let* s := pop_block s in
      disconnect k split_height s (b :: disconnected_chain)
  end.

(** Forget an alternative block. *)
Definition forget (h : bytes) (s : Chain) : Chain :=
  let height := get_block_height (bl (alt_entry s h)) in
  let s := set_orphans s (List.filter (fun e => negb ((fst e =? height) && (snd e ==b h))) (m_orphanBlocksIndex s)) in
  set_alts s (delete h (alts s)).
Definition forget_all (hashes : list bytes) (s : Chain) : Chain := fold_left (fun s h => forget h s) hashes s.

(** Connecting the branch; on a failure back to the original chain. *)
Fixpoint connect_branch (branch : list bytes) (disconnected_chain : list Block) (split_height : Z) (s : Chain)
  : result stop (bool * Chain) :=
  match branch with
  | [] => Ok (true, s)
  | h :: rest =>
      let b := bl (alt_entry s h) in
      let* (r, _, s) := push_block b (block_hash b) None s in
      if r then connect_branch rest disconnected_chain split_height s
      else
        let* (_, s) := rollback_blockchain_switching disconnected_chain split_height s in
        Ok (false, forget_all (h :: rest) s)
  end.

(** Up to the point where the branch is connected: the blocks it replaced, [None]
    when the switch failed. *)
Definition switch_chains (alt_chain : list bytes) (s : Chain) : result stop (option (list Block) * Chain) :=
  let* s := flush s in
  match alt_chain with
  | [] => Ok (None, s)
  | first :: _ =>
      let split_height := be_height (alt_entry s first) in
      let chainHeight := getChainHeight (db_of s) in
      if negb (split_height <? chainHeight) then Ok (None, s)
      else if negb (forallb (fun h => checkBlockVersion c (bl (alt_entry s h))) alt_chain) then Ok (None, s)
      else
        let* (disconnected_chain, s) := disconnect (Z.to_nat (chainHeight - split_height)) split_height s [] in
        let* (r, s) := connect_branch alt_chain disconnected_chain split_height s in
        Ok (if r then Some disconnected_chain else None, s)
  end.

Section Switch.
(** [handle_alternative_block] of an old main-chain block. *)
Variable handle : Block -> bytes -> Chain -> result stop (bool * bvc * Chain).

Fixpoint handle_old (blocks : list Block) (s : Chain) : result stop Chain :=
  match blocks with
  | [] => Ok s
  | b :: blocks =>
      let* (r, _, s) := handle b (block_hash b) s in
      if r then handle_old blocks s else Ok s
  end.

Definition switch_to_alternative_blockchain (alt_chain : list bytes) (discard_disconnected_chain : bool) (s : Chain)
  : result stop (bool * Chain) :=
  let* (r, s) := switch_chains alt_chain s in
  match r with
  | None => Ok (false, s)
  | Some disconnected_chain =>
      let* s := if discard_disconnected_chain then Ok s else handle_old disconnected_chain s in
      Ok (true, set_fork (forget_all alt_chain s) no_fork)
  end.
End Switch.

(** ** Alternative blocks *)

(** The transactions of a block, from the chain or the pool: their sizes (the
    ones found nowhere do not count). *)
Fixpoint known_sizes (db : Db) (p : Pool) (ids : list bytes) : result stop Z :=
  match ids with
  | [] => Ok 0
  | i :: ids =>
      match getTxIndex db i with
      | Some (block, slot) =>
          match transactionByIndex db block slot with
          | Err e => Err (Thrown e)
          | Ok te => let* rest := known_sizes db p ids in Ok (len (tx_blob (te_tx te)) + rest)
          end
      | None =>
          let* rest := known_sizes db p ids in
          Ok (match getTransaction p i with Some t => len (tx_blob t) | None => 0 end + rest)
      end
  end.
Definition getBlockCumulativeSize (s : Chain) (block : Block) : result stop Z :=
  let* sizes := known_sizes (db_of s) (k_pool s) (transactionHashes block) in
  Ok (w64 (len (tx_blob (baseTransaction block)) + sizes)).

(** The do-while loop of [complete_timestamps_vector], at most [start + 1]
    rounds. *)
Fixpoint timestamps_loop (fuel : nat) (db : Db) (start_top_height stop_offset : Z) : list Z :=
  match fuel with
  | O => []
  | S fuel =>
      m_timestamp (getBlockMeta_or_zero db start_top_height) ::
      (if start_top_height =? 0 then []
       else if start_top_height - 1 =? stop_offset then []
       else timestamps_loop fuel db (start_top_height - 1) stop_offset)
  end.
Definition complete_timestamps_vector (db : Db) (start_top_height : Z) (timestamps : list Z) : list Z :=
  let window := timestampCheckWindow_v1 c in
  if window <=? Z.of_nat (length timestamps) then timestamps
  else
    let need_elements := window - Z.of_nat (length timestamps) in
    if negb (start_top_height <? getChainHeight db) then timestamps
    else
      let stop_offset := if need_elements <? start_top_height then start_top_height - need_elements else 0 in
      timestamps ++ timestamps_loop (S (Z.to_nat start_top_height)) db start_top_height stop_offset.

(** The branch that ends in [h], root first, with the timestamps newest first;
    [None] after more steps than there are alternative blocks. *)
Fixpoint walk_branch (fuel : nat) (m : gmap bytes BlockEntry) (h : bytes) (branch : list bytes) (timestamps : list Z)
  : option (list bytes * list Z) :=
  match m !! h with
  | None => Some (branch, timestamps)
  | Some e =>
      match fuel with
      | O => None
      | S fuel => walk_branch fuel m (previousBlockHash (header (bl e))) (h :: branch) (timestamps ++ [timestamp (header (bl e))])
      end
  end.

(** ** Refused deep forks *)

(** [validateCompetingBlock]: the height of the block, by its stored parent. *)
Definition validateCompetingBlock (s : Chain) (b : Block) : option Z :=
  let f := m_finalityForkState s in
  match (match alts s !! previousBlockHash (header b) with
         | Some e => Some (be_height e)
         | None => getHashHeight (db_of s) (previousBlockHash (header b))
         end) with
  | None => None
  | Some parentHeight =>
      let validatedHeight := w32 (parentHeight + 1) in
      if active f && (divergenceHeight f <=? w32 (validatedHeight - 1)) && (validatedHeight <=? competingTipHeight f) then None
      else if negb (checkBlockVersion c b) then None
      else if negb (checkParentBlockSize cn_fast_hash (parent_of b) b) then None
      else if negb (prevalidate_miner_transaction c b validatedHeight) then None
      else if negb (validate_block_signature sha3_256 b validatedHeight) then None
      else
        let diff := getDifficultyForNextBlock c (db_of s) (alts s) (previousBlockHash (header b)) in
        if diff =? 0 then None
        else if negb (checkProofOfWork cn_fast_hash shake256 dsa_verify yespower_discrete b diff) then None
        else Some validatedHeight
  end.

Definition recordFinalityFork (chainLen altBlockHeight : Z) (altBlockId : bytes) (s : Chain) : Chain :=
  let f := m_finalityForkState s in
  let localTip := w32 (chainLen - 1) in
  let divergence := w32 (altBlockHeight - 1) in
  let d := if active f then Z.min (divergenceHeight f) divergence else divergence in
  let newer := negb (active f) || (competingTipHeight f <=? altBlockHeight) in
  set_fork s (mkFinalityForkState true localTip (getTailId (db_of s))
                (if newer then altBlockHeight else competingTipHeight f)
                (if newer then altBlockId else competingTipHash f)
                d (w32 (localTip - d))).

(** [resyncToMajority]: [envs] are those of [rollbackBlockchainTo]. *)
Definition resyncToMajority (envs : list (Env * Env)) (s : Chain) : result stop (bool * Chain) :=
  if negb (active (m_finalityForkState s)) then Ok (false, s)
  else
    let target := divergenceHeight (m_finalityForkState s) in
    let tipBefore := w32 (getChainHeight (db_of s) - 1) in
    if negb (target <? tipBefore) then Ok (false, s)
    else
      match rollbackBlockchainTo sha3_256 cn_fast_hash (env_of s) envs target (k_node s) with
      | None => Err (Thrown RuntimeError)
      | Some n => Ok (true, set_fork (tick (set_node s n)) no_fork)
      end.

(** ** [handle_alternative_block] *)

(** Where a block attaches: the branch it extends (root first, empty on the main
    chain), the timestamps before it and its height. *)
Record Attachment := mkAttachment { at_branch : list bytes; at_timestamps : list Z; at_height : Z; at_difficulty : Z }.

(** [None] is a plain [return false]. *)
Definition attach (s : Chain) (b : Block) : result stop (option Attachment) :=
  let db := db_of s in
  let prev := previousBlockHash (header b) in
  match walk_branch (size (alts s)) (alts s) prev [] [] with
  | None => Err Unfinished
  | Some (branch, timestamps) =>
      match branch with
      | first :: _ =>
          let root := alt_entry s first in
          if negb (be_height root <? getChainHeight db) then Ok None
          else if negb (block_hash (read_block db (be_height root - 1)) ==b previousBlockHash (header (bl root))) then Ok None
          else Ok (Some (mkAttachment branch (complete_timestamps_vector db (be_height root - 1) timestamps)
                           (w32 (be_height (alt_entry s prev) + 1)) (cumulative_difficulty (alt_entry s prev))))
      | [] =>
          match getHashHeight db prev with
          | None => Ok None
          | Some mainPrevHeight =>
              Ok (Some (mkAttachment [] (complete_timestamps_vector db mainPrevHeight timestamps)
                          (w32 (mainPrevHeight + 1)) (m_cumulativeDifficulty (getBlockMeta_or_zero db mainPrevHeight))))
          end
      end
  end.

(** The checks of a block on its branch: the difficulty when they pass, otherwise
    the flags of the refusal. *)
Definition check_branch_block (s : Chain) (a : Attachment) (b : Block) (id : bytes) (proof : option bytes) : result bvc Z :=
  check check_block_timestamp c (at_timestamps a) b else bvc_failed ;;
  check fst (Checkpoints.check_block m_checkpoints (at_height a) id) else bvc_failed ;;
  check negb ((BLOCK_MAJOR_VERSION_5 <=? majorVersion (header b)) &&
              is_some (getMergeMiningTagFromExtra (extra (prefix (baseTransaction b))))) else bvc_init ;;
  let current_diff := getDifficultyForNextBlock c (db_of s) (alts s) (previousBlockHash (header b)) in
  check negb (current_diff =? 0) else bvc_init ;;
  check match proof with
        | Some proof_of_work => Difficulty.check_hash proof_of_work current_diff
        | None => checkProofOfWork cn_fast_hash shake256 dsa_verify yespower_discrete b current_diff
        end else bvc_failed ;;
  check prevalidate_miner_transaction c b (at_height a) else bvc_failed ;;
  check validate_block_signature sha3_256 b (at_height a) else bvc_failed ;;
  Ok current_diff.

(** The checks before the branch is looked for. *)
Definition check_alternative (s : Chain) (b : Block) (id : bytes) : result stop (result (bvc * Chain) unit) :=
  let block_height := get_block_height b in
  let chainLen := getChainHeight (db_of s) in
  if block_height =? 0 then Ok (Err (bvc_failed, s))
  else if negb (Checkpoints.is_alternative_block_allowed m_checkpoints chainLen block_height) then
    match (if Checkpoints.is_finality_violation m_checkpoints chainLen block_height then validateCompetingBlock s b else None) with
    | Some validatedHeight =>
        Ok (Err (mkBvc false true false false false true, recordFinalityFork chainLen validatedHeight id s))
    | None => Ok (Err (bvc_failed, s))
    end
  else if negb (checkBlockVersion c b) then Ok (Err (bvc_failed, s))
  else if negb (checkParentBlockSize cn_fast_hash (parent_of b) b) then Ok (Err (bvc_failed, s))
  else
    let* cumulativeSize := getBlockCumulativeSize s b in
    if negb (checkCumulativeBlockSize c cumulativeSize block_height) then Ok (Err (bvc_failed, s)) else Ok (Ok tt).

Definition switched (r : bool) : bvc := if r then mkBvc true false false false true false else bvc_failed.

(** [depth] bounds the nesting through [switch_to_alternative_blockchain]. *)
Fixpoint handle_alternative_block (depth : nat) (b : Block) (id : bytes) (proof : option bytes) (s : Chain)
  : result stop (bool * bvc * Chain) :=
  match depth with
  | O => Err Unfinished
  | S depth =>
      let* r := check_alternative s b id in
      match r with
      | Err (ctx, s) => Ok (false, ctx, s)
      | Ok _ =>
          let prev := previousBlockHash (header b) in
          if negb (bool_decide (is_Some (alts s !! prev)) || is_some (getHashHeight (db_of s) prev))
          then Ok (true, mkBvc false false true false false false, s)
          else
            let* a := attach s b in
            match a with
            | None => Ok (false, bvc_init, s)
            | Some a =>
                match check_branch_block s a b id proof with
                | Err ctx => Ok (false, ctx, s)
                | Ok current_diff =>
                    let bei := mkBlockEntry b (at_height a) 0 (w64 (at_difficulty a + current_diff)) 0 [] in
                    match alts s !! id with
                    | Some _ => Ok (false, bvc_init, s)
                    | None =>
                        let s := set_orphans (set_alts s (<[id := bei]> (alts s))) ((at_height a, id) :: m_orphanBlocksIndex s) in
                        let alt_chain := at_branch a ++ [id] in
                        let switch discard :=
                          let* (r, s) := switch_to_alternative_blockchain
                                           (fun b id s => handle_alternative_block depth b id None s) alt_chain discard s in
                          Ok (r, switched r, s) in
                        if snd (Checkpoints.check_block m_checkpoints (at_height a) id) then switch true
                        else
                          let ch := getChainHeight (db_of s) in
                          let tailMeta := getBlockMeta_or_zero (db_of s) (ch - 1) in
                          if m_cumulativeDifficulty tailMeta <? cumulative_difficulty bei then switch false
                          else Ok (true, bvc_init, s)
                    end
                end
            end
      end
  end.

(** ** [addNewBlock] *)

(** [proof]: the hash of a block and its proof of work, validated beforehand. *)
Definition addNewBlock (depth : nat) (b : Block) (proof : option (bytes * bytes)) (s : Chain) : result stop (bool * bvc * Chain) :=
  match get_block_hash cn_fast_hash shake256 (parent_of b) b with
  | None => Ok (false, bvc_failed, s)
  | Some id =>
      if match proof with Some (blockHash, _) => negb (blockHash ==b id) | None => false end then Ok (false, bvc_failed, s)
      else if is_some (getHashHeight (db_of s) id) || bool_decide (is_Some (alts s !! id))
      then Ok (false, mkBvc false false false true false false, s)
      else if negb (previousBlockHash (header b) ==b getTailId (db_of s))
      then handle_alternative_block depth b id (option_map snd proof) s
      else push_block b id (option_map snd proof) s
  end.

End Run.
End ChainSwitch.
Import ChainSwitch.

(** ** What the pool holds between blocks *)

(** A transaction that came over the wire and passed the admission check. *)
Definition admitted (sha3_256 : bytes -> bytes) (t : Transaction) : Prop :=
  storable t /\ exists kept, Core.check_tx_semantic sha3_256 t kept = true.

Section Pool.
Variable sha3_256 : bytes -> bytes.
Variable cn_fast_hash : bytes -> bytes.
Variable dsa_verify : bytes -> bytes -> bytes -> bool.
Variable y_slow_hash : bytes -> bytes -> option bytes.
Variable c : Currency.
Variable genesisBlockHash : bytes.
Variable points : Checkpoints.points.

Abbreviation admitted := (admitted sha3_256).
Definition txid (t : Transaction) : bytes := snd (getObjectHash cn_fast_hash tx_codec t).
Definition pooled (d : TransactionDetails) : Prop := admitted (tx d) /\ id d = txid (tx d).
Definition pool_sound (p : Pool) : Prop := good sha3_256 c p /\ Forall pooled (m_transactions p).
Definition ids (p : Pool) : list bytes := map id (m_transactions p).

Abbreviation validator db pr limit :=
  (chain_validator sha3_256 cn_fast_hash dsa_verify y_slow_hash c genesisBlockHash points db pr limit).

Lemma storable_size t : storable t -> 0 < len (tx_blob t) < 2 ^ 63.
Proof.
  intros [W L]. destruct (toBinaryArray_total tx_codec t W) as (b & E & R). unfold tx_blob in *. rewrite E in *.
  cbn [default] in *. unfold Datatypes.id in *. split; [|lia].
  destruct b as [|x b]; [vm_compute in R; discriminate|]. unfold len. cbn [length]. lia.
Qed.

(** Admission settles what [add_tx] asks of a transaction a block carries. *)
Lemma admitted_shape t : admitted t -> check_inputs_types_supported (prefix t) = true /\
  ((TRANSACTION_VERSION_1 <=? version (prefix t)) && isPqTransfer (txType (prefix t)) = true \/ (0 <? getOutputAmount t) = false).
Proof.
  intros [[W _] [kept S]]. unfold Core.check_tx_semantic in S.
  unfold check_inputs_types_supported. destruct (TRANSACTION_VERSION_1 <=? version (prefix t)) eqn:V; cbn [andb].
  - destruct (isPqTransfer (txType (prefix t))) eqn:P.
    + split; [|now left]. destruct (checkPqTransactionSemantic t) as [[]|] eqn:E; [|discriminate].
      apply semantic_iff in E as (_ & _ & _ & _ & _ & St & _); [|now apply wf_refs_nonneg].
      apply forallb_forall. intros x Hx. apply in_split in Hx as (a & b & Hx). destruct (St a x b Hx) as (k & -> & _). reflexivity.
    + destruct (_ =? TX_FREE_REG); [|discriminate]. destruct (checkFreeRegTransactionShape t) eqn:E; [|discriminate].
      unfold checkFreeRegTransactionShape in E. inv_bind E. inv_bind E. inv_guard. bprop.
      unfold getOutputAmount. destruct (inputs (prefix t)); [|discriminate]. destruct (outputs (prefix t)); [|discriminate]. auto.
  - rewrite !andb_true_iff in S. destruct S as ((((((_ & T) & _) & _) & A) & _) & _).
    unfold check_inputs_types_supported in T. rewrite V in T. split; [exact T|right]. apply negb_true_iff in A. exact A.
Qed.

Lemma admitted_fee db pr limit t : admitted t -> is_Some (v_checkTransactionInputs (validator db pr limit) t) ->
  (TRANSACTION_VERSION_1 <=? version (prefix t)) && isPqTransfer (txType (prefix t)) = true ->
  is_Some (v_getPqTransactionFee (validator db pr limit) t).
Proof.
  intros [[W _] [kept S]] [b V] Q. cbn [v_checkTransactionInputs v_getPqTransactionFee chain_validator] in *.
  apply andb_true_iff in Q as [Qv Qt]. unfold Core.check_tx_semantic in S. rewrite Qv, Qt in S.
  destruct (checkPqTransactionSemantic t) as [[]|] eqn:E; [|discriminate].
  unfold checkTransactionInputs_block, check_at_tip, checkTransactionInputs in V. rewrite Qt in V.
  destruct (negb (version _ =? _)); [discriminate|]. destruct (_ && isPqAccountAlreadyRegistered _ _ _); [discriminate|].
  destruct (negb _); [discriminate|]. cbn [fst] in V.
  destruct (checkPqInputs sha3_256 dsa_verify c genesisBlockHash db t) as [h|] eqn:C; [|discriminate].
  destruct (checkPqInputs_ok sha3_256 dsa_verify c genesisBlockHash db t h W E C) as (ks & x & T).
  exists x. exact (transfer_fee sha3_256 c db t ks x T W).
Qed.

(** Keeping one transaction. *)
Lemma keep_one db pr limit now t p : admitted t -> pool_sound p ->
  let q := snd (add_tx_object sha3_256 cn_fast_hash c (validator db pr limit) now t true p) in
  pool_sound q /\ forall i, i ∈ ids q <-> i ∈ ids p \/ i = txid t.
Proof.
  intros A [G P]. unfold add_tx_object. fold (txid t). set (v := validator db pr limit).
  pose proof (add_tx_effect sha3_256 cn_fast_hash c v now t (txid t) (len (tx_blob t)) true p
    ltac:(apply chain_validator_laws) (storable_size t (proj1 A)) G) as H.
  destruct (admitted_shape t A) as [Ht Ha].
  pose proof (add_kept_stored sha3_256 cn_fast_hash c v now t (txid t) (len (tx_blob t)) p Ht Ha (admitted_fee db pr limit t A)) as K.
  destruct (add_tx _ _ _ _ _ _ _ _ _ _) as [[ok ctx] q]. cbn [fst snd] in K |- *. destruct H as [Gq [(-> & N) | (_ & E)]].
  - split; [split; assumption|]. intros i. split; [auto|]. intros [Hi| ->]; [exact Hi|].
    destruct (find_tx (txid t) (m_transactions p)) as [d|] eqn:F; [|rewrite (K eq_refl) in N; discriminate].
    apply find_tx_spec in F as [Hd <-]. apply elem_of_ids. eauto.
  - pose proof (insert_by_fee_perm (new_entry v now t (txid t) (len (tx_blob t)) true) (m_transactions p)) as Pm. rewrite <- E in Pm.
    split; [split; [exact Gq|]|].
    + rewrite Pm. constructor; [split; [exact A|reflexivity]|exact P].
    + intros i. unfold ids. rewrite Pm. cbn [map]. rewrite elem_of_cons. cbn [id new_entry]. tauto.
Qed.

Lemma keep_all_spec db pr limit now txs : forall p, Forall admitted txs -> pool_sound p ->
  let q := snd (keep_all sha3_256 cn_fast_hash c (validator db pr limit) now txs p) in
  pool_sound q /\ forall i, i ∈ ids q <-> i ∈ ids p \/ i ∈ map txid txs.
Proof.
  induction txs as [|t txs IH]; intros p A P; cbn [keep_all]; [split; [exact P|]; set_solver|].
  inversion_clear A as [|? ? At As]. pose proof (keep_one db pr limit now t p At P) as H.
  destruct (add_tx_object _ _ _ _ _ _ _ _) as [[ok ctx] q]. cbn [snd] in H. destruct H as [Pq Iq].
  specialize (IH q As Pq). destruct (keep_all _ _ _ _ _ _ q) as [rest r]. cbn [snd] in *. destruct IH as [Pr Ir].
  split; [exact Pr|]. intros i. rewrite Ir, Iq. cbn [map]. rewrite elem_of_cons. tauto.
Qed.

Lemma put_back_spec db pr limit now txs : forall p q, Forall admitted txs -> pool_sound p ->
  put_back sha3_256 cn_fast_hash c (validator db pr limit) now txs p = Ok q ->
  pool_sound q /\ forall i, i ∈ ids q <-> i ∈ ids p \/ i ∈ map txid txs.
Proof.
  induction txs as [|t txs IH]; intros p q A P H; cbn [put_back] in H; [injection H as <-; split; [exact P|]; set_solver|].
  inversion_clear A as [|? ? At As]. pose proof (keep_one db pr limit now t p At P) as K.
  destruct (add_tx_object _ _ _ _ _ _ _ _) as [[ok ctx] r]. cbn [snd] in K. destruct K as [Pr Ir]. destruct ok; [|discriminate].
  destruct (IH r q As Pr H) as [Pq Iq]. split; [exact Pq|]. intros i. rewrite Iq, Ir. cbn [map]. rewrite elem_of_cons. tauto.
Qed.

Lemma take_one h p t sz fe q : pool_sound p -> take_tx sha3_256 cn_fast_hash h p = (Some (t, sz, fe), q) ->
  pool_sound q /\ admitted t /\ txid t = h /\ forall i, i ∈ ids p <-> i ∈ ids q \/ i = h.
Proof.
  intros [G P] H. pose proof (take_good sha3_256 cn_fast_hash c h p G) as Gq. rewrite H in Gq. cbn [snd] in Gq.
  unfold take_tx in H. destruct (find_tx h (m_transactions p)) as [d|] eqn:F; [|discriminate]. injection H as <- _ _ <-.
  apply find_tx_spec in F as [Hd Hi]. destruct (pool_remove sha3_256 cn_fast_hash d p (proj1 G) Hd) as [_ E].
  destruct (erase_tx_perm d (m_transactions p) Hd (pk_ids _ _ (proj1 G))) as [Pm _]. rewrite <- E in Pm.
  rewrite Pm in P. inversion_clear P as [|? ? [Ad Ed] Pq]. split; [split; assumption|]. split; [exact Ad|].
  split; [now rewrite <- Ed|]. intros i. unfold ids. rewrite Pm at 1. cbn [map]. rewrite elem_of_cons, Hi. tauto.
Qed.

Lemma load_loop_spec db pr limit now hashes : forall taken p r q, Forall admitted taken -> pool_sound p ->
  load_loop sha3_256 cn_fast_hash c (validator db pr limit) now hashes taken p = Ok (r, q) ->
  pool_sound q /\
  match r with
  | Some txs => exists more, txs = taken ++ more /\ Forall admitted more /\ map txid more = hashes /\
                  forall i, i ∈ ids p <-> i ∈ ids q \/ i ∈ hashes
  | None => forall i, i ∈ ids q <-> i ∈ ids p \/ i ∈ map txid taken
  end.
Proof.
  induction hashes as [|h hashes IH]; intros taken p r q A P H; cbn [load_loop] in H.
  - injection H as <- <-. split; [exact P|]. exists []. rewrite app_nil_r. set_solver.
  - destruct (take_tx sha3_256 cn_fast_hash h p) as [[[[t sz] fe]|] p1] eqn:T.
    + destruct (take_one h p t sz fe p1 P T) as (P1 & At & Et & I1).
      destruct (IH (taken ++ [t]) p1 r q) as [Pq R]; [apply Forall_app; split; [exact A|now constructor]|exact P1|exact H|].
      split; [exact Pq|]. destruct r as [txs|].
      * destruct R as (more & -> & Am & Em & I2). exists (t :: more). rewrite <- app_assoc. cbn [map app].
        split; [reflexivity|]. split; [now constructor|]. split; [congruence|]. intros i. rewrite I1, I2, elem_of_cons. tauto.
      * intros i. rewrite R, map_app, elem_of_app, I1. cbn [map]. rewrite list_elem_of_singleton, Et. tauto.
    + assert (p1 = p) by (unfold take_tx in T; destruct (find_tx h (m_transactions p)); congruence). subst p1.
      destruct (put_back _ _ _ _ _ _ _) as [p2|] eqn:B; [|discriminate]. cbn [bind] in H. injection H as <- <-.
      apply put_back_spec in B as [P2 I2]; [|now apply Forall_rev|exact P]. split; [exact P2|].
      intros i. rewrite I2, map_rev. rewrite !list_elem_of_In, <- in_rev. tauto.
Qed.
End Pool.

(** ** What each call keeps *)

Lemma catch_alts env e n : m_alternative_chains (snd (catch env e n)) = m_alternative_chains n.
Proof. unfold catch. destruct (_ && _); [reflexivity|]. destruct e; [destruct (resize_fails env)|]; reflexivity. Qed.

Lemma begin_alts env n : m_alternative_chains (snd (beginBatchIfNeeded env n)) = m_alternative_chains n.
Proof.
  unfold beginBatchIfNeeded. destruct (_ =? 0); [|reflexivity]. destruct (grow_fails env); [reflexivity|].
  destruct (begin_fails env); reflexivity.
Qed.

Lemma commit_alts env force n : m_alternative_chains (snd (commitBatchOrBlock env force n)) = m_alternative_chains n.
Proof.
  unfold commitBatchOrBlock. destruct (_ || _); [|reflexivity]. destruct (commit_fails env); [reflexivity|].
  cbn [m_batchFastMode set_db set_batch]. destruct (m_batchFastMode n); [|reflexivity].
  destruct (sync_fails env); [reflexivity|]. destruct (negb _); reflexivity.
Qed.

Lemma flush_alts env n : m_alternative_chains (snd (flushBatch env n)) = m_alternative_chains n.
Proof.
  unfold flushBatch. destruct (_ =? 0); [reflexivity|]. cbn [m_batchFastMode set_db set_batch].
  destruct (commit_fails env), (m_batchFastMode n); try reflexivity; [destruct (handler_sync_fails env)|destruct (sync_fails env)]; reflexivity.
Qed.

Section Keeps.
Variable sha3_256 : bytes -> bytes.
Variable cn_fast_hash : bytes -> bytes.
Variable shake256 : bytes -> nat -> bytes.
Variable dsa_verify : bytes -> bytes -> bytes -> bool.
Variable yespower_discrete : bytes -> bytes -> bytes -> option bytes.
Variable y_slow_hash : bytes -> bytes -> option bytes.
Variable c : Currency.
Variable genesisBlockHash : bytes.
Variable points : Checkpoints.points.

Lemma push_alts env n parent b txs hash proof :
  m_alternative_chains (snd (pushBlock sha3_256 cn_fast_hash shake256 dsa_verify yespower_discrete y_slow_hash c genesisBlockHash points
    env n parent b txs hash proof)) = m_alternative_chains n.
Proof.
  unfold pushBlock. destruct (check_header _ _ _ _ _ _ _ _ _ _ _ _ _ _) as [diff|]; [|reflexivity].
  pose proof (begin_alts env n) as B. destruct (beginBatchIfNeeded env n) as [[e|] m]; cbn [snd] in B; [now rewrite catch_alts|].
  destruct (if 0 <? m_batchCount m then begin_nested_fails env else None); [now rewrite catch_alts|].
  set (m1 := if 0 <? m_batchCount m then set_db m (beginNestedWriteTxn (m_db m)) else m).
  assert (B1 : m_alternative_chains m1 = m_alternative_chains n) by (subst m1; destruct (0 <? m_batchCount m); exact B). clearbody m1.
  destruct (connect _ _ _ _ _ _ _ _ _ _ _ _ _ _) as [[[[db e]|]|e] s']; [| |rewrite catch_alts; exact B1].
  2: { cbn [snd]. unfold abortCurrentBlockTxn. destruct (_ && _); [exact B1|]. destruct (_ && _); exact B1. }
  destruct (if 0 <? m_batchCount m then commit_nested_fails env else None); [rewrite catch_alts; exact B1|].
  match goal with |- context [commitBatchOrBlock env ?f ?x] => pose proof (commit_alts env f x) as C; destruct (commitBatchOrBlock env f x) as [[e1|] m3] end;
    cbn [snd] in C |- *; rewrite ?catch_alts; cbn [m_alternative_chains set_limit]; rewrite C; destruct (0 <? m_batchCount m); exact B1.
Qed.

Lemma remove_alts env n n' : removeLastBlock sha3_256 cn_fast_hash env n = Ok n' -> m_alternative_chains n' = m_alternative_chains n.
Proof.
  unfold removeLastBlock. intros H. inv_bind H. destruct a as [rm|]; [|injection H as <-; reflexivity].
  destruct (hasActiveTxn (m_db n)); [inv_bind H; injection H as <-; reflexivity|].
  destruct (begin_fails env); [discriminate|]. inv_bind H. destruct (commit_fails env); [discriminate|]. injection H as <-. reflexivity.
Qed.

Lemma pop_alts env n txs n' : popBlock sha3_256 cn_fast_hash env n = Ok (txs, n') -> m_alternative_chains n' = m_alternative_chains n.
Proof.
  unfold popBlock. destruct (_ =? 0); [intros [= _ <-]; reflexivity|]. intros H. inv_bind H. inv_bind H. injection H as _ <-.
  eapply remove_alts. eassumption.
Qed.
End Keeps.

(** ** The chain under the calls *)

(** A block that came over the wire. *)
Definition block_ok (b : Block) : Prop :=
  wf_Block b /\ storable (baseTransaction b) /\ Z.of_nat (S (length (transactionHashes b))) < 2 ^ 16.

Section Chains.
Variable sha3_256 : bytes -> bytes.
Variable cn_fast_hash : bytes -> bytes.
Variable shake256 : bytes -> nat -> bytes.
Variable dsa_verify : bytes -> bytes -> bytes -> bool.
Variable yespower_discrete : bytes -> bytes -> bytes -> option bytes.
Variable y_slow_hash : bytes -> bytes -> option bytes.
Variable c : Currency.
Variable genesisBlockHash : bytes.
Variable points : Checkpoints.points.
Variable parent_of : Block -> ParentBlock.
Variable world : nat -> World.

Abbreviation holds := (holds sha3_256 cn_fast_hash dsa_verify y_slow_hash c genesisBlockHash points).
Abbreviation extends := (extends sha3_256 cn_fast_hash dsa_verify y_slow_hash c genesisBlockHash points).
Abbreviation node_holds := (node_holds sha3_256 cn_fast_hash dsa_verify y_slow_hash c genesisBlockHash points).
Abbreviation block_hash := (block_hash cn_fast_hash shake256 parent_of).
Abbreviation push_block :=
  (push_block sha3_256 cn_fast_hash shake256 dsa_verify yespower_discrete y_slow_hash c genesisBlockHash points parent_of world).
Abbreviation pop_block := (pop_block sha3_256 cn_fast_hash dsa_verify y_slow_hash c genesisBlockHash points world).
Abbreviation txid := (txid cn_fast_hash).
Abbreviation pool_sound := (pool_sound sha3_256 cn_fast_hash c).

Definition alts_ok (m : gmap bytes BlockEntry) : Prop := forall h e, m !! h = Some e -> block_ok (bl e) /\ 0 <= be_height e.

(** The state has the chain [chain], of which [old] is on disk. *)
Record on (s : Chain) (old chain : list ChainBlock) : Prop := {
  on_node : node_holds (k_node s) old chain;
  on_pool : pool_sound (k_pool s);
  on_alts : alts_ok (alts s);
  on_fork : 0 <= divergenceHeight (m_finalityForkState s)
}.
Definition pending (s : Chain) : Z := m_batchCount (k_node s).
Definition in_pool (s : Chain) (i : bytes) : Prop := i ∈ ids (k_pool s).

Lemma loaded_input b txs : block_ok b -> Forall (admitted sha3_256) txs -> map txid txs = transactionHashes b -> block_input sha3_256 b txs.
Proof.
  intros (W & S & L) A E. assert (El : length (transactionHashes b) = length txs) by (now rewrite <- E, length_map).
  rewrite List.Forall_forall in A. constructor; try assumption.
  - constructor; [exact S|]. apply List.Forall_forall. intros t Ht. apply (A t Ht).
  - now rewrite <- El.
  - apply List.Forall_forall. intros t Ht. apply (A t Ht).
Qed.

Lemma kept_pool txs s : Forall (admitted sha3_256) txs -> pool_sound (k_pool s) ->
  let s' := saveTransactions sha3_256 cn_fast_hash dsa_verify y_slow_hash c genesisBlockHash points world txs s in
  pool_sound (k_pool s') /\ forall i, in_pool s' i <-> in_pool s i \/ i ∈ map txid txs.
Proof.
  intros A P. unfold saveTransactions, in_pool. cbn [k_pool set_pool].
  destruct (keep_all_spec sha3_256 cn_fast_hash dsa_verify y_slow_hash c genesisBlockHash points (db_of s) (m_freeRegProofs (k_node s))
    (m_current_block_cumul_sz_limit (k_node s)) (now_of world s) (rev txs) (k_pool s)) as [Q I]; [now apply Forall_rev|exact P|].
  split; [exact Q|]. intros i. rewrite (I i), map_rev, !list_elem_of_In, <- in_rev. tauto.
Qed.

(** A block is added on top; or the chain is what it was, or back on disk, or (a
    failed flush after the commit) has the block although the call denies it. *)
Lemma push_block_on b id proof s old chain r ctx s' : on s old chain -> block_ok b ->
  push_block b id proof s = Ok (r, ctx, s') ->
  alts s' = alts s /\
  if r then exists k old', cb_block k = b /\ cb_hash k = id /\ (old' = old \/ old' = chain ++ [k]) /\ on s' old' (chain ++ [k]) /\
    forall i, in_pool s i <-> in_pool s' i \/ i ∈ map txid (cb_txs k)
  else (on s' old chain \/ on s' old old \/ exists k, cb_block k = b /\ on s' (chain ++ [k]) (chain ++ [k])) /\
    forall i, in_pool s' i <-> in_pool s i.
Proof.
  intros [N P A Fk] B H. unfold ChainSwitch.push_block, loadTransactions in H.
  destruct (load_loop _ _ _ _ _ _ _ _) as [[l p1]|] eqn:L; [|discriminate]. cbn [bind] in H.
  apply load_loop_spec in L as [P1 R]; [|constructor|exact P]. destruct l as [txs|].
  2: { injection H as <- <- <-. split; [reflexivity|]. split; [left; now constructor|]. intros i. unfold in_pool. cbn. rewrite (R i). set_solver. }
  destruct R as (more & -> & Am & Em & I1). cbn [app] in H. cbn [k_node set_pool] in H.
  pose proof (push_alts sha3_256 cn_fast_hash shake256 dsa_verify yespower_discrete y_slow_hash c genesisBlockHash points
    (env_of world s) (k_node s) (parent_of b) b more id proof) as PA.
  destruct (pushBlock _ _ _ _ _ _ _ _ _ _ _ _ _ _ _ _) as [v n] eqn:Q. cbn [snd] in PA.
  pose proof (loaded_input b more B Am Em) as I. apply (pushBlock_outcome _ _ _ _ _ _ _ _ _ _ _ _ _ _ _ _ _ _ _ _ N I) in Q.
  assert (Al : alts_ok (m_alternative_chains n)) by (rewrite PA; exact A).
  set (s1 := set_node (set_pool s p1) n) in *.
  destruct (kept_pool more s1 Am P1) as [P2 I2].
  assert (Back : forall i, in_pool (tick (saveTransactions sha3_256 cn_fast_hash dsa_verify y_slow_hash c genesisBlockHash points world more s1)) i <-> in_pool s i).
  { intros i. etransitivity; [exact (I2 i)|]. unfold in_pool at 1. cbn [k_pool s1 set_node set_pool]. rewrite Em. symmetry. exact (I1 i). }
  assert (Fail : forall o ch, node_holds n o ch -> on (tick (saveTransactions sha3_256 cn_fast_hash dsa_verify y_slow_hash c genesisBlockHash points world more s1)) o ch)
    by (intros o ch Hn; constructor; assumption).
  destruct v; [| | |discriminate]; injection H as <- <- <-; (split; [exact PA|]).
  - destruct Q as (k & old' & K1 & K2 & K3 & Ko & Nk). exists k, old'. repeat (split; [assumption|]).
    split; [constructor; assumption|]. intros i. rewrite K3, Em. exact (I1 i).
  - split; [left; now apply Fail|exact Back].
  - split; [|exact Back]. destruct Q as [Q|[Q|(_ & k & K1 & _ & _ & Q)]]; eauto 6.
Qed.

Lemma extends_admitted n db k db2 : extends n db k db2 -> Forall (admitted sha3_256) (cb_txs k) /\ block_ok (cb_block k).
Proof.
  intros E. pose proof (ex_input _ _ _ _ _ _ _ _ _ _ _ E) as [W Hl S L A]. inversion_clear S as [|? ? Sb St].
  rewrite List.Forall_forall in St, A. split; [apply List.Forall_forall; intros t Ht; split; auto|].
  split; [exact W|]. split; [exact Sb|]. now rewrite Hl.
Qed.

Lemma on_height s old chain : on s old chain -> getChainHeight (db_of s) = Z.of_nat (length chain).
Proof. intros [N _ _ _]. exact (holds_height _ _ _ _ _ _ _ _ _ (nh_current _ _ _ _ _ _ _ _ _ _ N)). Qed.

Lemma quiet_on s old chain : on s old chain -> pending s = 0 -> on s chain chain.
Proof. intros [N P A Fk] Q. constructor; [now apply (quiet_holds _ _ _ _ _ _ _ _ old)|exact P|exact A|exact Fk]. Qed.

Lemma pop_block_on s chain k s' : on s (chain ++ [k]) (chain ++ [k]) -> pending s = 0 -> pop_block s = Ok s' ->
  on s' chain chain /\ pending s' = 0 /\ alts s' = alts s /\
  read_block (db_of s) (Z.of_nat (length chain)) = cb_block k /\ block_ok (cb_block k) /\
  forall i, in_pool s' i <-> in_pool s i \/ i ∈ map txid (cb_txs k).
Proof.
  intros [N P A Fk] Q H. destruct (holds_unsnoc _ _ _ _ _ _ _ _ _ _ (nh_current _ _ _ _ _ _ _ _ _ _ N)) as (db & Hdb & E).
  destruct (extends_admitted _ _ _ _ E) as [Ad Bk]. unfold ChainSwitch.pop_block in H.
  pose proof (popBlock_exact _ _ _ _ _ _ _ (env_of world s) (k_node s) chain db k (nh_ok _ _ _ _ _ _ _ _ _ _ N) Q Hdb E) as R.
  destruct (popBlock sha3_256 cn_fast_hash (env_of world s) (k_node s)) as [[txs n]|e] eqn:Pp; [|discriminate].
  apply pop_alts in Pp. destruct R as (-> & D & B). injection H as <-. destruct (kept_pool (cb_txs k) s Ad P) as [P2 I2].
  split; [|split; [exact B|split; [exact Pp|split; [|split; [exact Bk|exact I2]]]]].
  - constructor; [|exact P2|unfold alts; cbn [k_node set_node tick]; rewrite Pp; exact A|exact Fk].
    cbn [k_node set_node tick]. constructor; [apply node_ok_closed; [exact B|now rewrite D|now rewrite D]|now rewrite D|now rewrite D|exists []; now rewrite app_nil_r].
  - destruct (extends_connected _ _ _ _ _ _ _ _ _ _ _ (holds_wf _ _ _ _ _ _ _ _ _ Hdb) E) as (full & C).
    destruct (connected_effect _ _ _ _ _ _ _ _ _ C) as (db1 & g & T & E2). unfold read_block, getBlockData, db_of.
    rewrite E2. cbn [block_data]. rewrite lookup_insert_eq, block_blob_read by apply Bk. reflexivity.
Qed.

Lemma flush_on s old chain s' : on s old chain -> flush world s = Ok s' ->
  pending s' = 0 /\ alts s' = alts s /\ k_pool s' = k_pool s /\ (on s' chain chain \/ (on s' old old /\ pending s <> 0)).
Proof.
  intros [N P A Fk] H. unfold flush in H. pose proof (flush_alts (env_of world s) (k_node s)) as F.
  destruct (flushBatch (env_of world s) (k_node s)) as [v n] eqn:E. cbn [snd] in F.
  destruct (flushBatch_holds _ _ _ _ _ _ _ _ _ _ _ _ _ N E) as (B & R).
  assert (s' = tick (set_node s n)) as -> by (destruct v; congruence).
  split; [exact B|]. split; [exact F|]. split; [reflexivity|].
  assert (On : forall o ch, node_holds n o ch -> on (tick (set_node s n)) o ch).
  { intros o ch Hn. constructor; [exact Hn|exact P|unfold alts; cbn [k_node set_node tick]; rewrite F; exact A|exact Fk]. }
  destruct (Z.eq_dec (pending s) 0) as [Z0|Z0].
  - left. unfold flushBatch in E. unfold pending in Z0. rewrite (proj2 (Z.eqb_eq _ _) Z0) in E. injection E as <- <-.
    apply On. now apply (quiet_holds _ _ _ _ _ _ _ _ old).
  - destruct R as [R|[_ R]]; [left|right]; auto.
Qed.

(** Popping down to [pre]: as many rounds as there are blocks above it. *)
Lemma pop_while_on pre l : forall s fuel, on s (pre ++ l) (pre ++ l) -> pending s = 0 -> (length l <= fuel)%nat ->
  match pop_while sha3_256 cn_fast_hash dsa_verify y_slow_hash c genesisBlockHash points world fuel (Z.of_nat (length pre)) s with
  | Ok s' => on s' pre pre /\ pending s' = 0 /\ alts s' = alts s /\ forall i, in_pool s i -> in_pool s' i
  | Err e => e <> Unfinished
  end.
Proof.
  induction l as [|k l IH] using rev_ind; intros s fuel O Q L.
  - rewrite app_nil_r in O. destruct fuel; cbn [pop_while];
      rewrite (on_height _ _ _ O), Z.ltb_irrefl; auto.
  - rewrite length_app in L. cbn [length] in L. destruct fuel as [|fuel]; [lia|]. cbn [pop_while].
    rewrite (on_height _ _ _ O).
    rewrite (proj2 (Z.ltb_lt _ _)) by (rewrite !length_app; cbn [length]; lia). rewrite !app_assoc in O.
    destruct (pop_block s) as [s1|e] eqn:P; cbn [bind].
    + destruct (pop_block_on s (pre ++ l) k s1 O Q P) as (O1 & Q1 & A1 & _ & _ & I1).
      specialize (IH s1 fuel O1 Q1 ltac:(lia)). destruct (pop_while _ _ _ _ _ _ _ _ fuel _ s1); [|exact IH].
      destruct IH as (O2 & Q2 & A2 & I2). split; [exact O2|]. split; [exact Q2|]. split; [congruence|].
      intros i Hi. apply I2, I1. now left.
    + unfold ChainSwitch.pop_block in P. destruct (popBlock _ _ _ _) as [[]|]; [discriminate|]. injection P as <-. discriminate.
Qed.

Definition blocks (l : list ChainBlock) : list Block := map cb_block l.
Definition txids (l : list ChainBlock) : list bytes := concat (map (fun k => map txid (cb_txs k)) l).

Lemma txids_snoc l k : txids (l ++ [k]) = txids l ++ map txid (cb_txs k).
Proof. unfold txids. rewrite map_app, concat_app. cbn. now rewrite app_nil_r. Qed.

Lemma blocks_snoc l k : blocks (l ++ [k]) = blocks l ++ [cb_block k].
Proof. apply map_app. Qed.

(** The disconnected blocks are those of the chain, their transactions in the
    pool. *)
Lemma disconnect_on pre l : forall s acc bs s', on s (pre ++ l) (pre ++ l) -> pending s = 0 ->
  disconnect sha3_256 cn_fast_hash dsa_verify y_slow_hash c genesisBlockHash points world (length l) (Z.of_nat (length pre)) s acc = Ok (bs, s') ->
  bs = blocks l ++ acc /\ on s' pre pre /\ pending s' = 0 /\ alts s' = alts s /\ Forall block_ok (blocks l) /\
  forall i, in_pool s' i <-> in_pool s i \/ i ∈ txids l.
Proof.
  induction l as [|k l IH] using rev_ind; intros s acc bs s' O Q H.
  - cbn [length disconnect] in H. injection H as <- <-. rewrite app_nil_r in O. split; [reflexivity|]. split; [exact O|].
    split; [exact Q|]. split; [reflexivity|]. split; [cbn; constructor|]. cbn. set_solver.
  - rewrite length_app, Nat.add_1_r in H. cbn [disconnect] in H. rewrite app_assoc in O.
    destruct (pop_block s) as [s1|] eqn:P; cbn [bind] in H; [|discriminate].
    destruct (pop_block_on s (pre ++ l) k s1 O Q P) as (O1 & Q1 & A1 & Rd & Bk & I1).
    rewrite length_app, Nat2Z.inj_add in Rd. rewrite Rd in H.
    destruct (IH s1 _ bs s' O1 Q1 H) as (-> & O2 & Q2 & A2 & F2 & I2).
    rewrite blocks_snoc, txids_snoc, <- app_assoc. split; [reflexivity|]. split; [exact O2|]. split; [exact Q2|]. split; [congruence|].
    split; [apply Forall_app; split; [exact F2|now constructor]|]. intros i. rewrite I2, I1, elem_of_app. tauto.
Qed.

(** Above [pre] the chain has the blocks [bs]; [pre] is on disk. *)
Definition above (pre : list ChainBlock) (s : Chain) (bs : list Block) : Prop :=
  exists old ks, on s old (pre ++ ks) /\ pre `prefix_of` old /\ blocks ks = bs.

(** [push_block] refuses one of the blocks [bs] on top of [pre] and those before it. *)
Definition refused (pre : list ChainBlock) (bs : list Block) : Prop :=
  exists s done b rest ctx s', bs = done ++ b :: rest /\ above pre s done /\ push_block b (block_hash b) None s = Ok (false, ctx, s').

Lemma push_above pre s old ks b id r ctx s' : on s old (pre ++ ks) -> pre `prefix_of` old -> block_ok b ->
  push_block b id None s = Ok (r, ctx, s') ->
  alts s' = alts s /\
  if r then exists k old', cb_block k = b /\ on s' old' (pre ++ ks ++ [k]) /\ pre `prefix_of` old' /\
    forall i, in_pool s i <-> in_pool s' i \/ i ∈ map txid (cb_txs k)
  else exists bs, above pre s' bs /\ bs `prefix_of` blocks ks ++ [b].
Proof.
  intros O Pr B H. destruct (push_block_on b id None s old (pre ++ ks) r ctx s' O B H) as [A R]. split; [exact A|]. destruct r.
  - destruct R as (k & old' & Kb & _ & Ho & O' & I). exists k, old'. rewrite <- app_assoc in *. split; [exact Kb|]. split; [exact O'|].
    split; [|exact I]. destruct Ho as [-> | ->]; [exact Pr|]. now apply prefix_app_r.
  - destruct R as [R _]. destruct (on_node _ _ _ O) as [_ _ _ [l Hl]]. destruct Pr as [js ->]. rewrite <- app_assoc in Hl. apply app_inv_head in Hl. subst ks.
    destruct R as [R|[R|(k & Kb & R)]].
    + exists (blocks (js ++ l)). split; [exists (pre ++ js), (js ++ l); split; [exact R|]; split; [now exists js|reflexivity]|now exists [b]].
    + exists (blocks js). split; [exists (pre ++ js), js; split; [exact R|]; split; [now exists js|reflexivity]|].
      unfold blocks. rewrite map_app, <- app_assoc. now eexists.
    + exists (blocks ((js ++ l) ++ [k])). rewrite <- !app_assoc in R.
      split; [exists (pre ++ js ++ l ++ [k]), ((js ++ l) ++ [k]); rewrite <- !app_assoc; split; [exact R|]; split; [now exists (js ++ l ++ [k])|reflexivity]|].
      rewrite blocks_snoc, Kb. reflexivity.
Qed.

Lemma push_all_above pre bs : forall s old ks r s', on s old (pre ++ ks) -> pre `prefix_of` old -> Forall block_ok bs ->
  push_all sha3_256 cn_fast_hash shake256 dsa_verify yespower_discrete y_slow_hash c genesisBlockHash points parent_of world bs s = Ok (r, s') ->
  alts s' = alts s /\ exists bs', above pre s' bs' /\ bs' `prefix_of` blocks ks ++ bs /\
    (bs' = blocks ks ++ bs \/ refused pre (blocks ks ++ bs)).
Proof.
  induction bs as [|b bs IH]; intros s old ks r s' O Pr F H; cbn [push_all] in H.
  - injection H as <- <-. split; [reflexivity|]. exists (blocks ks). rewrite app_nil_r. split; [exists old, ks; auto|auto].
  - inversion_clear F as [|? ? Fb Fs]. destruct (push_block b (block_hash b) None s) as [[[r1 ctx] s1]|] eqn:P; cbn [bind] in H; [|discriminate].
    destruct (push_above pre s old ks b _ r1 ctx s1 O Pr Fb P) as [A1 R]. destruct r1.
    + destruct R as (k & old' & Kb & O1 & Pr1 & _). destruct (IH s1 old' (ks ++ [k]) r s' O1 Pr1 Fs H) as (A2 & bs' & Ab & Px & Ex).
      split; [congruence|]. rewrite blocks_snoc, <- app_assoc, Kb in Px, Ex. exists bs'. auto.
    + injection H as <- <-. split; [exact A1|]. destruct R as (bs' & Ab & Px). exists bs'. split; [exact Ab|]. split.
      * etransitivity; [exact Px|]. apply prefix_app. now exists bs.
      * right. exists s, (blocks ks), b, bs, ctx, s1. split; [reflexivity|]. split; [exists old, ks; auto|exact P].
Qed.

Lemma rollback_above pre bs s old ks r s' : on s old (pre ++ ks) -> pre `prefix_of` old -> Forall block_ok bs ->
  rollback_blockchain_switching sha3_256 cn_fast_hash shake256 dsa_verify yespower_discrete y_slow_hash c genesisBlockHash points parent_of world
    bs (Z.of_nat (length pre)) s = Ok (r, s') ->
  alts s' = alts s /\ exists bs', above pre s' bs' /\ bs' `prefix_of` bs /\ (bs' = bs \/ refused pre bs).
Proof.
  intros O Pr F H. unfold rollback_blockchain_switching in H.
  destruct (flush world s) as [s1|] eqn:E1; cbn [bind] in H; [|discriminate].
  destruct (flush_on s old (pre ++ ks) s1 O E1) as (Q1 & A1 & _ & R1).
  assert (O1 : exists l, on s1 (pre ++ l) (pre ++ l)).
  { destruct R1 as [R1|[R1 _]]; [eauto|]. destruct Pr as [l ->]. eauto. }
  destruct O1 as [l O1]. pose proof (pop_while_on pre l s1 (Z.to_nat (getChainHeight (db_of s1))) O1 Q1) as W.
  rewrite (on_height _ _ _ O1), Nat2Z.id, length_app in W. rewrite (on_height _ _ _ O1), Nat2Z.id, length_app in H.
  specialize (W ltac:(lia)). destruct (pop_while _ _ _ _ _ _ _ _ _ _ s1) as [s2|]; cbn [bind] in H; [|discriminate].
  destruct W as (O2 & _ & A2 & _). rewrite <- (app_nil_r pre) in O2 at 2.
  destruct (push_all_above pre bs s2 pre [] r s' O2 ltac:(reflexivity) F H) as (A3 & bs' & Ab & Px & Ex).
  split; [congruence|]. exists bs'. auto.
Qed.

Lemma alt_entry_same s s' h : alts s' = alts s -> alt_entry s' h = alt_entry s h.
Proof. unfold alt_entry. now intros ->. Qed.

Lemma forget_on h s old chain : on s old chain -> on (forget h s) old chain.
Proof.
  intros [N P A Fk]. constructor; [|exact P| |exact Fk].
  - destruct N as [Ok0 Hc Ho Hp]. constructor; assumption.
  - intros x e He. unfold forget, set_alts, alts in He. cbn in He. apply lookup_delete_Some in He as [_ He]. exact (A x e He).
Qed.

Lemma forget_all_on hs : forall s old chain, on s old chain -> on (forget_all hs s) old chain.
Proof. induction hs as [|h hs IH]; intros s old chain O; [exact O|]. cbn. apply IH, forget_on, O. Qed.

Lemma forget_all_pool hs : forall s, k_pool (forget_all hs s) = k_pool s.
Proof. induction hs as [|h hs IH]; intros s; [reflexivity|]. cbn. now rewrite IH. Qed.

Definition branch_blocks (s : Chain) (branch : list bytes) : list Block := map (fun h => bl (alt_entry s h)) branch.
Definition known (s : Chain) (h : bytes) : Prop := is_Some (alts s !! h).

Lemma known_block s old chain h : on s old chain -> known s h -> block_ok (bl (alt_entry s h)) /\ 0 <= be_height (alt_entry s h).
Proof. intros [_ _ A _] [e E]. unfold alt_entry. rewrite E. exact (A h e E). Qed.

Lemma branch_blocks_same s s' branch : alts s' = alts s -> branch_blocks s' branch = branch_blocks s branch.
Proof. intros E. apply map_ext. intros h. now rewrite (alt_entry_same s s' h E). Qed.

(** The branch is connected as a whole, or the original blocks are back (as many
    as were accepted again). *)
Lemma connect_branch_above pre disc branch : Forall block_ok disc -> forall s old ks r s',
  on s old (pre ++ ks) -> pre `prefix_of` old -> Forall (known s) branch ->
  connect_branch sha3_256 cn_fast_hash shake256 dsa_verify yespower_discrete y_slow_hash c genesisBlockHash points parent_of world
    branch disc (Z.of_nat (length pre)) s = Ok (r, s') ->
  if r then alts s' = alts s /\ exists old' new, on s' old' (pre ++ ks ++ new) /\ pre `prefix_of` old' /\ blocks new = branch_blocks s branch /\
    forall i, in_pool s i <-> in_pool s' i \/ i ∈ txids new
  else exists bs', above pre s' bs' /\ bs' `prefix_of` disc /\ (bs' = disc \/ refused pre disc).
Proof.
  intros Fd. induction branch as [|h branch IH]; intros s old ks r s' O Pr K H; cbn [connect_branch] in H.
  - injection H as <- <-. split; [reflexivity|]. exists old, []. rewrite app_nil_r. repeat (split; [assumption || reflexivity|]). cbn. set_solver.
  - inversion_clear K as [|? ? Kh Ks]. destruct (known_block _ _ _ _ O Kh) as [Bh _].
    destruct (push_block _ _ None s) as [[[r1 ctx] s1]|] eqn:P; cbn [bind] in H; [|discriminate].
    destruct (push_above pre s old ks _ _ r1 ctx s1 O Pr Bh P) as [A1 R]. destruct r1.
    + destruct R as (k & old' & Kb & O1 & Pr1 & I1).
      assert (K1 : Forall (known s1) branch) by (unfold known; rewrite A1; exact Ks).
      specialize (IH s1 old' (ks ++ [k]) r s' O1 Pr1 K1 H). destruct r; [|exact IH].
      destruct IH as (A2 & old2 & new & O2 & Pr2 & Bn & I2). split; [congruence|]. exists old2, (k :: new).
      rewrite <- app_assoc in O2. split; [exact O2|]. split; [exact Pr2|]. split.
      * unfold blocks, branch_blocks. cbn [map]. rewrite Kb. f_equal. rewrite (branch_blocks_same s s1 branch A1) in Bn. exact Bn.
      * intros i. rewrite I1, I2. unfold txids. cbn [map concat]. rewrite elem_of_app. tauto.
    + destruct R as (bs1 & (old1 & ks1 & O1 & Pr1 & _) & _).
      destruct (rollback_blockchain_switching _ _ _ _ _ _ _ _ _ _ _ disc _ s1) as [[r2 s2]|] eqn:Rb; cbn [bind] in H; [|discriminate].
      injection H as <- <-. destruct (rollback_above pre disc s1 old1 ks1 r2 s2 O1 Pr1 Fd Rb) as (_ & bs' & (old2 & ks2 & O2 & Pr2 & Eb) & Px & Ex).
      exists bs'. split; [|split; [exact Px|exact Ex]]. exists old2, ks2. split; [now apply (forget_all_on (h :: branch))|auto].
Qed.

Abbreviation switch_chains :=
  (switch_chains sha3_256 cn_fast_hash shake256 dsa_verify yespower_discrete y_slow_hash c genesisBlockHash points parent_of world).

Lemma switch_chains_on s old chain first rest r s' : on s old chain -> Forall (known s) (first :: rest) ->
  switch_chains (first :: rest) s = Ok (r, s') ->
  let split := Z.to_nat (be_height (alt_entry s first)) in
  exists base, (base = chain \/ (base = old /\ pending s <> 0)) /\
  match r with
  | Some bs => (split < length base)%nat /\ bs = blocks (drop split base) /\ Forall block_ok bs /\ alts s' = alts s /\
      exists old' new, on s' old' (take split base ++ new) /\ blocks new = branch_blocks s (first :: rest) /\
        forall i, in_pool s' i \/ i ∈ txids new <-> in_pool s i \/ i ∈ txids (drop split base)
  | None => exists old' back, on s' old' (take split base ++ back) /\ blocks back `prefix_of` blocks (drop split base) /\
      (blocks back = blocks (drop split base) \/ refused (take split base) (blocks (drop split base)))
  end.
Proof.
  intros O K H split. unfold ChainSwitch.switch_chains in H.
  destruct (flush world s) as [s1|] eqn:E1; cbn [bind] in H; [|discriminate].
  destruct (flush_on s old chain s1 O E1) as (Q1 & A1 & P1 & R1). rewrite (alt_entry_same s s1 first A1) in H.
  assert (K1 : Forall (known s1) (first :: rest)) by (unfold known; rewrite A1; exact K).
  assert (Hs : 0 <= be_height (alt_entry s first)) by (inversion_clear K; apply (known_block _ _ _ _ O); assumption).
  assert (B : exists base, (base = chain \/ (base = old /\ pending s <> 0)) /\ on s1 base base) by (destruct R1 as [R1|[R1 Z1]]; eauto).
  clear R1. destruct B as (base & Hb & O1). exists base. split; [exact Hb|]. rewrite (on_height _ _ _ O1) in H.
  assert (Stay : @Ok stop _ (None, s1) = Ok (r, s') -> match r with Some _ => False | None =>
    exists old' back, on s' old' (take split base ++ back) /\ blocks back `prefix_of` blocks (drop split base) /\
      (blocks back = blocks (drop split base) \/ refused (take split base) (blocks (drop split base))) end).
  { intros [= <- <-]. exists base, (drop split base). rewrite take_drop. auto. }
  destruct (Z.ltb_spec (be_height (alt_entry s first)) (Z.of_nat (length base))) as [L|L]; cbn [negb] in H.
  2: { apply Stay in H. destruct r; [contradiction|exact H]. }
  destruct (negb _); [apply Stay in H; destruct r; [contradiction|exact H]|]. clear Stay.
  assert (Ls : (split < length base)%nat) by lia. assert (Lt : length (take split base) = split) by (rewrite length_take; lia).
  rewrite <- (take_drop split base) in O1.
  replace (Z.to_nat (Z.of_nat (length base) - be_height (alt_entry s first))) with (length (drop split base)) in H by (rewrite length_drop; lia).
  replace (be_height (alt_entry s first)) with (Z.of_nat (length (take split base))) in H by lia.
  destruct (disconnect _ _ _ _ _ _ _ _ _ _ s1 []) as [[disc s2]|] eqn:D; cbn [bind] in H; [|discriminate].
  destruct (disconnect_on _ _ s1 [] disc s2 O1 Q1 D) as (-> & O2 & _ & A2 & F2 & I2). rewrite app_nil_r in *.
  assert (K2 : Forall (known s2) (first :: rest)) by (unfold known; rewrite A2; exact K1).
  destruct (connect_branch _ _ _ _ _ _ _ _ _ _ _ _ _ _ s2) as [[r2 s3]|] eqn:Cb; cbn [bind] in H; [|discriminate].
  rewrite <- (app_nil_r (take split base)) in O2 at 2.
  pose proof (connect_branch_above _ _ _ F2 s2 _ [] r2 s3 O2 ltac:(reflexivity) K2 Cb) as R. injection H as <- <-. destruct r2.
  - destruct R as (A3 & old' & new & O3 & _ & Bn & I3). repeat (split; [assumption || reflexivity|]). split; [congruence|].
    exists old', new. split; [exact O3|]. split.
    + rewrite Bn. apply branch_blocks_same. congruence.
    + intros i. rewrite <- I3, I2. unfold in_pool. now rewrite P1.
  - destruct R as (bs' & (old' & ks & O3 & _ & Eb) & Px & Ex). exists old', ks. rewrite Eb. auto.
Qed.

(** ** The whole of [addNewBlock] *)

Definition sound (s : Chain) : Prop := exists old chain, on s old chain.

Lemma switch_chains_sound s alt_chain r s' : sound s -> Forall (known s) alt_chain -> switch_chains alt_chain s = Ok (r, s') ->
  sound s' /\ match r with Some bs => Forall block_ok bs | None => True end.
Proof.
  intros (old & chain & O) K H. destruct alt_chain as [|first rest].
  - unfold ChainSwitch.switch_chains in H. destruct (flush world s) as [s1|] eqn:E1; cbn [bind] in H; [|discriminate]. injection H as <- <-.
    destruct (flush_on s old chain s1 O E1) as (_ & _ & _ & [R|[R _]]); (split; [eexists; eauto|exact I]).
  - destruct (switch_chains_on s old chain first rest r s' O K H) as (base & _ & R). destruct r as [bs|].
    + destruct R as (_ & _ & F & _ & old' & new & O' & _). split; [eexists; eauto|exact F].
    + destruct R as (old' & back & O' & _). split; [eexists; eauto|exact I].
Qed.

Lemma fork_on s f old chain : 0 <= divergenceHeight f -> on s old chain -> on (set_fork s f) old chain.
Proof. intros Hf [N P A _]. now constructor. Qed.

Lemma record_fork_on s chainLen h id old chain : on s old chain -> on (recordFinalityFork chainLen h id s) old chain.
Proof.
  intros O. apply fork_on; [|exact O]. cbn [divergenceHeight]. pose proof (wrap_range 32 (h - 1) ltac:(lia)) as W.
  pose proof (on_fork _ _ _ O). unfold in_w in W. destruct (active _); lia.
Qed.

Lemma check_alternative_sound s b id e s' : sound s ->
  check_alternative sha3_256 cn_fast_hash shake256 dsa_verify yespower_discrete c points parent_of s b id = Ok (Err (e, s')) -> sound s'.
Proof.
  intros S H. unfold check_alternative in H. destruct (_ =? 0); [now injection H as _ <-|].
  destruct (negb _).
  - destruct (if Checkpoints.Checkpoints.is_finality_violation _ _ _ then _ else _) as [h|]; injection H as _ <-; [|exact S].
    destruct S as (old & chain & O). exists old, chain. now apply record_fork_on.
  - destruct (negb _); [now injection H as _ <-|]. destruct (negb _); [now injection H as _ <-|].
    destruct (getBlockCumulativeSize s b); cbn [bind] in H; [|discriminate]. destruct (negb _); [now injection H as _ <-|discriminate].
Qed.

Lemma walk_branch_known m fuel : forall h br ts br' ts', Forall (fun x => is_Some (m !! x)) br ->
  walk_branch fuel m h br ts = Some (br', ts') -> Forall (fun x => is_Some (m !! x)) br'.
Proof.
  induction fuel as [|fuel IH]; intros h br ts br' ts' F H; cbn [walk_branch] in H; destruct (m !! h) as [e|] eqn:E;
    try discriminate; try (injection H as <- <-; exact F).
  eapply IH; [|exact H]. constructor; [eauto|exact F].
Qed.

Lemma attach_known s b a : attach cn_fast_hash shake256 c parent_of s b = Ok (Some a) -> Forall (known s) (at_branch a) /\ 0 <= at_height a.
Proof.
  unfold attach. destruct (walk_branch _ _ _ _ _) as [[branch ts]|] eqn:W; [|discriminate].
  apply walk_branch_known in W; [|constructor]. destruct branch as [|first branch].
  - destruct (getHashHeight (db_of s) _) as [h|]; [|discriminate]. intros [= <-]. cbn [at_branch at_height]. split; [constructor|].
    pose proof (wrap_range 32 (h + 1) ltac:(lia)). unfold in_w in *. lia.
  - destruct (negb _); [discriminate|]. destruct (negb _); [discriminate|]. intros [= <-]. cbn [at_branch at_height]. split; [exact W|].
    match goal with |- 0 <= w32 ?x => pose proof (wrap_range 32 x ltac:(lia)) end. unfold in_w in *. lia.
Qed.

Section Handled.
Variable handle : Block -> bytes -> Chain -> result stop (bool * bvc * Chain).
Hypothesis handle_sound : forall b id s r ctx s', sound s -> block_ok b -> handle b id s = Ok (r, ctx, s') -> sound s'.

Lemma handle_old_sound bs : forall s s', Forall block_ok bs -> sound s -> handle_old cn_fast_hash shake256 parent_of handle bs s = Ok s' -> sound s'.
Proof.
  induction bs as [|b bs IH]; intros s s' F S H; cbn [handle_old] in H; [now injection H as <-|]. inversion_clear F as [|? ? Fb Fs].
  destruct (handle b (block_hash b) s) as [[[r ctx] s1]|] eqn:E; cbn [bind] in H; [|discriminate].
  apply handle_sound in E; [|exact S|exact Fb]. destruct r; [exact (IH s1 s' Fs E H)|now injection H as <-].
Qed.

Lemma switch_sound alt_chain discard s r s' : sound s -> Forall (known s) alt_chain ->
  switch_to_alternative_blockchain sha3_256 cn_fast_hash shake256 dsa_verify yespower_discrete y_slow_hash c genesisBlockHash points parent_of world
    handle alt_chain discard s = Ok (r, s') -> sound s'.
Proof.
  intros S K H. unfold switch_to_alternative_blockchain in H.
  destruct (switch_chains alt_chain s) as [[r1 s1]|] eqn:E; cbn [bind] in H; [|discriminate].
  destruct (switch_chains_sound s alt_chain r1 s1 S K E) as [S1 F1]. destruct r1 as [disc|]; [|now injection H as _ <-].
  destruct (if discard then _ else _) as [s2|] eqn:O; cbn [bind] in H; [|discriminate]. injection H as _ <-.
  assert (S2 : sound s2) by (destruct discard; [now injection O as <-|exact (handle_old_sound disc s1 s2 F1 S1 O)]).
  destruct S2 as (old & chain & O2). exists old, chain. apply fork_on; [reflexivity|]. now apply forget_all_on.
Qed.
End Handled.

Abbreviation handle_alternative_block :=
  (handle_alternative_block sha3_256 cn_fast_hash shake256 dsa_verify yespower_discrete y_slow_hash c genesisBlockHash points parent_of world).

Lemma handle_sound depth : forall b id proof s r ctx s', sound s -> block_ok b ->
  handle_alternative_block depth b id proof s = Ok (r, ctx, s') -> sound s'.
Proof.
  induction depth as [|depth IH]; intros b id proof s r ctx s' S B H; cbn [ChainSwitch.handle_alternative_block] in H; [discriminate|].
  destruct (check_alternative _ _ _ _ _ _ _ _ s b id) as [[u|[e s1]]|] eqn:E; cbn [bind] in H; [| |discriminate].
  2: { injection H as <- <- <-. exact (check_alternative_sound s b id e s1 S E). }
  destruct (negb _); [now injection H as <- <- <-|].
  destruct (attach _ _ _ _ s b) as [[a|]|] eqn:A; cbn [bind] in H; [|now injection H as <- <- <-|discriminate].
  destruct (attach_known s b a A) as [Kn Hh]. destruct (check_branch_block _ _ _ _ _ _ _ s a b id proof) as [diff|]; [|now injection H as <- <- <-].
  destruct (alts s !! id) eqn:Hid; [now injection H as <- <- <-|].
  set (s1 := set_orphans _ _) in H. set (bei := mkBlockEntry _ _ _ _ _ _) in *.
  assert (S1 : sound s1).
  { destruct S as (old & chain & [N P Al Fk]). exists old, chain. constructor; [destruct N; constructor; assumption|exact P| |exact Fk].
    intros h e He. unfold s1, set_alts, alts in He. cbn in He. apply lookup_insert_Some in He as [[_ <-]|[_ He]]; [now split|exact (Al h e He)]. }
  assert (K1 : Forall (known s1) (at_branch a ++ [id])).
  { apply Forall_app. split; [|constructor; [|constructor]].
    - rewrite List.Forall_forall in *. intros h Hin. destruct (Kn h Hin) as [e He]. unfold known, s1, set_alts, alts. cbn.
      destruct (decide (h = id)) as [->|Ne]; [rewrite lookup_insert_eq; eauto|]. rewrite lookup_insert_ne by congruence. eauto.
    - unfold known, s1, set_alts, alts. cbn. rewrite lookup_insert_eq. eauto. }
  assert (Sw : forall discard r2 s2, switch_to_alternative_blockchain sha3_256 cn_fast_hash shake256 dsa_verify yespower_discrete y_slow_hash c
    genesisBlockHash points parent_of world (fun b id s => handle_alternative_block depth b id None s) (at_branch a ++ [id]) discard s1 = Ok (r2, s2) -> sound s2).
  { intros discard r2 s2. apply switch_sound; [|exact S1|exact K1]. intros b0 id0 s0 r0 ctx0 s0'. apply IH. }
  destruct (snd _); [|destruct (_ <? _); [|now injection H as <- <- <-]];
    (destruct (switch_to_alternative_blockchain _ _ _ _ _ _ _ _ _ _ _ _ _ _ s1) as [[r2 s2]|] eqn:W; cbn [bind] in H; [|discriminate];
     injection H as <- <- <-; exact (Sw _ _ _ W)).
Qed.

Lemma add_sound depth b proof s r ctx s' : sound s -> block_ok b ->
  addNewBlock sha3_256 cn_fast_hash shake256 dsa_verify yespower_discrete y_slow_hash c genesisBlockHash points parent_of world depth b proof s = Ok (r, ctx, s') ->
  sound s'.
Proof.
  intros S B H. unfold addNewBlock in H. destruct (get_block_hash _ _ _ _) as [id|]; [|now injection H as <- <- <-].
  destruct (match proof with Some _ => _ | None => _ end); [now injection H as <- <- <-|].
  destruct (_ || _); [now injection H as <- <- <-|]. destruct (negb _); [exact (handle_sound _ _ _ _ _ _ _ _ S B H)|].
  destruct S as (old & chain & O). destruct (push_block_on b id (option_map snd proof) s old chain r ctx s' O B H) as [_ R]. destruct r.
  - destruct R as (k & old' & _ & _ & _ & O' & _). eexists; eauto.
  - destruct R as [[R|[R|(k & _ & R)]] _]; eexists; eauto.
Qed.

(** ** Steps of the whole *)

Lemma rollback_alts envs height : forall n n', rollback_loop sha3_256 cn_fast_hash envs height n = Some n' ->
  m_alternative_chains n' = m_alternative_chains n.
Proof.
  induction envs as [|[first retry] envs IH]; intros n n' H; cbn [rollback_loop] in H; destruct (_ <? _); try discriminate; try congruence.
  destruct (removeLastBlock _ _ first n) as [n1|[|]] eqn:E; [|destruct (resize_fails first); [discriminate|]|discriminate].
  - apply IH in H. apply remove_alts in E. congruence.
  - destruct (removeLastBlock _ _ retry _) as [n1|] eqn:E2; [|discriminate]. apply IH in H. apply remove_alts in E2. cbn in E2. congruence.
Qed.

Lemma resync_sound envs s r s' : sound s -> resyncToMajority sha3_256 cn_fast_hash world envs s = Ok (r, s') -> sound s'.
Proof.
  intros (old & chain & O) H. unfold resyncToMajority in H. destruct (negb _); [injection H as <- <-; eexists; eauto|].
  destruct (_ <? _) eqn:L; cbn [negb] in H; [|injection H as <- <-; eexists; eauto]. bprop.
  destruct (rollbackBlockchainTo _ _ _ _ _ _) as [n|] eqn:R; [|discriminate]. injection H as _ <-.
  pose proof (wrap_range 32 (getChainHeight (db_of s) - 1) ltac:(lia)) as W. unfold in_w in W. destruct O as [N P A Fk].
  assert (Hn : m_alternative_chains n = alts s).
  { unfold rollbackBlockchainTo in R. pose proof (flush_alts (env_of world s) (k_node s)) as F. destruct (flushBatch _ _) as [v m].
    cbn [snd] in F. unfold alts. rewrite <- F. destruct v; [..|discriminate]; exact (rollback_alts _ _ _ _ R). }
  destruct (step_holds sha3_256 cn_fast_hash shake256 dsa_verify yespower_discrete y_slow_hash c genesisBlockHash points (k_node s) n old chain N) as (old' & chain' & N').
  { eapply step_rollback; [|exact R]. lia. }
  exists old', chain'. constructor; [exact N'|exact P|unfold alts; cbn; rewrite Hn; exact A|reflexivity].
Qed.

(** What the pool is asked for besides. *)
Definition pool_call (op : pool_op) : Prop :=
  lawful_op sha3_256 c op /\
  match op with op_add _ _ t i size _ => admitted sha3_256 t /\ i = txid t /\ size = len (tx_blob t) | _ => True end.

Lemma run_op_pooled p op : pool_sound p -> pool_call op -> pool_sound (run_op sha3_256 cn_fast_hash c p op).
Proof.
  intros [G P] [L A]. split; [now apply run_op_good|]. rewrite List.Forall_forall in P.
  assert (Sub : forall q, (forall d, In d (m_transactions q) -> exists e, In e (m_transactions p) /\ recheck e d) ->
    Forall (pooled sha3_256 cn_fast_hash) (m_transactions q)).
  { intros q Hq. apply List.Forall_forall. intros d Hd. destruct (Hq d Hd) as (e & He & ->). exact (P e He). }
  assert (Flt : forall q f, m_transactions q = List.filter f (m_transactions p) -> Forall (pooled sha3_256 cn_fast_hash) (m_transactions q)).
  { intros q f E. apply Sub. intros d Hd. rewrite E in Hd. apply filter_In in Hd as [Hd _]. exists d. split; [exact Hd|apply recheck_refl]. }
  destruct op as [v now t i size kept|i|now|v|v known|v median maxc|]; cbn [run_op].
  - destruct L as [Lv Hs], A as (At & -> & ->).
    pose proof (add_tx_effect sha3_256 cn_fast_hash c v now t (txid t) (len (tx_blob t)) kept p Lv Hs G) as H.
    destruct (add_tx _ _ _ _ _ _ _ _ _ _) as [[ok ctx] q]. cbn [snd]. destruct H as [_ [[-> _] | [_ E]]]; [now apply List.Forall_forall|].
    rewrite E, insert_by_fee_perm. constructor; [split; [exact At|reflexivity]|now apply List.Forall_forall].
  - unfold take_tx. destruct (find_tx i (m_transactions p)) as [d|] eqn:F; [|now apply List.Forall_forall]. cbn [snd].
    apply find_tx_spec in F as [Hd _]. eapply Flt, (pool_remove sha3_256 cn_fast_hash d p (proj1 G) Hd).
  - unfold removeExpiredTransactions. cbv zeta. cbn [m_transactions set_deleted].
    destruct (remove_loop_transactions sha3_256 cn_fast_hash (expired c now) (m_transactions p)
      (set_deleted p (filter (fun e => w64 (now - snd e) <= w64 (numberOfPeriodsToForgetTxDeletedFromPool c * mempoolTxLiveTime c))
                       (m_recentlyDeletedTransactions p)))) as [f E]. exact (Flt _ f E).
  - unfold removeStaleAccountRegistrations.
    destruct (remove_loop_transactions sha3_256 cn_fast_hash (fun d => isAccountAlreadyRegisteredOnChain sha3_256 v (tx d)) (m_transactions p) p) as [f E].
    exact (Flt _ f E).
  - unfold get_difference. destruct (ready_loop _ _ _ _ _). now apply List.Forall_forall.
  - destruct L as [Lv La]. pose proof (fill_recheck sha3_256 c v median maxc p) as R.
    destruct (fill_block_template _ _ _ _ _ _) as [[[h sz] fe] q]. cbn [snd]. apply Sub. intros d Hd.
    apply list_elem_of_In in Hd. destruct (recheck_elem _ _ R d Hd) as (e & He & X). exists e. split; [now apply list_elem_of_In|exact X].
  - now apply List.Forall_forall.
Qed.

(** Everything that changes the state, from outside. *)
Inductive chain_step : Chain -> Chain -> Prop :=
| cs_block depth b proof r ctx s s' : block_ok b ->
    addNewBlock sha3_256 cn_fast_hash shake256 dsa_verify yespower_discrete y_slow_hash c genesisBlockHash points parent_of world depth b proof s
      = Ok (r, ctx, s') -> chain_step s s'
| cs_resync envs r s s' : resyncToMajority sha3_256 cn_fast_hash world envs s = Ok (r, s') -> chain_step s s'
| cs_pool op s : pool_call op -> chain_step s (set_pool s (run_op sha3_256 cn_fast_hash c (k_pool s) op)).

Definition fresh_chain : Chain := mkChain fresh_node empty_pool [] no_fork 0.

Lemma chain_step_sound s s' : sound s -> chain_step s s' -> sound s'.
Proof.
  intros S H. destruct H as [depth b proof r ctx s s' B H|envs r s s' H|op s C].
  - exact (add_sound _ _ _ _ _ _ _ S B H).
  - exact (resync_sound _ _ _ _ S H).
  - destruct S as (old & chain & [N P A F]). exists old, chain. constructor; try assumption. now apply run_op_pooled.
Qed.

Lemma fresh_sound : 0 <= freeRegPoolLimit c -> sound fresh_chain.
Proof.
  intros H. exists [], []. constructor; [apply fresh_node_holds|split; [now apply empty_good|constructor]| |reflexivity].
  intros h e He. unfold alts in He. cbn in He. rewrite lookup_empty in He. discriminate.
Qed.

Lemma reachable_sound s : 0 <= freeRegPoolLimit c -> rtc chain_step fresh_chain s -> sound s.
Proof.
  intros H R. assert (G : forall a b, rtc chain_step a b -> sound a -> sound b).
  { induction 1 as [|a b d X _ IH]; [auto|]. intros S. apply IH. exact (chain_step_sound _ _ S X). }
  apply (G _ _ R). now apply fresh_sound.
Qed.

(** ** The fee of a transfer that comes back *)

Lemma spent_on_chain chain db k db2 t i : holds chain db -> extends (Z.of_nat (length chain)) db k db2 ->
  t ∈ cb_txs k -> InPq i ∈ inputs (prefix t) -> hasSpentKey db2 (pqNullifier sha3_256 i) = true.
Proof.
  intros Hdb E Ht Hi. pose proof (holds_reflects _ _ _ _ _ _ _ _ _ (holds_block _ _ _ _ _ _ _ _ _ _ _ Hdb E)) as R.
  apply bool_decide_eq_true. destruct (proj2 (rf_spent _ _ _ _ R) (pqNullifier sha3_256 i) (Z.of_nat (length chain))) as [_ X].
  destruct X as (v & Hv & _); [|eauto]. apply at_block_snoc. right. split; [reflexivity|].
  pose proof (txs_of_snd sha3_256 cn_fast_hash k (ex_input _ _ _ _ _ _ _ _ _ _ _ E)) as Hs.
  assert (Hin : t ∈ (block_txs cn_fast_hash (cb_block k) (cb_txs k)).*2) by (rewrite Hs; now right).
  apply list_elem_of_fmap in Hin as ([h t'] & -> & Hin). unfold ChainStore.all_images. apply list_elem_of_bind.
  exists (h, t'). split; [|exact Hin]. cbn [snd]. unfold images. apply list_elem_of_omap. exists (InPq i). split; [exact Hi|reflexivity].
Qed.

Lemma keep_all_free db pr limit now txs :
  let v := chain_validator sha3_256 cn_fast_hash dsa_verify y_slow_hash c genesisBlockHash points db pr limit in
  Forall (fun t => is_some (v_checkTransactionInputs v t) && ((TRANSACTION_VERSION_1 <=? version (prefix t)) && isPqTransfer (txType (prefix t))) = false) txs ->
  Forall (admitted sha3_256) txs -> forall p, pool_sound p -> forall d, d ∈ m_transactions (snd (keep_all sha3_256 cn_fast_hash c v now txs p)) ->
  d ∈ m_transactions p \/ fee d = 0.
Proof.
  intros v. induction txs as [|t txs IH]; intros F A p P d Hd; cbn [keep_all] in Hd; [now left|].
  inversion_clear F as [|? ? Ft Fs]. inversion_clear A as [|? ? At As].
  pose proof (keep_one sha3_256 cn_fast_hash dsa_verify y_slow_hash c genesisBlockHash points db pr limit now t p At P) as [Pq _].
  pose proof (add_tx_effect sha3_256 cn_fast_hash c v now t (txid t) (len (tx_blob t)) true p ltac:(apply chain_validator_laws)
    (storable_size t (proj1 At)) (proj1 P)) as H.
  unfold add_tx_object in *. fold (txid t) in *. fold v in Pq. destruct (add_tx _ _ _ _ _ _ _ _ _ _) as [[ok ctx] q]. cbn [snd] in Pq.
  destruct (keep_all _ _ _ _ _ txs q) as [rest r] eqn:K. cbn [snd] in Hd.
  specialize (IH Fs As q Pq d). rewrite K in IH. destruct (IH Hd) as [Hq|Hq]; [|now right].
  destruct H as [_ [[-> _] | [_ E]]]; [now left|]. rewrite E, insert_by_fee_perm in Hq. apply elem_of_cons in Hq as [->|Hq]; [|now left].
  right. unfold new_entry. cbn [fee]. now rewrite Ft.
Qed.

Lemma transfer_has_input t : admitted sha3_256 t -> (TRANSACTION_VERSION_1 <=? version (prefix t)) && isPqTransfer (txType (prefix t)) = true ->
  exists i, InPq i ∈ inputs (prefix t).
Proof.
  intros [[W _] [kept S]] Q. apply andb_true_iff in Q as [Qv Qt]. unfold Core.check_tx_semantic in S. rewrite Qv, Qt in S.
  destruct (checkPqTransactionSemantic t) as [[]|] eqn:E; [|discriminate].
  apply semantic_iff in E as (_ & Hn & _ & _ & _ & St & _); [|now apply wf_refs_nonneg].
  destruct (inputs (prefix t)) as [|x l] eqn:El; [cbn in Hn; lia|]. destruct (St [] x l eq_refl) as (i & -> & _). exists i. left.
Qed.

Lemma popped_free s chain k s' : on s (chain ++ [k]) (chain ++ [k]) -> pending s = 0 -> pop_block s = Ok s' ->
  forall d, d ∈ m_transactions (k_pool s') -> d ∈ m_transactions (k_pool s) \/ fee d = 0.
Proof.
  intros [N P A Fk] Q H. destruct (holds_unsnoc _ _ _ _ _ _ _ _ _ _ (nh_current _ _ _ _ _ _ _ _ _ _ N)) as (db & Hdb & E).
  destruct (extends_admitted _ _ _ _ E) as [Ad _]. unfold ChainSwitch.pop_block in H.
  pose proof (popBlock_exact _ _ _ _ _ _ _ (env_of world s) (k_node s) chain db k (nh_ok _ _ _ _ _ _ _ _ _ _ N) Q Hdb E) as R.
  destruct (popBlock sha3_256 cn_fast_hash (env_of world s) (k_node s)) as [[txs n]|e]; [|discriminate].
  destruct R as (-> & _). injection H as <-. intros d. cbn [k_pool set_node tick saveTransactions set_pool].
  apply keep_all_free; [|now apply Forall_rev|exact P]. apply Forall_rev, List.Forall_forall. intros t Ht. rewrite List.Forall_forall in Ad.
  destruct ((TRANSACTION_VERSION_1 <=? version (prefix t)) && isPqTransfer (txType (prefix t))) eqn:Pq; [|apply andb_false_r].
  destruct (transfer_has_input t (Ad t Ht) Pq) as [i Hi]. apply andb_true_iff in Pq as [_ Pq].
  rewrite (spent_transfer_refused _ _ _ _ _ _ _ _ _ _ t i Pq Hi); [reflexivity|].
  apply (spent_on_chain chain db k _ t i Hdb E); [now apply list_elem_of_In|exact Hi].
Qed.
End Chains.

(** ** The walk along a branch *)

Section Walk.
Variable m : gmap bytes BlockEntry.
Definition parent (h : bytes) : bytes := match m !! h with Some e => previousBlockHash (header (bl e)) | None => h end.
Abbreviation ancestor n h := (Nat.iter n parent h).

Lemma walk_branch_none fuel : forall h br ts, walk_branch fuel m h br ts = None <->
  forall n, (n <= fuel)%nat -> is_Some (m !! ancestor n h).
Proof.
  induction fuel as [|fuel IH]; intros h br ts; cbn [walk_branch]; destruct (m !! h) as [e|] eqn:E.
  - split; [|reflexivity]. intros _ n Hn. replace n with 0%nat by lia. cbn. eauto.
  - split; [discriminate|]. intros H. specialize (H 0%nat ltac:(lia)). cbn in H. rewrite E in H. destruct H. discriminate.
  - assert (Ep : previousBlockHash (header (bl e)) = parent h) by (unfold parent; now rewrite E). rewrite Ep, IH. split.
    + intros H [|n] Hn; [cbn; eauto|]. rewrite Nat.iter_succ_r. apply H. lia.
    + intros H n Hn. rewrite <- Nat.iter_succ_r. apply H. lia.
  - split; [discriminate|]. intros H. specialize (H 0%nat ltac:(lia)). cbn in H. rewrite E in H. destruct H. discriminate.
Qed.

(** The walk leaves the map within as many steps as it has entries, or never. *)
Lemma walk_leaves h n : (forall k, (k < n)%nat -> is_Some (m !! ancestor k h)) -> m !! ancestor n h = None -> (n <= size m)%nat.
Proof.
  intros Hin Hout. set (l := map (fun k => ancestor k h) (seq 0 n)).
  assert (L : forall i x, l !! i = Some x -> (i < n)%nat /\ x = ancestor i h).
  { intros i x Hi. unfold l in Hi. rewrite list_lookup_fmap in Hi. destruct (seq 0 n !! i) as [k|] eqn:Ek; [|discriminate].
    apply lookup_seq in Ek as [-> Ek]. injection Hi as <-. auto. }
  assert (Rep : forall i j, (i < j < n)%nat -> ancestor i h <> ancestor j h).
  { intros i j Hij E. assert (X : ancestor (n - j + i) h = ancestor n h).
    { rewrite Nat.iter_add, E, <- Nat.iter_add. f_equal. lia. }
    destruct (Hin (n - j + i)%nat ltac:(lia)) as [e He]. rewrite X, Hout in He. discriminate. }
  assert (N : NoDup l).
  { apply NoDup_alt. intros i j x Hi Hj. apply L in Hi as [Hi ->], Hj as [Hj E].
    destruct (Nat.lt_trichotomy i j) as [C|[C|C]]; [|exact C|]; exfalso; [apply (Rep i j)|apply (Rep j i)]; auto. }
  replace n with (length l) by (unfold l; now rewrite length_map, length_seq).
  rewrite <- (size_list_to_set (C := gset bytes) l N), <- size_dom. apply subseteq_size. intros x Hx.
  apply elem_of_list_to_set, list_elem_of_lookup in Hx as [i Hi]. apply L in Hi as [Hi ->]. apply elem_of_dom. auto.
Qed.

(** So [attach] is unfinished only where the loop of the code never ends. *)
Lemma walk_branch_complete h br ts : walk_branch (size m) m h br ts = None -> forall fuel br ts, walk_branch fuel m h br ts = None.
Proof.
  intros H fuel br' ts'. apply walk_branch_none. rewrite walk_branch_none in H.
  assert (G : forall n, is_Some (m !! ancestor n h)); [|auto].
  induction n as [n IH] using lt_wf_ind. destruct (m !! ancestor n h) eqn:E; [eauto|].
  pose proof (walk_leaves h n IH E). destruct (H n ltac:(lia)) as [e He]. congruence.
Qed.
End Walk.

(** ** Samples *)

Definition sample_shake (m : bytes) (k : nat) : bytes := firstn k (rev m ++ repeat (b8 1) k).
Definition sample_points : Checkpoints.points := {[9 := repeat (b8 9) 32]}.
Definition sample_world (_ : nat) : World := mkWorld sample_env 1700000000.
Definition sample_coins (height gen nonce : Z) : Transaction :=
  default sample_coinbase (constructMinerTxPq sample_sha3 mainnet 1 height 0 gen 5000 0 sample_key [b8 nonce]).
(** With [sample_shake] the id of a block is the last byte of its signature. *)
Definition sample_block (height gen tag : Z) (prev : bytes) : Block :=
  mkBlock (mkBlockHeader 1 0 70 (1700000000 + height) prev) (sample_coins height gen tag) (repeat (b8 tag) 3309) [].
Definition sample_id (tag : Z) : bytes := repeat (b8 tag) 32.
Definition gen0 : Z := getOutputAmount (sample_coins 0 0 1).
Definition gen1 : Z := gen0 + getOutputAmount (sample_coins 1 gen0 2).
Definition sample_genesis : Block := sample_block 0 0 1 NULL_HASH.
Definition sample_main : Block := sample_block 1 gen0 2 (sample_id 1).
Definition sample_side1 : Block := sample_block 1 gen0 3 (sample_id 1).
Definition sample_side2 : Block := sample_block 2 gen1 4 (sample_id 3).
Definition sample_parents (_ : Block) : ParentBlock := sample_parent.
Abbreviation sample_add :=
  (addNewBlock sample_sha3 sample_sha3 sample_shake sample_verify (fun _ _ _ => None) (fun d _ => Some d) mainnet NULL_HASH sample_points
     sample_parents sample_world 3).
(** The state after a block, with a proof of work validated beforehand. *)
Definition sample_next (s : Chain) (b : Block * Z) : Chain :=
  match sample_add (fst b) (Some (sample_id (snd b), repeat (b8 0) 32)) s with Ok (_, _, s) => s | Err _ => s end.
Abbreviation sample_step :=
  (chain_step sample_sha3 sample_sha3 sample_shake sample_verify (fun _ _ _ => None) (fun d _ => Some d) mainnet NULL_HASH sample_points
     sample_parents sample_world).
Abbreviation sample_on := (on sample_sha3 sample_sha3 sample_verify (fun d _ => Some d) mainnet NULL_HASH sample_points).

Lemma parsed_block_ok b : match fromBinaryArray block_codec (block_blob b) with Some b' => b' = b | None => False end ->
  (len (tx_blob (baseTransaction b)) <? 2 ^ 32) && (Z.of_nat (S (length (transactionHashes b))) <? 2 ^ 16) = true -> block_ok b.
Proof.
  intros H L. apply andb_true_iff in L as [L1 L2]. apply Z.ltb_lt in L1, L2. destruct (fromBinaryArray block_codec (block_blob b)) as [b'|] eqn:E; [|easy]. subst b'.
  apply (fromBinaryArray_iff block_codec) in E as [W _]. split; [exact W|]. split; [|exact L2]. split; [apply W|exact L1].
Qed.

Lemma sample_blocks_ok : Forall (fun b => block_ok (fst b)) [(sample_genesis, 1); (sample_main, 2); (sample_side1, 3); (sample_side2, 4)].
Proof. repeat (apply Forall_cons_2; [apply parsed_block_ok; vm_compute; reflexivity|]). apply Forall_nil_2. Qed.

Lemma sample_reach bs : forall s, Forall (fun b => block_ok (fst b)) bs -> rtc sample_step s (fold_left sample_next bs s).
Proof.
  induction bs as [|b bs IH]; intros s F; cbn [fold_left]; [constructor|]. inversion_clear F as [|? ? Fb Fs].
  etransitivity; [|exact (IH _ Fs)]. unfold sample_next at 1.
  destruct (sample_add (fst b) (Some (sample_id (snd b), repeat (b8 0) 32)) s) as [[[r ctx] s']|] eqn:E; [|constructor].
  apply rtc_once. exact (cs_block _ _ _ _ _ _ _ _ _ _ _ 3 (fst b) _ r ctx s s' Fb E).
Qed.

(** Two blocks on the main chain and one beside the second. *)
Definition sample_forked : Chain := fold_left sample_next [(sample_genesis, 1); (sample_main, 2); (sample_side1, 3)] fresh_chain.
Definition sample_switched : Chain := sample_next sample_forked (sample_side2, 4).

Lemma sample_forked_on : exists old chain, sample_on sample_forked old chain.
Proof.
  apply (reachable_sound sample_sha3 sample_sha3 sample_shake sample_verify (fun _ _ _ => None) (fun d _ => Some d) mainnet NULL_HASH sample_points
    sample_parents sample_world sample_forked); [vm_compute; discriminate|]. apply (sample_reach _ fresh_chain).
  pose proof sample_blocks_ok as F. inversion_clear F as [|? ? F1 F']. inversion_clear F' as [|? ? F2 F'']. inversion_clear F'' as [|? ? F3 _].
  apply Forall_cons_2; [exact F1|]. apply Forall_cons_2; [exact F2|]. apply Forall_cons_2; [exact F3|apply Forall_nil_2].
Qed.

(** ** Properties *)

Section Properties.
Variable sha3_256 : bytes -> bytes.
Variable cn_fast_hash : bytes -> bytes.
Variable shake256 : bytes -> nat -> bytes.
Variable dsa_verify : bytes -> bytes -> bytes -> bool.
Variable yespower_discrete : bytes -> bytes -> bytes -> option bytes.
Variable y_slow_hash : bytes -> bytes -> option bytes.
Variable c : Currency.
Variable genesisBlockHash : bytes.
Variable points : Checkpoints.points.
Variable parent_of : Block -> ParentBlock.
Variable world : nat -> World.

Abbreviation on := (on sha3_256 cn_fast_hash dsa_verify y_slow_hash c genesisBlockHash points).
Abbreviation switch_chains :=
  (switch_chains sha3_256 cn_fast_hash shake256 dsa_verify yespower_discrete y_slow_hash c genesisBlockHash points parent_of world).
Abbreviation txids := (txids cn_fast_hash).
Abbreviation refused :=
  (refused sha3_256 cn_fast_hash shake256 dsa_verify yespower_discrete y_slow_hash c genesisBlockHash points parent_of world).

(** C3: Switching to another branch replaces a suffix of the chain or nothing
    else: if it succeeds, the chain is the part below the split followed by exactly
    the blocks of the branch, and every transaction of the pool and of the replaced
    blocks is now in the pool or in the new blocks; if it fails, the chain is the
    same part below the split followed by the first of its own former blocks, all
    of them unless [pushBlock] refused one of them on top of those before it. *)
Theorem switch_outcome s old chain first rest r s' : on s old chain -> pending s = 0 -> Forall (known s) (first :: rest) ->
  switch_chains (first :: rest) s = Ok (r, s') ->
  let split := Z.to_nat (be_height (alt_entry s first)) in
  match r with
  | Some replaced => (split < length chain)%nat /\ replaced = blocks (drop split chain) /\
      exists old' new, on s' old' (take split chain ++ new) /\ blocks new = branch_blocks s (first :: rest) /\
        forall i, in_pool s' i \/ i ∈ txids new <-> in_pool s i \/ i ∈ txids (drop split chain)
  | None => exists old' back, on s' old' (take split chain ++ back) /\ blocks back `prefix_of` blocks (drop split chain) /\
      (blocks back = blocks (drop split chain) \/ refused (take split chain) (blocks (drop split chain)))
  end.
Proof.
  intros O Q K H split. destruct (switch_chains_on _ _ _ _ _ _ _ _ _ _ _ s old chain first rest r s' O K H) as (base & [-> | [-> Z0]] & R); [|contradiction].
  fold split in R. destruct r as [replaced|]; [|exact R]. destruct R as (L & E & _ & _ & R). auto.
Qed.

(** C2: Whatever blocks arrive and however the node reorganises, its tables and its
    pool stay right: after any sequence of new blocks (extending the chain, beside
    it, or making it switch), recoveries from a finality fork and calls of the
    pool, in any behaviour of clock and database, the tables reflect one chain of
    accepted blocks, and the pool satisfies its invariant and policy and holds only
    admitted transactions under their own hashes. *)
Theorem node_invariant s : 0 <= freeRegPoolLimit c ->
  rtc (chain_step sha3_256 cn_fast_hash shake256 dsa_verify yespower_discrete y_slow_hash c genesisBlockHash points parent_of world) fresh_chain s ->
  exists old chain, node_holds sha3_256 cn_fast_hash dsa_verify y_slow_hash c genesisBlockHash points (k_node s) old chain /\
    reflects sha3_256 cn_fast_hash chain (db_of s) /\ pool_ok sha3_256 (k_pool s) /\ pool_policy sha3_256 c (k_pool s) /\
    Forall (pooled sha3_256 cn_fast_hash) (m_transactions (k_pool s)).
Proof.
  intros H R. destruct (reachable_sound _ _ _ _ _ _ _ _ _ _ _ s H R) as (old & chain & [N [[K P] A] _ _]). exists old, chain.
  split; [exact N|]. split; [|auto]. exact (holds_reflects _ _ _ _ _ _ _ _ _ (nh_current _ _ _ _ _ _ _ _ _ _ N)).
Qed.

End Properties.

(** C18: A transfer that returns to the pool when its block is taken off the chain
    loses its fee: [popBlock] puts the transactions back before it removes their
    nullifiers, so every transaction that was not in the pool is stored with fee
    zero, which is what a template then counts for it; and a coinbase built for no
    fees is refused in a block whose transactions pay any. *)
Theorem popped_fee_lost sha3_256 cn_fast_hash dsa_verify y_slow_hash net genesis points world s chain k s' :
  let c := CurrencyBuilder net in
  on sha3_256 cn_fast_hash dsa_verify y_slow_hash c genesis points s (chain ++ [k]) (chain ++ [k]) -> pending s = 0 ->
  pop_block sha3_256 cn_fast_hash dsa_verify y_slow_hash c genesis points world s = Ok s' ->
  (forall t, t ∈ cb_txs k -> in_pool s' (txid cn_fast_hash t)) /\
  (forall d, d ∈ m_transactions (k_pool s') -> ~ in_pool s (id d) -> fee d = 0) /\
  forall db b height size gen F pub nonce,
    let median := medianValue (get_last_n_blocks_sizes db (rewardBlocksWindow c)) in
    0 < height -> in_w 64 gen -> 0 <= median < 2 ^ 32 -> 0 <= size <= Z.max median 1000000 -> 0 < F < 2 ^ 63 - 2 ^ 40 ->
    constructMinerTxPq sha3_256 c (getBlockMajorVersionForHeight c height) height median gen size 0 pub nonce = Some (baseTransaction b) ->
    validate_miner_transaction c db b height size gen F = None.
Proof.
  intros c O Q H. split; [|split].
  - intros t Ht. destruct (pop_block_on _ _ (fun _ _ => []) _ (fun _ _ _ => None) _ _ _ _ _ s chain k s' O Q H) as (_ & _ & _ & _ & _ & I). apply I. right.
    apply list_elem_of_In, in_map, list_elem_of_In, Ht.
  - intros d Hd Hn. destruct (popped_free _ _ _ _ _ _ _ _ s chain k s' O Q H d Hd) as [Hp|Hf]; [|exact Hf].
    exfalso. apply Hn. unfold in_pool, ids. apply elem_of_ids. eauto.
  - intros db b height size gen F pub nonce. apply underpaid_coinbase_refused.
Qed.

(** The chain of two blocks of [Ledger], whose second block spends the first's
    coinbase and pays a fee of 10. *)
Definition sample_spent : Chain :=
  mkChain (mkNode (mkStore (fst sample_db1) None None) 0 false no_proofs ∅ 1000000) empty_pool [] no_fork 0.
Abbreviation sample_pop :=
  (ChainSwitch.pop_block sample_sha3 sample_sha3 sample_verify (fun d _ => Some d) mainnet NULL_HASH ∅ sample_world sample_spent).
Definition sample_popped : Chain := match sample_pop with Ok s => s | Err _ => sample_spent end.

Lemma sample_spent_on : on sample_sha3 sample_sha3 sample_verify (fun d _ => Some d) mainnet NULL_HASH ∅ sample_spent sample_two sample_two.
Proof.
  constructor.
  - constructor; [split; [|split]; [apply Z.le_refl|reflexivity|split; reflexivity]|exact sample_two_held|exact sample_two_held|now exists []].
  - split; [apply empty_good; vm_compute; discriminate|constructor].
  - intros h e He. unfold alts in He. cbn in He. rewrite lookup_empty in He. discriminate.
  - reflexivity.
Qed.

Lemma sample_popped_by : sample_pop = Ok sample_popped.
Proof. unfold sample_popped. assert (H : exists s, sample_pop = Ok s) by (eexists; vm_compute; reflexivity). destruct H as [s ->]. reflexivity. Qed.

Lemma popped_fee_lost_witness : getPqTransactionFee (fst sample_db1) sample_spend = Some 10 /\
  getChainHeight (db_of sample_spent) = 2 /\ getChainHeight (db_of sample_popped) = 1 /\
  in_pool sample_popped (txid sample_sha3 sample_spend) /\ forall d, d ∈ m_transactions (k_pool sample_popped) -> fee d = 0.
Proof.
  split; [vm_compute; reflexivity|]. split; [vm_compute; reflexivity|]. split; [vm_compute; reflexivity|].
  destruct (popped_fee_lost sample_sha3 sample_sha3 sample_verify (fun d _ => Some d) false NULL_HASH ∅ sample_world sample_spent
    [mkChainBlock (snd sample_db0) (repeat (b8 1) 32) []] (mkChainBlock (snd sample_db1) (repeat (b8 2) 32) [sample_spend]) sample_popped
    sample_spent_on eq_refl sample_popped_by) as (H1 & H2 & _).
  split; [apply H1, list_elem_of_here|]. intros d Hd. apply (H2 d Hd). apply not_elem_of_nil.
Defined.

Abbreviation sample_switch :=
  (ChainSwitch.switch_chains sample_sha3 sample_sha3 sample_shake sample_verify (fun _ _ _ => None) (fun d _ => Some d) mainnet NULL_HASH
     sample_points sample_parents sample_world [sample_id 3] sample_forked).

Lemma sample_switch_done : known sample_forked (sample_id 3) /\ pending sample_forked = 0 /\
  match sample_switch with Ok (Some _, _) => True | _ => False end.
Proof. split; [|split]; [|vm_compute; reflexivity|vm_compute; exact I]. apply (bool_decide_eq_true_1 (is_Some _)). vm_compute. reflexivity. Qed.

Lemma switch_outcome_witness : exists old chain replaced s',
  sample_on sample_forked old chain /\ sample_switch = Ok (Some replaced, s') /\
  let split := Z.to_nat (be_height (alt_entry sample_forked (sample_id 3))) in
  (split < length chain)%nat /\ replaced = blocks (drop split chain) /\
  exists old' new, sample_on s' old' (take split chain ++ new) /\ blocks new = branch_blocks sample_forked [sample_id 3] /\
    forall i, in_pool s' i \/ i ∈ txids sample_sha3 new <-> in_pool sample_forked i \/ i ∈ txids sample_sha3 (drop split chain).
Proof.
  destruct sample_forked_on as (old & chain & O). destruct sample_switch_done as (K & Q & D).
  destruct sample_switch as [[[replaced|] s']|] eqn:E; try contradiction. exists old, chain, replaced, s'. split; [exact O|]. split; [reflexivity|].
  apply (switch_outcome sample_sha3 sample_sha3 sample_shake sample_verify (fun _ _ _ => None) (fun d _ => Some d) mainnet NULL_HASH sample_points
           sample_parents sample_world sample_forked old chain (sample_id 3) [] (Some replaced) s' O Q); [|exact E].
  apply Forall_cons_2; [exact K|apply Forall_nil_2].
Defined.

(** A run with a reorganisation: the second block of the side branch makes the
    node switch. *)
Lemma node_invariant_witness : getTailId (db_of sample_switched) = sample_id 4 /\
  exists old chain, node_holds sample_sha3 sample_sha3 sample_verify (fun d _ => Some d) mainnet NULL_HASH sample_points (k_node sample_switched) old chain /\
    reflects sample_sha3 sample_sha3 chain (db_of sample_switched) /\ pool_ok sample_sha3 (k_pool sample_switched) /\
    pool_policy sample_sha3 mainnet (k_pool sample_switched) /\ Forall (pooled sample_sha3 sample_sha3) (m_transactions (k_pool sample_switched)).
Proof.
  split; [vm_compute; reflexivity|].
  apply (node_invariant sample_sha3 sample_sha3 sample_shake sample_verify (fun _ _ _ => None) (fun d _ => Some d) mainnet NULL_HASH sample_points
           sample_parents sample_world sample_switched); [vm_compute; discriminate|].
  exact (sample_reach [(sample_genesis, 1); (sample_main, 2); (sample_side1, 3); (sample_side2, 4)] fresh_chain sample_blocks_ok).
Defined.
