(* ===== verification/FinalityDepth.v ===== *)
(** * Finality and the depth of a reorganisation

    A run of [ChainSwitch.addNewBlock] in which the node replaces twelve blocks of
    its chain at once, with no checkpoint, although [CRYPTONOTE_FINALITY_DEPTH] is
    ten. The run is evaluated by the kernel, with stand-ins for the hash functions
    and for the proof of work. *)

From Stdlib Require Import ZArith String List Lia Bool.
From stdpp Require Import countable gmap sets fin_maps.
From coqutil Require Import Byte Word.LittleEndianList.
From S2P Require Import Prelude Config Varint Wire Transaction IntUtil Currency Extra PqHash PqDerive PqValidation BlockFormat Db ChainStore Checkpoints ChainRules TransactionPool Blockchain ChainSwitch.
Import ListNotations.
Open Scope string_scope.
Open Scope list_scope.
Open Scope Z_scope.
Open Scope discrete_scope.
Import Serialization TransactionExtra PqValidation FormatUtils LMDBBlockchainDB ChainStore ChainRules Blockchain.
Import BlockchainIndices TransactionPool ChainValidator.
Import ChainSwitch.

(** ** The run

    Twelve blocks on the main chain, each followed at once by its rival on a branch
    that starts at the first; every rival is at most one block below the tip. *)

Abbreviation deep_add :=
  (addNewBlock sample_sha3 sample_sha3 sample_shake (fun _ _ _ => true) (fun _ _ _ => Some NULL_HASH) (fun d _ => Some d) mainnet NULL_HASH ∅
     sample_parents sample_world).
Definition deep_next (s : Chain) (b : Block) : Chain :=
  match deep_add 1 b None s with Ok (_, _, s) => s | Err _ => s end.
Definition deep_block (height gen tag : Z) (prev : bytes) : Block :=
  mkBlock (mkBlockHeader 1 0 70 (1699900000 + 1000 * height) prev) (sample_coins height gen tag) (repeat (b8 tag) 3309) [].
Fixpoint deep_blocks (n : nat) (height gen : Z) (prev_main prev_side : bytes) : list Block :=
  match n with
  | O => []
  | S n =>
      let m := deep_block height gen (height + 10) prev_main in
      let a := deep_block height gen (height + 50) prev_side in
      m :: a :: deep_blocks n (height + 1) (gen + getOutputAmount (baseTransaction m)) (sample_id (height + 10)) (sample_id (height + 50))
  end.
Definition deep_main : Chain := fold_left deep_next (deep_block 0 0 1 NULL_HASH :: deep_blocks 12 1 gen0 (sample_id 1) (sample_id 1)) fresh_chain.
Definition deep_last : Block := deep_block 13 (fold_left (fun g h => g + getOutputAmount (sample_coins h g 1)) (map Z.of_nat (seq 0 13)) 0) 77 (sample_id 62).
Abbreviation deep_step :=
  (chain_step sample_sha3 sample_sha3 sample_shake (fun _ _ _ => true) (fun _ _ _ => Some NULL_HASH) (fun d _ => Some d) mainnet NULL_HASH ∅
     sample_parents sample_world).

Lemma deep_reach bs : forall s, Forall block_ok bs -> rtc deep_step s (fold_left deep_next bs s).
Proof.
  induction bs as [|b bs IH]; intros s F; cbn [fold_left]; [constructor|]. inversion_clear F as [|? ? Fb Fs].
  etransitivity; [|exact (IH _ Fs)]. unfold deep_next at 1. destruct (deep_add 1 b None s) as [[[r ctx] s']|] eqn:E; [|constructor].
  apply rtc_once. exact (cs_block _ _ _ _ _ _ _ _ _ _ _ 1 b None r ctx s s' Fb E).
Qed.

Lemma parsed_blocks_ok bs : map (fun b => fromBinaryArray block_codec (block_blob b)) bs = map Some bs ->
  forallb (fun b => (len (tx_blob (baseTransaction b)) <? 2 ^ 32) && (Z.of_nat (S (length (transactionHashes b))) <? 2 ^ 16)) bs = true ->
  Forall block_ok bs.
Proof.
  induction bs as [|b bs IH]; cbn [map forallb]; intros H L; [constructor|]. injection H as H1 H2. apply andb_true_iff in L as [L1 L2].
  apply Forall_cons_2; [|exact (IH H2 L2)]. apply parsed_block_ok; [|exact L1]. now rewrite H1.
Qed.

(** What adding [b] to [s] does: the verdict, the height before, and which of the
    first thirteen blocks stay. *)
Definition deep_effect (b : Block) (s : Chain) : bool * bool * Z * list bool :=
  match deep_add 2 b None s with
  | Ok (r, ctx, s') => (r, m_switched_to_alt_chain ctx, getChainHeight (db_of s),
      map (fun h => getBlockIdByHeight (db_of s) (Z.of_nat h) ==b getBlockIdByHeight (db_of s') (Z.of_nat h)) (seq 0 13))
  | Err _ => (false, false, 0, [])
  end.

Lemma deep_effect_all b s : deep_effect b s = (true, true, 13, true :: repeat false 12) -> exists ctx s',
  deep_add 2 b None s = Ok (true, ctx, s') /\ m_switched_to_alt_chain ctx = true /\ getChainHeight (db_of s) = 13 /\
  forall h, 1 <= h < 13 -> getBlockIdByHeight (db_of s) h <> getBlockIdByHeight (db_of s') h.
Proof.
  unfold deep_effect. destruct (deep_add 2 b None s) as [[[r ctx] s']|]; [|discriminate]. intros R.
  apply pair_equal_spec in R as [R R4]. apply pair_equal_spec in R as [R R3]. apply pair_equal_spec in R as [-> R2].
  exists ctx, s'. split; [reflexivity|]. split; [exact R2|]. split; [exact R3|]. clear R2 R3. intros h Hh Heq.
  assert (Hk : (Z.to_nat h < 13)%nat) by lia. pose proof (f_equal (fun l => l !! Z.to_nat h) R4) as N. cbv beta in N.
  rewrite list_lookup_fmap, lookup_seq_lt in N by exact Hk. cbn [Nat.add fmap option_fmap option_map] in N. rewrite Z2Nat.id, Heq, bytes_eqb_refl in N by lia.
  destruct (Z.to_nat h) as [|k] eqn:Ek; [lia|]. cbn [lookup list_lookup] in N.
  assert (F : Forall (fun x => x = false) (repeat false 12)) by (repeat constructor).
  rewrite Forall_lookup in F. now specialize (F k true (eq_sym N)).
Qed.

Lemma deep_run : deep_effect deep_last deep_main = (true, true, 13, true :: repeat false 12).
Proof. vm_cast_no_check (eq_refl (true, true, 13, true :: repeat false 12)). Qed.

Lemma deep_main_reached : rtc deep_step fresh_chain deep_main.
Proof. apply deep_reach, parsed_blocks_ok; vm_compute; reflexivity. Qed.

(** C4: First-seen finality does not bound the depth of a reorganisation. With no
    checkpoint at all a node can come, block by block, to a chain whose last twelve
    blocks one more block then replaces, although [CRYPTONOTE_FINALITY_DEPTH] is
    ten: each block of the rival branch was tested by its own height only, never by
    the height at which its branch leaves the chain. *)
Theorem deep_reorganisation : exists (s s' : Chain) (b : Block) (ctx : bvc), rtc deep_step fresh_chain s /\
  deep_add 2 b None s = Ok (true, ctx, s') /\ m_switched_to_alt_chain ctx = true /\ getChainHeight (db_of s) = 13 /\
  (forall h, 1 <= h < 13 -> getBlockIdByHeight (db_of s) h <> getBlockIdByHeight (db_of s') h) /\
  parameters.CRYPTONOTE_FINALITY_DEPTH < 12.
Proof.
  destruct (deep_effect_all _ _ deep_run) as (ctx & s' & H1 & H2 & H3 & H4). exists deep_main, s', deep_last, ctx.
  split; [exact deep_main_reached|]. split; [exact H1|]. split; [exact H2|]. split; [exact H3|]. split; [exact H4|]. reflexivity.
Qed.
