(* ===== verification/Mining.v ===== *)
(** * The core and the miner

    [Core] ([CryptoNoteCore/Core.cpp]) joins the chain, the pool and the miner:
    transactions that arrive ([handle_incoming_tx], [handleIncomingTransaction],
    [add_new_tx]), blocks that arrive ([handle_incoming_block_blob],
    [handle_incoming_block_impl], [addChain]) and the template a miner works on
    ([get_block_template_pq]). [Miner] ([CryptoNoteCore/Miner.cpp]) tries nonces on
    that template with the prover of [BlockFormat] and hands a block it finds back
    to the core ([handle_block_found]).

    The state is the chain with its pool of [ChainSwitch], and the keys of the
    miner when it is running. Threads, logging and observers are left out: a worker
    is the function of the nonces it tries. *)

From Stdlib Require Import ZArith String List Lia Bool.
From stdpp Require Import countable gmap sets fin_maps.
From coqutil Require Import Byte Word.LittleEndianList.
From S2P Require Import Prelude Config Varint Wire Transaction IntUtil Currency Extra PqHash PqDerive PqValidation BlockFormat Db ChainStore Checkpoints ChainRules TransactionPool Blockchain Ledger ChainSwitch.
Import ListNotations.
Open Scope string_scope.
Open Scope list_scope.
Open Scope Z_scope.
Open Scope discrete_scope.
Import Serialization TransactionExtra PqValidation FormatUtils LMDBBlockchainDB ChainStore ChainRules Blockchain.
Import BlockchainIndices TransactionPool ChainValidator ChainSwitch.

(** [Currency::PRETTY_AMOUNTS], [is_valid_decomposed_amount] *)
Definition PRETTY_AMOUNTS : list Z :=
  flat_map (fun k => map (fun d => d * 10 ^ k) [1; 2; 3; 4; 5; 6; 7; 8; 9]) (map Z.of_nat (seq 0 19)) ++ [10 ^ 19].

(** [std::lower_bound]: the first element not below. *)
Fixpoint lower_bound (l : list Z) (x : Z) : option Z :=
  match l with
  | [] => None
  | y :: l => if y <? x then lower_bound l x else Some y
  end.
Definition is_valid_decomposed_amount (amount : Z) : bool :=
  match lower_bound PRETTY_AMOUNTS amount with
  | Some y => amount =? y
  | None => false
  end.

Module Mining.

(** The announcement of a new block. *)
Record NOTIFY_NEW_BLOCK := mkNewBlock { hop : Z; current_blockchain_height : Z; nb_block : bytes; nb_txs : list bytes }.

(** The keys and the extra nonce of a running miner. *)
Record Mine := mkMine { m_pq_spend_pub : bytes; m_pq_spend_sk : bytes; m_extra_nonce : bytes }.

Section Run.
Variable sha3_256 : bytes -> bytes.
Variable cn_fast_hash : bytes -> bytes.
Variable shake256 : bytes -> nat -> bytes.
Variable dsa_sign : bytes -> bytes -> bytes.
Variable dsa_verify : bytes -> bytes -> bytes -> bool.
Variable yespower_discrete : bytes -> bytes -> bytes -> option bytes.
Variable y_slow_hash : bytes -> bytes -> option bytes.
Variable c : Currency.
Variable maxTransactionSizeLimit : Z.
Variable maxBlockBlobSize : Z.
Variable genesisBlockHash : bytes.
Variable m_checkpoints : Checkpoints.points.
Variable parent_of : Block -> ParentBlock.
Variable world : nat -> World.

Abbreviation validator_of := (validator_of sha3_256 cn_fast_hash dsa_verify y_slow_hash c genesisBlockHash m_checkpoints).
Abbreviation addNewBlock :=
  (addNewBlock sha3_256 cn_fast_hash shake256 dsa_verify yespower_discrete y_slow_hash c genesisBlockHash m_checkpoints parent_of world).
Abbreviation now_of := (now_of world).

(** ** Transactions that arrive *)

(** The flag [m_tx_fee_too_small] only chooses a log level. *)
Definition check_tx_fee (tx : Transaction) (height : Z) : bool :=
  let isPqTx := TRANSACTION_VERSION_1 <=? version (prefix tx) in
  if isPqTx && isPqTransfer (txType (prefix tx)) then true
  else
    let inputs_amount := TransactionPool.get_inputs_money_amount tx in
    let outputs_amount := getOutputAmount tx in
    if inputs_amount <? outputs_amount then false
    else
      let fee := inputs_amount - outputs_amount in
      if isPqTx && (txType (prefix tx) =? TX_FREE_REG) && (fee =? 0) then true
      else if negb (Checkpoints.is_in_checkpoint_zone m_checkpoints height) then
        let min := parameters.MINIMUM_FEE in
        let min := w64 (min + parameters.pqTxExtraSurcharge min (len (extra (prefix tx)))) in
        negb (fee <? min)
      else true.

Definition check_tx_classical_output_amounts (tx : Transaction) : bool :=
  forallb (fun out => is_valid_decomposed_amount (amount out)) (outputs (prefix tx)).

Definition haveTransaction (db : Db) (h : bytes) : bool := is_some (getTxIndex db h).

Definition add_new_tx (t : Transaction) (h : bytes) (blob_size : Z) (kept : bool) (s : Chain) : bool * tvc * Chain :=
  if haveTransaction (db_of s) h then (true, tvc_init, s)
  else if have_tx (k_pool s) h then (true, tvc_init, s)
  else
    let '(r, ctx, p) := add_tx sha3_256 cn_fast_hash c (validator_of s) (now_of s) t h blob_size kept (k_pool s) in
    (r, ctx, set_pool s p).

(** What is asked of a transaction outside the checkpoint zone. *)
Definition check_outside_zone (t : Transaction) (blobSize height : Z) : bool :=
  if maxTransactionSizeLimit <? blobSize then false
  else if negb ((TRANSACTION_VERSION_1 <=? version (prefix t)) && isPqTransfer (txType (prefix t))) && negb (check_tx_fee t height) then false
  else if negb (TRANSACTION_VERSION_1 <=? version (prefix t)) && negb (check_tx_classical_output_amounts t) then false
  else negb (maxBlockHeight c <? unlockHeight (prefix t)).

Definition handleIncomingTransaction (t : Transaction) (h : bytes) (blobSize : Z) (kept : bool) (height : Z) (s : Chain) : bool * tvc * Chain :=
  if negb (Checkpoints.is_in_checkpoint_zone m_checkpoints (getChainHeight (db_of s))) && negb (check_outside_zone t blobSize height)
  then (false, tvc_failed, s)
  else if negb (Core.check_tx_semantic sha3_256 t kept) then (false, tvc_failed, s)
  else if negb kept && (TRANSACTION_VERSION_1 <=? version (prefix t)) && (txType (prefix t) =? TX_FREE_REG) then
    let (ok, proofs) := precheckFreeRegPow sha3_256 cn_fast_hash y_slow_hash c (db_of s) (m_freeRegProofs (k_node s)) t in
    let s := set_node s (set_proofs (k_node s) proofs) in
    if ok then add_new_tx t h blobSize kept s else (false, tvc_failed, s)
  else add_new_tx t h blobSize kept s.

Definition handle_incoming_tx (tx_blob : bytes) (kept : bool) (s : Chain) : bool * tvc * Chain :=
  if maxTransactionSizeLimit <? len tx_blob then (false, tvc_failed, s)
  else
    match fromBinaryArray tx_codec tx_blob with
    | None => (false, tvc_failed, s)
    | Some t =>
        let h := cn_fast_hash tx_blob in
        let height := match getTxIndex (db_of s) h with Some (block, _) => block | None => getChainHeight (db_of s) end in
        handleIncomingTransaction t h (len tx_blob) kept height s
    end.

(** ** The block template *)

Definition getBlockTimestamp (db : Db) (height : Z) : Z := m_timestamp (getBlockMeta_or_zero db height).
Definition getCoinsInCirculation (db : Db) : Z :=
  let h := getChainHeight db in
  if h =? 0 then 0 else m_alreadyGeneratedCoins (getBlockMeta_or_zero db (h - 1)).
Definition getObjectBinarySize (t : Transaction) : Z := len (tx_blob t).

(** [time(nullptr)] is [local]. *)
Definition template_timestamp (db : Db) (local : Z) : Z :=
  let height := getChainHeight db in
  let parentTimestamp := if 0 <? height then getBlockTimestamp db (height - 1) else 0 in
  let ts := Z.max local parentTimestamp in
  let window := timestampCheckWindow_v1 c in
  if window <=? height then
    let offset := height - w32 window in
    let median_ts := medianValue (map (fun i => getBlockTimestamp db (offset + Z.of_nat i)) (seq 0 (Z.to_nat (height - offset)))) in
    if ts <? median_ts then median_ts else ts
  else ts.

(** The inner loop: the coinbase for a block of [cumulative_size] bytes, until the
    size is that of the block it makes. *)
Fixpoint stabilize (tries : nat) (construct : Z -> option Transaction) (txs_size cumulative_size : Z) : option (Transaction * Z) :=
  match tries with
  | O => None
  | S tries =>
      match construct cumulative_size with
      | None => None
      | Some base =>
          let measured_size := w64 (txs_size + getObjectBinarySize base) in
          if measured_size =? cumulative_size then Some (base, cumulative_size) else stabilize tries construct txs_size measured_size
      end
  end.

(** The outer loop: select, construct and measure; on overflow select less. *)
Fixpoint select (tries : nat) (v : Validator) (median_size max_cumulative_size : Z) (construct : Z -> Z -> option Transaction)
  (transaction_selection_limit : Z) (p : Pool) : option (list bytes * Transaction) * Pool :=
  match tries with
  | O => (None, p)
  | S tries =>
      let '(hashes, txs_size, fee, p) := fill_block_template sha3_256 c v median_size transaction_selection_limit p in
      match construct txs_size fee with
      | None => (None, p)
      | Some base =>
          match stabilize 10 (fun size => construct size fee) txs_size (w64 (txs_size + getObjectBinarySize base)) with
          | None => (None, p)
          | Some (base, cumulative_size) =>
              if cumulative_size <=? max_cumulative_size then (Some (hashes, base), p)
              else
                let overflow := cumulative_size - max_cumulative_size in
                if transaction_selection_limit <=? overflow then (None, p)
                else select tries v median_size max_cumulative_size construct (transaction_selection_limit - overflow) p
          end
      end
  end.

(** The block, its difficulty and its height. *)
Definition get_block_template_pq (spendPub ex_nonce : bytes) (local : Z) (s : Chain) : option (Block * Z * Z) * Chain :=
  let db := db_of s in
  let height := getChainHeight db in
  let hdr := mkBlockHeader BLOCK_MAJOR_VERSION_1 0 0 (template_timestamp db local) (getTailId db) in
  let diffic := getDifficultyForNextBlock c db (alts s) (getTailId db) in
  if diffic =? 0 then (None, s)
  else
    let median_size := m_current_block_cumul_sz_limit (k_node s) / 2 in
    let already_generated_coins := getCoinsInCirculation db in
    let max_cumulative_size := maxBlockCumulativeSize c height in
    let construct := fun size fee =>
      constructMinerTxPq sha3_256 c BLOCK_MAJOR_VERSION_1 height median_size already_generated_coins size fee spendPub ex_nonce in
    let (r, p) := select 10 (validator_of s) median_size max_cumulative_size construct max_cumulative_size (k_pool s) in
    (option_map (fun x => (mkBlock hdr (snd x) [] (fst x), diffic, height)) r, set_pool s p).

(** ** Blocks that arrive *)

(** [miner::on_block_chain_update] of a running miner, [Core::update_block_template_and_resume_mining]:
    a miner without a template stops. *)
Definition update_block_template (miner : option Mine) (s : Chain) : option Mine * Chain :=
  match miner with
  | None => (None, s)
  | Some m =>
      let (r, s) := get_block_template_pq (m_pq_spend_pub m) (m_extra_nonce m) (now_of s) s in
      (if is_some r then miner else None, s)
  end.

(** [getBlockchainTransactions]: those found, and the ids missed. *)
Fixpoint getBlockchainTransactions (db : Db) (ids : list bytes) : result failure (list Transaction * list bytes) :=
  match ids with
  | [] => Ok ([], [])
  | h :: ids =>
      match getTxIndex db h with
      | None => let* (txs, missed) := getBlockchainTransactions db ids in Ok (txs, h :: missed)
      | Some (block, slot) =>
          let* te := transactionByIndex db block slot in
          let* (txs, missed) := getBlockchainTransactions db ids in
          Ok (te_tx te :: txs, missed)
      end
  end.

Definition announcement (b : Block) (s : Chain) : result failure (bool * option NOTIFY_NEW_BLOCK) :=
  let db := db_of s in
  let* (txs, missed) := getBlockchainTransactions db (transactionHashes b) in
  let id := block_hash cn_fast_hash shake256 parent_of b in
  let at_height := if get_block_height b <? getChainHeight db then getBlockIdByHeight db (get_block_height b) else NULL_HASH in
  if negb (length missed =? 0)%nat && negb (at_height ==b id) then Ok (true, None)
  else if negb ((length txs =? length (transactionHashes b))%nat && (length missed =? 0)%nat) then Ok (false, None)
  else
    match toBinaryArray block_codec b with
    | None => Ok (false, None)
    | Some ba => Ok (true, Some (mkNewBlock 0 (getChainHeight db) ba (map tx_blob txs)))
    end.

Definition handle_incoming_block_impl (depth : nat) (b : Block) (proof : option (bytes * bytes)) (control_miner relay_block : bool)
  (miner : option Mine) (s : Chain) : result stop (bool * bvc * option NOTIFY_NEW_BLOCK * option Mine * Chain) :=
  let* (r, s) := addNewBlock depth b proof s in
  let ctx := snd r in
  let (miner, s) := if control_miner then update_block_template miner s else (miner, s) in
  if relay_block && m_added_to_main_chain ctx then
    match announcement b s with
    | Err e => Err (Thrown e)
    | Ok (ok, note) => Ok (ok, ctx, note, miner, s)
    end
  else Ok (true, ctx, None, miner, s).

Definition handle_incoming_block_blob (depth : nat) (block_blob : bytes) (control_miner relay_block : bool)
  (miner : option Mine) (s : Chain) : result stop (bool * bvc * option NOTIFY_NEW_BLOCK * option Mine * Chain) :=
  if maxBlockBlobSize <? len block_blob then Ok (false, bvc_failed, None, miner, s)
  else
    match fromBinaryArray block_codec block_blob with
    | None => Ok (false, bvc_failed, None, miner, s)
    | Some b => handle_incoming_block_impl depth b None control_miner relay_block miner s
    end.

(** The transactions of a block that come with it, until one is refused. *)
Fixpoint add_transactions (txs : list Transaction) (height : Z) (s : Chain) : bool * Chain :=
  match txs with
  | [] => (true, s)
  | t :: txs =>
      let '(ok, _, s) := handleIncomingTransaction t (txid cn_fast_hash t) (len (tx_blob t)) true height s in
      if ok then add_transactions txs height s else (false, s)
  end.

(** Blocks with their transactions in order; the number of those added. *)
Fixpoint addChain (depth : nat) (chain : list (Block * list Transaction)) (blocksCounter : Z) (s : Chain) : result stop (Z * Chain) :=
  match chain with
  | [] => Ok (blocksCounter, s)
  | (b, txs) :: chain =>
      let (ok, s) := add_transactions txs (get_block_height b) s in
      if negb ok then Ok (blocksCounter, s)
      else
        let* (r, s) := addNewBlock depth b None s in
        if m_marked_as_orphaned (snd r) || m_verification_failed (snd r) then Ok (blocksCounter, s)
        else addChain depth chain (blocksCounter + 1) s
  end.

Definition handle_block_found (depth : nat) (b : Block) (miner : option Mine) (s : Chain)
  : result stop (bool * option NOTIFY_NEW_BLOCK * option Mine * Chain) :=
  let* r := handle_incoming_block_impl depth b None true true miner s in
  let '(_, ctx, note, miner, s) := r in
  Ok (m_added_to_main_chain ctx, note, miner, s).

(** ** The worker *)

(** One nonce: [None] when the prover fails and the worker stops. *)
Definition try_nonce (m : Mine) (b : Block) (local_diff nonce : Z) : option (option Block) :=
  let h := header b in
  let b := mkBlock (mkBlockHeader (majorVersion h) (minorVersion h) nonce (timestamp h) (previousBlockHash h))
             (baseTransaction b) (signature b) (transactionHashes b) in
  match get_block_hashing_blob cn_fast_hash b with
  | None => None
  | Some blob =>
      match discrete_power_prove shake256 dsa_sign yespower_discrete blob (m_pq_spend_sk m) with
      | (_, None) => None
      | (sig, Some pow) =>
          if Difficulty.check_hash pow local_diff
          then Some (Some (mkBlock (header b) (baseTransaction b) sig (transactionHashes b)))
          else Some None
      end
  end.

(** The nonces of one thread, [m_threads_total] apart, until a block is found. *)
Fixpoint worker (tries : nat) (m : Mine) (b : Block) (local_diff nonce threads : Z) : option Block :=
  match tries with
  | O => None
  | S tries =>
      match try_nonce m b local_diff nonce with
      | None => None
      | Some (Some found) => Some found
      | Some None => worker tries m b local_diff (w32 (nonce + threads)) threads
      end
  end.

End Run.
End Mining.
