(* ===== verification/MinedBlock.v ===== *)
(** * A mined template extends the chain

    The composition of pool, template, coinbase, prover and chain: the block a
    miner finds on a template of its own node is accepted by that node. What has to
    be shown is that the checks the pool made of each transaction alone still pass
    when [pushBlock] makes them one after the other on a database that already has
    the transactions before it ([steady_*]), that the sizes, fees and medians the
    template was built with are those the block is judged by, and that the proof
    the worker makes is the one the header check accepts. *)

From Stdlib Require Import ZArith String List Lia Bool.
From stdpp Require Import countable gmap sets fin_maps.
From coqutil Require Import Byte Word.LittleEndianList.
From S2P Require Import Prelude Config Varint Wire Transaction IntUtil Currency Extra PqHash PqDerive PqValidation BlockFormat Db ChainStore Checkpoints ChainRules TransactionPool Blockchain Ledger ChainSwitch Mining.
Import ListNotations.
Open Scope string_scope.
Open Scope list_scope.
Open Scope Z_scope.
Open Scope discrete_scope.
Import Serialization TransactionExtra PqValidation FormatUtils LMDBBlockchainDB ChainStore ChainRules Blockchain.
Import BlockchainIndices TransactionPool ChainValidator ChainSwitch Mining.

Lemma existsb_ext_in {A} (f g : A -> bool) l : (forall x, In x l -> f x = g x) -> existsb f l = existsb g l.
Proof. induction l as [|x l IH]; intros H; cbn; [reflexivity|]. rewrite IH by (intros y Hy; apply H; now right). f_equal. apply H. now left. Qed.

Lemma sublist_map {A B} (f : A -> B) l l' : l `sublist_of` l' -> map f l `sublist_of` map f l'.
Proof. induction 1; cbn; constructor; assumption. Qed.

Lemma Forall2_map_pair {A B C} (f : A -> B) (g : A -> C) (P : B -> C -> Prop) l : (forall x, In x l -> P (f x) (g x)) -> Forall2 P (map f l) (map g l).
Proof. induction l as [|x l IH]; intros H; cbn; constructor; [apply H; now left|]. apply IH. intros y Hy. apply H. now right. Qed.

(** ** A push that succeeds *)

Section Push.
Variable sha3_256 : bytes -> bytes.
Variable full : Db -> bool.
Hypothesis never_full : forall db, full db = false.

Abbreviation images := (images sha3_256).
Abbreviation spendImage := (spendImageForInput sha3_256).

Lemma write_succeeds db : write full db = Ok db.
Proof. unfold write. now rewrite never_full. Qed.

Lemma spend_loop_succeeds height rest : forall done db, NoDup (omap spendImage rest) ->
  (forall k, k ∈ omap spendImage rest -> spent_keys db !! k = None) ->
  exists db', spend_loop sha3_256 full height done rest db = Ok (true, db').
Proof.
  induction rest as [|i rest IH]; intros done db N F; cbn [spend_loop]; [eauto|]. cbn [omap list_omap] in N, F.
  destruct (spendImage i) as [img|]; [|apply IH; assumption].
  apply NoDup_cons in N as [Ni N].
  rewrite (proj2 (hasSpentKey_false db img)) by (apply F; constructor).
  unfold putSpentKey. rewrite write_succeeds. cbn [bind]. apply IH; [exact N|]. intros k Hk.
  cbn [spent_keys set_spent_keys]. rewrite lookup_insert_ne by (intros ->; contradiction). apply F. now constructor.
Qed.

Lemma pushTransaction_succeeds db height slot h tx : tx_indices db !! h = None -> NoDup (images tx) ->
  (forall k, k ∈ images tx -> spent_keys db !! k = None) ->
  (forall a, a ∈ entered sha3_256 slot tx -> pq_acct_reg db !! a = None) ->
  exists db', pushTransaction sha3_256 full db height slot h tx = Ok (true, db').
Proof.
  intros Hi N F R. unfold pushTransaction, getTxIndex. rewrite Hi.
  destruct (spend_loop_succeeds height (inputs (prefix tx)) [] db N F) as [db1 E1]. rewrite E1. cbn [bind negb].
  apply spend_loop_ok in E1 as (s & -> & _). unfold putTxIndex. rewrite write_succeeds. cbn [bind].
  assert (P : exists p, put_payment full tx h (set_tx_indices (set_spent_keys db s) (<[h := (height, slot)]> (tx_indices (set_spent_keys db s)))) =
    Ok (set_payment_id_idx (set_tx_indices (set_spent_keys db s) (<[h := (height, slot)]> (tx_indices (set_spent_keys db s)))) p)).
  { unfold put_payment. destruct (getPaymentIdFromTxExtra _); [unfold putPaymentId; rewrite write_succeeds; eauto|].
    eexists. destruct db. reflexivity. }
  destruct P as [p ->]. cbn [bind]. unfold put_registration, entered in *.
  destruct (slot =? 0); [cbn [bind negb]; unfold putTxEntry; rewrite write_succeeds; cbn [bind]; eauto|].
  destruct (registration sha3_256 tx) as [a|]; [|cbn [bind negb]; unfold putTxEntry; rewrite write_succeeds; cbn [bind]; eauto].
  rewrite (proj2 (hasPqAcctReg_false _ a)) by (apply R, list_elem_of_singleton; reflexivity).
  unfold putPqAcctReg. rewrite write_succeeds. cbn [bind negb]. unfold putTxEntry. rewrite write_succeeds. cbn [bind]. eauto.
Qed.
End Push.

(** ** What one push leaves as it was *)

Section Steady.
Variable sha3_256 : bytes -> bytes.
Variable cn_fast_hash : bytes -> bytes.
Variable dsa_verify : bytes -> bytes -> bytes -> bool.
Variable y_slow_hash : bytes -> bytes -> option bytes.
Variable c : Currency.
Variable genesisBlockHash : bytes.
Context {n slot : Z} {h : bytes} {t : Transaction} {db db' : Db}.
Hypothesis pushed : push_effect sha3_256 n slot h t db db'.
Hypothesis free_slot : tx_entries db !! (n, slot) = None.

Lemma steady_height : getChainHeight db' = getChainHeight db.
Proof. unfold getChainHeight. now rewrite (pe_meta _ _ _ _ _ _ _ pushed). Qed.

Lemma steady_meta k : getBlockMeta_or_zero db' k = getBlockMeta_or_zero db k.
Proof. unfold getBlockMeta_or_zero, getBlockMeta. now rewrite (pe_meta _ _ _ _ _ _ _ pushed). Qed.

Lemma steady_entry b s te : transactionByIndex db b s = Ok te -> transactionByIndex db' b s = Ok te.
Proof.
  unfold transactionByIndex, getTxEntry. rewrite (pe_entries _ _ _ _ _ _ _ pushed).
  destruct (decide ((n, slot) = (b, s))) as [<-|N]; [rewrite free_slot; discriminate|]. now rewrite lookup_insert_ne.
Qed.

Lemma steady_referenced i r : referenced_output db i = Some r -> referenced_output db' i = Some r.
Proof.
  unfold referenced_output, pqReferencedTx, getTxIndex. rewrite (pe_index _ _ _ _ _ _ _ pushed).
  destruct (tx_indices db !! prevTxid i) as [[b s]|] eqn:E; [|discriminate].
  rewrite lookup_insert_ne by (intros X; rewrite <- X, (pe_fresh _ _ _ _ _ _ _ pushed) in E; discriminate). rewrite E.
  destruct (transactionByIndex db b s) as [te|] eqn:Ei; [|discriminate]. now rewrite (steady_entry b s te Ei).
Qed.

Lemma steady_resolved i : spendable sha3_256 c db i ->
  resolve_input c db' i = resolve_input c db i /\ input_amount db' i = input_amount db i.
Proof.
  intros (b & s & o & E & _). unfold resolve_input, input_amount. rewrite E, (steady_referenced i _ E).
  unfold is_tx_spendheight_unlocked. now rewrite steady_height.
Qed.

Lemma steady_unspent k : k ∉ images sha3_256 t -> spent_keys db' !! k = spent_keys db !! k.
Proof. apply pushed. Qed.

(** A transfer that was valid, and spends none of what the pushed one spends, still
    is, and pays the same fee. *)
Lemma steady_transfer tx z : wf_Transaction tx -> checkPqTransactionSemantic tx = Ok tt ->
  (forall k, k ∈ images sha3_256 tx -> k ∉ images sha3_256 t) ->
  checkPqInputs sha3_256 dsa_verify c genesisBlockHash db tx = Some z ->
  checkPqInputs sha3_256 dsa_verify c genesisBlockHash db' tx = Some z /\
  getPqTransactionFee db' tx = getPqTransactionFee db tx.
Proof.
  intros W S D H. destruct (checkPqInputs_ok sha3_256 dsa_verify c genesisBlockHash db tx z W S H) as (ks & fee & [Hi Sp _ _ _ _ _]).
  assert (Ep : pq_inputs tx = ks) by now apply pq_inputs_map.
  assert (R : map (resolve_input c db') (pq_inputs tx) = map (resolve_input c db) (pq_inputs tx)).
  { rewrite Ep. apply map_ext_in. intros i Hin. rewrite List.Forall_forall in Sp. apply steady_resolved, Sp, Hin. }
  assert (A : map (input_amount db') (pq_inputs tx) = map (input_amount db) (pq_inputs tx)).
  { rewrite Ep. apply map_ext_in. intros i Hin. rewrite List.Forall_forall in Sp. apply steady_resolved, Sp, Hin. }
  split; [|unfold getPqTransactionFee; now rewrite !pqReferencedInputAmount_sum, A].
  rewrite <- H. unfold checkPqInputs. rewrite steady_height, R. destruct (negb (forallb _ _)); [reflexivity|].
  assert (X : existsb (fun k => hasSpentKey db' (pqNullifier sha3_256 k)) (pq_inputs tx) = existsb (fun k => hasSpentKey db (pqNullifier sha3_256 k)) (pq_inputs tx)).
  { apply existsb_ext_in. intros i Hin. unfold hasSpentKey. rewrite steady_unspent; [reflexivity|].
    apply D. rewrite images_of_inputs. apply list_elem_of_In, in_map, Hin. }
  now rewrite X.
Qed.

Lemma steady_registration tx z : (forall a, registration sha3_256 tx = Some a -> a ∉ entered sha3_256 slot t) ->
  freeRegChainStateOk sha3_256 db tx = Some z -> freeRegChainStateOk sha3_256 db' tx = Some z.
Proof.
  unfold freeRegChainStateOk, registration. intros F.
  destruct (getPqAccountRegistrationFromExtra _) as [[v s]|]; [|discriminate]. destruct (getPowTagFromExtra _) as [[r k]|]; [|discriminate].
  rewrite steady_height. unfold getHashHeight, hasPqAcctReg. rewrite (pe_hash _ _ _ _ _ _ _ pushed).
  rewrite (proj1 (pe_reg _ _ _ _ _ _ _ pushed)) by (apply F; reflexivity). easy.
Qed.

Lemma steady_account tx : (forall a, registration sha3_256 tx = Some a -> a ∉ entered sha3_256 slot t) ->
  isPqAccountAlreadyRegistered sha3_256 db' tx = isPqAccountAlreadyRegistered sha3_256 db tx.
Proof.
  unfold isPqAccountAlreadyRegistered. intros F. destruct (registration sha3_256 tx) as [a|]; [|reflexivity].
  unfold hasPqAcctReg. now rewrite (proj1 (pe_reg _ _ _ _ _ _ _ pushed)) by now apply F.
Qed.
End Steady.

(** ** The checks of a transaction, without the caches of proofs *)

Section Ready.
Variable sha3_256 : bytes -> bytes.
Variable cn_fast_hash : bytes -> bytes.
Variable dsa_verify : bytes -> bytes -> bytes -> bool.
Variable y_slow_hash : bytes -> bytes -> option bytes.
Variable c : Currency.
Variable genesisBlockHash : bytes.
Hypothesis sha3_length : forall x, length (sha3_256 x) = 32%nat.

Abbreviation images := (images sha3_256).
Abbreviation registration := (registration sha3_256).
Abbreviation tx_checks := (checkTransactionInputs sha3_256 cn_fast_hash dsa_verify y_slow_hash c genesisBlockHash).
Abbreviation caches_ok := (caches_ok sha3_256 cn_fast_hash y_slow_hash c).
Abbreviation proof_collision := (proof_collision sha3_256 cn_fast_hash).

Definition plain_check (db : Db) (tx : Transaction) : option Z :=
  let p := prefix tx in
  if negb (version p =? TRANSACTION_VERSION_1) then None
  else if (isPqTransfer (txType p) || (txType p =? TX_FREE_REG)) && isPqAccountAlreadyRegistered sha3_256 db tx then None
  else if isPqTransfer (txType p) then
    if negb (isPqTransferTypeAllowedAt c (txType p) (getChainHeight db)) then None else checkPqInputs sha3_256 dsa_verify c genesisBlockHash db tx
  else if txType p =? TX_FREE_REG then uncached sha3_256 y_slow_hash c db tx
  else if txType p =? TX_COINBASE then Some 0
  else None.

Lemma collision_incl l l' : (forall x, In x l -> In x l') -> proof_collision l -> proof_collision l'.
Proof.
  intros I [H|H]; [left|right]; (eapply collides_incl; [|exact H]); intros x Hx; apply in_flat_map in Hx as (y & Hy & Hx);
    apply in_flat_map; exists y; auto.
Qed.

(** With caches filled by the checks of [seen], the verdict is the plain one. *)
Lemma cached_plain seen s db tx height : caches_ok seen s -> height = getChainHeight db \/ height = AT_TIP ->
  caches_ok (seen ++ [tx]) (snd (tx_checks db s tx height)) /\
  (fst (tx_checks db s tx height) = plain_check db tx \/ proof_collision (tx :: seen)).
Proof.
  intros K Hh. unfold checkTransactionInputs, plain_check.
  replace (if height =? AT_TIP then getChainHeight db else height) with (getChainHeight db)
    by (destruct Hh as [->| ->]; [destruct (_ =? AT_TIP); reflexivity|reflexivity]).
  assert (Same : caches_ok (seen ++ [tx]) s) by (destruct K; split; now apply cache_ok_mono).
  destruct (negb (version _ =? _)); [auto|]. destruct (_ && isPqAccountAlreadyRegistered _ _ _); [auto|].
  destruct (isPqTransfer _); [destruct (negb _); auto|]. destruct (txType _ =? TX_FREE_REG); [|destruct (_ =? TX_COINBASE); auto].
  split; [exact (run_call_ok sha3_256 cn_fast_hash y_slow_hash c seen s (Check_inputs db tx) K)|].
  now apply checkFreeRegInputs_uncached.
Qed.

(** A transaction of the block that is still to be connected. *)
Record ready (db : Db) (x : bytes * Transaction) : Prop := {
  rd_admitted : admitted sha3_256 x.2;
  rd_check : is_Some (plain_check db x.2);
  rd_fresh : tx_indices db !! x.1 = None
}.

Lemma admitted_kind tx : admitted sha3_256 tx -> version (prefix tx) = TRANSACTION_VERSION_1 ->
  (isPqTransfer (txType (prefix tx)) = true /\ wf_Transaction tx /\ checkPqTransactionSemantic tx = Ok tt) \/
  (isPqTransfer (txType (prefix tx)) = false /\ txType (prefix tx) = TX_FREE_REG /\ inputs (prefix tx) = [] /\ outputs (prefix tx) = []).
Proof.
  intros [[W _] [kept S]] V. unfold Core.check_tx_semantic in S. rewrite V in S. change (TRANSACTION_VERSION_1 <=? TRANSACTION_VERSION_1) with true in S.
  cbv iota in S. destruct (isPqTransfer _); [left; split; [reflexivity|]; split; [exact W|]; destruct (checkPqTransactionSemantic tx) as [[]|]; [reflexivity|discriminate]|].
  right. split; [reflexivity|]. destruct (Z.eqb_spec (txType (prefix tx)) TX_FREE_REG) as [E|]; [|discriminate]. split; [exact E|].
  destruct (checkFreeRegTransactionShape tx) eqn:F; [|discriminate]. unfold checkFreeRegTransactionShape in F. inv_bind F. inv_bind F. inv_guard. bprop.
  destruct (inputs (prefix tx)); [|discriminate]. destruct (outputs (prefix tx)); [|discriminate]. auto.
Qed.

Lemma plain_version db tx z : plain_check db tx = Some z -> version (prefix tx) = TRANSACTION_VERSION_1.
Proof. unfold plain_check. destruct (Z.eqb_spec (version (prefix tx)) TRANSACTION_VERSION_1); [auto|discriminate]. Qed.

Lemma ready_transfer db x : ready db x -> isPqTransfer (txType (prefix x.2)) = true ->
  exists z, checkPqInputs sha3_256 dsa_verify c genesisBlockHash db x.2 = Some z.
Proof.
  intros [_ [z Hz] _] E. unfold plain_check in Hz. rewrite E in Hz. destruct (negb (version _ =? _)); [discriminate|].
  destruct (_ && isPqAccountAlreadyRegistered _ _ _); [discriminate|]. destruct (negb _); [discriminate|]. eauto.
Qed.

Lemma ready_images db x : ready db x -> NoDup (images x.2) /\ forall k, k ∈ images x.2 -> spent_keys db !! k = None.
Proof.
  intros R. destruct (rd_check _ _ R) as [z Hz]. destruct (admitted_kind x.2 (rd_admitted _ _ R) (plain_version _ _ _ Hz)) as [(T & W & S)|(_ & _ & E & _)].
  - destruct (ready_transfer db x R T) as [z' Hc]. destruct (checkPqInputs_ok _ _ _ _ _ _ _ W S Hc) as (ks & fee & [Hi Sp N _ _ _ _]).
    rewrite images_of_inputs, (pq_inputs_map ks x.2 Hi). split; [exact N|]. intros k Hk. apply list_elem_of_In, in_map_iff in Hk as (i & <- & Hin).
    rewrite List.Forall_forall in Sp. destruct (Sp i Hin) as (b & s & o & _ & _ & _ & _ & U). exact U.
  - unfold ChainStore.images. rewrite E. cbn. split; [constructor|inversion 1].
Qed.

Lemma ready_account db x a : ready db x -> registration x.2 = Some a -> pq_acct_reg db !! a = None.
Proof.
  intros R E. destruct (rd_check _ _ R) as [z Hz]. pose proof (plain_version _ _ _ Hz) as V.
  assert (K : isPqTransfer (txType (prefix x.2)) || (txType (prefix x.2) =? TX_FREE_REG) = true).
  { destruct (admitted_kind x.2 (rd_admitted _ _ R) V) as [(-> & _)|(_ & -> & _)]; [reflexivity|]. now rewrite orb_true_r. }
  unfold plain_check in Hz. rewrite K in Hz. destruct (negb _); [discriminate|]. cbn [andb] in Hz. unfold isPqAccountAlreadyRegistered in Hz. rewrite E in Hz.
  destruct (hasPqAcctReg db a) eqn:H; [discriminate|]. now apply hasPqAcctReg_false.
Qed.

Lemma ready_fee db x : ready db x -> is_Some (tx_fee db x.2).
Proof.
  intros R. destruct (rd_check _ _ R) as [z Hz]. pose proof (plain_version _ _ _ Hz) as V. unfold tx_fee. rewrite V.
  change (TRANSACTION_VERSION_1 <=? TRANSACTION_VERSION_1) with true. cbn [andb].
  destruct (admitted_kind x.2 (rd_admitted _ _ R) V) as [(T & W & S)|(T & _ & Ei & Eo)]; rewrite T.
  - destruct (ready_transfer db x R T) as [z' Hc]. destruct (checkPqInputs_ok _ _ _ _ _ _ _ W S Hc) as (ks & fee & H).
    rewrite (transfer_fee sha3_256 c db x.2 ks fee H W). eauto.
  - unfold getOutputAmount. rewrite Eo. cbn. eauto.
Qed.

(** Connecting one transaction leaves the others ready. *)
Lemma ready_steady n slot h t db db' x : push_effect sha3_256 n slot h t db db' -> tx_entries db !! (n, slot) = None -> ready db x ->
  h <> x.1 -> (forall k, k ∈ images x.2 -> k ∉ images t) -> (forall a, registration x.2 = Some a -> a ∉ entered sha3_256 slot t) ->
  ready db' x /\ tx_fee db' x.2 = tx_fee db x.2.
Proof.
  intros P F R Hn D De. destruct (rd_check _ _ R) as [z Hz]. pose proof (plain_version _ _ _ Hz) as V.
  assert (Fr : tx_indices db' !! x.1 = None) by (rewrite (pe_index _ _ _ _ _ _ _ P), lookup_insert_ne by exact Hn; apply R).
  assert (C : is_Some (plain_check db' x.2) /\ tx_fee db' x.2 = tx_fee db x.2).
  { unfold tx_fee. pose proof Hz as Hz'. unfold plain_check in Hz' |- *. rewrite (steady_account sha3_256 P x.2 De), (steady_height sha3_256 P).
    destruct (negb (version _ =? _)); [discriminate|]. destruct (_ && isPqAccountAlreadyRegistered _ _ _); [discriminate|].
    destruct (admitted_kind x.2 (rd_admitted _ _ R) V) as [(T & W & S)|(T & Ef & _)]; rewrite T in *; rewrite ?andb_true_r, ?andb_false_r.
    - destruct (negb _); [discriminate|]. rewrite V. change (TRANSACTION_VERSION_1 <=? TRANSACTION_VERSION_1) with true. cbv iota.
      destruct (steady_transfer sha3_256 dsa_verify c genesisBlockHash P F x.2 z W S D Hz') as [-> ->]. eauto.
    - rewrite Ef in Hz' |- *. cbn [Z.eqb Pos.eqb TX_FREE_REG] in Hz' |- *. split; [|reflexivity]. unfold uncached in Hz' |- *.
      destruct (freeRegChainStateOk sha3_256 db x.2) as [y|] eqn:Es; [|discriminate].
      rewrite (steady_registration sha3_256 P x.2 y De Es). destruct (free_reg_pow _ _ _); [eauto|discriminate]. }
  split; [constructor; [apply R|apply C|exact Fr]|apply C].
Qed.
End Ready.

(** ** The transactions of a block, one after the other *)

Section Connect.
Variable sha3_256 : bytes -> bytes.
Variable cn_fast_hash : bytes -> bytes.
Variable dsa_verify : bytes -> bytes -> bytes -> bool.
Variable y_slow_hash : bytes -> bytes -> option bytes.
Variable c : Currency.
Variable genesisBlockHash : bytes.
Variable full : Db -> bool.
Hypothesis sha3_length : forall x, length (sha3_256 x) = 32%nat.
Hypothesis never_full : forall db, full db = false.

Abbreviation images := (images sha3_256).
Abbreviation registration := (registration sha3_256).
Abbreviation caches_ok := (caches_ok sha3_256 cn_fast_hash y_slow_hash c).
Abbreviation proof_collision := (proof_collision sha3_256 cn_fast_hash).
Abbreviation connect_txs := (connect_txs sha3_256 cn_fast_hash dsa_verify y_slow_hash c genesisBlockHash).
Abbreviation ready := (ready sha3_256 dsa_verify y_slow_hash c genesisBlockHash).

Definition tx_images (txs : list (bytes * Transaction)) : list bytes := txs ≫= fun x => images x.2.
Definition tx_accounts (txs : list (bytes * Transaction)) : list bytes := omap (fun x => registration x.2) txs.
Definition tx_frees (txs : list (bytes * Transaction)) : Z := Z.of_nat (length (List.filter (fun x => is_free_reg x.2) txs)).
Definition tx_sizes (txs : list (bytes * Transaction)) : Z := total (map (fun x => len (tx_blob x.2)) txs).
Definition tx_fees (db : Db) (txs : list (bytes * Transaction)) : Z := total (map (fun x => default 0 (tx_fee db x.2)) txs).

(** Transactions that can all be connected. *)
Record compatible (db : Db) (txs : list (bytes * Transaction)) : Prop := {
  cp_ready : Forall (ready db) txs;
  cp_ids : NoDup txs.*1;
  cp_images : NoDup (tx_images txs);
  cp_accounts : NoDup (tx_accounts txs)
}.

Lemma account_of x txs a : x ∈ txs -> registration x.2 = Some a -> a ∈ tx_accounts txs.
Proof. intros Hx E. apply list_elem_of_omap. eauto. Qed.

Lemma compatible_tail n slot db db' x txs : compatible db (x :: txs) -> push_effect sha3_256 n slot x.1 x.2 db db' ->
  tx_entries db !! (n, slot) = None -> compatible db' txs /\ tx_fees db' txs = tx_fees db txs.
Proof.
  intros [R I M A] P F. inversion_clear R as [|? ? Rx Rs]. cbn [fmap list_fmap] in I. apply NoDup_cons in I as [Ix I].
  unfold tx_images in M. cbn [mbind list_bind] in M. apply NoDup_app in M as (Mx & D & M).
  assert (S : forall y, y ∈ txs -> ready db' y /\ tx_fee db' y.2 = tx_fee db y.2).
  { intros y Hy. rewrite Forall_forall in Rs.
    apply (ready_steady sha3_256 dsa_verify y_slow_hash c genesisBlockHash n slot x.1 x.2 db db' y P F (Rs y Hy)).
    - intros E. apply Ix. rewrite E. apply list_elem_of_fmap. eauto.
    - intros k Hk Hx. apply (D k Hx). apply list_elem_of_bind. eauto.
    - intros a Ea Ex. unfold entered in Ex. destruct (slot =? 0); [inversion Ex|]. unfold tx_accounts in A. cbn [omap list_omap] in A.
      destruct (registration x.2) as [b|]; [|inversion Ex]. apply list_elem_of_singleton in Ex as ->.
      apply NoDup_cons in A as [Na _]. apply Na, (account_of y txs b Hy Ea). }
  split.
  - constructor; try assumption; [apply Forall_forall; intros y Hy; apply S, Hy|].
    unfold tx_accounts in A. cbn [omap list_omap] in A. destruct (registration x.2); [now apply NoDup_cons in A|exact A].
  - unfold tx_fees. f_equal. apply map_ext_in. intros y Hy. apply list_elem_of_In in Hy. now rewrite (proj2 (S y Hy)).
Qed.

Lemma w64_add a b : w64 (w64 a + b) = w64 (a + b).
Proof. unfold wrap. apply Zplus_mod_idemp_l. Qed.

Lemma connect_txs_accepts txs : forall n slot count regs size fees db s seen,
  compatible db txs -> caches_ok seen s -> n = getChainHeight db -> in_w 64 size -> in_w 64 fees ->
  (forall a, a ∈ tx_accounts txs -> a ∉ regs) ->
  count + tx_frees txs <= freeRegPerBlock c -> 0 <= slot -> slot + Z.of_nat (length txs) < 2 ^ 16 ->
  (forall k, slot < k -> tx_entries db !! (n, k) = None) ->
  (exists db' s', connect_txs full false n txs slot count regs size fees db s = (Ok (Some (db', w64 (size + tx_sizes txs), w64 (fees + tx_fees db txs))), s') /\
    block_meta db' = block_meta db) \/
  proof_collision (map snd txs ++ seen).
Proof.
  induction txs as [|[h t] txs IH]; intros n slot count regs size fees db s seen K Hc En Ws Wf Dr Hf H0 Hl Hs.
  { left. exists db, s. cbn. rewrite !Z.add_0_r, !wrap_small by assumption. auto. }
  pose proof (cp_ready _ _ K) as R. inversion_clear R as [|? ? Rx _]. destruct (ready_fee _ _ _ _ _ _ _ Rx) as [fee Efee]. cbn [snd] in Efee.
  cbn [Blockchain.connect_txs]. unfold tx_frees in Hf. cbn [List.filter snd] in Hf. fold (is_free_reg t).
  assert (Hn : 0 <= Z.of_nat (length (List.filter (fun x : bytes * Transaction => is_free_reg x.2) txs))) by lia.
  rewrite (proj2 (andb_false_iff _ _)) by (destruct (is_free_reg t); [right; cbn [length] in Hf; apply Z.ltb_ge; lia|now left]).
  assert (Ha : match registration t with Some a => bool_decide (a ∈ regs) | None => false end = false).
  { destruct (registration t) as [a|] eqn:Ea; [|reflexivity]. apply bool_decide_eq_false. apply Dr, (account_of (h, t) _ a); [constructor|exact Ea]. }
  rewrite Ha, Efee.
  destruct (cached_plain sha3_256 cn_fast_hash dsa_verify y_slow_hash c genesisBlockHash sha3_length seen s db t n Hc (or_introl En)) as [Hc' Ev].
  destruct (checkTransactionInputs _ _ _ _ _ _ _ s t n) as [v s1] eqn:Et. cbn [fst snd] in Hc', Ev.
  destruct Ev as [Ev|C]; [|right; revert C; apply collision_incl; intros y [<-|Hy]; [now left|right; apply in_app_iff; now right]].
  destruct (rd_check _ _ _ _ _ _ _ Rx) as [z Ez]. cbn [snd] in Ez. rewrite Ez in Ev. subst v. cbn [is_some negb].
  cbn [length] in Hl. rewrite wrap_small by (unfold in_w; lia).
  destruct (ready_images _ _ _ _ _ _ _ Rx) as [Ni Ui].
  destruct (pushTransaction_succeeds sha3_256 full never_full db n (slot + 1) h t (rd_fresh _ _ _ _ _ _ _ Rx) Ni Ui) as [db1 Ep].
  { intros a Hin. unfold entered in Hin. destruct (slot + 1 =? 0); [inversion Hin|]. destruct (registration t) as [b|] eqn:Eb; [|inversion Hin].
    apply list_elem_of_singleton in Hin as ->. exact (ready_account _ _ _ _ _ _ _ b Rx Eb). }
  rewrite Ep. apply pushTransaction_ok in Ep.
  destruct (compatible_tail n (slot + 1) db db1 (h, t) txs K Ep (Hs (slot + 1) ltac:(lia))) as [K1 E1].
  specialize (IH n (slot + 1) (if is_free_reg t then count + 1 else count) (option_to_set (registration t) ∪ regs) (w64 (size + len (tx_blob t)))
    (w64 (fees + fee)) db1 s1 (seen ++ [t]) K1 Hc').
  destruct IH as [(db' & s' & E & M)|C].
  - rewrite (steady_height sha3_256 Ep). exact En.
  - apply wrap_range. lia.
  - apply wrap_range. lia.
  - intros a Hin. pose proof (cp_accounts _ _ K) as N. unfold tx_accounts in N, Dr. cbn [omap list_omap snd] in N, Dr.
    destruct (registration t) as [b|]; cbn; [|rewrite union_empty_l_L; apply Dr, Hin].
    apply NoDup_cons in N as [N _]. apply not_elem_of_union. split; [|apply Dr; now constructor]. intros X. apply elem_of_singleton in X as ->. exact (N Hin).
  - destruct (is_free_reg t); cbn [length] in Hf; unfold tx_frees; lia.
  - lia.
  - lia.
  - intros k Hk. rewrite (pe_entries _ _ _ _ _ _ _ Ep), lookup_insert_ne by (intros X; injection X; lia). apply Hs. lia.
  - left. exists db', s'. rewrite E, !w64_add, E1. split; [|rewrite M; apply Ep]. unfold tx_sizes, tx_fees, total. cbn [map fold_right snd]. rewrite Efee. cbn [default].
    unfold Datatypes.id. now rewrite !Z.add_assoc.
  - right. revert C. apply collision_incl. intros x Hx. rewrite !in_app_iff in Hx. cbn [map app snd In] in Hx |- *. rewrite in_app_iff. tauto.
Qed.

(** The coinbase, pushed first, leaves the transactions ready. *)
Lemma compatible_after_base n h t db db' txs : compatible db txs -> push_effect sha3_256 n 0 h t db db' -> images t = [] ->
  h ∉ txs.*1 -> tx_entries db !! (n, 0) = None -> compatible db' txs /\ tx_fees db' txs = tx_fees db txs.
Proof.
  intros [R I M A] P Ei Hn F.
  assert (S : forall y, y ∈ txs -> ready db' y /\ tx_fee db' y.2 = tx_fee db y.2).
  { intros y Hy. rewrite Forall_forall in R.
    apply (ready_steady sha3_256 dsa_verify y_slow_hash c genesisBlockHash n 0 h t db db' y P F (R y Hy)).
    - intros E. apply Hn. rewrite E. apply list_elem_of_fmap. eauto.
    - intros k _. rewrite Ei. inversion 1.
    - intros a _. inversion 1. }
  split; [constructor; try assumption; apply Forall_forall; intros y Hy; apply S, Hy|].
  unfold tx_fees. f_equal. apply map_ext_in. intros y Hy. apply list_elem_of_In in Hy. now rewrite (proj2 (S y Hy)).
Qed.

Lemma pushBlockEntry_succeeds db block hash : exists db', pushBlockEntry full db block hash = Ok db'.
Proof.
  unfold pushBlockEntry, putBlockMeta, putBlockData, putHashHeight, putTimestamp, putGeneratedTxCount.
  repeat (rewrite write_succeeds by exact never_full; cbn [bind]). eauto.
Qed.

Variable points : Checkpoints.points.

(** A block whose transactions are compatible, whose coinbase is new and pays what
    is due for exactly these transactions is connected. *)
Lemma connect_accepts db n b txs hash diff s seen reward emission :
  let base := baseTransaction b in
  let id := snd (getObjectHash cn_fast_hash tx_codec base) in
  let block := zip (transactionHashes b) txs in
  let size := w64 (len (tx_blob base) + tx_sizes block) in
  let fees := w64 (tx_fees db block) in
  wf_db n db -> compatible db block -> caches_ok seen s -> Checkpoints.is_in_checkpoint_zone points n = false ->
  images base = [] -> tx_indices db !! id = None -> id ∉ block.*1 -> in_w 64 (len (tx_blob base)) ->
  tx_frees block <= freeRegPerBlock c -> Z.of_nat (length block) < 2 ^ 16 -> checkCumulativeBlockSize c size n = true ->
  validate_miner_transaction c db b n size (m_alreadyGeneratedCoins (if 0 <? n then getBlockMeta_or_zero db (n - 1) else zero_meta)) fees = Some (reward, emission) ->
  (exists db2 entry s', connect sha3_256 cn_fast_hash dsa_verify y_slow_hash c genesisBlockHash points full db b txs hash diff s = (Ok (Some (db2, entry)), s')) \/
  proof_collision (map snd block ++ seen).
Proof.
  intros base id block size fees W K Hc Z Ei Hi Hn Wl Hf Hl Cs V.
  assert (En : getChainHeight db = n) by (apply getChainHeight_contiguous; apply W).
  destruct (pushTransaction_succeeds sha3_256 full never_full db n 0 id base Hi) as [db0 E0];
    [rewrite Ei; constructor|rewrite Ei; inversion 1|inversion 1|].
  assert (F : forall k, tx_entries db !! (n, k) = None).
  { intros k. destruct (tx_entries db !! (n, k)) as [e|] eqn:E; [|reflexivity]. pose proof (wd_entries n db W (n, k) ltac:(eauto)) as B. cbn in B. lia. }
  pose proof E0 as P0. apply pushTransaction_ok in P0.
  destruct (compatible_after_base n id base db db0 block K P0 Ei Hn (F 0)) as [K0 Ef].
  destruct (connect_txs_accepts block n 0 0 ∅ (len (tx_blob base)) 0 db0 s seen K0 Hc) as [(db1 & s1 & E1 & M1)|C]; [..|now right].
  - now rewrite (steady_height sha3_256 P0).
  - exact Wl.
  - easy.
  - intros a _. apply not_elem_of_empty.
  - exact Hf.
  - lia.
  - lia.
  - intros k Hk. rewrite (pe_entries _ _ _ _ _ _ _ P0), lookup_insert_ne by (intros X; injection X; lia). apply F.
  - left. unfold connect. cbv zeta. rewrite En. fold base id. rewrite E0, Z. fold block. rewrite E1. rewrite Ef, Z.add_0_l. fold size fees. rewrite Cs. cbn [negb].
    assert (V1 : validate_miner_transaction c db1 b n size (m_alreadyGeneratedCoins (if 0 <? n then getBlockMeta_or_zero db (n - 1) else zero_meta)) fees = Some (reward, emission)).
    { rewrite <- V. unfold validate_miner_transaction, get_last_n_blocks_sizes, getBackwardBlocksSize, getBlockMetaRange, getBlockMeta, getChainHeight.
      now rewrite M1, (pe_meta _ _ _ _ _ _ _ P0). }
    rewrite V1. destruct (pushBlockEntry_succeeds db1 (mkBlockEntry b n size
      (w64 (diff + m_cumulativeDifficulty (if 0 <? n then getBlockMeta_or_zero db (n - 1) else zero_meta)))
      (w64 (m_alreadyGeneratedCoins (if 0 <? n then getBlockMeta_or_zero db (n - 1) else zero_meta) + emission))
      (map (fun tx => mkTransactionEntry tx (repeat 0 (length (outputs (prefix tx))))) (base :: txs))) hash) as [db2 E2].
    rewrite E2. eauto.
Qed.
End Connect.

(** ** [pushBlock] without failures *)

(** No call of the database fails. *)
Definition undisturbed (env : Env) : Prop :=
  (forall db, mdb_full env db = false) /\ grow_fails env = None /\ begin_fails env = None /\ begin_nested_fails env = None /\
  commit_nested_fails env = None /\ commit_fails env = None /\ sync_fails env = None.

Section Push_block.
Variable sha3_256 : bytes -> bytes.
Variable cn_fast_hash : bytes -> bytes.
Variable shake256 : bytes -> nat -> bytes.
Variable dsa_verify : bytes -> bytes -> bytes -> bool.
Variable yespower_discrete : bytes -> bytes -> bytes -> option bytes.
Variable y_slow_hash : bytes -> bytes -> option bytes.
Variable c : Currency.
Variable genesisBlockHash : bytes.
Variable points : Checkpoints.points.

Lemma commit_succeeds env force n db : undisturbed env -> m_db n = mkStore (committed (m_db n)) (Some db) None ->
  exists n', commitBatchOrBlock env force n = (None, n') /\ current (m_db n') = db.
Proof.
  intros (_ & _ & _ & _ & _ & Ec & Es) E. unfold commitBatchOrBlock. cbn [m_db set_batch m_batchCount].
  assert (Cur : current (m_db n) = db) by (rewrite E; reflexivity).
  destruct (force || _ || _); [|eexists; split; [reflexivity|exact Cur]]. rewrite Ec. cbn [m_batchFastMode set_db set_batch].
  assert (Com : current (commitTxn (m_db n)) = db) by (rewrite E; reflexivity).
  destruct (m_batchFastMode n); [rewrite Es; destruct (negb _)|]; eexists; (split; [reflexivity|exact Com]).
Qed.

Lemma pushBlock_succeeds env n parent b txs hash proof diff db2 entry s' : undisturbed env -> node_ok n ->
  check_header sha3_256 cn_fast_hash shake256 dsa_verify yespower_discrete c points env (current (m_db n)) (m_alternative_chains n) parent b hash proof = Ok diff ->
  connect sha3_256 cn_fast_hash dsa_verify y_slow_hash c genesisBlockHash points (mdb_full env) (current (m_db n)) b txs hash diff (m_freeRegProofs n) =
    (Ok (Some (db2, entry)), s') ->
  exists n', pushBlock sha3_256 cn_fast_hash shake256 dsa_verify yespower_discrete y_slow_hash c genesisBlockHash points env n parent b txs hash proof = (Added, n') /\
    current (m_db n') = db2.
Proof.
  intros U Ok0 Eh Ec. pose proof U as (_ & Eg & Eb & En & Em & _ & _). unfold pushBlock. rewrite Eh.
  destruct (beginBatchIfNeeded env n) as [r m] eqn:Ebb. pose proof Ebb as Sp. apply begin_spec in Sp as (Hs & Hc & Sp); [|exact Ok0].
  assert (r = None /\ m_freeRegProofs m = m_freeRegProofs n) as [-> Ep].
  { unfold beginBatchIfNeeded in Ebb. rewrite Eg, Eb in Ebb. destruct (m_batchCount n =? 0); injection Ebb as <- <-; auto. }
  destruct Sp as (Hw & Hk & Hp). rewrite Hc, En. destruct Ok0 as (H0 & Hp0 & Hw0).
  replace (if 0 <? m_batchCount n then None else None) with (@None failure) by (destruct (0 <? m_batchCount n); reflexivity). rewrite Em.
  set (m1 := if 0 <? m_batchCount n then set_db m (beginNestedWriteTxn (m_db m)) else m).
  assert (M1 : writeTxn (m_db m1) = Some (current (m_db n)) /\ m_freeRegProofs m1 = m_freeRegProofs n /\ parentTxn (m_db m1) = (if 0 <? m_batchCount n then Some (current (m_db n)) else None)).
  { subst m1. destruct (0 <? m_batchCount n); cbn; rewrite ?Hw, ?Hp; auto. }
  clearbody m1. destruct M1 as (W1 & F1 & P1).
  assert (Cur : current (m_db m1) = current (m_db n)) by (unfold current at 1; now rewrite W1). rewrite Cur, F1, Ec. cbn [m_db set_proofs].
  set (m2 := if 0 <? m_batchCount n then set_db (set_db (set_proofs m1 s') (update (m_db m1) db2)) _ else _).
  assert (M2 : m_db m2 = mkStore (committed (m_db m2)) (Some db2) None).
  { subst m2. destruct (0 <? m_batchCount n); cbn; unfold update, commitNestedWriteTxn; cbn; rewrite ?P1; reflexivity. }
  replace (if 0 <? m_batchCount n then None else None) with (@None failure) by (destruct (0 <? m_batchCount n); reflexivity).
  destruct (commit_succeeds env (getChainHeight (current (m_db n)) =? 0) m2 db2 U M2) as (m3 & -> & E3).
  eexists. split; [reflexivity|exact E3].
Qed.

(** ** The header of a mined template *)

Variable parent_of : Block -> ParentBlock.

Lemma template_time n db local now b : wf_db n db -> 0 < n < 2 ^ 32 -> 0 < timestampCheckWindow_v1 c < 2 ^ 32 ->
  timestamp (header b) = template_timestamp c db local -> template_timestamp c db local <= w64 (now + blockFutureTimeLimit_v1 c) ->
  check_block_timestamp_main c db now b = true.
Proof.
  intros W Hn Hw Et Hf. assert (En : getChainHeight db = n) by (apply getChainHeight_contiguous; apply W).
  unfold check_block_timestamp_main. rewrite Et, (proj2 (Z.ltb_ge _ _)) by exact Hf. rewrite En.
  set (w := timestampCheckWindow_v1 c) in *. rewrite (wrap_small 32 w), (wrap_small 32 (n - 1)) by (unfold in_w; lia).
  set (from := if w <? n then n - w else 0).
  assert (Hr : 0 <= from <= n - 1) by (subst from; destruct (Z.ltb_spec w n); lia).
  unfold check_block_timestamp. fold w. rewrite (meta_range n db from (n - 1) (wd_heights n db W) Hr ltac:(lia)), !length_map, length_seqZ.
  destruct (Z.ltb_spec (Z.of_nat (Z.to_nat (n - 1 - from + 1))) w) as [L|L]; [reflexivity|].
  assert (Ef : from = n - w) by (subst from; destruct (Z.ltb_spec w n); lia). rewrite Et.
  unfold template_timestamp. rewrite En. fold w. rewrite (proj2 (Z.leb_le w n)) by lia. rewrite (wrap_small 32 w) by (unfold in_w; lia). rewrite <- Ef.
  replace (map m_timestamp (map (getBlockMeta_or_zero db) (seqZ from (n - 1 - from + 1)))) with
    (map (fun i => getBlockTimestamp db (from + Z.of_nat i)) (seq 0 (Z.to_nat (n - from)))).
  2: { unfold seqZ. rewrite !List.map_map. replace (n - 1 - from + 1) with (n - from) by lia.
       apply map_ext. intros i. unfold getBlockTimestamp. do 2 f_equal. lia. }
  set (m := medianValue _). destruct (Z.ltb_spec (Z.max local (if 0 <? n then getBlockTimestamp db (n - 1) else 0)) m);
    apply negb_true_iff, Z.ltb_ge; lia.
Qed.

End Push_block.

(** ** What a template selects *)

Section Selection.
Variable sha3_256 : bytes -> bytes.
Variable cn_fast_hash : bytes -> bytes.
Variable dsa_verify : bytes -> bytes -> bytes -> bool.
Variable y_slow_hash : bytes -> bytes -> option bytes.
Variable c : Currency.
Variable genesisBlockHash : bytes.
Variable points : Checkpoints.points.
Hypothesis sha3_length : forall x, length (sha3_256 x) = 32%nat.
Variable db : Db.
Variable proofs : ProofCaches.
Variable limit : Z.
Variable seen : list Transaction.
Hypothesis caches : caches_ok sha3_256 cn_fast_hash y_slow_hash c seen proofs.

Abbreviation v := (chain_validator sha3_256 cn_fast_hash dsa_verify y_slow_hash c genesisBlockHash points db proofs limit).
Abbreviation plain t := (plain_check sha3_256 dsa_verify y_slow_hash c genesisBlockHash db t).
Abbreviation proof_collision := (proof_collision sha3_256 cn_fast_hash).

(** A pool whose records agree with the chain: what a transaction that is valid now
    was recorded with is what it is worth, and those remembered as validated are
    valid. *)
Record up_to_date (p : Pool) : Prop := {
  up_sound : pool_sound sha3_256 cn_fast_hash c p;
  up_size : Forall (fun d => blobSize d = len (tx_blob (tx d))) (m_transactions p);
  up_fee : Forall (fun d => is_Some (plain (tx d)) -> tx_fee db (tx d) = Some (fee d)) (m_transactions p);
  up_valid : Forall (fun d => id d ∈ m_validated_transactions p -> is_Some (plain (tx d))) (m_transactions p);
  up_proofs : ~ proof_collision (map tx (m_transactions p) ++ seen)
}.

Lemma ready_plain t u f u' f' : ~ proof_collision (t :: seen) -> is_transaction_ready_to_go v t u f = (true, u', f') -> is_Some (plain t).
Proof.
  intros NC H. unfold is_transaction_ready_to_go in H.
  destruct (v_checkTransactionInputsCached v t u f) as [[ok x] y] eqn:E. injection H as H _ _. apply andb_true_iff in H as [-> _].
  cbn [v_checkTransactionInputsCached chain_validator] in E. unfold checkTransactionInputs_cached in E.
  assert (T : exists b, check_at_tip sha3_256 cn_fast_hash dsa_verify y_slow_hash c genesisBlockHash db proofs t u = (true, b)).
  { destruct (bi_empty u); [destruct (_ && _ && _); [discriminate|]|destruct (_ <=? _); [discriminate|]; destruct (_ && _); [discriminate|]];
      destruct (check_at_tip _ _ _ _ _ _ _ _ t u) as [k b]; injection E as -> _ _; eauto. }
  destruct T as [b T]. unfold check_at_tip in T.
  destruct (cached_plain sha3_256 cn_fast_hash dsa_verify y_slow_hash c genesisBlockHash sha3_length seen proofs db t AT_TIP caches (or_intror eq_refl)) as [_ [P|C]];
    [|contradiction]. rewrite P in T. destruct (plain t); [eauto|discriminate].
Qed.

(** The loop of [fill_block_template] after the entries [done]. *)
Record filling (done chosen : list TransactionDetails) (f : Filling) : Prop := {
  fi_sub : chosen `sublist_of` done;
  fi_hashes : t_txHashes (f_template f) = map id chosen;
  fi_images : t_keyImages (f_template f) = list_to_set (all_images sha3_256 chosen);
  fi_accounts : t_registrations (f_template f) = list_to_set (all_registrations sha3_256 chosen);
  fi_count : t_freeRegCount (f_template f) = free_count chosen;
  fi_nodup : NoDup (all_images sha3_256 chosen);
  fi_nodup_accounts : NoDup (all_registrations sha3_256 chosen);
  fi_free : free_count chosen <= parameters.FREE_REG_PER_BLOCK;
  fi_size : f_total_size f = w64 (total_size chosen);
  fi_fee : f_fee f = w64 (total_fee chosen);
  fi_valid : Forall (fun d => is_Some (plain (tx d))) chosen
}.

Lemma filling_take done chosen f d bt validated : filling done chosen f -> NoDup (images sha3_256 (tx d)) -> is_Some (plain (tx d)) ->
  addTransaction sha3_256 (f_template f) (id d) (tx d) = Some bt ->
  filling (done ++ [d]) (chosen ++ [d]) (mkFilling bt (w64 (f_total_size f + blobSize d)) (w64 (f_fee f + fee d)) validated).
Proof.
  intros [Su Hh Im Ac Co Nd Na Fr Sz Fe Va] N P A. unfold addTransaction in A. destruct (canAdd _ _ _) eqn:C; [|discriminate]. injection A as <-.
  apply canAdd_spec in C as (C1 & C2 & C3). rewrite Im in C1. rewrite Ac in C2. rewrite Co in C3.
  constructor; cbn [f_template f_total_size f_fee f_validated t_txHashes t_keyImages t_registrations t_freeRegCount].
  - apply sublist_app; [exact Su|reflexivity].
  - rewrite Hh, map_app. reflexivity.
  - rewrite all_images_snoc, Im, list_to_set_app_L. apply union_comm_L.
  - rewrite all_registrations_snoc, Ac, list_to_set_app_L. apply union_comm_L.
  - rewrite free_count_snoc, Co. reflexivity.
  - rewrite all_images_snoc. apply NoDup_app. split; [exact Nd|]. split; [|exact N]. intros k H1 H2. apply (C1 k H2). now apply elem_of_list_to_set.
  - rewrite all_registrations_snoc. apply NoDup_app. split; [exact Na|]. destruct (registration sha3_256 (tx d)) as [a|]; cbn; [|split; [set_solver|constructor]].
    split; [|apply NoDup_singleton]. intros k H1 H2. apply list_elem_of_singleton in H2 as ->. apply (C2 a eq_refl). now apply elem_of_list_to_set.
  - rewrite free_count_snoc. destruct (is_free_reg (tx d)); [specialize (C3 eq_refl); lia|assumption].
  - rewrite total_size_snoc, Sz. apply w64_add.
  - rewrite total_fee_snoc, Fe. apply w64_add.
  - apply Forall_app. split; [exact Va|now constructor].
Qed.

Lemma filling_skip done chosen f d validated : filling done chosen f ->
  filling (done ++ [d]) chosen (mkFilling (f_template f) (f_total_size f) (f_fee f) validated).
Proof. intros []. constructor; cbn [f_template f_total_size f_fee]; try assumption. now apply sublist_inserts_r. Qed.

Definition fresh_entry (d : TransactionDetails) : Prop := admitted sha3_256 (tx d) /\ ~ proof_collision (tx d :: seen).

Lemma plain_images d : fresh_entry d -> is_Some (plain (tx d)) -> NoDup (images sha3_256 (tx d)).
Proof.
  intros [A _] P. destruct P as [z Hz]. destruct (admitted_kind sha3_256 (tx d) A (plain_version _ _ _ _ _ _ _ _ Hz)) as [(T & W & S)|(_ & _ & E & _)].
  - unfold plain_check in Hz. rewrite T in Hz. destruct (negb (version _ =? _)); [discriminate|]. destruct (_ && isPqAccountAlreadyRegistered _ _ _); [discriminate|].
    destruct (negb _); [discriminate|]. destruct (checkPqInputs_ok _ _ _ _ _ _ _ W S Hz) as (ks & fee & [Hi _ N _ _ _ _]).
    now rewrite images_of_inputs, (pq_inputs_map ks (tx d) Hi).
  - unfold images. rewrite E. constructor.
Qed.

Lemma fill_one_filling median max done chosen f d : filling done chosen f -> fresh_entry d -> (id d ∈ f_validated f -> is_Some (plain (tx d))) ->
  let '(d', f') := fill_one sha3_256 c v median max d f in
  recheck d d' /\ (exists chosen', filling (done ++ [d]) chosen' f') /\
  (forall i, i ∈ f_validated f' -> i ∈ f_validated f \/ (i = id d /\ is_Some (plain (tx d)))).
Proof.
  intros F E V. unfold fill_one.
  assert (Skip : forall w, exists chosen', filling (done ++ [d]) chosen' (mkFilling (f_template f) (f_total_size f) (f_fee f) w)) by (intros w; exists chosen; now apply filling_skip).
  assert (Keep : exists chosen', filling (done ++ [d]) chosen' f) by (destruct f; apply Skip).
  destruct (wrong_era _ _ _); [split; [apply recheck_refl|auto]|]. destruct (_ <? _); [split; [apply recheck_refl|auto]|].
  destruct (negb (v_check_tx_fee _ _)); [split; [apply recheck_refl|auto]|]. destruct (isAccountAlreadyRegisteredOnChain _ _ _); [split; [apply recheck_refl|auto]|].
  case_bool_decide as Hv.
  - destruct (addTransaction _ _ _ _) as [bt|] eqn:A; cbn [f_validated]; (split; [destruct d; reflexivity|split; [|auto]]); [|apply Skip].
    exists (chosen ++ [d]). apply filling_take; auto. now apply plain_images, V.
  - destruct (is_transaction_ready_to_go v (tx d) (maxUsedBlock d) (lastFailedBlock d)) as [[ok u] w] eqn:R.
    destruct ok; cbn [f_validated].
    + apply ready_plain in R; [|apply E]. destruct (addTransaction _ _ _ _) as [bt|] eqn:A; cbn [f_validated];
        (split; [destruct d; reflexivity|split; [|set_solver]]); [|apply Skip].
      exists (chosen ++ [d]). apply filling_take; auto. now apply plain_images.
    + split; [destruct d; reflexivity|]. split; [apply Skip|auto].
Qed.

Lemma fill_loop_filling median max l : forall done chosen f, filling done chosen f -> Forall fresh_entry l ->
  Forall (fun d => id d ∈ f_validated f -> is_Some (plain (tx d))) l -> NoDup (map id l) ->
  let '(l', f') := fill_loop sha3_256 c v median max l f in
  Forall2 recheck l l' /\ (exists chosen', filling (done ++ l) chosen' f') /\
  (forall i, i ∈ f_validated f' -> i ∈ f_validated f \/ exists d, d ∈ l /\ i = id d /\ is_Some (plain (tx d))).
Proof.
  induction l as [|d l IH]; intros done chosen f F E V N; cbn [fill_loop].
  - split; [constructor|]. rewrite app_nil_r. split; [eauto|auto].
  - inversion_clear E as [|? ? Ed El]. inversion_clear V as [|? ? Vd Vl]. cbn [map] in N. apply NoDup_cons in N as [Nd N].
    pose proof (fill_one_filling median max done chosen f d F Ed Vd) as H. destruct (fill_one _ _ _ _ _ d f) as [d' f'].
    destruct H as (Rd & [ch F'] & V'). specialize (IH (done ++ [d]) ch f' F' El).
    destruct (fill_loop _ _ _ _ _ l f') as [l' f'']. rewrite <- app_assoc in IH. destruct IH as (Rl & X & V'').
    + apply List.Forall_forall. intros e He Hin. apply V' in Hin as [Hin|[Hid _]].
      * rewrite List.Forall_forall in Vl. now apply Vl.
      * exfalso. apply Nd. rewrite <- Hid. apply list_elem_of_In, in_map, He.
    + exact N.
    + split; [now constructor|]. split; [exact X|]. intros i Hi. apply V'' in Hi as [Hi|(e & He & R)]; [|right; exists e; set_solver].
      apply V' in Hi as [Hi|[-> P]]; [now left|right; exists d; set_solver].
Qed.

Definition entry (d : TransactionDetails) : bytes * Transaction := (id d, tx d).

Lemma unique_entry p d e : pool_ok sha3_256 p -> d ∈ m_transactions p -> e ∈ m_transactions p -> id d = id e -> d = e.
Proof.
  intros K Hd He E. apply list_elem_of_lookup in Hd as [n Hn], He as [m Hm].
  assert (n = m); [|congruence]. apply (NoDup_lookup _ n m (id d) (pk_ids _ _ K)).
  - change (map id (m_transactions p)) with (id <$> m_transactions p). now rewrite list_lookup_fmap, Hn.
  - change (map id (m_transactions p)) with (id <$> m_transactions p). now rewrite list_lookup_fmap, Hm, E.
Qed.

Lemma up_fresh p : up_to_date p -> Forall fresh_entry (m_transactions p).
Proof.
  intros [[_ P] _ _ _ NC]. apply List.Forall_forall. intros d Hd. rewrite List.Forall_forall in P. split; [apply P, Hd|].
  intros C. apply NC. revert C. apply collision_incl. intros x [<-|Hx]; apply in_app_iff; [left; now apply in_map|now right].
Qed.

(** Rewriting the check records and remembering valid transactions keeps the pool
    up to date. *)
Lemma up_to_date_recheck p l V : up_to_date p -> Forall2 recheck (m_transactions p) l ->
  (forall i, i ∈ V -> i ∈ m_validated_transactions p \/ exists d, d ∈ m_transactions p /\ i = id d /\ is_Some (plain (tx d))) ->
  up_to_date (set_validated (set_transactions p l) V).
Proof.
  intros U R HV. pose proof U as [[G P] Sz Fe Va NC]. pose proof (up_fresh p U) as Fr.
  assert (Back : forall Q : TransactionDetails -> Prop, (forall d e, recheck d e -> Q d -> Q e) -> Forall Q (m_transactions p) -> Forall Q l).
  { intros Q HQ F. apply List.Forall_forall. intros e He. apply list_elem_of_In, (recheck_elem _ _ R) in He as (d & Hd & X).
    apply (HQ d e X). rewrite List.Forall_forall in F. now apply F, list_elem_of_In. }
  constructor; cbn [m_transactions m_validated_transactions set_validated set_transactions].
  - split; [|apply (Back (pooled sha3_256 cn_fast_hash)); [intros d e ->; auto|exact P]].
    apply recheck_good; [exact G|exact R|]. intros i Hi. apply HV in Hi as [Hi|(d & Hd & -> & V0)].
    + now apply G in Hi.
    + exists d. split; [exact Hd|]. split; [reflexivity|]. apply nodup_fully, plain_images; [|exact V0].
      rewrite List.Forall_forall in Fr. now apply Fr, list_elem_of_In.
  - apply (Back (fun d => blobSize d = len (tx_blob (tx d)))); [intros d e ->; auto|exact Sz].
  - apply (Back (fun d => is_Some (plain (tx d)) -> tx_fee db (tx d) = Some (fee d))); [intros d e ->; auto|exact Fe].
  - apply List.Forall_forall. intros e He Hin. apply list_elem_of_In, (recheck_elem _ _ R) in He as (d & Hd & X).
    rewrite X in Hin |- *. cbn [id tx set_check] in *. apply HV in Hin as [Hin|(d' & Hd' & E & V0)].
    + rewrite List.Forall_forall in Va. apply Va; [now apply list_elem_of_In|exact Hin].
    + now rewrite (unique_entry p d d' (proj1 G) Hd Hd' E).
  - rewrite <- (recheck_map _ _ R tx); [exact NC|]. intros d e ->. reflexivity.
Qed.

(** An entry that can go into a block as it is recorded. *)
Definition worth (d : TransactionDetails) : Prop :=
  pooled sha3_256 cn_fast_hash d /\ is_Some (plain (tx d)) /\ blobSize d = len (tx_blob (tx d)) /\ tx_fee db (tx d) = Some (fee d).

(** What [fill_block_template] hands out. *)
Record selection (p : Pool) (hashes : list bytes) (size fees : Z) (chosen : list TransactionDetails) : Prop := {
  se_sub : map entry chosen `sublist_of` map entry (m_transactions p);
  se_hashes : hashes = map id chosen;
  se_images : NoDup (all_images sha3_256 chosen);
  se_accounts : NoDup (all_registrations sha3_256 chosen);
  se_free : free_count chosen <= parameters.FREE_REG_PER_BLOCK;
  se_size : size = w64 (total_size chosen);
  se_fee : fees = w64 (total_fee chosen);
  se_worth : Forall worth chosen
}.

Lemma fill_selection median lim p : up_to_date p ->
  let '(hashes, size, fees, q) := fill_block_template sha3_256 c v median lim p in
  up_to_date q /\ map entry (m_transactions q) = map entry (m_transactions p) /\ exists chosen, selection p hashes size fees chosen.
Proof.
  intros U. unfold fill_block_template. cbv zeta. set (max := w64 (Z.min _ lim - _)).
  pose proof (fill_loop_filling median max (m_transactions p) [] [] (mkFilling empty_template 0 0 (m_validated_transactions p))) as H.
  destruct (fill_loop _ _ _ _ _ _ _) as [l f]. destruct H as (R & (chosen & [Su Hh _ _ _ Nd Na Fr Sz Fe Va]) & V).
  - constructor; cbn; try reflexivity; try constructor. vm_compute. discriminate.
  - now apply up_fresh.
  - apply U.
  - apply U.
  - split; [now apply up_to_date_recheck|]. split; [symmetry; apply (recheck_map _ _ R); intros d e ->; reflexivity|].
    exists chosen. constructor; try assumption; [now apply sublist_map|]. destruct U as [[_ P] Us Uf _ _].
    rewrite !List.Forall_forall in *. intros d Hd. assert (Hp : In d (m_transactions p)) by (apply list_elem_of_In; apply list_elem_of_In in Hd; exact (elem_of_sublist _ _ _ Hd Su)).
    split; [now apply P|]. split; [now apply Va|]. split; [now apply Us|]. apply Uf; [exact Hp|now apply Va].
Qed.

Lemma stabilize_fixed tries construct txs_size : forall size base size',
  stabilize tries construct txs_size size = Some (base, size') -> construct size' = Some base /\ size' = w64 (txs_size + getObjectBinarySize base).
Proof.
  induction tries as [|k IH]; intros size base size' H; cbn [stabilize] in H; [discriminate|].
  destruct (construct size) as [t|] eqn:E; [|discriminate].
  destruct (Z.eqb_spec (w64 (txs_size + getObjectBinarySize t)) size) as [X|_]; [injection H as <- <-; auto|now apply IH in H].
Qed.

(** A template that comes out of the loops: a selection of the pool, and a coinbase
    for the exact size of the block. *)
Lemma select_selection median maxc construct tries : forall lim p r q, up_to_date p ->
  select sha3_256 c tries v median maxc construct lim p = (r, q) ->
  up_to_date q /\ map entry (m_transactions q) = map entry (m_transactions p) /\
  match r with
  | None => True
  | Some (hashes, base) => exists chosen txs_size fees size, selection p hashes txs_size fees chosen /\ construct size fees = Some base /\
      size = w64 (txs_size + getObjectBinarySize base) /\ size <= maxc
  end.
Proof.
  induction tries as [|k IH]; intros lim p r q U H; cbn [select] in H; [injection H as <- <-; auto|].
  pose proof (fill_selection median lim p U) as F. destruct (fill_block_template _ _ _ _ _ _) as [[[hashes size] fees] p1]. destruct F as (U1 & E1 & chosen & S).
  destruct (construct size fees) as [base0|]; [|injection H as <- <-; auto].
  destruct (stabilize _ _ _ _) as [[base total]|] eqn:St; [|injection H as <- <-; auto].
  apply stabilize_fixed in St as [Ec Es]. destruct (Z.leb_spec total maxc) as [L|L]; [injection H as <- <-; eauto 10|].
  destruct (_ <=? _); [injection H as <- <-; auto|]. apply IH in H as (Uq & Eq & X); [|exact U1]. split; [exact Uq|]. split; [congruence|].
  destruct r as [[h b]|]; [|exact I]. destruct X as (ch & ts & fe & sz & S' & R). exists ch, ts, fe, sz. split; [|exact R].
  destruct S'. constructor; try assumption. now rewrite <- E1.
Qed.
End Selection.

(** ** Loading the selection back from the pool *)

Section Load.
Variable sha3_256 : bytes -> bytes.
Variable cn_fast_hash : bytes -> bytes.
Variable c : Currency.

Lemma take_exact p h t : pool_sound sha3_256 cn_fast_hash c p -> (h, t) ∈ map entry (m_transactions p) ->
  exists sz fe q, take_tx sha3_256 cn_fast_hash h p = (Some (t, sz, fe), q) /\ pool_sound sha3_256 cn_fast_hash c q /\
    forall x, x ∈ map entry (m_transactions p) -> x.1 <> h -> x ∈ map entry (m_transactions q).
Proof.
  intros P Hin. apply elem_of_map in Hin as (d & Ed & Hd). injection Ed as -> ->.
  unfold take_tx. destruct (find_tx (id d) (m_transactions p)) as [e|] eqn:F.
  2: { exfalso. pose proof (find_tx_none (id d) (m_transactions p)) as N. apply N in F. apply F. apply list_elem_of_In, in_map, list_elem_of_In, Hd. }
  pose proof F as F'. apply find_tx_spec in F' as [He Hi]. assert (e = d) as -> by (exact (unique_entry sha3_256 p e d (proj1 (proj1 P)) He Hd Hi)).
  eexists _, _, _. split; [reflexivity|].
  assert (T : take_tx sha3_256 cn_fast_hash (id d) p = (Some (tx d, blobSize d, fee d), snd (take_tx sha3_256 cn_fast_hash (id d) p))) by (unfold take_tx; rewrite F; reflexivity).
  pose proof T as T'. apply (take_one sha3_256 cn_fast_hash (fun _ _ _ => true) (fun _ _ => None) c []) in T' as (Q & _ & _ & _); [|exact P]. unfold take_tx in Q. rewrite F in Q. split; [exact Q|].
  destruct (pool_remove sha3_256 cn_fast_hash d p (proj1 (proj1 P)) Hd) as [_ E].
  destruct (erase_tx_perm d (m_transactions p) Hd (pk_ids _ _ (proj1 (proj1 P)))) as [Pm _]. rewrite <- E in Pm.
  intros x Hx Hn. apply elem_of_map in Hx as (y & -> & Hy). rewrite Pm in Hy. apply elem_of_cons in Hy as [->|Hy]; [now destruct Hn|].
  apply elem_of_map. exists y. split; [reflexivity|exact Hy].
Qed.

Lemma load_loop_exact v now hs : forall txs taken p, pool_sound sha3_256 cn_fast_hash c p -> NoDup hs ->
  Forall2 (fun h t => (h, t) ∈ map entry (m_transactions p)) hs txs ->
  exists q, load_loop sha3_256 cn_fast_hash c v now hs taken p = Ok (Some (taken ++ txs), q).
Proof.
  induction hs as [|h hs IH]; intros txs taken p P N F; inversion F as [|? t ? rest Hx Fs]; subst; cbn [load_loop]; [rewrite app_nil_r; eauto|].
  apply NoDup_cons in N as [Nh N]. destruct (take_exact p h t P Hx) as (sz & fe & q & -> & Q & K).
  destruct (IH rest (taken ++ [t]) q Q N) as [q' E].
  - clear -Fs K Nh. induction Fs as [|h' t' hs txs Hx Fs IH]; constructor.
    + apply K; [exact Hx|]. cbn. intros ->. apply Nh. constructor.
    + apply IH. intros H. apply Nh. now constructor.
  - exists q'. rewrite E, <- app_assoc. reflexivity.
Qed.
End Load.

(** ** The block a worker finds *)

Section Mined.
Variable sha3_256 : bytes -> bytes.
Variable cn_fast_hash : bytes -> bytes.
Variable shake256 : bytes -> nat -> bytes.
Variable dsa_sign : bytes -> bytes -> bytes.
Variable dsa_verify : bytes -> bytes -> bytes -> bool.
Variable yespower_discrete : bytes -> bytes -> bytes -> option bytes.
Variable y_slow_hash : bytes -> bytes -> option bytes.
Variable c : Currency.
Variable genesisBlockHash : bytes.
Variable points : Checkpoints.points.
Variable parent_of : Block -> ParentBlock.
Variable world : nat -> World.
Variable m : Mine.

Abbreviation get_block_template_pq := (get_block_template_pq sha3_256 cn_fast_hash dsa_verify y_slow_hash c genesisBlockHash points).
Abbreviation addNewBlock :=
  (addNewBlock sha3_256 cn_fast_hash shake256 dsa_verify yespower_discrete y_slow_hash c genesisBlockHash points parent_of world).
Abbreviation worker := (worker cn_fast_hash shake256 dsa_sign yespower_discrete).
Abbreviation up_to_date := (up_to_date sha3_256 cn_fast_hash dsa_verify y_slow_hash c genesisBlockHash).
Abbreviation selection := (selection sha3_256 cn_fast_hash dsa_verify y_slow_hash c genesisBlockHash).
Abbreviation on := (on sha3_256 cn_fast_hash dsa_verify y_slow_hash c genesisBlockHash points).

Definition sealed (b : Block) (nonce : Z) (sig : bytes) : Block :=
  mkBlock (mkBlockHeader (majorVersion (header b)) (minorVersion (header b)) nonce (timestamp (header b)) (previousBlockHash (header b)))
    (baseTransaction b) sig (transactionHashes b).

Lemma worker_found tries b diff threads found : forall nonce, worker tries m b diff nonce threads = Some found ->
  exists k blob sig pow, found = sealed b k sig /\ get_block_hashing_blob cn_fast_hash (sealed b k (signature b)) = Some blob /\
    discrete_power_prove shake256 dsa_sign yespower_discrete blob (m_pq_spend_sk m) = (sig, Some pow) /\ Difficulty.check_hash pow diff = true.
Proof.
  induction tries as [|n IH]; intros nonce H; cbn [Mining.worker] in H; [discriminate|]. unfold try_nonce in H.
  fold (sealed b nonce (signature b)) in H. destruct (get_block_hashing_blob _ _) as [blob|] eqn:E; [|discriminate].
  destruct (discrete_power_prove _ _ _ _ _) as [sig [pow|]] eqn:P; [|discriminate].
  destruct (Difficulty.check_hash pow diff) eqn:C; [|now apply IH in H].
  injection H as <-. exists nonce, blob, sig, pow. auto.
Qed.

(** What a template is made of. *)
Lemma template_made local nonce s b diff h s1 seen : (forall x, length (sha3_256 x) = 32%nat) ->
  caches_ok sha3_256 cn_fast_hash y_slow_hash c seen (m_freeRegProofs (k_node s)) -> up_to_date (db_of s) seen (k_pool s) ->
  get_block_template_pq (m_pq_spend_pub m) nonce local s = (Some (b, diff, h), s1) ->
  let db := db_of s in
  s1 = set_pool s (k_pool s1) /\ up_to_date db seen (k_pool s1) /\ map entry (m_transactions (k_pool s1)) = map entry (m_transactions (k_pool s)) /\
  diff = getDifficultyForNextBlock c db (alts s) (getTailId db) /\ diff <> 0 /\ h = getChainHeight db /\
  header b = mkBlockHeader BLOCK_MAJOR_VERSION_1 0 0 (template_timestamp c db local) (getTailId db) /\ signature b = [] /\
  exists chosen txs_size fees size, selection db (k_pool s) (transactionHashes b) txs_size fees chosen /\
    constructMinerTxPq sha3_256 c BLOCK_MAJOR_VERSION_1 h (m_current_block_cumul_sz_limit (k_node s) / 2) (getCoinsInCirculation db) size fees
      (m_pq_spend_pub m) nonce = Some (baseTransaction b) /\
    size = w64 (txs_size + len (tx_blob (baseTransaction b))) /\ size <= maxBlockCumulativeSize c h.
Proof.
  intros Hs K U H db. unfold Mining.get_block_template_pq in H. fold db in H.
  destruct (Z.eqb_spec (getDifficultyForNextBlock c db (alts s) (getTailId db)) 0) as [|Nz]; [discriminate|].
  destruct (select _ _ _ _ _ _ _ _ _) as [r p] eqn:E. injection H as H <-. destruct r as [[hashes base]|]; [|discriminate]. cbn [option_map fst snd] in H.
  injection H as <- <- <-. apply (select_selection sha3_256 cn_fast_hash dsa_verify y_slow_hash c genesisBlockHash points Hs db _ _ seen K) in E as (Up & Ep & chosen & ts & fe & sz & S & C & Es & L); [|exact U].
  cbn [header baseTransaction transactionHashes signature k_pool set_pool]. repeat (split; [first [reflexivity|assumption]|]). exists chosen, ts, fe, sz. auto.
Qed.

(** The coinbase the template carries is the one the block is judged by: both
    medians count from the full-reward zone. *)
Lemma construct_median db n size fees nonce base : getBlockMajorVersionForHeight c n = BLOCK_MAJOR_VERSION_1 ->
  let md := medianValue (get_last_n_blocks_sizes db (rewardBlocksWindow c)) in
  constructMinerTxPq sha3_256 c BLOCK_MAJOR_VERSION_1 n (Z.max (blockGrantedFullRewardZone c) md) (getCoinsInCirculation db) size fees
    (m_pq_spend_pub m) nonce = Some base ->
  constructMinerTxPq sha3_256 c (getBlockMajorVersionForHeight c n) n md (getCoinsInCirculation db) size fees (m_pq_spend_pub m) nonce = Some base.
Proof.
  intros -> md H. unfold constructMinerTxPq, getBlockReward, blockGrantedFullRewardZoneByBlockVersion in *.
  replace (Z.max (Z.max (blockGrantedFullRewardZone c) md) (blockGrantedFullRewardZone c)) with (Z.max md (blockGrantedFullRewardZone c)) in H by lia. exact H.
Qed.

Lemma selection_compatible db p hashes size fees chosen : selection db p hashes size fees chosen -> NoDup (map id (m_transactions p)) ->
  Forall (fun i => tx_indices db !! i = None) hashes ->
  compatible sha3_256 dsa_verify y_slow_hash c genesisBlockHash db (map entry chosen) /\
  tx_frees (map entry chosen) = free_count chosen /\ tx_sizes (map entry chosen) = total_size chosen /\ tx_fees db (map entry chosen) = total_fee chosen.
Proof.
  intros [Su Eh Im Ac Fr Sz Fe Wo] Nd F.
  assert (E1 : (map entry chosen).*1 = map id chosen) by (clear; induction chosen; cbn; congruence).
  split; [constructor|].
  - apply List.Forall_forall. intros x Hx. apply in_map_iff in Hx as (d & <- & Hd). rewrite List.Forall_forall in Wo. destruct (Wo d Hd) as ([A _] & P & _).
    constructor; [exact A|exact P|]. rewrite List.Forall_forall in F. apply F. rewrite Eh. now apply (in_map id).
  - rewrite E1. apply (sublist_map fst) in Su. rewrite !List.map_map in Su. cbn in Su. exact (sublist_NoDup _ _ Nd Su).
  - replace (tx_images sha3_256 (map entry chosen)) with (all_images sha3_256 chosen); [exact Im|].
    clear. unfold tx_images, all_images. induction chosen; cbn; congruence.
  - replace (tx_accounts sha3_256 (map entry chosen)) with (all_registrations sha3_256 chosen); [exact Ac|].
    clear. unfold tx_accounts, all_registrations. induction chosen as [|d l IH]; cbn; [reflexivity|]. now rewrite IH.
  - unfold tx_frees, free_count, tx_sizes, total_size, tx_fees, total_fee. rewrite !List.map_map. split; [|split].
    + clear. induction chosen as [|d l IH]; cbn; [reflexivity|]. destruct (is_free_reg (tx d)); cbn [length]; lia.
    + f_equal. apply map_ext_in. intros d Hd. rewrite List.Forall_forall in Wo. destruct (Wo d Hd) as (_ & _ & -> & _). reflexivity.
    + f_equal. apply map_ext_in. intros d Hd. rewrite List.Forall_forall in Wo. destruct (Wo d Hd) as (_ & _ & _ & E). cbn [entry snd]. rewrite E. reflexivity.
Qed.

(** The header of a sealed template passes. *)
Lemma sealed_header env db n alt b k sig pow blob local hash nonce size fees gen :
  (forall msg, length (dsa_sign (m_pq_spend_sk m) msg) = 3309%nat) ->
  (forall msg, dsa_verify (m_pq_spend_pub m) msg (dsa_sign (m_pq_spend_sk m) msg) = true) ->
  len (m_pq_spend_pub m) = TX_EXTRA_PQ_SPEND_PUBKEY_SIZE -> 0 < timestampCheckWindow_v1 c < 2 ^ 32 ->
  wf_db n db -> 0 < n < 2 ^ 32 -> getBlockMajorVersionForHeight c n = BLOCK_MAJOR_VERSION_1 -> Checkpoints.is_in_checkpoint_zone points n = false ->
  let diff := getDifficultyForNextBlock c db alt (getTailId db) in
  diff <> 0 -> header b = mkBlockHeader BLOCK_MAJOR_VERSION_1 0 0 (template_timestamp c db local) (getTailId db) ->
  template_timestamp c db local <= w64 (t_check env + blockFutureTimeLimit_v1 c) ->
  constructMinerTxPq sha3_256 c (getBlockMajorVersionForHeight c n) n (medianValue (get_last_n_blocks_sizes db (rewardBlocksWindow c))) gen size fees (m_pq_spend_pub m) nonce
    = Some (baseTransaction b) ->
  get_block_hashing_blob cn_fast_hash (sealed b k (signature b)) = Some blob ->
  discrete_power_prove shake256 dsa_sign yespower_discrete blob (m_pq_spend_sk m) = (sig, Some pow) -> Difficulty.check_hash pow diff = true ->
  getHashHeight db hash = None ->
  check_header sha3_256 cn_fast_hash shake256 dsa_verify yespower_discrete c points env db alt (parent_of (sealed b k sig)) (sealed b k sig) hash None = Ok diff /\
  exists reward emission, validate_miner_transaction c db (sealed b k sig) n size gen fees = Some (reward, emission).
Proof.
  intros Sl Sv Pl Hw W Hn V Zn diff Nz Hd Ht Cb Eb Ep Ec Hh.
  assert (En : getChainHeight db = n) by (apply getChainHeight_contiguous; apply W).
  assert (Ls : len sig = PQ_SIGNATURE_SIZE) by (unfold discrete_power_prove in Ep; injection Ep as <- _; unfold len; rewrite Sl; reflexivity).
  destruct (miner_tx_passes sha3_256 c db (sealed b k sig) n size gen fees (m_pq_spend_pub m) nonce ltac:(lia) Pl Ls Cb) as (P1 & P2 & P3).
  assert (Gh : get_block_height (sealed b k sig) = n).
  { revert Cb. unfold constructMinerTxPq. destruct (getBlockReward _ _ _ _ _ _) as [[r e]|]; [|discriminate]. intros Cb. injection Cb as Cb.
    unfold get_block_height. cbn [sealed baseTransaction]. rewrite <- Cb. reflexivity. }
  assert (Pow : checkProofOfWork cn_fast_hash shake256 dsa_verify yespower_discrete (sealed b k sig) diff = true).
  { assert (Gk : getPqMinerSpendPubFromExtra (extra (prefix (baseTransaction (sealed b k (signature b))))) = Some (m_pq_spend_pub m)).
    { revert Cb. unfold constructMinerTxPq. destruct (getBlockReward _ _ _ _ _ _) as [[r e]|]; [|discriminate]. intros Cb. injection Cb as Cb.
      cbn [sealed baseTransaction]. rewrite <- Cb. apply (miner_extra_reads (m_pq_spend_pub m) nonce Pl). }
    destruct (pow_prove_verify cn_fast_hash shake256 dsa_sign dsa_verify yespower_discrete _ _ _ _ sig pow Sl Sv Eb Gk Ep) as (Q & _).
    unfold checkProofOfWork. cbn [sealed header baseTransaction transactionHashes] in Q. unfold sealed. rewrite Q. exact Ec. }
  split; [|exact P3]. unfold check_header. rewrite Hh. rewrite bool_decide_eq_false_2 by (intros [x X]; discriminate). cbn [negb guard bind].
  unfold checkBlockVersion. rewrite Gh, V. cbn [sealed header majorVersion]. rewrite Hd. cbn [majorVersion previousBlockHash]. cbn [Z.eqb Pos.eqb BLOCK_MAJOR_VERSION_1 guard bind].
  unfold checkParentBlockSize. cbn [sealed header majorVersion]. rewrite Hd. cbn [majorVersion]. cbn [orb Z.eqb Pos.eqb BLOCK_MAJOR_VERSION_1 BLOCK_MAJOR_VERSION_2 BLOCK_MAJOR_VERSION_3 guard bind].
  cbn [Z.leb Z.compare Pos.compare Pos.compare_cont BLOCK_MAJOR_VERSION_5 andb negb guard bind]. rewrite bytes_eqb_refl. cbn [guard bind].
  rewrite (template_time c n db local (t_check env) (sealed b k sig) W Hn Hw) by (first [cbn [sealed header timestamp]; rewrite Hd; reflexivity|exact Ht]).
  cbn [guard bind]. fold diff. rewrite (proj2 (Z.eqb_neq diff 0) Nz). cbn [negb guard bind]. rewrite En, (proj2 (Z.eqb_neq n 0)) by lia. rewrite Zn, Pow, P1, P2. reflexivity.
Qed.

(** What the miner and its node need for the block to be taken. *)
Record set_up (s : Chain) (chain : list ChainBlock) (seen : list Transaction) : Prop := {
  su_sign_length : forall msg, length (dsa_sign (m_pq_spend_sk m) msg) = 3309%nat;
  su_sign : forall msg, dsa_verify (m_pq_spend_pub m) msg (dsa_sign (m_pq_spend_sk m) msg) = true;
  su_pub : len (m_pq_spend_pub m) = TX_EXTRA_PQ_SPEND_PUBKEY_SIZE;
  su_window : 0 < timestampCheckWindow_v1 c < 2 ^ 32;
  su_quota : parameters.FREE_REG_PER_BLOCK <= freeRegPerBlock c;
  su_height : 0 < Z.of_nat (length chain) < 2 ^ 32;
  su_version : getBlockMajorVersionForHeight c (Z.of_nat (length chain)) = BLOCK_MAJOR_VERSION_1;
  su_zone : Checkpoints.is_in_checkpoint_zone points (Z.of_nat (length chain)) = false;
  su_limit : m_current_block_cumul_sz_limit (k_node s) =
    2 * Z.max (blockGrantedFullRewardZone c) (medianValue (get_last_n_blocks_sizes (db_of s) (rewardBlocksWindow c)));
  su_caches : caches_ok sha3_256 cn_fast_hash y_slow_hash c seen (m_freeRegProofs (k_node s));
  su_pool : up_to_date (db_of s) seen (k_pool s)
}.

(** The block is new: neither it nor one of its transactions is known to the chain. *)
Record new_block (s : Chain) (b : Block) (id : bytes) : Prop := {
  nb_id : get_block_hash cn_fast_hash shake256 (parent_of b) b = Some id;
  nb_chain : getHashHeight (db_of s) id = None;
  nb_alts : alts s !! id = None;
  nb_txs : Forall (fun i => tx_indices (db_of s) !! i = None) (txid cn_fast_hash (baseTransaction b) :: transactionHashes b);
  nb_base : txid cn_fast_hash (baseTransaction b) ∉ transactionHashes b
}.

(** The chosen transactions, as the block and the pool list them. *)
Lemma entry_ids l : (map entry l).*1 = map id l.
Proof. induction l; cbn; congruence. Qed.
Lemma zip_entries l : zip (map id l) (map tx l) = map entry l.
Proof. induction l as [|d l IH]; [reflexivity|]. cbn [map]. now rewrite <- IH. Qed.

Lemma constructed_input v h median coins size fee key nonce t :
  constructMinerTxPq sha3_256 c v h median coins size fee key nonce = Some t -> inputs (prefix t) = [InBase (mkBaseInput h)].
Proof. unfold constructMinerTxPq. destruct (getBlockReward _ _ _ _ _ _) as [[r e]|]; [|discriminate]. intros H. injection H as <-. reflexivity. Qed.

(** What was chosen from a pool is taken from any pool with the same entries. *)
Lemma selection_loads v now db p q hashes size fees chosen : selection db p hashes size fees chosen -> NoDup (map id (m_transactions p)) ->
  map entry (m_transactions q) = map entry (m_transactions p) -> pool_sound sha3_256 cn_fast_hash c q ->
  exists q', load_loop sha3_256 cn_fast_hash c v now hashes [] q = Ok (Some (map tx chosen), q').
Proof.
  intros Se Nd E Q. rewrite (se_hashes _ _ _ _ _ _ _ _ _ _ _ _ Se). apply (load_loop_exact sha3_256 cn_fast_hash c v now _ (map tx chosen) [] q Q).
  - pose proof (sublist_map fst _ _ (se_sub _ _ _ _ _ _ _ _ _ _ _ _ Se)) as Su. rewrite !List.map_map in Su. exact (sublist_NoDup _ _ Nd Su).
  - rewrite E. apply Forall2_map_pair. intros d Hd. apply (elem_of_sublist _ _ _ (proj2 (list_elem_of_In _ _) (in_map entry _ _ Hd))), Se.
Qed.

Lemma chosen_no_collision db p seen hashes size fees chosen : up_to_date db seen p -> selection db p hashes size fees chosen ->
  ~ proof_collision sha3_256 cn_fast_hash (map snd (map entry chosen) ++ seen).
Proof.
  intros Up Se C. apply (up_proofs _ _ _ _ _ _ _ _ _ Up). revert C. apply collision_incl. intros x Hx.
  apply in_app_iff in Hx as [Hx|Hx]; apply in_app_iff; [left|now right]. rewrite List.map_map in Hx. apply in_map_iff in Hx as (d & <- & Hd).
  pose proof (elem_of_sublist _ _ _ (proj2 (list_elem_of_In _ _) (in_map entry _ _ Hd)) (se_sub _ _ _ _ _ _ _ _ _ _ _ _ Se)) as X.
  apply elem_of_map in X as (e & Ee & He). apply list_elem_of_In in He. injection Ee as _ Et. cbn [entry snd]. rewrite Et. now apply in_map.
Qed.

Lemma found_connects s old chain seen local nonce b diff h s1 k blob sig pow hash : (forall x, length (sha3_256 x) = 32%nat) ->
  on s old chain -> set_up s chain seen -> get_block_template_pq (m_pq_spend_pub m) nonce local s = (Some (b, diff, h), s1) ->
  get_block_hashing_blob cn_fast_hash (sealed b k (signature b)) = Some blob ->
  discrete_power_prove shake256 dsa_sign yespower_discrete blob (m_pq_spend_sk m) = (sig, Some pow) -> Difficulty.check_hash pow diff = true ->
  undisturbed (env_of world s1) -> timestamp (header b) <= w64 (t_check (env_of world s1) + blockFutureTimeLimit_v1 c) ->
  block_ok (sealed b k sig) -> new_block s1 (sealed b k sig) hash ->
  exists txs q n', load_loop sha3_256 cn_fast_hash c (validator_of sha3_256 cn_fast_hash dsa_verify y_slow_hash c genesisBlockHash points s1)
      (now_of world s1) (transactionHashes b) [] (k_pool s1) = Ok (Some txs, q) /\
    pushBlock sha3_256 cn_fast_hash shake256 dsa_verify yespower_discrete y_slow_hash c genesisBlockHash points (env_of world s1) (k_node s1)
      (parent_of (sealed b k sig)) (sealed b k sig) txs hash None = (Added, n').
Proof.
  intros Hs [N P A Fk] S T Eb Ep Ec U Ht B NB. pose proof S as [Sl Sv Pl Hw Hq Hn V Zn Lm K Up].
  destruct (template_made local nonce s b diff h s1 seen Hs K Up T) as (E1 & U1 & Ee & Ed & Nz & Eh & Hd & Sg & chosen & ts & fe & sz & Se & Cb & Es & Hm).
  assert (Db : db_of s1 = db_of s) by (rewrite E1; reflexivity). assert (Al : alts s1 = alts s) by (rewrite E1; reflexivity).
  set (n := Z.of_nat (length chain)) in *. set (db := db_of s) in *.
  assert (W : wf_db n db) by (eapply holds_wf; apply N).
  assert (En : getChainHeight db = n) by (apply getChainHeight_contiguous; apply W). rewrite En in Eh. subst h diff.
  rewrite Lm, Z.mul_comm, Z.div_mul in Cb by lia. pose proof (construct_median db n sz fe nonce _ V Cb) as Cm.
  destruct NB as [Nid Nc Na Nt Nx]. rewrite Db in Nc, Nt. cbn [sealed baseTransaction transactionHashes] in Nt, Nx. inversion_clear Nt as [|? ? Nt0 Nts].
  destruct (sealed_header (env_of world s1) db n (alts s) b k sig pow blob local hash nonce sz fe (getCoinsInCirculation db) Sl Sv Pl Hw W Hn V Zn Nz Hd ltac:(rewrite Hd in Ht; exact Ht) Cm Eb Ep Ec Nc)
    as (Hc & reward & emission & Vm).
  assert (Ids : NoDup (map id (m_transactions (k_pool s)))) by apply P. 
  destruct (selection_compatible db (k_pool s) (transactionHashes b) ts fe chosen Se Ids Nts) as (Cp & Ef & Esz & Efe).
  pose proof (se_hashes _ _ _ _ _ _ _ _ _ _ _ _ Se) as Hh.
  destruct (selection_loads (validator_of sha3_256 cn_fast_hash dsa_verify y_slow_hash c genesisBlockHash points s1) (now_of world s1) _ _ (k_pool s1) _ _ _ _ Se Ids Ee ltac:(apply U1)) as [q L].
  exists (map tx chosen), q. pose proof (constructed_input _ _ _ _ _ _ _ _ _ Cb) as Ei.
  assert (Ez : sz = w64 (len (tx_blob (baseTransaction b)) + total_size chosen)).
  { rewrite Es, (se_size _ _ _ _ _ _ _ _ _ _ _ _ Se), w64_add. f_equal. lia. }
  assert (Zp : zip (transactionHashes (sealed b k sig)) (map tx chosen) = map entry chosen) by (cbn [sealed transactionHashes]; rewrite Hh; apply zip_entries).
  destruct (connect_accepts sha3_256 cn_fast_hash dsa_verify y_slow_hash c genesisBlockHash (mdb_full (env_of world s1)) Hs (proj1 U) points db n (sealed b k sig)
    (map tx chosen) hash (getDifficultyForNextBlock c db (alts s) (getTailId db)) (m_freeRegProofs (k_node s1)) seen reward emission) as [(db2 & en & s' & Cn)|C].
  - exact W.
  - rewrite Zp. exact Cp.
  - rewrite E1. exact K.
  - exact Zn.
  - unfold images. cbn [sealed baseTransaction]. rewrite Ei. reflexivity.
  - exact Nt0.
  - rewrite Zp, entry_ids, <- Hh. exact Nx.
  - unfold in_w. destruct B as (_ & [_ Bl] & _). unfold len in *. cbn [sealed baseTransaction] in *. lia.
  - rewrite Zp, Ef. pose proof (se_free _ _ _ _ _ _ _ _ _ _ _ _ Se). lia.
  - rewrite Zp, length_map. destruct B as (_ & _ & Bc). cbn [sealed transactionHashes] in Bc. rewrite Hh, length_map in Bc. lia.
  - rewrite Zp, Esz. cbn [sealed baseTransaction]. rewrite <- Ez. unfold checkCumulativeBlockSize. rewrite (proj2 (Z.ltb_ge _ _)) by exact Hm. reflexivity.
  - rewrite Zp, Esz, Efe. cbn [sealed baseTransaction]. rewrite <- Ez, <- (se_fee _ _ _ _ _ _ _ _ _ _ _ _ Se). rewrite (proj2 (Z.ltb_lt 0 n)) by lia.
    unfold getCoinsInCirculation in Vm. rewrite En, (proj2 (Z.eqb_neq n 0)) in Vm by lia. exact Vm.
  - destruct (pushBlock_succeeds sha3_256 cn_fast_hash shake256 dsa_verify yespower_discrete y_slow_hash c genesisBlockHash points (env_of world s1) (k_node s1)
      (parent_of (sealed b k sig)) (sealed b k sig) (map tx chosen) hash None (getDifficultyForNextBlock c db (alts s) (getTailId db)) db2 en s' U) as (n' & Pn & _); [..|eauto].
    + rewrite E1. apply N.
    + change (current (m_db (k_node s1))) with (db_of s1). change (m_alternative_chains (k_node s1)) with (alts s1). rewrite Db, Al. exact Hc.
    + change (current (m_db (k_node s1))) with (db_of s1). rewrite Db. exact Cn.
  - exfalso. rewrite Zp in C. exact (chosen_no_collision _ _ _ _ _ _ _ Up Se C).
Qed.

Abbreviation holds := (holds sha3_256 cn_fast_hash dsa_verify y_slow_hash c genesisBlockHash points).

(** The transactions of the last block can be read back. *)
Lemma last_transactions chain k db : holds (chain ++ [k]) db ->
  getBlockchainTransactions db (transactionHashes (cb_block k)) = Ok (cb_txs k, []).
Proof.
  intros H. apply holds_unsnoc in H as (db0 & H0 & X). pose proof (holds_wf _ _ _ _ _ _ _ _ _ H0) as W.
  pose proof (ex_input _ _ _ _ _ _ _ _ _ _ _ X) as I.
  apply extends_connected in X as [full C]; [|exact W]. pose proof C as C'. apply connected_effect in C' as (db1 & g & T & ->).
  assert (R : forall i h t, zip (transactionHashes (cb_block k)) (cb_txs k) !! i = Some (h, t) ->
    tx_indices db1 !! h = Some (Z.of_nat (length chain), Z.of_nat (S i)) /\ tx_entries db1 !! (Z.of_nat (length chain), Z.of_nat (S i)) = Some (stored t)).
  { intros i h t E. split; [rewrite (te_index_at _ _ _ _ _ _ T (S i) h t E)|rewrite <- (te_entries_new _ _ _ _ _ _ T (S i) h t E)]; f_equal; f_equal; lia. }
  clear T C. destruct I as [_ L S _ _]. inversion_clear S as [|? ? _ Ss]. unfold cb_block in *.
  set (db2 := mkDb _ _ _ _ _ _ _ _ _ _).
  assert (Q : forall hs ts, length hs = length ts -> Forall storable ts ->
    (forall i h t, zip hs ts !! i = Some (h, t) -> exists j, tx_indices db1 !! h = Some (Z.of_nat (length chain), j) /\ tx_entries db1 !! (Z.of_nat (length chain), j) = Some (stored t)) ->
    getBlockchainTransactions db2 hs = Ok (ts, [])).
  { induction hs as [|h hs IH]; intros [|t ts] El F G; try discriminate; [reflexivity|]. inversion_clear F as [|? ? Ft Fs]. cbn [getBlockchainTransactions].
    destruct (G 0%nat h t eq_refl) as (j & E1 & E2). unfold getTxIndex. change (tx_indices db2) with (tx_indices db1). rewrite E1.
    destruct (transactionByIndex_stored db2 (Z.of_nat (length chain)) j t (proj1 Ft) (proj2 Ft) E2) as (te & -> & Et). cbn [bind].
    rewrite (IH ts) by (first [cbn in El; lia|exact Fs|intros i h' t' E; exact (G (S i) h' t' E)]). cbn [bind]. now rewrite Et. }
  apply Q; [exact L|exact Ss|]. intros i h t E. destruct (R i h t E). eauto.
Qed.

Abbreviation handle_block_found :=
  (handle_block_found sha3_256 cn_fast_hash shake256 dsa_verify yespower_discrete y_slow_hash c genesisBlockHash points parent_of world).

Lemma update_keeps_chain miner s : db_of (snd (update_block_template sha3_256 cn_fast_hash dsa_verify y_slow_hash c genesisBlockHash points world miner s)) = db_of s.
Proof.
  unfold update_block_template. destruct miner as [x|]; [|reflexivity]. unfold Mining.get_block_template_pq.
  destruct (_ =? 0); [reflexivity|]. destruct (select _ _ _ _ _ _ _ _ _). reflexivity.
Qed.

(** A block that was added is announced with its transactions. *)
Lemma found_announced depth b miner s r s' old chain k : addNewBlock depth b None s = Ok (r, bvc_added, s') -> on s' old (chain ++ [k]) -> cb_block k = b ->
  exists miner' s'', handle_block_found depth b miner s =
    Ok (true, Some (mkNewBlock 0 (Z.of_nat (length chain) + 1) (block_blob b) (map tx_blob (cb_txs k))), miner', s'') /\ db_of s'' = db_of s'.
Proof.
  intros E O <-. unfold Mining.handle_block_found, handle_incoming_block_impl. rewrite E. cbn [bind snd]. cbv iota.
  pose proof (update_keeps_chain miner s') as U.
  destruct (update_block_template _ _ _ _ _ _ _ _ miner s') as [miner' s'']. cbn [snd] in U. cbn [andb m_added_to_main_chain bvc_added].
  unfold announcement. rewrite U. pose proof (nh_current _ _ _ _ _ _ _ _ _ _ (on_node _ _ _ _ _ _ _ _ _ _ O)) as H. fold (db_of s') in H.
  rewrite (last_transactions chain k _ H). cbn [bind length Nat.eqb negb andb].
  pose proof H as H'. apply holds_unsnoc in H' as (db0 & H0 & X). pose proof (ex_input _ _ _ _ _ _ _ _ _ _ _ X) as I.
  rewrite (bi_hashes _ _ _ I), Nat.eqb_refl. cbn [andb negb].
  destruct (toBinaryArray_total block_codec (cb_block k) (bi_block _ _ _ I)) as (ba & Ea & _). rewrite Ea. cbn [bind].
  exists miner', s''. split; [|exact U]. pose proof (holds_height _ _ _ _ _ _ _ _ _ H) as Hh. rewrite length_app in Hh. cbn [length] in Hh.
  unfold block_blob. rewrite Ea. cbn [default]. unfold Datatypes.id. rewrite Hh. do 5 f_equal. f_equal. lia.
Qed.

End Mined.

(** ** A payment mined on top of a first block *)

Abbreviation mined_holds := (holds sample_sha3 sample_sha3 sample_checks (fun d _ => Some d) mainnet NULL_HASH ∅).
Abbreviation mined_connect :=
  (connect sample_sha3 sample_sha3 sample_checks (fun d _ => Some d) mainnet NULL_HASH ∅ (fun _ => false) empty_db sample_block0 [] (repeat (b8 1) 32) 1 no_proofs).
Definition mined_first : Db * BlockEntry := match mined_connect with (Ok (Some r), _) => r | _ => (empty_db, sample_entry) end.
Definition mined_chain : list ChainBlock := [mkChainBlock (snd mined_first) (repeat (b8 1) 32) []].

Lemma mined_first_connects : mined_connect = (Ok (Some mined_first), no_proofs).
Proof. vm_compute. reflexivity. Qed.

Lemma mined_first_held : mined_holds mined_chain (fst mined_first).
Proof.
  apply (holds_block _ _ _ _ _ _ _ [] empty_db (mkChainBlock (snd mined_first) (repeat (b8 1) 32) []) (fst mined_first)); [constructor|].
  assert (E : cb_block (mkChainBlock (snd mined_first) (repeat (b8 1) 32) []) = sample_block0) by (vm_compute; reflexivity).
  constructor; rewrite ?E; [exact sample_input_0|reflexivity|reflexivity|vm_compute; reflexivity|vm_compute; reflexivity|].
  exists (fun _ => false), 1, no_proofs, no_proofs. cbn [cb_txs cb_hash cb_entry]. rewrite mined_first_connects. now destruct mined_first.
Qed.

Definition mined_limit : Z := 2 * Z.max (blockGrantedFullRewardZone mainnet) (medianValue (get_last_n_blocks_sizes (fst mined_first) (rewardBlocksWindow mainnet))).
Definition mined_node : Node := mkNode (mkStore (fst mined_first) None None) 0 false no_proofs ∅ mined_limit.
Definition mined_pool : Pool :=
  snd (add_tx_object sample_sha3 sample_sha3 mainnet
    (chain_validator sample_sha3 sample_sha3 sample_checks (fun d _ => Some d) mainnet NULL_HASH ∅ (fst mined_first) no_proofs mined_limit) 1700000000 sample_spend true empty_pool).
Definition mined_start : Chain := mkChain mined_node mined_pool [] no_fork 0.
Definition mined_keys : Mine := mkMine sample_key [] [b8 1].
Definition mined_world (_ : nat) : World := mkWorld sample_env 1700000000.
Definition mined_template :=
  Mining.get_block_template_pq sample_sha3 sample_sha3 sample_checks (fun d _ => Some d) mainnet NULL_HASH ∅ sample_key [b8 1] 1700000000 mined_start.
Definition mined_block : Block := match fst mined_template with Some (b, _, _) => b | None => sample_block0 end.
Definition mined_difficulty : Z := match fst mined_template with Some (_, d, _) => d | None => 0 end.
Definition mined_found : Block :=
  default sample_block0 (Mining.worker sample_sha3 BlockFormat.sample_shake BlockFormat.sample_sign sample_memory 1 mined_keys mined_block mined_difficulty 0 1).
Definition mined_id : bytes := default [] (get_block_hash sample_sha3 BlockFormat.sample_shake sample_parent mined_found).

Lemma mined_template_is : fst mined_template = Some (mined_block, mined_difficulty, 1).
Proof. vm_compute. reflexivity. Qed.
Lemma mined_worker_finds :
  Mining.worker sample_sha3 BlockFormat.sample_shake BlockFormat.sample_sign sample_memory 1 mined_keys mined_block mined_difficulty 0 1 = Some mined_found.
Proof. vm_compute. reflexivity. Qed.

Lemma mined_pool_sound : pool_sound sample_sha3 sample_sha3 mainnet mined_pool.
Proof.
  unfold mined_pool. apply keep_one.
  - split; [apply sample_storable; vm_compute; reflexivity|]. exists false. vm_compute. reflexivity.
  - split; [apply empty_good; vm_compute; discriminate|constructor].
Qed.

Lemma mined_on : ChainSwitch.on sample_sha3 sample_sha3 sample_checks (fun d _ => Some d) mainnet NULL_HASH ∅ mined_start mined_chain mined_chain.
Proof.
  constructor; [|exact mined_pool_sound|intros h e H; cbn in H; rewrite lookup_empty in H; discriminate|cbn; lia].
  constructor; [repeat split; cbn; lia|exact mined_first_held|exact mined_first_held|exists []; now rewrite app_nil_r].
Qed.

Lemma mined_up_to_date :
  MinedBlock.up_to_date sample_sha3 sample_sha3 sample_checks (fun d _ => Some d) mainnet NULL_HASH (fst mined_first) [] mined_pool.
Proof.
  constructor; [exact mined_pool_sound|..].
  - assert (H : forallb (fun d => blobSize d =? len (tx_blob (tx d))) (m_transactions mined_pool) = true) by (vm_compute; reflexivity).
    apply Forall_forall. intros d Hd. apply list_elem_of_In in Hd. rewrite forallb_forall in H. apply H in Hd. lia.
  - assert (H : forallb (fun d => bool_decide (tx_fee (fst mined_first) (tx d) = Some (fee d))) (m_transactions mined_pool) = true) by (vm_compute; reflexivity).
    apply Forall_forall. intros d Hd _. apply list_elem_of_In in Hd. rewrite forallb_forall in H. apply H in Hd. now apply bool_decide_eq_true_1 in Hd.
  - assert (H : forallb (fun d => is_some (plain_check sample_sha3 sample_checks (fun d _ => Some d) mainnet NULL_HASH (fst mined_first) (tx d))) (m_transactions mined_pool) = true)
      by (vm_compute; reflexivity).
    apply Forall_forall. intros d Hd _. apply list_elem_of_In in Hd. rewrite forallb_forall in H. apply H in Hd.
    destruct (plain_check _ _ _ _ _ _ _); [eauto|discriminate].
  - assert (H1 : flat_map account_hashed (map tx (m_transactions mined_pool) ++ []) = []) by (vm_compute; reflexivity).
    assert (H2 : flat_map (tuple_hashed sample_sha3) (map tx (m_transactions mined_pool) ++ []) = []) by (vm_compute; reflexivity).
    unfold proof_collision. rewrite H1, H2. intros [(x & y & X & _)|(x & y & X & _)]; destruct X.
Qed.
Lemma mined_set_up :
  MinedBlock.set_up sample_sha3 sample_sha3 BlockFormat.sample_sign sample_checks (fun d _ => Some d) mainnet NULL_HASH ∅ mined_keys mined_start mined_chain [].
Proof.
  constructor.
  - intros msg. cbn. unfold BlockFormat.sample_sign. rewrite length_firstn, length_app, repeat_length. lia.
  - intros msg. apply bytes_eqb_refl.
  - vm_compute; reflexivity.
  - vm_compute; split; reflexivity.
  - vm_compute; discriminate.
  - vm_compute; split; reflexivity.
  - vm_compute; reflexivity.
  - vm_compute; reflexivity.
  - vm_compute; reflexivity.
  - split; apply cache_ok_empty.
  - exact mined_up_to_date.
Qed.

Abbreviation mined_after := (snd mined_template).

Lemma mined_block_ok : block_ok mined_found.
Proof.
  assert (E : header mined_found = mkBlockHeader 1 0 0 1700000000 (repeat (b8 1) 32) /\ length (signature mined_found) = 3309%nat /\
    transactionHashes mined_found = [Ledger.sample_id sample_spend]) by (vm_compute; repeat split).
  assert (S : storable (baseTransaction mined_found)) by (apply sample_storable; vm_compute; reflexivity).
  destruct mined_found as [h t g l]. cbn [header signature transactionHashes baseTransaction] in E, S. destruct E as (-> & Eg & ->).
  split; [|split; [exact S|reflexivity]].
  split; [|split; [unfold len; cbn [signature]; now rewrite Eg|split; [apply S|split; [reflexivity|repeat constructor]]]]. repeat split; vm_compute; congruence.
Qed.

Lemma mined_new : MinedBlock.new_block sample_sha3 BlockFormat.sample_shake (fun _ => sample_parent) mined_after mined_found mined_id.
Proof.
  constructor; [vm_compute; reflexivity..| |].
  - assert (H : forallb (fun i => negb (is_some (tx_indices (db_of mined_after) !! i))) (txid sample_sha3 (baseTransaction mined_found) :: transactionHashes mined_found) = true)
      by (vm_compute; reflexivity).
    apply Forall_forall. intros i Hi. apply list_elem_of_In in Hi. rewrite forallb_forall in H. apply H in Hi. now destruct (_ !! _).
  - apply (bool_decide_eq_false_1 (_ ∈ _)). vm_compute. reflexivity.
Qed.

