(* ===== verification/Bech32.v ===== *)
(** * Bech32m text

    The text form of addresses and payment proofs: [encodeBech32m] and
    [decodeBech32m] of [crypto_pq/PqBech32.cpp], whose helpers
    [crypto_pq/PqAddress.cpp] repeats. The strings exceed the 90 characters of
    BIP-173, so nothing here bounds their length.

    [bech32m_exact] says that decoding accepts exactly the encoder's outputs, and
    [bech32m_burst] that no corruption within six consecutive characters passes. *)

From Stdlib Require Import ZArith String List Lia Bool Btauto.
From coqutil Require Import Byte Z.BitOps.
From S2P Require Import Prelude.
Import ListNotations.
Open Scope string_scope.
Open Scope list_scope.
Open Scope Z_scope.
Open Scope discrete_scope.

Module Bech32.

Definition kCharset : bytes := str "qpzry9x8gf2tvdw0s3jn54khce6mua7l".
Definition kBech32mConst : Z := 0x2bc830a3.
Definition generators : list Z := [0x3b6a57b2; 0x26508e6d; 0x1ea119fa; 0x3d4233dd; 0x2a1462b3].

Fixpoint mix (i : Z) (gens : list Z) (top checksum : Z) : Z :=
  match gens with
  | [] => checksum
  | g :: gens => mix (i + 1) gens top (if Z.odd (Z.shiftr top i) then Z.lxor checksum g else checksum)
  end.
Definition polymod_step (checksum value : Z) : Z :=
  let top := w8 (Z.shiftr checksum 25) in
  mix 0 generators top (Z.lxor (w32 (Z.shiftl (Z.land checksum 0x1ffffff) 5)) value).
Definition polymod (values : list Z) : Z := fold_left polymod_step values 1.

Definition expandHrp (hrp : bytes) : list Z :=
  map (fun c => Z.shiftr (u8 c) 5) hrp ++ [0] ++ map (fun c => Z.land (u8 c) 31) hrp.

Section ConvertBits.
Variables fromBits toBits : Z.

(** [while (bits >= toBits)]: what is pushed, and [bits] afterwards. *)
Fixpoint push_groups (fuel : nat) (accumulator bits : Z) : list Z * Z :=
  match fuel with
  | O => ([], bits)
  | S fuel =>
      if toBits <=? bits then
        let bits := bits - toBits in
        let '(out, rest) := push_groups fuel accumulator bits in
        (w8 (Z.land (Z.shiftr accumulator bits) (w32 (Z.shiftl 1 toBits) - 1)) :: out, rest)
      else ([], bits)
  end.

Fixpoint convert_loop (inp : list Z) (accumulator bits : Z) : option (list Z * Z * Z) :=
  match inp with
  | [] => Some ([], accumulator, bits)
  | value :: inp =>
      if negb (Z.shiftr value fromBits =? 0) then None
      else
        let accumulator := Z.land (Z.lor (w32 (Z.shiftl accumulator fromBits)) value) (w32 (Z.shiftl 1 (fromBits + toBits - 1)) - 1) in
        let bits := bits + fromBits in
        let '(out, bits) := push_groups (Z.to_nat bits) accumulator bits in
        match convert_loop inp accumulator bits with
        | Some (rest, accumulator, bits) => Some (out ++ rest, accumulator, bits)
        | None => None
        end
  end.

Definition convertBits (inp : list Z) (pad : bool) : option (list Z) :=
  match convert_loop inp 0 0 with
  | None => None
  | Some (out, accumulator, bits) =>
      let tail := Z.land (w32 (Z.shiftl accumulator (toBits - bits))) (w32 (Z.shiftl 1 toBits) - 1) in
      if pad then Some (if bits =? 0 then out else out ++ [w8 tail])
      else if (fromBits <=? bits) || negb (tail =? 0) then None
      else Some out
  end.
End ConvertBits.

(** [std::strchr]: the index of the character, if any. *)
Fixpoint strchr (s : bytes) (c : Init.Byte.byte) : option Z :=
  match s with
  | [] => None
  | x :: s => if Byte.eqb x c then Some 0 else option_map Z.succ (strchr s c)
  end.
Definition letter (v : Z) : Init.Byte.byte := nth (Z.to_nat v) kCharset (b8 0).

Definition checksum_letters (checksum : Z) : bytes :=
  map (fun i => letter (Z.land (Z.shiftr checksum (5 * (5 - i))) 31)) [0; 1; 2; 3; 4; 5].

Definition encodeBech32m (hrp payload : bytes) : bytes :=
  match hrp with
  | [] => []
  | _ =>
      match convertBits 8 5 (map u8 payload) true with
      | None => []
      | Some data =>
          let checksum := Z.lxor (polymod (expandHrp hrp ++ data ++ repeat 0 6)) kBech32mConst in
          hrp ++ str "1" ++ map letter data ++ checksum_letters checksum
      end
  end.

(** [std::string::rfind]: what precedes and what follows the last [c]. *)
Fixpoint rfind (c : Init.Byte.byte) (s : bytes) : option (bytes * bytes) :=
  match s with
  | [] => None
  | x :: s =>
      match rfind c s with
      | Some (pre, post) => Some (x :: pre, post)
      | None => if Byte.eqb x c then Some ([], s) else None
      end
  end.

Fixpoint letters (s : bytes) : option (list Z) :=
  match s with
  | [] => Some []
  | c :: s =>
      match strchr kCharset c with
      | None => None
      | Some v => if Byte.eqb c (b8 0) then None else option_map (cons v) (letters s)
      end
  end.

Definition decodeBech32m (encoded expectedHrp : bytes) : option bytes :=
  match rfind (b8 49) encoded with
  | None => None
  | Some (hrp, post) =>
      if (length hrp =? 0)%nat || (length encoded <? length hrp + 7)%nat || negb (hrp ==b expectedHrp) then None
      else
        match letters post with
        | None => None
        | Some data =>
            if negb (polymod (expandHrp expectedHrp ++ data) =? kBech32mConst) then None
            else option_map (map b8) (convertBits 5 8 (firstn (length data - 6) data) false)
        end
  end.

End Bech32.
Import Bech32.

(** ** Bits of a number, most significant first *)

Definition bits_of (n : nat) (v : Z) : list bool := map (fun i => Z.testbit v (Z.of_nat i)) (rev (seq 0 n)).
Definition bit_string (w : Z) (vs : list Z) : list bool := concat (map (bits_of (Z.to_nat w)) vs).

Lemma bits_of_length n v : length (bits_of n v) = n.
Proof. unfold bits_of. now rewrite length_map, length_rev, length_seq. Qed.

Lemma bits_of_ext n v v' : (forall i, 0 <= i < Z.of_nat n -> Z.testbit v i = Z.testbit v' i) -> bits_of n v = bits_of n v'.
Proof.
  intros H. apply map_ext_in. intros i Hi. apply in_rev, in_seq in Hi. apply H. lia.
Qed.

Lemma bits_of_S n v : bits_of (S n) v = Z.testbit v (Z.of_nat n) :: bits_of n v.
Proof. unfold bits_of. rewrite seq_S, rev_app_distr. reflexivity. Qed.

Lemma bits_of_app a b v : bits_of (a + b) v = bits_of a (Z.shiftr v (Z.of_nat b)) ++ bits_of b v.
Proof.
  induction a as [|a IH]; [reflexivity|]. cbn [Nat.add]. rewrite !bits_of_S, IH. cbn [app]. f_equal.
  rewrite Z.shiftr_spec by lia. f_equal. lia.
Qed.

Lemma testbit_high v n i : 0 <= v < 2 ^ n -> n <= i -> Z.testbit v i = false.
Proof.
  intros Hv Hi. destruct (Z.lt_ge_cases n 0); [rewrite Z.pow_neg_r in Hv by lia; lia|].
  rewrite <- (Z.mod_small v (2 ^ n)) by lia. apply Z.mod_pow2_bits_high. lia.
Qed.

Lemma bits_of_inj n v v' : 0 <= v < 2 ^ Z.of_nat n -> 0 <= v' < 2 ^ Z.of_nat n -> bits_of n v = bits_of n v' -> v = v'.
Proof.
  intros Hv Hv' H. apply Z.bits_inj'. intros i Hi. destruct (Z.lt_ge_cases i (Z.of_nat n)) as [L|L].
  - clear Hv Hv'. induction n as [|n IH]; [lia|]. rewrite !bits_of_S in H. injection H as H0 H.
    destruct (Z.eq_dec i (Z.of_nat n)) as [->|]; [exact H0|apply IH; [exact H|lia]].
  - now rewrite (testbit_high v _ i Hv L), (testbit_high v' _ i Hv' L).
Qed.

Lemma bit_string_cons w v vs : bit_string w (v :: vs) = bits_of (Z.to_nat w) v ++ bit_string w vs.
Proof. reflexivity. Qed.

Lemma bit_string_app w vs us : bit_string w (vs ++ us) = bit_string w vs ++ bit_string w us.
Proof. unfold bit_string. now rewrite map_app, concat_app. Qed.

Lemma bit_string_length w vs : length (bit_string w vs) = (Z.to_nat w * length vs)%nat.
Proof. induction vs as [|v vs IH]; [cbn; lia|]. rewrite bit_string_cons, length_app, bits_of_length, IH. cbn [length]. lia. Qed.

Abbreviation below w := (Forall (fun v => 0 <= v < 2 ^ w)).

Lemma bit_string_inj w vs : 0 < w -> below w vs -> forall us, below w us -> bit_string w vs = bit_string w us -> vs = us.
Proof.
  intros Hw Fv. induction Fv as [|v vs Hv Fv IH]; intros us Fu H.
  - apply (f_equal (@length bool)) in H. rewrite !bit_string_length in H. destruct us; [reflexivity|cbn [length] in H; lia].
  - destruct Fu as [|u us Hu Fu]; [apply (f_equal (@length bool)) in H; rewrite !bit_string_length in H; cbn [length] in H; lia|].
    rewrite !bit_string_cons in H. apply app_inj_len in H as [H0 H]; [|now rewrite !bits_of_length].
    f_equal; [|exact (IH us Fu H)]. apply (bits_of_inj (Z.to_nat w)); rewrite ?Z2Nat.id by lia; assumption.
Qed.

Lemma bits_of_zero n : bits_of n 0 = repeat false n.
Proof. induction n as [|n IH]; [reflexivity|]. rewrite bits_of_S, IH, Z.bits_0. reflexivity. Qed.

(** ** Regrouping *)

Section Regroup.
Variables fromBits toBits : Z.
Hypothesis Hfrom : 0 < fromBits <= 8.
Hypothesis Hto : 0 < toBits <= 8.

Lemma mask_ones n : 0 <= n < 32 -> w32 (Z.shiftl 1 n) - 1 = Z.ones n.
Proof.
  intros Hn. rewrite Z.shiftl_1_l, wrap_small, Z.ones_equiv; [lia|]. unfold in_w. split; [lia|]. apply Z.pow_lt_mono_r; lia.
Qed.

Lemma bits_of_land n v m : Z.of_nat n <= m -> bits_of n (Z.land v (Z.ones m)) = bits_of n v.
Proof.
  intros H. apply bits_of_ext. intros i Hi. rewrite Z.land_spec, Z.ones_spec_low by lia. apply andb_true_r.
Qed.

Lemma land_ones_below v m : 0 <= m -> 0 <= Z.land v (Z.ones m) < 2 ^ m.
Proof. intros H. rewrite Z.land_ones by lia. apply Z.mod_pos_bound. lia. Qed.

Lemma group_value v b : 0 <= b -> 
  let g := w8 (Z.land (Z.shiftr v b) (w32 (Z.shiftl 1 toBits) - 1)) in
  0 <= g < 2 ^ toBits /\ bits_of (Z.to_nat toBits) g = bits_of (Z.to_nat toBits) (Z.shiftr v b).
Proof.
  intros Hb g. subst g. rewrite mask_ones by lia. pose proof (land_ones_below (Z.shiftr v b) toBits ltac:(lia)) as L.
  assert (2 ^ toBits <= 2 ^ 8) by (apply Z.pow_le_mono_r; lia). rewrite wrap_small by (unfold in_w; lia).
  split; [exact L|]. apply bits_of_land. lia.
Qed.

Lemma push_groups_spec fuel : forall acc bits out rest, 0 <= bits -> bits <= Z.of_nat fuel ->
  push_groups toBits fuel acc bits = (out, rest) ->
  0 <= rest < toBits /\ below toBits out /\ bits_of (Z.to_nat bits) acc = bit_string toBits out ++ bits_of (Z.to_nat rest) acc.
Proof.
  induction fuel as [|fuel IH]; intros acc bits out rest Hb Hf H; cbn [push_groups] in H.
  - injection H as <- <-. split; [lia|]. split; [constructor|reflexivity].
  - destruct (Z.leb_spec toBits bits) as [L|L].
    + destruct (push_groups toBits fuel acc (bits - toBits)) as [o r] eqn:E. injection H as <- <-.
      destruct (IH acc (bits - toBits) o r) as (Hr & Fo & Eo); [lia|lia|exact E|].
      destruct (group_value acc (bits - toBits) ltac:(lia)) as [G1 G2]. split; [exact Hr|]. split; [now constructor|].
      replace (Z.to_nat bits) with (Z.to_nat toBits + Z.to_nat (bits - toBits))%nat by lia.
      rewrite bits_of_app, Eo, bit_string_cons, G2, <- app_assoc, Z2Nat.id by lia. reflexivity.
    + injection H as <- <-. split; [lia|]. split; [constructor|reflexivity].
Qed.

Lemma shifted_in acc bits value : 0 <= bits < toBits -> 0 <= value < 2 ^ fromBits ->
  bits_of (Z.to_nat (bits + fromBits))
    (Z.land (Z.lor (w32 (Z.shiftl acc fromBits)) value) (w32 (Z.shiftl 1 (fromBits + toBits - 1)) - 1)) =
  bits_of (Z.to_nat bits) acc ++ bits_of (Z.to_nat fromBits) value.
Proof.
  intros Hb Hv. rewrite mask_ones, bits_of_land by lia. rewrite Z2Nat.inj_add, bits_of_app by lia. f_equal; apply bits_of_ext; intros i Hi.
  - rewrite Z2Nat.id, Z.shiftr_spec, Z.lor_spec, (testbit_high value fromBits), orb_false_r by lia. unfold wrap.
    rewrite Z.mod_pow2_bits_low, Z.shiftl_spec by lia. f_equal. lia.
  - rewrite Z.lor_spec. unfold wrap. rewrite Z.mod_pow2_bits_low, Z.shiftl_spec_low by lia. reflexivity.
Qed.

Lemma convert_loop_spec inp : forall acc bits, 0 <= bits < toBits -> Forall (fun v => 0 <= v) inp ->
  match convert_loop fromBits toBits inp acc bits with
  | Some (out, acc', bits') => below fromBits inp /\ 0 <= bits' < toBits /\ below toBits out /\
      bits_of (Z.to_nat bits) acc ++ bit_string fromBits inp = bit_string toBits out ++ bits_of (Z.to_nat bits') acc'
  | None => ~ below fromBits inp
  end.
Proof.
  induction inp as [|v inp IH]; intros acc bits Hb Fi; cbn [convert_loop].
  - split; [constructor|]. split; [exact Hb|]. split; [constructor|]. now rewrite app_nil_r.
  - inversion_clear Fi as [|? ? Hv Fs]. rewrite Z.shiftr_div_pow2 by lia.
    destruct (Z.eqb_spec (v / 2 ^ fromBits) 0) as [Z0|Z0]; cbn [negb].
    2: { intros B. inversion_clear B as [|? ? Hv' _]. apply Z0, Z.div_small, Hv'. }
    assert (Hv' : 0 <= v < 2 ^ fromBits) by (apply Z.div_small_iff in Z0; lia).
    set (acc1 := Z.land (Z.lor _ v) _). destruct (push_groups toBits _ acc1 (bits + fromBits)) as [o b1] eqn:E.
    destruct (push_groups_spec (Z.to_nat (bits + fromBits)) acc1 (bits + fromBits) o b1 ltac:(lia) ltac:(lia) E) as (Hb1 & Fo & Eo).
    unfold acc1 in Eo at 1. rewrite shifted_in in Eo by assumption. specialize (IH acc1 b1 Hb1 Fs).
    destruct (convert_loop fromBits toBits inp acc1 b1) as [[[rest acc2] b2]|].
    + destruct IH as (Fi & Hb2 & Fr & Er). split; [now constructor|]. split; [exact Hb2|]. split; [now apply Forall_app|].
      rewrite bit_string_cons, app_assoc, Eo, <- app_assoc, Er, bit_string_app, <- app_assoc. reflexivity.
    + intros B. inversion_clear B. auto.
Qed.

Lemma tail_bits acc bits : 0 <= bits < toBits ->
  let tail := Z.land (w32 (Z.shiftl acc (toBits - bits))) (w32 (Z.shiftl 1 toBits) - 1) in
  0 <= tail < 2 ^ toBits /\ bits_of (Z.to_nat toBits) tail = bits_of (Z.to_nat bits) acc ++ repeat false (Z.to_nat (toBits - bits)).
Proof.
  intros Hb tail. subst tail. rewrite mask_ones by lia. split; [apply land_ones_below; lia|]. rewrite bits_of_land by lia.
  replace (Z.to_nat toBits) with (Z.to_nat bits + Z.to_nat (toBits - bits))%nat by lia. rewrite bits_of_app, <- bits_of_zero.
  f_equal; apply bits_of_ext; intros i Hi; unfold wrap.
  - rewrite Z.shiftr_spec, Z.mod_pow2_bits_low, Z.shiftl_spec by lia. f_equal. lia.
  - rewrite Z.mod_pow2_bits_low, Z.shiftl_spec_low, Z.bits_0 by lia. reflexivity.
Qed.

Lemma tail_zero acc bits : 0 <= bits < toBits ->
  Z.land (w32 (Z.shiftl acc (toBits - bits))) (w32 (Z.shiftl 1 toBits) - 1) = 0 <-> bits_of (Z.to_nat bits) acc = repeat false (Z.to_nat bits).
Proof.
  intros Hb. destruct (tail_bits acc bits Hb) as [T1 T2]. set (tail := Z.land _ _) in *.
  assert (R : repeat false (Z.to_nat toBits) = repeat false (Z.to_nat bits) ++ repeat false (Z.to_nat (toBits - bits)))
    by (rewrite <- repeat_app; f_equal; lia).
  split; intros H.
  - rewrite H, bits_of_zero, R in T2. apply app_inj_len in T2 as [T2 _]; [now symmetry|]. now rewrite repeat_length, bits_of_length.
  - apply (bits_of_inj (Z.to_nat toBits)); rewrite ?Z2Nat.id by lia; [exact T1|lia|]. now rewrite T2, H, bits_of_zero, R.
Qed.

(** Padding: the same bits, filled up with fewer zeros than a group. *)
Lemma convertBits_pad inp : Forall (fun v => 0 <= v) inp ->
  match convertBits fromBits toBits inp true with
  | Some out => below fromBits inp /\ below toBits out /\
      exists k, Z.of_nat k < toBits /\ bit_string toBits out = bit_string fromBits inp ++ repeat false k
  | None => ~ below fromBits inp
  end.
Proof.
  intros F. unfold convertBits. pose proof (convert_loop_spec inp 0 0 ltac:(lia) F) as S.
  destruct (convert_loop fromBits toBits inp 0 0) as [[[out acc] bits]|]; [|exact S].
  destruct S as (Fi & Hb & Fo & E). change (bit_string fromBits inp = bit_string toBits out ++ bits_of (Z.to_nat bits) acc) in E. destruct (tail_bits acc bits Hb) as [T1 T2]. set (tail := Z.land _ _) in *.
  split; [exact Fi|]. destruct (Z.eqb_spec bits 0) as [->|Hn].
  - split; [exact Fo|]. exists 0%nat. split; [lia|]. rewrite E. cbn. now rewrite !app_nil_r.
  - assert (2 ^ toBits <= 2 ^ 8) by (apply Z.pow_le_mono_r; lia). rewrite wrap_small by (unfold in_w; lia).
    split; [apply Forall_app; auto|]. exists (Z.to_nat (toBits - bits)). split; [lia|].
    rewrite bit_string_app, E, bit_string_cons, T2, <- !app_assoc. cbn. now rewrite app_nil_r.
Qed.

(** No padding: fewer than a group of zero bits may be left over. *)
Lemma convertBits_strict inp : Forall (fun v => 0 <= v) inp ->
  let leaves out := exists k, Z.of_nat k < Z.min fromBits toBits /\ bit_string fromBits inp = bit_string toBits out ++ repeat false k in
  match convertBits fromBits toBits inp false with
  | Some out => below fromBits inp /\ below toBits out /\ leaves out
  | None => below fromBits inp -> forall out, ~ leaves out
  end.
Proof.
  intros F leaves. unfold convertBits. pose proof (convert_loop_spec inp 0 0 ltac:(lia) F) as S.
  destruct (convert_loop fromBits toBits inp 0 0) as [[[out acc] bits]|]; [|now intros B].
  destruct S as (Fi & Hb & Fo & E). change (bit_string fromBits inp = bit_string toBits out ++ bits_of (Z.to_nat bits) acc) in E. pose proof (tail_zero acc bits Hb) as T. set (tail := Z.land _ _) in *.
  assert (L : forall out', leaves out' -> bits < fromBits /\ tail = 0).
  { intros out' (k & Hk & Ek). rewrite E in Ek.
    assert (Hl : (Z.to_nat toBits * length out + Z.to_nat bits = Z.to_nat toBits * length out' + k)%nat).
    { apply (f_equal (@length bool)) in Ek. now rewrite !length_app, !bit_string_length, bits_of_length, repeat_length in Ek. }
    assert (Hlen : length out = length out') by nia. assert (Hbk : Z.to_nat bits = k) by nia.
    apply app_inj_len in Ek as [_ Ek]; [|rewrite !bit_string_length; lia]. split; [lia|]. apply T. now rewrite Hbk in Ek |- *. }
  destruct (Z.leb_spec fromBits bits) as [Lf|Lf]; cbn [orb]; [intros _ out' H; apply L in H; lia|].
  destruct (Z.eqb_spec tail 0) as [Zt|Zt]; cbn [negb]; [|intros _ out' H; apply L in H; tauto].
  split; [exact Fi|]. split; [exact Fo|]. exists (Z.to_nat bits). split; [lia|]. rewrite E. f_equal. now apply T.
Qed.

End Regroup.

Lemma u8s_nonneg l : Forall (fun v => 0 <= v) (map u8 l).
Proof. apply Forall_map, Forall_forall. intros x _. pose proof (byte_range x). lia. Qed.

Lemma u8s_below l : below 8 (map u8 l).
Proof. apply Forall_map, Forall_forall. intros x _. apply byte_range. Qed.

Lemma below_nonneg w l : below w l -> Forall (fun v => 0 <= v) l.
Proof. apply Forall_impl. lia. Qed.

Lemma to_groups payload : exists data, convertBits 8 5 (map u8 payload) true = Some data /\ below 5 data.
Proof.
  pose proof (convertBits_pad 8 5 ltac:(lia) ltac:(lia) (map u8 payload) (u8s_nonneg payload)) as P.
  destruct (convertBits 8 5 (map u8 payload) true) as [data|]; [exists data; tauto|]. destruct P. apply u8s_below.
Qed.

(** Regrouping to five bits and back are inverse to each other. *)
Lemma regroup_iff data payload : below 5 data ->
  convertBits 5 8 data false = Some (map u8 payload) <-> convertBits 8 5 (map u8 payload) true = Some data.
Proof.
  intros F. pose proof (convertBits_strict 5 8 ltac:(lia) ltac:(lia) data (below_nonneg 5 data F)) as S. cbv zeta in S.
  pose proof (convertBits_pad 8 5 ltac:(lia) ltac:(lia) (map u8 payload) (u8s_nonneg payload)) as P.
  destruct (to_groups payload) as (data' & E & F'). rewrite E in P |- *. destruct P as (_ & _ & k & Hk & Ek). split; intros H.
  - rewrite H in S. destruct S as (_ & _ & j & Hj & Ej). f_equal. apply (bit_string_inj 5); [lia|assumption..|].
    assert (k = j) as ->; [|congruence].
    apply (f_equal (@length bool)) in Ej, Ek. rewrite !length_app, !bit_string_length, !repeat_length in Ej, Ek. lia.
  - injection H as ->. destruct (convertBits 5 8 data false) as [out|].
    + destruct S as (_ & Fo & j & Hj & Ej). f_equal. apply (bit_string_inj 8); [lia|exact Fo|apply u8s_below|].
      rewrite Ej in Ek. apply app_inj_len in Ek as [Ek _]; [exact Ek|].
      apply (f_equal (@length bool)) in Ek. rewrite !length_app, !repeat_length, !bit_string_length in Ek. rewrite !bit_string_length. lia.
    + exfalso. apply (S F (map u8 payload)). exists k. split; [lia|exact Ek].
Qed.

(** ** The checksum is linear *)

Definition next (c : Z) : Z := Z.lxor (Z.shiftl (Z.land c (Z.ones 25)) 5) (mix 0 generators (Z.shiftr c 25) 0).

Lemma below_by_bits n v : 0 <= n -> 0 <= v -> (forall i, n <= i -> Z.testbit v i = false) -> 0 <= v < 2 ^ n.
Proof.
  intros Hn Hv H. split; [exact Hv|]. replace v with (v mod 2 ^ n); [apply Z.mod_pos_bound; lia|].
  rewrite <- Z.land_ones by lia. apply Z.bits_inj'. intros i Hi. rewrite Z.land_spec.
  destruct (Z.lt_ge_cases i n); [rewrite Z.ones_spec_low by lia; apply andb_true_r|]. now rewrite H.
Qed.

Lemma lxor_below n a b : 0 <= n -> 0 <= a < 2 ^ n -> 0 <= b < 2 ^ n -> 0 <= Z.lxor a b < 2 ^ n.
Proof.
  intros Hn Ha Hb. apply below_by_bits; [exact Hn|apply Z.lxor_nonneg; lia|].
  intros i Hi. now rewrite Z.lxor_spec, (testbit_high a n i), (testbit_high b n i).
Qed.

Lemma mix_step i g gens top c : mix i (g :: gens) top c = mix (i + 1) gens top (Z.lxor c (if Z.testbit top i then g else 0)).
Proof. cbn [mix]. rewrite <- Z.testbit_odd. destruct (Z.testbit top i); [reflexivity|]. now rewrite Z.lxor_0_r. Qed.

Lemma mix_lxor gens : forall i top c, mix i gens top c = Z.lxor c (mix i gens top 0).
Proof.
  induction gens as [|g gens IH]; intros i top c; [now rewrite Z.lxor_0_r|].
  rewrite !mix_step, IH, (IH _ _ (Z.lxor 0 _)), Z.lxor_0_l, Z.lxor_assoc. reflexivity.
Qed.

Lemma mix_linear gens : forall i a b, mix i gens (Z.lxor a b) 0 = Z.lxor (mix i gens a 0) (mix i gens b 0).
Proof.
  induction gens as [|g gens IH]; intros i a b; [reflexivity|].
  rewrite !mix_step, !Z.lxor_0_l, (mix_lxor _ _ (Z.lxor a b)), (mix_lxor _ _ a), (mix_lxor _ _ b), IH, Z.lxor_spec.
  apply Z.bits_inj'. intros n _. rewrite !Z.lxor_spec. destruct (Z.testbit a i), (Z.testbit b i); cbn [xorb]; rewrite ?Z.bits_0; btauto.
Qed.

Lemma mix_below n gens : 0 <= n -> below n gens -> forall i top, 0 <= mix i gens top 0 < 2 ^ n.
Proof.
  intros Hn F. induction F as [|g gens Hg F IH]; intros i top; [cbn; lia|]. rewrite mix_step, mix_lxor, Z.lxor_0_l.
  apply lxor_below; [exact Hn| |apply IH]. destruct (Z.testbit top i); lia.
Qed.

Lemma generators_below : below 30 generators.
Proof. repeat constructor; lia. Qed.

Lemma next_range c : 0 <= next c < 2 ^ 30.
Proof.
  unfold next. apply lxor_below; [lia| |apply mix_below; [lia|apply generators_below]].
  rewrite Z.shiftl_mul_pow2 by lia. pose proof (land_ones_below c 25 ltac:(lia)). lia.
Qed.

Lemma next_linear a b : next (Z.lxor a b) = Z.lxor (next a) (next b).
Proof.
  unfold next. rewrite Z.shiftr_lxor, mix_linear. apply Z.bits_inj'. intros i Hi. rewrite !Z.lxor_spec.
  destruct (Z.lt_ge_cases i 5); [rewrite !Z.shiftl_spec_low by lia|rewrite !Z.shiftl_spec, !Z.land_spec, Z.lxor_spec by lia]; btauto.
Qed.

Lemma polymod_step_next c v : 0 <= c < 2 ^ 30 -> polymod_step c v = Z.lxor (next c) v.
Proof.
  intros Hc. unfold polymod_step, next. change 0x1ffffff with (Z.ones 25).
  pose proof (land_ones_below c 25 ltac:(lia)) as L. rewrite mix_lxor, !wrap_small.
  - rewrite !Z.lxor_assoc. f_equal. apply Z.lxor_comm.
  - unfold in_w. rewrite Z.shiftr_div_pow2 by lia. split; [apply Z.div_pos; lia|apply Z.div_lt_upper_bound; lia].
  - unfold in_w. rewrite Z.shiftl_mul_pow2 by lia. lia.
Qed.

Lemma next_small c : 0 <= c < 2 ^ 25 -> next c = 32 * c.
Proof.
  intros Hc. unfold next. rewrite Z.shiftr_div_pow2, Z.div_small, Z.land_ones, Z.mod_small, Z.shiftl_mul_pow2 by lia.
  change (mix 0 generators 0 0) with 0. rewrite Z.lxor_0_r. lia.
Qed.

(** The five generators are independent on their lowest five bits. *)
Lemma generators_independent : forallb (fun t => negb (mix 0 generators (Z.of_nat t) 0 mod 32 =? 0)) (seq 1 31) = true.
Proof. vm_compute. reflexivity. Qed.

Lemma next_zero c : 0 <= c < 2 ^ 30 -> next c = 0 -> c = 0.
Proof.
  intros Hc H. assert (T : Z.shiftr c 25 = 0).
  { pose proof generators_independent as G. rewrite forallb_forall in G.
    assert (Ht : 0 <= Z.shiftr c 25 < 32) by (rewrite Z.shiftr_div_pow2 by lia; split; [apply Z.div_pos; lia|apply Z.div_lt_upper_bound; lia]).
    destruct (Z.eq_dec (Z.shiftr c 25) 0) as [|Hn]; [assumption|]. specialize (G (Z.to_nat (Z.shiftr c 25))).
    rewrite in_seq, Z2Nat.id in G by lia. specialize (G ltac:(lia)). apply negb_true_iff, Z.eqb_neq in G. exfalso. apply G.
    unfold next in H. apply Z.lxor_eq in H. rewrite <- H, Z.shiftl_mul_pow2 by lia. apply Z_mod_mult. }
  rewrite Z.shiftr_div_pow2 in T by lia. apply Z.div_small_iff in T; [|lia]. destruct T as [T|]; [|lia].
  rewrite next_small in H by lia. lia.
Qed.

Abbreviation run := (fold_left polymod_step).
Definition xors (l l' : list Z) : list Z := map (fun p => Z.lxor (fst p) (snd p)) (combine l l').

Lemma run_range l : forall c, below 5 l -> 0 <= c < 2 ^ 30 -> 0 <= run l c < 2 ^ 30.
Proof.
  induction l as [|v l IH]; intros c F Hc; [exact Hc|]. inversion_clear F as [|? ? Hv Fl]. cbn [fold_left]. apply IH; [exact Fl|].
  rewrite polymod_step_next by exact Hc. apply lxor_below; [lia|apply next_range|lia].
Qed.

Lemma xors_below l : forall l', below 5 l -> below 5 l' -> below 5 (xors l l').
Proof.
  induction l as [|v l IH]; intros l' F F'; [constructor|]. destruct F' as [|v' l' Hv' F']; [constructor|].
  inversion_clear F. constructor; [apply lxor_below; [lia|assumption..]|now apply IH].
Qed.

(** Two runs differ by the run of the differences. *)
Lemma run_xor l : forall l' c c', length l = length l' -> below 5 l -> below 5 l' -> 0 <= c < 2 ^ 30 -> 0 <= c' < 2 ^ 30 ->
  Z.lxor (run l c) (run l' c') = run (xors l l') (Z.lxor c c').
Proof.
  induction l as [|v l IH]; intros [|v' l'] c c' L F F' Hc Hc'; try discriminate L; [reflexivity|].
  inversion_clear F as [|? ? Hv Fl]. inversion_clear F' as [|? ? Hv' Fl']. cbn [fold_left xors combine map fst snd].
  rewrite !polymod_step_next by (try apply lxor_below; (assumption || lia)). rewrite next_linear.
  rewrite IH; [|now injection L|assumption..|apply lxor_below; [lia|apply next_range|lia]|apply lxor_below; [lia|apply next_range|lia]].
  f_equal. apply Z.bits_inj'. intros i _. rewrite !Z.lxor_spec. btauto.
Qed.

Lemma xors_same l : xors l l = repeat 0 (length l).
Proof. induction l as [|v l IH]; [reflexivity|]. cbn [xors combine map fst snd length repeat]. now rewrite Z.lxor_nilpotent, <- IH. Qed.

Lemma xors_zeros l : xors l (repeat 0 (length l)) = l.
Proof. induction l as [|v l IH]; [reflexivity|]. cbn [xors combine map fst snd length repeat]. rewrite Z.lxor_0_r. f_equal. exact IH. Qed.

Lemma xors_zero l : forall l', length l = length l' -> xors l l' = repeat 0 (length l) -> l = l'.
Proof.
  induction l as [|v l IH]; intros [|v' l'] L H; try discriminate L; [reflexivity|]. cbn [xors combine map fst snd length repeat] in H.
  injection H as H0 H. f_equal; [now apply Z.lxor_eq|]. apply IH; [now injection L|exact H].
Qed.

(** Trailing symbols cannot cancel a difference. *)
Lemma run_zeros n : forall d, 0 <= d < 2 ^ 30 -> run (repeat 0 n) d = 0 -> d = 0.
Proof.
  induction n as [|n IH]; intros d Hd H; [exact H|]. cbn [repeat fold_left] in H. rewrite polymod_step_next, Z.lxor_0_r in H by exact Hd.
  apply next_zero; [exact Hd|]. apply IH; [apply next_range|exact H].
Qed.

Definition pack (l : list Z) (c : Z) : Z := fold_left (fun c v => 32 * c + v) l c.

Lemma lxor_add_small a v : 0 <= v < 32 -> Z.lxor (32 * a) v = 32 * a + v.
Proof.
  intros Hv. symmetry. apply Z.add_nocarry_lxor. apply Z.bits_inj'. intros i Hi. rewrite Z.land_spec, Z.bits_0.
  replace (32 * a) with (Z.shiftl a 5) by (rewrite Z.shiftl_mul_pow2; lia).
  destruct (Z.lt_ge_cases i 5); [now rewrite Z.shiftl_spec_low by lia|].
  rewrite (testbit_high v 5 i) by lia. apply andb_false_r.
Qed.

Lemma run_pack l : forall c, below 5 l -> 0 <= c -> (c + 1) * 2 ^ (5 * Z.of_nat (length l)) <= 2 ^ 30 -> run l c = pack l c.
Proof.
  induction l as [|v l IH]; intros c F Hc L; [reflexivity|]. inversion_clear F as [|? ? Hv Fl]. cbn [fold_left pack length] in *.
  rewrite Nat2Z.inj_succ, Z.mul_succ_r, Z.pow_add_r in L by lia. assert (0 < 2 ^ (5 * Z.of_nat (length l))) by (apply Z.pow_pos_nonneg; lia).
  change (2 ^ 5) with 32 in *. assert (Hc2 : c < 2 ^ 25) by nia.
  rewrite polymod_step_next, next_small, lxor_add_small by lia. apply IH; [exact Fl|lia|nia].
Qed.

Lemma pack_app l l' c : pack (l ++ l') c = pack l' (pack l c).
Proof. apply fold_left_app. Qed.

Lemma pack_zero l : forall c, below 5 l -> 0 <= c -> pack l c = 0 -> l = repeat 0 (length l) /\ c = 0.
Proof.
  induction l as [|v l IH]; intros c F Hc H; [auto|]. inversion_clear F as [|? ? Hv Fl]. cbn [pack fold_left length repeat] in *.
  destruct (IH (32 * c + v) Fl ltac:(lia) H) as [E E0]. split; [|lia]. assert (v = 0) as -> by lia. now f_equal.
Qed.

(** No two value lists that differ only within six consecutive symbols have the
    same checksum. *)
Lemma polymod_burst pre mid mid' post : below 5 pre -> below 5 mid -> below 5 mid' -> below 5 post ->
  length mid = length mid' -> (length mid <= 6)%nat -> polymod (pre ++ mid ++ post) = polymod (pre ++ mid' ++ post) -> mid = mid'.
Proof.
  intros Fp Fm Fm' Fs L L6 H. unfold polymod in H. rewrite !fold_left_app in H. set (c := run pre 1) in H.
  assert (Hc : 0 <= c < 2 ^ 30) by (apply run_range; [exact Fp|lia]).
  apply (proj2 (Z.lxor_eq_0_iff _ _)) in H. rewrite run_xor, xors_same in H by (auto using run_range).
  apply run_zeros in H; [|apply lxor_below; [lia|apply run_range; assumption..]].
  rewrite run_xor, Z.lxor_nilpotent in H by assumption.
  assert (Lx : length (xors mid mid') = length mid) by (unfold xors; rewrite length_map, length_combine; lia).
  rewrite run_pack in H; [|now apply xors_below|lia|].
  - apply pack_zero in H as [H _]; [|now apply xors_below|lia]. rewrite Lx in H. now apply xors_zero.
  - rewrite Lx, Z.mul_1_l. apply Z.pow_le_mono_r; lia.
Qed.

(** ** The checksum letters *)

Definition digits6 (ck : Z) : list Z := map (fun i => Z.land (Z.shiftr ck (5 * (5 - i))) 31) [0; 1; 2; 3; 4; 5].

Lemma digits6_below ck : below 5 (digits6 ck).
Proof. apply Forall_map, Forall_forall. intros i _. exact (land_ones_below (Z.shiftr ck (5 * (5 - i))) 5 ltac:(lia)). Qed.

Fixpoint digits (n : nat) (ck : Z) : list Z := match n with O => [] | S n => digits n (ck / 32) ++ [ck mod 32] end.

Lemma digits6_eq ck : digits6 ck = digits 6 ck.
Proof.
  unfold digits6. cbn [digits map app]. change 31 with (Z.ones 5). rewrite !Z.land_ones, !Z.shiftr_div_pow2, !Z.div_div by lia.
  rewrite Z.div_1_r. reflexivity.
Qed.

Lemma pack_digits n : forall ck, 0 <= ck < 32 ^ Z.of_nat n -> pack (digits n ck) 0 = ck.
Proof.
  induction n as [|n IH]; intros ck H; [cbn in *; lia|]. cbn [digits]. rewrite pack_app. rewrite Nat2Z.inj_succ, Z.pow_succ_r in H by lia.
  rewrite IH; [cbn [pack fold_left]; dmlia|]. split; [apply Z.div_pos; lia|apply Z.div_lt_upper_bound; lia].
Qed.

Lemma pack_inj l : forall l' c c', length l = length l' -> below 5 l -> below 5 l' -> pack l c = pack l' c' -> l = l' /\ c = c'.
Proof.
  induction l as [|v l IH]; intros [|v' l'] c c' L F F' H; try discriminate L; [auto|].
  apply Forall_cons_iff in F as [Hv F], F' as [Hv' F']. injection L as L.
  destruct (IH l' (32 * c + v) (32 * c' + v') L F F' H) as [-> E]. split; [f_equal; lia|lia].
Qed.

Lemma pack_digits6 ck l : length l = 6%nat -> below 5 l -> 0 <= ck < 2 ^ 30 -> pack l 0 = ck <-> l = digits6 ck.
Proof.
  intros L F Hc. split; intros E.
  - apply (pack_inj l (digits6 ck) 0 0); [exact L|exact F|apply digits6_below|]. rewrite E, digits6_eq. symmetry. apply pack_digits. lia.
  - rewrite E, digits6_eq. apply pack_digits. lia.
Qed.

(** Exactly one checksum completes a value list. *)
Lemma polymod_completes vs ck : below 5 vs -> below 5 ck -> length ck = 6%nat ->
  polymod (vs ++ ck) = kBech32mConst <-> ck = digits6 (Z.lxor (polymod (vs ++ repeat 0 6)) kBech32mConst).
Proof.
  intros Fv Fc L. assert (F0 : below 5 (repeat 0 6)) by (repeat constructor; lia).
  assert (Hc : 0 <= run vs 1 < 2 ^ 30) by (apply run_range; [exact Fv|lia]). assert (K : 0 <= kBech32mConst < 2 ^ 30) by (unfold kBech32mConst; lia).
  assert (D : Z.lxor (polymod (vs ++ ck)) (polymod (vs ++ repeat 0 6)) = pack ck 0).
  { unfold polymod. rewrite !fold_left_app, run_xor, Z.lxor_nilpotent by (rewrite ?repeat_length; assumption).
    rewrite <- L, xors_zeros. apply run_pack; [exact Fc|lia|rewrite L; lia]. }
  assert (H0 : 0 <= polymod (vs ++ repeat 0 6) < 2 ^ 30) by (unfold polymod; rewrite fold_left_app; now apply run_range).
  rewrite <- pack_digits6, <- D by (try apply lxor_below; (assumption || lia)). split; intros E.
  - rewrite E. apply Z.lxor_comm.
  - rewrite Z.lxor_comm in E. apply (f_equal (Z.lxor (polymod (vs ++ repeat 0 6)))) in E. now rewrite <- !Z.lxor_assoc, Z.lxor_nilpotent, !Z.lxor_0_l in E.
Qed.

(** ** Letters *)

Lemma charset_letters : forallb (fun v => match strchr kCharset (letter (Z.of_nat v)) with Some u => (u =? Z.of_nat v) && negb (Byte.eqb (letter (Z.of_nat v)) (b8 0))
  && negb (Byte.eqb (letter (Z.of_nat v)) (b8 49)) | None => false end) (seq 0 32) = true.
Proof. vm_compute. reflexivity. Qed.

Lemma letter_spec v : 0 <= v < 2 ^ 5 -> strchr kCharset (letter v) = Some v /\ Byte.eqb (letter v) (b8 0) = false /\ letter v <> b8 49.
Proof.
  intros Hv. pose proof charset_letters as C. rewrite forallb_forall in C. specialize (C (Z.to_nat v)). rewrite in_seq, Z2Nat.id in C by lia.
  specialize (C ltac:(lia)). destruct (strchr kCharset (letter v)) as [u|]; [|discriminate]. bprop. subst u. split; [reflexivity|]. split; [assumption|].
  intros E. rewrite E in *. discriminate.
Qed.

Lemma strchr_spec s c : forall v, strchr s c = Some v -> 0 <= v < Z.of_nat (length s) /\ nth (Z.to_nat v) s (b8 0) = c.
Proof.
  induction s as [|x s IH]; cbn [strchr]; intros v H; [discriminate|]. destruct (Byte.eqb x c) eqn:E.
  - injection H as <-. apply byte_eqb_eq in E. cbn [length nth Z.to_nat]. split; [lia|exact E].
  - destruct (strchr s c) as [u|]; [|discriminate]. injection H as <-. destruct (IH u eq_refl) as [Hu Hn]. cbn [length]. split; [lia|].
    rewrite Z2Nat.inj_succ by lia. exact Hn.
Qed.

Lemma letters_iff s vs : letters s = Some vs <-> below 5 vs /\ s = map letter vs.
Proof.
  revert vs. induction s as [|c s IH]; intros vs; cbn [letters].
  - split; [intros [= <-]; split; [constructor|reflexivity]|]. intros [_ E]. destruct vs; [reflexivity|discriminate].
  - destruct (strchr kCharset c) as [v|] eqn:E.
    + apply strchr_spec in E as [Hv En]. change (letter v = c) in En. destruct (letter_spec v Hv) as (Es & E0 & _). rewrite En in E0. rewrite E0.
      destruct (letters s) as [us|] eqn:Eu; cbn [option_map].
      * destruct (proj1 (IH us) eq_refl) as [Fu ->]. split; [intros [= <-]; cbn [map]; rewrite En; split; [now constructor|reflexivity]|].
        intros [F E]. destruct vs as [|v' vs]; [discriminate|]. injection E as Ec E. apply Forall_cons_iff in F as [Hv' F].
        destruct (letter_spec v' Hv') as (Ev' & _). rewrite <- Ec, <- En, Es in Ev'. injection Ev' as ->.
        assert (Some us = Some vs) as [= ->] by (apply IH; auto). reflexivity.
      * split; [discriminate|]. intros [F E]. destruct vs as [|v' vs]; [discriminate|]. injection E as _ E. apply Forall_cons_iff in F as [_ F].
        discriminate (proj2 (IH vs) (conj F E)).
    + split; [discriminate|]. intros [F Ec]. destruct vs as [|v' vs]; [discriminate|]. injection Ec as Ec _. apply Forall_cons_iff in F as [Hv' _].
      destruct (letter_spec v' Hv') as (Ev' & _). congruence.
Qed.

Lemma in_split_last (c : Init.Byte.byte) s : In c s -> exists p q, s = p ++ c :: q /\ ~ In c q.
Proof.
  induction s as [|x s IH]; intros H; [destruct H|]. destruct (in_dec Byte.byte_eq_dec c s) as [Hs|Hs].
  - destruct (IH Hs) as (p & q & -> & N). exists (x :: p), q. auto.
  - destruct H as [->|H]; [exists [], s; auto|contradiction].
Qed.

Lemma rfind_iff c s pre post : rfind c s = Some (pre, post) <-> s = pre ++ c :: post /\ ~ In c post.
Proof.
  revert pre post. induction s as [|x s IH]; intros pre post; cbn [rfind].
  - split; [discriminate|]. intros [E _]. destruct pre; discriminate.
  - destruct (rfind c s) as [[p q]|] eqn:E.
    + destruct (proj1 (IH p q) eq_refl) as [-> N]. split; [intros [= <- <-]; auto|]. intros [H N'].
      destruct pre as [|y pre]; [injection H as -> <-; exfalso; apply N'; apply in_elt|]. injection H as -> H.
      assert (S : Some (p, q) = Some (pre, post)) by (apply IH; auto). injection S as -> ->. reflexivity.
    + assert (N : ~ In c s) by (intros H; apply in_split_last in H as (p & q & H); discriminate (proj2 (IH p q) H)).
      destruct (Byte.eqb x c) eqn:Ex.
      * apply byte_eqb_eq in Ex as ->. split; [intros [= <- <-]; auto|]. intros [H N'].
        destruct pre as [|y pre]; [injection H as ->; reflexivity|]. injection H as -> ->. exfalso. apply N, in_elt.
      * split; [discriminate|]. intros [H N']. exfalso. destruct pre as [|y pre]; injection H as -> ->.
        -- rewrite (proj2 (byte_eqb_eq c c) eq_refl) in Ex. discriminate.
        -- apply N, in_elt.
Qed.

Lemma expandHrp_below hrp : below 5 (expandHrp hrp).
Proof.
  unfold expandHrp. apply Forall_app. split; [|apply Forall_app; split; [repeat constructor; lia|]]; apply Forall_map, Forall_forall; intros x _.
  - pose proof (byte_range x). rewrite Z.shiftr_div_pow2 by lia. split; [apply Z.div_pos; lia|apply Z.div_lt_upper_bound; lia].
  - exact (land_ones_below (u8 x) 5 ltac:(lia)).
Qed.

Lemma letters_no_separator vs : below 5 vs -> ~ In (b8 49) (map letter vs).
Proof. intros F H. apply in_map_iff in H as (v & E & Hv). rewrite Forall_forall in F. now apply (letter_spec v (F v Hv)). Qed.

(** What is decoded: the prefix, the separator, and the letters of five-bit
    groups, the last six of which are the checksum. *)
Lemma decode_iff s hrp payload : decodeBech32m s hrp = Some payload <->
  hrp <> [] /\ exists data, below 5 data /\ convertBits 8 5 (map u8 payload) true = Some data /\
    s = hrp ++ b8 49 :: map letter (data ++ digits6 (Z.lxor (polymod (expandHrp hrp ++ data ++ repeat 0 6)) kBech32mConst)).
Proof.
  assert (Hm : forall p, map b8 (map u8 p) = p) by (intros p; rewrite map_map; induction p as [|x p IH]; cbn; [|rewrite b8_u8, IH]; reflexivity).
  unfold decodeBech32m. split.
  - destruct (rfind (b8 49) s) as [[pre post]|] eqn:R; [|discriminate]. apply rfind_iff in R as [-> N].
    destruct (_ || _) eqn:G; [discriminate|]. apply orb_false_iff in G as [G Gh]. apply orb_false_iff in G as [G0 G7].
    apply negb_false_iff, bytes_eqb_eq in Gh as ->. apply Nat.eqb_neq in G0. apply Nat.ltb_ge in G7. rewrite length_app in G7. cbn [length] in G7.
    destruct (letters post) as [vs|] eqn:L; [|discriminate]. apply letters_iff in L as [F ->]. rewrite length_map in G7.
    destruct (Z.eqb_spec (polymod (expandHrp hrp ++ vs)) kBech32mConst) as [P|]; cbn [negb]; [|discriminate].
    destruct (convertBits 5 8 _ false) as [out|] eqn:C; [|discriminate]. intros [= <-]. split; [now intros ->|].
    destruct (split_at (length vs - 6) vs) as (data & ck & -> & Ld & Lc); [lia|]. rewrite firstn_app_exact in C by exact Ld.
    apply Forall_app in F as [Fd Fc]. exists data. split; [exact Fd|]. rewrite app_assoc in P.
    apply polymod_completes in P as ->; [|apply Forall_app; split; [apply expandHrp_below|exact Fd]|exact Fc|lia].
    rewrite <- app_assoc. split; [|reflexivity]. apply regroup_iff; [exact Fd|]. rewrite C. f_equal.
    pose proof (convertBits_strict 5 8 ltac:(lia) ltac:(lia) data (below_nonneg 5 data Fd)) as S. cbv zeta in S. rewrite C in S.
    destruct S as (_ & Fo & _). rewrite map_map. clear - Fo. induction Fo as [|x out Hx Fo IH]; [reflexivity|]. cbn [map].
    rewrite u8_b8, <- IH by exact Hx. reflexivity.
  - intros (Hn & data & F & C & ->). set (ck := digits6 _). assert (Fc : below 5 ck) by apply digits6_below.
    assert (Fa : below 5 (data ++ ck)) by (apply Forall_app; auto). rewrite (proj2 (rfind_iff (b8 49) _ hrp (map letter (data ++ ck)))) by (split; [reflexivity|now apply letters_no_separator]).
    assert (Lc : length ck = 6%nat) by reflexivity.
    replace (_ || _) with false.
    2: { symmetry. rewrite bytes_eqb_refl, length_app. cbn [length negb]. rewrite length_map, length_app, Lc.
         rewrite !orb_false_iff. repeat split; [apply Nat.eqb_neq; destruct hrp; cbn; congruence|apply Nat.ltb_ge; lia]. }
    rewrite (proj2 (letters_iff _ (data ++ ck)) (conj Fa eq_refl)).
    replace (polymod (expandHrp hrp ++ data ++ ck)) with kBech32mConst.
    + rewrite Z.eqb_refl, length_app, Lc, Nat.add_sub, firstn_app_exact by reflexivity. cbn [negb].
      rewrite (proj2 (regroup_iff data payload F) C). cbn [option_map]. now rewrite Hm.
    + symmetry. rewrite app_assoc. apply polymod_completes; [apply Forall_app; split; [apply expandHrp_below|exact F]|exact Fc|exact Lc|].
      unfold ck. now rewrite <- app_assoc.
Qed.

(** Decoding accepts exactly what the encoder writes: for a non-empty prefix, a
    string decodes to a payload if and only if it is the encoding of that payload
    under that prefix. *)
Lemma bech32m_exact s hrp payload : decodeBech32m s hrp = Some payload <-> hrp <> [] /\ s = encodeBech32m hrp payload.
Proof.
  rewrite decode_iff. unfold encodeBech32m. destruct (to_groups payload) as (data & E & F). rewrite E.
  split; intros [Hn H]; (split; [exact Hn|]); (destruct hrp as [|c hrp]; [contradiction|]).
  - destruct H as (data' & _ & E' & ->). injection E' as <-. rewrite map_app. reflexivity.
  - exists data. split; [exact F|]. split; [reflexivity|]. rewrite H, map_app. reflexivity.
Qed.

Lemma decode_letters hrp s payload : decodeBech32m (hrp ++ b8 49 :: s) hrp = Some payload ->
  exists vs, below 5 vs /\ s = map letter vs /\ polymod (expandHrp hrp ++ vs) = kBech32mConst.
Proof.
  intros H. apply decode_iff in H as (_ & data & F & _ & E). apply app_inv_head in E. injection E as ->.
  eexists. split; [|split; [reflexivity|]]; [apply Forall_app; split; [exact F|apply digits6_below]|].
  rewrite app_assoc. apply polymod_completes; [apply Forall_app; split; [apply expandHrp_below|exact F]|apply digits6_below|reflexivity|].
  now rewrite <- app_assoc.
Qed.

Lemma burst_inert hrp a m m' b payload payload' : length m = length m' -> (length m <= 6)%nat ->
  decodeBech32m (hrp ++ b8 49 :: a ++ m ++ b) hrp = Some payload ->
  decodeBech32m (hrp ++ b8 49 :: a ++ m' ++ b) hrp = Some payload' -> m = m'.
Proof.
  intros L L6 H H'. apply decode_letters in H as (vs & F & E & P). apply decode_letters in H' as (vs' & F' & E' & P').
  apply eq_sym, map_eq_app in E as (va & v1 & -> & Ea & E). apply map_eq_app in E as (vm & vb & -> & Em & Eb).
  apply eq_sym, map_eq_app in E' as (va' & v1' & -> & Ea' & E'). apply map_eq_app in E' as (vm' & vb' & -> & Em' & Eb').
  assert (Inj : forall x y, below 5 x -> below 5 y -> map letter x = map letter y -> x = y).
  { intros x y Fx Fy Exy. pose proof (proj2 (letters_iff (map letter x) x) (conj Fx eq_refl)) as Sx.
    rewrite (proj2 (letters_iff (map letter x) y) (conj Fy Exy)) in Sx. now injection Sx. }
  apply Forall_app in F as [Fa F], F' as [Fa' F']. apply Forall_app in F as [Fm Fb], F' as [Fm' Fb'].
  assert (va' = va) as -> by (apply Inj; [assumption..|congruence]). assert (vb' = vb) as -> by (apply Inj; [assumption..|congruence]).
  assert (Lm : length vm = length vm') by (rewrite <- (length_map letter vm), <- (length_map letter vm'); congruence).
  rewrite <- Em, <- Em'. f_equal. apply (polymod_burst (expandHrp hrp ++ va) vm vm' vb); try assumption.
  - apply Forall_app. split; [apply expandHrp_below|exact Fa].
  - rewrite <- (length_map letter vm), Em. exact L6.
  - rewrite <- !app_assoc. congruence.
Qed.

(** C40: No corruption that stays within six consecutive characters after the
    separator goes unnoticed, however long the string: what decoded before is
    refused after it. *)
Theorem bech32m_burst hrp a m m' b payload : length m = length m' -> (length m <= 6)%nat -> m <> m' ->
  decodeBech32m (hrp ++ b8 49 :: a ++ m ++ b) hrp = Some payload -> decodeBech32m (hrp ++ b8 49 :: a ++ m' ++ b) hrp = None.
Proof.
  intros L L6 N H. destruct (decodeBech32m (hrp ++ b8 49 :: a ++ m' ++ b) hrp) as [p|] eqn:D; [|reflexivity].
  destruct N. exact (burst_inert hrp a m m' b payload p L L6 H D).
Qed.

(** Two letters swapped. *)
Lemma bech32m_burst_witness : encodeBech32m (str "tdisc") (str "abc") = str "tdisc1v93xxpts0rw" /\
  decodeBech32m (str "tdisc1v9x3xpts0rw") (str "tdisc") = None.
Proof.
  split; [vm_compute; reflexivity|].
  apply (bech32m_burst (str "tdisc") (str "v9") (str "3x") (str "x3") (str "xpts0rw") (str "abc")); [reflexivity|repeat constructor|discriminate|vm_compute; reflexivity].
Defined.
