(* ===== verification/PqAddress.v ===== *)
(** * Addresses

    Post-quantum addresses ([crypto_pq/PqAddress.cpp], [include/PqAddress.h]): the
    payload with its SHA3 checksum, its text form (the Bech32m of [Bech32], whose
    code the source repeats in this file), and the account fingerprint. SHA3 is a
    parameter. *)

From Stdlib Require Import ZArith String List Lia Bool.
From coqutil Require Import Byte Z.BitOps.
From S2P Require Import Prelude Varint PqHash Bech32.
Import ListNotations.
Open Scope string_scope.
Open Scope list_scope.
Open Scope Z_scope.
Open Scope discrete_scope.
Import Bech32.

Module PqAddress.

Definition kKemPublicKeyBytes : nat := 1184.
Definition kDsaPublicKeyBytes : nat := 1952.

Record PqAddress := mkPqAddress {
  a_version : Z;
  networkPrefix : Z;
  viewPub : bytes;
  spendPub : bytes;
  a_checksum : bytes
}.

Definition kPqBech32HrpMainnet : bytes := str "disc".
Definition kPqBech32HrpTestnet : bytes := str "tdisc".
Definition pqBech32Hrp (testnet : bool) : bytes := if testnet then kPqBech32HrpTestnet else kPqBech32HrpMainnet.

(** The helpers of this file are those of [PqBech32.cpp], except that the encoder
    does not refuse an empty prefix. *)
Definition extendedBech32mEncode (hrp payload : bytes) : bytes :=
  match convertBits 8 5 (map u8 payload) true with
  | None => []
  | Some data =>
      let checksum := Z.lxor (polymod (expandHrp hrp ++ data ++ repeat 0 6)) kBech32mConst in
      hrp ++ str "1" ++ map letter data ++ checksum_letters checksum
  end.
Definition extendedBech32mDecode : bytes -> bytes -> option bytes := decodeBech32m.

Definition checksumPreimage (addr : PqAddress) : bytes :=
  b8 (a_version addr) :: AddressVarint.writeVarint (networkPrefix addr) ++ viewPub addr ++ spendPub addr.
Definition addressPayload (addr : PqAddress) (chk : bytes) : bytes := checksumPreimage addr ++ chk.

Section Hashed.
Variable sha3_256 : bytes -> bytes.

Definition pqAddressChecksum (addr : PqAddress) : bytes := firstn 4 (sha3_256 (checksumPreimage addr)).

Definition parsePayload (p : bytes) : option PqAddress :=
  match p with
  | [] => None
  | v :: p =>
      match AddressVarint.readVarint p with
      | None => None
      | Some (prefix, rest) =>
          if negb (length rest =? kKemPublicKeyBytes + kDsaPublicKeyBytes + 4)%nat then None
          else
            let out := mkPqAddress (u8 v) prefix (firstn kKemPublicKeyBytes rest)
                         (firstn kDsaPublicKeyBytes (skipn kKemPublicKeyBytes rest))
                         (firstn 4 (skipn (kKemPublicKeyBytes + kDsaPublicKeyBytes) rest)) in
            if pqAddressChecksum out ==b a_checksum out then Some out else None
      end
  end.

Definition makePqAddress (networkPrefix : Z) (viewPub spendPub : bytes) : PqAddress :=
  let a := mkPqAddress 1 networkPrefix viewPub spendPub [] in
  mkPqAddress 1 networkPrefix viewPub spendPub (pqAddressChecksum a).

Definition encodePqAddress (addr : PqAddress) (hrp : bytes) : bytes :=
  extendedBech32mEncode hrp (addressPayload addr (pqAddressChecksum addr)).

(** Either network. *)
Definition decodePqAddress (s : bytes) : option PqAddress :=
  match extendedBech32mDecode s kPqBech32HrpMainnet with
  | Some payload => parsePayload payload
  | None =>
      match extendedBech32mDecode s kPqBech32HrpTestnet with
      | Some payload => parsePayload payload
      | None => None
      end
  end.
(** One network. *)
Definition decodePqAddress_network (s : bytes) (testnet : bool) : option PqAddress :=
  match extendedBech32mDecode s (pqBech32Hrp testnet) with
  | Some payload => parsePayload payload
  | None => None
  end.

Definition pqAccountFingerprint (testnet : bool) (spendPub viewPub : bytes) : Z :=
  let h := sha3_256 (str "DISCRETE-ACCT-FP-v1" ++ b8 (if testnet then 1 else 0) :: spendPub ++ viewPub) in
  let at_ i := u8 (nth i h (b8 0)) in
  Z.land (Z.lor (Z.lor (w32 (Z.shiftl (at_ 0%nat) 12)) (w32 (Z.shiftl (at_ 1%nat) 4))) (Z.shiftr (at_ 2%nat) 4)) 0xFFFFF.

End Hashed.
End PqAddress.
Import PqAddress.

(** The address type: what the arrays of the source hold by their types. *)
Definition wf_address (a : PqAddress) : Prop :=
  in_w 8 (a_version a) /\ in_w 64 (networkPrefix a) /\ length (viewPub a) = kKemPublicKeyBytes /\ length (spendPub a) = kDsaPublicKeyBytes.
Definition with_checksum (a : PqAddress) (chk : bytes) : PqAddress :=
  mkPqAddress (a_version a) (networkPrefix a) (viewPub a) (spendPub a) chk.

Lemma lor_below n a b : 0 <= n -> 0 <= a < 2 ^ n -> 0 <= b < 2 ^ n -> 0 <= Z.lor a b < 2 ^ n.
Proof.
  intros Hn Ha Hb. apply below_by_bits; [exact Hn|apply Z.lor_nonneg; lia|].
  intros i Hi. now rewrite Z.lor_spec, (testbit_high a n i), (testbit_high b n i).
Qed.

Lemma readVarint_prefix s : forall shift v x r, in_w 64 v -> AddressVarint.readVarint_loop shift v s = Some (x, r) ->
  in_w 64 x /\ exists pre, s = pre ++ r /\ forall r', AddressVarint.readVarint_loop shift v (pre ++ r') = Some (x, r').
Proof.
  induction s as [|b s IH]; intros shift v x r Hv H; cbn [AddressVarint.readVarint_loop] in H; [discriminate|].
  destruct (63 <? shift) eqn:Es; [discriminate|]. set (v1 := Z.lor v _) in H.
  assert (Hv1 : in_w 64 v1) by (apply lor_below; [lia|exact Hv|apply wrap_range; lia]).
  destruct (Z.land (u8 b) 0x80 =? 0) eqn:Eb.
  - injection H as <- <-. split; [exact Hv1|]. exists [b]. split; [reflexivity|]. intros r'. cbn [app AddressVarint.readVarint_loop]. rewrite Es, Eb. reflexivity.
  - destruct (IH _ _ x r Hv1 H) as (Hx & pre & -> & P). split; [exact Hx|]. exists (b :: pre). split; [reflexivity|].
    intros r'. cbn [app AddressVarint.readVarint_loop]. rewrite Es, Eb. apply P.
Qed.

Lemma extended_encode hrp payload : hrp <> [] -> extendedBech32mEncode hrp payload = encodeBech32m hrp payload.
Proof. destruct hrp; [contradiction|reflexivity]. Qed.

Lemma hrp_nonempty t : pqBech32Hrp t <> [].
Proof. destruct t; discriminate. Qed.

Lemma extended_exact s t payload :
  extendedBech32mDecode s (pqBech32Hrp t) = Some payload <-> s = extendedBech32mEncode (pqBech32Hrp t) payload.
Proof.
  unfold extendedBech32mDecode. rewrite bech32m_exact, extended_encode by apply hrp_nonempty.
  split; [tauto|]. intros H. split; [apply hrp_nonempty|exact H].
Qed.

(** The prefix is bound to the text: what one network writes the other refuses. *)
Lemma other_network t payload : extendedBech32mDecode (extendedBech32mEncode (pqBech32Hrp t) payload) (pqBech32Hrp (negb t)) = None.
Proof.
  destruct (extendedBech32mDecode _ _) as [p|] eqn:E; [|reflexivity]. apply decode_iff in E as (_ & data & F & _ & E).
  unfold extendedBech32mEncode in E. destruct (to_groups payload) as (data' & E' & _). rewrite E' in E.
  destruct t; apply (f_equal (fun s => nth 0 s (b8 0))) in E; discriminate E.
Qed.

Section Roundtrip.
Variable sha3_256 : bytes -> bytes.
Hypothesis sha3_256_size : forall m, length (sha3_256 m) = 32%nat.

Abbreviation pqAddressChecksum := (pqAddressChecksum sha3_256).
Abbreviation parsePayload := (parsePayload sha3_256).
Abbreviation encodePqAddress := (encodePqAddress sha3_256).
Abbreviation decodePqAddress := (decodePqAddress sha3_256).
Abbreviation decodePqAddress_network := (decodePqAddress_network sha3_256).

Lemma checksum_size a : length (pqAddressChecksum a) = 4%nat.
Proof. unfold PqAddress.pqAddressChecksum. rewrite length_firstn, sha3_256_size. reflexivity. Qed.

(** What the payload parser accepts, however its prefix is written. *)
Lemma parsePayload_iff p a : parsePayload p = Some a <->
  wf_address a /\ a_checksum a = pqAddressChecksum a /\
  exists prefix, p = b8 (a_version a) :: prefix ++ viewPub a ++ spendPub a ++ a_checksum a /\
    forall r, AddressVarint.readVarint (prefix ++ r) = Some (networkPrefix a, r).
Proof.
  unfold PqAddress.parsePayload. split.
  - destruct p as [|v p]; [discriminate|]. unfold AddressVarint.readVarint.
    destruct (AddressVarint.readVarint_loop 0 0 p) as [[x rest]|] eqn:R; [|discriminate].
    destruct (readVarint_prefix p 0 0 x rest ltac:(unfold in_w; lia) R) as (Hx & pre & -> & P).
    destruct (Nat.eqb_spec (length rest) (kKemPublicKeyBytes + kDsaPublicKeyBytes + 4)) as [L|]; cbn [negb]; [|discriminate].
    set (out := mkPqAddress _ _ _ _ _). destruct (pqAddressChecksum out ==b a_checksum out) eqn:E; [|discriminate]. intros [= <-].
    apply bytes_eqb_eq in E. unfold kKemPublicKeyBytes, kDsaPublicKeyBytes in *. split; [|split; [now symmetry|]].
    + unfold wf_address, out, kKemPublicKeyBytes, kDsaPublicKeyBytes. cbn [a_version networkPrefix viewPub spendPub].
      rewrite !length_firstn, length_skipn. split; [apply byte_range|]. split; [exact Hx|]. split; lia.
    + exists pre. split; [|exact P]. unfold out. cbn [a_version networkPrefix viewPub spendPub a_checksum]. rewrite b8_u8. do 2 f_equal.
      rewrite <- (firstn_skipn 1184 rest) at 1. f_equal. rewrite <- (firstn_skipn 1952 (skipn 1184 rest)) at 1. f_equal.
      rewrite skipn_skipn. change (1952 + 1184)%nat with (1184 + 1952)%nat. rewrite firstn_all2; [reflexivity|]. rewrite length_skipn. lia.
  - intros ((Hv & Hn & Lv & Ls) & Hc & pre & -> & P). rewrite P. pose proof (checksum_size a) as Lc. rewrite <- Hc in Lc.
    rewrite !length_app, Lv, Ls, Lc. change (kKemPublicKeyBytes + (kDsaPublicKeyBytes + 4) =? kKemPublicKeyBytes + kDsaPublicKeyBytes + 4)%nat with true.
    cbn [negb]. rewrite firstn_app_exact by exact Lv. rewrite (skipn_app_exact (viewPub a)) by exact Lv. rewrite firstn_app_exact by exact Ls.
    rewrite app_assoc, skipn_app_exact by (rewrite length_app, Lv, Ls; reflexivity). rewrite firstn_all2 by (rewrite Lc; lia).
    rewrite u8_b8 by exact Hv. destruct a as [ver np vp sp ck]. cbn [a_version networkPrefix viewPub spendPub a_checksum] in *.
    rewrite Hc at 1. unfold PqAddress.pqAddressChecksum, checksumPreimage. cbn [a_version networkPrefix viewPub spendPub]. now rewrite Hc, bytes_eqb_refl.
Qed.

Lemma payload_parsed a : wf_address a ->
  parsePayload (addressPayload a (pqAddressChecksum a)) = Some (with_checksum a (pqAddressChecksum a)).
Proof.
  intros W. apply parsePayload_iff. split; [exact W|]. split; [reflexivity|].
  exists (AddressVarint.writeVarint (networkPrefix a)). split.
  - unfold addressPayload, checksumPreimage. cbn [a_version networkPrefix viewPub spendPub a_checksum with_checksum app]. now rewrite <- !app_assoc.
  - intros r. apply address_readVarint_writeVarint, W.
Qed.

(** What a decoded address is, and how it may have been written. *)
Lemma decoded_iff s t a : decodePqAddress_network s t = Some a <->
  wf_address a /\ a_checksum a = pqAddressChecksum a /\
  exists prefix, (forall r, AddressVarint.readVarint (prefix ++ r) = Some (networkPrefix a, r)) /\
    s = extendedBech32mEncode (pqBech32Hrp t) (b8 (a_version a) :: prefix ++ viewPub a ++ spendPub a ++ a_checksum a).
Proof.
  unfold PqAddress.decodePqAddress_network. split.
  - destruct (extendedBech32mDecode s (pqBech32Hrp t)) as [p|] eqn:E; [|discriminate]. apply extended_exact in E as ->. intros H.
    apply parsePayload_iff in H as (W & C & pre & -> & P). eauto 8.
  - intros (W & C & pre & P & ->). rewrite (proj2 (extended_exact _ t _) eq_refl). apply parsePayload_iff. eauto 6.
Qed.

(** An address survives encoding and decoding, with its checksum filled in, for
    its own network and for the decoder of either network; the decoder of the other
    network refuses it. Conversely every string a network's decoder accepts gives a
    well-formed address with a right checksum, which encodes to a string that
    decodes to the same address. *)
Theorem address_roundtrip t :
  (forall a, wf_address a -> let a' := with_checksum a (pqAddressChecksum a) in
    decodePqAddress_network (encodePqAddress a (pqBech32Hrp t)) t = Some a' /\
    decodePqAddress (encodePqAddress a (pqBech32Hrp t)) = Some a' /\
    decodePqAddress_network (encodePqAddress a (pqBech32Hrp t)) (negb t) = None) /\
  (forall s a, decodePqAddress_network s t = Some a -> wf_address a /\ a_checksum a = pqAddressChecksum a /\
    decodePqAddress_network (encodePqAddress a (pqBech32Hrp t)) t = Some a).
Proof.
  assert (R : forall a, wf_address a ->
    decodePqAddress_network (encodePqAddress a (pqBech32Hrp t)) t = Some (with_checksum a (pqAddressChecksum a))).
  { intros a W. unfold PqAddress.decodePqAddress_network, PqAddress.encodePqAddress. rewrite (proj2 (extended_exact _ t _) eq_refl). now apply payload_parsed. }
  split.
  - intros a W a'. split; [now apply R|]. pose proof (R a W) as H. unfold PqAddress.decodePqAddress_network, PqAddress.decodePqAddress in *.
    pose proof (other_network t (addressPayload a (pqAddressChecksum a))) as O. fold (encodePqAddress a (pqBech32Hrp t)) in O. rewrite O.
    split; [|reflexivity]. destruct t; cbn [pqBech32Hrp negb] in *; [now rewrite O|].
    destruct (extendedBech32mDecode _ kPqBech32HrpMainnet); [exact H|discriminate H].
  - intros s a H. apply decoded_iff in H as (W & C & _). split; [exact W|]. split; [exact C|].
    rewrite (R a W), <- C. now destruct a.
Qed.

(** The parser does not insist on the shortest form of the network prefix, so an
    address has more than one text. *)
Theorem address_aliases a t : wf_address a -> networkPrefix a < 128 -> exists s,
  s <> encodePqAddress a (pqBech32Hrp t) /\ decodePqAddress_network s t = decodePqAddress_network (encodePqAddress a (pqBech32Hrp t)) t.
Proof.
  intros W Hn. pose proof W as (_ & Hp & _). unfold in_w in Hp. set (ck := pqAddressChecksum a).
  set (long := [b8 (networkPrefix a + 128); b8 0]).
  exists (extendedBech32mEncode (pqBech32Hrp t) (b8 (a_version a) :: long ++ viewPub a ++ spendPub a ++ ck)).
  assert (L : forall r, AddressVarint.readVarint (long ++ r) = Some (networkPrefix a, r)).
  { intros r. unfold long, AddressVarint.readVarint. cbn [app AddressVarint.readVarint_loop]. rewrite !u8_b8 by lia.
    rewrite land_127. replace (Z.land (networkPrefix a + 128) 0x80 =? 0) with false.
    - change (63 <? 0) with false. change (63 <? 0 + 7) with false. change (Z.land 0 0x80 =? 0) with true. cbn [negb]. do 2 f_equal.
      rewrite Z.land_0_l, Z.shiftl_0_l, Z.shiftl_0_r, Z.lor_0_l, Z.lor_0_r, wrap_small; [dmlia|]. unfold in_w. dmlia.
    - symmetry. pose proof (land_128 (b8 (networkPrefix a + 128))) as H. rewrite u8_b8 in H by lia. rewrite H. apply Z.ltb_ge. lia. }
  split.
  - intros E. apply extended_exact in E. unfold PqAddress.encodePqAddress in E. rewrite (proj2 (extended_exact _ t _) eq_refl) in E.
    injection E as E. unfold addressPayload, checksumPreimage in E. rewrite address_writeVarint_eq, writeVarint_small in E by lia.
    apply (f_equal (@length _)) in E. unfold long in E. rewrite !length_app in E. cbn [length] in E. rewrite !length_app in E. unfold ck in E. lia.
  - unfold PqAddress.encodePqAddress. unfold PqAddress.decodePqAddress_network. rewrite !(proj2 (extended_exact _ t _) eq_refl), payload_parsed by exact W.
    apply parsePayload_iff. split; [exact W|]. split; [reflexivity|]. exists long. auto.
Qed.

End Roundtrip.

Definition sample_address : PqAddress := mkPqAddress 1 87 (repeat (b8 3) 1184) (repeat (b8 4) 1952) [].

Lemma address_roundtrip_witness :
  let a' := with_checksum sample_address (pqAddressChecksum sample_sha3 sample_address) in
  decodePqAddress_network sample_sha3 (encodePqAddress sample_sha3 sample_address (pqBech32Hrp true)) true = Some a' /\
  decodePqAddress sample_sha3 (encodePqAddress sample_sha3 sample_address (pqBech32Hrp true)) = Some a' /\
  decodePqAddress_network sample_sha3 (encodePqAddress sample_sha3 sample_address (pqBech32Hrp true)) false = None.
Proof.
  apply (address_roundtrip sample_sha3 sample_sha3_size true).
  split; [split; [discriminate|reflexivity]|]. split; [split; [discriminate|reflexivity]|]. split; reflexivity.
Defined.
