(* ===== verification/AccountNumber.v ===== *)
(** * Account numbers

    The short human-readable names of registered accounts ([include/AccountNumber.h]):
    [H-I-A-C] for an account and [H-I-A-T-C] for one of its deposit routes, with a
    twenty-bit fingerprint [A] in Crockford's base 32 and a Luhn check symbol [C].

    [account_roundtrip]: what is printed is read back, and the two forms are never
    taken for each other; [account_typo] and [account_swap]: which slips of the
    keyboard the check symbol catches. *)

From Stdlib Require Import ZArith String List Lia Bool.
From coqutil Require Import Byte Z.BitOps.
From S2P Require Import Prelude Bech32.
Import ListNotations.
Open Scope string_scope.
Open Scope list_scope.
Open Scope Z_scope.
Open Scope discrete_scope.

Module AccountNumber.

Record AccountNumber := mkAccountNumber { blockHeight : Z; txIndex : Z }.

Definition toUint64 (n : AccountNumber) : Z := Z.lor (w64 (Z.shiftl (blockHeight n) 32)) (txIndex n).
Definition fromUint64 (packed : Z) : AccountNumber := mkAccountNumber (w32 (Z.shiftr packed 32)) (w32 (Z.land packed 0xFFFFFFFF)).

Definition crockford : bytes := str "0123456789ABCDEFGHJKMNPQRSTVWXYZ".
Definition symbol (v : Z) : Init.Byte.byte := nth (Z.to_nat v) crockford (b8 0).

(** [std::toupper] in the C locale. *)
Definition toupper (c : Z) : Z := if (97 <=? c) && (c <=? 122) then c - 32 else c.

(** [None] is the result [-1]. *)
Definition crockfordVal (ch : Init.Byte.byte) : option Z :=
  let c := u8 ch in
  if (48 <=? c) && (c <=? 57) then Some (c - 48)
  else
    let u := toupper c in
    if u =? 79 then Some 0
    else if (u =? 73) || (u =? 76) then Some 1
    else match Bech32.strchr crockford (b8 u) with
         | Some p => if negb (u =? 0) then Some p else None
         | None => None
         end.

(** The loop over the symbols, last one first; [None] is the early [return '?']. *)
Fixpoint luhn_loop (symbols : bytes) (doubleFlag : bool) (sum : Z) : option Z :=
  match symbols with
  | [] => Some sum
  | s :: symbols =>
      match crockfordVal s with
      | None => None
      | Some codePoint =>
          let codePoint :=
            if doubleFlag then
              let codePoint := codePoint * 2 in
              if 32 <=? codePoint then codePoint / 32 + codePoint mod 32 else codePoint
            else codePoint in
          luhn_loop symbols (negb doubleFlag) (sum + codePoint)
      end
  end.
Definition luhn32Generate (symbols : bytes) : Init.Byte.byte :=
  match luhn_loop (rev symbols) true 0 with
  | None => b8 63
  | Some sum => symbol ((32 - sum mod 32) mod 32)
  end.

(** Four symbols, filled from the last. *)
Fixpoint fingerprint_loop (n : nat) (fp20 : Z) : bytes :=
  match n with
  | O => []
  | S n => fingerprint_loop n (Z.shiftr fp20 5) ++ [symbol (Z.land fp20 31)]
  end.
Definition encodeFingerprint (fp20 : Z) : bytes := fingerprint_loop 4 (Z.land fp20 0xFFFFF).

Fixpoint decode_loop (s : bytes) (v : Z) : option Z :=
  match s with
  | [] => Some v
  | ch :: s =>
      match crockfordVal ch with
      | None => None
      | Some cv => decode_loop s (Z.lor (w32 (Z.shiftl v 5)) cv)
      end
  end.
Definition decodeFingerprint (s : bytes) : option Z :=
  if negb (length s =? 4)%nat then None
  else match decode_loop s 0 with Some v => Some (Z.land v 0xFFFFF) | None => None end.

(** [std::to_string] of a number below [2 ^ 64]. *)
Fixpoint to_string_loop (fuel : nat) (v : Z) : bytes :=
  match fuel with
  | O => []
  | S fuel => (if v <? 10 then [] else to_string_loop fuel (v / 10)) ++ [b8 (48 + v mod 10)]
  end.
Definition to_string (v : Z) : bytes := to_string_loop 20 v.

Definition dash : Init.Byte.byte := b8 45.

Definition toString (n : AccountNumber) (fingerprint : Z) : bytes :=
  let h := to_string (blockHeight n) in
  let i := to_string (txIndex n) in
  let a := encodeFingerprint fingerprint in
  h ++ dash :: i ++ dash :: a ++ dash :: [luhn32Generate (h ++ i ++ a)].
Definition toStringWithIndex (n : AccountNumber) (subaddrIndex fingerprint : Z) : bytes :=
  let h := to_string (blockHeight n) in
  let i := to_string (txIndex n) in
  let a := encodeFingerprint fingerprint in
  let t := to_string subaddrIndex in
  h ++ dash :: i ++ dash :: a ++ dash :: t ++ dash :: [luhn32Generate (h ++ i ++ a ++ t)].

(** The loop of [splitFields]: [cur] is the field being read. *)
Fixpoint split_loop (count : nat) (cur : bytes) (s : bytes) : option (list bytes) :=
  match s with
  | [] => if (5 <=? count)%nat then None else Some [cur]
  | c :: s =>
      if Byte.eqb c dash then
        if (5 <=? count)%nat then None else option_map (cons cur) (split_loop (S count) [] s)
      else split_loop count (cur ++ [c]) s
  end.

Definition is_digit (c : Init.Byte.byte) : bool := negb ((u8 c <? 48) || (57 <? u8 c)).
Definition decimal (s : bytes) : Z := fold_left (fun v c => 10 * v + (u8 c - 48)) s 0.
Definition parseU32Decimal (s : bytes) : option Z :=
  if (length s =? 0)%nat then None
  else if negb (forallb is_digit s) then None
  else
    let v := decimal s in
    if 2 ^ 64 <=? v then None  (* [std::stoull] throws *)
    else if 2 ^ 32 - 1 <? v then None
    else Some v.

(** [finalize]: the number, its fingerprint and, when there is a [T] field, the
    route. *)
Definition finalize (hStr iStr aStr cStr : bytes) (tStr : option bytes) : option (AccountNumber * Z * Z) :=
  match cStr with
  | [ch] =>
      match parseU32Decimal hStr, parseU32Decimal iStr with
      | Some h, Some i =>
          match (match tStr with None => Some 0 | Some t => parseU32Decimal t end) with
          | None => None
          | Some t =>
              match decodeFingerprint aStr with
              | None => None
              | Some fp =>
                  let aCanon := encodeFingerprint fp in
                  let payload := match tStr with Some t => hStr ++ iStr ++ aCanon ++ t | None => hStr ++ iStr ++ aCanon end in
                  let expected := luhn32Generate payload in
                  match crockfordVal ch with
                  | None => None
                  | Some actual =>
                      if negb (Byte.eqb (symbol actual) expected) then None
                      else Some (mkAccountNumber h i, fp, t)
                  end
              end
          end
      | _, _ => None
      end
  | _ => None
  end.

Definition fromString (s : bytes) : option (AccountNumber * Z) :=
  match split_loop 0 [] s with
  | Some [h; i; a; c] => match finalize h i a c None with Some (n, fp, _) => Some (n, fp) | None => None end
  | _ => None
  end.
Definition fromStringWithIndex (s : bytes) : option (AccountNumber * Z * Z) :=
  match split_loop 0 [] s with
  | Some [h; i; a; t; c] => finalize h i a c (Some t)
  | _ => None
  end.
Definition namesDepositRoute (destination : bytes) : bool :=
  match fromStringWithIndex destination with Some _ => true | None => false end.

End AccountNumber.
Import AccountNumber.

(** ** Symbols *)

Definition all_bytes : bytes := map (fun i => b8 (Z.of_nat i)) (seq 0 256).

Lemma every_byte (P : Init.Byte.byte -> bool) : forallb P all_bytes = true -> forall c, P c = true.
Proof.
  intros H c. rewrite forallb_forall in H. apply H. unfold all_bytes. apply in_map_iff. exists (Z.to_nat (u8 c)).
  pose proof (byte_range c). rewrite Z2Nat.id, b8_u8, in_seq by lia. split; [reflexivity|lia].
Qed.

Lemma val_range c v : crockfordVal c = Some v -> 0 <= v < 2 ^ 5.
Proof.
  assert (H : match crockfordVal c with Some v => (0 <=? v) && (v <? 32) | None => true end = true)
    by (revert c; apply every_byte; vm_compute; reflexivity).
  intros E. rewrite E in H. bprop. lia.
Qed.

Lemma symbol_val v : 0 <= v < 2 ^ 5 -> crockfordVal (symbol v) = Some v.
Proof.
  intros Hv. assert (H : forallb (fun i => match crockfordVal (symbol (Z.of_nat i)) with Some u => u =? Z.of_nat i | None => false end) (seq 0 32) = true)
    by (vm_compute; reflexivity).
  rewrite forallb_forall in H. specialize (H (Z.to_nat v)). rewrite in_seq, Z2Nat.id in H by lia. specialize (H ltac:(lia)).
  destruct (crockfordVal (symbol v)); [|discriminate]. bprop. now subst.
Qed.

Lemma symbol_inj v u : 0 <= v < 2 ^ 5 -> 0 <= u < 2 ^ 5 -> symbol v = symbol u -> v = u.
Proof. intros Hv Hu E. apply (f_equal crockfordVal) in E. rewrite !symbol_val in E by assumption. now injection E. Qed.

Lemma dash_no_value : crockfordVal dash = None.
Proof. vm_compute. reflexivity. Qed.

Fixpoint vals (s : bytes) : option (list Z) :=
  match s with
  | [] => Some []
  | c :: s => match crockfordVal c, vals s with Some v, Some vs => Some (v :: vs) | _, _ => None end
  end.

Lemma vals_app s t : vals (s ++ t) = match vals s, vals t with Some a, Some b => Some (a ++ b) | _, _ => None end.
Proof.
  induction s as [|c s IH]; cbn [vals app]; [destruct (vals t); reflexivity|]. rewrite IH.
  destruct (crockfordVal c), (vals s), (vals t); reflexivity.
Qed.

Lemma vals_below s vs : vals s = Some vs -> below 5 vs.
Proof.
  revert vs. induction s as [|c s IH]; intros vs H; cbn [vals] in H; [injection H as <-; constructor|].
  destruct (crockfordVal c) as [v|] eqn:E; [|discriminate]. destruct (vals s) as [us|]; [|discriminate]. injection H as <-.
  constructor; [exact (val_range c v E)|now apply IH].
Qed.

Lemma vals_symbols vs : below 5 vs -> vals (map symbol vs) = Some vs.
Proof. induction 1 as [|v vs Hv F IH]; [reflexivity|]. cbn [vals map]. now rewrite symbol_val, IH. Qed.

Lemma vals_rev s : vals (rev s) = option_map (@rev Z) (vals s).
Proof.
  induction s as [|c s IH]; [reflexivity|]. cbn [rev vals]. rewrite vals_app, IH. cbn [vals].
  destruct (crockfordVal c), (vals s); reflexivity.
Qed.

(** ** The check symbol *)

Definition doubled (v : Z) : Z := if 32 <=? v * 2 then v * 2 / 32 + (v * 2) mod 32 else v * 2.
Definition weigh (d : bool) (v : Z) : Z := if d then doubled v else v.
(** The weighted sum of a list of values, last symbol first. *)
Fixpoint lsum (d : bool) (vs : list Z) : Z :=
  match vs with [] => 0 | v :: vs => weigh d v + lsum (negb d) vs end.

Lemma doubled_spec v : 0 <= v < 32 -> doubled v = if v <? 16 then 2 * v else 2 * v - 31.
Proof.
  intros Hv. unfold doubled. destruct (Z.leb_spec 32 (v * 2)), (Z.ltb_spec v 16); try lia. dmlia.
Qed.

Lemma luhn_loop_sum s : forall d sum, luhn_loop s d sum = option_map (fun vs => sum + lsum d vs) (vals s).
Proof.
  induction s as [|c s IH]; intros d sum; cbn [luhn_loop vals]; [cbn; f_equal; lia|].
  destruct (crockfordVal c) as [v|]; [|reflexivity]. rewrite IH. destruct (vals s) as [vs|]; [|reflexivity]. cbn [option_map lsum].
  f_equal. unfold weigh, doubled. destruct d; lia.
Qed.

Lemma lsum_app l : forall d l', lsum d (l ++ l') = lsum d l + lsum (xorb d (Nat.odd (length l))) l'.
Proof.
  induction l as [|v l IH]; intros d l'; [cbn; now rewrite xorb_false_r|]. cbn [app lsum length]. rewrite IH, Nat.odd_succ, <- Nat.negb_odd.
  replace (xorb (negb d) (Nat.odd (length l))) with (xorb d (negb (Nat.odd (length l)))) by (destruct d, (Nat.odd (length l)); reflexivity). lia.
Qed.

Lemma luhn_generate s vs : vals s = Some vs -> luhn32Generate s = symbol ((32 - lsum true (rev vs) mod 32) mod 32).
Proof. intros H. unfold luhn32Generate. rewrite luhn_loop_sum, vals_rev, H. reflexivity. Qed.

(** A check symbol is right exactly when the whole weighted sum vanishes. *)
Lemma luhn_check s vs v : vals s = Some vs -> 0 <= v < 2 ^ 5 -> symbol v = luhn32Generate s <-> lsum false (rev (vs ++ [v])) mod 32 = 0.
Proof.
  intros E Hv. rewrite (luhn_generate s vs E), rev_app_distr. cbn [rev app lsum weigh negb]. set (x := lsum true (rev vs)).
  assert (R : 0 <= (32 - x mod 32) mod 32 < 2 ^ 5) by (apply Z.mod_pos_bound; lia). split; intros H.
  - apply symbol_inj in H; [|assumption..]. subst v. clearbody x. clear. dmlia.
  - f_equal. clearbody x. clear - Hv H. dmlia.
Qed.

Lemma weigh_inj d u v : 0 <= u < 2 ^ 5 -> 0 <= v < 2 ^ 5 -> (weigh d u - weigh d v) mod 32 = 0 -> u = v.
Proof.
  intros Hu Hv H. destruct d; cbn [weigh] in H; [|dmlia]. rewrite !doubled_spec in H by lia.
  destruct (Z.ltb_spec u 16), (Z.ltb_spec v 16); dmlia.
Qed.

Lemma lsum_middle vp v vq : lsum false (rev (vp ++ v :: vq)) =
  lsum false (rev vq) + weigh (Nat.odd (length vq)) v + lsum (negb (Nat.odd (length vq))) (rev vp).
Proof.
  rewrite rev_app_distr. cbn [rev]. rewrite <- app_assoc, lsum_app, length_rev. cbn [app lsum]. rewrite xorb_false_l. lia.
Qed.

Lemma luhn_substitution vp u v vq : 0 <= u < 2 ^ 5 -> 0 <= v < 2 ^ 5 ->
  lsum false (rev (vp ++ u :: vq)) mod 32 = 0 -> lsum false (rev (vp ++ v :: vq)) mod 32 = 0 -> u = v.
Proof.
  intros Hu Hv A B. rewrite lsum_middle in A, B. apply (weigh_inj (Nat.odd (length vq))); [assumption..|].
  set (x := lsum false _) in *. set (y := lsum _ (rev vp)) in *. set (a := weigh _ u) in *. set (b := weigh _ v) in *.
  clearbody x y a b. clear - A B. dmlia.
Qed.

Lemma luhn_transposition vp u v vq : 0 <= u < 2 ^ 5 -> 0 <= v < 2 ^ 5 ->
  lsum false (rev (vp ++ u :: v :: vq)) mod 32 = 0 -> lsum false (rev (vp ++ v :: u :: vq)) mod 32 = 0 ->
  u = v \/ (u = 0 /\ v = 31) \/ (u = 31 /\ v = 0).
Proof.
  intros Hu Hv A B. rewrite lsum_middle in A, B. change (v :: vq) with ([v] ++ vq) in A. change (u :: vq) with ([u] ++ vq) in B.
  rewrite rev_app_distr, lsum_app, length_app, length_rev in A, B. cbn [length rev app lsum Nat.add] in A, B. rewrite xorb_false_l, Nat.odd_succ, <- Nat.negb_odd in A, B.
  set (x := lsum false _) in *. set (y := lsum _ (rev vp)) in *. clearbody x y.
  assert (D : (weigh true u + weigh false v - weigh true v - weigh false u) mod 32 = 0)
    by (destruct (Nat.odd (length vq)); cbn [weigh negb] in *; set (p := doubled u) in *; set (q := doubled v) in *; clearbody p q; clear - A B; dmlia).
  clear - Hu Hv D. cbn [weigh] in D. rewrite !doubled_spec in D by lia. destruct (Z.ltb_spec u 16), (Z.ltb_spec v 16); dmlia.
Qed.

(** ** Fields *)

Fixpoint join (fields : list bytes) : bytes :=
  match fields with
  | [] => []
  | [f] => f
  | f :: fields => f ++ dash :: join fields
  end.
Definition plain (f : bytes) : Prop := ~ In dash f.
Definition strip (s : bytes) : bytes := filter (fun c => negb (Byte.eqb c dash)) s.

Lemma join_cons f fs : fs <> [] -> join (f :: fs) = f ++ dash :: join fs.
Proof. now destruct fs. Qed.

Lemma dash_eqb c : Byte.eqb c dash = true <-> c = dash.
Proof. apply byte_eqb_eq. Qed.

Lemma split_loop_sound s : forall count cur fs, plain cur -> split_loop count cur s = Some fs ->
  fs <> [] /\ cur ++ s = join fs /\ Forall plain fs.
Proof.
  induction s as [|c s IH]; intros count cur fs Hc H; cbn [split_loop] in H.
  - destruct (5 <=? count)%nat; [discriminate|]. injection H as <-. rewrite app_nil_r. split; [discriminate|]. split; [reflexivity|]. now constructor.
  - destruct (Byte.eqb c dash) eqn:E.
    + destruct (5 <=? count)%nat; [discriminate|]. destruct (split_loop (S count) [] s) as [gs|] eqn:G; [|discriminate]. injection H as <-.
      apply dash_eqb in E as ->. destruct (IH (S count) [] gs (@in_nil _ _) G) as (Hn & J & F). split; [discriminate|].
      rewrite join_cons, <- J by exact Hn. split; [reflexivity|now constructor].
    + replace (cur ++ c :: s) with ((cur ++ [c]) ++ s) by now rewrite <- app_assoc. apply (IH count); [|exact H].
      intros I. apply in_app_iff in I as [I|[->|[]]]; [auto|]. rewrite (proj2 (dash_eqb dash) eq_refl) in E. discriminate.
Qed.

Lemma split_loop_plain f : plain f -> forall count cur s, split_loop count cur (f ++ s) = split_loop count (cur ++ f) s.
Proof.
  induction f as [|c f IH]; intros P count cur s; [now rewrite app_nil_r|]. cbn [app split_loop].
  destruct (Byte.eqb c dash) eqn:E; [apply dash_eqb in E as ->; exfalso; apply P; now left|].
  rewrite IH by (intros I; apply P; now right). now rewrite <- app_assoc.
Qed.

Lemma split_loop_complete fs : forall count, fs <> [] -> Forall plain fs -> (count + length fs <= 5)%nat -> split_loop count [] (join fs) = Some fs.
Proof.
  induction fs as [|f fs IH]; intros count Hn F L; [contradiction|]. inversion_clear F as [|? ? Pf F']. cbn [length] in L.
  assert (C : (5 <=? count)%nat = false) by (apply Nat.leb_gt; lia). destruct fs as [|g fs].
  - cbn [join]. rewrite <- (app_nil_r f) at 1. rewrite split_loop_plain by exact Pf. cbn [split_loop app]. now rewrite C.
  - rewrite join_cons, split_loop_plain by (discriminate || exact Pf). cbn [split_loop app]. rewrite (proj2 (dash_eqb dash) eq_refl), C.
    rewrite IH by (discriminate || assumption || lia). reflexivity.
Qed.

Lemma strip_app s t : strip (s ++ t) = strip s ++ strip t.
Proof. apply filter_app. Qed.

Lemma strip_plain f : plain f -> strip f = f.
Proof.
  induction f as [|c f IH]; intros P; [reflexivity|]. cbn [strip filter].
  destruct (Byte.eqb c dash) eqn:E; [apply dash_eqb in E as ->; exfalso; apply P; now left|].
  cbn [negb]. f_equal. apply IH. intros I. apply P. now right.
Qed.

Lemma strip_join fs : Forall plain fs -> strip (join fs) = concat fs.
Proof.
  induction 1 as [|f fs Pf F IH]; [reflexivity|]. destruct fs as [|g fs]; [cbn [join concat]; rewrite app_nil_r; now apply strip_plain|].
  rewrite join_cons by discriminate. rewrite strip_app. change (dash :: join (g :: fs)) with ([dash] ++ join (g :: fs)). rewrite strip_app, IH.
  rewrite strip_plain by exact Pf. reflexivity.
Qed.

Definition dashes (s : bytes) : nat := length s - length (strip s).
Lemma strip_length s : (length (strip s) <= length s)%nat.
Proof. apply filter_length_le. Qed.
Lemma dashes_app s t : dashes (s ++ t) = (dashes s + dashes t)%nat.
Proof. unfold dashes. rewrite strip_app, !length_app. pose proof (strip_length s). pose proof (strip_length t). lia. Qed.
Lemma dashes_plain f : plain f -> dashes f = 0%nat.
Proof. intros P. unfold dashes. rewrite strip_plain by exact P. lia. Qed.
Lemma dashes_join fs : Forall plain fs -> dashes (join fs) = (length fs - 1)%nat.
Proof.
  induction 1 as [|f fs Pf F IH]; [reflexivity|]. destruct fs as [|g fs]; [now apply dashes_plain|].
  rewrite join_cons by discriminate. rewrite dashes_app, (dashes_plain f Pf). change (dash :: join (g :: fs)) with ([dash] ++ join (g :: fs)).
  rewrite dashes_app, IH. change (dashes [dash]) with 1%nat. cbn [length]. lia.
Qed.

(** ** Decimal numbers *)

Lemma digit_byte d : 0 <= d < 10 -> is_digit (b8 (48 + d)) = true /\ u8 (b8 (48 + d)) - 48 = d.
Proof.
  intros Hd. unfold is_digit. rewrite u8_b8 by lia. split; [|lia]. apply negb_true_iff, orb_false_iff. split; apply Z.ltb_ge; lia.
Qed.

Lemma decimal_app s c : decimal (s ++ [c]) = 10 * decimal s + (u8 c - 48).
Proof. unfold decimal. now rewrite fold_left_app. Qed.

Lemma to_string_loop_spec fuel : forall v, 0 <= v < 10 ^ Z.of_nat fuel -> (0 < fuel)%nat ->
  let s := to_string_loop fuel v in s <> [] /\ forallb is_digit s = true /\ decimal s = v.
Proof.
  induction fuel as [|fuel IH]; intros v Hv Hf; [lia|]. cbn [to_string_loop]. cbv zeta.
  destruct (digit_byte (v mod 10) ltac:(apply Z.mod_pos_bound; lia)) as [D1 D2].
  destruct (Z.ltb_spec v 10) as [L|L].
  - cbn [app forallb]. rewrite D1. split; [discriminate|]. split; [reflexivity|]. unfold decimal. cbn [fold_left]. rewrite D2. dmlia.
  - rewrite Nat2Z.inj_succ, Z.pow_succ_r in Hv by lia. destruct fuel as [|fuel]; [cbn in Hv; lia|].
    destruct (IH (v / 10) ltac:(dmlia) ltac:(lia)) as (Hn & Hd & He). set (s := to_string_loop (S fuel) (v / 10)) in *.
    split; [intros E; apply app_eq_nil in E as [_ E]; discriminate|]. rewrite forallb_app, decimal_app, Hd, He, D2. cbn [forallb]. rewrite D1.
    split; [reflexivity|dmlia].
Qed.

Lemma to_string_parsed v : in_w 32 v -> parseU32Decimal (to_string v) = Some v /\ plain (to_string v) /\ exists vs, vals (to_string v) = Some vs.
Proof.
  intros Hv. unfold in_w in Hv. destruct (to_string_loop_spec 20 v ltac:(lia) ltac:(lia)) as (Hn & Hd & He). fold (to_string v) in *.
  unfold parseU32Decimal. rewrite Hd, He. cbn [negb]. split.
  - destruct (to_string v); [contradiction|]. cbn [length Nat.eqb]. rewrite (proj2 (Z.leb_gt _ _)), (proj2 (Z.ltb_ge _ _)) by lia. reflexivity.
  - clear Hn He. induction (to_string v) as [|c s IH]; [split; [apply in_nil|eexists; reflexivity]|]. cbn [forallb] in Hd. apply andb_true_iff in Hd as [Hc Hd].
    destruct (IH Hd) as [P [vs E]]. unfold is_digit in Hc. bprop. split.
    + intros [->|I]; [change (u8 dash) with 45 in *; lia|auto].
    + cbn [vals]. unfold crockfordVal. rewrite E. replace ((48 <=? u8 c) && (u8 c <=? 57)) with true; [eexists; reflexivity|].
      symmetry. apply andb_true_iff. rewrite !Z.leb_le. lia.
Qed.

(** ** Fingerprints *)

Lemma fingerprint_digits n : forall fp, 0 <= fp -> fingerprint_loop n fp = map symbol (digits n fp).
Proof.
  induction n as [|n IH]; intros fp Hf; [reflexivity|]. cbn [fingerprint_loop digits]. change 31 with (Z.ones 5).
  rewrite Z.land_ones, Z.shiftr_div_pow2, IH, map_app by (lia || apply Z.div_pos; lia). reflexivity.
Qed.

Lemma digits_below n : forall ck, below 5 (digits n ck).
Proof.
  induction n as [|n IH]; intros ck; [constructor|]. cbn [digits]. apply Forall_app. split; [apply IH|]. constructor; [apply Z.mod_pos_bound; lia|constructor].
Qed.

Lemma digits_length n : forall ck, length (digits n ck) = n.
Proof. induction n as [|n IH]; intros ck; [reflexivity|]. cbn [digits]. rewrite length_app, IH. cbn. lia. Qed.

Lemma pack_bound l : forall c, 0 <= c -> below 5 l -> 0 <= pack l c < (c + 1) * 32 ^ Z.of_nat (length l).
Proof.
  induction l as [|v l IH]; intros c Hc F; [cbn; lia|]. apply Forall_cons_iff in F as [Hv F]. cbn [length pack fold_left].
  rewrite Nat2Z.inj_succ, Z.pow_succ_r by lia. specialize (IH (32 * c + v) ltac:(lia) F). unfold pack in IH.
  assert (0 < 32 ^ Z.of_nat (length l)) by (apply Z.pow_pos_nonneg; lia). nia.
Qed.

Lemma decode_loop_pack s : forall v, 0 <= v -> (v + 1) * 32 ^ Z.of_nat (length s) <= 2 ^ 32 -> decode_loop s v = option_map (fun vs => pack vs v) (vals s).
Proof.
  induction s as [|c s IH]; intros v Hv L; [reflexivity|]. cbn [decode_loop vals]. destruct (crockfordVal c) as [cv|] eqn:E; [|reflexivity].
  apply val_range in E. cbn [length] in L. rewrite Nat2Z.inj_succ, Z.pow_succ_r in L by lia.
  assert (0 < 32 ^ Z.of_nat (length s)) by (apply Z.pow_pos_nonneg; lia).
  rewrite Z.shiftl_mul_pow2, wrap_small by (lia || (unfold in_w; nia)). rewrite Z.lor_comm.
  replace (v * 2 ^ 5) with (Z.shiftl v 5) by (rewrite Z.shiftl_mul_pow2; lia). rewrite lor_shiftl_add by lia.
  replace (cv + v * 2 ^ 5) with (32 * v + cv) by lia. rewrite IH by nia. destruct (vals s); reflexivity.
Qed.

(** A decoded fingerprint is written back with the canonical symbols of the same
    values. *)
Lemma decodeFingerprint_iff s fp : decodeFingerprint s = Some fp <->
  exists vs, vals s = Some vs /\ length s = 4%nat /\ 0 <= fp < 2 ^ 20 /\ encodeFingerprint fp = map symbol vs.
Proof.
  assert (M : forall x, 0 <= x < 2 ^ 20 -> Z.land x 0xFFFFF = x) by (intros x Hx; change 0xFFFFF with (Z.ones 20); rewrite Z.land_ones, Z.mod_small by lia; reflexivity).
  assert (Lv : forall vs, vals s = Some vs -> length vs = length s).
  { revert s. induction s as [|c s IH]; intros vs H; cbn [vals] in H; [now injection H as <-|]. destruct (crockfordVal c); [|discriminate].
    destruct (vals s) as [us|]; [|discriminate]. injection H as <-. cbn [length]. f_equal. now apply IH. }
  unfold decodeFingerprint, encodeFingerprint. destruct (Nat.eqb_spec (length s) 4) as [L|L]; cbn [negb]; [|split; [discriminate|intros (vs & _ & ? & _); contradiction]].
  rewrite decode_loop_pack by (rewrite ?L; lia). destruct (vals s) as [vs|] eqn:E; cbn [option_map]; [|split; [discriminate|intros (vs & H & _); discriminate]].
  pose proof (vals_below s vs E) as F. pose proof (pack_bound vs 0 ltac:(lia) F) as B. rewrite (Lv vs eq_refl), L in B. rewrite M by lia. split.
  - intros [= <-]. exists vs. split; [reflexivity|]. split; [exact L|]. split; [lia|]. rewrite M, fingerprint_digits by lia. f_equal.
    apply (pack_inj (digits 4 (pack vs 0)) vs 0 0); [rewrite digits_length, Lv by reflexivity; now rewrite L|apply digits_below|exact F|]. apply pack_digits. lia.
  - intros (us & [= <-] & _ & Hf & He). f_equal. rewrite M, fingerprint_digits in He by lia. apply (f_equal vals) in He.
    rewrite !vals_symbols in He by (exact F || apply digits_below). injection He as <-. apply (pack_digits 4). lia.
Qed.

Lemma encodeFingerprint_vals fp : 0 <= fp < 2 ^ 20 -> exists vs, vals (encodeFingerprint fp) = Some vs /\ length (encodeFingerprint fp) = 4%nat /\
  encodeFingerprint fp = map symbol vs /\ plain (encodeFingerprint fp).
Proof.
  intros Hf. assert (M : Z.land fp 0xFFFFF = fp) by (change 0xFFFFF with (Z.ones 20); rewrite Z.land_ones, Z.mod_small by lia; reflexivity).
  exists (digits 4 fp). unfold encodeFingerprint. rewrite M, fingerprint_digits, vals_symbols, length_map, digits_length by (lia || apply digits_below).
  split; [reflexivity|]. split; [reflexivity|]. split; [reflexivity|]. intros I. apply in_map_iff in I as (v & E & Hv).
  pose proof (digits_below 4 fp) as F. rewrite Forall_forall in F. pose proof (symbol_val v (F v Hv)) as V. rewrite E, dash_no_value in V. discriminate.
Qed.

Lemma luhn_plain s vs : vals s = Some vs -> plain [luhn32Generate s] /\ exists v, 0 <= v < 2 ^ 5 /\ luhn32Generate s = symbol v.
Proof.
  intros E. rewrite (luhn_generate s vs E). set (v := _ mod 32). assert (Hv : 0 <= v < 2 ^ 5) by (apply Z.mod_pos_bound; lia). split; [|eauto].
  intros [H|[]]. pose proof (symbol_val v Hv) as V. rewrite H, dash_no_value in V. discriminate.
Qed.

(** ** Reading back *)

Lemma finalize_iff h i a c t n fp tv : finalize h i a c t = Some (n, fp, tv) <->
  parseU32Decimal h = Some (blockHeight n) /\ parseU32Decimal i = Some (txIndex n) /\
  match t with Some t => parseU32Decimal t = Some tv | None => tv = 0 end /\ decodeFingerprint a = Some fp /\
  exists ch v, c = [ch] /\ crockfordVal ch = Some v /\
    symbol v = luhn32Generate (h ++ i ++ encodeFingerprint fp ++ match t with Some t => t | None => [] end).
Proof.
  unfold finalize. split.
  - destruct c as [|ch [|]]; try discriminate. destruct (parseU32Decimal h) as [hv|]; [|discriminate]. destruct (parseU32Decimal i) as [iv|]; [|discriminate].
    destruct (match t with Some t => parseU32Decimal t | None => Some 0 end) as [tv'|] eqn:Et; [|discriminate].
    destruct (decodeFingerprint a) as [fp'|]; [|discriminate]. destruct (crockfordVal ch) as [v|] eqn:Ec; [|discriminate].
    destruct (Byte.eqb _ _) eqn:Es; [|discriminate]. intros [= <- <- <-]. apply byte_eqb_eq in Es. cbn [blockHeight txIndex].
    split; [reflexivity|]. split; [reflexivity|]. split; [destruct t; [exact Et|now injection Et]|]. split; [reflexivity|].
    exists ch, v. destruct t; rewrite ?app_nil_r; auto.
  - intros (-> & -> & Ht & -> & ch & v & -> & -> & E). replace (match t with Some t => parseU32Decimal t | None => Some 0 end) with (Some tv) by (destruct t; congruence).
    replace (match t with Some t0 => h ++ i ++ encodeFingerprint fp ++ t0 | None => h ++ i ++ encodeFingerprint fp end)
      with (h ++ i ++ encodeFingerprint fp ++ match t with Some t => t | None => [] end) by (destruct t; rewrite ?app_nil_r; reflexivity).
    rewrite (proj2 (byte_eqb_eq _ _) E). now destruct n.
Qed.

Lemma fromString_iff s n fp : fromString s = Some (n, fp) <->
  exists h i a c, split_loop 0 [] s = Some [h; i; a; c] /\ finalize h i a c None = Some (n, fp, 0).
Proof.
  unfold fromString. destruct (split_loop 0 [] s) as [[|h [|i [|a [|c [|]]]]]|]; try (split; [discriminate|intros (? & ? & ? & ? & [=] & _)]).
  destruct (finalize h i a c None) as [[[n' fp'] t']|] eqn:E.
  - pose proof E as E'. apply finalize_iff in E' as (_ & _ & -> & _). split; [intros [= -> ->]; eauto 6|].
    intros (h' & i' & a' & c' & [= <- <- <- <-] & H). rewrite H in E. now injection E as <- <-.
  - split; [discriminate|]. intros (h' & i' & a' & c' & [= <- <- <- <-] & H). congruence.
Qed.

Lemma fromStringWithIndex_iff s r : fromStringWithIndex s = Some r <->
  exists h i a t c, split_loop 0 [] s = Some [h; i; a; t; c] /\ finalize h i a c (Some t) = Some r.
Proof.
  unfold fromStringWithIndex. destruct (split_loop 0 [] s) as [[|h [|i [|a [|t [|c [|]]]]]]|]; try (split; [discriminate|intros (? & ? & ? & ? & ? & [=] & _)]).
  split; [eauto 8|]. now intros (h' & i' & a' & t' & c' & [= <- <- <- <- <-] & H).
Qed.

(** An account number that is printed is read back, with or without a route, and
    neither form is ever taken for the other. *)
Theorem account_roundtrip n t fp : in_w 32 (blockHeight n) -> in_w 32 (txIndex n) -> in_w 32 t -> in_w 20 fp ->
  fromString (toString n fp) = Some (n, fp) /\ fromStringWithIndex (toStringWithIndex n t fp) = Some (n, fp, t) /\
  fromStringWithIndex (toString n fp) = None /\ fromString (toStringWithIndex n t fp) = None /\
  namesDepositRoute (toStringWithIndex n t fp) = true.
Proof.
  intros Hh Hi Ht Hf. destruct (to_string_parsed _ Hh) as (Ph & Qh & vh & Vh). destruct (to_string_parsed _ Hi) as (Pi & Qi & vi & Vi).
  destruct (to_string_parsed _ Ht) as (Pt & Qt & vt & Vt). destruct (encodeFingerprint_vals fp Hf) as (va & Va & La & Ea & Qa).
  set (h := to_string (blockHeight n)) in *. set (i := to_string (txIndex n)) in *. set (a := encodeFingerprint fp) in *. set (ts := to_string t) in *.
  assert (V1 : vals (h ++ i ++ a) = Some (vh ++ vi ++ va)) by (now rewrite !vals_app, Vh, Vi, Va).
  assert (V2 : vals (h ++ i ++ a ++ ts) = Some (vh ++ vi ++ va ++ vt)) by (now rewrite !vals_app, Vh, Vi, Va, Vt).
  destruct (luhn_plain _ _ V1) as (Q1 & v1 & H1 & E1). destruct (luhn_plain _ _ V2) as (Q2 & v2 & H2 & E2).
  assert (Da : decodeFingerprint a = Some fp) by (apply decodeFingerprint_iff; exists va; auto).
  assert (S1 : split_loop 0 [] (toString n fp) = Some [h; i; a; [luhn32Generate (h ++ i ++ a)]])
    by (refine (split_loop_complete [h; i; a; [_]] 0 _ _ _); [discriminate|repeat apply Forall_cons; auto|cbn; lia]).
  assert (S2 : split_loop 0 [] (toStringWithIndex n t fp) = Some [h; i; a; ts; [luhn32Generate (h ++ i ++ a ++ ts)]])
    by (refine (split_loop_complete [h; i; a; ts; [_]] 0 _ _ _); [discriminate|repeat apply Forall_cons; auto|cbn; lia]).
  assert (R2 : fromStringWithIndex (toStringWithIndex n t fp) = Some (n, fp, t)).
  { apply fromStringWithIndex_iff. do 5 eexists. split; [exact S2|]. apply finalize_iff. split; [exact Ph|]. split; [exact Pi|]. split; [exact Pt|].
    split; [exact Da|]. eexists _, v2. split; [reflexivity|]. rewrite E2 at 1. split; [now apply symbol_val|]. now rewrite <- E2. }
  split; [|split; [exact R2|]].
  - apply fromString_iff. do 4 eexists. split; [exact S1|]. apply finalize_iff. split; [exact Ph|]. split; [exact Pi|]. split; [reflexivity|]. split; [exact Da|].
    eexists _, v1. split; [reflexivity|]. rewrite E1 at 1. split; [now apply symbol_val|]. rewrite app_nil_r. now rewrite <- E1.
  - unfold fromStringWithIndex at 1, fromString, namesDepositRoute. rewrite S1, S2, R2. auto.
Qed.

(** What is accepted: the right number of fields, and symbols whose weighted sum
    vanishes. *)
Definition account_ok (k : nat) (s : bytes) : Prop :=
  dashes s = k /\ exists vs, vals (strip s) = Some vs /\ lsum false (rev vs) mod 32 = 0.

Lemma parsed_vals s v : parseU32Decimal s = Some v -> exists vs, vals s = Some vs.
Proof.
  unfold parseU32Decimal. destruct (length s =? 0)%nat; [discriminate|]. destruct (forallb is_digit s) eqn:D; cbn [negb]; [|discriminate]. intros _.
  induction s as [|c s IH]; [eexists; reflexivity|]. cbn [forallb] in D. apply andb_true_iff in D as [Dc D]. destruct (IH D) as [vs E].
  cbn [vals]. rewrite E. unfold crockfordVal. unfold is_digit in Dc. bprop. replace ((48 <=? u8 c) && (u8 c <=? 57)) with true; [eexists; reflexivity|].
  symmetry. apply andb_true_iff. rewrite !Z.leb_le. lia.
Qed.

Lemma accepted_sum h i a c t r : finalize h i a c t = Some r ->
  exists vs, vals (h ++ i ++ a ++ match t with Some t => t | None => [] end ++ c) = Some vs /\ lsum false (rev vs) mod 32 = 0.
Proof.
  destruct r as [[n fp] tv]. intros H. apply finalize_iff in H as (Ph & Pi & Pt & Da & ch & v & -> & Vc & E).
  apply parsed_vals in Ph as [vh Vh]. apply parsed_vals in Pi as [vi Vi]. apply decodeFingerprint_iff in Da as (va & Va & _ & _ & Ea).
  assert (Vt : exists vt, vals (match t with Some t => t | None => [] end) = Some vt) by (destruct t; [exact (parsed_vals _ _ Pt)|exists []; reflexivity]).
  destruct Vt as [vt Vt]. exists ((vh ++ vi ++ va ++ vt) ++ [v]).
  rewrite !vals_app, Vh, Vi, Va, Vt. cbn [vals]. rewrite Vc. rewrite <- !app_assoc. split; [reflexivity|]. rewrite !app_assoc.
  refine (proj1 (luhn_check _ _ v _ (val_range _ _ Vc)) E). rewrite !vals_app, Vh, Vi, Vt, Ea, vals_symbols by exact (vals_below _ _ Va). now rewrite <- !app_assoc.
Qed.

Lemma accepted_ok s : (forall r, fromString s = Some r -> account_ok 3 s) /\ (forall r, fromStringWithIndex s = Some r -> account_ok 4 s).
Proof.
  split; intros r H.
  - destruct r as [n fp]. apply fromString_iff in H as (h & i & a & c & S & Fz). destruct (split_loop_sound s 0 [] _ (@in_nil _ _) S) as (_ & J & F).
    cbn [app] in J. apply accepted_sum in Fz. cbn [app] in Fz. unfold account_ok. rewrite J, dashes_join, strip_join by exact F. cbn [concat length]. now rewrite app_nil_r.
  - apply fromStringWithIndex_iff in H as (h & i & a & t & c & S & Fz). destruct (split_loop_sound s 0 [] _ (@in_nil _ _) S) as (_ & J & F).
    cbn [app] in J. apply accepted_sum in Fz. unfold account_ok. rewrite J, dashes_join, strip_join by exact F. cbn [concat length]. now rewrite app_nil_r.
Qed.

Lemma strip_cons x post : Byte.eqb x dash = false -> strip (x :: post) = x :: strip post.
Proof. intros E. cbn [strip filter]. now rewrite E. Qed.

Lemma strip_split pre x post : Byte.eqb x dash = false -> strip (pre ++ x :: post) = strip pre ++ x :: strip post.
Proof. intros E. rewrite strip_app. now rewrite strip_cons. Qed.

Lemma vals_split p x q vs : vals (p ++ x :: q) = Some vs ->
  exists vp v vq, vs = vp ++ v :: vq /\ vals p = Some vp /\ crockfordVal x = Some v /\ vals q = Some vq.
Proof.
  rewrite vals_app. cbn [vals]. destruct (vals p) as [vp|]; [|discriminate]. destruct (crockfordVal x) as [v|]; [|discriminate].
  destruct (vals q) as [vq|]; [|discriminate]. intros [= <-]. eauto 8.
Qed.

Lemma dashes_subst pre x y post : Byte.eqb x dash = true -> Byte.eqb y dash = false -> dashes (pre ++ x :: post) <> dashes (pre ++ y :: post).
Proof.
  intros Ex Ey. rewrite !dashes_app. change (x :: post) with ([x] ++ post). change (y :: post) with ([y] ++ post). rewrite !dashes_app.
  unfold dashes at 2 5. cbn [strip filter]. rewrite Ex, Ey. cbn [negb length]. lia.
Qed.

(** One mistyped character is always noticed, in either form of an account number,
    unless it is a look-alike that stands for the same symbol. *)
Lemma typo_noticed k pre x y post : account_ok k (pre ++ x :: post) -> account_ok k (pre ++ y :: post) -> crockfordVal x = crockfordVal y.
Proof.
  intros [D1 (v1 & V1 & S1)] [D2 (v2 & V2 & S2)].
  destruct (Byte.eqb x dash) eqn:Ex, (Byte.eqb y dash) eqn:Ey.
  - apply dash_eqb in Ex, Ey. congruence.
  - pose proof (dashes_subst pre x y post Ex Ey). congruence.
  - pose proof (dashes_subst pre y x post Ey Ex). congruence.
  - rewrite strip_split in V1, V2 by assumption. apply vals_split in V1 as (vp & u & vq & -> & Vp & Vx & Vq). apply vals_split in V2 as (vp' & v & vq' & -> & Vp' & Vy & Vq').
    assert (vp' = vp) as -> by congruence. assert (vq' = vq) as -> by congruence.
    rewrite Vx, Vy. f_equal. exact (luhn_substitution vp u v vq (val_range _ _ Vx) (val_range _ _ Vy) S1 S2).
Qed.

Theorem account_typo pre x y post :
  (forall r r', fromString (pre ++ x :: post) = Some r -> fromString (pre ++ y :: post) = Some r' -> crockfordVal x = crockfordVal y) /\
  (forall r r', fromStringWithIndex (pre ++ x :: post) = Some r -> fromStringWithIndex (pre ++ y :: post) = Some r' -> crockfordVal x = crockfordVal y).
Proof. split; intros r r' H H'; apply accepted_ok in H, H'; exact (typo_noticed _ pre x y post H H'). Qed.

(** Two neighbouring symbols swapped are noticed too, except the pair of [0] and
    [Z], whose doubles differ by as much as they do. *)
Theorem account_swap pre x y post r r' : x <> dash -> y <> dash ->
  fromString (pre ++ x :: y :: post) = Some r -> fromString (pre ++ y :: x :: post) = Some r' ->
  crockfordVal x = crockfordVal y \/
  (crockfordVal x = Some 0 /\ crockfordVal y = Some 31) \/ (crockfordVal x = Some 31 /\ crockfordVal y = Some 0).
Proof.
  intros Hx Hy H H'. apply accepted_ok in H as [_ (v1 & V1 & S1)], H' as [_ (v2 & V2 & S2)].
  assert (Ex : Byte.eqb x dash = false) by (destruct (Byte.eqb x dash) eqn:E; [now apply dash_eqb in E|reflexivity]).
  assert (Ey : Byte.eqb y dash = false) by (destruct (Byte.eqb y dash) eqn:E; [now apply dash_eqb in E|reflexivity]).
  rewrite (strip_split pre) in V1, V2 by assumption. rewrite strip_cons in V1, V2 by assumption.
  apply vals_split in V1 as (vp & u & vq & -> & Vp & Vx & Vq). apply vals_split in V2 as (vp' & v & vq' & -> & Vp' & Vy & Vq').
  assert (vp' = vp) as -> by congruence. cbn [vals] in Vq, Vq'. rewrite Vy in Vq. rewrite Vx in Vq'.
  destruct (vals (strip post)) as [vs|]; [|discriminate]. injection Vq as <-. injection Vq' as <-.
  rewrite Vx, Vy. destruct (luhn_transposition vp u v vs (val_range _ _ Vx) (val_range _ _ Vy) S1 S2) as [->|[[-> ->]|[-> ->]]]; auto.
Qed.

(** The check symbol does not see the dashes: moving one is accepted, and only the
    fingerprint tells the two accounts apart. *)
Lemma moved_dash : fromString (str "4821-7-KAYD-Y") = Some (mkAccountNumber 4821 7, 0x9abcd) /\
  fromString (str "482-17-KAYD-Y") = Some (mkAccountNumber 482 17, 0x9abcd).
Proof. vm_compute. auto. Qed.

(** A packed account number. *)
Lemma packed_roundtrip n : in_w 32 (blockHeight n) -> in_w 32 (txIndex n) -> fromUint64 (toUint64 n) = n.
Proof.
  destruct n as [h i]. unfold in_w, toUint64, fromUint64. cbn [blockHeight txIndex]. intros Hh Hi.
  rewrite Z.shiftl_mul_pow2, (wrap_small 64) by (lia || (unfold in_w; lia)). rewrite Z.lor_comm.
  replace (h * 2 ^ 32) with (Z.shiftl h 32) by (rewrite Z.shiftl_mul_pow2; lia). rewrite lor_shiftl_add by lia.
  change 0xFFFFFFFF with (Z.ones 32). rewrite Z.land_ones, Z.shiftr_div_pow2 by lia. f_equal; unfold wrap; dmlia.
Qed.

Lemma account_roundtrip_witness : let n := mkAccountNumber 4821 7 in
  toString n 0x9abcd = str "4821-7-KAYD-Y" /\
  fromString (toString n 0x9abcd) = Some (n, 0x9abcd) /\ fromStringWithIndex (toStringWithIndex n 3 0x9abcd) = Some (n, 0x9abcd, 3) /\
  fromStringWithIndex (toString n 0x9abcd) = None /\ fromString (toStringWithIndex n 3 0x9abcd) = None /\
  namesDepositRoute (toStringWithIndex n 3 0x9abcd) = true.
Proof.
  split; [vm_compute; reflexivity|]. apply (account_roundtrip (mkAccountNumber 4821 7) 3 0x9abcd); split; (discriminate || reflexivity).
Defined.
