(* ===== verification/Base58.v ===== *)
(** * Base 58 text

    The block-wise base 58 of [Common/Base58.cpp]: eight bytes are written as eleven
    symbols, the last block as fewer, so that every block is a number of 64 bits.
    [encode_addr] adds a tag and a checksum by [cn_fast_hash], a parameter.

    [base58_exact]: decoding accepts exactly the encoder's outputs. *)

From Stdlib Require Import ZArith String List Lia Bool.
From coqutil Require Import Byte Z.BitOps.
From coqutil Require Import Word.LittleEndianList.
From S2P Require Import Prelude Varint IntUtil.
Import ListNotations.
Open Scope string_scope.
Open Scope list_scope.
Open Scope Z_scope.
Open Scope discrete_scope.
Import int_util.

Module Base58.

Definition alphabet : bytes := str "123456789ABCDEFGHJKLMNPQRSTUVWXYZabcdefghijkmnopqrstuvwxyz".
Definition alphabet_size : Z := 58.
Definition symbol (v : Z) : Init.Byte.byte := nth (Z.to_nat v) alphabet (b8 0).
Definition encoded_block_sizes : list nat := [0; 2; 3; 5; 6; 7; 9; 10; 11]%nat.
Definition full_block_size : nat := 8.
Definition full_encoded_block_size : nat := 11.
Definition addr_checksum_size : nat := 4.

(** [data[i] = x]; nothing is written out of range, where C++ would. *)
Fixpoint set_nth {A} (i : nat) (x : A) (l : list A) : list A :=
  match l, i with
  | [], _ => []
  | _ :: l, O => x :: l
  | y :: l, S i => y :: set_nth i x l
  end.

(** [reverse_alphabet]: the table its constructor builds, and the lookup. *)
Definition reverse_table : list Z :=
  fold_left (fun m_data i => set_nth (Z.to_nat (u8 (symbol (Z.of_nat i)) - 49)) (Z.of_nat i) m_data) (seq 0 58) (repeat (-1) 74).
Definition signed_char (c : Init.Byte.byte) : Z := if u8 c <? 128 then u8 c else u8 c - 256.
Definition reverse_alphabet (letter : Init.Byte.byte) : Z :=
  let idx := w64 (signed_char letter - 49) in
  if idx <? Z.of_nat (length reverse_table) then nth (Z.to_nat idx) reverse_table (-1) else -1.

(** [decoded_block_sizes] *)
Definition decoded_table : list Z :=
  fold_left (fun m_data i => set_nth (nth i encoded_block_sizes 0%nat) (Z.of_nat i) m_data) (seq 0 9) (repeat (-1) 12).
Definition decoded_block_sizes (encoded_block_size : nat) : Z := nth encoded_block_size decoded_table (-1).

Definition uint_8be_to_64 (data : bytes) : Z := fold_left (fun res d => Z.lor (w64 (Z.shiftl res 8)) (u8 d)) data 0.
Definition uint_64_to_8be (num : Z) (size : nat) : bytes := skipn (8 - size) (rev (le_split 8 num)).

(** The digits are written from the end of a block full of zero digits. *)
Fixpoint encode_loop (fuel : nat) (num : Z) (i : Z) (res : bytes) : bytes :=
  match fuel with
  | O => res
  | S fuel =>
      if 0 <? num then encode_loop fuel (num / alphabet_size) (i - 1) (set_nth (Z.to_nat i) (symbol (num mod alphabet_size)) res)
      else res
  end.
Definition encode_block (block : bytes) : bytes :=
  let size := nth (length block) encoded_block_sizes 0%nat in
  encode_loop 11 (uint_8be_to_64 block) (Z.of_nat size - 1) (repeat (symbol 0) size).

(** The loop over the symbols, last first. *)
Fixpoint decode_loop (block : bytes) (res_num order : Z) : option Z :=
  match block with
  | [] => Some res_num
  | c :: block =>
      let digit := reverse_alphabet c in
      if digit <? 0 then None
      else
        let (product, product_hi) := mul128 order digit in
        let tmp := w64 (res_num + product) in
        if (tmp <? res_num) || negb (product_hi =? 0) then None
        else decode_loop block tmp (w64 (order * alphabet_size))
  end.
Definition decode_block (block : bytes) : option bytes :=
  let res_size := decoded_block_sizes (length block) in
  if res_size <=? 0 then None
  else
    match decode_loop (rev block) 0 1 with
    | None => None
    | Some res_num =>
        if (res_size <? 8) && (Z.shiftl 1 (8 * res_size) <=? res_num) then None
        else Some (uint_64_to_8be res_num (Z.to_nat res_size))
    end.

(** The loop over the full blocks, and the last one. *)
Fixpoint encode_blocks (full_block_count : nat) (data : bytes) : bytes :=
  match full_block_count with
  | O => match data with [] => [] | _ => encode_block data end
  | S n => encode_block (firstn full_block_size data) ++ encode_blocks n (skipn full_block_size data)
  end.
Definition encode (data : bytes) : bytes := encode_blocks (length data / full_block_size) data.

Fixpoint decode_blocks (full_block_count : nat) (enc : bytes) : option bytes :=
  match full_block_count with
  | O => match enc with [] => Some [] | _ => decode_block enc end
  | S n =>
      match decode_block (firstn full_encoded_block_size enc) with
      | None => None
      | Some b => option_map (app b) (decode_blocks n (skipn full_encoded_block_size enc))
      end
  end.
Definition decode (enc : bytes) : option bytes :=
  if decoded_block_sizes (length enc mod full_encoded_block_size) <? 0 then None
  else decode_blocks (length enc / full_encoded_block_size) enc.

Section Hashed.
Variable cn_fast_hash : bytes -> bytes.

Definition encode_addr (tag : Z) (data : bytes) : bytes :=
  let buf := Tools.get_varint_data tag ++ data in
  encode (buf ++ firstn addr_checksum_size (cn_fast_hash buf)).

Definition decode_addr (addr : bytes) : option (Z * bytes) :=
  match decode addr with
  | None => None
  | Some addr_data =>
      if (length addr_data <=? addr_checksum_size)%nat then None
      else
        let checksum := skipn (length addr_data - addr_checksum_size) addr_data in
        let addr_data := firstn (length addr_data - addr_checksum_size) addr_data in
        if negb (firstn addr_checksum_size (cn_fast_hash addr_data) ==b checksum) then None
        else
          let '(read, tag, _) := Tools.read_varint 64 addr_data in
          if read <=? 0 then None else Some (tag, skipn (Z.to_nat read) addr_data)
  end.
End Hashed.

End Base58.
Import Base58.

(** ** Blocks as numbers *)

Lemma be_value data : (length data <= 8)%nat -> uint_8be_to_64 data = le_combine (rev data).
Proof.
  intros L. unfold uint_8be_to_64. induction data as [|d data IH] using rev_ind; [reflexivity|].
  rewrite length_app in L. cbn [length] in L. rewrite fold_left_app, IH, rev_app_distr by lia. cbn [fold_left rev app].
  pose proof (le_combine_bound (rev data)) as B. rewrite length_rev in B.
  assert (P : 2 ^ (8 * Z.of_nat (length data)) <= 2 ^ 56) by (apply Z.pow_le_mono_r; lia).
  rewrite wrap_small by (unfold in_w; rewrite Z.shiftl_mul_pow2 by lia; lia).
  rewrite Z.lor_comm, lor_shiftl_add by (lia || apply byte_range). change (d :: rev data) with ([d] ++ rev data).
  rewrite le_combine_app_add. cbn [length]. replace (le_combine [d]) with (u8 d); [lia|]. symmetry. apply Z.lor_0_r.
Qed.

Lemma le_split_prefix n m v : (n <= m)%nat -> firstn n (le_split m v) = le_split n v.
Proof.
  revert m v. induction n as [|n IH]; intros m v H; [reflexivity|]. destruct m as [|m]; [lia|].
  change (b8 v :: firstn n (le_split m (Z.shiftr v 8)) = b8 v :: le_split n (Z.shiftr v 8)). f_equal. apply IH. lia.
Qed.

Lemma be_written num size : (size <= 8)%nat -> uint_64_to_8be num size = rev (le_split size num).
Proof.
  intros L. unfold uint_64_to_8be. rewrite skipn_rev, length_le_split, le_split_prefix by lia. do 2 f_equal. lia.
Qed.

Lemma be_roundtrip data : (length data <= 8)%nat -> uint_64_to_8be (uint_8be_to_64 data) (length data) = data.
Proof. intros L. rewrite be_value, be_written, <- (length_rev data), split_le_combine, rev_involutive by exact L. reflexivity. Qed.

Lemma be_value_written num size : (size <= 8)%nat -> 0 <= num < 2 ^ (8 * Z.of_nat size) -> uint_8be_to_64 (uint_64_to_8be num size) = num.
Proof.
  intros L Hn. rewrite be_written by exact L. rewrite be_value by (rewrite length_rev, length_le_split; exact L).
  rewrite rev_involutive, le_combine_split, (Z.mul_comm _ 8). now apply Z.mod_small.
Qed.

Lemma be_range data : (length data <= 8)%nat -> 0 <= uint_8be_to_64 data < 2 ^ (8 * Z.of_nat (length data)).
Proof. intros L. rewrite be_value by exact L. rewrite <- (length_rev data). apply le_combine_bound. Qed.

(** ** Digits *)

Lemma symbol_reverse v : 0 <= v < 58 -> reverse_alphabet (symbol v) = v.
Proof.
  intros Hv. assert (H : forallb (fun i => reverse_alphabet (symbol (Z.of_nat i)) =? Z.of_nat i) (seq 0 58) = true) by (vm_compute; reflexivity).
  rewrite forallb_forall in H. specialize (H (Z.to_nat v)). rewrite in_seq, Z2Nat.id in H by lia. apply Z.eqb_eq, H. lia.
Qed.

Lemma reverse_symbol c : reverse_alphabet c < 0 \/ (0 <= reverse_alphabet c < 58 /\ symbol (reverse_alphabet c) = c).
Proof.
  assert (H : forallb (fun i => let c := b8 (Z.of_nat i) in let v := reverse_alphabet c in (v <? 0) || ((v <? 58) && Byte.eqb (symbol v) c)) (seq 0 256) = true)
    by (vm_compute; reflexivity).
  rewrite forallb_forall in H. specialize (H (Z.to_nat (u8 c))). pose proof (byte_range c). rewrite in_seq, Z2Nat.id, b8_u8 in H by lia.
  specialize (H ltac:(lia)). cbv zeta in H. destruct (Z.ltb_spec (reverse_alphabet c) 0) as [L|L]; [now left|right]. cbn [orb] in H. bprop.
  split; [lia|now apply byte_eqb_eq].
Qed.

Fixpoint places (n : nat) (v : Z) : list Z := match n with O => [] | S n => places n (v / 58) ++ [v mod 58] end.
(** The number a list of digits stands for, least significant digit first. *)
Fixpoint value (vs : list Z) : Z := match vs with [] => 0 | v :: vs => v + 58 * value vs end.
Abbreviation digits58 := (Forall (fun v => 0 <= v < 58)).

Lemma places_length n : forall v, length (places n v) = n.
Proof. induction n as [|n IH]; intros v; [reflexivity|]. cbn [places]. rewrite length_app, IH. cbn. lia. Qed.

Lemma places_digits n : forall v, digits58 (places n v).
Proof.
  induction n as [|n IH]; intros v; [constructor|]. cbn [places]. apply Forall_app. split; [apply IH|]. constructor; [apply Z.mod_pos_bound; lia|constructor].
Qed.

Lemma places_zero n : places n 0 = repeat 0 n.
Proof. induction n as [|n IH]; [reflexivity|]. cbn [places]. rewrite Z.div_0_l, Z.mod_0_l, IH by lia. symmetry. apply repeat_cons. Qed.

Lemma value_places n : forall v, 0 <= v < 58 ^ Z.of_nat n -> value (rev (places n v)) = v.
Proof.
  induction n as [|n IH]; intros v Hv; [cbn in *; lia|]. rewrite Nat2Z.inj_succ, Z.pow_succ_r in Hv by lia. cbn [places].
  rewrite rev_app_distr. cbn [rev app value]. rewrite IH; [dmlia|]. split; [apply Z.div_pos; lia|apply Z.div_lt_upper_bound; lia].
Qed.

Lemma places_value vs : digits58 vs -> places (length vs) (value (rev vs)) = vs.
Proof.
  induction vs as [|v vs IH] using rev_ind; intros F; [reflexivity|]. apply Forall_app in F as [F Fv]. apply Forall_cons_iff in Fv as [Hv _].
  rewrite length_app, rev_app_distr, Nat.add_1_r. cbn [places rev app value length]. rewrite (Z.mul_comm 58), Z.div_add, Z.mod_add by lia.
  rewrite Z.div_small, Z.mod_small, Z.add_0_l, IH by assumption. reflexivity.
Qed.

Lemma value_nonneg vs : digits58 vs -> 0 <= value vs.
Proof. induction 1; cbn [value]; lia. Qed.

Lemma symbols_inj us : forall ws, digits58 us -> digits58 ws -> map symbol us = map symbol ws -> us = ws.
Proof.
  induction us as [|u us IH]; intros [|w ws] Fu Fw Eq; try discriminate Eq; [reflexivity|]. injection Eq as E1 E2.
  apply Forall_cons_iff in Fu as [Hu Fu], Fw as [Hw Fw]. f_equal; [|now apply IH].
  rewrite <- (symbol_reverse u Hu), <- (symbol_reverse w Hw), E1. reflexivity.
Qed.

(** ** Encoding a block *)

Lemma set_nth_last {A} n (x y : A) tail : set_nth n x (repeat y (S n) ++ tail) = repeat y n ++ x :: tail.
Proof. induction n as [|n IH]; [reflexivity|]. cbn [repeat app set_nth]. f_equal. exact IH. Qed.

Lemma encode_loop_places fuel : forall n num tail, (n <= fuel)%nat -> 0 <= num < 58 ^ Z.of_nat n ->
  encode_loop fuel num (Z.of_nat n - 1) (repeat (symbol 0) n ++ tail) = map symbol (places n num) ++ tail.
Proof.
  induction fuel as [|fuel IH]; intros n num tail Hf Hn.
  - assert (n = 0%nat) as -> by lia. reflexivity.
  - cbn [encode_loop]. destruct (Z.ltb_spec 0 num) as [L|L].
    + destruct n as [|n]; [cbn in Hn; lia|]. rewrite Nat2Z.inj_succ, Z.pow_succ_r in Hn by lia.
      replace (Z.to_nat (Z.of_nat (S n) - 1)) with n by lia. rewrite set_nth_last. replace (Z.of_nat (S n) - 1 - 1) with (Z.of_nat n - 1) by lia.
      unfold alphabet_size. rewrite IH; [|lia|split; [apply Z.div_pos; lia|apply Z.div_lt_upper_bound; lia]].
      cbn [places]. rewrite map_app, <- app_assoc. reflexivity.
    + assert (num = 0) as -> by lia. rewrite places_zero, map_repeat. reflexivity.
Qed.

(** Every block size has room for its numbers. *)
Lemma block_room : forallb (fun n => 2 ^ (8 * Z.of_nat n) <=? 58 ^ Z.of_nat (nth n encoded_block_sizes 0%nat)) (seq 0 9) = true.
Proof. vm_compute. reflexivity. Qed.

Lemma block_fits n : (n <= 8)%nat -> 2 ^ (8 * Z.of_nat n) <= 58 ^ Z.of_nat (nth n encoded_block_sizes 0%nat).
Proof. intros H. pose proof block_room as B. rewrite forallb_forall in B. apply Z.leb_le, B, in_seq. lia. Qed.

Lemma block_sizes n : (n <= 8)%nat -> (nth n encoded_block_sizes 0 <= 11)%nat /\ decoded_block_sizes (nth n encoded_block_sizes 0%nat) = Z.of_nat n.
Proof. intros H. do 9 (destruct n as [|n]; [split; [cbn; lia|reflexivity]|]). lia. Qed.

Lemma encode_block_places block : (length block <= 8)%nat ->
  encode_block block = map symbol (places (nth (length block) encoded_block_sizes 0%nat) (uint_8be_to_64 block)).
Proof.
  intros L. unfold encode_block. set (size := nth _ _ _). rewrite <- (app_nil_r (repeat _ _)), <- (app_nil_r (map _ _)).
  apply encode_loop_places; [apply block_sizes, L|]. pose proof (be_range block L). pose proof (block_fits (length block) L). fold size in H0. lia.
Qed.

(** ** Decoding a block *)

(** Every partial sum is below [2 ^ 64], or the loop stops. *)
Lemma decode_loop_value block : forall k res, Z.of_nat k + Z.of_nat (length block) <= 11 -> 0 <= res < 2 ^ 64 ->
  match decode_loop block res (w64 (58 ^ Z.of_nat k)) with
  | Some num => exists vs, digits58 vs /\ block = map symbol vs /\ num = res + 58 ^ Z.of_nat k * value vs /\ num < 2 ^ 64
  | None => forall vs, digits58 vs -> block = map symbol vs -> 2 ^ 64 <= res + 58 ^ Z.of_nat k * value vs
  end.
Proof.
  induction block as [|c block IH]; intros k res Hk Hr; cbn [decode_loop].
  - exists []. split; [constructor|]. split; [reflexivity|]. cbn [value]. lia.
  - cbn [length] in Hk. assert (Hp : 0 < 58 ^ Z.of_nat k) by (apply Z.pow_pos_nonneg; lia).
    assert (Ho : 58 ^ Z.of_nat k < 2 ^ 64) by (apply Z.le_lt_trans with (58 ^ 10); [apply Z.pow_le_mono_r; lia|reflexivity]).
    set (order := 58 ^ Z.of_nat k) in *. rewrite (wrap_small 64 order) by (unfold in_w; lia).
    assert (Inv : forall vs, digits58 vs -> c :: block = map symbol vs -> exists ws, vs = reverse_alphabet c :: ws /\ digits58 ws /\ block = map symbol ws).
    { intros vs F E. destruct vs as [|v vs]; [discriminate|]. injection E as -> ->. apply Forall_cons_iff in F as [Hv F].
      exists vs. rewrite symbol_reverse by exact Hv. auto. }
    destruct (reverse_symbol c) as [Hd|[Hd Hc]].
    { rewrite (proj2 (Z.ltb_lt _ _) Hd). intros vs F E. destruct (Inv vs F E) as (ws & -> & _). apply Forall_cons_iff in F as [? _]. lia. }
    rewrite (proj2 (Z.ltb_ge _ _)) by lia. set (d := reverse_alphabet c) in *.
    pose proof (mul128_exact order d ltac:(unfold in_w; lia) ltac:(unfold in_w; lia)) as M. destruct (mul128 order d) as [lo hi]. destruct M as (M & Hlo & Hhi).
    unfold in_w in Hlo, Hhi.
    assert (Next : 58 ^ Z.of_nat (S k) = order * 58) by (unfold order; rewrite Nat2Z.inj_succ, Z.pow_succ_r by lia; lia).
    destruct ((w64 (res + lo) <? res) || negb (hi =? 0)) eqn:B.
    + intros vs F E. destruct (Inv vs F E) as (ws & -> & Fw & _). pose proof (value_nonneg ws Fw). cbn [value].
      assert (2 ^ 64 <= res + order * d); [|nia]. apply orb_true_iff in B as [B|B].
      * apply Z.ltb_lt in B. unfold wrap in B. destruct (Z.lt_ge_cases (res + lo) (2 ^ 64)) as [L|L]; [rewrite Z.mod_small in B by lia; lia|nia].
      * apply negb_true_iff, Z.eqb_neq in B. nia.
    + apply orb_false_iff in B as [B1 B2]. apply Z.ltb_ge in B1. apply negb_false_iff, Z.eqb_eq in B2. subst hi.
      assert (Hs : res + lo < 2 ^ 64).
      { destruct (Z.lt_ge_cases (res + lo) (2 ^ 64)) as [L|L]; [exact L|]. unfold wrap in B1.
        rewrite (Z.mod_eq _ (2 ^ 64)) in B1 by lia. assert (1 <= (res + lo) / 2 ^ 64) by (apply Z.div_le_lower_bound; lia). lia. }
      rewrite wrap_small in * by (unfold in_w; lia). unfold alphabet_size. rewrite <- Next.
      specialize (IH (S k) (res + lo) ltac:(lia) ltac:(lia)). destruct (decode_loop block (res + lo) (w64 (58 ^ Z.of_nat (S k)))) as [num|].
      * destruct IH as (vs & F & -> & E & L). exists (d :: vs). split; [now constructor|]. split; [cbn [map]; now rewrite Hc|]. split; [|exact L].
        rewrite E, Next. cbn [value]. lia.
      * intros vs F E. destruct (Inv vs F E) as (ws & -> & Fw & Eb). specialize (IH ws Fw Eb). rewrite Next in IH. cbn [value]. fold d. lia.
Qed.

Lemma encoded_size_inv n : 0 < decoded_block_sizes n -> exists m, (1 <= m <= 8)%nat /\ n = nth m encoded_block_sizes 0%nat /\ decoded_block_sizes n = Z.of_nat m.
Proof.
  intros H. do 12 (destruct n as [|n]; [first [exists 1%nat; split; [lia|split; reflexivity]|exists 2%nat; split; [lia|split; reflexivity]
    |exists 3%nat; split; [lia|split; reflexivity]|exists 4%nat; split; [lia|split; reflexivity]|exists 5%nat; split; [lia|split; reflexivity]
    |exists 6%nat; split; [lia|split; reflexivity]|exists 7%nat; split; [lia|split; reflexivity]|exists 8%nat; split; [lia|split; reflexivity]|vm_compute in H; discriminate H]|]).
  exfalso. unfold decoded_block_sizes in H. rewrite nth_overflow in H by (cbn; lia). lia.
Qed.

(** A block decodes exactly to the data it encodes. *)
Lemma decode_block_iff enc d : decode_block enc = Some d <-> (1 <= length d <= 8)%nat /\ enc = encode_block d.
Proof.
  unfold decode_block. split.
  - destruct (Z.leb_spec (decoded_block_sizes (length enc)) 0) as [L|L]; [discriminate|].
    destruct (encoded_size_inv _ L) as (m & Hm & El & Ed). rewrite Ed.
    destruct (block_sizes m ltac:(lia)) as [B11 _]. pose proof (decode_loop_value (rev enc) 0 0 ltac:(rewrite length_rev; lia) ltac:(lia)) as D.
    change (w64 (58 ^ Z.of_nat 0)) with 1 in D. destruct (decode_loop (rev enc) 0 1) as [num|]; [|discriminate].
    destruct D as (vs & F & E & -> & Hn). change (58 ^ Z.of_nat 0) with 1 in *. rewrite Z.add_0_l, Z.mul_1_l in *. pose proof (value_nonneg vs F) as Hv.
    assert (Lv : length vs = length enc) by (rewrite <- (length_rev enc), E, length_map; reflexivity).
    apply (f_equal (@rev _)) in E. rewrite rev_involutive, <- map_rev in E.
    assert (F' : digits58 (rev vs)) by (now apply Forall_rev).
    destruct ((Z.of_nat m <? 8) && _) eqn:G; [discriminate|].
    assert (Hb : 0 <= value vs < 2 ^ (8 * Z.of_nat m)).
    { split; [exact Hv|]. apply andb_false_iff in G as [G|G].
      - apply Z.ltb_ge in G. assert (m = 8%nat) as -> by lia. exact Hn.
      - rewrite Z.shiftl_mul_pow2, Z.mul_1_l in G by lia. now apply Z.leb_gt in G. }
    intros [= <-]. rewrite Nat2Z.id. assert (Lw : length (uint_64_to_8be (value vs) m) = m) by (rewrite be_written, length_rev, length_le_split by lia; reflexivity).
    rewrite Lw. split; [exact Hm|]. rewrite encode_block_places, Lw, be_value_written by (lia || assumption). rewrite E. f_equal.
    rewrite <- El, <- Lv, <- (length_rev vs). rewrite <- (rev_involutive vs) at 3. symmetry. apply places_value, F'.
  - intros [Hl ->]. destruct (block_sizes (length d) ltac:(lia)) as [B11 Bd]. rewrite encode_block_places by lia.
    rewrite length_map, places_length, Bd, (proj2 (Z.leb_gt _ _)) by lia. set (n := nth _ _ _) in *. set (num := uint_8be_to_64 d).
    pose proof (be_range d ltac:(lia)) as R. fold num in R. pose proof (block_fits (length d) ltac:(lia)) as Fit. fold n in Fit.
    assert (Hn : num < 2 ^ 64) by (assert (2 ^ (8 * Z.of_nat (length d)) <= 2 ^ 64) by (apply Z.pow_le_mono_r; lia); lia).
    pose proof (decode_loop_value (rev (map symbol (places n num))) 0 0 ltac:(rewrite length_rev, length_map, places_length; lia) ltac:(lia)) as D.
    change (w64 (58 ^ Z.of_nat 0)) with 1 in D. change (58 ^ Z.of_nat 0) with 1 in D. rewrite <- map_rev in D |- *.
    assert (V : value (rev (places n num)) = num) by (apply value_places; lia).
    destruct (decode_loop (map symbol (rev (places n num))) 0 1) as [x|].
    + destruct D as (vs & F & E & -> & _). assert (vs = rev (places n num)) as ->.
      { symmetry. apply symbols_inj; [apply Forall_rev, places_digits|exact F|exact E]. }
      rewrite Z.add_0_l, Z.mul_1_l, V. replace (_ && _) with false; [rewrite Nat2Z.id; unfold num; rewrite be_roundtrip by lia; reflexivity|].
      symmetry. apply andb_false_iff. right. apply Z.leb_gt. rewrite Z.shiftl_mul_pow2 by lia. lia.
    + exfalso. specialize (D (rev (places n num)) (Forall_rev (places_digits n num)) eq_refl). rewrite V in D. lia.
Qed.

Lemma encode_block_length d : (length d <= 8)%nat -> length (encode_block d) = nth (length d) encoded_block_sizes 0%nat.
Proof. intros L. now rewrite encode_block_places, length_map, places_length. Qed.

(** ** Whole strings *)

Lemma full_block d : (1 <= length d <= 8)%nat -> (length (encode_block d) = 11%nat <-> length d = 8%nat) /\ (length (encode_block d) <= 11)%nat.
Proof.
  intros L. rewrite encode_block_length by lia. destruct (length d) as [|n]; [lia|]. do 8 (destruct n as [|n]; [cbn; split; [split; lia|lia]|]). lia.
Qed.

Lemma decode_blocks_iff n : forall enc d, (11 * n <= length enc < 11 * n + 11)%nat ->
  decode_blocks n enc = Some d <-> (8 * n <= length d < 8 * n + 8)%nat /\ enc = encode_blocks n d.
Proof.
  induction n as [|n IH]; intros enc d L; cbn [decode_blocks encode_blocks].
  - destruct enc as [|c enc].
    + split; [intros [= <-]; cbn; split; [lia|reflexivity]|]. intros [Hd E]. destruct d as [|x d]; [reflexivity|exfalso].
      apply (f_equal (@length _)) in E. rewrite encode_block_length in E by lia. destruct (length (x :: d)) as [|k] eqn:K; [discriminate K|].
      do 8 (destruct k as [|k]; [discriminate E|]). lia.
    + rewrite decode_block_iff. split.
      * intros [Hd E]. destruct (full_block d Hd) as [[_ F] _]. rewrite <- E in F. assert (length d <> 8%nat) by (intros H; specialize (F H); lia).
        destruct d; [cbn in Hd; lia|]. split; [lia|exact E].
      * intros [Hd E]. destruct d as [|x d]; [discriminate E|]. split; [cbn [length] in *; lia|exact E].
  - unfold full_encoded_block_size, full_block_size. destruct (split_at 11 enc) as (a & b & -> & La & Lb); [lia|]. rewrite length_app in L.
    rewrite firstn_app_exact, skipn_app_exact by exact La. destruct (decode_block a) as [x|] eqn:D.
    + apply decode_block_iff in D as [Hx ->]. destruct (full_block x Hx) as [[F _] _]. specialize (F La). specialize (IH b).
      destruct (decode_blocks n b) as [y|]; cbn [option_map].
      * destruct (proj1 (IH y ltac:(lia)) eq_refl) as [Hy ->]. split.
        -- intros [= <-]. rewrite length_app, firstn_app_exact, skipn_app_exact by exact F. split; [lia|reflexivity].
        -- intros [Hd E]. destruct (split_at 8 d) as (u & w & -> & Lu & Lw); [lia|]. rewrite firstn_app_exact, skipn_app_exact in E by exact Lu.
           apply app_inj_len in E as [E1 E2]; [|destruct (full_block u ltac:(lia)) as [[_ G] _]; rewrite (G Lu); exact La].
           assert (Some x = Some u) as [= ->] by (rewrite <- (proj2 (decode_block_iff (encode_block x) x) (conj Hx eq_refl)); apply decode_block_iff; split; [lia|exact E1]).
           rewrite length_app in Hd. assert (S : Some y = Some w) by (apply IH; [lia|split; [lia|exact E2]]). now injection S as ->.
      * split; [discriminate|]. intros [Hd E]. exfalso. destruct (split_at 8 d) as (u & w & -> & Lu & Lw); [lia|].
        rewrite firstn_app_exact, skipn_app_exact in E by exact Lu. rewrite length_app in Hd.
        apply app_inj_len in E as [_ E2]; [|destruct (full_block u ltac:(lia)) as [[_ G] _]; rewrite (G Lu); exact La].
        assert (S : None = Some w) by (apply IH; [lia|split; [lia|exact E2]]). discriminate S.
    + split; [discriminate|]. intros [Hd E]. exfalso. destruct (split_at 8 d) as (u & w & -> & Lu & Lw); [lia|].
      rewrite firstn_app_exact, skipn_app_exact in E by exact Lu.
      apply app_inj_len in E as [E1 _]; [|destruct (full_block u ltac:(lia)) as [[_ G] _]; rewrite (G Lu); exact La].
      assert (S : decode_block a = Some u) by (apply decode_block_iff; split; [lia|exact E1]). congruence.
Qed.

Lemma encode_blocks_length n : forall d, (8 * n <= length d < 8 * n + 8)%nat ->
  length (encode_blocks n d) = (11 * n + nth (length d - 8 * n) encoded_block_sizes 0)%nat /\ (nth (length d - 8 * n) encoded_block_sizes 0 < 11)%nat.
Proof.
  induction n as [|n IH]; intros d Hd.
  - rewrite Nat.sub_0_r, Nat.add_0_l. split; [destruct d as [|x d]; [reflexivity|]; cbn [encode_blocks]; apply encode_block_length; lia|].
    destruct (length d) as [|k]; [cbn; lia|]. do 7 (destruct k as [|k]; [cbn; lia|]). lia.
  - cbn [encode_blocks]. unfold full_block_size. destruct (split_at 8 d) as (u & w & -> & Lu & Lw); [lia|]. rewrite length_app in *.
    rewrite firstn_app_exact, skipn_app_exact by exact Lu. rewrite length_app, encode_block_length, Lu by lia.
    destruct (IH w ltac:(lia)) as [E B]. rewrite E. replace (8 + length w - 8 * S n)%nat with (length w - 8 * n)%nat by lia.
    split; [change (nth 8 encoded_block_sizes 0%nat) with 11%nat; lia|exact B].
Qed.

(** Decoding accepts exactly what the encoder writes: a string decodes to some data
    if and only if it is the encoding of that data. *)
Theorem base58_exact enc d : decode enc = Some d <-> enc = encode d.
Proof.
  unfold decode, encode, full_encoded_block_size, full_block_size.
  assert (Le : (11 * (length enc / 11) <= length enc < 11 * (length enc / 11) + 11)%nat)
    by (pose proof (Nat.div_mod_eq (length enc) 11); pose proof (Nat.mod_upper_bound (length enc) 11); lia).
  assert (Ld : (8 * (length d / 8) <= length d < 8 * (length d / 8) + 8)%nat)
    by (pose proof (Nat.div_mod_eq (length d) 8); pose proof (Nat.mod_upper_bound (length d) 8); lia).
  assert (Key : forall n, (8 * n <= length d < 8 * n + 8)%nat -> enc = encode_blocks n d ->
    (length enc / 11 = n)%nat /\ 0 <= decoded_block_sizes (length enc mod 11)).
  { intros n Hn ->. destruct (encode_blocks_length n d Hn) as [E B]. rewrite E, (Nat.mul_comm 11), Nat.div_add_l, Nat.div_small by lia.
    rewrite (Nat.add_comm (n * 11)), Nat.Div0.mod_add, Nat.mod_small by lia. split; [lia|]. destruct (block_sizes (length d - 8 * n) ltac:(lia)) as [_ ->]. lia. }
  split.
  - destruct (decoded_block_sizes _ <? 0); [discriminate|]. intros H. apply decode_blocks_iff in H as [Hd E]; [|exact Le].
    replace (length d / 8)%nat with (length enc / 11)%nat by lia. exact E.
  - intros H. destruct (Key _ Ld H) as [En Hs]. rewrite (proj2 (Z.ltb_ge _ _) Hs). apply decode_blocks_iff; [exact Le|]. rewrite En. split; [exact Ld|exact H].
Qed.

Section Addresses.
Variable cn_fast_hash : bytes -> bytes.
Hypothesis cn_fast_hash_size : forall m, length (cn_fast_hash m) = 32%nat.

Abbreviation checksummed p := (p ++ firstn addr_checksum_size (cn_fast_hash p)).

Lemma decode_addr_payload a r : decode_addr cn_fast_hash a = Some r <->
  exists p, p <> [] /\ a = encode (checksummed p) /\
    let '(read, tag, _) := Tools.read_varint 64 p in 0 < read /\ r = (tag, skipn (Z.to_nat read) p).
Proof.
  assert (Lc : forall p, length (firstn addr_checksum_size (cn_fast_hash p)) = 4%nat) by (intros p; rewrite length_firstn, cn_fast_hash_size; reflexivity).
  unfold decode_addr. split.
  - destruct (decode a) as [x|] eqn:D; [|discriminate]. apply base58_exact in D as ->. destruct (Nat.leb_spec (length x) addr_checksum_size) as [|L]; [discriminate|].
    destruct (split_at (length x - addr_checksum_size) x) as (p & ck & -> & Lp & Lk); [lia|]. rewrite skipn_app_exact, firstn_app_exact by exact Lp.
    destruct (_ ==b ck) eqn:E; [|discriminate]. apply bytes_eqb_eq in E. cbn [negb]. destruct (Tools.read_varint 64 p) as [[read tag] rest] eqn:R.
    destruct (Z.leb_spec read 0) as [|Hr]; [discriminate|]. intros [= <-]. exists p. rewrite R, E. unfold addr_checksum_size in *.
    split; [intros ->; cbn [app length] in *; lia|]. auto.
  - intros (p & Hp & -> & H). rewrite (proj2 (base58_exact _ (checksummed p)) eq_refl). rewrite length_app, Lc, (proj2 (Nat.leb_gt _ _)).
    + replace (length p + 4 - addr_checksum_size)%nat with (length p) by (unfold addr_checksum_size; lia).
      rewrite skipn_app_exact, firstn_app_exact by reflexivity. rewrite bytes_eqb_refl. cbn [negb].
      destruct (Tools.read_varint 64 p) as [[read tag] rest]. destruct H as [Hr ->]. now rewrite (proj2 (Z.leb_gt _ _) Hr).
    + unfold addr_checksum_size. destruct p; [contradiction|]. cbn [length]. lia.
Qed.

Lemma readVarint_errors w s : forall shift temp e, StreamTools.readVarint_loop w shift temp s = Err e ->
  e = EndOfStream \/ e = VarintOverflow \/ e = VarintInvalid.
Proof.
  induction s as [|b s IH]; intros shift temp e H; cbn [StreamTools.readVarint_loop] in H; [injection H as <-; auto|].
  repeat match type of H with (if ?b then _ else _) = _ => destruct b end; try (injection H as <-; auto); try discriminate H. exact (IH _ _ _ H).
Qed.

(** A tagged string reads back what was written. Whatever is accepted was written
    by the encoder, or its payload ends inside the tag: the template reader counts
    the bytes it saw as read, and the tag is what they said so far. *)
Theorem base58_addr_exact a tag data : decode_addr cn_fast_hash a = Some (tag, data) <->
  (in_w 64 tag /\ a = encode_addr cn_fast_hash tag data) \/
  (exists p, p <> [] /\ StreamTools.readVarint 64 p = Err EndOfStream /\ a = encode (checksummed p) /\ data = [] /\
     tag = snd (fst (Tools.read_varint 64 p))).
Proof.
  assert (W : forall v, in_w 64 v -> Tools.get_varint_data v = StreamTools.writeVarint v) by (intros v [Hv _]; now apply tools_write_varint_eq).
  rewrite decode_addr_payload. split.
  - intros (p & Hp & -> & H). pose proof (read_varint_agrees 64 p) as A. destruct (StreamTools.readVarint 64 p) as [[v r]|e] eqn:R.
    + apply readVarint_iff in R as [Hv ->]; [|lia..]. rewrite A in H. destruct H as [_ [= -> ->]]. left. split; [exact Hv|]. unfold encode_addr.
      rewrite length_app, W by exact Hv. replace (Z.to_nat _) with (length (StreamTools.writeVarint v)) by lia. now rewrite skipn_app_exact.
    + destruct (readVarint_errors 64 p 0 0 e R) as [->|[->| ->]].
      * destruct A as [v A]. rewrite A in H. destruct H as [_ [= -> ->]]. right. exists p. rewrite A, Nat2Z.id, skipn_all. auto.
      * destruct (Tools.read_varint 64 p) as [[read v] r]. cbn in A. lia.
      * destruct (Tools.read_varint 64 p) as [[read v] r]. cbn in A. lia.
  - intros [[Hv ->]|(p & Hp & R & -> & -> & ->)].
    + exists (Tools.get_varint_data tag ++ data). rewrite W by exact Hv. pose proof (writeVarint_nonnil tag) as N.
      split; [intros E; apply app_eq_nil in E; tauto|]. split; [unfold encode_addr; now rewrite W|]. pose proof (read_varint_agrees 64 (StreamTools.writeVarint tag ++ data)) as A.
      assert (R : StreamTools.readVarint 64 (StreamTools.writeVarint tag ++ data) = Ok (tag, data)) by (apply readVarint_iff; [lia..|auto]).
      rewrite R in A. rewrite A, length_app.
      destruct (StreamTools.writeVarint tag) as [|x l] eqn:E; [contradiction|]. split; [cbn [length]; lia|].
      replace (Z.to_nat _) with (length (x :: l)) by lia. now rewrite skipn_app_exact.
    + exists p. split; [exact Hp|]. split; [reflexivity|]. pose proof (read_varint_agrees 64 p) as A. rewrite R in A. destruct A as [v A]. rewrite A.
      destruct p as [|x p]; [contradiction|]. split; [cbn [length]; lia|]. cbn [fst snd]. now rewrite Nat2Z.id, skipn_all.
Qed.
End Addresses.

(** Such a payload exists: one byte that announces another. *)
Lemma truncated_tag_accepted :
  let h := fun m : bytes => firstn 32 (rev m ++ repeat (b8 1) 32) in
  decode_addr h (encode ([b8 0x83] ++ firstn 4 (h [b8 0x83]))) = Some (3, []) /\
  encode ([b8 0x83] ++ firstn 4 (h [b8 0x83])) <> encode_addr h 3 [].
Proof. vm_compute. split; [reflexivity|discriminate]. Qed.
