(* ===== verification/PqOutputs.v ===== *)
(** * Outputs: building and scanning

    The wallet's side of a payment: the sender builds an output for an address
    ([crypto_pq/PqOutputBuilder.cpp]) and the receiver recognises it
    ([crypto_pq/PqScan.cpp]).

    ML-KEM and ChaCha20-Poly1305 are libraries, and with SHA3 the parameters of this
    file. Of the cipher the theorems use what RFC 8439 says of it: it adds a tag of
    sixteen bytes, and decryption gives back a message exactly for what encryption
    makes of that message. *)

From Stdlib Require Import ZArith String List Lia Bool Permutation Sorted.
From coqutil Require Import Byte Word.LittleEndianList.
From S2P Require Import Prelude PqHash PqDerive Bech32.
Import ListNotations.
Open Scope string_scope.
Open Scope list_scope.
Open Scope Z_scope.
Open Scope discrete_scope.
Import Bech32 PqDerive.

Module PqOutputs.

Definition kAeadTagBytes : nat := 16.
Inductive PqScanMode := Compatible | StrictV2.

Record PqBuiltOutput := mkPqBuiltOutput {
  b_kemCt : bytes;
  b_encPayload : bytes;
  b_spendCommit : bytes;
  b_outContext : bytes;
  b_rho : bytes
}.

Record PqOwnedOutput := mkPqOwnedOutput {
  w_outputIndex : Z;
  w_amount : Z;
  w_subaddrIndexT : Z;
  w_rho : bytes;
  w_outContext : bytes
}.

Record PqScanKeys := mkPqScanKeys { viewSk : bytes; k_spendPub : bytes }.

Record PqScanOutput := mkPqScanOutput {
  s_outputIndex : Z;
  s_amount : Z;
  s_kemCt : bytes;
  s_encPayload : bytes;
  s_spendCommit : bytes
}.

Record DecryptedPayload := mkDecryptedPayload { dp_rho : bytes; dp_subaddrIndexT : Z }.

Section Crypto.
Variable sha3_256 : bytes -> bytes.
(** [OQS_KEM_ml_kem_768_decaps]: secret key, ciphertext. *)
Variable kem_decaps : bytes -> bytes -> bytes.
(** [chacha20poly1305_ietf_encrypt] and [_decrypt]: key, nonce, associated data,
    and the message or the ciphertext with its tag. *)
Variable chacha_encrypt : bytes -> bytes -> bytes -> bytes -> bytes.
Variable chacha_decrypt : bytes -> bytes -> bytes -> bytes -> option bytes.

Definition aead_encrypt (key nonce aad msg : bytes) : bytes := chacha_encrypt key nonce aad msg.
Definition aead_decrypt (key nonce aad inp : bytes) : option bytes :=
  if (length inp <? kAeadTagBytes)%nat then None else chacha_decrypt key nonce aad inp.

Definition zero_nonce : bytes := repeat (b8 0) 12.
Definition makeAad (outContext : bytes) (amount : Z) : bytes := outContext ++ le64 amount.

(** ** The sender *)

Definition buildPqOutput (kemCt ss recipientSpendPub inputsHash : bytes) (outputIndex amount : Z) (rho : bytes) (subaddrIndexT : Z)
  : PqBuiltOutput :=
  let oc := outContext sha3_256 inputsHash kemCt outputIndex in
  let aeadKey := deriveAeadKey sha3_256 ss oc in
  let plaintext := rho ++ le64 subaddrIndexT in
  mkPqBuiltOutput kemCt (aead_encrypt aeadKey zero_nonce (makeAad oc amount) plaintext)
    (spendCommit sha3_256 recipientSpendPub rho) oc rho.

(** ** The receiver *)

Definition tryDecrypt (ss oc : bytes) (out : PqScanOutput) : option DecryptedPayload :=
  let aeadKey := deriveAeadKey sha3_256 ss oc in
  match aead_decrypt aeadKey zero_nonce (makeAad oc (s_amount out)) (s_encPayload out) with
  | None => None
  | Some pt =>
      if negb (length pt =? 40)%nat then None
      else Some (mkDecryptedPayload (firstn 32 pt) (le_combine (firstn 8 (skipn 32 pt))))
  end.

Definition finishOwned (spendPub : bytes) (out : PqScanOutput) (dp : DecryptedPayload) (oc : bytes) : option PqOwnedOutput :=
  if negb (spendCommit sha3_256 spendPub (dp_rho dp) ==b s_spendCommit out) then None
  else Some (mkPqOwnedOutput (s_outputIndex out) (s_amount out) (dp_subaddrIndexT dp) (dp_rho dp) oc).

Definition try_context (ss spendPub oc : bytes) (out : PqScanOutput) (accepts : Z -> bool) : option PqOwnedOutput :=
  match tryDecrypt ss oc out with
  | Some dp => if accepts (dp_subaddrIndexT dp) then finishOwned spendPub out dp oc else None
  | None => None
  end.

Definition tryOwned (ss spendPub inputsHash : bytes) (out : PqScanOutput) (mode : PqScanMode) : option PqOwnedOutput :=
  match try_context ss spendPub (outContext sha3_256 inputsHash (s_kemCt out) (s_outputIndex out)) out (fun _ => true) with
  | Some owned => Some owned
  | None =>
      match mode with
      | StrictV2 => None
      | Compatible =>
          try_context ss spendPub (legacyOutContextV1 sha3_256 inputsHash (s_kemCt out) (s_outputIndex out) 0) out (fun t => t =? 0)
      end
  end.

(** [for (t = firstT; t < maxT; ++t)], [n] rounds. *)
Fixpoint legacy_window (n : nat) (ss spendPub inputsHash : bytes) (out : PqScanOutput) (t : Z) : option PqOwnedOutput :=
  match n with
  | O => None
  | S n =>
      match try_context ss spendPub (legacyOutContextV1 sha3_256 inputsHash (s_kemCt out) (s_outputIndex out) t) out (fun x => x =? t) with
      | Some owned => Some owned
      | None => legacy_window n ss spendPub inputsHash out (t + 1)
      end
  end.
Definition tryOwnedLegacyTWindow (ss spendPub inputsHash : bytes) (out : PqScanOutput) (firstT maxT : Z) : option PqOwnedOutput :=
  legacy_window (Z.to_nat (maxT - firstT)) ss spendPub inputsHash out firstT.

Definition scanPqOutputWithSharedSecret := tryOwned.

Definition scanPqOutput (keys : PqScanKeys) (inputsHash : bytes) (out : PqScanOutput) (mode : PqScanMode) : option PqOwnedOutput :=
  scanPqOutputWithSharedSecret (kem_decaps (viewSk keys) (s_kemCt out)) (k_spendPub keys) inputsHash out mode.

Definition scanPqOutputWithLegacyTWindow (keys : PqScanKeys) (inputsHash : bytes) (out : PqScanOutput) (maxT : Z) (mode : PqScanMode)
  : option PqOwnedOutput :=
  let ss := kem_decaps (viewSk keys) (s_kemCt out) in
  match tryOwned ss (k_spendPub keys) inputsHash out mode with
  | Some owned => Some owned
  | None =>
      match mode with
      | StrictV2 => None
      | Compatible => tryOwnedLegacyTWindow ss (k_spendPub keys) inputsHash out 1 maxT
      end
  end.

Definition scanPqOutputLegacyTWindow (keys : PqScanKeys) (inputsHash : bytes) (out : PqScanOutput) (maxT : Z) : option PqOwnedOutput :=
  tryOwnedLegacyTWindow (kem_decaps (viewSk keys) (s_kemCt out)) (k_spendPub keys) inputsHash out 0 maxT.

Fixpoint scanPqOutputs (keys : PqScanKeys) (inputsHash : bytes) (outputs : list PqScanOutput) (mode : PqScanMode) : list PqOwnedOutput :=
  match outputs with
  | [] => []
  | o :: outputs =>
      match scanPqOutput keys inputsHash o mode with
      | Some rec => rec :: scanPqOutputs keys inputsHash outputs mode
      | None => scanPqOutputs keys inputsHash outputs mode
      end
  end.

(** The first spend key, from index [i] on, that the commitment opens to. *)
Fixpoint matching_deposit (spendPubs : list bytes) (i : Z) (rho commit : bytes) : option Z :=
  match spendPubs with
  | [] => None
  | sp :: spendPubs => if spendCommit sha3_256 sp rho ==b commit then Some i else matching_deposit spendPubs (i + 1) rho commit
  end.
Definition scanPqOutputAggregate (viewSk : bytes) (spendPubs : list bytes) (inputsHash : bytes) (out : PqScanOutput) (mode : PqScanMode)
  : option (PqOwnedOutput * Z) :=
  let ss := kem_decaps viewSk (s_kemCt out) in
  let oc := outContext sha3_256 inputsHash (s_kemCt out) (s_outputIndex out) in
  let '(oc, dp) :=
    match tryDecrypt ss oc out, mode with
    | None, Compatible =>
        let oc := legacyOutContextV1 sha3_256 inputsHash (s_kemCt out) (s_outputIndex out) 0 in (oc, tryDecrypt ss oc out)
    | dp, _ => (oc, dp)
    end in
  match dp with
  | None => None
  | Some dp =>
      if negb (dp_subaddrIndexT dp =? 0) then None
      else
        match matching_deposit spendPubs 0 (dp_rho dp) (s_spendCommit out) with
        | None => None
        | Some i => Some (mkPqOwnedOutput (s_outputIndex out) (s_amount out) (dp_subaddrIndexT dp) (dp_rho dp) oc, i)
        end
  end.

(** [buildPqOutput] with fresh randomness: [encaps] and [rho] are what ML-KEM and
    the system gave it; [None] is the exception of the failed self-check. *)
Definition buildPqOutput_checked (encaps : bytes * bytes) (rho : bytes) (recipientSpendPub inputsHash : bytes) (outputIndex amount subaddrIndexT : Z)
  : option PqBuiltOutput :=
  let output := buildPqOutput (fst encaps) (snd encaps) recipientSpendPub inputsHash outputIndex amount rho subaddrIndexT in
  let scan := mkPqScanOutput outputIndex amount (b_kemCt output) (b_encPayload output) (b_spendCommit output) in
  match scanPqOutputWithSharedSecret (snd encaps) recipientSpendPub inputsHash scan StrictV2 with
  | Some owned => if w_subaddrIndexT owned =? subaddrIndexT then Some output else None
  | None => None
  end.

End Crypto.
End PqOutputs.
Import PqOutputs.

(** ** Recognition

    What the cipher promises. *)

Class Aead (chacha_encrypt : bytes -> bytes -> bytes -> bytes -> bytes) (chacha_decrypt : bytes -> bytes -> bytes -> bytes -> option bytes) : Prop := {
  aead_size : forall k n a m, length (chacha_encrypt k n a m) = (length m + 16)%nat;
  aead_exact : forall k n a c m, chacha_decrypt k n a c = Some m <-> c = chacha_encrypt k n a m
}.

Section Recognition.
Variable sha3_256 : bytes -> bytes.
Variable kem_decaps : bytes -> bytes -> bytes.
Variable chacha_encrypt : bytes -> bytes -> bytes -> bytes -> bytes.
Variable chacha_decrypt : bytes -> bytes -> bytes -> bytes -> option bytes.
Context {aead : Aead chacha_encrypt chacha_decrypt}.

Abbreviation tryDecrypt := (tryDecrypt sha3_256 chacha_decrypt).
Abbreviation finishOwned := (finishOwned sha3_256).
Abbreviation try_context := (try_context sha3_256 chacha_decrypt).
Abbreviation tryOwned := (tryOwned sha3_256 chacha_decrypt).
Abbreviation scanPqOutput := (scanPqOutput sha3_256 kem_decaps chacha_decrypt).
Abbreviation buildPqOutput := (buildPqOutput sha3_256 chacha_encrypt).

(** The payload an output of either format carries. *)
Definition sealed (ss oc : bytes) (amount : Z) (rho : bytes) (t : Z) : bytes :=
  aead_encrypt chacha_encrypt (deriveAeadKey sha3_256 ss oc) zero_nonce (makeAad oc amount) (rho ++ le64 t).

Lemma aead_decrypt_iff k a c m : aead_decrypt chacha_decrypt k zero_nonce a c = Some m <-> c = aead_encrypt chacha_encrypt k zero_nonce a m.
Proof.
  unfold aead_decrypt, aead_encrypt. destruct (Nat.ltb_spec (length c) kAeadTagBytes) as [L|L].
  - split; [discriminate|]. intros ->. rewrite aead_size in L. unfold kAeadTagBytes in L. lia.
  - apply aead_exact.
Qed.

Lemma le64_combine l : length l = 8%nat -> le64 (le_combine l) = l /\ in_w 64 (le_combine l).
Proof.
  intros L. unfold le64, in_w. split; [now apply split_le_combine'|]. pose proof (le_combine_bound l) as B. now rewrite L in B.
Qed.

Lemma combine_le64 t : in_w 64 t -> le_combine (le64 t) = t /\ length (le64 t) = 8%nat.
Proof. intros H. unfold le64. rewrite le_combine_split, length_le_split. split; [now apply Z.mod_small|reflexivity]. Qed.

Lemma tryDecrypt_iff ss oc out dp : tryDecrypt ss oc out = Some dp <->
  length (dp_rho dp) = 32%nat /\ in_w 64 (dp_subaddrIndexT dp) /\ s_encPayload out = sealed ss oc (s_amount out) (dp_rho dp) (dp_subaddrIndexT dp).
Proof.
  unfold PqOutputs.tryDecrypt, sealed. split.
  - destruct (aead_decrypt _ _ _ _ _) as [pt|] eqn:D; [|discriminate]. apply aead_decrypt_iff in D.
    destruct (Nat.eqb_spec (length pt) 40) as [L|]; cbn [negb]; [|discriminate].
    destruct (split_at 32 pt) as (rho & t & -> & Lr & Lt); [lia|]. rewrite firstn_app_exact, skipn_app_exact by exact Lr.
    rewrite firstn_all2 by lia. intros [= <-]. cbn [dp_rho dp_subaddrIndexT]. destruct (le64_combine t ltac:(lia)) as [E B]. rewrite E. auto.
  - intros (Lr & Ht & E). destruct dp as [rho t]. cbn [dp_rho dp_subaddrIndexT] in *. destruct (combine_le64 t Ht) as [Et Lt].
    rewrite (proj2 (aead_decrypt_iff _ _ _ _) E). rewrite length_app, Lr, Lt. cbn [Nat.add Nat.eqb negb].
    rewrite firstn_app_exact, skipn_app_exact by exact Lr. now rewrite firstn_all2, Et by lia.
Qed.

(** An output sealed under [oc] for the spend key, and the record it gives. *)
Definition opens (ss spendPub oc : bytes) (out : PqScanOutput) (w : PqOwnedOutput) : Prop :=
  length (w_rho w) = 32%nat /\ in_w 64 (w_subaddrIndexT w) /\
  s_encPayload out = sealed ss oc (s_amount out) (w_rho w) (w_subaddrIndexT w) /\
  s_spendCommit out = spendCommit sha3_256 spendPub (w_rho w) /\
  w = mkPqOwnedOutput (s_outputIndex out) (s_amount out) (w_subaddrIndexT w) (w_rho w) oc.

Lemma try_context_iff ss spendPub oc out ok w : try_context ss spendPub oc out ok = Some w <->
  opens ss spendPub oc out w /\ ok (w_subaddrIndexT w) = true.
Proof.
  unfold PqOutputs.try_context, PqOutputs.finishOwned, opens. split.
  - destruct (tryDecrypt ss oc out) as [dp|] eqn:D; [|discriminate]. apply tryDecrypt_iff in D as (Lr & Ht & E).
    destruct (ok (dp_subaddrIndexT dp)) eqn:K; [|discriminate]. destruct (_ ==b _) eqn:C; [|discriminate]. intros [= <-].
    apply bytes_eqb_eq in C. cbn. auto 8.
  - intros ((Lr & Ht & E & C & ->) & K). cbn [w_rho w_subaddrIndexT] in *.
    rewrite (proj2 (tryDecrypt_iff ss oc out (mkDecryptedPayload (w_rho w) (w_subaddrIndexT w)))) by (cbn; auto).
    cbn [dp_rho dp_subaddrIndexT]. rewrite K, C, bytes_eqb_refl. reflexivity.
Qed.

Lemma opens_unique ss spendPub oc out w w' : opens ss spendPub oc out w -> opens ss spendPub oc out w' -> w = w'.
Proof.
  intros H H'. assert (E : Some w = Some w'); [|now injection E].
  rewrite <- (proj2 (try_context_iff ss spendPub oc out (fun _ => true) w) (conj H eq_refl)). now apply try_context_iff.
Qed.

Abbreviation current inputsHash out := (outContext sha3_256 inputsHash (s_kemCt out) (s_outputIndex out)).
Abbreviation legacy inputsHash out t := (legacyOutContextV1 sha3_256 inputsHash (s_kemCt out) (s_outputIndex out) t).

Lemma tryOwned_iff ss spendPub ih out mode w : tryOwned ss spendPub ih out mode = Some w <->
  opens ss spendPub (current ih out) out w \/
  (mode = Compatible /\ (forall w', ~ opens ss spendPub (current ih out) out w') /\
   w_subaddrIndexT w = 0 /\ opens ss spendPub (legacy ih out 0) out w).
Proof.
  unfold PqOutputs.tryOwned. destruct (try_context ss spendPub (current ih out) out (fun _ => true)) as [x|] eqn:T.
  - apply try_context_iff in T as [T _]. split; [intros [= <-]; auto|]. intros [H|(_ & N & _)]; [f_equal; exact (opens_unique _ _ _ _ _ _ T H)|].
    destruct (N x T).
  - assert (N : forall w', ~ opens ss spendPub (current ih out) out w').
    { intros w' H. rewrite (proj2 (try_context_iff ss spendPub (current ih out) out (fun _ => true) w')) in T by auto. discriminate. }
    destruct mode.
    + rewrite try_context_iff, Z.eqb_eq. split; [intros [H Z0]; auto 8|]. intros [H|(_ & _ & Z0 & H)]; [destruct (N w H)|auto].
    + split; [discriminate|]. intros [H|([=] & _)]. destruct (N w H).
Qed.

Lemma sealed_built kemCt ss spendPub ih i amount rho t :
  b_encPayload (buildPqOutput kemCt ss spendPub ih i amount rho t) = sealed ss (outContext sha3_256 ih kemCt i) amount rho t.
Proof. reflexivity. Qed.

(** The output as it appears on the chain. *)
Definition on_chain (i amount : Z) (b : PqBuiltOutput) : PqScanOutput := mkPqScanOutput i amount (b_kemCt b) (b_encPayload b) (b_spendCommit b).

(** A strict scan recognises exactly what the builder makes for the scanner's spend
    key with the shared secret it decapsulates, and reads back the amount, the route
    and the opening of the commitment. *)
Theorem scan_exact keys ih out w : scanPqOutput keys ih out StrictV2 = Some w <->
  exists rho t, length rho = 32%nat /\ in_w 64 t /\
    let b := buildPqOutput (s_kemCt out) (kem_decaps (viewSk keys) (s_kemCt out)) (k_spendPub keys) ih (s_outputIndex out) (s_amount out) rho t in
    out = on_chain (s_outputIndex out) (s_amount out) b /\ w = mkPqOwnedOutput (s_outputIndex out) (s_amount out) t rho (b_outContext b).
Proof.
  unfold PqOutputs.scanPqOutput, scanPqOutputWithSharedSecret. rewrite tryOwned_iff. split.
  - intros [(Lr & Ht & E & C & Ew)|([=] & _)]. exists (w_rho w), (w_subaddrIndexT w). split; [exact Lr|]. split; [exact Ht|]. split; [|exact Ew].
    destruct out as [i a ct enc sc]. exact (f_equal2 (mkPqScanOutput i a ct) E C).
  - intros (rho & t & Lr & Ht & Eo & ->). left. unfold opens. cbn [w_rho w_subaddrIndexT]. split; [exact Lr|]. split; [exact Ht|].
    split; [exact (f_equal s_encPayload Eo)|]. split; [exact (f_equal s_spendCommit Eo)|reflexivity].
Qed.

Lemma window_finds ss spendPub ih out t w n : opens ss spendPub (legacy ih out t) out w -> w_subaddrIndexT w = t ->
  forall first, first <= t < first + Z.of_nat n -> exists w', legacy_window sha3_256 chacha_decrypt n ss spendPub ih out first = Some w'.
Proof.
  intros H Ht. induction n as [|n IH]; intros first L; [lia|]. cbn [legacy_window].
  destruct (try_context ss spendPub (legacy ih out first) out (fun x => x =? first)) as [x|] eqn:T; [eauto|].
  apply IH. destruct (Z.eq_dec first t) as [->|]; [|lia]. exfalso.
  rewrite (proj2 (try_context_iff ss spendPub (legacy ih out t) out (fun x => x =? t) w)) in T; [discriminate|]. split; [exact H|now apply Z.eqb_eq].
Qed.

Lemma matching_deposit_spec l : forall i rho commit, match matching_deposit sha3_256 l i rho commit with
  | Some k => exists sp, 0 <= k - i /\ nth_error l (Z.to_nat (k - i)) = Some sp /\ spendCommit sha3_256 sp rho = commit
  | None => forall sp, In sp l -> spendCommit sha3_256 sp rho <> commit
  end.
Proof.
  induction l as [|x l IH]; intros i rho commit; cbn [matching_deposit]; [intros sp []|]. destruct (_ ==b commit) eqn:E.
  - apply bytes_eqb_eq in E. exists x. rewrite Z.sub_diag. split; [lia|]. split; [reflexivity|exact E].
  - specialize (IH (i + 1) rho commit). destruct (matching_deposit sha3_256 l (i + 1) rho commit) as [k|].
    + destruct IH as (sp & Hk & N & C). exists sp. split; [lia|]. replace (Z.to_nat (k - i)) with (S (Z.to_nat (k - (i + 1)))) by lia. auto.
    + intros sp [<-|I]; [|exact (IH sp I)]. intros C. apply bytes_eqb_eq in C. congruence.
Qed.

Lemma built_opens kemCt ss spendPub ih i amount rho t : length rho = 32%nat -> in_w 64 t ->
  let b := buildPqOutput kemCt ss spendPub ih i amount rho t in
  opens ss spendPub (current ih (on_chain i amount b)) (on_chain i amount b) (mkPqOwnedOutput i amount t rho (b_outContext b)).
Proof. intros Lr Ht b. repeat split; assumption || apply Ht. Qed.

(** What was built is owned, in every mode of scanning. *)
Lemma built_owned kemCt ss spendPub ih i amount rho t mode : length rho = 32%nat -> in_w 64 t ->
  tryOwned ss spendPub ih (on_chain i amount (buildPqOutput kemCt ss spendPub ih i amount rho t)) mode =
  Some (mkPqOwnedOutput i amount t rho (outContext sha3_256 ih kemCt i)).
Proof. intros Lr Ht. apply tryOwned_iff. left. exact (built_opens kemCt ss spendPub ih i amount rho t Lr Ht). Qed.

Lemma built_scanned keys kemCt ss ih i amount rho t mode maxT : kem_decaps (viewSk keys) kemCt = ss -> length rho = 32%nat -> in_w 64 t ->
  let out := on_chain i amount (buildPqOutput kemCt ss (k_spendPub keys) ih i amount rho t) in
  let w := mkPqOwnedOutput i amount t rho (outContext sha3_256 ih kemCt i) in
  scanPqOutput keys ih out mode = Some w /\ scanPqOutputWithLegacyTWindow sha3_256 kem_decaps chacha_decrypt keys ih out maxT mode = Some w.
Proof.
  intros Hd Lr Ht out w. assert (T := built_owned kemCt ss (k_spendPub keys) ih i amount rho t mode Lr Ht). fold out w in T.
  unfold PqOutputs.scanPqOutput, scanPqOutputWithSharedSecret, scanPqOutputWithLegacyTWindow. change (s_kemCt out) with kemCt. rewrite Hd, T. auto.
Qed.

Lemma built_checked kemCt ss spendPub ih i amount rho t : length rho = 32%nat -> in_w 64 t ->
  buildPqOutput_checked sha3_256 chacha_encrypt chacha_decrypt (kemCt, ss) rho spendPub ih i amount t =
  Some (buildPqOutput kemCt ss spendPub ih i amount rho t).
Proof.
  intros Lr Ht. unfold buildPqOutput_checked, scanPqOutputWithSharedSecret. cbn [fst snd].
  change (mkPqScanOutput _ _ _ _ _) with (on_chain i amount (buildPqOutput kemCt ss spendPub ih i amount rho t)).
  rewrite built_owned by assumption. cbn [w_subaddrIndexT]. now rewrite Z.eqb_refl.
Qed.


(** Released senders bound the route into the key; the compatible scan still finds
    such an output when the route lies in the window. *)
Theorem legacy_recovered keys ih out t w maxT : opens (kem_decaps (viewSk keys) (s_kemCt out)) (k_spendPub keys) (legacy ih out t) out w ->
  w_subaddrIndexT w = t -> t < maxT ->
  exists w', scanPqOutputWithLegacyTWindow sha3_256 kem_decaps chacha_decrypt keys ih out maxT Compatible = Some w'.
Proof.
  intros O Ht Hm. unfold scanPqOutputWithLegacyTWindow, tryOwnedLegacyTWindow. set (ss := kem_decaps _ _) in *.
  destruct (tryOwned ss (k_spendPub keys) ih out Compatible) as [x|] eqn:T; [eauto|]. assert (0 <= t) by (rewrite <- Ht; apply O).
  destruct (Z.eq_dec t 0) as [Z0|Z0].
  - exfalso. rewrite Z0 in O. assert (N : tryOwned ss (k_spendPub keys) ih out Compatible <> None); [|contradiction]. unfold PqOutputs.tryOwned in *.
    destruct (try_context ss (k_spendPub keys) (current ih out) out (fun _ => true)); [discriminate|].
    rewrite (proj2 (try_context_iff ss (k_spendPub keys) (legacy ih out 0) out (fun t => t =? 0) w)); [discriminate|].
    split; [exact O|]. apply Z.eqb_eq. congruence.
  - apply (window_finds ss (k_spendPub keys) ih out t w); [exact O|exact Ht|lia].
Qed.

End Recognition.

(** A cipher with the promised behaviour, and a payment under it. *)
Definition sample_cipher (k n a m : bytes) : bytes := m ++ firstn 16 (sample_sha3 (k ++ n ++ a ++ m)).
Definition sample_decipher (k n a c : bytes) : option bytes :=
  let m := firstn (length c - 16) c in if c ==b sample_cipher k n a m then Some m else None.

#[export] Instance sample_aead : Aead sample_cipher sample_decipher.
Proof.
  assert (S : forall k n a m, length (sample_cipher k n a m) = (length m + 16)%nat).
  { intros. unfold sample_cipher. rewrite length_app, length_firstn, sample_sha3_size. reflexivity. }
  split; [exact S|]. intros k n a c m. unfold sample_decipher. split.
  - destruct (_ ==b _) eqn:E; [|discriminate]. apply bytes_eqb_eq in E. intros [= <-]. exact E.
  - intros ->. rewrite S, Nat.add_sub. assert (F : firstn (length m) (sample_cipher k n a m) = m) by (apply firstn_app_exact; reflexivity).
    now rewrite F, bytes_eqb_refl.
Qed.

Abbreviation sample_keys := (mkPqScanKeys [] (repeat (b8 7) 1952)).
