(* ===== verification/PqPaymentProof.v ===== *)
(** * Payment proofs

    [crypto_pq/PqPaymentProof.cpp]: the sender of a transaction shows which of its
    outputs pay a spend key by revealing the openings of their commitments; the proof
    travels as a Bech32m string. Exceptions are error strings. *)

From Stdlib Require Import ZArith String List Lia Bool Permutation Sorted.
From coqutil Require Import Byte Word.LittleEndianList.
From S2P Require Import Prelude PqHash PqDerive Bech32 PqOutputs.
Import ListNotations.
Open Scope string_scope.
Open Scope list_scope.
Open Scope Z_scope.
Open Scope discrete_scope.
Import Bech32 PqDerive PqOutputs.

Module PqPaymentProof.

Definition kSpendAuthorityDomain : bytes := str "discrete-pq-spend-authority-v1".
Definition kPqPaymentProofVersion : Z := 2.
Definition kPqPaymentProofHrpMainnet : bytes := str "disctxp".
Definition kPqPaymentProofHrpTestnet : bytes := str "tdisctxp".
Definition kMaxPqPaymentProofEntries : Z := 64.
Definition kFixedProofBytes : nat := 1 + 32 + 32 + 32 + 4.
Definition kEntryBytes : nat := 4 + 32.

Record PqPaymentProofEntry := mkEntry { e_outputIndex : Z; e_rho : bytes }.
Record PqPaymentProof := mkPqPaymentProof {
  p_version : Z;
  p_genesisId : bytes;
  p_txid : bytes;
  p_spendAuthorityHash : bytes;
  p_entries : list PqPaymentProofEntry
}.
(** [ResolvedRecipient]; only [r_spendPub] is read by this code. *)
Record ResolvedRecipient := mkResolvedRecipient { r_viewPub : bytes; r_spendPub : bytes; r_subaddrIndexT : Z }.
Record PqPaymentProofTransaction := mkProofTransaction { pt_txid : bytes; pt_inputsHash : bytes; pt_outputs : list PqScanOutput }.

(** [takeArray<N>] and [takeLe32] on what is left of the payload. *)
Definition take (n : nat) (inp : bytes) : option (bytes * bytes) :=
  if (length inp <? n)%nat then None else Some (firstn n inp, skipn n inp).
Definition takeLe32 (inp : bytes) : option (Z * bytes) :=
  match take 4 inp with Some (v, rest) => Some (le_combine v, rest) | None => None end.

Fixpoint take_entries (n : nat) (inp : bytes) : option (list PqPaymentProofEntry) :=
  match n with
  | O => Some []
  | S n =>
      match takeLe32 inp with
      | None => None
      | Some (i, inp) =>
          match take 32 inp with
          | None => None
          | Some (rho, inp) => option_map (cons (mkEntry i rho)) (take_entries n inp)
          end
      end
  end.

Definition parsePayload (payload : bytes) : option PqPaymentProof :=
  if (length payload <? kFixedProofBytes)%nat then None
  else
    match payload with
    | [] => None
    | v :: inp =>
        if negb (u8 v =? kPqPaymentProofVersion) then None
        else
          match take 32 inp with
          | None => None
          | Some (genesisId, inp) =>
              match take 32 inp with
              | None => None
              | Some (txid, inp) =>
                  match take 32 inp with
                  | None => None
                  | Some (spendAuthorityHash, inp) =>
                      match takeLe32 inp with
                      | None => None
                      | Some (count, inp) =>
                          if (count =? 0) || (kMaxPqPaymentProofEntries <? count) ||
                             negb (Z.of_nat (length inp) =? count * Z.of_nat kEntryBytes) then None
                          else
                            match take_entries (Z.to_nat count) inp with
                            | None => None
                            | Some entries => Some (mkPqPaymentProof (u8 v) genesisId txid spendAuthorityHash entries)
                            end
                      end
                  end
              end
          end
    end.

Definition entry_bytes (e : PqPaymentProofEntry) : bytes := le32 (e_outputIndex e) ++ e_rho e.
Definition proofPayload (proof : PqPaymentProof) : result string bytes :=
  check negb (negb (p_version proof =? kPqPaymentProofVersion) || (length (p_entries proof) =? 0)%nat ||
              (kMaxPqPaymentProofEntries <? Z.of_nat (length (p_entries proof)))) else "invalid payment proof shape" ;;
  Ok (b8 (p_version proof) :: p_genesisId proof ++ p_txid proof ++ p_spendAuthorityHash proof ++
      le32 (Z.of_nat (length (p_entries proof))) ++ flat_map entry_bytes (p_entries proof)).

Definition proof_hrp (testnet : bool) : bytes := if testnet then kPqPaymentProofHrpTestnet else kPqPaymentProofHrpMainnet.
Definition encodePqPaymentProof (proof : PqPaymentProof) (testnet : bool) : result string bytes :=
  let* payload := proofPayload proof in Ok (encodeBech32m (proof_hrp testnet) payload).
(** Either network. *)
Definition decodePqPaymentProof (encoded : bytes) : option PqPaymentProof :=
  match decodeBech32m encoded kPqPaymentProofHrpMainnet with
  | Some payload => parsePayload payload
  | None => match decodeBech32m encoded kPqPaymentProofHrpTestnet with Some payload => parsePayload payload | None => None end
  end.
(** One network. *)
Definition decodePqPaymentProof_network (encoded : bytes) (testnet : bool) : option PqPaymentProof :=
  match decodeBech32m encoded (proof_hrp testnet) with Some payload => parsePayload payload | None => None end.

Section Hashed.
Variable sha3_256 : bytes -> bytes.

Definition pqSpendAuthorityHash (spendPub : bytes) : bytes := sha3_256 (kSpendAuthorityDomain ++ spendPub).

(** [std::sort] by output index. *)
Fixpoint insert_entry (e : PqPaymentProofEntry) (l : list PqPaymentProofEntry) : list PqPaymentProofEntry :=
  match l with
  | [] => [e]
  | x :: l => if e_outputIndex e <? e_outputIndex x then e :: x :: l else x :: insert_entry e l
  end.
Definition sort_entries (l : list PqPaymentProofEntry) : list PqPaymentProofEntry := fold_right insert_entry [] l.
(** [std::adjacent_find] *)
Fixpoint adjacent_equal (l : list PqPaymentProofEntry) : bool :=
  match l with
  | x :: ((y :: _) as l) => (e_outputIndex x =? e_outputIndex y) || adjacent_equal l
  | _ => false
  end.

Definition makePqPaymentProof (genesisId txid : bytes) (recipient : ResolvedRecipient) (entries : list PqPaymentProofEntry)
  : result string PqPaymentProof :=
  check negb ((length entries =? 0)%nat || (kMaxPqPaymentProofEntries <? Z.of_nat (length entries)))
    else "payment proof must contain 1..64 entries" ;;
  let entries := sort_entries entries in
  check negb (adjacent_equal entries) else "duplicate payment proof output index" ;;
  Ok (mkPqPaymentProof kPqPaymentProofVersion genesisId txid (pqSpendAuthorityHash (r_spendPub recipient)) entries).

(** The loop over the entries: [seen] holds the indices marked so far. *)
Fixpoint verify_entries (entries : list PqPaymentProofEntry) (outputs : list PqScanOutput) (spendPub : bytes) (seen : list Z) (total : Z)
  : result string Z :=
  match entries with
  | [] => Ok total
  | e :: entries =>
      let i := e_outputIndex e in
      match nth_error outputs (Z.to_nat i) with
      | None => Err "duplicate or out-of-range payment proof output index"
      | Some output =>
          check negb (existsb (Z.eqb i) seen) else "duplicate or out-of-range payment proof output index" ;;
          check s_outputIndex output =? i else "non-canonical transaction output index" ;;
          check spendCommit sha3_256 spendPub (e_rho e) ==b s_spendCommit output else "payment proof spend commitment mismatch" ;;
          check negb (2 ^ 64 - 1 - s_amount output <? total) else "payment proof amount overflow" ;;
          verify_entries entries outputs spendPub (i :: seen) (total + s_amount output)
      end
  end.

Definition verifyPqPaymentProof (proof : PqPaymentProof) (expectedGenesisId : bytes) (tx : PqPaymentProofTransaction) (recipient : ResolvedRecipient)
  : result string Z :=
  check p_version proof =? kPqPaymentProofVersion else "unsupported payment proof version" ;;
  check p_genesisId proof ==b expectedGenesisId else "payment proof network mismatch" ;;
  check p_txid proof ==b pt_txid tx else "payment proof transaction mismatch" ;;
  check p_spendAuthorityHash proof ==b pqSpendAuthorityHash (r_spendPub recipient) else "payment proof spend authority mismatch" ;;
  check negb ((length (p_entries proof) =? 0)%nat || (kMaxPqPaymentProofEntries <? Z.of_nat (length (p_entries proof))))
    else "invalid payment proof entry count" ;;
  verify_entries (p_entries proof) (pt_outputs tx) (r_spendPub recipient) [] 0.

End Hashed.
End PqPaymentProof.
Import PqPaymentProof.

(** ** The text form *)

(** The proofs the struct can hold. *)
Definition entry_ok (e : PqPaymentProofEntry) : Prop := in_w 32 (e_outputIndex e) /\ sized 32 (e_rho e).
Definition proof_ok (p : PqPaymentProof) : Prop :=
  sized 32 (p_genesisId p) /\ sized 32 (p_txid p) /\ sized 32 (p_spendAuthorityHash p) /\ Forall entry_ok (p_entries p).

Lemma take_iff n inp v rest : take n inp = Some (v, rest) <-> sized n v /\ inp = v ++ rest.
Proof.
  unfold take, sized. destruct (Nat.ltb_spec (length inp) n) as [L|L]; split.
  - discriminate.
  - intros [S ->]. rewrite length_app in L. lia.
  - intros [= <- <-]. rewrite length_firstn, firstn_skipn. split; [lia|reflexivity].
  - intros [S ->]. now rewrite firstn_app_exact, skipn_app_exact.
Qed.

Lemma le32_combine l : length l = 4%nat -> le32 (le_combine l) = l /\ in_w 32 (le_combine l).
Proof.
  intros L. unfold le32, in_w. split; [now apply split_le_combine'|]. pose proof (le_combine_bound l) as B. now rewrite L in B.
Qed.

Lemma combine_le32 t : in_w 32 t -> le_combine (le32 t) = t /\ sized 4 (le32 t).
Proof. intros H. unfold le32, sized. rewrite le_combine_split, length_le_split. split; [now apply Z.mod_small|reflexivity]. Qed.

Lemma takeLe32_iff inp v rest : takeLe32 inp = Some (v, rest) <-> in_w 32 v /\ inp = le32 v ++ rest.
Proof.
  unfold takeLe32. split.
  - destruct (take 4 inp) as [[w r]|] eqn:T; [|discriminate]. apply take_iff in T as [S ->]. intros [= <- <-].
    destruct (le32_combine w S) as [-> B]. auto.
  - intros [B ->]. destruct (combine_le32 v B) as [E S]. rewrite (proj2 (take_iff 4 _ (le32 v) rest)) by auto. now rewrite E.
Qed.

Lemma entries_size l : Forall entry_ok l -> length (flat_map entry_bytes l) = (length l * kEntryBytes)%nat.
Proof.
  induction 1 as [|e l [B S] _ IH]; [reflexivity|]. cbn [flat_map length]. rewrite length_app, IH. unfold entry_bytes.
  rewrite length_app, S. destruct (combine_le32 _ B) as [_ ->]. reflexivity.
Qed.

Lemma take_entries_iff l : forall n inp, length inp = (n * kEntryBytes)%nat ->
  take_entries n inp = Some l <-> length l = n /\ Forall entry_ok l /\ inp = flat_map entry_bytes l.
Proof.
  induction l as [|e l IH]; intros [|n] inp L; cbn [take_entries]; try (split; (discriminate || now intros (? & _))).
  - cbn in L. apply length_zero_iff_nil in L as ->. now split.
  - split; [|intros (? & _); discriminate]. destruct (takeLe32 inp) as [[i r]|]; [|discriminate]. destruct (take 32 r) as [[rho r']|]; [|discriminate].
    destruct (take_entries n r'); discriminate.
  - split.
    + destruct (takeLe32 inp) as [[i r]|] eqn:T; [|discriminate]. apply takeLe32_iff in T as [B ->].
      destruct (take 32 r) as [[rho r']|] eqn:T; [|discriminate]. apply take_iff in T as [S ->].
      destruct (take_entries n r') as [l'|] eqn:T; [|discriminate]. intros [= <- <-]. apply IH in T as (<- & F & ->).
      * cbn [flat_map]. unfold entry_bytes at 2. cbn [e_outputIndex e_rho]. rewrite <- app_assoc. repeat split; try apply B; auto.
        constructor; [split; assumption|exact F].
      * rewrite !length_app, S in L. destruct (combine_le32 i B) as [_ Si]. rewrite Si in L. unfold kEntryBytes in *. lia.
    + intros ([= <-] & F & ->). inversion_clear F as [|? ? [B S] F']. cbn [flat_map]. unfold entry_bytes at 1. rewrite <- app_assoc.
      rewrite (proj2 (takeLe32_iff _ (e_outputIndex e) (e_rho e ++ flat_map entry_bytes l))) by auto.
      rewrite (proj2 (take_iff 32 _ (e_rho e) (flat_map entry_bytes l))) by auto.
      rewrite (proj2 (IH (length l) _ (entries_size l F'))) by auto. now destruct e.
Qed.

Lemma u8_b8_version : u8 (b8 kPqPaymentProofVersion) = kPqPaymentProofVersion.
Proof. reflexivity. Qed.

Lemma proofPayload_iff p payload : proofPayload p = Ok payload <->
  p_version p = kPqPaymentProofVersion /\ 0 < Z.of_nat (length (p_entries p)) <= kMaxPqPaymentProofEntries /\
  payload = b8 kPqPaymentProofVersion :: p_genesisId p ++ p_txid p ++ p_spendAuthorityHash p ++
    le32 (Z.of_nat (length (p_entries p))) ++ flat_map entry_bytes (p_entries p).
Proof.
  unfold proofPayload, guard. destruct (Z.eqb_spec (p_version p) kPqPaymentProofVersion) as [E|E]; cbn [negb orb].
  2: { split; [discriminate|]. intros (H & _). contradiction. }
  destruct (Nat.eqb_spec (length (p_entries p)) 0); cbn [orb negb]; [split; [discriminate|]; intros (_ & H & _); lia|].
  destruct (Z.ltb_spec kMaxPqPaymentProofEntries (Z.of_nat (length (p_entries p)))); cbn [negb].
  - split; [discriminate|]. intros (_ & H' & _). lia.
  - rewrite E. split; [intros [= <-]|intros (_ & _ & ->)]; repeat split; auto; lia.
Qed.

Lemma parse_print p payload : proof_ok p -> proofPayload p = Ok payload -> parsePayload payload = Some p.
Proof.
  intros (G & T & A & F) H. apply proofPayload_iff in H as (V & N & ->). set (n := Z.of_nat (length (p_entries p))) in *.
  assert (B : in_w 32 n) by (unfold in_w, kMaxPqPaymentProofEntries in *; lia). destruct (combine_le32 n B) as [_ S4].
  unfold parsePayload. rewrite (proj2 (Nat.ltb_ge _ _)).
  2: { cbn [length]. rewrite !length_app, G, T, A, S4. unfold kFixedProofBytes. lia. }
  rewrite u8_b8_version, Z.eqb_refl. cbn [negb].
  rewrite (proj2 (take_iff 32 _ (p_genesisId p) (p_txid p ++ p_spendAuthorityHash p ++ le32 n ++ flat_map entry_bytes (p_entries p)))) by auto.
  rewrite (proj2 (take_iff 32 _ (p_txid p) (p_spendAuthorityHash p ++ le32 n ++ flat_map entry_bytes (p_entries p)))) by auto.
  rewrite (proj2 (take_iff 32 _ (p_spendAuthorityHash p) (le32 n ++ flat_map entry_bytes (p_entries p)))) by auto.
  rewrite (proj2 (takeLe32_iff _ n (flat_map entry_bytes (p_entries p)))) by auto.
  rewrite (proj2 (Z.eqb_neq n 0)), (proj2 (Z.ltb_ge kMaxPqPaymentProofEntries n)) by lia. cbn [orb].
  rewrite (entries_size _ F), Nat2Z.inj_mul, Z.eqb_refl. cbn [negb]. subst n. rewrite Nat2Z.id.
  rewrite (proj2 (take_entries_iff (p_entries p) _ _ (entries_size _ F))) by auto. destruct p as [v g t a e]. cbn [p_version] in V. now rewrite V.
Qed.

Lemma parse_sound p payload : parsePayload payload = Some p -> proof_ok p /\ proofPayload p = Ok payload.
Proof.
  unfold parsePayload. destruct (_ <? _)%nat; [discriminate|]. destruct payload as [|v inp]; [discriminate|].
  destruct (Z.eqb_spec (u8 v) kPqPaymentProofVersion) as [V|]; [|discriminate]. cbn [negb].
  destruct (take 32 inp) as [[g r]|] eqn:T; [|discriminate]. apply take_iff in T as [G ->].
  destruct (take 32 r) as [[t r']|] eqn:T; [|discriminate]. apply take_iff in T as [St ->].
  destruct (take 32 r') as [[a r]|] eqn:T; [|discriminate]. apply take_iff in T as [A ->].
  destruct (takeLe32 r) as [[n es]|] eqn:T; [|discriminate]. apply takeLe32_iff in T as [B ->].
  destruct ((n =? 0) || _ || _) eqn:C; [discriminate|]. apply orb_false_iff in C as [C C3]. apply orb_false_iff in C as [C1 C2].
  apply Z.eqb_neq in C1. apply Z.ltb_ge in C2. apply negb_false_iff, Z.eqb_eq in C3.
  destruct (take_entries (Z.to_nat n) es) as [l|] eqn:T; [|discriminate]. intros [= <-].
  apply take_entries_iff in T as (Ll & F & ->); [|unfold in_w in B; unfold kEntryBytes in *; lia].
  split; [unfold proof_ok; auto|]. apply proofPayload_iff. cbn [p_version p_entries p_genesisId p_txid p_spendAuthorityHash].
  unfold in_w in B. rewrite Ll, Z2Nat.id by lia. split; [exact V|]. split; [lia|]. rewrite <- V. now rewrite b8_u8.
Qed.

(** The decoder of one network accepts exactly what the encoder writes for it. *)
Lemma decode_network_iff s testnet p : decodePqPaymentProof_network s testnet = Some p <-> proof_ok p /\ encodePqPaymentProof p testnet = Ok s.
Proof.
  unfold decodePqPaymentProof_network, encodePqPaymentProof. split.
  - destruct (decodeBech32m s (proof_hrp testnet)) as [payload|] eqn:D; [|discriminate]. apply bech32m_exact in D as [_ ->].
    intros P. apply parse_sound in P as [K ->]. auto.
  - intros [K E]. destruct (proofPayload p) as [payload|] eqn:P; [|discriminate]. injection E as <-.
    rewrite (proj2 (bech32m_exact _ (proof_hrp testnet) payload)) by (split; [now destruct testnet|reflexivity]). now apply parse_print.
Qed.

Lemma encode_first hrp payload : hrp <> [] -> hd_error (encodeBech32m hrp payload) = hd_error hrp.
Proof. intros H. destruct hrp; [contradiction|]. unfold encodeBech32m. destruct (to_groups payload) as (data & -> & _). reflexivity. Qed.

(** The text of a payment proof is unambiguous: a string is accepted for a network
    exactly when it is the encoding there of the proof it is read as; and without a
    network, exactly when it is an encoding for one of the two. *)
Theorem proof_text_exact s p :
  (forall testnet, decodePqPaymentProof_network s testnet = Some p <-> proof_ok p /\ encodePqPaymentProof p testnet = Ok s) /\
  (decodePqPaymentProof s = Some p <-> proof_ok p /\ exists testnet, encodePqPaymentProof p testnet = Ok s).
Proof.
  split; [intros t; apply decode_network_iff|]. pose proof (decode_network_iff s false p) as M. pose proof (decode_network_iff s true p) as T.
  unfold decodePqPaymentProof_network, proof_hrp in M, T. unfold decodePqPaymentProof.
  destruct (decodeBech32m s kPqPaymentProofHrpMainnet) as [x|] eqn:D.
  - rewrite M. split; [intros [K E]; eauto|]. intros (K & [|] & E); [|auto]. exfalso. apply bech32m_exact in D as [_ ->].
    unfold encodePqPaymentProof in E. destruct (proofPayload p) as [y|]; [|discriminate].
    assert (E' : encodeBech32m (proof_hrp true) y = encodeBech32m kPqPaymentProofHrpMainnet x) by exact (f_equal (fun r => match r with Ok v => v | _ => [] end) E).
    apply (f_equal (@hd_error _)) in E'. rewrite !encode_first in E' by discriminate. discriminate.
  - rewrite T. split; [intros [K E]; eauto|]. intros (K & [|] & E); [auto|]. destruct M as [_ M]. discriminate (M (conj K E)).
Qed.

(** ** Verification *)

Section Verified.
Variable sha3_256 : bytes -> bytes.

Abbreviation verify_entries := (verify_entries sha3_256).
Abbreviation verifyPqPaymentProof := (verifyPqPaymentProof sha3_256).
Abbreviation makePqPaymentProof := (makePqPaymentProof sha3_256).

(** The entry names an output of the transaction that commits to the spend key. *)
Definition shows (outputs : list PqScanOutput) (spendPub : bytes) (e : PqPaymentProofEntry) : Prop :=
  exists o, nth_error outputs (Z.to_nat (e_outputIndex e)) = Some o /\ s_outputIndex o = e_outputIndex e /\
    spendCommit sha3_256 spendPub (e_rho e) = s_spendCommit o.
Definition shown_amount (outputs : list PqScanOutput) (e : PqPaymentProofEntry) : Z :=
  match nth_error outputs (Z.to_nat (e_outputIndex e)) with Some o => s_amount o | None => 0 end.
Definition shown_total (outputs : list PqScanOutput) (es : list PqPaymentProofEntry) : Z :=
  fold_right (fun e z => shown_amount outputs e + z) 0 es.
Abbreviation indices es := (map e_outputIndex es).

Definition amounts_ok (outputs : list PqScanOutput) : Prop := Forall (fun o => in_w 64 (s_amount o)) outputs.

Lemma shown_amount_bound outputs e : amounts_ok outputs -> in_w 64 (shown_amount outputs e).
Proof.
  intros F. unfold shown_amount. destruct (nth_error outputs _) as [o|] eqn:E; [|unfold in_w; lia].
  unfold amounts_ok in F. rewrite Forall_forall in F. exact (F o (nth_error_In _ _ E)).
Qed.

Lemma shown_total_nonneg outputs es : amounts_ok outputs -> 0 <= shown_total outputs es.
Proof.
  intros F. induction es as [|e es IH]; cbn [shown_total fold_right]; [lia|]. pose proof (shown_amount_bound outputs e F) as B.
  unfold in_w in B. unfold shown_total in IH. lia.
Qed.

Lemma shown_total_perm outputs es es' : Permutation es es' -> shown_total outputs es = shown_total outputs es'.
Proof. unfold shown_total. induction 1; cbn [fold_right]; lia. Qed.

Lemma existsb_In i l : existsb (Z.eqb i) l = true <-> In i l.
Proof.
  rewrite existsb_exists. split; [intros (x & I & E); apply Z.eqb_eq in E; now subst|]. intros I. exists i. split; [exact I|apply Z.eqb_refl].
Qed.

(** The loop: it accepts distinct indices of outputs that commit to the key, and
    returns their sum, which must fit. *)
Lemma verify_entries_iff outputs spendPub : amounts_ok outputs -> forall es seen total r, 0 <= total < 2 ^ 64 ->
  verify_entries es outputs spendPub seen total = Ok r <->
  Forall (shows outputs spendPub) es /\ NoDup (indices es) /\ (forall i, In i (indices es) -> ~ In i seen) /\
  r = total + shown_total outputs es /\ r < 2 ^ 64.
Proof.
  intros A. induction es as [|e es IH]; intros seen total r Ht; cbn [PqPaymentProof.verify_entries map].
  { cbn [shown_total fold_right]. split.
    - intros [= <-]. repeat split; auto using NoDup_nil; lia || now intros ? [].
    - intros (_ & _ & _ & -> & _). f_equal. lia. }
  pose proof (shown_amount_bound outputs e A) as B. pose proof (shown_total_nonneg outputs es A) as N.
  cbn [shown_total fold_right]. fold (shown_total outputs es). unfold in_w, shown_amount in B. unfold shown_amount. unfold guard, bind.
  assert (Hshow : forall o, nth_error outputs (Z.to_nat (e_outputIndex e)) = Some o -> shows outputs spendPub e <->
    s_outputIndex o = e_outputIndex e /\ spendCommit sha3_256 spendPub (e_rho e) = s_spendCommit o).
  { intros o E. unfold shows. rewrite E. split; [intros (x & [= <-] & H)|intros H; exists o]; auto. }
  destruct (nth_error outputs (Z.to_nat (e_outputIndex e))) as [o|] eqn:E.
  2: { split; [discriminate|]. intros (F & _). inversion_clear F as [|? ? (x & Hx & _)]. congruence. }
  specialize (Hshow o eq_refl). rewrite Forall_cons_iff, NoDup_cons_iff, Hshow.
  destruct (existsb _ seen) eqn:S; cbn [negb].
  { apply existsb_In in S. split; [discriminate|]. intros (_ & _ & D & _). destruct (D (e_outputIndex e)); [now left|exact S]. }
  assert (S' : ~ In (e_outputIndex e) seen) by (rewrite <- existsb_In; congruence).
  destruct (Z.eqb_spec (s_outputIndex o) (e_outputIndex e)) as [I|I]; [|split; [discriminate|tauto]].
  destruct (_ ==b _) eqn:C; [apply bytes_eqb_eq in C|].
  2: { split; [discriminate|]. intros ((( _ & X) & _) & _). apply bytes_eqb_eq in X. congruence. }
  destruct (Z.ltb_spec (2 ^ 64 - 1 - s_amount o) total); cbn [negb]; [split; [discriminate|]; intros (_ & _ & _ & -> & ?); lia|].
  rewrite (IH (e_outputIndex e :: seen)) by lia. split.
  - intros (F & D & Ds & -> & L). repeat split; auto; try lia.
    + intros X. apply (Ds _ X). now left.
    + intros i [<-|X] Y; [contradiction|]. apply (Ds i X). now right.
  - intros ((_ & F) & (Nd & D) & Ds & -> & L). repeat split; auto; try lia.
    intros i X [<-|Y]; [contradiction|]. exact (Ds i (or_intror X) Y).
Qed.

(** A proof verifies, for a total, exactly when it is for this network, transaction
    and spend key, and its one to 64 entries open distinct outputs to that key whose
    amounts add up, without wrap-around, to the total. The route of the recipient
    plays no part. *)
Theorem proof_verified_exact p genesis tx recipient r : amounts_ok (pt_outputs tx) ->
  verifyPqPaymentProof p genesis tx recipient = Ok r <->
  p_version p = kPqPaymentProofVersion /\ p_genesisId p = genesis /\ p_txid p = pt_txid tx /\
  p_spendAuthorityHash p = pqSpendAuthorityHash sha3_256 (r_spendPub recipient) /\
  0 < Z.of_nat (length (p_entries p)) <= kMaxPqPaymentProofEntries /\
  Forall (shows (pt_outputs tx) (r_spendPub recipient)) (p_entries p) /\ NoDup (indices (p_entries p)) /\
  r = shown_total (pt_outputs tx) (p_entries p) /\ r < 2 ^ 64.
Proof.
  intros A. unfold PqPaymentProof.verifyPqPaymentProof, guard, bind.
  destruct (Z.eqb_spec (p_version p) kPqPaymentProofVersion) as [V|V]; [|split; [discriminate|tauto]].
  assert (Eq : forall x y : bytes, (x ==b y) = false -> x <> y) by (intros x y H ->; rewrite bytes_eqb_refl in H; discriminate).
  destruct (p_genesisId p ==b genesis) eqn:G; [apply bytes_eqb_eq in G|apply Eq in G; split; [discriminate|tauto]].
  destruct (p_txid p ==b pt_txid tx) eqn:T; [apply bytes_eqb_eq in T|apply Eq in T; split; [discriminate|tauto]].
  destruct (p_spendAuthorityHash p ==b _) eqn:S; [apply bytes_eqb_eq in S|apply Eq in S; split; [discriminate|tauto]].
  destruct (Nat.eqb_spec (length (p_entries p)) 0); cbn [orb negb]; [split; [discriminate|]; intros H; lia|].
  destruct (Z.ltb_spec kMaxPqPaymentProofEntries (Z.of_nat (length (p_entries p)))); cbn [orb negb]; [split; [discriminate|]; intros H'; lia|].
  rewrite (verify_entries_iff (pt_outputs tx) (r_spendPub recipient) A) by lia. rewrite Z.add_0_l.
  split; [intros (F & D & _ & R & L)|intros (_ & _ & _ & _ & _ & F & D & R & L)]; repeat split; auto; lia.
Qed.

Lemma insert_perm e l : Permutation (e :: l) (insert_entry e l).
Proof.
  induction l as [|x l IH]; cbn [insert_entry]; [reflexivity|]. destruct (_ <? _); [reflexivity|].
  rewrite perm_swap. now constructor.
Qed.

Lemma sort_perm l : Permutation l (sort_entries l).
Proof.
  induction l as [|e l IH]; [reflexivity|]. cbn [sort_entries fold_right]. rewrite <- insert_perm. now constructor.
Qed.

Abbreviation ordered := (StronglySorted (fun x y => e_outputIndex x <= e_outputIndex y)).

Lemma insert_ordered e l : ordered l -> ordered (insert_entry e l).
Proof.
  induction 1 as [|x l S IH F]; cbn [insert_entry]; [repeat constructor|].
  destruct (Z.ltb_spec (e_outputIndex e) (e_outputIndex x)).
  - constructor; [now constructor|]. constructor; [lia|]. revert F. apply Forall_impl. intros y. lia.
  - constructor; [exact IH|]. rewrite Forall_forall in *. intros y I. apply (Permutation_in _ (Permutation_sym (insert_perm e l))) in I as [<-|I]; [lia|auto].
Qed.

Lemma sort_ordered l : ordered (sort_entries l).
Proof. induction l; [constructor|]. now apply insert_ordered. Qed.

(** After sorting, equal neighbours are all the duplicates there can be. *)
Lemma adjacent_distinct l : ordered l -> adjacent_equal l = false <-> NoDup (indices l).
Proof.
  induction 1 as [|x l S IH F]; [split; [constructor|reflexivity]|]. destruct l as [|y l]; [split; [repeat constructor; intros []|reflexivity]|].
  cbn [adjacent_equal map] in *. rewrite NoDup_cons_iff, orb_false_iff, Z.eqb_neq, IH. apply and_iff_compat_r.
  split; [|intros N E; apply N; left; congruence]. intros N [E|I]; [congruence|]. apply N.
  inversion_clear F as [|? ? L _]. inversion_clear S as [|? ? _ F']. apply in_map_iff in I as (z & Ez & I).
  rewrite Forall_forall in F'. specialize (F' z I). lia.
Qed.

Lemma make_iff genesis txid recipient es p : makePqPaymentProof genesis txid recipient es = Ok p <->
  0 < Z.of_nat (length es) <= kMaxPqPaymentProofEntries /\ NoDup (indices es) /\
  p = mkPqPaymentProof kPqPaymentProofVersion genesis txid (pqSpendAuthorityHash sha3_256 (r_spendPub recipient)) (sort_entries es).
Proof.
  unfold PqPaymentProof.makePqPaymentProof, guard, bind. assert (P := Permutation_map e_outputIndex (sort_perm es)).
  assert (D : NoDup (indices es) <-> NoDup (indices (sort_entries es))) by (split; apply Permutation_NoDup; [exact P|now apply Permutation_sym]).
  rewrite D, <- (adjacent_distinct _ (sort_ordered es)).
  destruct (Nat.eqb_spec (length es) 0); cbn [orb negb]; [split; [discriminate|]; intros H; lia|].
  destruct (Z.ltb_spec kMaxPqPaymentProofEntries (Z.of_nat (length es))); cbn [orb negb]; [split; [discriminate|]; intros H'; lia|].
  destruct (adjacent_equal (sort_entries es)); cbn [negb]; [split; [discriminate|intros (_ & [=] & _)]|].
  split; [intros [= <-]|intros (_ & _ & ->)]; repeat split; lia.
Qed.

(** The sender built this output for the spend key and kept [rho]. *)
Definition paid (chacha_encrypt : bytes -> bytes -> bytes -> bytes -> bytes) (tx : PqPaymentProofTransaction) (spendPub : bytes) (e : PqPaymentProofEntry) : Prop :=
  exists kemCt ss amount t, nth_error (pt_outputs tx) (Z.to_nat (e_outputIndex e)) =
    Some (on_chain (e_outputIndex e) amount
      (buildPqOutput sha3_256 chacha_encrypt kemCt ss spendPub (pt_inputsHash tx) (e_outputIndex e) amount (e_rho e) t)).

Lemma paid_shows chacha_encrypt tx spendPub e : paid chacha_encrypt tx spendPub e -> shows (pt_outputs tx) spendPub e.
Proof. intros (kemCt & ss & amount & t & E). eexists. split; [exact E|]. split; reflexivity. Qed.

Hypothesis sha3_256_size : forall x, length (sha3_256 x) = 32%nat.

(** C36: A sender can prove what was paid: for up to 64 outputs of a transaction that were
    built for a recipient, the proof is made, its text is read back on the same
    network, and it verifies against every route of the recipient with the sum of
    the amounts. *)
Theorem payment_proved chacha_encrypt genesis tx recipient es testnet :
  sized 32 genesis -> sized 32 (pt_txid tx) -> amounts_ok (pt_outputs tx) ->
  Forall entry_ok es -> Forall (paid chacha_encrypt tx (r_spendPub recipient)) es -> NoDup (indices es) ->
  0 < Z.of_nat (length es) <= kMaxPqPaymentProofEntries -> shown_total (pt_outputs tx) es < 2 ^ 64 ->
  exists p s, makePqPaymentProof genesis (pt_txid tx) recipient es = Ok p /\ encodePqPaymentProof p testnet = Ok s /\
    decodePqPaymentProof_network s testnet = Some p /\
    forall viewPub t, verifyPqPaymentProof p genesis tx (mkResolvedRecipient viewPub (r_spendPub recipient) t) = Ok (shown_total (pt_outputs tx) es).
Proof.
  intros Sg St A K P D N L. set (p := mkPqPaymentProof kPqPaymentProofVersion genesis (pt_txid tx) (pqSpendAuthorityHash sha3_256 (r_spendPub recipient)) (sort_entries es)).
  assert (Ln : length (sort_entries es) = length es) by (symmetry; apply Permutation_length, sort_perm).
  assert (Ok' : proof_ok p).
  { split; [exact Sg|]. split; [exact St|]. split; [apply sha3_256_size|]. exact (Permutation_Forall (sort_perm es) K). }
  assert (E : exists payload, proofPayload p = Ok payload) by (eexists; apply proofPayload_iff; cbn [p_entries p]; rewrite Ln; auto).
  destruct E as [payload E].
  exists p, (encodeBech32m (proof_hrp testnet) payload).
  assert (En : encodePqPaymentProof p testnet = Ok (encodeBech32m (proof_hrp testnet) payload)) by (unfold encodePqPaymentProof; now rewrite E).
  split; [now apply make_iff|]. split; [exact En|]. split; [now apply decode_network_iff|]. intros viewPub t.
  apply proof_verified_exact; [exact A|]. cbn [p p_version p_genesisId p_txid p_spendAuthorityHash p_entries r_spendPub]. rewrite Ln.
  pose proof (shown_total_perm (pt_outputs tx) es (sort_entries es) (sort_perm es)) as Q. repeat split; auto; try lia.
  - apply (Permutation_Forall (sort_perm es)). revert P. apply Forall_impl. intros e. apply paid_shows.
  - exact (Permutation_NoDup (Permutation_map e_outputIndex (sort_perm es)) D).
Qed.

(** No output is proved to two payees: if proofs for two spend keys verify for one
    transaction and both count an output, the keys are equal or the commitment hash
    has a collision. *)
Theorem payee_unique p p' genesis genesis' tx recipient recipient' r r' e e' : amounts_ok (pt_outputs tx) ->
  sized 1952 (r_spendPub recipient) -> sized 1952 (r_spendPub recipient') ->
  verifyPqPaymentProof p genesis tx recipient = Ok r -> verifyPqPaymentProof p' genesis' tx recipient' = Ok r' ->
  In e (p_entries p) -> In e' (p_entries p') -> e_outputIndex e = e_outputIndex e' ->
  r_spendPub recipient = r_spendPub recipient' \/
  collides sha3_256 [kDomainSpendCommit ++ r_spendPub recipient ++ e_rho e; kDomainSpendCommit ++ r_spendPub recipient' ++ e_rho e'].
Proof.
  intros A S S' V V' I I' E. apply proof_verified_exact in V as (_ & _ & _ & _ & _ & F & _); [|exact A].
  apply proof_verified_exact in V' as (_ & _ & _ & _ & _ & F' & _); [|exact A]. rewrite Forall_forall in F, F'.
  destruct (F e I) as (o & O & _ & C). destruct (F' e' I') as (o' & O' & _ & C'). rewrite E, O' in O. injection O as ->. rewrite <- C' in C.
  unfold spendCommit in C. apply hash_cases2 in C as [C|C]; [left|right; exact C]. apply app_inv_head in C. apply app_inj_len in C as [C _]; [exact C|].
  unfold sized in *. congruence.
Qed.

End Verified.

(** Two outputs to one key, proved in the other order. *)
Definition sample_spendPub : bytes := repeat (b8 7) 1952.
Definition sample_rho (i : Z) : bytes := repeat (b8 i) 32.
Definition sample_paid (i : Z) : PqScanOutput :=
  on_chain i (100 + i) (buildPqOutput sample_sha3 sample_cipher (repeat (b8 1) 1088) (sample_rho 9) sample_spendPub (sample_rho 8) i (100 + i) (sample_rho i) 5).
Definition sample_proof_tx : PqPaymentProofTransaction := mkProofTransaction (sample_rho 4) (sample_rho 8) [sample_paid 0; sample_paid 1].
Definition sample_recipient : ResolvedRecipient := mkResolvedRecipient [] sample_spendPub 5.
Definition sample_entries : list PqPaymentProofEntry := [mkEntry 1 (sample_rho 1); mkEntry 0 (sample_rho 0)].
Definition sample_proof : PqPaymentProof :=
  mkPqPaymentProof 2 (sample_rho 3) (sample_rho 4) (pqSpendAuthorityHash sample_sha3 sample_spendPub) (rev sample_entries).

Lemma sample_amounts : amounts_ok (pt_outputs sample_proof_tx).
Proof. repeat constructor; discriminate. Qed.

Lemma payment_proved_witness : exists p s, makePqPaymentProof sample_sha3 (sample_rho 3) (sample_rho 4) sample_recipient sample_entries = Ok p /\
  encodePqPaymentProof p true = Ok s /\ decodePqPaymentProof_network s true = Some p /\
  forall viewPub t, verifyPqPaymentProof sample_sha3 p (sample_rho 3) sample_proof_tx (mkResolvedRecipient viewPub sample_spendPub t) = Ok 201.
Proof.
  apply (payment_proved sample_sha3 sample_sha3_size sample_cipher (sample_rho 3) sample_proof_tx sample_recipient sample_entries true); try reflexivity.
  - exact sample_amounts.
  - repeat constructor; discriminate.
  - repeat constructor; exists (repeat (b8 1) 1088), (sample_rho 9); [exists 101|exists 100]; exists 5; reflexivity.
  - repeat constructor; [intros [[=]|[]]|intros []].
  - split; [reflexivity|discriminate].
Defined.

Lemma proof_verified_exact_witness : verifyPqPaymentProof sample_sha3 sample_proof (sample_rho 3) sample_proof_tx sample_recipient = Ok 201.
Proof.
  apply (proof_verified_exact sample_sha3 sample_proof (sample_rho 3) sample_proof_tx sample_recipient 201 sample_amounts).
  repeat split; try (reflexivity || discriminate).
  - repeat constructor; eexists; repeat split; reflexivity.
  - repeat constructor; [intros [[=]|[]]|intros []].
Defined.

Lemma payee_unique_witness : r_spendPub sample_recipient = sample_spendPub \/
  collides sample_sha3 [kDomainSpendCommit ++ sample_spendPub ++ sample_rho 0; kDomainSpendCommit ++ sample_spendPub ++ sample_rho 0].
Proof.
  apply (payee_unique sample_sha3 sample_proof sample_proof (sample_rho 3) (sample_rho 3) sample_proof_tx sample_recipient sample_recipient 201 201
           (mkEntry 0 (sample_rho 0)) (mkEntry 0 (sample_rho 0)) sample_amounts); try (vm_compute; reflexivity); now left.
Defined.
