(* ===== verification/Seeds.v ===== *)
(** * Seeds: the phrase and the keys

    How a wallet is written down and restored. [Mnemonics/electrum-words.cpp] turns
    the 32 bytes of the master seed into 24 words and a checksum word, and back;
    [crypto_pq/PqSeed.cpp] derives the view key, the spend key and the family of
    deposit keys from the master seed.

    CRC-32, [trim] and [split] are Boost's, the sponge and the key generators
    liboqs'; they are parameters. The languages are a list in the order in which the
    hash table that holds them is iterated, which the code leaves open. *)

From Stdlib Require Import ZArith String List Lia Bool.
From coqutil Require Import Byte Word.LittleEndianList.
From S2P Require Import Prelude PqHash PqDerive.
Import ListNotations.
Open Scope string_scope.
Open Scope list_scope.
Open Scope Z_scope.
Open Scope discrete_scope.
Import PqDerive.

Module Language.

(** [*ptr++] and the continuation bytes after it. *)
Fixpoint continuation (s : bytes) : bytes * bytes :=
  match s with
  | [] => ([], [])
  | c :: s' => if Z.land (u8 c) 0xc0 =? 0x80 then let (p, r) := continuation s' in (c :: p, r) else ([], s)
  end.
(** The end of the string reads as a zero byte, as does one inside it. *)
Fixpoint utf8prefix (s : bytes) (count : nat) : bytes :=
  match count with
  | O => []
  | S count =>
      match s with
      | [] => []
      | c :: s => if u8 c =? 0 then [] else let (p, r) := continuation s in c :: p ++ utf8prefix r count
      end
  end.

Definition trim_word (w : bytes) (unique_prefix_length : nat) : bytes :=
  if (unique_prefix_length <? length w)%nat then utf8prefix w unique_prefix_length else w.

(** An [unordered_map]: the last assignment to a key counts. *)
Definition word_map := list (bytes * Z).
Fixpoint lookup (m : word_map) (k : bytes) : option Z :=
  match m with
  | [] => None
  | (x, i) :: m => if x ==b k then Some i else lookup m k
  end.

Record Base := mkBase { language_name : bytes; word_list : list bytes; unique_prefix_length : nat; trimmed_word_map : word_map }.

Record flags := mkFlags { ALLOW_SHORT_WORDS : bool; ALLOW_DUPLICATE_PREFIXES : bool }.
Fixpoint populate_loop (fl : flags) (n : nat) (ws : list bytes) (ii : Z) (m : word_map) : result string word_map :=
  match ws with
  | [] => Ok m
  | w :: ws =>
      check negb ((length w <? n)%nat && negb (ALLOW_SHORT_WORDS fl)) else "Too short word" ;;
      let trimmed := trim_word w n in
      check negb (match lookup m trimmed with Some _ => ALLOW_DUPLICATE_PREFIXES fl | None => false end) else "Duplicate prefix" ;;
      populate_loop fl n ws (ii + 1) ((trimmed, ii) :: m)
  end.
Definition populate_maps (name : bytes) (words : list bytes) (n : nat) (fl : flags) : result string Base :=
  check (length words =? 1626)%nat else "Wrong word list length" ;;
  let* m := populate_loop fl n words 0 [] in Ok (mkBase name words n m).

End Language.
Import Language.

Module ElectrumWords.

Definition seed_length : nat := 24.

Section Crc.
(** [boost::crc_32_type] on the bytes. *)
Variable crc32 : bytes -> Z.

Definition create_checksum_index (words : list bytes) (n : nat) : Z :=
  crc32 (flat_map (fun w => trim_word w n) words) mod Z.of_nat seed_length.

(** [seed.back()], [pop_back()] and the two trimmed words; the vector is never empty here. *)
Definition checksum_test (seed : list bytes) (n : nat) : bool :=
  let last_word := last seed [] in
  let seed := removelast seed in
  let checksum := nth (Z.to_nat (create_checksum_index seed n)) seed [] in
  trim_word checksum n ==b trim_word last_word n.

(** The words of the seed in the language's map, up to the first that is missing. *)
Fixpoint match_words (lang : Base) (seed : list bytes) : option (list Z) :=
  match seed with
  | [] => Some []
  | w :: seed =>
      match lookup (trimmed_word_map lang) (utf8prefix w (unique_prefix_length lang)) with
      | None => None
      | Some i => option_map (cons i) (match_words lang seed)
      end
  end.

(** [find_seed_language] with a checksum word; the indices are cleared for the fallback. *)
Fixpoint find_seed_language (langs : list Base) (seed : list bytes) (fallback : option Base) : option (Base * list Z) :=
  match langs with
  | [] => option_map (fun l => (l, [])) fallback
  | lang :: langs =>
      match match_words lang seed with
      | None => find_seed_language langs seed fallback
      | Some indices =>
          if checksum_test seed (unique_prefix_length lang) then Some (lang, indices)
          else find_seed_language langs seed (Some lang)
      end
  end.

(** One [uint32_t] from three indices. *)
Definition triple_value (L w1 w2 w3 : Z) : Z :=
  w32 (w1 + w32 (L * (w32 (w32 (L - w1) + w2) mod L)) + w32 (w32 (L * L) * (w32 (w32 (L - w2) + w3) mod L))).
Fixpoint triples (n : nat) (L : Z) (indices : list Z) : option bytes :=
  match n with
  | O => Some []
  | S n =>
      match indices with
      | w1 :: w2 :: w3 :: rest =>
          let val := triple_value L w1 w2 w3 in
          if negb (val mod L =? w1) then None
          else option_map (app (le_split 4 val)) (triples n L rest)
      | _ => None
      end
  end.

(** [boost::trim] and [boost::split] on white space, runs taken as one. *)
Variable split_words : bytes -> list bytes.

Definition words_to_bytes (langs : list Base) (words : bytes) : option (bytes * bytes) :=
  let seed := split_words words in
  if negb (length seed =? seed_length + 1)%nat then None
  else
    match find_seed_language langs seed None with
    | None => None
    | Some (language, matched_indices) =>
        let word_list_length := w32 (Z.of_nat (length (word_list language))) in
        if negb (checksum_test seed (unique_prefix_length language)) then None
        else
          option_map (fun dst => (dst, language_name language))
            (triples (length (removelast seed) / 3) word_list_length matched_indices)
    end.

(** Four bytes as three words. *)
Definition value_indices (L val : Z) : list Z :=
  let w1 := val mod L in
  let w2 := w32 (val / L + w1) mod L in
  let w3 := w32 (val / L / L + w2) mod L in
  [w1; w2; w3].
Fixpoint words_store (n : nat) (ws : list bytes) (src : bytes) : list bytes :=
  match n with
  | O => []
  | S n => map (fun i => nth (Z.to_nat i) ws []) (value_indices (w32 (Z.of_nat (length ws))) (le_combine (firstn 4 src))) ++ words_store n ws (skipn 4 src)
  end.
Definition find_language (langs : list Base) (name : bytes) : option Base := find (fun l => language_name l ==b name) langs.
Fixpoint join_words (ws : list bytes) : bytes :=
  match ws with
  | [] => []
  | [w] => w
  | w :: ws => w ++ b8 32 :: join_words ws
  end.
Definition bytes_to_words (langs : list Base) (src name : bytes) : option bytes :=
  match find_language langs name with
  | None => None
  | Some language =>
      let store := words_store (length src / 4) (word_list language) src in
      Some (join_words (store ++ [nth (Z.to_nat (create_checksum_index store (unique_prefix_length language))) store []]))
  end.

End Crc.
End ElectrumWords.
Import ElectrumWords.

(** ** Three words hold 32 bits *)

Abbreviation L1626 := 1626.

Lemma mod_sub_back x y : 0 <= x < L1626 -> 0 <= y < L1626 -> ((L1626 - x + y) mod L1626 + x) mod L1626 = y.
Proof. intros Hx Hy. rewrite Zplus_mod_idemp_l. replace (L1626 - x + y + x) with (y + 1 * L1626) by ring. rewrite Z_mod_plus_full. now apply Z.mod_small. Qed.

(** The number the three indices stand for, before it is cut to 32 bits. *)
Definition triple_full (w1 w2 w3 : Z) : Z := w1 + L1626 * ((L1626 - w1 + w2) mod L1626) + L1626 * L1626 * ((L1626 - w2 + w3) mod L1626).

Lemma triple_value_wrap w1 w2 w3 : 0 <= w1 < L1626 -> 0 <= w2 < L1626 -> 0 <= w3 < L1626 ->
  triple_value L1626 w1 w2 w3 = w32 (triple_full w1 w2 w3).
Proof.
  intros H1 H2 H3. unfold triple_value, triple_full. rewrite (wrap_small 32 (L1626 - w1)), (wrap_small 32 (L1626 - w2)) by (unfold in_w; lia).
  rewrite (wrap_small 32 (L1626 - w1 + w2)), (wrap_small 32 (L1626 - w2 + w3)) by (unfold in_w; lia).
  change (w32 (L1626 * L1626)) with (L1626 * L1626). unfold wrap. rewrite Zplus_mod_idemp_r, <- Z.add_assoc, (Z.add_comm ((_ * _) mod _)), Z.add_assoc.
  rewrite Zplus_mod_idemp_r. f_equal. ring.
Qed.

Lemma triple_full_parts w1 w2 w3 : 0 <= w1 < L1626 -> 0 <= w2 < L1626 -> 0 <= w3 < L1626 ->
  let v := triple_full w1 w2 w3 in
  0 <= v < L1626 ^ 3 /\ v mod L1626 = w1 /\ (v / L1626 + w1) mod L1626 = w2 /\ (v / L1626 / L1626 + w2) mod L1626 = w3.
Proof.
  intros H1 H2 H3 v. pose proof (mod_sub_back w1 w2 H1 H2) as B. pose proof (mod_sub_back w2 w3 H2 H3) as C. unfold triple_full in v.
  set (b := (L1626 - w1 + w2) mod L1626) in *. set (c := (L1626 - w2 + w3) mod L1626) in *.
  assert (Hb : 0 <= b < L1626) by (apply Z.mod_pos_bound; lia). assert (Hc : 0 <= c < L1626) by (apply Z.mod_pos_bound; lia).
  assert (Ev : v = w1 + (b + c * L1626) * L1626) by (unfold v; ring).
  assert (D : v / L1626 = b + c * L1626) by (rewrite Ev, Z_div_plus_full, Z.div_small; lia).
  split; [lia|]. split; [rewrite Ev, Z_mod_plus_full; now apply Z.mod_small|]. rewrite D. split.
  - replace (b + c * L1626 + w1) with (b + w1 + c * L1626) by ring. now rewrite Z_mod_plus_full.
  - rewrite Z_div_plus_full, (Z.div_small b), Z.add_0_l by lia. exact C.
Qed.

(** Writing and reading four bytes are inverse; the triples past [2^32] are refused
    by the test on the remainder. *)
Lemma triple_exact w1 w2 w3 : 0 <= w1 < L1626 -> 0 <= w2 < L1626 -> 0 <= w3 < L1626 ->
  let val := triple_value L1626 w1 w2 w3 in val mod L1626 = w1 <-> value_indices L1626 val = [w1; w2; w3].
Proof.
  intros H1 H2 H3 val. split; [|intros E; now injection E]. unfold val. rewrite triple_value_wrap by assumption.
  destruct (triple_full_parts w1 w2 w3 H1 H2 H3) as (B & M1 & M2 & M3). set (v := triple_full w1 w2 w3) in *. intros E.
  assert (Hv : v < 2 ^ 32).
  { destruct (Z.lt_ge_cases v (2 ^ 32)) as [|G]; [assumption|exfalso].
    assert (W : w32 v = v - 2 ^ 32) by (unfold wrap; rewrite <- (Z_mod_plus_full v (-1)); apply Z.mod_small; lia).
    rewrite W in E. pose proof (Z.div_mod v L1626 ltac:(lia)). pose proof (Z.div_mod (v - 2 ^ 32) L1626 ltac:(lia)). lia. }
  rewrite (wrap_small 32) by (unfold in_w; lia). unfold value_indices. rewrite M1.
  assert (0 <= v / L1626 < 2 ^ 22) by (split; [apply Z.div_pos; lia|apply Z.div_lt_upper_bound; lia]).
  assert (0 <= v / L1626 / L1626 < 2 ^ 22) by (split; [apply Z.div_pos; lia|apply Z.div_lt_upper_bound; lia]).
  rewrite (wrap_small 32 (v / L1626 + w1)), M2 by (unfold in_w; lia). rewrite (wrap_small 32), M3 by (unfold in_w; lia). reflexivity.
Qed.

Lemma value_written val : in_w 32 val -> exists w1 w2 w3, value_indices L1626 val = [w1; w2; w3] /\
  0 <= w1 < L1626 /\ 0 <= w2 < L1626 /\ 0 <= w3 < L1626 /\ triple_value L1626 w1 w2 w3 = val.
Proof.
  intros Hv. unfold in_w in Hv. unfold value_indices. set (w1 := val mod L1626). set (w2 := w32 (val / L1626 + w1) mod L1626). set (w3 := w32 _ mod L1626).
  exists w1, w2, w3. assert (H1 : 0 <= w1 < L1626) by (apply Z.mod_pos_bound; lia). assert (H2 : 0 <= w2 < L1626) by (apply Z.mod_pos_bound; lia).
  assert (H3 : 0 <= w3 < L1626) by (apply Z.mod_pos_bound; lia). repeat (split; [reflexivity || lia|]).
  assert (D1 : 0 <= val / L1626 < 2 ^ 22) by (split; [apply Z.div_pos; lia|apply Z.div_lt_upper_bound; lia]).
  assert (D2 : 0 <= val / L1626 / L1626 < L1626) by (split; [apply Z.div_pos; lia|apply Z.div_lt_upper_bound; [lia|]; apply Z.div_lt_upper_bound; lia]).
  rewrite triple_value_wrap by assumption. rewrite <- (wrap_small 32 val) by (unfold in_w; lia). f_equal. unfold triple_full.
  assert (E2 : (L1626 - w1 + w2) mod L1626 = (val / L1626) mod L1626).
  { unfold w2. rewrite (wrap_small 32) by (unfold in_w; lia). rewrite Zplus_mod_idemp_r. replace (L1626 - w1 + (val / L1626 + w1)) with (val / L1626 + 1 * L1626) by ring.
    apply Z_mod_plus_full. }
  assert (E3 : (L1626 - w2 + w3) mod L1626 = val / L1626 / L1626).
  { unfold w3. rewrite (wrap_small 32) by (unfold in_w; lia). rewrite Zplus_mod_idemp_r. replace (L1626 - w2 + (val / L1626 / L1626 + w2)) with (val / L1626 / L1626 + 1 * L1626) by ring.
    rewrite Z_mod_plus_full. now apply Z.mod_small. }
  rewrite E2, E3. unfold w1. pose proof (Z.div_mod val L1626 ltac:(lia)). pose proof (Z.div_mod (val / L1626) L1626 ltac:(lia)). lia.
Qed.

(** The indices of all the words. *)
Fixpoint seed_indices (n : nat) (src : bytes) : list Z :=
  match n with
  | O => []
  | S n => value_indices L1626 (le_combine (firstn 4 src)) ++ seed_indices n (skipn 4 src)
  end.
Abbreviation indexed := (Forall (fun i => 0 <= i < L1626)).

Lemma words_store_indices n : forall ws src, length ws = Z.to_nat L1626 ->
  words_store n ws src = map (fun i => nth (Z.to_nat i) ws []) (seed_indices n src).
Proof.
  induction n as [|n IH]; intros ws src L; [reflexivity|]. cbn [words_store seed_indices]. rewrite L, map_app, IH by exact L. reflexivity.
Qed.

Lemma four_bytes b : length b = 4%nat -> in_w 32 (le_combine b) /\ le_split 4 (le_combine b) = b.
Proof.
  intros L. split; [|now apply split_le_combine']. unfold in_w. pose proof (le_combine_bound b) as B. now rewrite L in B.
Qed.

Lemma value_indices_shape val : exists w1 w2 w3, value_indices L1626 val = [w1; w2; w3] /\ 0 <= w1 < L1626 /\ 0 <= w2 < L1626 /\ 0 <= w3 < L1626.
Proof. unfold value_indices. do 3 eexists. split; [reflexivity|]. repeat split; apply Z.mod_pos_bound; lia. Qed.

Lemma seed_indices_spec n : forall src, indexed (seed_indices n src) /\ length (seed_indices n src) = (3 * n)%nat.
Proof.
  induction n as [|n IH]; intros src; [repeat constructor|]. cbn [seed_indices]. destruct (value_indices_shape (le_combine (firstn 4 src))) as (w1 & w2 & w3 & -> & H1 & H2 & H3).
  destruct (IH (skipn 4 src)) as [F L]. split; [repeat constructor; tauto || apply F|]. cbn [app length]. lia.
Qed.

Lemma triples_iff n : forall idx rest dst, indexed idx -> length idx = (3 * n)%nat ->
  triples n L1626 (idx ++ rest) = Some dst <-> length dst = (4 * n)%nat /\ seed_indices n dst = idx.
Proof.
  induction n as [|n IH]; intros idx rest dst F L.
  - apply length_zero_iff_nil in L as ->. cbn [triples seed_indices]. split; [intros [= <-]; auto|]. intros [H _]. apply length_zero_iff_nil in H as ->. reflexivity.
  - destruct idx as [|w1 [|w2 [|w3 idx]]]; cbn [length] in L; try lia. inversion_clear F as [|? ? H1 F']. inversion_clear F' as [|? ? H2 F]. inversion_clear F as [|? ? H3 F'].
    cbn [app triples]. pose proof (triple_exact w1 w2 w3 H1 H2 H3) as E. cbv zeta in E. set (val := triple_value L1626 w1 w2 w3) in *.
    assert (Lc : length (le_split 4 val) = 4%nat) by apply length_le_split. remember (le_split 4 val) as b4 eqn:Eb4.
    destruct (Z.eqb_spec (val mod L1626) w1) as [M|M]; cbn [negb]; split.
    + destruct (triples n L1626 (idx ++ rest)) as [d|] eqn:T; [|discriminate]. apply IH in T as [Ld S]; [|exact F'|lia].
      cbn [option_map]. intros [= <-]. rewrite length_app, Lc, Ld. split; [lia|]. cbn [seed_indices]. rewrite firstn_app_exact, skipn_app_exact by exact Lc.
      rewrite Eb4, le_combine_split, S, Z.mod_small; [now rewrite (proj1 E M)|]. unfold val, triple_value, wrap. apply Z.mod_pos_bound. lia.
    + intros [Ld S]. destruct (split_at 4 dst) as (b & d & -> & Lb & Ld'); [lia|]. cbn [seed_indices] in S. rewrite firstn_app_exact, skipn_app_exact in S by exact Lb.
      destruct (four_bytes b Lb) as [Wb Eb]. destruct (value_written (le_combine b) Wb) as (x1 & x2 & x3 & Ex & _ & _ & _ & Ev). rewrite Ex in S.
      injection S as -> -> -> S. fold val in Ev. rewrite (proj2 (IH idx rest d F' ltac:(lia))) by (rewrite length_app in Ld; split; [lia|exact S]).
      cbn [option_map]. now rewrite Eb4, Ev, Eb.
    + discriminate.
    + intros [Ld S]. destruct (split_at 4 dst) as (b & d & -> & Lb & Ld'); [lia|]. cbn [seed_indices] in S. rewrite firstn_app_exact in S by exact Lb.
      destruct (four_bytes b Lb) as [Wb _]. destruct (value_written (le_combine b) Wb) as (x1 & x2 & x3 & Ex & _ & _ & _ & Ev). rewrite Ex in S.
      injection S as -> -> -> S. fold val in Ev. destruct M. apply E. now rewrite Ev.
Qed.

(** ** The word lists *)

Definition is_space (c : byte) : bool := let z := u8 c in (z =? 32) || ((9 <=? z) && (z <=? 13)).
Definition good_word (w : bytes) : Prop := w <> [] /\ Forall (fun c => u8 c <> 0 /\ is_space c = false) w.
(** The maps are the ones the constructor makes, no two words share a prefix, and
    the words are text without spaces. *)
Definition good_language (l : Base) : Prop :=
  (exists fl, populate_maps (language_name l) (word_list l) (unique_prefix_length l) fl = Ok l) /\
  NoDup (map (fun w => trim_word w (unique_prefix_length l)) (word_list l)) /\ Forall good_word (word_list l).

Lemma continuation_app s : let (p, r) := continuation s in s = p ++ r.
Proof. induction s as [|c s IH]; [reflexivity|]. cbn [continuation]. destruct (_ =? _); [|reflexivity]. destruct (continuation s). cbn. now f_equal. Qed.

Lemma utf8prefix_whole n : forall s, Forall (fun c => u8 c <> 0) s -> (length s <= n)%nat -> utf8prefix s n = s.
Proof.
  induction n as [|n IH]; intros [|c s] F L; cbn [utf8prefix length] in *; try reflexivity; [lia|]. inversion_clear F as [|? ? N F'].
  destruct (Z.eqb_spec (u8 c) 0) as [|_]; [contradiction|]. pose proof (continuation_app s) as E. destruct (continuation s) as [p r]. subst s.
  apply Forall_app in F' as [_ F']. rewrite length_app in L. f_equal. f_equal. apply IH; [exact F'|lia].
Qed.

Lemma trim_prefix w n : Forall (fun c => u8 c <> 0) w -> trim_word w n = utf8prefix w n.
Proof. intros F. unfold trim_word. destruct (Nat.ltb_spec n (length w)); [reflexivity|]. symmetry. now apply utf8prefix_whole. Qed.

Lemma good_word_nonzero w : good_word w -> Forall (fun c => u8 c <> 0) w.
Proof. intros [_ F]. revert F. apply Forall_impl. tauto. Qed.

Lemma guard_inv {E A} (b : bool) (e : E) (k : result E A) x : bind (guard b e) (fun _ => k) = Ok x -> b = true /\ k = Ok x.
Proof. destruct b; [auto|discriminate]. Qed.
Lemma bind_inv {E A B} (c : result E A) (k : A -> result E B) x : bind c k = Ok x -> exists a, c = Ok a /\ k a = Ok x.
Proof. destruct c; [eauto|discriminate]. Qed.

Lemma populate_lookup fl n ws : forall ii m m', populate_loop fl n ws ii m = Ok m' -> NoDup (map (fun w => trim_word w n) ws) ->
  forall k i, lookup m' k = Some i <->
    (exists j, (j < length ws)%nat /\ k = trim_word (nth j ws []) n /\ i = ii + Z.of_nat j) \/
    (~ In k (map (fun w => trim_word w n) ws) /\ lookup m k = Some i).
Proof.
  induction ws as [|w ws IH]; intros ii m m' H D k i; cbn [populate_loop map] in *.
  - injection H as <-. split; [auto|]. intros [(j & L & _)|[_ H]]; [cbn in L; lia|exact H].
  - apply guard_inv in H as [_ H]. apply guard_inv in H as [_ H]. inversion_clear D as [|? ? N D']. rewrite (IH _ _ _ H D').
    cbn [lookup length In]. destruct (trim_word w n ==b k) eqn:E.
    + apply bytes_eqb_eq in E. subst k. split.
      * intros [(j & L & K & ->)|[_ [= <-]]].
        -- destruct N. cbn beta. rewrite K. apply (in_map (fun x => trim_word x n)), nth_In, L.
        -- left. exists 0%nat. repeat split; cbn; lia.
      * intros [([|j] & L & K & ->)|[C _]]; [right; split; [exact N|cbn; f_equal; lia]| |destruct C; now left].
        destruct N. cbn [nth] in K. cbn beta. rewrite K. apply (in_map (fun x => trim_word x n)), nth_In. lia.
    + assert (Ne : trim_word w n <> k) by (intros X; rewrite X, bytes_eqb_refl in E; discriminate). split.
      * intros [(j & L & K & ->)|[C M]]; [left; exists (S j); cbn [nth]; repeat split; auto; lia|right; tauto].
      * intros [([|j] & L & K & ->)|[C M]]; [destruct Ne; now symmetry|left; exists j; cbn [nth] in K; repeat split; auto; lia|right; tauto].
Qed.

Lemma language_lookup l : good_language l -> length (word_list l) = Z.to_nat L1626 /\ forall k i,
  lookup (trimmed_word_map l) k = Some i <-> 0 <= i < L1626 /\ k = trim_word (nth (Z.to_nat i) (word_list l) []) (unique_prefix_length l).
Proof.
  intros ([fl P] & D & _). unfold populate_maps in P. apply guard_inv in P as [L P]. apply Nat.eqb_eq in L. split; [exact L|].
  apply bind_inv in P as (m & P & E). injection E as E. assert (M : trimmed_word_map l = m) by now rewrite <- E. rewrite M. intros k i.
  rewrite (populate_lookup _ _ _ _ _ _ P D). rewrite L. split.
  - intros [(j & Lj & -> & ->)|[_ [=]]]. rewrite Z.add_0_l, Nat2Z.id. split; [lia|reflexivity].
  - intros [B ->]. left. exists (Z.to_nat i). split; [lia|]. split; [reflexivity|lia].
Qed.

(** The word at an index and the prefix by which it is known. *)
Abbreviation word_at l i := (nth (Z.to_nat i) (word_list l) []).
#[local] Abbreviation prefix l w := (utf8prefix w (unique_prefix_length l)).

Lemma word_at_good l i : good_language l -> 0 <= i < L1626 -> good_word (word_at l i).
Proof.
  intros G B. destruct (language_lookup l G) as [L _]. destruct G as (_ & _ & F). rewrite Forall_forall in F. apply F, nth_In. lia.
Qed.

Lemma match_words_iff l : good_language l -> forall seed idx, match_words l seed = Some idx <->
  indexed idx /\ map (fun w => prefix l w) seed = map (fun i => prefix l (word_at l i)) idx.
Proof.
  intros G. induction seed as [|w seed IH]; intros idx; cbn [match_words map].
  - split; [intros [= <-]; split; [constructor|reflexivity]|]. intros [_ E]. destruct idx; [reflexivity|discriminate].
  - destruct (language_lookup l G) as [_ K]. assert (T : forall i, 0 <= i < L1626 -> trim_word (word_at l i) (unique_prefix_length l) = prefix l (word_at l i))
      by (intros i B; apply trim_prefix, good_word_nonzero, word_at_good; assumption).
    split.
    + destruct (lookup _ _) as [i|] eqn:E; [|discriminate]. apply K in E as [B E]. destruct (match_words l seed) as [r|]; [|discriminate].
      intros [= <-]. destruct (proj1 (IH r) eq_refl) as [F M]. cbn [map]. rewrite <- M, E, T by exact B. split; [constructor; assumption|reflexivity].
    + intros [F M]. destruct idx as [|i idx]; [discriminate|]. injection M as E M. inversion_clear F as [|? ? B F'].
      rewrite (proj2 (K _ i)) by (rewrite T by exact B; auto). now rewrite (proj2 (IH idx) (conj F' M)).
Qed.

(** ** Writing down and restoring *)

Section Phrases.
Variable crc32 : bytes -> Z.
Variable split_words : bytes -> list bytes.
(** Words without white space, written with single spaces, are split apart again. *)
Hypothesis split_joined : forall ws, ws <> [] -> Forall good_word ws -> split_words (join_words ws) = ws.

Abbreviation checksum_test := (checksum_test crc32).
Abbreviation find_seed_language := (find_seed_language crc32).
Abbreviation words_to_bytes := (words_to_bytes crc32 split_words).
Abbreviation bytes_to_words := (bytes_to_words crc32).

(** The language reads every word and finds the checksum right. *)
Definition claims (seed : list bytes) (l : Base) : Prop :=
  (exists idx, match_words l seed = Some idx) /\ checksum_test seed (unique_prefix_length l) = true.

Lemma find_first langs pre l post seed idx fb : langs = pre ++ l :: post -> Forall (fun l' => ~ claims seed l') pre ->
  match_words l seed = Some idx -> checksum_test seed (unique_prefix_length l) = true -> find_seed_language langs seed fb = Some (l, idx).
Proof.
  intros ->. revert fb. induction pre as [|l' pre IH]; intros fb F M C; cbn [app ElectrumWords.find_seed_language].
  - now rewrite M, C.
  - inversion_clear F as [|? ? N F']. destruct (match_words l' seed) as [x|] eqn:M'; [|now apply IH].
    destruct (checksum_test seed (unique_prefix_length l')) eqn:C'; [destruct N; split; eauto|now apply IH].
Qed.

(** What is found reads the words, or is a fallback whose checksum fails. *)
Lemma find_inv langs seed l idx : forall fb, (forall l', fb = Some l' -> checksum_test seed (unique_prefix_length l') = false) ->
  find_seed_language langs seed fb = Some (l, idx) ->
  (In l langs /\ match_words l seed = Some idx) \/ checksum_test seed (unique_prefix_length l) = false.
Proof.
  induction langs as [|l' langs IH]; intros fb K H; cbn [ElectrumWords.find_seed_language] in H.
  - destruct fb as [f|]; [|discriminate]. injection H as <- <-. right. now apply K.
  - destruct (match_words l' seed) as [x|] eqn:M.
    + destruct (checksum_test seed (unique_prefix_length l')) eqn:C; [injection H as <- <-; left; split; [now left|exact M]|].
      apply IH in H as [[I H]|H]; [left; split; [now right|exact H]|right; exact H|]. now intros ? [= <-].
    + apply IH in H as [[I H]|H]; [left; split; [now right|exact H]|right; exact H|exact K].
Qed.

(** The 25 words of a seed. *)
Definition phrase (l : Base) (key : bytes) : list bytes :=
  let store := words_store 8 (word_list l) key in
  store ++ [nth (Z.to_nat (create_checksum_index crc32 store (unique_prefix_length l))) store []].

Lemma store_spec l key : good_language l -> let store := words_store 8 (word_list l) key in
  length store = 24%nat /\ store = map (fun i => word_at l i) (seed_indices 8 key) /\ Forall good_word store.
Proof.
  intros G store. destruct (language_lookup l G) as [L _]. unfold store. rewrite words_store_indices by exact L. destruct (seed_indices_spec 8 key) as [F Ln].
  rewrite length_map, Ln. split; [reflexivity|]. split; [reflexivity|]. apply Forall_map. revert F. apply Forall_impl. intros i B. now apply word_at_good.
Qed.

Lemma phrase_spec l key : good_language l -> length (phrase l key) = 25%nat /\ Forall good_word (phrase l key) /\
  (exists i, 0 <= i < L1626 /\ match_words l (phrase l key) = Some (seed_indices 8 key ++ [i])) /\
  checksum_test (phrase l key) (unique_prefix_length l) = true.
Proof.
  intros G. unfold phrase. destruct (store_spec l key G) as (Ls & Es & Fs). set (store := words_store 8 (word_list l) key) in *. set (ci := Z.to_nat _).
  assert (Hc : (ci < 24)%nat).
  { unfold ci, create_checksum_index, seed_length. pose proof (Z.mod_pos_bound (crc32 (flat_map (fun w => trim_word w (unique_prefix_length l)) store)) 24 ltac:(lia)). lia. }
  assert (In (nth ci store []) store) as I by (apply nth_In; lia). rewrite length_app, Ls. split; [reflexivity|]. split.
  { apply Forall_app. split; [exact Fs|]. constructor; [|constructor]. rewrite Forall_forall in Fs. now apply Fs. }
  destruct (seed_indices_spec 8 key) as [F _]. split.
  - rewrite Es in I. apply in_map_iff in I as (i & E & I). assert (B : 0 <= i < L1626) by (rewrite Forall_forall in F; now apply F). exists i. split; [exact B|].
    apply match_words_iff; [exact G|]. split; [apply Forall_app; split; [exact F|constructor; [exact B|constructor]]|]. rewrite !map_app. rewrite Es at 1. rewrite map_map. f_equal.
    cbn [map]. rewrite Es, <- E. reflexivity.
  - unfold ElectrumWords.checksum_test. rewrite last_last, removelast_last. apply bytes_eqb_refl.
Qed.

(** C39: A phrase restores its seed: for a language in the table, the words written
    for 32 bytes are read back as those bytes in that language, unless a language
    that comes earlier in the table reads all of them with a matching checksum. *)
Theorem phrase_restores pre l post key : length key = 32%nat -> good_language l ->
  NoDup (map language_name (pre ++ l :: post)) -> Forall (fun l' => ~ claims (phrase l key) l') pre ->
  exists words, bytes_to_words (pre ++ l :: post) key (language_name l) = Some words /\
    words_to_bytes (pre ++ l :: post) words = Some (key, language_name l).
Proof.
  intros Lk G D F. exists (join_words (phrase l key)). destruct (phrase_spec l key G) as (L & Fg & (i & B & M) & C). split.
  - unfold ElectrumWords.bytes_to_words, find_language. replace (find _ _) with (Some l); [now rewrite Lk|]. symmetry. clear - D.
    induction pre as [|x pre IH]; cbn [app find map] in *; [now rewrite bytes_eqb_refl|]. inversion_clear D as [|? ? N D'].
    destruct (language_name x ==b language_name l) eqn:E; [|now apply IH]. apply bytes_eqb_eq in E. destruct N. rewrite E. apply in_map, in_elt.
  - unfold ElectrumWords.words_to_bytes. rewrite split_joined; [|intros E; rewrite E in L; discriminate|exact Fg]. rewrite L. cbn [seed_length Nat.add Nat.eqb negb].
    rewrite (find_first _ pre l post _ _ None eq_refl F M C), C. cbn [negb]. destruct (language_lookup l G) as [Ll _]. rewrite Ll.
    unfold phrase. rewrite removelast_last. destruct (store_spec l key G) as (Ls & _ & _). rewrite Ls. destruct (seed_indices_spec 8 key) as [Fi Li].
    change (w32 (Z.of_nat (Z.to_nat L1626))) with L1626. change (24 / 3)%nat with 8%nat. now rewrite (proj2 (triples_iff 8 (seed_indices 8 key) [i] key Fi Li)).
Qed.

(** What is restored was written: the bytes a phrase gives are those whose words, in
    the language that was recognised, have the same prefixes, and its last word is
    the checksum of the others. *)
Theorem restored_exact langs words key name : Forall good_language langs -> words_to_bytes langs words = Some (key, name) ->
  exists l seed c, In l langs /\ language_name l = name /\ length key = 32%nat /\ split_words words = seed ++ [c] /\
    map (fun w => prefix l w) seed = map (fun w => prefix l w) (words_store 8 (word_list l) key) /\
    checksum_test (seed ++ [c]) (unique_prefix_length l) = true.
Proof.
  intros F H. unfold ElectrumWords.words_to_bytes in H. destruct (Nat.eqb_spec (length (split_words words)) (seed_length + 1)) as [L|]; [|discriminate]. cbn [negb] in H.
  destruct (find_seed_language langs (split_words words) None) as [[l idx]|] eqn:E; [|discriminate].
  destruct (checksum_test (split_words words) (unique_prefix_length l)) eqn:C; [|discriminate]. cbn [negb] in H.
  apply find_inv in E as [[I M]|E]; [|congruence|discriminate]. rewrite Forall_forall in F. assert (G := F l I).
  destruct (exists_last (l := split_words words)) as (seed & c & S); [intros X; rewrite X in L; discriminate|]. rewrite S in *.
  rewrite removelast_last in H. rewrite length_app in L. unfold seed_length in L. cbn [length] in L. replace (length seed) with 24%nat in H by lia.
  destruct (language_lookup l G) as [Ll _]. rewrite Ll in H. change (w32 (Z.of_nat (Z.to_nat L1626))) with L1626 in H. change (24 / 3)%nat with 8%nat in H.
  apply match_words_iff in M as [Fi M]; [|exact G]. rewrite map_app in M. apply eq_sym, map_eq_app in M as (i24 & ic & -> & M & Mc). apply Forall_app in Fi as [Fi _].
  assert (L24 : length i24 = 24%nat) by (rewrite <- (length_map (fun i => prefix l (word_at l i))), M, length_map; lia).
  destruct (triples 8 L1626 (i24 ++ ic)) as [d|] eqn:T; [|discriminate]. injection H as -> <-. apply triples_iff in T as [Lk Si]; [|exact Fi|exact L24].
  exists l, seed, c. repeat (split; [assumption || reflexivity|]). split; [|exact C]. rewrite words_store_indices by exact Ll. rewrite Si, map_map. now symmetry.
Qed.

End Phrases.

(** ** Keys from the seed *)

Module PqSeed.

Definition kDomainViewRoot : bytes := str "discrete-pq-view-root-v1".
Definition kDomainSpendRoot : bytes := str "discrete-pq-spend-root-v1".
Definition kDomainDepositSpendRoot : bytes := str "discrete-pq-deposit-spend-v1".

Section Derive.
Variable sha3_256 : bytes -> bytes.
(** Key generation of ML-KEM-768 and ML-DSA-65 from a seed: public key, secret key. *)
Variable kem_keygen_from_seed : bytes -> bytes * bytes.
Variable dsa_keygen_from_seed : bytes -> bytes * bytes.

Definition deriveViewSeed (seedMaster : bytes) : bytes :=
  let salt := repeat (b8 0) 32 in
  match hkdf_sha3_256_explicit sha3_256 seedMaster salt kDomainViewRoot 64 with
  | Some out => out
  | None => repeat (b8 0) 64
  end.
Definition deriveViewKeys (seedMaster : bytes) : bytes * bytes := kem_keygen_from_seed (deriveViewSeed seedMaster).
Definition deriveSpendSeed (seedMaster : bytes) : bytes := hkdf_sha3_256 sha3_256 seedMaster kDomainSpendRoot.
Definition deriveSpendKeys (seedMaster : bytes) : bytes * bytes := dsa_keygen_from_seed (deriveSpendSeed seedMaster).
Definition deriveDepositSpendSeed (seedMaster : bytes) (depositIndex : Z) : bytes :=
  hkdf_sha3_256 sha3_256 seedMaster (kDomainDepositSpendRoot ++ le32 depositIndex).
Definition deriveDepositSpendKeys (seedMaster : bytes) (depositIndex : Z) : bytes * bytes :=
  dsa_keygen_from_seed (deriveDepositSpendSeed seedMaster depositIndex).

End Derive.
End PqSeed.
Import PqSeed.

Section Branches.
Variable sha3_256 : bytes -> bytes.
Hypothesis sha3_256_size : forall x, length (sha3_256 x) = 32%nat.

(** The secrets a master seed gives. *)
Inductive branch := View | Spend | Deposit (i : Z).
Definition branch_seed (seedMaster : bytes) (b : branch) : bytes :=
  match b with
  | View => firstn 32 (deriveViewSeed sha3_256 seedMaster)
  | Spend => deriveSpendSeed sha3_256 seedMaster
  | Deposit i => deriveDepositSpendSeed sha3_256 seedMaster i
  end.
Definition branch_ok (b : branch) : Prop := match b with Deposit i => in_w 32 i | _ => True end.
Definition branch_info (b : branch) : bytes :=
  match b with
  | View => kDomainViewRoot
  | Spend => kDomainSpendRoot
  | Deposit i => kDomainDepositSpendRoot ++ le32 i
  end.

Lemma first_block prk info : firstn 32 (hkdf_blocks sha3_256 prk info 255) = hmac_sha3_256 sha3_256 prk (info ++ [b8 1]).
Proof.
  rewrite (hkdf_blocks_prefix sha3_256 sha3_256_size prk info 1 32 255) by lia. unfold hkdf_blocks. cbn [seq map concat]. rewrite app_nil_r.
  rewrite firstn_all2 by (rewrite hkdf_T_size by exact sha3_256_size; lia). reflexivity.
Qed.

(** Every branch starts with one HMAC of its label under the key extracted from the
    master seed. *)
Lemma branch_hmac seedMaster b :
  branch_seed seedMaster b = hmac_sha3_256 sha3_256 (hmac_sha3_256 sha3_256 (repeat (b8 0) 32) seedMaster) (branch_info b ++ [b8 1]).
Proof.
  rewrite <- first_block. destruct b as [| |i]; cbn [branch_seed branch_info].
  - unfold deriveViewSeed. rewrite (hkdf_spec sha3_256 sha3_256_size) by lia. cbn [length repeat Nat.eqb]. rewrite firstn_firstn. reflexivity.
  - unfold deriveSpendSeed, hkdf_sha3_256. rewrite (hkdf_spec sha3_256 sha3_256_size) by lia. reflexivity.
  - unfold deriveDepositSpendSeed, hkdf_sha3_256. rewrite (hkdf_spec sha3_256 sha3_256_size) by lia. reflexivity.
Qed.

Lemma branch_info_inj b b' : branch_ok b -> branch_ok b' -> branch_info b = branch_info b' -> b = b'.
Proof.
  intros H H' E. destruct b as [| |i], b' as [| |i']; try reflexivity; try discriminate E.
  cbn [branch_info] in E. apply app_inv_head in E. f_equal. cbn [branch_ok] in H, H'. unfold le32 in E. apply (f_equal le_combine) in E.
  rewrite !le_combine_split in E. now rewrite !Z.mod_small in E.
Qed.

(** What is hashed to make a branch. *)
Definition branch_preimages (seedMaster : bytes) (b : branch) : list bytes :=
  let (ipad, opad) := hmac_pads sha3_256 (hmac_sha3_256 sha3_256 (repeat (b8 0) 32) seedMaster) in
  let inner := ipad ++ branch_info b ++ [b8 1] in [opad ++ sha3_256 inner; inner].

(** The keys of a wallet are independent: if two of the secrets derived from one
    master seed (the view secret, the spend secret, the deposit secrets) agree, they
    are the same branch, or two of the strings hashed to make them collide. *)
Theorem seed_branches seedMaster b b' : branch_ok b -> branch_ok b' -> branch_seed seedMaster b = branch_seed seedMaster b' ->
  b = b' \/ collides sha3_256 (branch_preimages seedMaster b ++ branch_preimages seedMaster b').
Proof.
  intros H H' E. rewrite !branch_hmac in E. unfold branch_preimages. set (prk := hmac_sha3_256 sha3_256 _ seedMaster) in *.
  unfold hmac_sha3_256 in E. destruct (hmac_pads sha3_256 prk) as [ip op]. set (x := ip ++ branch_info b ++ [b8 1]) in *. set (y := ip ++ branch_info b' ++ [b8 1]) in *.
  apply (hash_cases sha3_256 [op ++ sha3_256 x; x; op ++ sha3_256 y; y]) in E as [E|C]; [|right; exact C|cbn; auto..]. apply app_inv_head in E.
  apply (hash_cases sha3_256 [op ++ sha3_256 x; x; op ++ sha3_256 y; y]) in E as [E|C]; [|right; exact C|cbn; auto..].
  apply app_inv_head, app_inv_tail in E. left. now apply branch_info_inj.
Qed.

End Branches.
