(* ===== verification/English.v ===== *)
(** * The English word list

    [Mnemonics/english.h]: the language phrases are written in by default. Its words
    have distinct prefixes of three letters, which the sort order shows in one pass. *)

From Stdlib Require Import ZArith String List Lia Bool.
From coqutil Require Import Byte.
From S2P Require Import Prelude PqHash PqDerive Seeds.
Import ListNotations.
Open Scope string_scope.
Open Scope list_scope.
Open Scope Z_scope.
Open Scope discrete_scope.
Import Language ElectrumWords.

Module English.

Definition c_name : bytes := str "English".
Definition words : list bytes := map str [
  "abbey"; "abducts"; "ability"; "ablaze"; "abnormal"; "abort"; "abrasive"; "absorb"; "abyss"; "academy"; "aces"; "aching"; "acidic"; "acoustic";
  "acquire"; "across"; "actress"; "acumen"; "adapt"; "addicted"; "adept"; "adhesive"; "adjust"; "adopt"; "adrenalin"; "adult"; "adventure"; "aerial";
  "afar"; "affair"; "afield"; "afloat"; "afoot"; "afraid"; "after"; "against"; "agenda"; "aggravate"; "agile"; "aglow"; "agnostic"; "agony"; "agreed";
  "ahead"; "aided"; "ailments"; "aimless"; "airport"; "aisle"; "ajar"; "akin"; "alarms"; "album"; "alchemy"; "alerts"; "algebra"; "alkaline"; "alley";
  "almost"; "aloof"; "alpine"; "already"; "also"; "altitude"; "alumni"; "always"; "amaze"; "ambush"; "amended"; "amidst"; "ammo"; "amnesty"; "among";
  "amply"; "amused"; "anchor"; "android"; "anecdote"; "angled"; "ankle"; "annoyed"; "answers"; "antics"; "anvil"; "anxiety"; "anybody"; "apart";
  "apex"; "aphid"; "aplomb"; "apology"; "apply"; "apricot"; "aptitude"; "aquarium"; "arbitrary"; "archer"; "ardent"; "arena"; "argue"; "arises";
  "army"; "around"; "arrow"; "arsenic"; "artistic"; "ascend"; "ashtray"; "aside"; "asked"; "asleep"; "aspire"; "assorted"; "asylum"; "athlete";
  "atlas"; "atom"; "atrium"; "attire"; "auburn"; "auctions"; "audio"; "august"; "aunt"; "austere"; "autumn"; "avatar"; "avidly"; "avoid"; "awakened";
  "awesome"; "awful"; "awkward"; "awning"; "awoken"; "axes"; "axis"; "axle"; "aztec"; "azure"; "baby"; "bacon"; "badge"; "baffles"; "bagpipe";
  "bailed"; "bakery"; "balding"; "bamboo"; "banjo"; "baptism"; "basin"; "batch"; "bawled"; "bays"; "because"; "beer"; "befit"; "begun"; "behind";
  "being"; "below"; "bemused"; "benches"; "berries"; "bested"; "betting"; "bevel"; "beware"; "beyond"; "bias"; "bicycle"; "bids"; "bifocals";
  "biggest"; "bikini"; "bimonthly"; "binocular"; "biology"; "biplane"; "birth"; "biscuit"; "bite"; "biweekly"; "blender"; "blip"; "bluntly"; "boat";
  "bobsled"; "bodies"; "bogeys"; "boil"; "boldly"; "bomb"; "border"; "boss"; "both"; "bounced"; "bovine"; "bowling"; "boxes"; "boyfriend"; "broken";
  "brunt"; "bubble"; "buckets"; "budget"; "buffet"; "bugs"; "building"; "bulb"; "bumper"; "bunch"; "business"; "butter"; "buying"; "buzzer"; "bygones";
  "byline"; "bypass"; "cabin"; "cactus"; "cadets"; "cafe"; "cage"; "cajun"; "cake"; "calamity"; "camp"; "candy"; "casket"; "catch"; "cause";
  "cavernous"; "cease"; "cedar"; "ceiling"; "cell"; "cement"; "cent"; "certain"; "chlorine"; "chrome"; "cider"; "cigar"; "cinema"; "circle"; "cistern";
  "citadel"; "civilian"; "claim"; "click"; "clue"; "coal"; "cobra"; "cocoa"; "code"; "coexist"; "coffee"; "cogs"; "cohesive"; "coils"; "colony";
  "comb"; "cool"; "copy"; "corrode"; "costume"; "cottage"; "cousin"; "cowl"; "criminal"; "cube"; "cucumber"; "cuddled"; "cuffs"; "cuisine"; "cunning";
  "cupcake"; "custom"; "cycling"; "cylinder"; "cynical"; "dabbing"; "dads"; "daft"; "dagger"; "daily"; "damp"; "dangerous"; "dapper"; "darted"; "dash";
  "dating"; "dauntless"; "dawn"; "daytime"; "dazed"; "debut"; "decay"; "dedicated"; "deepest"; "deftly"; "degrees"; "dehydrate"; "deity"; "dejected";
  "delayed"; "demonstrate"; "dented"; "deodorant"; "depth"; "desk"; "devoid"; "dewdrop"; "dexterity"; "dialect"; "dice"; "diet"; "different"; "digit";
  "dilute"; "dime"; "dinner"; "diode"; "diplomat"; "directed"; "distance"; "ditch"; "divers"; "dizzy"; "doctor"; "dodge"; "does"; "dogs"; "doing";
  "dolphin"; "domestic"; "donuts"; "doorway"; "dormant"; "dosage"; "dotted"; "double"; "dove"; "down"; "dozen"; "dreams"; "drinks"; "drowning";
  "drunk"; "drying"; "dual"; "dubbed"; "duckling"; "dude"; "duets"; "duke"; "dullness"; "dummy"; "dunes"; "duplex"; "duration"; "dusted"; "duties";
  "dwarf"; "dwelt"; "dwindling"; "dying"; "dynamite"; "dyslexic"; "each"; "eagle"; "earth"; "easy"; "eating"; "eavesdrop"; "eccentric"; "echo";
  "eclipse"; "economics"; "ecstatic"; "eden"; "edgy"; "edited"; "educated"; "eels"; "efficient"; "eggs"; "egotistic"; "eight"; "either"; "eject";
  "elapse"; "elbow"; "eldest"; "eleven"; "elite"; "elope"; "else"; "eluded"; "emails"; "ember"; "emerge"; "emit"; "emotion"; "empty"; "emulate";
  "energy"; "enforce"; "enhanced"; "enigma"; "enjoy"; "enlist"; "enmity"; "enough"; "enraged"; "ensign"; "entrance"; "envy"; "epoxy"; "equip"; "erase";
  "erected"; "erosion"; "error"; "eskimos"; "espionage"; "essential"; "estate"; "etched"; "eternal"; "ethics"; "etiquette"; "evaluate"; "evenings";
  "evicted"; "evolved"; "examine"; "excess"; "exhale"; "exit"; "exotic"; "exquisite"; "extra"; "exult"; "fabrics"; "factual"; "fading"; "fainted";
  "faked"; "fall"; "family"; "fancy"; "farming"; "fatal"; "faulty"; "fawns"; "faxed"; "fazed"; "feast"; "february"; "federal"; "feel"; "feline";
  "females"; "fences"; "ferry"; "festival"; "fetches"; "fever"; "fewest"; "fiat"; "fibula"; "fictional"; "fidget"; "fierce"; "fifteen"; "fight";
  "films"; "firm"; "fishing"; "fitting"; "five"; "fixate"; "fizzle"; "fleet"; "flippant"; "flying"; "foamy"; "focus"; "foes"; "foggy"; "foiled";
  "folding"; "fonts"; "foolish"; "fossil"; "fountain"; "fowls"; "foxes"; "foyer"; "framed"; "friendly"; "frown"; "fruit"; "frying"; "fudge"; "fuel";
  "fugitive"; "fully"; "fuming"; "fungal"; "furnished"; "fuselage"; "future"; "fuzzy"; "gables"; "gadget"; "gags"; "gained"; "galaxy"; "gambit";
  "gang"; "gasp"; "gather"; "gauze"; "gave"; "gawk"; "gaze"; "gearbox"; "gecko"; "geek"; "gels"; "gemstone"; "general"; "geometry"; "germs"; "gesture";
  "getting"; "geyser"; "ghetto"; "ghost"; "giant"; "giddy"; "gifts"; "gigantic"; "gills"; "gimmick"; "ginger"; "girth"; "giving"; "glass"; "gleeful";
  "glide"; "gnaw"; "gnome"; "goat"; "goblet"; "godfather"; "goes"; "goggles"; "going"; "goldfish"; "gone"; "goodbye"; "gopher"; "gorilla"; "gossip";
  "gotten"; "gourmet"; "governing"; "gown"; "greater"; "grunt"; "guarded"; "guest"; "guide"; "gulp"; "gumball"; "guru"; "gusts"; "gutter"; "guys";
  "gymnast"; "gypsy"; "gyrate"; "habitat"; "hacksaw"; "haggled"; "hairy"; "hamburger"; "happens"; "hashing"; "hatchet"; "haunted"; "having"; "hawk";
  "haystack"; "hazard"; "hectare"; "hedgehog"; "heels"; "hefty"; "height"; "hemlock"; "hence"; "heron"; "hesitate"; "hexagon"; "hickory"; "hiding";
  "highway"; "hijack"; "hiker"; "hills"; "himself"; "hinder"; "hippo"; "hire"; "history"; "hitched"; "hive"; "hoax"; "hobby"; "hockey"; "hoisting";
  "hold"; "honked"; "hookup"; "hope"; "hornet"; "hospital"; "hotel"; "hounded"; "hover"; "howls"; "hubcaps"; "huddle"; "huge"; "hull"; "humid";
  "hunter"; "hurried"; "husband"; "huts"; "hybrid"; "hydrogen"; "hyper"; "iceberg"; "icing"; "icon"; "identity"; "idiom"; "idled"; "idols"; "igloo";
  "ignore"; "iguana"; "illness"; "imagine"; "imbalance"; "imitate"; "impel"; "inactive"; "inbound"; "incur"; "industrial"; "inexact"; "inflamed";
  "ingested"; "initiate"; "injury"; "inkling"; "inline"; "inmate"; "innocent"; "inorganic"; "input"; "inquest"; "inroads"; "insult"; "intended";
  "inundate"; "invoke"; "inwardly"; "ionic"; "irate"; "iris"; "irony"; "irritate"; "island"; "isolated"; "issued"; "italics"; "itches"; "items";
  "itinerary"; "itself"; "ivory"; "jabbed"; "jackets"; "jaded"; "jagged"; "jailed"; "jamming"; "january"; "jargon"; "jaunt"; "javelin"; "jaws"; "jazz";
  "jeans"; "jeers"; "jellyfish"; "jeopardy"; "jerseys"; "jester"; "jetting"; "jewels"; "jigsaw"; "jingle"; "jittery"; "jive"; "jobs"; "jockey";
  "jogger"; "joining"; "joking"; "jolted"; "jostle"; "journal"; "joyous"; "jubilee"; "judge"; "juggled"; "juicy"; "jukebox"; "july"; "jump"; "junk";
  "jury"; "justice"; "juvenile"; "kangaroo"; "karate"; "keep"; "kennel"; "kept"; "kernels"; "kettle"; "keyboard"; "kickoff"; "kidneys"; "king";
  "kiosk"; "kisses"; "kitchens"; "kiwi"; "knapsack"; "knee"; "knife"; "knowledge"; "knuckle"; "koala"; "laboratory"; "ladder"; "lagoon"; "lair";
  "lakes"; "lamb"; "language"; "laptop"; "large"; "last"; "later"; "launching"; "lava"; "lawsuit"; "layout"; "lazy"; "lectures"; "ledge"; "leech";
  "left"; "legion"; "leisure"; "lemon"; "lending"; "leopard"; "lesson"; "lettuce"; "lexicon"; "liar"; "library"; "licks"; "lids"; "lied"; "lifestyle";
  "light"; "likewise"; "lilac"; "limits"; "linen"; "lion"; "lipstick"; "liquid"; "listen"; "lively"; "loaded"; "lobster"; "locker"; "lodge"; "lofty";
  "logic"; "loincloth"; "long"; "looking"; "lopped"; "lordship"; "losing"; "lottery"; "loudly"; "love"; "lower"; "loyal"; "lucky"; "luggage";
  "lukewarm"; "lullaby"; "lumber"; "lunar"; "lurk"; "lush"; "luxury"; "lymph"; "lynx"; "lyrics"; "macro"; "madness"; "magically"; "mailed"; "major";
  "makeup"; "malady"; "mammal"; "maps"; "masterful"; "match"; "maul"; "maverick"; "maximum"; "mayor"; "maze"; "meant"; "mechanic"; "medicate";
  "meeting"; "megabyte"; "melting"; "memoir"; "menu"; "merger"; "mesh"; "metro"; "mews"; "mice"; "midst"; "mighty"; "mime"; "mirror"; "misery";
  "mittens"; "mixture"; "moat"; "mobile"; "mocked"; "mohawk"; "moisture"; "molten"; "moment"; "money"; "moon"; "mops"; "morsel"; "mostly"; "motherly";
  "mouth"; "movement"; "mowing"; "much"; "muddy"; "muffin"; "mugged"; "mullet"; "mumble"; "mundane"; "muppet"; "mural"; "musical"; "muzzle"; "myriad";
  "mystery"; "myth"; "nabbing"; "nagged"; "nail"; "names"; "nanny"; "napkin"; "narrate"; "nasty"; "natural"; "nautical"; "navy"; "nearby"; "necklace";
  "needed"; "negative"; "neither"; "neon"; "nephew"; "nerves"; "nestle"; "network"; "neutral"; "never"; "newt"; "nexus"; "nibs"; "niche"; "niece";
  "nifty"; "nightly"; "nimbly"; "nineteen"; "nirvana"; "nitrogen"; "nobody"; "nocturnal"; "nodes"; "noises"; "nomad"; "noodles"; "northern"; "nostril";
  "noted"; "nouns"; "novelty"; "nowhere"; "nozzle"; "nuance"; "nucleus"; "nudged"; "nugget"; "nuisance"; "null"; "number"; "nuns"; "nurse"; "nutshell";
  "nylon"; "oaks"; "oars"; "oasis"; "oatmeal"; "obedient"; "object"; "obliged"; "obnoxious"; "observant"; "obtains"; "obvious"; "occur"; "ocean";
  "october"; "odds"; "odometer"; "offend"; "often"; "oilfield"; "ointment"; "okay"; "older"; "olive"; "olympics"; "omega"; "omission"; "omnibus";
  "onboard"; "oncoming"; "oneself"; "ongoing"; "onion"; "online"; "onslaught"; "onto"; "onward"; "oozed"; "opacity"; "opened"; "opposite"; "optical";
  "opus"; "orange"; "orbit"; "orchid"; "orders"; "organs"; "origin"; "ornament"; "orphans"; "oscar"; "ostrich"; "otherwise"; "otter"; "ouch"; "ought";
  "ounce"; "ourselves"; "oust"; "outbreak"; "oval"; "oven"; "owed"; "owls"; "owner"; "oxidant"; "oxygen"; "oyster"; "ozone"; "pact"; "paddles";
  "pager"; "pairing"; "palace"; "pamphlet"; "pancakes"; "paper"; "paradise"; "pastry"; "patio"; "pause"; "pavements"; "pawnshop"; "payment"; "peaches";
  "pebbles"; "peculiar"; "pedantic"; "peeled"; "pegs"; "pelican"; "pencil"; "people"; "pepper"; "perfect"; "pests"; "petals"; "phase"; "pheasants";
  "phone"; "phrases"; "physics"; "piano"; "picked"; "pierce"; "pigment"; "piloted"; "pimple"; "pinched"; "pioneer"; "pipeline"; "pirate"; "pistons";
  "pitched"; "pivot"; "pixels"; "pizza"; "playful"; "pledge"; "pliers"; "plotting"; "plus"; "plywood"; "poaching"; "pockets"; "podcast"; "poetry";
  "point"; "poker"; "polar"; "ponies"; "pool"; "popular"; "portents"; "possible"; "potato"; "pouch"; "poverty"; "powder"; "pram"; "present"; "pride";
  "problems"; "pruned"; "prying"; "psychic"; "public"; "puck"; "puddle"; "puffin"; "pulp"; "pumpkins"; "punch"; "puppy"; "purged"; "push"; "putty";
  "puzzled"; "pylons"; "pyramid"; "python"; "queen"; "quick"; "quote"; "rabbits"; "racetrack"; "radar"; "rafts"; "rage"; "railway"; "raking"; "rally";
  "ramped"; "randomly"; "rapid"; "rarest"; "rash"; "rated"; "ravine"; "rays"; "razor"; "react"; "rebel"; "recipe"; "reduce"; "reef"; "refer";
  "regular"; "reheat"; "reinvest"; "rejoices"; "rekindle"; "relic"; "remedy"; "renting"; "reorder"; "repent"; "request"; "reruns"; "rest"; "return";
  "reunion"; "revamp"; "rewind"; "rhino"; "rhythm"; "ribbon"; "richly"; "ridges"; "rift"; "rigid"; "rims"; "ringing"; "riots"; "ripped"; "rising";
  "ritual"; "river"; "roared"; "robot"; "rockets"; "rodent"; "rogue"; "roles"; "romance"; "roomy"; "roped"; "roster"; "rotate"; "rounded"; "rover";
  "rowboat"; "royal"; "ruby"; "rudely"; "ruffled"; "rugged"; "ruined"; "ruling"; "rumble"; "runway"; "rural"; "rustled"; "ruthless"; "sabotage";
  "sack"; "sadness"; "safety"; "saga"; "sailor"; "sake"; "salads"; "sample"; "sanity"; "sapling"; "sarcasm"; "sash"; "satin"; "saucepan"; "saved";
  "sawmill"; "saxophone"; "sayings"; "scamper"; "scenic"; "school"; "science"; "scoop"; "scrub"; "scuba"; "seasons"; "second"; "sedan"; "seeded";
  "segments"; "seismic"; "selfish"; "semifinal"; "sensible"; "september"; "sequence"; "serving"; "session"; "setup"; "seventh"; "sewage"; "shackles";
  "shelter"; "shipped"; "shocking"; "shrugged"; "shuffled"; "shyness"; "siblings"; "sickness"; "sidekick"; "sieve"; "sifting"; "sighting"; "silk";
  "simplest"; "sincerely"; "sipped"; "siren"; "situated"; "sixteen"; "sizes"; "skater"; "skew"; "skirting"; "skulls"; "skydive"; "slackens";
  "sleepless"; "slid"; "slower"; "slug"; "smash"; "smelting"; "smidgen"; "smog"; "smuggled"; "snake"; "sneeze"; "sniff"; "snout"; "snug"; "soapy";
  "sober"; "soccer"; "soda"; "software"; "soggy"; "soil"; "solved"; "somewhere"; "sonic"; "soothe"; "soprano"; "sorry"; "southern"; "sovereign";
  "sowed"; "soya"; "space"; "speedy"; "sphere"; "spiders"; "splendid"; "spout"; "sprig"; "spud"; "spying"; "square"; "stacking"; "stellar"; "stick";
  "stockpile"; "strained"; "stunning"; "stylishly"; "subtly"; "succeed"; "suddenly"; "suede"; "suffice"; "sugar"; "suitcase"; "sulking"; "summon";
  "sunken"; "superior"; "surfer"; "sushi"; "suture"; "swagger"; "swept"; "swiftly"; "sword"; "swung"; "syllabus"; "symptoms"; "syndrome"; "syringe";
  "system"; "taboo"; "tacit"; "tadpoles"; "tagged"; "tail"; "taken"; "talent"; "tamper"; "tanks"; "tapestry"; "tarnished"; "tasked"; "tattoo";
  "taunts"; "tavern"; "tawny"; "taxi"; "teardrop"; "technical"; "tedious"; "teeming"; "tell"; "template"; "tender"; "tepid"; "tequila"; "terminal";
  "testing"; "tether"; "textbook"; "thaw"; "theatrics"; "thirsty"; "thorn"; "threaten"; "thumbs"; "thwart"; "ticket"; "tidy"; "tiers"; "tiger"; "tilt";
  "timber"; "tinted"; "tipsy"; "tirade"; "tissue"; "titans"; "toaster"; "tobacco"; "today"; "toenail"; "toffee"; "together"; "toilet"; "token";
  "tolerant"; "tomorrow"; "tonic"; "toolbox"; "topic"; "torch"; "tossed"; "total"; "touchy"; "towel"; "toxic"; "toyed"; "trash"; "trendy"; "tribal";
  "trolling"; "truth"; "trying"; "tsunami"; "tubes"; "tucks"; "tudor"; "tuesday"; "tufts"; "tugs"; "tuition"; "tulips"; "tumbling"; "tunnel"; "turnip";
  "tusks"; "tutor"; "tuxedo"; "twang"; "tweezers"; "twice"; "twofold"; "tycoon"; "typist"; "tyrant"; "ugly"; "ulcers"; "ultimate"; "umbrella";
  "umpire"; "unafraid"; "unbending"; "uncle"; "under"; "uneven"; "unfit"; "ungainly"; "unhappy"; "union"; "unjustly"; "unknown"; "unlikely"; "unmask";
  "unnoticed"; "unopened"; "unplugs"; "unquoted"; "unrest"; "unsafe"; "until"; "unusual"; "unveil"; "unwind"; "unzip"; "upbeat"; "upcoming"; "update";
  "upgrade"; "uphill"; "upkeep"; "upload"; "upon"; "upper"; "upright"; "upstairs"; "uptight"; "upwards"; "urban"; "urchins"; "urgent"; "usage";
  "useful"; "usher"; "using"; "usual"; "utensils"; "utility"; "utmost"; "utopia"; "uttered"; "vacation"; "vague"; "vain"; "value"; "vampire"; "vane";
  "vapidly"; "vary"; "vastness"; "vats"; "vaults"; "vector"; "veered"; "vegan"; "vehicle"; "vein"; "velvet"; "venomous"; "verification"; "vessel";
  "veteran"; "vexed"; "vials"; "vibrate"; "victim"; "video"; "viewpoint"; "vigilant"; "viking"; "village"; "vinegar"; "violin"; "vipers"; "virtual";
  "visited"; "vitals"; "vivid"; "vixen"; "vocal"; "vogue"; "voice"; "volcano"; "vortex"; "voted"; "voucher"; "vowels"; "voyage"; "vulture"; "wade";
  "waffle"; "wagtail"; "waist"; "waking"; "wallets"; "wanted"; "warped"; "washing"; "water"; "waveform"; "waxing"; "wayside"; "weavers"; "website";
  "wedge"; "weekday"; "weird"; "welders"; "went"; "wept"; "were"; "western"; "wetsuit"; "whale"; "when"; "whipped"; "whole"; "wickets"; "width";
  "wield"; "wife"; "wiggle"; "wildly"; "winter"; "wipeout"; "wiring"; "wise"; "withdrawn"; "wives"; "wizard"; "wobbly"; "woes"; "woken"; "wolf";
  "womanly"; "wonders"; "woozy"; "worry"; "wounded"; "woven"; "wrap"; "wrist"; "wrong"; "yacht"; "yahoo"; "yanks"; "yard"; "yawning"; "yearbook";
  "yellow"; "yesterday"; "yeti"; "yields"; "yodel"; "yoga"; "younger"; "yoyo"; "zapped"; "zeal"; "zebra"; "zero"; "zesty"; "zigzags"; "zinger";
  "zippers"; "zodiac"; "zombie"; "zones"; "zoom"
].
Abbreviation constructed := (populate_maps c_name words 3 (mkFlags false false)).
(** The object the constructor leaves. *)
Definition built (r : result string Base) : Base := match r with Ok l => l | Err _ => mkBase [] [] 0 [] end.
Definition English : Base := built constructed.

End English.
Import English.

(** Without the flags only a short word or a wrong count stops the constructor. *)
Lemma populate_total n ws : forallb (fun w => negb (length w <? n)%nat) ws = true -> forall ii m, exists m', populate_loop (mkFlags false false) n ws ii m = Ok m'.
Proof.
  induction ws as [|w ws IH]; intros H ii m; cbn [populate_loop forallb] in *; [eauto|]. apply andb_true_iff in H as [Hw H].
  apply negb_true_iff in Hw. rewrite Hw. cbn [andb negb guard bind ALLOW_DUPLICATE_PREFIXES]. destruct (lookup m _); apply IH, H.
Qed.

Definition key (t : bytes) : Z := fold_left (fun k c => 256 * k + u8 c) t 0.
Fixpoint increasing (l : list Z) : bool :=
  match l with
  | x :: ((y :: _) as l) => (x <? y) && increasing l
  | _ => true
  end.

Lemma increasing_distinct l : increasing l = true -> NoDup l /\ forall x, hd_error l = Some x -> Forall (fun y => x <= y) l.
Proof.
  induction l as [|x l IH]; intros H; [split; [constructor|discriminate]|]. destruct l as [|y l].
  - split; [repeat constructor; intros []|]. intros ? [= <-]. repeat constructor. lia.
  - cbn [increasing] in H. apply andb_true_iff in H as [Hx H]. apply Z.ltb_lt in Hx. destruct (IH H) as [D F]. specialize (F y eq_refl). rewrite Forall_forall in F. split.
    + constructor; [|exact D]. intros I. specialize (F x I). lia.
    + intros ? [= <-]. constructor; [lia|]. apply Forall_forall. intros z I. specialize (F z I). lia.
Qed.

Definition good_wordb (w : bytes) : bool := negb (length w =? 0)%nat && forallb (fun c => negb (u8 c =? 0) && negb (is_space c)) w.
Lemma good_wordb_ok w : good_wordb w = true -> good_word w.
Proof.
  unfold good_wordb, good_word. intros H. apply andb_true_iff in H as [H F]. split; [intros ->; discriminate|]. rewrite forallb_forall in F. apply Forall_forall.
  intros c I. specialize (F c I). apply andb_true_iff in F as [F1 F2]. apply negb_true_iff in F1, F2. apply Z.eqb_neq in F1. auto.
Qed.

Lemma populate_maps_total name ws n : length ws = 1626%nat -> forallb (fun w => negb (length w <? n)%nat) ws = true ->
  exists l, populate_maps name ws n (mkFlags false false) = Ok l.
Proof.
  intros L F. unfold populate_maps. rewrite L, Nat.eqb_refl. cbn [guard bind]. destruct (populate_total n ws F 0 []) as [m ->]. cbn [bind]. eauto.
Qed.

Lemma populate_fields name ws n fl l : populate_maps name ws n fl = Ok l -> language_name l = name /\ word_list l = ws /\ unique_prefix_length l = n.
Proof.
  unfold populate_maps. intros E. apply guard_inv in E as [_ E]. apply bind_inv in E as (m & _ & E). injection E as <-. auto.
Qed.

Lemma constructed_ok : constructed = Ok English.
Proof.
  assert (E : exists l, constructed = Ok l) by (apply populate_maps_total; vm_compute; reflexivity). destruct E as [l E]. unfold English. rewrite E. reflexivity.
Qed.

Lemma english_fields : language_name English = c_name /\ word_list English = words /\ unique_prefix_length English = 3%nat.
Proof. exact (populate_fields c_name words 3 (mkFlags false false) English constructed_ok). Qed.

Lemma english_good : good_language English.
Proof.
  destruct english_fields as (En & Ew & Ep). unfold good_language. rewrite En, Ew, Ep. split; [exists (mkFlags false false); exact constructed_ok|]. split.
  - apply (NoDup_map_inv key). apply increasing_distinct. vm_compute. reflexivity.
  - apply Forall_forall. intros w I. apply good_wordb_ok. revert w I. apply forallb_forall. vm_compute. reflexivity.
Qed.

(** ** A phrase in English *)

(** A splitter that does what is asked of [trim] and [split]. *)
Fixpoint sample_fields (s cur : bytes) : list bytes :=
  match s with
  | [] => match cur with [] => [] | _ => [rev cur] end
  | c :: s => if is_space c then match cur with [] => sample_fields s [] | _ => rev cur :: sample_fields s [] end else sample_fields s (c :: cur)
  end.
Definition sample_split (s : bytes) : list bytes := sample_fields s [].

Lemma sample_fields_word w : Forall (fun c => u8 c <> 0 /\ is_space c = false) w -> forall s cur, sample_fields (w ++ s) cur = sample_fields s (rev w ++ cur).
Proof.
  induction 1 as [|c w [_ N] _ IH]; intros s cur; [reflexivity|]. cbn [app sample_fields rev]. rewrite N, IH, <- app_assoc. reflexivity.
Qed.

Lemma sample_split_joined ws : ws <> [] -> Forall good_word ws -> sample_split (join_words ws) = ws.
Proof.
  unfold sample_split. intros _ F. induction F as [|w ws [N W] F IH]; [reflexivity|].
  assert (R : rev w <> []) by (intros E; apply N; rewrite <- (rev_involutive w), E; reflexivity).
  destruct ws as [|w' ws]; cbn [join_words] in *.
  - rewrite <- (app_nil_r w) at 1. rewrite sample_fields_word by exact W. rewrite app_nil_r. cbn [sample_fields]. destruct (rev w) eqn:E; [contradiction|].
    now rewrite <- E, rev_involutive.
  - rewrite sample_fields_word by exact W. rewrite app_nil_r. cbn [sample_fields]. change (is_space (b8 32)) with true. cbv iota.
    destruct (rev w) eqn:E; [contradiction|]. rewrite <- E, rev_involutive. f_equal. exact IH.
Qed.

Definition sample_seed : bytes := map (fun i => b8 (Z.of_nat i * 7)) (seq 0 32).
Lemma phrase_restores_witness : exists words, bytes_to_words (fun s => Z.of_nat (length s)) [English] sample_seed c_name = Some words /\
  words_to_bytes (fun s => Z.of_nat (length s)) sample_split [English] words = Some (sample_seed, c_name).
Proof.
  destruct english_fields as [E _]. rewrite <- E.
  apply (phrase_restores (fun s => Z.of_nat (length s)) sample_split sample_split_joined [] English [] sample_seed);
    [reflexivity|exact english_good|repeat constructor; intros []|constructor].
Defined.
