(* ===== verification/WalletLedger.v ===== *)
(** * The wallet's ledger

    [Wallet/WalletLedger.cpp]: a wallet reads the transactions of the chain and of
    the pool, recognises its own outputs and their spends, keeps a history, and
    follows reorganisations. The constructors and [Wallet/PqWallet.cpp]'s keys are
    here too.

    The members that say what to look for are [Scanner]; those that record what was
    found are [Book]. The two hash tables are association lists in the order of
    insertion. Key generation, decapsulation and the cipher are parameters. *)

From Stdlib Require Import ZArith String List Lia Bool.
From coqutil Require Import Byte Word.LittleEndianList.
From S2P Require Import Prelude Config Varint Wire Transaction Extra PqHash PqDerive PqAddress PqOutputs Seeds.
Import ListNotations.
Open Scope string_scope.
Open Scope list_scope.
Open Scope Z_scope.
Open Scope discrete_scope.
Import Serialization TransactionExtra PqDerive PqOutputs PqSeed.

Module PqWallet.

Inductive PqDepositScheme := AggregatedMultikey | SingleKeyIndex.

Record PqWalletKeys := mkPqWalletKeys { seedMaster : bytes; wk_viewPub : bytes; wk_viewSk : bytes; wk_spendPub : bytes; wk_spendSk : bytes }.
Record PqTrackingKeys := mkPqTrackingKeys { tk_viewPub : bytes; tk_viewSk : bytes; tk_spendPub : bytes }.

Section Derive.
Variable sha3_256 : bytes -> bytes.
Variable kem_keygen_from_seed dsa_keygen_from_seed : bytes -> bytes * bytes.

Definition derivePqWalletKeys (seed : bytes) : PqWalletKeys :=
  let view := deriveViewKeys sha3_256 kem_keygen_from_seed seed in
  let spend := deriveSpendKeys sha3_256 dsa_keygen_from_seed seed in
  mkPqWalletKeys seed (fst view) (snd view) (fst spend) (snd spend).
Definition pqTrackingKeys (keys : PqWalletKeys) : PqTrackingKeys := mkPqTrackingKeys (wk_viewPub keys) (wk_viewSk keys) (wk_spendPub keys).
Definition pqTrackingKeysMatchSeed (tracking : PqTrackingKeys) (seed : bytes) : bool :=
  let derived := derivePqWalletKeys seed in
  (tk_viewPub tracking ==b wk_viewPub derived) && (tk_viewSk tracking ==b wk_viewSk derived) && (tk_spendPub tracking ==b wk_spendPub derived).
Definition pqWalletAddress (keys : PqWalletKeys) (networkPrefix : Z) : PqAddress.PqAddress :=
  PqAddress.makePqAddress sha3_256 networkPrefix (wk_viewPub keys) (wk_spendPub keys).
Definition pqScanKeys (keys : PqWalletKeys) : PqScanKeys := mkPqScanKeys (wk_viewSk keys) (wk_spendPub keys).
Definition pqScanKeys_tracking (keys : PqTrackingKeys) : PqScanKeys := mkPqScanKeys (tk_viewSk keys) (tk_spendPub keys).

End Derive.
End PqWallet.
Import PqWallet.

Definition PQ_PRIMARY_DEPOSIT : Z := 0xFFFFFFFF.
Definition PQ_UNATTRIBUTED_DEPOSIT : Z := 0xFFFFFFFE.
Definition PQ_MAX_DEPOSIT_ROUTE : Z := 0xFFFFFFFD.
Definition pqDepositIndexForRoute (subaddrIndexT : Z) : Z :=
  if subaddrIndexT =? 0 then PQ_PRIMARY_DEPOSIT
  else if PQ_MAX_DEPOSIT_ROUTE <? subaddrIndexT then PQ_UNATTRIBUTED_DEPOSIT
  else w32 subaddrIndexT.

Record PqSpendInput := mkPqSpendInput { si_prevTxid : bytes; si_prevOutIndex : Z; si_amount : Z; si_rho : bytes; si_depositIndex : Z }.

(** [pqTransactionInputsHash] of [PqTransactionBuilder.cpp]. *)
Definition input_ref (i : TransactionInput) : list InputRef :=
  match i with
  | InPq k => [mkInputRef (prevTxid k) (prevOutIndex k)]
  | InBase _ => []
  end.
Definition pqTransactionInputsHash (sha3_256 : bytes -> bytes) (tx : TransactionPrefix) : bytes :=
  match flat_map input_ref (inputs tx) with
  | [] => NULL_HASH
  | refs => inputsHash sha3_256 refs
  end.

Module WalletLedger.

Definition UNCONFIRMED_HEIGHT : Z := 0xFFFFFFFF.

Record PqWalletOutput := mkWalletOutput {
  o_txid : bytes;
  o_outputIndex : Z;
  o_amount : Z;
  o_rho : bytes;
  o_nullifier : bytes;
  o_height : Z;
  o_unlockHeight : Z;
  o_spent : bool;
  o_spentHeight : Z;
  o_spentTxid : bytes;
  o_depositIndex : Z
}.

Record PqWalletTransaction := mkWalletTransaction {
  h_txid : bytes;
  h_height : Z;
  h_timestamp : Z;
  h_netAmount : Z;
  h_fee : Z;
  h_outgoing : bool;
  h_coinbase : bool;
  h_paymentId : bytes
}.

(** [unordered_map<Hash, size_t>]; [emplace] leaves a present key alone. *)
Definition index := list (bytes * nat).
Fixpoint find (m : index) (k : bytes) : option nat :=
  match m with
  | [] => None
  | (x, i) :: m => if x ==b k then Some i else find m k
  end.
Definition emplace (m : index) (k : bytes) (i : nat) : index := match find m k with Some _ => m | None => m ++ [(k, i)] end.
(** [for (i = 0; i < v.size(); ++i) m.emplace(key(v[i]), i)] from an empty map. *)
Fixpoint reindex_from {A} (key : A -> bytes) (l : list A) (i : nat) (m : index) : index :=
  match l with
  | [] => m
  | x :: l => reindex_from key l (S i) (emplace m (key x) i)
  end.
Definition reindex {A} (key : A -> bytes) (l : list A) : index := reindex_from key l 0 [].
(** [v[i] = x] *)
Fixpoint update {A} (l : list A) (i : nat) (f : A -> A) : list A :=
  match l, i with
  | [], _ => []
  | x :: l, O => f x :: l
  | x :: l, S i => x :: update l i f
  end.

Record Scanner := mkScanner {
  m_scanKeys : PqScanKeys;
  m_spendPub : bytes;
  m_seedMaster : bytes;
  m_hasSeedMaster : bool;
  m_depositScheme : PqDepositScheme;
  m_depositCount : Z;
  m_legacyTWindowMaxT : Z;
  m_depositSpendPubs : list bytes
}.
Record Book := mkBook {
  m_outputs : list PqWalletOutput;
  m_byNullifier : index;
  m_history : list PqWalletTransaction;
  m_historyByTxid : index;
  m_lastScannedHeight : Z;
  m_needsPrimaryBucketMigration : bool
}.
Record WalletLedger := mkWalletLedger { scanner : Scanner; book : Book }.

Definition empty_book : Book := mkBook [] [] [] [] 0 false.
(** The two constructors. *)
Definition newWallet (keys : PqWalletKeys) : WalletLedger :=
  mkWalletLedger (mkScanner (pqScanKeys keys) (wk_spendPub keys) (seedMaster keys) true AggregatedMultikey 0 0 []) empty_book.
Definition newTrackingWallet (keys : PqTrackingKeys) : WalletLedger :=
  mkWalletLedger (mkScanner (pqScanKeys_tracking keys) (tk_spendPub keys) (repeat (b8 0) 32) false AggregatedMultikey 0 0 []) empty_book.

Definition set_deposits (s : Scanner) (scheme : PqDepositScheme) (count : Z) (pubs : list bytes) : Scanner :=
  mkScanner (m_scanKeys s) (m_spendPub s) (m_seedMaster s) (m_hasSeedMaster s) scheme count (m_legacyTWindowMaxT s) pubs.
Definition setLegacyTWindowRescan (s : Scanner) (maxT : Z) : Scanner :=
  mkScanner (m_scanKeys s) (m_spendPub s) (m_seedMaster s) (m_hasSeedMaster s) (m_depositScheme s) (m_depositCount s) maxT (m_depositSpendPubs s).
Definition set_outputs (b : Book) (outs : list PqWalletOutput) (idx : index) : Book :=
  mkBook outs idx (m_history b) (m_historyByTxid b) (m_lastScannedHeight b) (m_needsPrimaryBucketMigration b).
Definition set_history (b : Book) (hs : list PqWalletTransaction) (idx : index) : Book :=
  mkBook (m_outputs b) (m_byNullifier b) hs idx (m_lastScannedHeight b) (m_needsPrimaryBucketMigration b).
Definition setLastScannedHeight (b : Book) (h : Z) : Book :=
  mkBook (m_outputs b) (m_byNullifier b) (m_history b) (m_historyByTxid b) h (m_needsPrimaryBucketMigration b).

Section Scan.
Variable sha3_256 : bytes -> bytes.
Variable kem_decaps : bytes -> bytes -> bytes.
Variable chacha_decrypt : bytes -> bytes -> bytes -> bytes -> option bytes.
Variable dsa_keygen_from_seed : bytes -> bytes * bytes.

Definition deposit_pub (s : Scanner) (i : nat) : bytes := fst (deriveDepositSpendKeys sha3_256 dsa_keygen_from_seed (m_seedMaster s) (Z.of_nat i)).
Definition ensureDepositKeys (s : Scanner) (count : Z) : Scanner :=
  match m_depositScheme s with
  | SingleKeyIndex => s
  | AggregatedMultikey =>
      if negb (m_hasSeedMaster s) then set_deposits s (m_depositScheme s) (m_depositCount s) []
      else
        let have := length (m_depositSpendPubs s) in
        set_deposits s (m_depositScheme s) (m_depositCount s)
          (m_depositSpendPubs s ++ map (deposit_pub s) (seq have (Z.to_nat count - have)))
  end.

Definition scheme_eqb (a b : PqDepositScheme) : bool :=
  match a, b with AggregatedMultikey, AggregatedMultikey | SingleKeyIndex, SingleKeyIndex => true | _, _ => false end.
Definition to_primary (o : PqWalletOutput) : PqWalletOutput :=
  if o_depositIndex o =? 0
  then mkWalletOutput (o_txid o) (o_outputIndex o) (o_amount o) (o_rho o) (o_nullifier o) (o_height o) (o_unlockHeight o) (o_spent o) (o_spentHeight o) (o_spentTxid o) PQ_PRIMARY_DEPOSIT
  else o.
Definition setDepositConfig (w : WalletLedger) (scheme : PqDepositScheme) (depositCount : Z) : WalletLedger :=
  let s := scanner w in
  let pubs := if negb (scheme_eqb scheme (m_depositScheme s)) then [] else m_depositSpendPubs s in
  let s := ensureDepositKeys (set_deposits s scheme depositCount pubs) depositCount in
  let b := book w in
  let b :=
    if m_needsPrimaryBucketMigration b then
      let outs := match scheme with SingleKeyIndex => map to_primary (m_outputs b) | AggregatedMultikey => m_outputs b end in
      mkBook outs (m_byNullifier b) (m_history b) (m_historyByTxid b) (m_lastScannedHeight b) false
    else b in
  mkWalletLedger s b.

(** ** Spends *)

Definition mark_spent (txid : bytes) (height : Z) (o : PqWalletOutput) : PqWalletOutput :=
  mkWalletOutput (o_txid o) (o_outputIndex o) (o_amount o) (o_rho o) (o_nullifier o) (o_height o) (o_unlockHeight o) true height txid (o_depositIndex o).
Definition confirms (old height : Z) : bool := (old =? UNCONFIRMED_HEIGHT) && negb (height =? UNCONFIRMED_HEIGHT).

(** What the loops carry: the outputs with their index, the sums, and whether
    anything changed. *)
Record Progress := mkProgress { p_outputs : list PqWalletOutput; p_index : index; p_debited : Z; p_credited : Z; p_all : Z; p_affected : bool }.

Definition spend_output (txid : bytes) (height : Z) (k : nat) (o : PqWalletOutput) (p : Progress) : Progress :=
  if negb (o_spent o) then
    mkProgress (update (p_outputs p) k (mark_spent txid height)) (p_index p) (w64 (p_debited p + o_amount o)) (p_credited p) (p_all p) true
  else if confirms (o_spentHeight o) height then
    let debited := if negb (o_spentTxid o ==b txid) then w64 (p_debited p + o_amount o) else p_debited p in
    mkProgress (update (p_outputs p) k (mark_spent txid height)) (p_index p) debited (p_credited p) (p_all p) true
  else p.

Definition input_nullifier (i : TransactionInput) : option bytes :=
  match i with
  | InBase _ => None
  | InPq k =>
      if negb (len (authPub k) =? PQ_AUTH_PUB_SIZE) || negb (len (rhoReveal k) =? PQ_RHO_SIZE) then None
      else Some (nullifier sha3_256 (authPub k) (rhoReveal k) (prevTxid k) (prevOutIndex k))
  end.
Definition spend_step (txid : bytes) (height : Z) (p : Progress) (i : TransactionInput) : Progress :=
  match input_nullifier i with
  | None => p
  | Some nf =>
      match find (p_index p) nf with
      | None => p
      | Some k => match nth_error (p_outputs p) k with Some o => spend_output txid height k o p | None => p end
      end
  end.

(** ** Receipts *)

Record Credit := mkCredit { c_rho : bytes; c_amount : Z; c_depositIndex : Z; c_ownerSpendPub : bytes }.

Definition recognize_pq (s : Scanner) (ih : bytes) (mode : PqScanMode) (so : PqScanOutput) : Scanner * option Credit :=
  match m_depositScheme s with
  | SingleKeyIndex =>
      (s, match scanPqOutputWithLegacyTWindow sha3_256 kem_decaps chacha_decrypt (m_scanKeys s) ih so (m_legacyTWindowMaxT s) mode with
          | Some owned => Some (mkCredit (w_rho owned) (w_amount owned) (pqDepositIndexForRoute (w_subaddrIndexT owned)) (m_spendPub s))
          | None => None
          end)
  | AggregatedMultikey =>
      match scanPqOutput sha3_256 kem_decaps chacha_decrypt (m_scanKeys s) ih so mode with
      | Some owned => (s, Some (mkCredit (w_rho owned) (w_amount owned) PQ_PRIMARY_DEPOSIT (m_spendPub s)))
      | None =>
          if 0 <? m_depositCount s then
            let s := ensureDepositKeys s (m_depositCount s) in
            (s, match m_depositSpendPubs s with
                | [] => None
                | pubs =>
                    match scanPqOutputAggregate sha3_256 kem_decaps chacha_decrypt (viewSk (m_scanKeys s)) pubs ih so mode with
                    | Some (owned, k) => Some (mkCredit (w_rho owned) (w_amount owned) (w32 k) (nth (Z.to_nat k) pubs []))
                    | None => None
                    end
                end)
          else (s, None)
      end
  end.

Fixpoint coinbase_deposit (pubs : list bytes) (height i : Z) (commit : bytes) : option (bytes * bytes) :=
  match pubs with
  | [] => None
  | pub :: pubs =>
      let dr := coinbaseRho sha3_256 pub height i in
      if spendCommit sha3_256 pub dr ==b commit then Some (pub, dr) else coinbase_deposit pubs height i commit
  end.
Definition recognize_coinbase (s : Scanner) (height i amount : Z) (commit : bytes) : Scanner * option Credit :=
  let cbRho := coinbaseRho sha3_256 (m_spendPub s) height i in
  if spendCommit sha3_256 (m_spendPub s) cbRho ==b commit then (s, Some (mkCredit cbRho amount PQ_PRIMARY_DEPOSIT (m_spendPub s)))
  else
    match m_depositScheme s with
    | SingleKeyIndex => (s, None)
    | AggregatedMultikey =>
        let s := ensureDepositKeys s (m_depositCount s) in
        (s, option_map (fun r => mkCredit (snd r) amount PQ_PRIMARY_DEPOSIT (fst r)) (coinbase_deposit (m_depositSpendPubs s) height i commit))
    end.

Definition confirm_output (height unlock : Z) (o : PqWalletOutput) : PqWalletOutput :=
  mkWalletOutput (o_txid o) (o_outputIndex o) (o_amount o) (o_rho o) (o_nullifier o) height unlock (o_spent o) (o_spentHeight o) (o_spentTxid o) (o_depositIndex o).
Definition credit_output (txid : bytes) (height unlock i : Z) (c : Credit) (p : Progress) : Progress :=
  let nf := nullifier sha3_256 (c_ownerSpendPub c) (c_rho c) txid i in
  match find (p_index p) nf with
  | Some k =>
      match nth_error (p_outputs p) k with
      | Some o =>
          if confirms (o_height o) height
          then mkProgress (update (p_outputs p) k (confirm_output height unlock)) (p_index p) (p_debited p) (p_credited p) (p_all p) true
          else p
      | None => p
      end
  | None =>
      let rec := mkWalletOutput txid i (c_amount c) (c_rho c) nf height unlock false 0 NULL_HASH (c_depositIndex c) in
      mkProgress (p_outputs p ++ [rec]) (emplace (p_index p) nf (length (p_outputs p))) (p_debited p) (w64 (p_credited p + c_amount c)) (p_all p) true
  end.

Definition scan_output (i : Z) (out : TransactionOutput) (po : PqOutput) : PqScanOutput :=
  mkPqScanOutput i (amount out) (kemCt po) (encPayload po) (pq_spendCommit po).
Definition add_all (p : Progress) (a : Z) : Progress :=
  mkProgress (p_outputs p) (p_index p) (p_debited p) (p_credited p) (w64 (p_all p + a)) (p_affected p).
Fixpoint pq_loop (txid : bytes) (height : Z) (ih : bytes) (mode : PqScanMode) (outs : list TransactionOutput) (i : Z) (s : Scanner) (p : Progress)
  : Scanner * Progress :=
  match outs with
  | [] => (s, p)
  | out :: outs =>
      let '(s, p) :=
        match target out with
        | OutPq po =>
            if negb (len (kemCt po) =? PQ_KEM_CIPHERTEXT_SIZE) || negb (len (encPayload po) =? PQ_ENC_PAYLOAD_SIZE) then (s, p)
            else
              let p := add_all p (amount out) in
              let '(s, c) := recognize_pq s ih mode (scan_output i out po) in
              (s, match c with Some c => credit_output txid height (out_unlockHeight out) i c p | None => p end)
        | _ => (s, p)
        end in
      pq_loop txid height ih mode outs (i + 1) s p
  end.
Fixpoint coinbase_loop (txid : bytes) (height : Z) (outs : list TransactionOutput) (i : Z) (s : Scanner) (p : Progress) : Scanner * Progress :=
  match outs with
  | [] => (s, p)
  | out :: outs =>
      let '(s, p) :=
        match target out with
        | OutCoinbase co =>
            let '(s, c) := recognize_coinbase s height i (amount out) (cb_spendCommit co) in
            (s, match c with Some c => credit_output txid height (out_unlockHeight out) i c p | None => p end)
        | _ => (s, p)
        end in
      coinbase_loop txid height outs (i + 1) s p
  end.

(** ** History *)

Definition confirm_row (height timestamp : Z) (h : PqWalletTransaction) : PqWalletTransaction :=
  mkWalletTransaction (h_txid h) height timestamp (h_netAmount h) (h_fee h) (h_outgoing h) (h_coinbase h) (h_paymentId h).
Definition new_row (tx : TransactionPrefix) (txid : bytes) (height timestamp : Z) (p : Progress) : PqWalletTransaction :=
  let outgoing := 0 <? p_debited p in
  let paymentId := match getPaymentIdFromTxExtra (extra tx) with Some i => i | None => NULL_HASH end in
  mkWalletTransaction txid height timestamp
    (if outgoing then s64 (s64 (p_credited p) - s64 (p_debited p)) else s64 (p_credited p))
    (if outgoing then (if p_all p <=? p_debited p then p_debited p - p_all p else 0) else 0)
    outgoing (txType tx =? TX_COINBASE) paymentId.
Definition record_history (tx : TransactionPrefix) (txid : bytes) (height timestamp : Z) (p : Progress) (b : Book) : Book * bool :=
  let b := set_outputs b (p_outputs p) (p_index p) in
  match find (m_historyByTxid b) txid with
  | Some k =>
      match nth_error (m_history b) k with
      | Some h =>
          if confirms (h_height h) height
          then (set_history b (update (m_history b) k (confirm_row height timestamp)) (m_historyByTxid b), true)
          else (b, p_affected p)
      | None => (b, p_affected p)
      end
  | None =>
      if (0 <? p_debited p) || (0 <? p_credited p) then
        (set_history b (m_history b ++ [new_row tx txid height timestamp p]) (emplace (m_historyByTxid b) txid (length (m_history b))), true)
      else (b, p_affected p)
  end.

Definition scan_mode (tx : TransactionPrefix) : PqScanMode := if txType tx =? TX_PQ_V2 then StrictV2 else Compatible.
(** The spends, then the outputs: what a transaction does to the outputs. *)
Definition scan_transaction (s : Scanner) (tx : TransactionPrefix) (txid : bytes) (height : Z) (p : Progress) : Scanner * Progress :=
  let p := fold_left (spend_step txid height) (inputs tx) p in
  let ih := pqTransactionInputsHash sha3_256 tx in
  let '(s, p) := pq_loop txid height ih (scan_mode tx) (outputs tx) 0 s p in
  if txType tx =? TX_COINBASE then coinbase_loop txid height (outputs tx) 0 s p else (s, p).
Definition processTransaction (w : WalletLedger) (tx : TransactionPrefix) (txid : bytes) (height timestamp : Z) : WalletLedger * bool :=
  if version tx <? TRANSACTION_VERSION_1 then (w, false)
  else
    let b := book w in
    let '(s, p) := scan_transaction (scanner w) tx txid height (mkProgress (m_outputs b) (m_byNullifier b) 0 0 0 false) in
    let '(b, affected) := record_history tx txid height timestamp p b in
    (mkWalletLedger s b, affected).

End Scan.

(** ** Balances *)

(** The accumulation loops. *)
Definition total (keep : PqWalletOutput -> bool) (outs : list PqWalletOutput) : Z :=
  fold_left (fun t o => if keep o then w64 (t + o_amount o) else t) outs 0.
Definition pending (o : PqWalletOutput) : bool := o_height o =? UNCONFIRMED_HEIGHT.
Definition spendable (b : Book) (o : PqWalletOutput) : bool :=
  negb (o_spent o) && negb (pending o) && negb (negb (o_unlockHeight o =? 0) && (m_lastScannedHeight b <? o_unlockHeight o)).

Definition balance (b : Book) : Z := total (fun o => negb (o_spent o)) (m_outputs b).
Definition pendingBalance (b : Book) : Z := total (fun o => negb (o_spent o) && pending o) (m_outputs b).
Definition spendableBalance (b : Book) : Z := total (spendable b) (m_outputs b).
Definition depositBalance (b : Book) (depositIndex : Z) : Z :=
  if depositIndex =? PQ_UNATTRIBUTED_DEPOSIT then 0
  else total (fun o => negb (o_spent o) && (o_depositIndex o =? depositIndex)) (m_outputs b).
Definition depositSpendableBalance (b : Book) (depositIndex : Z) : Z :=
  if depositIndex =? PQ_UNATTRIBUTED_DEPOSIT then 0
  else total (fun o => spendable b o && (o_depositIndex o =? depositIndex)) (m_outputs b).
Definition depositPendingBalance (b : Book) (depositIndex : Z) : Z :=
  total (fun o => negb (o_spent o) && (o_depositIndex o =? depositIndex) && pending o) (m_outputs b).
Definition unattributedBalance (b : Book) : Z := total (fun o => negb (o_spent o) && (o_depositIndex o =? PQ_UNATTRIBUTED_DEPOSIT)) (m_outputs b).

(** [std::map<uint32_t, _>]: sorted by key; [out[k] += v] *)
Fixpoint map_add (norm : Z -> Z) (m : list (Z * Z)) (k v : Z) : list (Z * Z) :=
  match m with
  | [] => [(k, norm v)]
  | (x, t) :: m => if k <? x then (k, norm v) :: (x, t) :: m else if k =? x then (x, norm (t + v)) :: m else (x, t) :: map_add norm m k v
  end.
Definition real_deposit (o : PqWalletOutput) : bool :=
  negb (o_spent o) && negb (o_depositIndex o =? PQ_PRIMARY_DEPOSIT) && negb (o_depositIndex o =? PQ_UNATTRIBUTED_DEPOSIT).
Definition depositBalances (b : Book) : list (Z * Z) :=
  fold_left (fun m o => if real_deposit o then map_add w64 m (o_depositIndex o) (o_amount o) else m) (m_outputs b) [].
Definition transfersByDeposit (b : Book) (txid : bytes) : list (Z * Z) :=
  fold_left (fun m o =>
    let m := if o_txid o ==b txid then map_add s64 m (o_depositIndex o) (s64 (o_amount o)) else m in
    if o_spent o && (o_spentTxid o ==b txid) then map_add s64 m (o_depositIndex o) (- s64 (o_amount o)) else m) (m_outputs b) [].

Definition spend_input (o : PqWalletOutput) : PqSpendInput := mkPqSpendInput (o_txid o) (o_outputIndex o) (o_amount o) (o_rho o) (o_depositIndex o).
Definition spendableInputs (b : Book) : list PqSpendInput := map spend_input (filter (spendable b) (m_outputs b)).
Definition unspentCount (b : Book) : nat := length (filter (fun o => negb (o_spent o)) (m_outputs b)).
Definition historyByTxid (b : Book) (txid : bytes) : option PqWalletTransaction :=
  match find (m_historyByTxid b) txid with Some k => nth_error (m_history b) k | None => None end.

(** ** Reorganisations and the pool *)

Definition unspend (o : PqWalletOutput) : PqWalletOutput :=
  mkWalletOutput (o_txid o) (o_outputIndex o) (o_amount o) (o_rho o) (o_nullifier o) (o_height o) (o_unlockHeight o) false 0 NULL_HASH (o_depositIndex o).
Definition orphaned (h height : Z) : bool := (h <=? height) && negb (height =? UNCONFIRMED_HEIGHT).
Definition unspend_above (h : Z) (o : PqWalletOutput) : PqWalletOutput :=
  if o_spent o && negb (o_spentHeight o =? UNCONFIRMED_HEIGHT) && (h <=? o_spentHeight o) then unspend o else o.
Definition rollback_outputs (h : Z) (outs : list PqWalletOutput) : list PqWalletOutput :=
  filter (fun o => negb (orphaned h (o_height o))) (map (unspend_above h) outs).
Definition rollback_history (h : Z) (hs : list PqWalletTransaction) : list PqWalletTransaction := filter (fun t => negb (orphaned h (h_height t))) hs.
Definition rollbackToHeight (b : Book) (h : Z) : Book :=
  let outs := rollback_outputs h (m_outputs b) in
  let hs := rollback_history h (m_history b) in
  mkBook outs (reindex o_nullifier outs) hs (reindex h_txid hs)
    (if (h <=? m_lastScannedHeight b) && (0 <? h) then h - 1 else m_lastScannedHeight b) (m_needsPrimaryBucketMigration b).

Fixpoint erase {A} (l : list A) (k : nat) : list A :=
  match l, k with
  | [], _ => []
  | _ :: l, O => l
  | x :: l, S k => x :: erase l k
  end.
Definition removeUnconfirmedTransaction (b : Book) (txid : bytes) : Book :=
  let outs := map (fun o => if o_spent o && (o_spentHeight o =? UNCONFIRMED_HEIGHT) && (o_spentTxid o ==b txid) then unspend o else o) (m_outputs b) in
  let kept := filter (fun o => negb (pending o && (o_txid o ==b txid))) outs in
  let b := if (length kept =? length outs)%nat then set_outputs b outs (m_byNullifier b) else set_outputs b kept (reindex o_nullifier kept) in
  match find (m_historyByTxid b) txid with
  | Some k =>
      match nth_error (m_history b) k with
      | Some h =>
          if h_height h =? UNCONFIRMED_HEIGHT then let hs := erase (m_history b) k in set_history b hs (reindex h_txid hs) else b
      | None => b
      end
  | None => b
  end.

(** ** The saved state *)

Definition kPqStateFormatVersion : Z := 8.
Definition pod8 (z : Z) : bytes := le_split 1 z.
Definition pod32 (z : Z) : bytes := le_split 4 z.
Definition pod64 (z : Z) : bytes := le_split 8 z.
Definition flag (b : bool) : bytes := pod8 (if b then 1 else 0).
Definition save_output (o : PqWalletOutput) : bytes :=
  o_txid o ++ pod32 (o_outputIndex o) ++ pod64 (o_amount o) ++ o_rho o ++ o_nullifier o ++ pod32 (o_height o) ++ pod64 (o_unlockHeight o) ++
  flag (o_spent o) ++ pod32 (o_spentHeight o) ++ pod32 (o_depositIndex o) ++ o_spentTxid o.
Definition save_row (t : PqWalletTransaction) : bytes :=
  h_txid t ++ pod32 (h_height t) ++ pod64 (h_timestamp t) ++ pod64 (h_netAmount t) ++ pod64 (h_fee t) ++ flag (h_outgoing t) ++ h_paymentId t ++ flag (h_coinbase t).
Definition save (b : Book) : bytes :=
  pod8 kPqStateFormatVersion ++ pod32 (m_lastScannedHeight b) ++
  pod64 (Z.of_nat (length (m_outputs b))) ++ flat_map save_output (m_outputs b) ++
  pod64 (Z.of_nat (length (m_history b))) ++ flat_map save_row (m_history b).

(** [is.read]: [None] once the stream has failed. *)
Definition read (n : nat) (s : bytes) : option (bytes * bytes) := if (length s <? n)%nat then None else Some (firstn n s, skipn n s).
Definition opt_bind {A B} (o : option A) (f : A -> option B) : option B := match o with Some a => f a | None => None end.
Local Notation "'get' p ':=' c 'in' k" := (opt_bind c (fun x => let 'p := x in k)) (at level 10, p pattern, c at level 150, k at level 200).
Definition load_output (version : Z) (s : bytes) : option (PqWalletOutput * bytes) :=
  get (txid, s) := read 32 s in
  get (outputIndex, s) := read 4 s in
  get (amount, s) := read 8 s in
  get (rho, s) := read 32 s in
  get (nf, s) := read 32 s in
  get (height, s) := read 4 s in
  get (unlock, s) := read 8 s in
  get (spent, s) := read 1 s in
  get (spentHeight, s) := read 4 s in
  get (depositIndex, s) := (if 3 <=? version then read 4 s else Some (pod32 PQ_PRIMARY_DEPOSIT, s)) in
  get (spentTxid, s) := (if 5 <=? version then read 32 s else Some (NULL_HASH, s)) in
  Some (mkWalletOutput txid (le_combine outputIndex) (le_combine amount) rho nf (le_combine height) (le_combine unlock)
          (negb (le_combine spent =? 0)) (le_combine spentHeight) spentTxid (le_combine depositIndex), s).
Definition load_row (version : Z) (s : bytes) : option (PqWalletTransaction * bytes) :=
  get (txid, s) := read 32 s in
  get (height, s) := read 4 s in
  get (timestamp, s) := read 8 s in
  get (netAmount, s) := read 8 s in
  get (fee, s) := read 8 s in
  get (outgoing, s) := read 1 s in
  get (paymentId, s) := (if 6 <=? version then read 32 s else Some (NULL_HASH, s)) in
  get (coinbase, s) := (if 7 <=? version then read 1 s else Some (pod8 0, s)) in
  Some (mkWalletTransaction txid (le_combine height) (le_combine timestamp) (s64 (le_combine netAmount)) (le_combine fee)
          (negb (le_combine outgoing =? 0)) (negb (le_combine coinbase =? 0)) paymentId, s).
(** [for (i = 0; i < count && is; ++i)]: what is left of the stream is [None] after a failure. *)
Fixpoint load_loop {A} (item : bytes -> option (A * bytes)) (key : A -> bytes) (fuel : nat) (s : bytes) (l : list A) (idx : index)
  : list A * index * option bytes :=
  match fuel with
  | O => (l, idx, Some s)
  | S fuel =>
      match item s with
      | None => (l, idx, None)
      | Some (x, s) => load_loop item key fuel s (l ++ [x]) (emplace idx (key x) (length l))
      end
  end.
(** No stream holds more items than bytes, so the count is cut there. *)
Definition load_items {A} (item : bytes -> option (A * bytes)) (key : A -> bytes) (s : bytes) : list A * index * option bytes :=
  match read 8 s with
  | None => ([], [], None)
  | Some (count, s) => load_loop item key (Z.to_nat (Z.min (le_combine count) (Z.of_nat (length s) + 1))) s [] []
  end.
Definition accepted_version (v : Z) : bool := (2 <=? v) && (v <=? kPqStateFormatVersion).
Definition load (s : bytes) : Book :=
  match read 1 s with
  | None => empty_book
  | Some (v, s) =>
      let version := le_combine v in
      if negb (accepted_version version) then empty_book
      else
        let last := le_combine (firstn 4 s) in
        let migrate := version <? 8 in
        match read 4 s with
        | None => mkBook [] [] [] [] last migrate
        | Some (_, s) =>
            let '(outs, idx, rest) := load_items (load_output version) o_nullifier s in
            let '(hs, hidx) :=
              match rest with
              | Some s => if 4 <=? version then let '(hs, hidx, _) := load_items (load_row version) h_txid s in (hs, hidx) else ([], [])
              | None => ([], [])
              end in
            mkBook outs idx hs hidx last migrate
        end
  end.

End WalletLedger.
Import WalletLedger.

(** ** The tables *)

(** A table that lists every item under its key, and the keys are distinct. *)
Definition exact_index {A} (key : A -> bytes) (l : list A) (idx : index) : Prop :=
  idx = combine (map key l) (seq 0 (length l)) /\ NoDup (map key l).

Lemma find_combine ks : NoDup ks -> forall a k i, find (combine ks (seq a (length ks))) k = Some i <-> (a <= i)%nat /\ nth_error ks (i - a) = Some k.
Proof.
  induction 1 as [|x ks N D IH]; intros a k i; cbn [length seq combine find].
  - split; [discriminate|]. intros [_ E]. now destruct (i - a)%nat.
  - destruct (x ==b k) eqn:E.
    + apply bytes_eqb_eq in E. subst k. split; [intros [= <-]; now rewrite Nat.sub_diag|]. intros [L H]. f_equal. destruct (i - a)%nat as [|j] eqn:J; [lia|].
      destruct N. exact (nth_error_In ks j H).
    + rewrite IH. assert (Ne : x <> k) by (intros ->; rewrite bytes_eqb_refl in E; discriminate). split; intros [L H].
      * split; [lia|]. replace (i - a)%nat with (S (i - S a)) by lia. exact H.
      * destruct (i - a)%nat as [|j] eqn:J; [injection H as ->; contradiction|]. split; [lia|]. replace (i - S a)%nat with j by lia. exact H.
Qed.

Lemma combine_snoc {A B} (l : list A) (m : list B) x y : length l = length m -> combine (l ++ [x]) (m ++ [y]) = combine l m ++ [(x, y)].
Proof. revert m. induction l as [|a l IH]; intros [|b m] L; try discriminate; [reflexivity|]. cbn [app combine]. f_equal. apply IH. now injection L. Qed.

Lemma update_same {A} (l : list A) i x f g : nth_error l i = Some x -> f x = g x -> update l i f = update l i g.
Proof. revert i. induction l as [|y l IH]; intros [|i] H E; cbn in *; try discriminate; [injection H as ->; now rewrite E|]. f_equal. now apply IH. Qed.
Lemma update_id {A} (l : list A) i x f : nth_error l i = Some x -> f x = x -> update l i f = l.
Proof. revert i. induction l as [|y l IH]; intros [|i] H E; cbn in *; try discriminate; [injection H as ->; now rewrite E|]. f_equal. now apply IH. Qed.

Lemma map_update {A B} (g : A -> B) (l : list A) i x f : nth_error l i = Some x -> g (f x) = g x -> map g (update l i f) = map g l.
Proof. revert i. induction l as [|y l IH]; intros [|i] H E; cbn in *; try discriminate; [injection H as ->; now rewrite E|]. f_equal. now apply IH. Qed.
Lemma Forall_update {A} (P : A -> Prop) (l : list A) i x f : nth_error l i = Some x -> P (f x) -> Forall P l -> Forall P (update l i f).
Proof.
  revert i. induction l as [|y l IH]; intros [|i] H E F; cbn in *; try discriminate; inversion_clear F as [|? ? Py Fl]; [injection H as ->; now constructor|].
  constructor; [exact Py|]. now apply IH.
Qed.

Lemma filter_keep {A} (f : A -> bool) l : (forall x, In x l -> f x = true) -> filter f l = l.
Proof.
  induction l as [|x l IH]; intros H; cbn [filter]; [reflexivity|]. rewrite (H x (or_introl eq_refl)). f_equal. apply IH. intros y I. apply H. now right.
Qed.

Section Table.
Context {A : Type} (key : A -> bytes).

Lemma find_exact l idx k i : exact_index key l idx -> find idx k = Some i <-> exists x, nth_error l i = Some x /\ key x = k.
Proof.
  intros [-> D]. pose proof (find_combine (map key l) D 0 k i) as F. rewrite length_map, Nat.sub_0_r, nth_error_map in F. rewrite F.
  destruct (nth_error l i) as [x|]; cbn [option_map]; split.
  - intros [_ [= <-]]. eauto.
  - intros (y & [= <-] & <-). split; [lia|reflexivity].
  - intros [_ [=]].
  - intros (y & [=] & _).
Qed.

Lemma find_absent l idx k : exact_index key l idx -> find idx k = None <-> ~ In k (map key l).
Proof.
  intros E. split.
  - intros F I. apply in_map_iff in I as (x & <- & I). apply In_nth_error in I as [i I].
    rewrite (proj2 (find_exact l idx (key x) i E)) in F by eauto. discriminate.
  - intros N. destruct (find idx k) as [i|] eqn:F; [|reflexivity]. apply (find_exact l idx k i E) in F as (x & I & <-). destruct N. apply in_map. exact (nth_error_In _ _ I).
Qed.

Lemma emplace_exact l idx x : exact_index key l idx -> ~ In (key x) (map key l) -> exact_index key (l ++ [x]) (emplace idx (key x) (length l)).
Proof.
  intros E N. unfold emplace. rewrite (proj2 (find_absent l idx (key x) E) N). destruct E as [-> D]. split.
  - rewrite map_app, length_app, seq_app. cbn [map length seq Nat.add]. now rewrite combine_snoc by (now rewrite length_map, length_seq).
  - rewrite map_app. apply NoDup_app; [exact D|repeat constructor; intros []|]. intros k I [<-|[]]. contradiction.
Qed.

Lemma reindex_exact l : NoDup (map key l) -> exact_index key l (reindex key l).
Proof.
  intros D. unfold reindex. assert (G : forall done todo idx, NoDup (map key (done ++ todo)) -> exact_index key done idx ->
    exact_index key (done ++ todo) (reindex_from key todo (length done) idx)).
  - intros done todo. revert done. induction todo as [|x todo IH]; intros done idx Dn E; cbn [reindex_from]; [now rewrite app_nil_r|].
    replace (done ++ x :: todo) with ((done ++ [x]) ++ todo) in * by (rewrite <- app_assoc; reflexivity).
    replace (S (length done)) with (length (done ++ [x])) by (rewrite length_app; cbn; lia). apply IH; [exact Dn|]. apply emplace_exact; [exact E|].
    rewrite !map_app in Dn. apply NoDup_app_remove_r in Dn. apply NoDup_remove_2 in Dn. now rewrite app_nil_r in Dn.
  - apply (G [] l []); [exact D|]. split; [reflexivity|constructor].
Qed.

Lemma exact_same l l' idx : map key l = map key l' -> exact_index key l idx -> exact_index key l' idx.
Proof. intros E [-> D]. unfold exact_index. rewrite <- E. split; [|exact D]. f_equal. now rewrite <- (length_map key l), E, length_map. Qed.

(** Changing the item found under a key is changing the items with that key. *)
Definition at_key (k : bytes) (f : A -> A) (l : list A) : list A := map (fun x => if key x ==b k then f x else x) l.

Lemma at_key_absent k f l : ~ In k (map key l) -> at_key k f l = l.
Proof.
  intros N. unfold at_key. rewrite <- (map_id l) at 2. apply map_ext_in. intros x I. destruct (key x ==b k) eqn:E; [|reflexivity].
  apply bytes_eqb_eq in E. destruct N. rewrite <- E. now apply in_map.
Qed.

Lemma update_at_key l idx k i x f : exact_index key l idx -> find idx k = Some i -> nth_error l i = Some x -> update l i f = at_key k f l.
Proof.
  intros E F X. apply (find_exact l idx k i E) in F as (y & Y & <-). rewrite X in Y. injection Y as <-. destruct E as [_ D]. clear idx.
  revert i D X. induction l as [|z l IH]; intros [|i] D X; cbn [nth_error update at_key map] in *; try discriminate.
  - injection X as ->. inversion_clear D as [|? ? N D']. rewrite bytes_eqb_refl. f_equal. symmetry. now apply at_key_absent.
  - inversion_clear D as [|? ? N D']. rewrite (IH i D' X). destruct (key z ==b key x) eqn:E; [|reflexivity]. apply bytes_eqb_eq in E.
    destruct N. rewrite E. apply in_map. exact (nth_error_In _ _ X).
Qed.

Lemma at_key_keys k f l : (forall x, key (f x) = key x) -> map key (at_key k f l) = map key l.
Proof. intros H. unfold at_key. rewrite map_map. apply map_ext. intros x. now destruct (key x ==b k). Qed.

End Table.

(** ** What a transaction can do to the outputs *)

Section Moves.
Variable sha3_256 : bytes -> bytes.
Variable kem_decaps : bytes -> bytes -> bytes.
Variable chacha_decrypt : bytes -> bytes -> bytes -> bytes -> option bytes.
Variable dsa_keygen_from_seed : bytes -> bytes * bytes.

Abbreviation nullifier := (nullifier sha3_256).
Abbreviation credit_output := (credit_output sha3_256).
Abbreviation scan_transaction := (scan_transaction sha3_256 kem_decaps chacha_decrypt dsa_keygen_from_seed).
Abbreviation processTransaction := (processTransaction sha3_256 kem_decaps chacha_decrypt dsa_keygen_from_seed).

(** The single steps of the three loops, and their sequences. *)
Inductive move (txid : bytes) (height : Z) (p : Progress) : Progress -> Prop :=
| move_spend nf k o : find (p_index p) nf = Some k -> nth_error (p_outputs p) k = Some o -> move txid height p (spend_output txid height k o p)
| move_credit unlock i c : move txid height p (credit_output txid height unlock i c p)
| move_all a : move txid height p (add_all p a).
Inductive moves (txid : bytes) (height : Z) (p : Progress) : Progress -> Prop :=
| moves_refl : moves txid height p p
| moves_step q r : moves txid height p q -> move txid height q r -> moves txid height p r.

Lemma moves_trans txid height p q r : moves txid height p q -> moves txid height q r -> moves txid height p r.
Proof. intros H. induction 1; [exact H|]. eapply moves_step; eassumption. Qed.

Lemma move_one txid height p q : move txid height p q -> moves txid height p q.
Proof. intros H. eapply moves_step; [apply moves_refl|exact H]. Qed.

Lemma spend_moves txid height ins : forall p, moves txid height p (fold_left (spend_step sha3_256 txid height) ins p).
Proof.
  induction ins as [|i ins IH]; intros p; cbn [fold_left]; [apply moves_refl|]. eapply moves_trans; [|apply IH]. unfold spend_step.
  destruct (input_nullifier sha3_256 i) as [nf|]; [|apply moves_refl]. destruct (find (p_index p) nf) as [k|] eqn:F; [|apply moves_refl].
  destruct (nth_error (p_outputs p) k) as [o|] eqn:O; [|apply moves_refl]. apply move_one. exact (move_spend txid height p nf k o F O).
Qed.

Lemma pq_moves txid height ih mode outs : forall i s p, moves txid height p (snd (pq_loop sha3_256 kem_decaps chacha_decrypt dsa_keygen_from_seed txid height ih mode outs i s p)).
Proof.
  induction outs as [|out outs IH]; intros i s p; cbn [pq_loop]; [apply moves_refl|].
  destruct (target out) as [key|po|co]; [apply IH| |apply IH]. destruct (_ || _); [apply IH|].
  destruct (recognize_pq _ _ _ _ _ _ _ _) as [s' [c|]]; (eapply moves_trans; [|apply IH]).
  - eapply moves_step; [apply move_one, move_all|apply move_credit].
  - apply move_one, move_all.
Qed.

Lemma coinbase_moves txid height outs : forall i s p, moves txid height p (snd (coinbase_loop sha3_256 dsa_keygen_from_seed txid height outs i s p)).
Proof.
  induction outs as [|out outs IH]; intros i s p; cbn [coinbase_loop]; [apply moves_refl|].
  destruct (target out) as [key|po|co]; [apply IH|apply IH|]. destruct (recognize_coinbase _ _ _ _ _ _ _) as [s' [c|]]; (eapply moves_trans; [|apply IH]).
  - apply move_one, move_credit.
  - apply moves_refl.
Qed.

Lemma scan_moves s tx txid height p : moves txid height p (snd (scan_transaction s tx txid height p)).
Proof.
  unfold WalletLedger.scan_transaction. eapply moves_trans; [apply (spend_moves txid height (inputs tx))|]. set (p1 := fold_left _ _ _).
  pose proof (pq_moves txid height (pqTransactionInputsHash sha3_256 tx) (scan_mode tx) (outputs tx) 0 s p1) as H.
  destruct (pq_loop _ _ _ _ _ _ _ _ _ _ _ _) as [s' p2]. cbn [snd] in H. destruct (txType tx =? TX_COINBASE); [|exact H].
  eapply moves_trans; [exact H|apply coinbase_moves].
Qed.

(** *** The table of nullifiers stays exact *)

Abbreviation indexed p := (exact_index o_nullifier (p_outputs p) (p_index p)).

Definition spend_one (txid : bytes) (height : Z) (o : PqWalletOutput) : PqWalletOutput :=
  if negb (o_spent o) || confirms (o_spentHeight o) height then mark_spent txid height o else o.

(** The output under the nullifier is the one that changes. *)
Lemma spend_output_at txid height nf k o p : indexed p -> find (p_index p) nf = Some k -> nth_error (p_outputs p) k = Some o ->
  p_outputs (spend_output txid height k o p) = at_key o_nullifier nf (spend_one txid height) (p_outputs p) /\
  p_index (spend_output txid height k o p) = p_index p.
Proof.
  intros I F O. rewrite <- (update_at_key o_nullifier _ _ nf k o (spend_one txid height) I F O). unfold spend_output.
  destruct (o_spent o) eqn:Sp; cbn [negb]; [destruct (confirms (o_spentHeight o) height) eqn:C|]; cbn [p_outputs p_index]; (split; [|reflexivity]).
  - apply (update_same _ _ o); [exact O|]. unfold spend_one. now rewrite Sp, C.
  - symmetry. apply (update_id _ _ o); [exact O|]. unfold spend_one. now rewrite Sp, C.
  - apply (update_same _ _ o); [exact O|]. unfold spend_one. now rewrite Sp.
Qed.

Definition fresh_output (txid : bytes) (height unlock i : Z) (c : Credit) : PqWalletOutput :=
  mkWalletOutput txid i (c_amount c) (c_rho c) (nullifier (c_ownerSpendPub c) (c_rho c) txid i) height unlock false 0 NULL_HASH (c_depositIndex c).
Definition confirm_one (height unlock : Z) (o : PqWalletOutput) : PqWalletOutput :=
  if confirms (o_height o) height then confirm_output height unlock o else o.

(** A receipt is appended, or confirms the one that is there. *)
Lemma credit_output_at txid height unlock i c p : indexed p ->
  let rec := fresh_output txid height unlock i c in
  let q := credit_output txid height unlock i c p in
  (exists k o, find (p_index p) (o_nullifier rec) = Some k /\ nth_error (p_outputs p) k = Some o /\
    p_outputs q = update (p_outputs p) k (confirm_one height unlock) /\ p_index q = p_index p /\ p_credited q = p_credited p /\ p_debited q = p_debited p) \/
  (~ In (o_nullifier rec) (map o_nullifier (p_outputs p)) /\
    p_outputs q = p_outputs p ++ [rec] /\ indexed q /\ p_credited q = w64 (p_credited p + c_amount c) /\ p_debited q = p_debited p).
Proof.
  intros I rec q. unfold q, WalletLedger.credit_output. change (PqDerive.nullifier sha3_256 (c_ownerSpendPub c) (c_rho c) txid i) with (o_nullifier rec).
  destruct (find (p_index p) (o_nullifier rec)) as [k|] eqn:F.
  - left. pose proof (proj1 (find_exact o_nullifier _ _ _ k I) F) as (o & O & K). exists k, o. rewrite O. split; [reflexivity|]. split; [reflexivity|].
    destruct (confirms (o_height o) height) eqn:C; cbn [p_outputs p_index p_credited p_debited]; (split; [|auto]).
    + apply (update_same _ _ o); [exact O|]. unfold confirm_one. now rewrite C.
    + symmetry. apply (update_id _ _ o); [exact O|]. unfold confirm_one. now rewrite C.
  - right. assert (N := proj1 (find_absent o_nullifier _ _ _ I) F). split; [exact N|]. split; [reflexivity|]. split; [|auto].
    exact (emplace_exact o_nullifier (p_outputs p) (p_index p) rec I N).
Qed.

Lemma spend_output_sums txid height k o p : p_credited (spend_output txid height k o p) = p_credited p.
Proof. unfold spend_output. destruct (o_spent o); cbn [negb]; [destruct (confirms _ _)|]; reflexivity. Qed.

Lemma move_indexed txid height p q : move txid height p q -> indexed p -> indexed q.
Proof.
  intros [nf k o F O|unlock i c|a] I; [| |exact I].
  - destruct (spend_output_at txid height nf k o p I F O) as [E ->]. rewrite E. eapply exact_same; [|exact I]. symmetry. apply at_key_keys.
    intros x. unfold spend_one. now destruct (_ || _).
  - destruct (credit_output_at txid height unlock i c p I) as [(k & o & F & O & E & -> & _)|(_ & _ & H & _)]; [|exact H]. rewrite E.
    eapply exact_same; [|exact I]. symmetry. apply (map_update o_nullifier _ k o); [exact O|]. unfold confirm_one. now destruct (confirms _ _).
Qed.

(** *** Settled books

    Nothing is waiting for confirmation, and unspent outputs carry no trace of a
    spend. *)
Definition settled_output (o : PqWalletOutput) : Prop :=
  o_height o <> UNCONFIRMED_HEIGHT /\ if o_spent o then o_spentHeight o <> UNCONFIRMED_HEIGHT else o_spentHeight o = 0 /\ o_spentTxid o = NULL_HASH.
Abbreviation settled := (Forall settled_output).

Lemma move_settled txid height p q : height <> UNCONFIRMED_HEIGHT -> move txid height p q -> indexed p -> settled (p_outputs p) -> settled (p_outputs q).
Proof.
  intros Hh [nf k o F O|unlock i c|a] I S; [| |exact S].
  - assert (So : settled_output o) by (rewrite Forall_forall in S; exact (S o (nth_error_In _ _ O))).
    assert (Sm : settled_output (mark_spent txid height o)) by (split; [apply So|exact Hh]).
    unfold spend_output. destruct (negb (o_spent o)); [|destruct (confirms _ _)]; cbn [p_outputs]; try exact S; now apply (Forall_update _ _ k o).
  - destruct (credit_output_at txid height unlock i c p I) as [(k & o & F & O & -> & _)|(_ & -> & _)].
    + assert (So : settled_output o) by (rewrite Forall_forall in S; exact (S o (nth_error_In _ _ O))). apply (Forall_update _ _ k o); [exact O| |exact S].
      unfold confirm_one, confirms. destruct So as [H So]. apply Z.eqb_neq in H. rewrite H. cbn [andb]. split; [now apply Z.eqb_neq|exact So].
    + apply Forall_app. split; [exact S|]. repeat constructor. exact Hh.
Qed.

(** Rolling back to a height undoes every step at or above it. *)
Lemma move_rolled_back h txid height p q : h <= height -> height <> UNCONFIRMED_HEIGHT -> move txid height p q -> indexed p -> settled (p_outputs p) ->
  rollback_outputs h (p_outputs q) = rollback_outputs h (p_outputs p).
Proof.
  intros Hh Hu [nf k o F O|unlock i c|a] I S; [| |reflexivity].
  - assert (So : settled_output o) by (rewrite Forall_forall in S; exact (S o (nth_error_In _ _ O))). destruct So as [_ So].
    unfold spend_output. destruct (o_spent o) eqn:Sp; cbn [negb].
    + unfold confirms. apply Z.eqb_neq in So. rewrite So. reflexivity.
    + cbn [p_outputs]. unfold rollback_outputs. f_equal. apply (map_update _ _ k o); [exact O|]. destruct So as [E0 E1].
      unfold unspend_above. cbn [mark_spent o_spent o_spentHeight]. rewrite Sp. apply Z.eqb_neq in Hu. apply Z.leb_le in Hh. rewrite Hu, Hh. cbn [negb andb].
      destruct o. cbn in *. now subst.
  - destruct (credit_output_at txid height unlock i c p I) as [(k & o & F & O & -> & _)|(_ & -> & _)].
    + f_equal. apply (update_id _ _ o); [exact O|]. unfold confirm_one, confirms. rewrite Forall_forall in S. destruct (S o (nth_error_In _ _ O)) as [H _].
      apply Z.eqb_neq in H. now rewrite H.
    + unfold rollback_outputs. rewrite map_app, filter_app. cbn [map filter fresh_output unspend_above o_spent andb o_height]. unfold orphaned.
      apply Z.eqb_neq in Hu. apply Z.leb_le in Hh. rewrite Hu, Hh. cbn [negb andb]. now rewrite app_nil_r.
Qed.

(** *** Value *)

Definition val (o : PqWalletOutput) : Z := if o_spent o then 0 else o_amount o.
Definition value (outs : list PqWalletOutput) : Z := fold_right (fun o v => val o + v) 0 outs.

Lemma value_app l l' : value (l ++ l') = value l + value l'.
Proof. induction l as [|o l IH]; cbn [value fold_right app] in *; [reflexivity|]. unfold value in *. lia. Qed.

Lemma value_update l k o f : nth_error l k = Some o -> value (update l k f) = value l - val o + val (f o).
Proof.
  revert k. induction l as [|x l IH]; intros [|k] H; cbn [nth_error update] in *; try discriminate.
  - injection H as ->. cbn [value fold_right]. lia.
  - change (value (x :: update l k f)) with (val x + value (update l k f)). change (value (x :: l)) with (val x + value l). rewrite (IH k H). lia.
Qed.

(** The balance after a transaction is the balance before it, less what it spent,
    plus what it paid. *)
Definition flow (p : Progress) : Z := w64 (value (p_outputs p) + p_debited p - p_credited p).

Lemma wrap_congr a b : (exists k, a = b + k * 2 ^ 64) -> w64 a = w64 b.
Proof. intros [k ->]. unfold wrap. apply Z_mod_plus_full. Qed.

Lemma wrap_expand a : exists k, w64 a = a + k * 2 ^ 64.
Proof. exists (- (a / 2 ^ 64)). unfold wrap. rewrite Z.mod_eq by lia. lia. Qed.

Lemma move_flow txid height p q : move txid height p q -> indexed p -> settled (p_outputs p) -> flow q = flow p.
Proof.
  intros [nf k o F O|unlock i c|a] I S; [| |reflexivity].
  - assert (So : settled_output o) by (rewrite Forall_forall in S; exact (S o (nth_error_In _ _ O))). destruct So as [_ So].
    unfold spend_output. destruct (o_spent o) eqn:Sp; cbn [negb].
    + unfold confirms. apply Z.eqb_neq in So. rewrite So. reflexivity.
    + unfold flow. cbn [p_outputs p_debited p_credited]. rewrite (value_update _ k o) by exact O. destruct (wrap_expand (p_debited p + o_amount o)) as [j E].
      apply wrap_congr. exists j. rewrite E. unfold val. cbn [mark_spent o_spent]. rewrite Sp. lia.
  - unfold flow. destruct (credit_output_at txid height unlock i c p I) as [(k & o & F & O & E & _ & -> & ->)|(_ & E & _ & Ec & ->)]; rewrite E.
    + f_equal. rewrite (value_update _ k o) by exact O. replace (val (confirm_one height unlock o)) with (val o); [lia|]. unfold confirm_one. now destruct (confirms _ _).
    + destruct (wrap_expand (p_credited p + c_amount c)) as [j Ej]. apply wrap_congr. exists (- j). rewrite Ec, Ej, value_app.
      cbn [value fold_right val fresh_output o_spent o_amount]. lia.
Qed.

(** All of it together, for whole transactions. *)
Lemma moves_indexed txid height p q : moves txid height p q -> indexed p -> indexed q.
Proof. induction 1; [auto|]. intros I. eapply move_indexed; eauto. Qed.

Lemma moves_settled txid height p q : height <> UNCONFIRMED_HEIGHT -> moves txid height p q -> indexed p -> settled (p_outputs p) ->
  settled (p_outputs q) /\ flow q = flow p /\ forall h, h <= height -> rollback_outputs h (p_outputs q) = rollback_outputs h (p_outputs p).
Proof.
  intros Hu. induction 1 as [|q r M IH E]; intros I S; [auto|]. destruct (IH I S) as (Sq & Fq & Rq). assert (Iq := moves_indexed _ _ _ _ M I).
  split; [eapply move_settled; eauto|]. split; [rewrite <- Fq; eapply move_flow; eauto|]. intros h Hh. rewrite <- (Rq h Hh). eapply move_rolled_back; eauto.
Qed.

(** *** Books *)

Definition book_ok (b : Book) : Prop := exact_index o_nullifier (m_outputs b) (m_byNullifier b) /\ exact_index h_txid (m_history b) (m_historyByTxid b).
Definition settled_book (b : Book) : Prop := settled (m_outputs b) /\ Forall (fun t => h_height t <> UNCONFIRMED_HEIGHT) (m_history b).

Abbreviation start b := (mkProgress (m_outputs b) (m_byNullifier b) 0 0 0 false).

(** What processing does to the history: nothing, a row confirmed, or a row added. *)
Lemma history_cases tx txid height timestamp p b : book_ok b ->
  let b' := fst (record_history tx txid height timestamp p b) in
  m_outputs b' = p_outputs p /\ m_byNullifier b' = p_index p /\ m_lastScannedHeight b' = m_lastScannedHeight b /\
  m_needsPrimaryBucketMigration b' = m_needsPrimaryBucketMigration b /\
  exact_index h_txid (m_history b') (m_historyByTxid b') /\
  ((m_history b' = m_history b /\ (In txid (map h_txid (m_history b)) \/ p_debited p <= 0 /\ p_credited p <= 0)) \/
   (exists k h, nth_error (m_history b) k = Some h /\ confirms (h_height h) height = true /\ m_history b' = update (m_history b) k (confirm_row height timestamp)) \/
   (~ In txid (map h_txid (m_history b)) /\ m_history b' = m_history b ++ [new_row tx txid height timestamp p])).
Proof.
  intros [_ I] b'. unfold b', record_history. cbn [set_outputs m_history m_historyByTxid]. destruct (find (m_historyByTxid b) txid) as [k|] eqn:F.
  - pose proof (proj1 (find_exact h_txid _ _ _ k I) F) as (h & H & <-). rewrite H. destruct (confirms (h_height h) height) eqn:C; cbn.
    + repeat (split; [reflexivity|]). split; [|right; left; eauto]. eapply exact_same; [|exact I]. symmetry. apply (map_update h_txid _ k h); [exact H|reflexivity].
    + repeat (split; [reflexivity|]). split; [exact I|]. left. split; [reflexivity|]. left. apply in_map. exact (nth_error_In _ _ H).
  - assert (N := proj1 (find_absent h_txid _ _ _ I) F). destruct ((0 <? p_debited p) || (0 <? p_credited p)) eqn:Z; cbn.
    + repeat (split; [reflexivity|]). split; [exact (emplace_exact h_txid _ _ (new_row tx txid height timestamp p) I N)|]. right. right. auto.
    + repeat (split; [reflexivity|]). split; [exact I|]. left. split; [reflexivity|]. right. apply orb_false_iff in Z as [Z1 Z2]. apply Z.ltb_ge in Z1, Z2. auto.
Qed.

(** One transaction. *)
Lemma process_book w tx txid height timestamp : book_ok (book w) ->
  let w' := fst (processTransaction w tx txid height timestamp) in
  book w' = book w \/ exists s p, scan_transaction (scanner w) tx txid height (start (book w)) = (s, p) /\ moves txid height (start (book w)) p /\
    scanner w' = s /\ book w' = fst (record_history tx txid height timestamp p (book w)).
Proof.
  intros I w'. unfold w', WalletLedger.processTransaction. destruct (version tx <? TRANSACTION_VERSION_1); [now left|]. right.
  pose proof (scan_moves (scanner w) tx txid height (start (book w))) as M. destruct (scan_transaction (scanner w) tx txid height (start (book w))) as [s p].
  exists s, p. cbn [snd] in M. destruct (record_history tx txid height timestamp p (book w)). auto.
Qed.

Lemma process_ok w tx txid height timestamp : book_ok (book w) -> book_ok (book (fst (processTransaction w tx txid height timestamp))).
Proof.
  intros I. destruct (process_book w tx txid height timestamp I) as [->|(s & p & _ & M & _ & ->)]; [exact I|].
  destruct (history_cases tx txid height timestamp p (book w) I) as (E1 & E2 & _ & _ & H & _). split; [|exact H]. rewrite E1, E2. exact (moves_indexed _ _ _ _ M (proj1 I)).
Qed.

Lemma rollback_history_app h hs row : orphaned h (h_height row) = true -> rollback_history h (hs ++ [row]) = rollback_history h hs.
Proof. intros O. unfold rollback_history. rewrite filter_app. cbn [filter]. rewrite O. cbn [negb]. apply app_nil_r. Qed.

Lemma process_settled w tx txid height timestamp : height <> UNCONFIRMED_HEIGHT -> book_ok (book w) -> settled_book (book w) ->
  let b := book w in let b' := book (fst (processTransaction w tx txid height timestamp)) in
  settled_book b' /\ (forall h, h <= height -> rollback_outputs h (m_outputs b') = rollback_outputs h (m_outputs b) /\
    rollback_history h (m_history b') = rollback_history h (m_history b)) /\
  m_lastScannedHeight b' = m_lastScannedHeight b /\ m_needsPrimaryBucketMigration b' = m_needsPrimaryBucketMigration b.
Proof.
  intros Hu I [S Sh] b b'. unfold b, b'. destruct (process_book w tx txid height timestamp I) as [->|(s & p & _ & M & _ & ->)]; [split; [split; assumption|auto]|].
  destruct (history_cases tx txid height timestamp p (book w) I) as (E1 & E2 & -> & -> & _ & H).
  destruct (moves_settled _ _ _ _ Hu M (proj1 I) S) as (Sp & _ & R).
  assert (Hist : Forall (fun t => h_height t <> UNCONFIRMED_HEIGHT) (m_history (fst (record_history tx txid height timestamp p (book w)))) /\
    forall h, h <= height -> rollback_history h (m_history (fst (record_history tx txid height timestamp p (book w)))) = rollback_history h (m_history (book w))).
  { destruct H as [[-> _]|[(k & t & T & C & ->)|[_ ->]]]; [auto| |].
    - exfalso. rewrite Forall_forall in Sh. specialize (Sh t (nth_error_In _ _ T)). unfold confirms in C. apply andb_true_iff in C as [C _]. apply Z.eqb_eq in C. contradiction.
    - split; [apply Forall_app; split; [exact Sh|repeat constructor; exact Hu]|]. intros h Hh. apply rollback_history_app. unfold orphaned. cbn [new_row h_height].
      apply Z.eqb_neq in Hu. apply Z.leb_le in Hh. now rewrite Hu, Hh. }
  destruct Hist as [Hs Hr]. split; [split; [rewrite E1; exact Sp|exact Hs]|]. split; [|auto]. intros h Hh. split; [rewrite E1; now apply R|now apply Hr].
Qed.

(** ** Following the chain *)

(** Transactions as they are fed: prefix, id, height, timestamp. *)
Definition item : Type := TransactionPrefix * bytes * Z * Z.
Definition feed1 (w : WalletLedger) (i : item) : WalletLedger := let '(tx, txid, height, timestamp) := i in fst (processTransaction w tx txid height timestamp).
Definition feed (w : WalletLedger) (l : list item) : WalletLedger := fold_left feed1 l w.
Definition item_height (i : item) : Z := let '(_, _, h, _) := i in h.
Definition item_txid (i : item) : bytes := let '(_, t, _, _) := i in t.

Lemma feed_settled l : forall w, book_ok (book w) -> settled_book (book w) -> Forall (fun i => item_height i <> UNCONFIRMED_HEIGHT) l ->
  book_ok (book (feed w l)) /\ settled_book (book (feed w l)) /\
  (forall h, Forall (fun i => h <= item_height i) l -> rollback_outputs h (m_outputs (book (feed w l))) = rollback_outputs h (m_outputs (book w)) /\
    rollback_history h (m_history (book (feed w l))) = rollback_history h (m_history (book w))) /\
  m_needsPrimaryBucketMigration (book (feed w l)) = m_needsPrimaryBucketMigration (book w).
Proof.
  induction l as [|[[[tx txid] height] ts] l IH]; intros w I S F; [auto|]. inversion_clear F as [|? ? Hu F']. cbn [item_height] in Hu.
  destruct (process_settled w tx txid height ts Hu I S) as (S1 & R1 & _ & M1). assert (I1 := process_ok w tx txid height ts I).
  destruct (IH (feed1 w (tx, txid, height, ts)) I1 S1 F') as (I2 & S2 & R2 & M2). split; [exact I2|]. split; [exact S2|]. split.
  - intros h Fh. inversion_clear Fh as [|? ? Hh Fh']. destruct (R2 h Fh') as [A B]. destruct (R1 h Hh) as [C D]. split; [now rewrite <- C|now rewrite <- D].
  - now rewrite <- M1.
Qed.

(** Everything recorded lies below the height. *)
Definition below (h : Z) (b : Book) : Prop :=
  Forall (fun o => o_height o < h /\ (o_spent o = true -> o_spentHeight o < h)) (m_outputs b) /\ Forall (fun t => h_height t < h) (m_history b).

Lemma rollback_below h b : below h b -> rollback_outputs h (m_outputs b) = m_outputs b /\ rollback_history h (m_history b) = m_history b.
Proof.
  intros [F G]. unfold rollback_outputs, rollback_history. split.
  - rewrite (map_ext_in _ (fun o => o)); [rewrite map_id|].
    + apply filter_keep. rewrite Forall_forall in F. intros o I. destruct (F o I) as [L _]. unfold orphaned. now rewrite (proj2 (Z.leb_gt _ _)).
    + rewrite Forall_forall in F. intros o I. destruct (F o I) as [_ L]. unfold unspend_above. destruct (o_spent o) eqn:Sp; [|reflexivity].
      specialize (L eq_refl). rewrite (proj2 (Z.leb_gt _ _)) by exact L. now rewrite andb_false_r.
  - apply filter_keep. rewrite Forall_forall in G. intros t I. unfold orphaned. now rewrite (proj2 (Z.leb_gt _ _)) by (now apply G).
Qed.

(** *** The cache of deposit keys is invisible *)

Abbreviation ensure := (ensureDepositKeys sha3_256 dsa_keygen_from_seed).
Abbreviation ready s := (ensure s (m_depositCount s)).
Abbreviation recognize_pq := (recognize_pq sha3_256 kem_decaps chacha_decrypt dsa_keygen_from_seed).
Abbreviation recognize_coinbase := (recognize_coinbase sha3_256 dsa_keygen_from_seed).

Lemma ready_fields s : m_scanKeys (ready s) = m_scanKeys s /\ m_spendPub (ready s) = m_spendPub s /\ m_depositScheme (ready s) = m_depositScheme s /\
  m_depositCount (ready s) = m_depositCount s /\ m_legacyTWindowMaxT (ready s) = m_legacyTWindowMaxT s.
Proof. unfold ensureDepositKeys. destruct (m_depositScheme s) eqn:E; [destruct (m_hasSeedMaster s)|]; cbn; repeat split; congruence. Qed.

Lemma ready_idem s : ready (ready s) = ready s.
Proof.
  unfold ensureDepositKeys at 2 3. destruct (m_depositScheme s) eqn:E; [|unfold ensureDepositKeys; now rewrite E]. destruct (m_hasSeedMaster s) eqn:Hs; cbn [negb].
  - unfold ensureDepositKeys. cbn [set_deposits m_depositScheme m_hasSeedMaster m_depositSpendPubs m_depositCount m_seedMaster]. rewrite Hs, E. cbn [negb].
    rewrite length_app, length_map, length_seq. set (c := Z.to_nat _). set (n := length (m_depositSpendPubs s)).
    replace (c - (n + (c - n)))%nat with 0%nat by lia. cbn [seq map]. now rewrite app_nil_r.
  - unfold ensureDepositKeys. cbn [set_deposits m_depositScheme m_hasSeedMaster m_depositCount]. rewrite Hs, E. reflexivity.
Qed.

Lemma recognize_pq_ready s ih mode so : ready (fst (recognize_pq s ih mode so)) = ready s /\ snd (recognize_pq s ih mode so) = snd (recognize_pq (ready s) ih mode so).
Proof.
  destruct (ready_fields s) as (E1 & E2 & E3 & E4 & E5). unfold WalletLedger.recognize_pq. rewrite E1, E2, E3, E4, E5. destruct (m_depositScheme s) eqn:E; [|auto].
  destruct (scanPqOutput _ _ _ _ _ _ _); [auto|]. destruct (0 <? m_depositCount s); [|auto]. cbn [fst snd]. split; [apply ready_idem|].
  pose proof (ready_idem s) as R. rewrite E4 in R. rewrite R. now rewrite E1.
Qed.

Lemma recognize_coinbase_ready s height i a commit : ready (fst (recognize_coinbase s height i a commit)) = ready s /\
  snd (recognize_coinbase s height i a commit) = snd (recognize_coinbase (ready s) height i a commit).
Proof.
  destruct (ready_fields s) as (E1 & E2 & E3 & E4 & E5). unfold WalletLedger.recognize_coinbase. rewrite E2, E3, E4. destruct (_ ==b _); [auto|].
  destruct (m_depositScheme s) eqn:E; [|auto]. cbn [fst snd]. split; [apply ready_idem|]. pose proof (ready_idem s) as R. rewrite E4 in R. now rewrite R.
Qed.

Lemma pq_loop_ready txid height ih mode outs : forall i s s' p, ready s = ready s' ->
  let r := pq_loop sha3_256 kem_decaps chacha_decrypt dsa_keygen_from_seed txid height ih mode outs i s p in
  let r' := pq_loop sha3_256 kem_decaps chacha_decrypt dsa_keygen_from_seed txid height ih mode outs i s' p in
  ready (fst r) = ready (fst r') /\ snd r = snd r'.
Proof.
  induction outs as [|out outs IH]; intros i s s' p E; cbn [pq_loop]; [auto|]. destruct (target out) as [key|po|co]; [now apply IH| |now apply IH].
  destruct (_ || _); [now apply IH|].
  destruct (recognize_pq_ready s ih mode (scan_output i out po)) as [A B]. destruct (recognize_pq_ready s' ih mode (scan_output i out po)) as [A' B'].
  rewrite <- E in A', B'. rewrite <- A in A'. rewrite <- B in B'.
  destruct (recognize_pq s ih mode (scan_output i out po)) as [t c], (recognize_pq s' ih mode (scan_output i out po)) as [t' c']. cbn [fst snd] in A', B'. subst c'.
  now apply IH.
Qed.

Lemma coinbase_loop_ready txid height outs : forall i s s' p, ready s = ready s' ->
  let r := coinbase_loop sha3_256 dsa_keygen_from_seed txid height outs i s p in
  let r' := coinbase_loop sha3_256 dsa_keygen_from_seed txid height outs i s' p in
  ready (fst r) = ready (fst r') /\ snd r = snd r'.
Proof.
  induction outs as [|out outs IH]; intros i s s' p E; cbn [coinbase_loop]; [auto|]. destruct (target out) as [key|po|co]; [now apply IH|now apply IH|].
  destruct (recognize_coinbase_ready s height i (amount out) (cb_spendCommit co)) as [A B].
  destruct (recognize_coinbase_ready s' height i (amount out) (cb_spendCommit co)) as [A' B'].
  rewrite <- E in A', B'. rewrite <- A in A'. rewrite <- B in B'.
  destruct (recognize_coinbase s height i (amount out) (cb_spendCommit co)) as [t c], (recognize_coinbase s' height i (amount out) (cb_spendCommit co)) as [t' c'].
  cbn [fst snd] in A', B'. subst c'. now apply IH.
Qed.

Definition alike (w w' : WalletLedger) : Prop := ready (scanner w) = ready (scanner w') /\ book w = book w'.

Lemma scan_ready s s' tx txid height p : ready s = ready s' ->
  ready (fst (scan_transaction s tx txid height p)) = ready (fst (scan_transaction s' tx txid height p)) /\
  snd (scan_transaction s tx txid height p) = snd (scan_transaction s' tx txid height p).
Proof.
  intros E. unfold WalletLedger.scan_transaction. set (p1 := fold_left _ _ _).
  pose proof (pq_loop_ready txid height (pqTransactionInputsHash sha3_256 tx) (scan_mode tx) (outputs tx) 0 s s' p1 E) as [A B].
  destruct (pq_loop _ _ _ _ txid height _ _ _ 0 s p1) as [t q], (pq_loop _ _ _ _ txid height _ _ _ 0 s' p1) as [t' q']. cbn [fst snd] in A, B. subst q'.
  destruct (txType tx =? TX_COINBASE); [|auto]. now apply coinbase_loop_ready.
Qed.

Lemma feed_alike l : forall w w', alike w w' -> alike (feed w l) (feed w' l).
Proof.
  induction l as [|[[[tx txid] height] ts] l IH]; intros w w' H; [exact H|]. apply IH. destruct H as [E B]. unfold alike, feed1, WalletLedger.processTransaction. rewrite <- B.
  destruct (version tx <? TRANSACTION_VERSION_1); [split; assumption|]. destruct (scan_ready (scanner w) (scanner w') tx txid height (start (book w)) E) as [A C].
  destruct (scan_transaction (scanner w) tx txid height (start (book w))) as [t q], (scan_transaction (scanner w') tx txid height (start (book w))) as [t' q'].
  cbn [fst snd] in A, C. subst q'. destruct (record_history tx txid height ts q (book w)). auto.
Qed.

Lemma process_ready w tx txid height ts : ready (scanner (fst (processTransaction w tx txid height ts))) = ready (scanner w).
Proof.
  unfold WalletLedger.processTransaction. destruct (version tx <? TRANSACTION_VERSION_1); [reflexivity|]. set (p := start (book w)).
  assert (H : forall s p, ready (fst (scan_transaction s tx txid height p)) = ready s).
  { clear. intros s p. unfold WalletLedger.scan_transaction. set (p1 := fold_left _ _ _). clearbody p1. generalize (pqTransactionInputsHash sha3_256 tx) (scan_mode tx). intros ih mode.
    assert (P : forall outs i s p, ready (fst (pq_loop sha3_256 kem_decaps chacha_decrypt dsa_keygen_from_seed txid height ih mode outs i s p)) = ready s).
    { induction outs as [|out outs IH]; intros i s0 q; cbn [pq_loop]; [reflexivity|]. destruct (target out) as [key|po|co]; try apply IH. destruct (_ || _); [apply IH|].
      destruct (recognize_pq_ready s0 ih mode (scan_output i out po)) as [A _]. destruct (recognize_pq s0 ih mode (scan_output i out po)) as [t c]. cbn [fst] in A.
      rewrite <- A. apply IH. }
    assert (Q : forall outs i s p, ready (fst (coinbase_loop sha3_256 dsa_keygen_from_seed txid height outs i s p)) = ready s).
    { induction outs as [|out outs IH]; intros i s0 q; cbn [coinbase_loop]; [reflexivity|]. destruct (target out) as [key|po|co]; try apply IH.
      destruct (recognize_coinbase_ready s0 height i (amount out) (cb_spendCommit co)) as [A _]. destruct (recognize_coinbase s0 height i (amount out) (cb_spendCommit co)) as [t c].
      cbn [fst] in A. rewrite <- A. apply IH. }
    specialize (P (outputs tx) 0 s p1). destruct (pq_loop _ _ _ _ txid height _ _ _ 0 s p1) as [t q]. cbn [fst] in P.
    destruct (txType tx =? TX_COINBASE); [|exact P]. now rewrite Q. }
  specialize (H (scanner w) p). destruct (scan_transaction (scanner w) tx txid height p) as [s q]. cbn [fst] in H. destruct (record_history tx txid height ts q (book w)). exact H.
Qed.

Lemma feed_ready l : forall w, ready (scanner (feed w l)) = ready (scanner w).
Proof. induction l as [|[[[tx txid] height] ts] l IH]; intros w; [reflexivity|]. cbn [feed fold_left]. fold (feed (feed1 w (tx, txid, height, ts)) l). rewrite IH. apply process_ready. Qed.


(** *** Balance and history *)

Lemma w64_nonneg a : 0 <= w64 a.
Proof. unfold wrap. apply Z.mod_pos_bound. lia. Qed.

Lemma move_sums txid height p q : move txid height p q -> 0 <= p_debited p /\ 0 <= p_credited p -> 0 <= p_debited q /\ 0 <= p_credited q.
Proof.
  intros [nf k o F O|unlock i c|a] [D C]; [| |auto].
  - unfold spend_output. destruct (negb (o_spent o)); [|destruct (confirms _ _); [destruct (negb _)|]]; cbn [p_debited p_credited]; auto using w64_nonneg.
  - unfold WalletLedger.credit_output. destruct (find _ _) as [k|]; [destruct (nth_error _ _) as [o|]; [destruct (confirms _ _)|]|]; cbn [p_debited p_credited]; auto using w64_nonneg.
Qed.

Lemma moves_sums txid height p q : moves txid height p q -> 0 <= p_debited p /\ 0 <= p_credited p -> 0 <= p_debited q /\ 0 <= p_credited q.
Proof. induction 1 as [|q r M IH E]; [auto|]. intros H. exact (move_sums _ _ _ _ E (IH H)). Qed.

Definition net (hs : list PqWalletTransaction) : Z := fold_right (fun t z => h_netAmount t + z) 0 hs.

Lemma net_app l l' : net (l ++ l') = net l + net l'.
Proof. induction l as [|t l IH]; cbn [net fold_right app] in *; [reflexivity|]. unfold net in *. lia. Qed.

Lemma s64_expand z : exists k, s64 z = z + k * 2 ^ 64.
Proof.
  unfold s64. destruct (wrap_expand z) as [k E]. destruct (w64 z <? 2 ^ 63); [exists k; lia|]. exists (k - 1). rewrite E. lia.
Qed.

Lemma row_net tx txid height timestamp p : 0 <= p_debited p -> exists k, h_netAmount (new_row tx txid height timestamp p) = p_credited p - p_debited p + k * 2 ^ 64.
Proof.
  intros D. cbn [new_row h_netAmount]. destruct (s64_expand (p_credited p)) as [k1 E1]. destruct (Z.ltb_spec 0 (p_debited p)).
  - destruct (s64_expand (p_debited p)) as [k2 E2]. destruct (s64_expand (s64 (p_credited p) - s64 (p_debited p))) as [k3 E3].
    exists (k1 - k2 + k3). rewrite E3, E1, E2. lia.
  - exists k1. rewrite E1. lia.
Qed.

(** A transaction seen for the first time changes the value by its net amount. *)
Lemma process_net w tx txid height timestamp : height <> UNCONFIRMED_HEIGHT -> book_ok (book w) -> settled_book (book w) ->
  ~ In txid (map h_txid (m_history (book w))) ->
  let b := book w in let b' := book (fst (processTransaction w tx txid height timestamp)) in
  (exists k, value (m_outputs b') - net (m_history b') = value (m_outputs b) - net (m_history b) + k * 2 ^ 64) /\
  incl (map h_txid (m_history b')) (txid :: map h_txid (m_history b)).
Proof.
  intros Hu I [S Sh] N b b'. unfold b, b'. destruct (process_book w tx txid height timestamp I) as [->|(s & p & _ & M & _ & ->)].
  { split; [exists 0; lia|]. intros x X. now right. }
  destruct (history_cases tx txid height timestamp p (book w) I) as (E1 & _ & _ & _ & _ & H). rewrite E1.
  destruct (moves_settled _ _ _ _ Hu M (proj1 I) S) as (_ & Fl & _). destruct (moves_sums _ _ _ _ M) as [D C]; [cbn; lia|].
  unfold flow in Fl. cbn [p_outputs p_debited p_credited] in Fl. rewrite Z.add_0_r, Z.sub_0_r in Fl.
  destruct (wrap_expand (value (p_outputs p) + p_debited p - p_credited p)) as [j1 J1]. destruct (wrap_expand (value (m_outputs (book w)))) as [j2 J2]. rewrite J1, J2 in Fl.
  destruct H as [[-> [X|[D0 C0]]]|[(k & t & T & Ct & _)|[_ ->]]]; [contradiction| | |].
  - split; [exists (j2 - j1); lia|]. intros x X. now right.
  - exfalso. rewrite Forall_forall in Sh. specialize (Sh t (nth_error_In _ _ T)). unfold confirms in Ct. apply andb_true_iff in Ct as [Ct _]. apply Z.eqb_eq in Ct. contradiction.
  - split.
    + destruct (row_net tx txid height timestamp p D) as [k K]. rewrite net_app. cbn [net fold_right]. rewrite K. exists (j2 - j1 - k). lia.
    + rewrite map_app. intros x X. apply in_app_iff in X as [X|[<-|[]]]; [now right|now left].
Qed.

Lemma total_sum (keep : PqWalletOutput -> bool) outs : forall t, 0 <= t < 2 ^ 64 ->
  fold_left (fun t o => if keep o then w64 (t + o_amount o) else t) outs t = w64 (t + fold_right (fun o z => (if keep o then o_amount o else 0) + z) 0 outs).
Proof.
  induction outs as [|o outs IH]; intros t Ht; cbn [fold_left fold_right]; [rewrite Z.add_0_r, wrap_small; [reflexivity|exact Ht]|].
  destruct (keep o).
  - rewrite IH by (split; [apply w64_nonneg|unfold wrap; apply Z.mod_pos_bound; lia]). destruct (wrap_expand (t + o_amount o)) as [k E]. apply wrap_congr. exists k. rewrite E. lia.
  - rewrite IH by exact Ht. reflexivity.
Qed.

Lemma balance_value b : balance b = w64 (value (m_outputs b)).
Proof.
  unfold balance, total. rewrite total_sum by lia. f_equal. rewrite Z.add_0_l. unfold value. induction (m_outputs b) as [|o l IH]; [reflexivity|]. cbn [fold_right]. rewrite IH.
  unfold val. now destruct (o_spent o).
Qed.

(** The history explains the balance: after reading any confirmed transactions, no
    one twice, the balance is the sum of the net amounts of the history (as 64-bit
    numbers). *)
Theorem history_explains_balance l : forall w, book_ok (book w) -> settled_book (book w) -> balance (book w) = w64 (net (m_history (book w))) ->
  Forall (fun i => item_height i <> UNCONFIRMED_HEIGHT) l -> NoDup (map item_txid l) ->
  (forall i, In i l -> ~ In (item_txid i) (map h_txid (m_history (book w)))) ->
  balance (book (feed w l)) = w64 (net (m_history (book (feed w l)))).
Proof.
  induction l as [|[[[tx txid] height] ts] l IH]; intros w I S B F D N; [exact B|]. inversion_clear F as [|? ? Hu F']. inversion_clear D as [|? ? Nd D'].
  cbn [item_height item_txid] in Hu, Nd. destruct (process_settled w tx txid height ts Hu I S) as (S1 & _).
  destruct (process_net w tx txid height ts Hu I S (N _ (or_introl eq_refl))) as [[k K] Inc]. cbn [feed fold_left]. fold (feed (feed1 w (tx, txid, height, ts)) l).
  apply (IH (feed1 w (tx, txid, height, ts))).
  - exact (process_ok w tx txid height ts I).
  - exact S1.
  - rewrite balance_value in B |- *. cbn [feed1]. destruct (wrap_expand (value (m_outputs (book w)))) as [a Ea]. destruct (wrap_expand (net (m_history (book w)))) as [c Ec].
    apply wrap_congr. exists (k + c - a). rewrite Ea, Ec in B. lia.
  - exact F'.
  - exact D'.
  - intros i Hi X. cbn [feed1] in X. apply Inc in X as [X|X].
    + apply Nd. rewrite X. now apply in_map.
    + exact (N i (or_intror Hi) X).
Qed.

(** *** The pool *)

(** An unspent output has no trace of a spend. *)
Definition clean_output (o : PqWalletOutput) : Prop := o_spent o = false -> o_spentHeight o = 0 /\ o_spentTxid o = NULL_HASH.
Abbreviation clean := (Forall clean_output).

Lemma move_clean txid height p q : move txid height p q -> indexed p -> clean (p_outputs p) -> clean (p_outputs q).
Proof.
  intros [nf k o F O|unlock i c|a] I S; [| |exact S].
  - unfold spend_output. destruct (negb (o_spent o)); [|destruct (confirms _ _)]; cbn [p_outputs]; try exact S; (apply (Forall_update _ _ k o); [exact O| |exact S]); discriminate.
  - destruct (credit_output_at txid height unlock i c p I) as [(k & o & F & O & -> & _)|(_ & -> & _)].
    + apply (Forall_update _ _ k o); [exact O| |exact S]. rewrite Forall_forall in S. specialize (S o (nth_error_In _ _ O)). unfold confirm_one. destruct (confirms _ _); exact S.
    + apply Forall_app. split; [exact S|]. repeat constructor.
Qed.

Lemma moves_clean txid height p q : moves txid height p q -> indexed p -> clean (p_outputs p) -> clean (p_outputs q).
Proof. induction 1 as [|q r M IH E]; [auto|]. intros I C. eapply move_clean; eauto using moves_indexed. Qed.

Definition unspend_dropped (txid : bytes) (o : PqWalletOutput) : PqWalletOutput :=
  if o_spent o && (o_spentHeight o =? UNCONFIRMED_HEIGHT) && (o_spentTxid o ==b txid) then unspend o else o.
Definition drop_outputs (txid : bytes) (outs : list PqWalletOutput) : list PqWalletOutput :=
  filter (fun o => negb (pending o && (o_txid o ==b txid))) (map (unspend_dropped txid) outs).

(** Dropping a transaction undoes each of its steps in the pool. *)
Lemma move_dropped txid p q : move txid UNCONFIRMED_HEIGHT p q -> indexed p -> clean (p_outputs p) -> drop_outputs txid (p_outputs q) = drop_outputs txid (p_outputs p).
Proof.
  assert (U : forall x, confirms x UNCONFIRMED_HEIGHT = false) by (intros x; unfold confirms; rewrite Z.eqb_refl; apply andb_false_r).
  intros [nf k o F O|unlock i c|a] I S; [| |reflexivity].
  - unfold spend_output. rewrite U. destruct (o_spent o) eqn:Sp; cbn [negb]; [reflexivity|]. cbn [p_outputs]. unfold drop_outputs. f_equal.
    apply (map_update _ _ k o); [exact O|]. rewrite Forall_forall in S. destruct (S o (nth_error_In _ _ O) Sp) as [E0 E1].
    unfold unspend_dropped. cbn [mark_spent o_spent o_spentHeight o_spentTxid]. rewrite Sp, bytes_eqb_refl. cbn [andb]. rewrite Z.eqb_refl. destruct o. cbn in *. now subst.
  - destruct (credit_output_at txid UNCONFIRMED_HEIGHT unlock i c p I) as [(k & o & F & O & -> & _)|(_ & -> & _)].
    + f_equal. apply (update_id _ _ o); [exact O|]. unfold confirm_one. now rewrite U.
    + unfold drop_outputs. rewrite map_app, filter_app. cbn [map]. set (rec := fresh_output _ _ _ _ _).
      assert (R : pending (unspend_dropped txid rec) && (o_txid (unspend_dropped txid rec) ==b txid) = true) by apply bytes_eqb_refl.
      cbn [filter]. rewrite R. apply app_nil_r.
Qed.

Lemma moves_dropped txid p q : moves txid UNCONFIRMED_HEIGHT p q -> indexed p -> clean (p_outputs p) -> drop_outputs txid (p_outputs q) = drop_outputs txid (p_outputs p).
Proof.
  induction 1 as [|q r M IH E]; [auto|]. intros I C. rewrite <- (IH I C). eapply move_dropped; eauto using moves_indexed, moves_clean.
Qed.

(** The book without what the transaction did in the pool. *)
Lemma filter_shorter {A} (f : A -> bool) l : length (filter f l) = length l -> filter f l = l.
Proof.
  induction l as [|x l IH]; intros E; [reflexivity|]. cbn [filter] in *. destruct (f x); [injection E as E; now rewrite IH|].
  pose proof (filter_length_le f l). cbn [length] in E. lia.
Qed.

Lemma NoDup_map_filter {A} (key : A -> bytes) (f : A -> bool) l : NoDup (map key l) -> NoDup (map key (filter f l)).
Proof.
  induction l as [|x l IH]; intros D; cbn [filter map] in *; [constructor|]. inversion_clear D as [|? ? N D']. destruct (f x); [|now apply IH].
  cbn [map]. constructor; [|now apply IH]. intros I. apply N. apply in_map_iff in I as (y & <- & I). apply filter_In in I as [I _]. now apply in_map.
Qed.

Lemma erase_last {A} (l : list A) x : erase (l ++ [x]) (length l) = l.
Proof. induction l as [|y l IH]; [reflexivity|]. cbn [app length erase]. now rewrite IH. Qed.

Lemma NoDup_map_erase {A} (key : A -> bytes) l : forall k, NoDup (map key l) -> NoDup (map key (erase l k)) /\ incl (erase l k) l.
Proof.
  induction l as [|x l IH]; intros k D; cbn [erase map] in *; [split; [constructor|intros ? []]|]. inversion_clear D as [|? ? N D']. destruct k as [|k].
  - split; [exact D'|]. intros y I. now right.
  - destruct (IH k D') as [D2 Inc]. cbn [map]. split.
    + constructor; [|exact D2]. intros I. apply N. apply in_map_iff in I as (y & <- & I). apply in_map, Inc, I.
    + intros y [<-|I]; [now left|right; now apply Inc].
Qed.

Lemma unspend_keys txid outs : map o_nullifier (map (unspend_dropped txid) outs) = map o_nullifier outs.
Proof. rewrite map_map. apply map_ext. intros o. unfold unspend_dropped. now destruct (_ && _ && _). Qed.

Lemma drop_spec b txid : book_ok b -> let b' := removeUnconfirmedTransaction b txid in
  book_ok b' /\ m_outputs b' = drop_outputs txid (m_outputs b) /\ m_lastScannedHeight b' = m_lastScannedHeight b /\
  m_needsPrimaryBucketMigration b' = m_needsPrimaryBucketMigration b.
Proof.
  intros [I J] b'. unfold b', removeUnconfirmedTransaction. fold (unspend_dropped txid). fold (drop_outputs txid (m_outputs b)).
  set (outs := map (unspend_dropped txid) (m_outputs b)). set (kept := drop_outputs txid (m_outputs b)).
  change (filter (fun o => negb (pending o && (o_txid o ==b txid))) outs) with kept.
  set (b1 := if (length kept =? length outs)%nat then set_outputs b outs (m_byNullifier b) else set_outputs b kept (reindex o_nullifier kept)).
  assert (H : exact_index o_nullifier (m_outputs b1) (m_byNullifier b1) /\ m_outputs b1 = kept /\ m_history b1 = m_history b /\ m_historyByTxid b1 = m_historyByTxid b /\
    m_lastScannedHeight b1 = m_lastScannedHeight b /\ m_needsPrimaryBucketMigration b1 = m_needsPrimaryBucketMigration b).
  { assert (K : map o_nullifier outs = map o_nullifier (m_outputs b)) by apply unspend_keys.
    unfold b1. destruct (Nat.eqb_spec (length kept) (length outs)) as [E|E]; cbn [set_outputs m_outputs m_byNullifier m_history m_historyByTxid m_lastScannedHeight m_needsPrimaryBucketMigration].
    - split; [eapply exact_same; [symmetry; exact K|exact I]|]. split; [symmetry; now apply filter_shorter|auto].
    - split; [apply reindex_exact, NoDup_map_filter; fold outs; rewrite K; apply I|auto]. }
  destruct H as (I1 & Ho & Hh & Hi & Hl & Hm). clearbody b1. rewrite Hh, Hi.
  assert (Ok1 : book_ok b1 /\ m_outputs b1 = kept /\ m_lastScannedHeight b1 = m_lastScannedHeight b /\ m_needsPrimaryBucketMigration b1 = m_needsPrimaryBucketMigration b)
    by (split; [split; [exact I1|rewrite Hh, Hi; exact J]|auto]).
  destruct (find (m_historyByTxid b) txid) as [k|]; [|exact Ok1]. destruct (nth_error (m_history b) k) as [h|]; [|exact Ok1].
  destruct (h_height h =? UNCONFIRMED_HEIGHT); [|exact Ok1]. split; [|apply Ok1]. split; [exact I1|].
  cbn [set_history m_history m_historyByTxid]. apply reindex_exact, NoDup_map_erase, J.
Qed.

(** A transaction that is new to the wallet. *)
Definition unseen (txid : bytes) (b : Book) : Prop :=
  ~ In txid (map h_txid (m_history b)) /\ Forall (fun o => o_txid o <> txid /\ (o_spent o = true -> o_spentTxid o <> txid)) (m_outputs b).

Lemma drop_unseen txid b : unseen txid b -> drop_outputs txid (m_outputs b) = m_outputs b.
Proof.
  assert (Ne : forall x y : bytes, x <> y -> (x ==b y) = false) by (intros x y N; destruct (x ==b y) eqn:E; [apply bytes_eqb_eq in E; contradiction|reflexivity]).
  intros [_ F]. rewrite Forall_forall in F. unfold drop_outputs. rewrite (map_ext_in _ (fun o => o)); [rewrite map_id|].
  - apply filter_keep. intros o I. rewrite (Ne (o_txid o) txid) by (now apply F). now rewrite andb_false_r.
  - intros o I. unfold unspend_dropped. destruct (o_spent o) eqn:Sp; [|reflexivity]. rewrite (Ne (o_spentTxid o) txid) by (now apply F). now rewrite andb_false_r.
Qed.

(** A payment that never gets into a block leaves no trace: after a new transaction
    was read from the pool and then dropped from it, the book is what it was. *)
Theorem pool_drop_undoes w tx txid timestamp : book_ok (book w) -> clean (m_outputs (book w)) -> unseen txid (book w) ->
  removeUnconfirmedTransaction (book (fst (processTransaction w tx txid UNCONFIRMED_HEIGHT timestamp))) txid = book w.
Proof.
  intros I C U. assert (D0 := drop_unseen txid (book w) U). assert (I1 := process_ok w tx txid UNCONFIRMED_HEIGHT timestamp I).
  set (b1 := book (fst (processTransaction w tx txid UNCONFIRMED_HEIGHT timestamp))) in *.
  assert (H : drop_outputs txid (m_outputs b1) = m_outputs (book w) /\ m_lastScannedHeight b1 = m_lastScannedHeight (book w) /\
    m_needsPrimaryBucketMigration b1 = m_needsPrimaryBucketMigration (book w) /\
    (m_history b1 = m_history (book w) \/ exists row, h_txid row = txid /\ h_height row = UNCONFIRMED_HEIGHT /\ m_history b1 = m_history (book w) ++ [row])).
  { unfold b1. destruct (process_book w tx txid UNCONFIRMED_HEIGHT timestamp I) as [->|(s & p & _ & M & _ & ->)]; [auto|].
    destruct (history_cases tx txid UNCONFIRMED_HEIGHT timestamp p (book w) I) as (-> & _ & -> & -> & _ & H).
    split; [rewrite (moves_dropped txid _ _ M (proj1 I) C); exact D0|]. split; [reflexivity|]. split; [reflexivity|].
    destruct H as [[-> _]|[(k & t & _ & Ct & _)|[_ ->]]]; [auto| |right; exists (new_row tx txid UNCONFIRMED_HEIGHT timestamp p); auto].
    unfold confirms in Ct. rewrite Z.eqb_refl, andb_false_r in Ct. discriminate. }
  destruct H as (Ho & Hl & Hm & Hh). destruct (drop_spec b1 txid I1) as ([Io Ih] & Eo & El & Em). rewrite Ho in Eo.
  assert (Eh : m_history (removeUnconfirmedTransaction b1 txid) = m_history (book w)).
  { clear Io Ih Eo El Em. unfold removeUnconfirmedTransaction. set (outs := map _ (m_outputs b1)). set (kept := filter _ outs).
    assert (Hx : forall c : bool, m_history (if c then set_outputs b1 outs (m_byNullifier b1) else set_outputs b1 kept (reindex o_nullifier kept)) = m_history b1 /\
      m_historyByTxid (if c then set_outputs b1 outs (m_byNullifier b1) else set_outputs b1 kept (reindex o_nullifier kept)) = m_historyByTxid b1) by (intros []; auto).
    destruct (Hx (length kept =? length outs)%nat) as [X1 X2]. rewrite X1, X2. destruct Hh as [E|(row & Rt & Rh & E)].
    - rewrite (proj2 (find_absent h_txid _ _ txid (proj2 I1))); [rewrite X1; exact E|]. rewrite E. apply U.
    - assert (F : find (m_historyByTxid b1) txid = Some (length (m_history (book w)))).
      { apply (find_exact h_txid _ _ _ _ (proj2 I1)). exists row. rewrite E, nth_error_app2, Nat.sub_diag by lia. split; [reflexivity|exact Rt]. }
      rewrite F, E, nth_error_app2, Nat.sub_diag by lia. cbn [nth_error]. rewrite Rh, Z.eqb_refl. cbn [set_history m_history]. apply erase_last. }
  destruct (removeUnconfirmedTransaction b1 txid) as [o bi h hi l m]. cbn [m_outputs m_byNullifier m_history m_historyByTxid m_lastScannedHeight m_needsPrimaryBucketMigration] in *.
  destruct I as [[Iw _] [Jw _]]. destruct Io as [-> _], Ih as [-> _]. subst o h. rewrite <- Iw, <- Jw, El, Em, Hl, Hm. now destruct (book w).
Qed.

End Moves.

(** ** Reading back what was saved *)

Definition wf_output (o : PqWalletOutput) : Prop :=
  sized 32 (o_txid o) /\ in_w 32 (o_outputIndex o) /\ in_w 64 (o_amount o) /\ sized 32 (o_rho o) /\ sized 32 (o_nullifier o) /\ in_w 32 (o_height o) /\
  in_w 64 (o_unlockHeight o) /\ in_w 32 (o_spentHeight o) /\ sized 32 (o_spentTxid o) /\ in_w 32 (o_depositIndex o).
Definition wf_row (t : PqWalletTransaction) : Prop :=
  sized 32 (h_txid t) /\ in_w 32 (h_height t) /\ in_w 64 (h_timestamp t) /\ - 2 ^ 63 <= h_netAmount t < 2 ^ 63 /\ in_w 64 (h_fee t) /\ sized 32 (h_paymentId t).
Definition wf_book (b : Book) : Prop :=
  Forall wf_output (m_outputs b) /\ Forall wf_row (m_history b) /\ in_w 32 (m_lastScannedHeight b) /\
  Z.of_nat (length (m_outputs b)) < 2 ^ 64 /\ Z.of_nat (length (m_history b)) < 2 ^ 64.

Lemma read_pod_app n x r : length x = n -> read n (x ++ r) = Some (x, r).
Proof.
  intros L. unfold read. rewrite (proj2 (Nat.ltb_ge _ _)) by (rewrite length_app; lia). now rewrite firstn_app_exact, skipn_app_exact.
Qed.

Lemma pod_back n z : in_w (Z.of_nat n * 8) z -> le_combine (le_split n z) = z /\ length (le_split n z) = n.
Proof. intros H. rewrite le_combine_split, length_le_split. split; [now apply Z.mod_small|reflexivity]. Qed.

Lemma read_pod n z r : read n (le_split n z ++ r) = Some (le_split n z, r).
Proof. apply read_pod_app, length_le_split. Qed.

Lemma flag_back b : negb (le_combine (flag b) =? 0) = b.
Proof. now destruct b. Qed.

Lemma output_back o r : wf_output o -> load_output 8 (save_output o ++ r) = Some (o, r).
Proof.
  intros (S1 & W1 & W2 & S2 & S3 & W3 & W4 & W5 & S4 & W6). unfold load_output, save_output, pod32, pod64. rewrite <- !app_assoc.
  rewrite (read_pod_app 32 (o_txid o)) by exact S1. cbn [opt_bind]. rewrite read_pod. cbn [opt_bind]. rewrite read_pod. cbn [opt_bind].
  rewrite (read_pod_app 32 (o_rho o)) by exact S2. cbn [opt_bind]. rewrite (read_pod_app 32 (o_nullifier o)) by exact S3. cbn [opt_bind].
  rewrite read_pod. cbn [opt_bind]. rewrite read_pod. cbn [opt_bind]. unfold flag at 1. unfold pod8. rewrite read_pod. cbn [opt_bind]. rewrite read_pod. cbn [opt_bind].
  change (3 <=? 8) with true. change (5 <=? 8) with true. cbv iota. rewrite read_pod. cbn [opt_bind]. rewrite (read_pod_app 32 (o_spentTxid o)) by exact S4. cbn [opt_bind].
  fold (pod8 (if o_spent o then 1 else 0)). fold (flag (o_spent o)). rewrite flag_back, (proj1 (pod_back 4 _ W1)), (proj1 (pod_back 8 _ W2)), (proj1 (pod_back 4 _ W3)).
  rewrite (proj1 (pod_back 8 _ W4)), (proj1 (pod_back 4 _ W5)), (proj1 (pod_back 4 _ W6)). now destruct o.
Qed.

Lemma s64_back z : - 2 ^ 63 <= z < 2 ^ 63 -> s64 (le_combine (pod64 z)) = z.
Proof.
  intros H. unfold pod64. rewrite le_combine_split. change (2 ^ (Z.of_nat 8 * 8)) with (2 ^ 64). unfold s64, wrap. rewrite Z.mod_mod by lia.
  fold (wrap 64 z). fold (s64 z). now apply s64_small.
Qed.

Lemma row_back t r : wf_row t -> load_row 8 (save_row t ++ r) = Some (t, r).
Proof.
  intros (S1 & W1 & W2 & Wn & W3 & S2). unfold load_row, save_row. rewrite <- !app_assoc. rewrite (read_pod_app 32 (h_txid t)) by exact S1. cbn [opt_bind].
  unfold pod32 at 1. rewrite read_pod. cbn [opt_bind]. unfold pod64 at 1. rewrite read_pod. cbn [opt_bind]. unfold pod64 at 1. rewrite read_pod. cbn [opt_bind].
  unfold pod64 at 1. rewrite read_pod. cbn [opt_bind]. unfold flag at 1, pod8 at 1. rewrite read_pod. cbn [opt_bind]. change (6 <=? 8) with true. change (7 <=? 8) with true. cbv iota.
  rewrite (read_pod_app 32 (h_paymentId t)) by exact S2. cbn [opt_bind]. unfold flag at 1, pod8 at 1. rewrite read_pod. cbn [opt_bind].
  fold (pod8 (if h_outgoing t then 1 else 0)). fold (flag (h_outgoing t)). fold (pod8 (if h_coinbase t then 1 else 0)). fold (flag (h_coinbase t)). rewrite !flag_back.
  rewrite (proj1 (pod_back 4 _ W1)), (proj1 (pod_back 8 _ W2)). fold (pod64 (h_netAmount t)). rewrite (s64_back _ Wn), (proj1 (pod_back 8 _ W3)). now destruct t.
Qed.

Lemma load_loop_back {A} (item : bytes -> option (A * bytes)) (put : A -> bytes) (key : A -> bytes) l : (forall x r, In x l -> item (put x ++ r) = Some (x, r)) ->
  forall done idx r, NoDup (map key (done ++ l)) -> exact_index key done idx ->
  exists idx', load_loop item key (length l) (flat_map put l ++ r) done idx = (done ++ l, idx', Some r) /\ exact_index key (done ++ l) idx'.
Proof.
  induction l as [|x l IH]; intros H done idx r D E; cbn [load_loop length flat_map].
  - exists idx. now rewrite app_nil_r.
  - rewrite <- app_assoc, H by now left. replace (done ++ x :: l) with ((done ++ [x]) ++ l) in * by (rewrite <- app_assoc; reflexivity).
    apply IH; [intros y r' I; apply H; now right|exact D|]. apply emplace_exact; [exact E|].
    rewrite !map_app in D. apply NoDup_app_remove_r, NoDup_remove_2 in D. now rewrite app_nil_r in D.
Qed.

Lemma load_items_back {A} (item : bytes -> option (A * bytes)) (put : A -> bytes) (key : A -> bytes) l r : (forall x r, In x l -> item (put x ++ r) = Some (x, r)) ->
  (forall x, In x l -> (0 < length (put x))%nat) -> Z.of_nat (length l) < 2 ^ 64 -> NoDup (map key l) ->
  exists idx, load_items item key (pod64 (Z.of_nat (length l)) ++ flat_map put l ++ r) = (l, idx, Some r) /\ exact_index key l idx.
Proof.
  intros H P B D. unfold load_items, pod64. rewrite read_pod. assert (W : in_w 64 (Z.of_nat (length l))) by (unfold in_w; lia). rewrite (proj1 (pod_back 8 _ W)).
  assert (L : (length l <= length (flat_map put l))%nat).
  { clear - P. induction l as [|x l IH]; [reflexivity|]. cbn [flat_map length]. rewrite length_app. pose proof (P x (or_introl eq_refl)).
    assert (length l <= length (flat_map put l))%nat by (apply IH; intros y I; apply P; now right). lia. }
  rewrite Z.min_l by (rewrite length_app; lia). rewrite Nat2Z.id. apply (load_loop_back item put key l H [] [] r D). split; [reflexivity|constructor].
Qed.

(** The saved state restores the book: outputs, history, both tables and the cursor. *)
Theorem save_load b : book_ok b -> wf_book b -> m_needsPrimaryBucketMigration b = false -> load (save b) = b.
Proof.
  intros [I J] (Wo & Wh & Wc & Lo & Lh) M. unfold load, save, pod8. rewrite read_pod. change (le_combine (le_split 1 kPqStateFormatVersion)) with kPqStateFormatVersion.
  change (negb (accepted_version kPqStateFormatVersion)) with false. change (kPqStateFormatVersion <? 8) with false. change (4 <=? kPqStateFormatVersion) with true. cbv iota.
  unfold pod32. rewrite read_pod. rewrite firstn_app_exact by apply length_le_split. rewrite (proj1 (pod_back 4 _ Wc)). rewrite Forall_forall in Wo, Wh.
  destruct (load_items_back (load_output 8) save_output o_nullifier (m_outputs b) (pod64 (Z.of_nat (length (m_history b))) ++ flat_map save_row (m_history b))) as (idx & E & X);
    [intros x r In; now apply output_back, Wo| |exact Lo|apply I|].
  { intros x In. unfold save_output. rewrite length_app. destruct (Wo x In) as [-> _]. lia. }
  change kPqStateFormatVersion with 8. rewrite E. rewrite <- (app_nil_r (flat_map save_row (m_history b))).
  destruct (load_items_back (load_row 8) save_row h_txid (m_history b) []) as (hidx & Eh & Xh); [intros x r In; now apply row_back, Wh| |exact Lh|apply J|].
  { intros x In. unfold save_row. rewrite length_app. destruct (Wh x In) as [-> _]. lia. }
  rewrite Eh. destruct I as [Ii _], J as [Ji _], X as [-> _], Xh as [-> _]. rewrite <- Ii, <- Ji, <- M. now destruct b.
Qed.

(** The cut of the item count in [load_items] loses nothing: reading more items than
    there are bytes fails at the same place. *)
Lemma load_loop_enough {A} (item : bytes -> option (A * bytes)) (key : A -> bytes) : (forall s x r, item s = Some (x, r) -> (length r < length s)%nat) ->
  forall n m s l idx, (length s < n)%nat -> (length s < m)%nat -> load_loop item key n s l idx = load_loop item key m s l idx.
Proof.
  intros P. induction n as [|n IH]; intros [|m] s l idx Ln Lm; try lia. cbn [load_loop]. destruct (item s) as [[x r]|] eqn:E; [|reflexivity].
  specialize (P s x r E). apply IH; lia.
Qed.

Lemma read_length n s x r : read n s = Some (x, r) -> length s = (n + length r)%nat.
Proof.
  unfold read. destruct (Nat.ltb_spec (length s) n); [discriminate|]. intros E. assert (R : r = skipn n s) by congruence. rewrite R, length_skipn. lia.
Qed.

Ltac read_all H :=
  repeat match type of H with
  | opt_bind (if ?c then _ else _) _ = _ => destruct c
  | opt_bind (read ?n ?s) _ = _ =>
      let E := fresh "E" in destruct (read n s) as [[? ?]|] eqn:E; [apply read_length in E; cbn [opt_bind] in H|discriminate H]
  | opt_bind (Some _) _ = _ => cbn [opt_bind] in H
  end.

Lemma load_output_consumes v s o r : load_output v s = Some (o, r) -> (length r < length s)%nat.
Proof. unfold load_output. intros H. read_all H; injection H as _ <-; lia. Qed.

Lemma load_row_consumes v s t r : load_row v s = Some (t, r) -> (length r < length s)%nat.
Proof. unfold load_row. intros H. read_all H; injection H as _ <-; lia. Qed.

(** ** Balances add up *)

Definition sum_if (keep : PqWalletOutput -> bool) (outs : list PqWalletOutput) : Z := fold_right (fun o z => (if keep o then o_amount o else 0) + z) 0 outs.

Lemma total_is keep outs : total keep outs = w64 (sum_if keep outs).
Proof. unfold total. rewrite total_sum by lia. reflexivity. Qed.

Lemma sum_if_split keep p outs : sum_if keep outs = sum_if (fun o => keep o && p o) outs + sum_if (fun o => keep o && negb (p o)) outs.
Proof. induction outs as [|o outs IH]; [reflexivity|]. cbn [sum_if fold_right] in *. unfold sum_if in *. rewrite IH. destruct (keep o), (p o); cbn [andb negb]; lia. Qed.

Lemma sum_if_ext keep keep' outs : (forall o, keep o = keep' o) -> sum_if keep outs = sum_if keep' outs.
Proof. intros H. induction outs as [|o outs IH]; [reflexivity|]. cbn [sum_if fold_right] in *. unfold sum_if in *. now rewrite IH, H. Qed.

Lemma sum_if_inputs keep outs : sum_if keep outs = fold_right (fun i z => si_amount i + z) 0 (map spend_input (filter keep outs)).
Proof.
  unfold sum_if. induction outs as [|o outs IH]; [reflexivity|]. cbn [fold_right filter]. rewrite IH. destruct (keep o); reflexivity.
Qed.

(** A map from deposits to sums: the keys increase, and each holds its own sum. *)
Definition get (m : list (Z * Z)) (k : Z) : Z := match List.find (fun e => fst e =? k) m with Some (_, v) => v | None => 0 end.
Fixpoint keys_from (x : Z) (m : list (Z * Z)) : Prop := match m with [] => True | (k, _) :: m => x < k /\ keys_from k m end.

Lemma keys_from_get m : forall x k, keys_from x m -> k <= x -> get m k = 0.
Proof.
  induction m as [|[y v] m IH]; intros x k K L; [reflexivity|]. cbn [keys_from] in K. destruct K as [K1 K2]. unfold get. cbn [List.find fst].
  destruct (Z.eqb_spec y k) as [->|N]; [lia|]. apply (IH y k K2). lia.
Qed.

Lemma map_add_spec norm m : forall x k v, keys_from x m -> x < k -> keys_from x (map_add norm m k v) /\
  forall j, get (map_add norm m k v) j = (if j =? k then match List.find (fun e => fst e =? k) m with Some (_, t) => norm (t + v) | None => norm v end else get m j).
Proof.
  induction m as [|[y t] m IH]; intros x k v K L; cbn [map_add keys_from] in *.
  - split; [auto|]. intros j. unfold get. cbn [List.find fst]. rewrite (Z.eqb_sym k j). now destruct (j =? k).
  - destruct K as [K1 K2]. destruct (Z.ltb_spec k y) as [Lt|Ge]; [|destruct (Z.eqb_spec k y) as [->|Ne]].
    + split; [cbn [keys_from]; auto|]. intros j. unfold get. cbn [List.find fst]. rewrite (Z.eqb_sym k j). destruct (Z.eqb_spec j k) as [->|N]; [|reflexivity].
      destruct (Z.eqb_spec y k); [lia|]. pose proof (keys_from_get m y k K2 ltac:(lia)) as G. unfold get in G. destruct (List.find (fun e => fst e =? k) m) as [[q r]|] eqn:Fd; [|reflexivity].
      exfalso. apply List.find_some in Fd as [I E]. cbn in E. apply Z.eqb_eq in E. subst q. clear - I K2 Lt. revert y K2 Lt.
      induction m as [|[z u] m IHm]; intros y K2 Lt; [contradiction|]. destruct K2 as [K3 K4]. destruct I as [[= -> ->]|I]; [lia|]. apply (IHm I z K4). lia.
    + split; [cbn [keys_from]; auto|]. intros j. unfold get. cbn [List.find fst]. rewrite Z.eqb_refl, (Z.eqb_sym y j). now destruct (j =? y).
    + destruct (IH y k v K2 ltac:(lia)) as [A B]. split; [cbn [keys_from]; auto|]. intros j. specialize (B j). unfold get in *. cbn [List.find fst].
      destruct (Z.eqb_spec y k) as [|_]; [lia|]. destruct (Z.eqb_spec y j) as [->|N]; [now rewrite (proj2 (Z.eqb_neq j k)) by lia|exact B].
Qed.

Definition map_sum (m : list (Z * Z)) : Z := fold_right (fun e z => snd e + z) 0 m.

Lemma map_add_sum m k v : exists j, map_sum (map_add w64 m k v) = map_sum m + v + j * 2 ^ 64.
Proof.
  induction m as [|[y t] m [j IH]]; cbn [map_add].
  - destruct (wrap_expand v) as [j E]. exists j. cbn [map_sum fold_right snd]. lia.
  - destruct (k <? y); [|destruct (k =? y)].
    + destruct (wrap_expand v) as [i E]. exists i. cbn [map_sum fold_right snd]. lia.
    + destruct (wrap_expand (t + v)) as [i E]. exists i. cbn [map_sum fold_right snd]. lia.
    + exists j. cbn [map_sum fold_right snd]. unfold map_sum in IH. lia.
Qed.

(** The fold that fills the map: each deposit holds the sum of its outputs. *)
Lemma deposit_map outs : Forall (fun o => 0 <= o_depositIndex o) outs -> forall m, keys_from (-1) m -> (forall k, 0 <= get m k < 2 ^ 64) ->
  let m' := fold_left (fun m o => if real_deposit o then map_add w64 m (o_depositIndex o) (o_amount o) else m) outs m in
  (forall k, get m' k = w64 (get m k + sum_if (fun o => real_deposit o && (o_depositIndex o =? k)) outs)) /\
  exists j, map_sum m' = map_sum m + sum_if real_deposit outs + j * 2 ^ 64.
Proof.
  induction 1 as [|o outs Ho F IH]; intros m K B; cbn [fold_left].
  - split; [intros k; cbn [sum_if fold_right]; rewrite Z.add_0_r; symmetry; apply wrap_small, B|]. exists 0. cbn. lia.
  - unfold sum_if. cbn [fold_right]. fold (sum_if real_deposit outs). destruct (real_deposit o) eqn:R; cbn [andb].
    + destruct (map_add_spec w64 m (-1) (o_depositIndex o) (o_amount o) K ltac:(lia)) as [K' G].
      assert (G' : forall k, get (map_add w64 m (o_depositIndex o) (o_amount o)) k = if k =? o_depositIndex o then w64 (get m k + o_amount o) else get m k).
      { intros k. rewrite G. destruct (Z.eqb_spec k (o_depositIndex o)) as [->|]; [|reflexivity]. unfold get. now destruct (List.find _ m) as [[]|]. }
      destruct (IH (map_add w64 m (o_depositIndex o) (o_amount o)) K') as [A [j J]].
      { intros k. rewrite G'. destruct (k =? o_depositIndex o); [|apply B]. unfold wrap. apply Z.mod_pos_bound. lia. }
      split.
      * intros k. rewrite A, G'. fold (sum_if (fun o => real_deposit o && (o_depositIndex o =? k)) outs). rewrite (Z.eqb_sym (o_depositIndex o) k).
        destruct (k =? o_depositIndex o); [|reflexivity]. destruct (wrap_expand (get m k + o_amount o)) as [i E]. apply wrap_congr. exists i. rewrite E. lia.
      * destruct (map_add_sum m (o_depositIndex o) (o_amount o)) as [i E]. exists (j + i). lia.
    + destruct (IH m K B) as [A [j J]]. split; [exact A|]. exists j. lia.
Qed.

(** The balances agree with each other: the map of deposits lists the balance of each
    deposit; the balance is the primary address, the deposits and what could not be
    attributed; pending is its part in the pool; and the spendable balance is what
    the offered inputs are worth. All sums are of 64 bits. *)
Theorem balances_add_up b : Forall (fun o => 0 <= o_depositIndex o) (m_outputs b) ->
  (forall k, k <> PQ_PRIMARY_DEPOSIT -> k <> PQ_UNATTRIBUTED_DEPOSIT -> get (depositBalances b) k = depositBalance b k) /\
  balance b = w64 (depositBalance b PQ_PRIMARY_DEPOSIT + map_sum (depositBalances b) + unattributedBalance b) /\
  (exists confirmed, confirmed = total (fun o => negb (o_spent o) && negb (pending o)) (m_outputs b) /\ balance b = w64 (pendingBalance b + confirmed)) /\
  spendableBalance b = w64 (fold_right (fun i z => si_amount i + z) 0 (spendableInputs b)).
Proof.
  intros F. destruct (deposit_map (m_outputs b) F [] I ltac:(intros; cbn; lia)) as [A [j J]]. fold (depositBalances b) in A, J. split; [|split; [|split]].
  - intros k N1 N2. rewrite A. unfold depositBalance. rewrite (proj2 (Z.eqb_neq _ _) N2), total_is. cbn [get List.find]. rewrite Z.add_0_l. f_equal. apply sum_if_ext. intros o.
    unfold real_deposit. destruct (Z.eqb_spec (o_depositIndex o) k) as [->|]; [|now rewrite !andb_false_r].
    rewrite (proj2 (Z.eqb_neq _ _) N1), (proj2 (Z.eqb_neq _ _) N2). now destruct (o_spent o).
  - unfold balance, unattributedBalance, depositBalance. change (PQ_PRIMARY_DEPOSIT =? PQ_UNATTRIBUTED_DEPOSIT) with false. cbv iota. rewrite !total_is, J. cbn [map_sum fold_right].
    set (unspent := fun o => negb (o_spent o)). rewrite (sum_if_split unspent (fun o => o_depositIndex o =? PQ_PRIMARY_DEPOSIT)).
    rewrite (sum_if_split (fun o => unspent o && negb (o_depositIndex o =? PQ_PRIMARY_DEPOSIT)) (fun o => o_depositIndex o =? PQ_UNATTRIBUTED_DEPOSIT)).
    assert (E : sum_if (fun o => unspent o && negb (o_depositIndex o =? PQ_PRIMARY_DEPOSIT) && (o_depositIndex o =? PQ_UNATTRIBUTED_DEPOSIT)) (m_outputs b) =
      sum_if (fun o => negb (o_spent o) && (o_depositIndex o =? PQ_UNATTRIBUTED_DEPOSIT)) (m_outputs b)).
    { apply sum_if_ext. intros o. unfold unspent. destruct (Z.eqb_spec (o_depositIndex o) PQ_UNATTRIBUTED_DEPOSIT) as [->|]; [|now rewrite !andb_false_r]. now destruct (o_spent o). }
    rewrite E. change (sum_if (fun o => unspent o && negb (o_depositIndex o =? PQ_PRIMARY_DEPOSIT) && negb (o_depositIndex o =? PQ_UNATTRIBUTED_DEPOSIT)) (m_outputs b))
      with (sum_if real_deposit (m_outputs b)).
    destruct (wrap_expand (sum_if (fun o => unspent o && (o_depositIndex o =? PQ_PRIMARY_DEPOSIT)) (m_outputs b))) as [i1 E1].
    destruct (wrap_expand (sum_if (fun o => negb (o_spent o) && (o_depositIndex o =? PQ_UNATTRIBUTED_DEPOSIT)) (m_outputs b))) as [i2 E2].
    apply wrap_congr. exists (- (i1 + i2 + j)). unfold unspent in *. rewrite E1, E2. lia.
  - eexists. split; [reflexivity|]. unfold balance, pendingBalance. rewrite !total_is. rewrite (sum_if_split _ pending).
    destruct (wrap_expand (sum_if (fun o => negb (o_spent o) && pending o) (m_outputs b))) as [i1 E1].
    destruct (wrap_expand (sum_if (fun o => negb (o_spent o) && negb (pending o)) (m_outputs b))) as [i2 E2].
    apply wrap_congr. exists (- (i1 + i2)). rewrite E1, E2. lia.
  - unfold spendableBalance, spendableInputs. rewrite total_is. f_equal. apply sum_if_inputs.
Qed.

(** ** Payments arrive and spends are seen *)

Section Receipt.
Variable sha3_256 : bytes -> bytes.
Variable kem_decaps : bytes -> bytes -> bytes.
Variable chacha_encrypt : bytes -> bytes -> bytes -> bytes -> bytes.
Variable chacha_decrypt : bytes -> bytes -> bytes -> bytes -> option bytes.
Variable dsa_keygen_from_seed : bytes -> bytes * bytes.
Context {aead : Aead chacha_encrypt chacha_decrypt}.

Abbreviation nullifier := (nullifier sha3_256).
Abbreviation moves := (moves sha3_256).
Abbreviation pq_loop := (pq_loop sha3_256 kem_decaps chacha_decrypt dsa_keygen_from_seed).
Abbreviation processTransaction := (processTransaction sha3_256 kem_decaps chacha_decrypt dsa_keygen_from_seed).
Abbreviation indexed p := (exact_index o_nullifier (p_outputs p) (p_index p)).

(** What never changes in a record, and what only ever turns on. *)
Definition keeps (o o' : PqWalletOutput) : Prop :=
  o_txid o' = o_txid o /\ o_outputIndex o' = o_outputIndex o /\ o_amount o' = o_amount o /\ o_rho o' = o_rho o /\ o_nullifier o' = o_nullifier o /\
  o_depositIndex o' = o_depositIndex o /\ (o_spent o = true -> o_spent o' = true).
Definition kept (outs outs' : list PqWalletOutput) : Prop := forall o, In o outs -> exists o', In o' outs' /\ keeps o o'.

Lemma keeps_refl o : keeps o o.
Proof. unfold keeps. repeat split; auto. Qed.

Lemma keeps_trans a b c : keeps a b -> keeps b c -> keeps a c.
Proof.
  intros (A1 & A2 & A3 & A4 & A5 & A6 & A7) (B1 & B2 & B3 & B4 & B5 & B6 & B7). unfold keeps. repeat (split; [congruence|]). auto.
Qed.

Lemma keeps_spent txid height o : keeps o (mark_spent txid height o).
Proof. unfold keeps. repeat split; auto. Qed.

Lemma kept_trans a b c : kept a b -> kept b c -> kept a c.
Proof.
  intros H K o I. destruct (H o I) as (x & Ix & A). destruct (K x Ix) as (y & Iy & B). exists y. split; [exact Iy|exact (keeps_trans o x y A B)].
Qed.

Lemma update_kept l k x f : nth_error l k = Some x -> keeps x (f x) -> kept l (update l k f).
Proof.
  intros H K o I. apply In_nth_error in I as [j J]. destruct (Nat.eq_dec j k) as [->|N].
  - rewrite H in J. injection J as <-. exists (f x). split; [|exact K]. clear K. revert k H. induction l as [|y l IH]; intros [|k] H; cbn in *; try discriminate; [injection H as ->; now left|right; now apply IH].
  - exists o. split; [|apply keeps_refl]. clear H K. revert j k J N. induction l as [|y l IH]; intros [|j] [|k] J N; cbn in *; try discriminate; try lia.
    + injection J as ->. now left.
    + right. exact (nth_error_In _ _ J).
    + right. apply (IH j k J). lia.
Qed.

Lemma move_kept txid height p q : move sha3_256 txid height p q -> indexed p -> kept (p_outputs p) (p_outputs q).
Proof.
  assert (R : forall l, kept l l) by (intros l o I; exists o; auto using keeps_refl).
  intros [nf k o F O|unlock i c|a] I; [| |apply R].
  - assert (K := keeps_spent txid height o).
    unfold spend_output. destruct (negb (o_spent o)); [|destruct (confirms _ _)]; cbn [p_outputs]; try apply R; now apply (update_kept _ k o).
  - destruct (credit_output_at sha3_256 txid height unlock i c p I) as [(k & o & F & O & -> & _)|(_ & -> & _)].
    + apply (update_kept _ k o); [exact O|]. unfold confirm_one. destruct (confirms _ _); [unfold keeps; repeat split; auto|apply keeps_refl].
    + intros o Io. exists o. split; [apply in_app_iff; now left|apply keeps_refl].
Qed.

Lemma moves_kept txid height p q : moves txid height p q -> indexed p -> kept (p_outputs p) (p_outputs q).
Proof.
  induction 1 as [|q r M IH E]; intros I; [intros o Io; exists o; auto using keeps_refl|].
  eapply kept_trans; [now apply IH|]. eapply move_kept; [exact E|]. eapply moves_indexed; eassumption.
Qed.

(** An input that reveals a nullifier marks the output that has it. *)
Lemma spend_marks txid height i nf p o : indexed p -> input_nullifier sha3_256 i = Some nf -> In o (p_outputs p) -> o_nullifier o = nf ->
  exists o', In o' (p_outputs (spend_step sha3_256 txid height p i)) /\ keeps o o' /\ o_spent o' = true.
Proof.
  intros I N Io E. unfold spend_step. rewrite N. apply In_nth_error in Io as [k K]. pose proof (proj2 (find_exact o_nullifier _ _ nf k I) (ex_intro _ o (conj K E))) as F.
  rewrite F, K. unfold spend_output. destruct (o_spent o) eqn:Sp; cbn [negb].
  - destruct (confirms _ _); cbn [p_outputs].
    + destruct (update_kept (p_outputs p) k o (mark_spent txid height) K (keeps_spent txid height o) o (nth_error_In _ _ K)) as (o' & Io' & Ko). exists o'.
      split; [exact Io'|]. split; [exact Ko|]. now apply Ko.
    + exists o. split; [exact (nth_error_In _ _ K)|]. split; [apply keeps_refl|exact Sp].
  - cbn [p_outputs]. exists (mark_spent txid height o). split; [|split; [apply keeps_spent|reflexivity]].
    clear - K. revert k K. induction (p_outputs p) as [|y l IH]; intros [|k] K; cbn in *; try discriminate; [injection K as ->; now left|right; now apply IH].
Qed.

(** What the first two loops have found is in the book at the end. *)
Lemma process_kept w tx txid height timestamp : book_ok (book w) -> TRANSACTION_VERSION_1 <= version tx ->
  let p1 := fold_left (spend_step sha3_256 txid height) (inputs tx) (mkProgress (m_outputs (book w)) (m_byNullifier (book w)) 0 0 0 false) in
  kept (p_outputs (snd (pq_loop txid height (pqTransactionInputsHash sha3_256 tx) (scan_mode tx) (outputs tx) 0 (scanner w) p1)))
    (m_outputs (book (fst (processTransaction w tx txid height timestamp)))).
Proof.
  intros I V p1. unfold WalletLedger.processTransaction. rewrite (proj2 (Z.ltb_ge _ _) V). unfold scan_transaction. fold p1.
  assert (I1 : indexed p1) by (eapply moves_indexed; [apply spend_moves|apply I]).
  assert (M1 := pq_moves sha3_256 kem_decaps chacha_decrypt dsa_keygen_from_seed txid height (pqTransactionInputsHash sha3_256 tx) (scan_mode tx) (outputs tx) 0 (scanner w) p1).
  destruct (pq_loop _ _ _ _ _ _ _ _) as [s p2]. cbn [snd] in *. assert (I2 := moves_indexed _ _ _ _ _ M1 I1).
  assert (M2 : moves txid height p2 (snd (if txType tx =? TX_COINBASE then coinbase_loop sha3_256 dsa_keygen_from_seed txid height (outputs tx) 0 s p2 else (s, p2))))
    by (destruct (txType tx =? TX_COINBASE); [apply coinbase_moves|apply moves_refl]).
  destruct (if txType tx =? TX_COINBASE then _ else _) as [s' p3]. cbn [snd] in M2. intros o Io. destruct (moves_kept _ _ _ _ M2 I2 o Io) as (o3 & Io3 & K3). exists o3.
  destruct (history_cases tx txid height timestamp p3 (book w) I) as (Eo & _). destruct (record_history tx txid height timestamp p3 (book w)) as [b a]. cbn [fst book] in *. rewrite Eo. auto.
Qed.

(** A spend is seen: whatever reveals the nullifier of a recorded output leaves it
    marked as spent. *)
Theorem wallet_sees_spend w tx txid height timestamp i nf o : book_ok (book w) -> TRANSACTION_VERSION_1 <= version tx -> In i (inputs tx) ->
  input_nullifier sha3_256 i = Some nf -> In o (m_outputs (book w)) -> o_nullifier o = nf ->
  exists o', In o' (m_outputs (book (fst (processTransaction w tx txid height timestamp)))) /\ keeps o o' /\ o_spent o' = true.
Proof.
  intros I V Ii N Io E. set (p0 := mkProgress (m_outputs (book w)) (m_byNullifier (book w)) 0 0 0 false).
  assert (H : exists o', In o' (p_outputs (fold_left (spend_step sha3_256 txid height) (inputs tx) p0)) /\ keeps o o' /\ o_spent o' = true).
  { assert (I0 : indexed p0) by apply I. assert (Io0 : In o (p_outputs p0)) by exact Io. clearbody p0. clear I Io w. apply in_split in Ii as (pre & post & ->).
    rewrite fold_left_app. cbn [fold_left]. assert (M1 := spend_moves sha3_256 txid height pre p0). set (p1 := fold_left _ pre p0) in *.
    assert (I1 := moves_indexed _ _ _ _ _ M1 I0). destruct (moves_kept _ _ _ _ M1 I0 o Io0) as (o1 & Io1 & K1).
    destruct (spend_marks txid height i nf p1 o1 I1 N Io1) as (o2 & Io2 & K2 & S2); [destruct K1 as (_ & _ & _ & _ & -> & _); exact E|].
    assert (I2 : indexed (spend_step sha3_256 txid height p1 i)) by (eapply moves_indexed; [apply (spend_moves sha3_256 txid height [i])|exact I1]).
    destruct (moves_kept _ _ _ _ (spend_moves sha3_256 txid height post _) I2 o2 Io2) as (o3 & Io3 & K3). exists o3. split; [exact Io3|].
    split; [exact (keeps_trans _ _ _ K1 (keeps_trans _ _ _ K2 K3))|now apply K3]. }
  destruct H as (o1 & Io1 & K1 & S1). assert (M0 := spend_moves sha3_256 txid height (inputs tx) p0). set (p1 := fold_left _ (inputs tx) p0) in *.
  assert (I1 := moves_indexed _ _ _ _ _ M0 (proj1 I)).
  assert (M1 := pq_moves sha3_256 kem_decaps chacha_decrypt dsa_keygen_from_seed txid height (pqTransactionInputsHash sha3_256 tx) (scan_mode tx) (outputs tx) 0 (scanner w) p1).
  destruct (moves_kept _ _ _ _ M1 I1 o1 Io1) as (o2 & Io2 & K2). destruct (process_kept w tx txid height timestamp I V o2 Io2) as (o3 & Io3 & K3). exists o3.
  split; [exact Io3|]. split; [exact (keeps_trans _ _ _ K1 (keeps_trans _ _ _ K2 K3))|]. now apply K3, K2.
Qed.

Lemma NoDup_map_inj {A B} (f : A -> B) l : NoDup (map f l) -> forall x y, In x l -> In y l -> f x = f y -> x = y.
Proof.
  induction l as [|a l IH]; intros N x y Hx Hy E; [contradiction|]. inversion_clear N as [|? ? Na Nl].
  destruct Hx as [<-|Hx], Hy as [<-|Hy]; [reflexivity| | |now apply IH]; exfalso; apply Na; [rewrite E|rewrite <- E]; now apply in_map.
Qed.

(** The keys the wallet watches. *)
Abbreviation ready s := (ensureDepositKeys sha3_256 dsa_keygen_from_seed s (m_depositCount s)).
Definition wallet_pubs (s : Scanner) : list bytes := m_spendPub (ready s) :: m_depositSpendPubs (ready s).

Lemma credit_owner s ih mode so : let r := recognize_pq sha3_256 kem_decaps chacha_decrypt dsa_keygen_from_seed s ih mode so in
  wallet_pubs (fst r) = wallet_pubs s /\ forall c, snd r = Some c -> In (c_ownerSpendPub c) (wallet_pubs s).
Proof.
  intros r. split; [unfold wallet_pubs, r; now rewrite (proj1 (recognize_pq_ready sha3_256 kem_decaps chacha_decrypt dsa_keygen_from_seed s ih mode so))|].
  destruct (ready_fields sha3_256 dsa_keygen_from_seed s) as (_ & Es & _). unfold wallet_pubs. rewrite Es. unfold r, recognize_pq. destruct (m_depositScheme s).
  - destruct (scanPqOutput _ _ _ _ _ _ _); [intros c [= <-]; now left|]. destruct (0 <? _); [|discriminate]. cbn [snd]. intros c H. right.
    destruct (m_depositSpendPubs (ready s)) as [|x l] eqn:E; [discriminate|]. rewrite <- E in *.
    destruct (scanPqOutputAggregate _ _ _ _ _ _ _ _) as [[w k]|] eqn:A; [|discriminate]. injection H as <-. cbn [c_ownerSpendPub]. apply nth_In.
    unfold scanPqOutputAggregate in A. destruct (match tryDecrypt _ _ _ _ _ with Some _ => _ | None => _ end) as [oc [dp|]]; [|discriminate]. destruct (negb _); [discriminate|].
    pose proof (matching_deposit_spec sha3_256 (m_depositSpendPubs (ready s)) 0 (dp_rho dp) (s_spendCommit so)) as M. destruct (matching_deposit _ _ _ _ _) as [j|]; [|discriminate].
    injection A as _ <-. destruct M as (pub & Hj & N & _). rewrite Z.sub_0_r in N. apply nth_error_Some. congruence.
  - destruct (scanPqOutputWithLegacyTWindow _ _ _ _ _ _ _ _); [|discriminate]. intros c [= <-]. now left.
Qed.

(** A record the loop made is that of an output of the transaction, credited to a key
    of the wallet. *)
Definition made (txid : bytes) (s : Scanner) (o : PqWalletOutput) : Prop :=
  exists pub, In pub (wallet_pubs s) /\ o_nullifier o = nullifier pub (o_rho o) txid (o_outputIndex o).

Lemma pq_loop_records txid height ih mode outs : forall i s p o, indexed p -> In o (p_outputs (snd (pq_loop txid height ih mode outs i s p))) ->
  In (o_nullifier o) (map o_nullifier (p_outputs p)) \/ i <= o_outputIndex o < i + Z.of_nat (length outs) /\ made txid s o.
Proof.
  induction outs as [|out outs IH]; intros i s p o I H; [left; now apply in_map|].
  assert (Step : forall s' q, indexed q -> wallet_pubs s' = wallet_pubs s ->
    (forall x, In x (p_outputs q) -> In (o_nullifier x) (map o_nullifier (p_outputs p)) \/ o_outputIndex x = i /\ made txid s x) ->
    In o (p_outputs (snd (pq_loop txid height ih mode outs (i + 1) s' q))) ->
    In (o_nullifier o) (map o_nullifier (p_outputs p)) \/ i <= o_outputIndex o < i + Z.of_nat (length (out :: outs)) /\ made txid s o).
  { intros s' q Iq Ew Hq X. destruct (IH _ _ _ _ Iq X) as [Y|[Hj M]]; cbn [length].
    - apply in_map_iff in Y as (x & Ex & Ix). destruct (Hq x Ix) as [Z|[Ei M]]; [left; now rewrite <- Ex|right].
      assert (Mv := pq_moves sha3_256 kem_decaps chacha_decrypt dsa_keygen_from_seed txid height ih mode outs (i + 1) s' q).
      destruct (moves_kept _ _ _ _ Mv Iq x Ix) as (o' & Io' & K). pose proof (proj2 (moves_indexed _ _ _ _ _ Mv Iq)) as Nd.
      destruct K as (_ & Ki & _ & Kr & Kn & _). assert (o' = o) as -> by (apply (NoDup_map_inj o_nullifier _ Nd); [exact Io'|exact X|congruence]).
      unfold made in *. rewrite Ki, Kr, Kn. split; [lia|exact M].
    - right. split; [lia|]. unfold made in *. now rewrite <- Ew. }
  cbn [WalletLedger.pq_loop] in H. assert (Same : forall x, In x (p_outputs p) -> In (o_nullifier x) (map o_nullifier (p_outputs p)) \/ o_outputIndex x = i /\ made txid s x)
    by (intros x Hx; left; now apply in_map).
  destruct (target out) as [key|po|co]; [exact (Step _ _ I eq_refl Same H)| |exact (Step _ _ I eq_refl Same H)].
  destruct (_ || _); [exact (Step _ _ I eq_refl Same H)|]. destruct (credit_owner s ih mode (scan_output i out po)) as [Ew Hc].
  destruct (recognize_pq _ _ _ _ _ _ _ _) as [s' [c|]]; cbn [fst snd] in *; [|exact (Step s' (add_all p (amount out)) I Ew Same H)].
  eapply Step; [|exact Ew| |exact H]; [eapply move_indexed; [apply move_credit|exact I]|]. intros x Hx.
  destruct (credit_output_at sha3_256 txid height (out_unlockHeight out) i c (add_all p (amount out)) I) as [(k & y & F & O & E & _)|(_ & E & _)]; rewrite E in Hx.
  - left. apply (in_map o_nullifier) in Hx. rewrite (map_update o_nullifier _ k y) in Hx; [exact Hx|exact O|]. unfold confirm_one. now destruct (confirms _ _).
  - apply in_app_iff in Hx as [Hx|[<-|[]]]; [left; now apply in_map|right]. split; [reflexivity|]. exists (c_ownerSpendPub c). split; [now apply Hc|reflexivity].
Qed.

Lemma pq_loop_app txid height ih mode outs outs' : forall i s p,
  pq_loop txid height ih mode (outs ++ outs') i s p =
  let '(s', p') := pq_loop txid height ih mode outs i s p in pq_loop txid height ih mode outs' (i + Z.of_nat (length outs)) s' p'.
Proof.
  induction outs as [|out outs IH]; intros i s p; cbn [app WalletLedger.pq_loop length]; [now rewrite Z.add_0_r|].
  destruct (match target out with OutPq _ => _ | _ => _ end) as [s1 p1]. rewrite IH. now replace (i + 1 + Z.of_nat (length outs)) with (i + Z.of_nat (S (length outs))) by lia.
Qed.

Lemma spend_keys txid height ins : forall p, indexed p -> map o_nullifier (p_outputs (fold_left (spend_step sha3_256 txid height) ins p)) = map o_nullifier (p_outputs p).
Proof.
  induction ins as [|i ins IH]; intros p I; cbn [fold_left]; [reflexivity|].
  assert (I1 : indexed (spend_step sha3_256 txid height p i)) by (eapply moves_indexed; [apply (spend_moves sha3_256 txid height [i])|exact I]).
  rewrite (IH _ I1). unfold spend_step. destruct (input_nullifier sha3_256 i) as [nf|]; [|reflexivity]. destruct (find (p_index p) nf) as [k|] eqn:F; [|reflexivity].
  destruct (nth_error (p_outputs p) k) as [o|] eqn:O; [|reflexivity]. destruct (spend_output_at txid height nf k o p I F O) as [-> _]. apply at_key_keys.
  intros x. unfold spend_one. now destruct (_ || _).
Qed.

Lemma le32_last a b i j : in_w 32 i -> in_w 32 j -> a ++ le32 i = b ++ le32 j -> i = j.
Proof.
  intros Hi Hj E. unfold le32 in E. assert (L : length a = length b) by (apply (f_equal (@length _)) in E; rewrite !length_app, !length_le_split in E; lia).
  apply app_inj_len in E as [_ E]; [|exact L]. apply (f_equal le_combine) in E.
  rewrite !le_combine_split in E. now rewrite !Z.mod_small in E.
Qed.

(** What the scanner makes of an output built for its own address. *)
Definition route_deposit (s : Scanner) (t : Z) : Z := match m_depositScheme s with SingleKeyIndex => pqDepositIndexForRoute t | AggregatedMultikey => PQ_PRIMARY_DEPOSIT end.

Lemma recognized_payment s ih mode i amount kemCt ss rho t : kem_decaps (viewSk (m_scanKeys s)) kemCt = ss -> k_spendPub (m_scanKeys s) = m_spendPub s ->
  length rho = 32%nat -> in_w 64 t ->
  recognize_pq sha3_256 kem_decaps chacha_decrypt dsa_keygen_from_seed s ih mode (on_chain i amount (buildPqOutput sha3_256 chacha_encrypt kemCt ss (m_spendPub s) ih i amount rho t)) =
  (s, Some (mkCredit rho amount (route_deposit s t) (m_spendPub s))).
Proof.
  intros Hd Hk Lr Ht. rewrite <- Hk at 1. unfold recognize_pq, route_deposit.
  destruct (built_scanned sha3_256 kem_decaps chacha_encrypt chacha_decrypt (m_scanKeys s) kemCt ss ih i amount rho t mode (m_legacyTWindowMaxT s) Hd Lr Ht) as [A B].
  destruct (m_depositScheme s); [rewrite A|rewrite B]; reflexivity.
Qed.

Lemma pq_loop_scanner txid height ih mode outs : forall i s p, let s' := fst (pq_loop txid height ih mode outs i s p) in
  m_scanKeys s' = m_scanKeys s /\ m_spendPub s' = m_spendPub s /\ m_depositScheme s' = m_depositScheme s.
Proof.
  induction outs as [|out outs IH]; intros i s p; cbn [WalletLedger.pq_loop]; [auto|]. destruct (target out) as [key|po|co]; [apply IH| |apply IH].
  destruct (_ || _); [apply IH|]. set (r := recognize_pq _ _ _ _ _ _ _ _).
  assert (E : m_scanKeys (fst r) = m_scanKeys s /\ m_spendPub (fst r) = m_spendPub s /\ m_depositScheme (fst r) = m_depositScheme s).
  { unfold r, recognize_pq. destruct (ready_fields sha3_256 dsa_keygen_from_seed s) as (E1 & E2 & E3 & _). destruct (m_depositScheme s) eqn:D; [|auto].
    destruct (scanPqOutput _ _ _ _ _ _ _); [auto|]. destruct (0 <? m_depositCount s); [|auto]. cbn [fst]. auto. }
  destruct r as [s1 c]. cbn [fst] in E. destruct E as (<- & <- & <-). apply IH.
Qed.

Abbreviation nullifier_preimage pub rho txid i := (kDomainNullifier ++ pub ++ rho ++ txid ++ le32 i).

(** C11: A payment is credited: when a transaction carries an output built for the
    wallet's address, reading it puts a record of that output in the book, with its
    amount, its opening and the deposit of its route, under the nullifier that will
    announce its spend; the only exception would be that the record with
    this nullifier is of another output of the transaction, which is a collision of
    SHA3 on the two. *)
Theorem wallet_receives w tx txid height timestamp i out kemCt ss rho t :
  let s := scanner w in
  let b := buildPqOutput sha3_256 chacha_encrypt kemCt ss (m_spendPub s) (pqTransactionInputsHash sha3_256 tx) (Z.of_nat i) (amount out) rho t in
  let nf := nullifier (m_spendPub s) rho txid (Z.of_nat i) in
  book_ok (book w) -> TRANSACTION_VERSION_1 <= version tx -> Z.of_nat (length (outputs tx)) <= 2 ^ 32 ->
  nth_error (outputs tx) i = Some out -> target out = OutPq (mkPqOutput (b_kemCt b) (b_encPayload b) (b_spendCommit b)) -> len kemCt = PQ_KEM_CIPHERTEXT_SIZE ->
  kem_decaps (viewSk (m_scanKeys s)) kemCt = ss -> k_spendPub (m_scanKeys s) = m_spendPub s -> length rho = 32%nat -> in_w 64 t ->
  ~ In nf (map o_nullifier (m_outputs (book w))) ->
  exists o, In o (m_outputs (book (fst (processTransaction w tx txid height timestamp)))) /\ o_nullifier o = nf /\
    (o_txid o = txid /\ o_outputIndex o = Z.of_nat i /\ o_amount o = amount out /\ o_rho o = rho /\ o_depositIndex o = route_deposit s t \/
     exists pub, In pub (wallet_pubs s) /\ collides sha3_256 [nullifier_preimage (m_spendPub s) rho txid (Z.of_nat i); nullifier_preimage pub (o_rho o) txid (o_outputIndex o)]).
Proof.
  intros s b nf I V L32 Hn Ht Lk Hd Hk Lr Hr N. set (p0 := mkProgress (m_outputs (book w)) (m_byNullifier (book w)) 0 0 0 false).
  set (p1 := fold_left (spend_step sha3_256 txid height) (inputs tx) p0). assert (I0 : indexed p0) by apply I.
  assert (I1 : indexed p1) by (eapply moves_indexed; [apply spend_moves|exact I0]).
  assert (N1 : ~ In nf (map o_nullifier (p_outputs p1))) by (unfold p1; rewrite spend_keys by exact I0; exact N).
  apply nth_error_split in Hn as (pre & post & Eo & Li). set (ih := pqTransactionInputsHash sha3_256 tx) in *.
  assert (Hin : exists o, In o (p_outputs (snd (pq_loop txid height ih (scan_mode tx) (outputs tx) 0 s p1))) /\ o_nullifier o = nf /\
    (keeps (fresh_output sha3_256 txid height (out_unlockHeight out) (Z.of_nat i) (mkCredit rho (amount out) (route_deposit s t) (m_spendPub s))) o \/
     exists pub, In pub (wallet_pubs s) /\ collides sha3_256 [nullifier_preimage (m_spendPub s) rho txid (Z.of_nat i); nullifier_preimage pub (o_rho o) txid (o_outputIndex o)])).
  { rewrite Eo, pq_loop_app. assert (Kp := pq_loop_records txid height ih (scan_mode tx) pre 0 s p1).
    assert (Mp := pq_moves sha3_256 kem_decaps chacha_decrypt dsa_keygen_from_seed txid height ih (scan_mode tx) pre 0 s p1).
    assert (Rs := pq_loop_scanner txid height ih (scan_mode tx) pre 0 s p1). destruct (pq_loop txid height ih (scan_mode tx) pre 0 s p1) as [s2 p2]. cbn [fst snd] in *.
    assert (I2 := moves_indexed _ _ _ _ _ Mp I1). set (rest := pq_loop txid height ih (scan_mode tx) (out :: post) _ s2 p2).
    destruct (in_dec bytes_eq_dec nf (map o_nullifier (p_outputs p2))) as [Y|Y].
    - apply in_map_iff in Y as (o & Eno & Io). destruct (Kp o I1 Io) as [Z|(Hj & pub & Hp & E)]; [rewrite Eno in Z; contradiction|].
      assert (M2 : moves txid height p2 (snd rest)) by apply pq_moves.
      destruct (moves_kept _ _ _ _ M2 I2 o Io) as (o' & Io' & K). exists o'. destruct K as (_ & K2 & _ & K4 & K5 & _). split; [exact Io'|]. split; [congruence|].
      right. exists pub. split; [exact Hp|]. rewrite K2, K4. exists (nullifier_preimage (m_spendPub s) rho txid (Z.of_nat i)), (nullifier_preimage pub (o_rho o) txid (o_outputIndex o)).
      split; [now left|]. split; [right; now left|]. split; [|rewrite Eno in E; exact E].
      rewrite !app_assoc. intros X. apply le32_last in X; rewrite Eo, length_app in L32; cbn [length] in L32; unfold in_w; lia.
    - unfold rest. cbn [WalletLedger.pq_loop]. rewrite Ht. cbv iota.
      cbn [Transaction.kemCt Transaction.encPayload]. change (b_kemCt b) with kemCt. assert (Le : len (b_encPayload b) = PQ_ENC_PAYLOAD_SIZE).
      { unfold len, b, buildPqOutput, aead_encrypt. cbn [b_encPayload]. rewrite aead_size, length_app, Lr. reflexivity. }
      rewrite Lk, Le, !Z.eqb_refl. cbn [negb orb]. change (scan_output (0 + Z.of_nat (length pre)) out _) with (on_chain (0 + Z.of_nat (length pre)) (amount out) b).
      rewrite Li, Z.add_0_l. destruct Rs as (R1 & R2 & R3).
      assert (Rc : recognize_pq sha3_256 kem_decaps chacha_decrypt dsa_keygen_from_seed s2 ih (scan_mode tx) (on_chain (Z.of_nat i) (amount out) b) =
        (s2, Some (mkCredit rho (amount out) (route_deposit s t) (m_spendPub s)))).
      { unfold b. rewrite <- R2. unfold route_deposit. rewrite <- R3. apply recognized_payment; [rewrite R1; exact Hd|rewrite R1, R2; exact Hk|exact Lr|exact Hr]. }
      rewrite Rc. set (c := mkCredit rho (amount out) (route_deposit s t) (m_spendPub s)).
      destruct (credit_output_at sha3_256 txid height (out_unlockHeight out) (Z.of_nat i) c (add_all p2 (amount out)) I2) as [(k & o & F & _)|(_ & E & I3 & _)].
      + exfalso. apply Y. apply (find_exact o_nullifier _ _ _ k I2) in F as (x & X & Ex). change (o_nullifier (fresh_output sha3_256 txid height (out_unlockHeight out) (Z.of_nat i) c)) with nf in Ex.
        rewrite <- Ex. apply in_map. exact (nth_error_In _ _ X).
      + set (rec := fresh_output sha3_256 txid height (out_unlockHeight out) (Z.of_nat i) c) in *. set (q := credit_output _ _ _ _ _ _ _) in *.
        assert (Ir : In rec (p_outputs q)) by (rewrite E; apply in_app_iff; right; now left).
        destruct (moves_kept _ _ _ _ (pq_moves sha3_256 kem_decaps chacha_decrypt dsa_keygen_from_seed txid height ih (scan_mode tx) post (Z.of_nat i + 1) s2 q) I3 rec Ir) as (o' & Io' & K).
        exists o'. split; [exact Io'|]. split; [destruct K as (_ & _ & _ & _ & -> & _); reflexivity|left; exact K]. }
  destruct Hin as (o & Io & En & H). destruct (process_kept w tx txid height timestamp I V o Io) as (o' & Io' & K). exists o'. split; [exact Io'|].
  destruct K as (K1 & K2 & K3 & K4 & K5 & K6 & _). split; [congruence|]. destruct H as [(H1 & H2 & H3 & H4 & H5 & H6 & _)|H]; [left|right; rewrite K2, K4; exact H].
  rewrite K1, K2, K3, K4, K6, H1, H2, H3, H4, H6. repeat split.
Qed.

End Receipt.

(** ** Any use of a wallet *)

Section Use.
Variable sha3_256 : bytes -> bytes.
Variable kem_decaps : bytes -> bytes -> bytes.
Variable chacha_decrypt : bytes -> bytes -> bytes -> bytes -> option bytes.
Variable dsa_keygen_from_seed : bytes -> bytes * bytes.

Inductive op :=
| Process (i : item)
| Rollback (h : Z)
| Drop (txid : bytes)
| Configure (scheme : PqDepositScheme) (count : Z)
| Scanned (h : Z)
| Window (maxT : Z).
Definition apply_op (w : WalletLedger) (o : op) : WalletLedger :=
  match o with
  | Process i => feed1 sha3_256 kem_decaps chacha_decrypt dsa_keygen_from_seed w i
  | Rollback h => mkWalletLedger (scanner w) (rollbackToHeight (book w) h)
  | Drop txid => mkWalletLedger (scanner w) (removeUnconfirmedTransaction (book w) txid)
  | Configure scheme count => setDepositConfig sha3_256 dsa_keygen_from_seed w scheme count
  | Scanned h => mkWalletLedger (scanner w) (setLastScannedHeight (book w) h)
  | Window maxT => mkWalletLedger (setLegacyTWindowRescan (scanner w) maxT) (book w)
  end.

(** No two records share a nullifier, no two rows a transaction; both tables are
    exact; and an unspent output carries no trace of a spend. *)
Definition wallet_ok (w : WalletLedger) : Prop := book_ok (book w) /\ Forall clean_output (m_outputs (book w)).

Lemma rollback_ok b h : book_ok b -> Forall clean_output (m_outputs b) -> book_ok (rollbackToHeight b h) /\ Forall clean_output (m_outputs (rollbackToHeight b h)).
Proof.
  intros [[_ Do] [_ Dh]] C. unfold rollbackToHeight, book_ok. cbn [m_outputs m_byNullifier m_history m_historyByTxid].
  assert (K : map o_nullifier (map (unspend_above h) (m_outputs b)) = map o_nullifier (m_outputs b)).
  { rewrite map_map. apply map_ext. intros o. unfold unspend_above. now destruct (_ && _ && _). }
  split; [split; apply reindex_exact, NoDup_map_filter; [rewrite K; exact Do|exact Dh]|].
  apply Forall_forall. intros o I. apply filter_In in I as [I _]. apply in_map_iff in I as (x & <- & I). rewrite Forall_forall in C. specialize (C x I).
  unfold unspend_above. destruct (_ && _ && _); [intros _; auto|exact C].
Qed.

Lemma configure_ok w scheme count : wallet_ok w -> wallet_ok (setDepositConfig sha3_256 dsa_keygen_from_seed w scheme count).
Proof.
  intros [[I J] C]. unfold setDepositConfig, wallet_ok, book_ok. cbn [book]. destruct (m_needsPrimaryBucketMigration (book w)); cbn [m_outputs m_byNullifier m_history m_historyByTxid];
    [|auto]. destruct scheme; [auto|]. split; [split; [|exact J]|].
  - eapply exact_same; [|exact I]. rewrite map_map. symmetry. apply map_ext. intros o. unfold to_primary. now destruct (_ =? _).
  - apply Forall_map. revert C. apply Forall_impl. intros o. unfold to_primary, clean_output. destruct (_ =? _); auto.
Qed.

(** C10: Whatever a wallet is made to do, its tables stay exact: from a new wallet,
    through any sequence of transactions from chain and pool, reorganisations,
    dropped transactions and changes of configuration, every recorded output is
    found under its nullifier and every row under its transaction, none twice. *)
Theorem wallet_invariant keys tracking ops : let w := if tracking : bool then newTrackingWallet (pqTrackingKeys keys) else newWallet keys in
  wallet_ok (fold_left apply_op ops w).
Proof.
  intros w. assert (W : wallet_ok w) by (destruct tracking; (split; [split; split; try reflexivity; constructor|constructor])). clearbody w.
  revert w W. induction ops as [|o ops IH]; intros w W; [exact W|]. apply IH. destruct W as [I C]. destruct o as [[[[tx txid] height] ts]|h|txid|scheme count|h|maxT]; cbn [apply_op].
  - split; [now apply process_ok|]. cbn [feed1]. destruct (process_book sha3_256 kem_decaps chacha_decrypt dsa_keygen_from_seed w tx txid height ts I) as [->|(s & p & _ & M & _ & ->)]; [exact C|].
    destruct (history_cases tx txid height ts p (book w) I) as (-> & _). exact (moves_clean _ _ _ _ _ M (proj1 I) C).
  - exact (rollback_ok (book w) h I C).
  - destruct (drop_spec (book w) txid I) as (Ok & Eo & _). split; [exact Ok|]. cbn [book]. rewrite Eo. apply Forall_forall. intros o Io. apply filter_In in Io as [Io _].
    apply in_map_iff in Io as (x & <- & Ix). rewrite Forall_forall in C. specialize (C x Ix). unfold unspend_dropped. destruct (_ && _ && _); [intros _; auto|exact C].
  - now apply configure_ok.
  - split; assumption.
  - split; assumption.
Qed.

End Use.

(** ** A wallet that is paid *)

Definition sample_keygen (seed : bytes) : bytes * bytes := (repeat (b8 7) 1952, repeat (b8 9) 4032).
Definition sample_wallet : PqWalletKeys := mkPqWalletKeys (repeat (b8 1) 32) (repeat (b8 2) 1184) (repeat (b8 3) 2400) (repeat (b8 7) 1952) (repeat (b8 9) 4032).
Definition sample_decaps (sk ct : bytes) : bytes := firstn 32 ct.
Definition sample_outpoint : TransactionInput := InPq (mkPqInput (repeat (b8 4) 32) 0 (repeat (b8 11) 1952) (repeat (b8 5) 32) PQ_NO_KEY_REF).
Definition sample_unpaid : TransactionPrefix := mkTransactionPrefix 1 TX_PQ 0 [sample_outpoint] [] [].
Definition sample_paid : PqBuiltOutput :=
  buildPqOutput sample_sha3 sample_cipher (repeat (b8 1) 1088) (repeat (b8 1) 32) (repeat (b8 7) 1952) (pqTransactionInputsHash sample_sha3 sample_unpaid) 0 250 (repeat (b8 6) 32) 0.
Definition sample_tx : TransactionPrefix :=
  mkTransactionPrefix 1 TX_PQ 0 [sample_outpoint] [mkTransactionOutput 250 0 (OutPq (mkPqOutput (b_kemCt sample_paid) (b_encPayload sample_paid) (b_spendCommit sample_paid)))] [].
Definition sample_txid : bytes := repeat (b8 8) 32.
(** A new wallet that has read the chain below height 5. *)
Definition sample_ledger : WalletLedger := mkWalletLedger (scanner (newWallet sample_wallet)) (setLastScannedHeight empty_book 4).
Lemma sample_ledger_ok : book_ok (book sample_ledger).
Proof. repeat split; constructor. Qed.


Lemma pool_drop_undoes_witness :
  removeUnconfirmedTransaction (book (fst (processTransaction sample_sha3 sample_decaps sample_decipher sample_keygen sample_ledger sample_tx sample_txid UNCONFIRMED_HEIGHT 0))) sample_txid =
  book sample_ledger.
Proof.
  apply (pool_drop_undoes sample_sha3 sample_decaps sample_decipher sample_keygen sample_ledger sample_tx sample_txid 0);
    [exact sample_ledger_ok|constructor|split; [intros []|constructor]].
Defined.

Lemma wallet_receives_witness : exists o,
  In o (m_outputs (book (fst (processTransaction sample_sha3 sample_decaps sample_decipher sample_keygen sample_ledger sample_tx sample_txid 5 0)))) /\
  o_nullifier o = nullifier sample_sha3 (repeat (b8 7) 1952) (repeat (b8 6) 32) sample_txid 0.
Proof.
  destruct (wallet_receives sample_sha3 sample_decaps sample_cipher sample_decipher sample_keygen sample_ledger sample_tx sample_txid 5 0 0
    (mkTransactionOutput 250 0 (OutPq (mkPqOutput (b_kemCt sample_paid) (b_encPayload sample_paid) (b_spendCommit sample_paid))))
    (repeat (b8 1) 1088) (repeat (b8 1) 32) (repeat (b8 6) 32) 0) as (o & Io & En & _); try reflexivity; try easy.
  - exact sample_ledger_ok.
  - exists o. split; [exact Io|exact En].
Defined.
