(* ===== verification/PqTransactionBuilder.v ===== *)
(** * Building transfers

    [Wallet/PqTransactionBuilder.cpp]: the wallet assembles and signs a transfer, and
    a free registration. The theorem of this file composes it with the rules of
    [PqValidation.v]: what it builds from owned outputs is accepted.

    The randomness of the outputs (ciphertext, shared secret and opening of each) is
    an argument; signing is a parameter. Exceptions are error strings. *)

From Stdlib Require Import ZArith String List Lia Bool.
From coqutil Require Import Byte Word.LittleEndianList.
From S2P Require Import Prelude Config Varint Wire Transaction Extra PqHash PqDerive PqValidation Bech32 PqOutputs PqPaymentProof Seeds WalletLedger.
Import ListNotations.
Open Scope string_scope.
Open Scope list_scope.
Open Scope Z_scope.
Open Scope discrete_scope.
Import Serialization TransactionExtra PqDerive PqValidation PqOutputs PqPaymentProof.

Module PqTransactionBuilder.

Record PqInputAuth := mkPqInputAuth { ia_spendPub : bytes; ia_spendSk : bytes }.
Record PqSendOutput := mkPqSendOutput { recipientViewPub : bytes; recipientSpendPub : bytes; so_amount : Z; so_subaddrIndexT : Z; so_unlockHeight : Z }.
Record PqTransactionBuildResult := mkBuildResult { br_tx : Transaction; outputRhos : list bytes }.

(** The first earlier input under the same key, [for (j = 0; j < i; ++j)]. *)
Fixpoint first_of_key (earlier : list PqInputAuth) (j : Z) (pub : bytes) : Z :=
  match earlier with
  | [] => PQ_NO_KEY_REF
  | a :: earlier => if ia_spendPub a ==b pub then j else first_of_key earlier (j + 1) pub
  end.

Section Build.
Variable sha3_256 : bytes -> bytes.
Variable chacha_encrypt : bytes -> bytes -> bytes -> bytes -> bytes.
Variable chacha_decrypt : bytes -> bytes -> bytes -> bytes -> option bytes.
Variable dsa_sign : bytes -> bytes -> bytes.       (** secret key, message *)
(** For output [i]: the ciphertext and shared secret of the encapsulation, and the
    opening. *)
Variable randomness : nat -> bytes * bytes * bytes.

Fixpoint build_inputs (grouped : bool) (earlier : list PqInputAuth) (ins : list PqSpendInput) (auth : list PqInputAuth) (sumIn : Z)
  : result string (list TransactionInput * Z) :=
  match ins, auth with
  | si :: ins, a :: auth =>
      let ref := if grouped then first_of_key earlier 0 (ia_spendPub a) else PQ_NO_KEY_REF in
      let i := mkPqInput (si_prevTxid si) (si_prevOutIndex si) (ia_spendPub a) (si_rho si) ref in
      check negb (w64 (sumIn + si_amount si) <? sumIn) else "buildPqTransaction: input amount overflow" ;;
      let* (rest, sum) := build_inputs grouped (earlier ++ [a]) ins auth (w64 (sumIn + si_amount si)) in
      Ok (InPq i :: rest, sum)
  | _, _ => Ok ([], sumIn)
  end.

Fixpoint build_outputs (ih : bytes) (i : nat) (outs : list PqSendOutput) (sumOut : Z) : result string (list TransactionOutput * list bytes * Z) :=
  match outs with
  | [] => Ok ([], [], sumOut)
  | so :: outs =>
      let '(ct, ss, rho) := randomness i in
      match buildPqOutput_checked sha3_256 chacha_encrypt chacha_decrypt (ct, ss) rho (recipientSpendPub so) ih (Z.of_nat i) (so_amount so) (so_subaddrIndexT so) with
      | None => Err "buildPqOutput: self-check failed"
      | Some built =>
          let out := mkTransactionOutput (so_amount so) (so_unlockHeight so) (OutPq (mkPqOutput (b_kemCt built) (b_encPayload built) (b_spendCommit built))) in
          check negb (w64 (sumOut + so_amount so) <? sumOut) else "buildPqTransaction: output amount overflow" ;;
          let* (r, sum) := build_outputs ih (S i) outs (w64 (sumOut + so_amount so)) in
          Ok (out :: fst r, b_rho built :: snd r, sum)
      end
  end.

(** The indices of the key-carrying inputs. *)
Definition signers_of (ins : list TransactionInput) : list Z := key_positions 0 ins.
Definition key_count (ins : list TransactionInput) : Z := Z.of_nat (length (filter carries_key ins)).

Definition sign_all (auth : list PqInputAuth) (signers : list Z) (digests : list bytes) : list bytes :=
  map (fun kd => dsa_sign (ia_spendSk (nth (Z.to_nat (fst kd)) auth (mkPqInputAuth [] []))) (snd kd)) (combine signers digests).

Definition buildPqTransactionWithProof (ins : list PqSpendInput) (outs : list PqSendOutput) (inputAuth : list PqInputAuth) (unlock : Z) (ext : bytes)
  (signing : PqSigningContext) : result string PqTransactionBuildResult :=
  check negb (length ins =? 0)%nat else "buildPqTransaction: no inputs" ;;
  check negb (length outs =? 0)%nat else "buildPqTransaction: no outputs" ;;
  check unlock =? 0 else "buildPqTransaction: tx-level unlockHeight is not supported for TX_PQ" ;;
  check (length inputAuth =? length ins)%nat else "buildPqTransaction: input auth count mismatch" ;;
  check negb (groupedAuth signing && negb (useV2 signing)) else "buildPqTransaction: grouped authorization requires transcript v2" ;;
  let maxInputs := if groupedAuth signing then parameters.MAX_PQ_GROUPED_INPUTS_PER_TX else parameters.MAX_PQ_INPUTS_PER_TX in
  check negb (maxInputs <? Z.of_nat (length ins)) else "buildPqTransaction: too many inputs" ;;
  check negb (parameters.MAX_PQ_OUTPUTS_PER_TX <? Z.of_nat (length outs)) else "buildPqTransaction: too many outputs" ;;
  let* (txins, sumIn) := build_inputs (groupedAuth signing) [] ins inputAuth 0 in
  check negb (parameters.MAX_PQ_INPUTS_PER_TX <? key_count txins) else "buildPqTransaction: too many distinct spend keys" ;;
  let ih := pqTransactionInputsHash sha3_256 (mkTransactionPrefix TRANSACTION_VERSION_1 (ctx_txType signing) unlock txins [] ext) in
  let* (r, sumOut) := build_outputs ih 0 outs 0 in
  check negb (sumIn <? sumOut) else "buildPqTransaction: outputs exceed inputs" ;;
  let fee := sumIn - sumOut in
  let p := mkTransactionPrefix TRANSACTION_VERSION_1 (ctx_txType signing) unlock txins (fst r) ext in
  let* u := pqUnsignedTx (mkTransaction p []) fee in
  let signers := signers_of txins in
  Ok (mkBuildResult (mkTransaction p (sign_all inputAuth signers (signing_digests sha3_256 signing u signers))) (snd r)).

Definition buildPqTransaction (ins : list PqSpendInput) (outs : list PqSendOutput) (inputAuth : list PqInputAuth) (unlock : Z) (ext : bytes)
  (signing : PqSigningContext) : result string Transaction :=
  let* r := buildPqTransactionWithProof ins outs inputAuth unlock ext signing in Ok (br_tx r).

(** The overloads with one key pair for every input; the second signs under the
    default context. *)
Definition buildPqTransaction_single (ins : list PqSpendInput) (outs : list PqSendOutput) (spendPub spendSk : bytes) (unlock : Z) (ext : bytes)
  (signing : PqSigningContext) : result string Transaction :=
  buildPqTransaction ins outs (repeat (mkPqInputAuth spendPub spendSk) (length ins)) unlock ext signing.
Definition defaultSigningContext : PqSigningContext := mkPqSigningContext false NULL_HASH false TX_PQ.
Definition buildPqTransactionWithProof_single (ins : list PqSpendInput) (outs : list PqSendOutput) (spendPub spendSk : bytes) (unlock : Z) (ext : bytes)
  : result string PqTransactionBuildResult :=
  buildPqTransactionWithProof ins outs (repeat (mkPqInputAuth spendPub spendSk) (length ins)) unlock ext defaultSigningContext.

End Build.

(** ** The view of a payment proof *)

Fixpoint proof_outputs (outs : list TransactionOutput) (i : Z) : result string (list PqScanOutput) :=
  match outs with
  | [] => Ok []
  | out :: outs =>
      match target out with
      | OutPq wire =>
          check negb (negb (len (kemCt wire) =? PQ_KEM_CIPHERTEXT_SIZE) || negb (len (encPayload wire) =? PQ_ENC_PAYLOAD_SIZE))
            else "makePqPaymentProofTransaction: malformed non-PQ output" ;;
          let* rest := proof_outputs outs (w32 (i + 1)) in
          Ok (mkPqScanOutput i (amount out) (kemCt wire) (encPayload wire) (pq_spendCommit wire) :: rest)
      | _ => Err "makePqPaymentProofTransaction: malformed non-PQ output"
      end
  end.
Definition makePqPaymentProofTransaction (sha3_256 cn_fast_hash : bytes -> bytes) (tx : Transaction) : result string PqPaymentProofTransaction :=
  let* outs := proof_outputs (outputs (prefix tx)) 0 in
  Ok (mkProofTransaction (snd (getObjectHash cn_fast_hash tx_codec tx)) (pqTransactionInputsHash sha3_256 (prefix tx)) outs).

(** ** Free registration *)

Definition buildFreeRegTransaction (viewPub spendPub refBlockHash : bytes) (nonce : Z) : Transaction :=
  let ext := addPqAccountRegistrationToExtra [] viewPub spendPub in
  let ext := appendPowTagToExtra ext refBlockHash nonce in
  mkTransaction (mkTransactionPrefix TRANSACTION_VERSION_1 TX_FREE_REG 0 [] [] ext) [].

End PqTransactionBuilder.
Import PqTransactionBuilder.

(** ** What is built *)

(** The inputs the loop pushes. *)
Definition ref_of (grouped : bool) (earlier : list PqInputAuth) (a : PqInputAuth) : Z :=
  if grouped then first_of_key earlier 0 (ia_spendPub a) else PQ_NO_KEY_REF.
Fixpoint input_list (grouped : bool) (earlier : list PqInputAuth) (l : list (PqSpendInput * PqInputAuth)) : list PqInput :=
  match l with
  | [] => []
  | (si, a) :: l =>
      mkPqInput (si_prevTxid si) (si_prevOutIndex si) (ia_spendPub a) (si_rho si) (ref_of grouped earlier a) :: input_list grouped (earlier ++ [a]) l
  end.

(** A running 64-bit sum passes its overflow test exactly when the true sum fits. *)
Lemma sum_test s a : in_w 64 s -> in_w 64 a -> negb (w64 (s + a) <? s) = (s + a <? 2 ^ 64).
Proof.
  intros Hs Ha. destruct (Z.ltb_spec (s + a) (2 ^ 64)) as [L|L].
  - rewrite wrap_small by (unfold in_w in *; lia). unfold in_w in *. lia.
  - apply not_true_iff_false. intros H. apply sum_step in H as [_ H]; [|assumption..]. unfold in_w in H. lia.
Qed.

Lemma amounts_total_nonneg l : Forall (in_w 64) l -> 0 <= total l.
Proof. induction 1 as [|x l Hx _ IH]; cbn; [lia|]. unfold in_w, total in *. lia. Qed.

Lemma build_inputs_iff grouped ins : forall auth earlier s x s', length auth = length ins -> in_w 64 s -> Forall (fun si => in_w 64 (si_amount si)) ins ->
  build_inputs grouped earlier ins auth s = Ok (x, s') <->
  x = map InPq (input_list grouped earlier (combine ins auth)) /\ s' = s + total (map si_amount ins) /\ s' < 2 ^ 64.
Proof.
  induction ins as [|si ins IH]; intros [|a auth] earlier s x s' L Hs F; try discriminate; cbn [build_inputs combine input_list map total fold_right].
  - rewrite Z.add_0_r. unfold in_w in Hs. split; [intros; inv_ok; repeat split; lia|intros (-> & -> & _); reflexivity].
  - inversion_clear F as [|? ? Ha Fs]. rewrite sum_test by assumption.
    assert (P := amounts_total_nonneg (map si_amount ins) (proj2 (Forall_map _ _ _) Fs)). unfold total in P.
    destruct (Z.ltb_spec (s + si_amount si) (2 ^ 64)) as [B|B]; cbn [guard bind].
    2: { split; [discriminate|]. unfold total. lia. }
    rewrite wrap_small by (unfold in_w in *; lia). assert (Hs' : in_w 64 (s + si_amount si)) by (unfold in_w in *; lia).
    assert (IH' := fun x s' => IH auth (earlier ++ [a]) (s + si_amount si) x s' ltac:(cbn in L; lia) Hs' Fs). fold (total (map si_amount ins)).
    replace (s + (si_amount si + total (map si_amount ins))) with (s + si_amount si + total (map si_amount ins)) by lia.
    unfold ref_of. destruct (build_inputs grouped (earlier ++ [a]) ins auth (s + si_amount si)) as [[rest sum]|e]; cbn [bind].
    + specialize (IH' rest sum). destruct IH' as [IH' _]. destruct (IH' eq_refl) as (-> & -> & B').
      split; [intros; inv_ok; auto|intros (-> & -> & _); reflexivity].
    + split; [discriminate|]. intros (-> & -> & B'). discriminate (proj2 (IH' _ _) (conj eq_refl (conj eq_refl B'))).
Qed.

Lemma input_list_length grouped l : forall earlier, length (input_list grouped earlier l) = length l.
Proof. induction l as [|[si a] l IH]; intros; cbn; [reflexivity|]. now rewrite IH. Qed.

Lemma input_list_app grouped l l' : forall earlier,
  input_list grouped earlier (l ++ l') = input_list grouped earlier l ++ input_list grouped (earlier ++ map snd l) l'.
Proof.
  induction l as [|[si a] l IH]; intros earlier; cbn; [now rewrite app_nil_r|]. rewrite IH, <- app_assoc. reflexivity.
Qed.

(** The reference names the first input of the key. *)
Lemma first_of_key_cases earlier : forall j pub, first_of_key earlier j pub = PQ_NO_KEY_REF \/
  exists l a l', earlier = l ++ a :: l' /\ ia_spendPub a = pub /\ first_of_key earlier j pub = j + Z.of_nat (length l) /\
    (forall j', first_of_key l j' pub = PQ_NO_KEY_REF).
Proof.
  induction earlier as [|a earlier IH]; intros j pub; cbn [first_of_key]; [now left|]. destruct (_ ==b pub) eqn:E.
  - right. exists [], a, earlier. apply bytes_eqb_eq in E. cbn [length app first_of_key]. repeat split; [exact E|lia].
  - destruct (IH (j + 1) pub) as [H|(l & b & l' & -> & Hb & Hr & Hf)]; [now left|]. right. exists (a :: l), b, l'.
    cbn [length app first_of_key]. rewrite E. repeat split; [exact Hb|rewrite Hr; lia|]. intros j'. apply Hf.
Qed.

Lemma input_list_structure grouped l : structure_ok (map InPq (input_list grouped [] l)).
Proof.
  intros before x after E. apply map_eq_app in E as (k1 & k2 & E & <- & E2). apply map_eq_cons in E2 as (i & k3 & -> & <- & <-).
  exists i. split; [reflexivity|]. intros Hk.
  set (l1 := firstn (length k1) l). assert (El : l = l1 ++ skipn (length k1) l) by (symmetry; apply firstn_skipn).
  assert (Ll : (length k1 < length l)%nat) by (rewrite <- (input_list_length grouped l []), E, length_app; cbn; lia).
  rewrite El, input_list_app in E. cbn [app] in E. apply app_inj_len in E as [E1 E2]; [|rewrite input_list_length; unfold l1; rewrite length_firstn; lia].
  destruct (skipn (length k1) l) as [|[si a] l2]; [discriminate|]. cbn [input_list] in E2. injection E2 as Ei _. subst i.
  cbn [keyRef authPub] in *. unfold ref_of in *. destruct grouped; [|contradiction].
  destruct (first_of_key_cases (map snd l1) 0 (ia_spendPub a)) as [H|(m & b & m' & Em & Hb & Hr & Hf)]; [contradiction|].
  apply map_eq_app in Em as (n & n' & En & <- & Em). apply map_eq_cons in Em as ([sj b'] & n'' & -> & <- & <-). cbn [snd] in *.
  rewrite En, input_list_app in E1. cbn [app input_list] in E1. rewrite Hr, length_map. rewrite Z.add_0_l, Nat2Z.id.
  eexists. rewrite length_map, <- E1, map_app, length_app, input_list_length. cbn [length map]. split; [lia|].
  rewrite nth_error_app2; rewrite length_map, input_list_length; [|lia]. rewrite Nat.sub_diag. split; [reflexivity|].
  cbn [keyRef authPub]. unfold ref_of. rewrite Hb. split; [apply Hf|reflexivity].
Qed.

(** ** The checks on what is built *)

Section Complete.
Variable sha3_256 : bytes -> bytes.
Variable dsa_verify : bytes -> bytes -> bytes -> bool.

(** Every input at or after [before] is key-carrying or soundly references. *)
Lemma signers_loop_complete allowed rest : forall before, Z.of_nat (length before + length rest) <= 2 ^ 32 -> refs_nonneg rest ->
  (allowed = false -> Forall (fun x => carries_key x = true) rest) ->
  (forall b x a, rest = b ++ x :: a -> auth_ok (before ++ b) x) ->
  signers_loop allowed before rest = Ok (key_positions (Z.of_nat (length before)) rest).
Proof.
  induction rest as [|x rest IH]; intros before L Hn Ha Hs; cbn [signers_loop key_positions length] in *; [reflexivity|].
  inversion_clear Hn as [|? ? Hx Hn']. assert (A := Hs [] x rest eq_refl). rewrite app_nil_r in A. destruct A as (i & -> & Hi).
  assert (IH' : signers_loop allowed (before ++ [InPq i]) rest = Ok (key_positions (Z.of_nat (length before) + 1) rest)).
  { rewrite IH; [f_equal; f_equal; rewrite length_app; cbn [length]; lia|rewrite length_app; cbn [length]; lia|exact Hn'|..].
    - intros E. specialize (Ha E). now inversion Ha.
    - intros b y a ->. rewrite <- app_assoc. apply (Hs (InPq i :: b) y a). reflexivity. }
  cbn [carries_key]. destruct (keyRef i =? PQ_NO_KEY_REF) eqn:K.
  - rewrite IH'. cbn [bind]. now rewrite wrap_small by (unfold in_w; lia).
  - apply Z.eqb_neq in K as K'. destruct allowed.
    2: { specialize (Ha eq_refl). inversion_clear Ha as [|? ? C _]. cbn in C. congruence. }
    cbn [guard bind].
    destruct (proj2 (ref_test before i Hx K') (ex_intro _ i (conj eq_refl Hi))) as (t & Et & Hl & Hk & Hp).
    rewrite Hl, Et. cbn [guard bind]. apply bytes_eqb_eq in Hp. rewrite Hk, Hp, bytes_eqb_refl. exact IH'.
Qed.

Lemma inputs_loop_complete ks : forall resolved computed s, Forall2 (owned sha3_256) ks resolved -> NoDup (computed ++ map (pqNullifier sha3_256) ks) ->
  in_w 64 s -> Forall (fun r => in_w 64 (r_amount r)) resolved -> s + total (map r_amount resolved) < 2 ^ 64 ->
  inputs_loop sha3_256 (map InPq ks) resolved computed s = Ok (computed ++ map (pqNullifier sha3_256) ks, s + total (map r_amount resolved)).
Proof.
  induction ks as [|k ks IH]; intros resolved computed s O N Hs F B; inversion O as [|? r ? rs (V & X & P & C) O']; subst; cbn [map inputs_loop total fold_right].
  - rewrite app_nil_r, Z.add_0_r. reflexivity.
  - inversion_clear F as [|? ? Hr Fr]. cbn [map total fold_right] in B. fold (total (map r_amount rs)) in *.
    assert (T0 := amounts_total_nonneg (map r_amount rs) (proj2 (Forall_map _ _ _) Fr)). cbn [get_PqInput bind]. rewrite V, X, P, C, bytes_eqb_refl. cbn [guard bind].
    replace (existsb _ computed) with false.
    2: { symmetry. apply not_true_iff_false. intros H. apply existsb_exists in H as (y & Iy & E). apply bytes_eqb_eq in E. subst y.
         cbn [map] in N. apply NoDup_remove_2 in N. apply N. apply in_or_app. now left. }
    cbn [negb guard bind]. rewrite sum_test by assumption. replace (s + r_amount r <? 2 ^ 64) with true by (unfold in_w in *; lia). cbn [guard bind].
    rewrite wrap_small by (unfold in_w in *; lia). rewrite IH; try assumption.
    + rewrite <- app_assoc. f_equal. f_equal. lia.
    + rewrite <- app_assoc. exact N.
    + unfold in_w in *. lia.
    + lia.
Qed.

Lemma outputs_loop_complete outs : forall s, in_w 64 s -> Forall (fun o => in_w 64 (amount o)) outs -> s + total (map amount outs) < 2 ^ 64 ->
  outputs_loop outs s = Ok (s + total (map amount outs)).
Proof.
  induction outs as [|o outs IH]; intros s Hs F B; cbn [outputs_loop map total fold_right] in *; [now rewrite Z.add_0_r|].
  inversion_clear F as [|? ? Ho Fo]. fold (total (map amount outs)) in *. assert (T0 := amounts_total_nonneg (map amount outs) (proj2 (Forall_map _ _ _) Fo)).
  rewrite sum_test by assumption. replace (s + amount o <? 2 ^ 64) with true by (unfold in_w in *; lia). cbn [guard bind].
  rewrite wrap_small by (unfold in_w in *; lia). rewrite IH; [f_equal; lia|unfold in_w in *; lia|exact Fo|lia].
Qed.

Lemma verify_loop_complete ins signers : forall digests sigs,
  (forall s d g, In (s, (d, g)) (combine signers (combine digests sigs)) ->
    exists i, nth_error ins (Z.to_nat s) = Some (InPq i) /\ dsa_verify (authPub i) d g = true) ->
  verify_loop dsa_verify ins signers digests sigs = Ok tt.
Proof.
  induction signers as [|s signers IH]; intros [|d digests] [|g sigs] H; try reflexivity. cbn [verify_loop].
  destruct (H s d g (or_introl eq_refl)) as (i & Hn & V). rewrite (nth_error_nth _ _ _ Hn). cbn [get_PqInput bind]. rewrite V. cbn [guard bind].
  apply IH. intros s' d' g' I. apply H. now right.
Qed.

End Complete.

Lemma key_positions_range ins : forall n s, In s (key_positions n ins) -> n <= s < n + Z.of_nat (length ins).
Proof.
  induction ins as [|x ins IH]; intros n s H; cbn [key_positions length] in *; [contradiction|].
  destruct (carries_key x); [destruct H as [<-|H]; [lia|]|]; apply IH in H; lia.
Qed.
Lemma key_positions_length ins : forall n, length (key_positions n ins) = pqCount ins.
Proof. induction ins as [|x ins IH]; intros n; cbn; [reflexivity|]. unfold pqCount in *. cbn. destruct (carries_key x); cbn; now rewrite IH. Qed.

(** ** The transaction *)

Section Transfer.
Variable sha3_256 : bytes -> bytes.
Variable chacha_encrypt : bytes -> bytes -> bytes -> bytes -> bytes.
Variable chacha_decrypt : bytes -> bytes -> bytes -> bytes -> option bytes.
Context {aead : Aead chacha_encrypt chacha_decrypt}.
Variable dsa_sign : bytes -> bytes -> bytes.
Variable dsa_verify : bytes -> bytes -> bytes -> bool.
Variable randomness : nat -> bytes * bytes * bytes.
(** The widths of the arrays the randomness fills. *)
Hypothesis randomness_sized : forall i, length (fst (fst (randomness i))) = 1088%nat /\ length (snd (randomness i)) = 32%nat.

Abbreviation build := (buildPqTransactionWithProof sha3_256 chacha_encrypt chacha_decrypt dsa_sign randomness).

Definition built_output (ih : bytes) (i : nat) (so : PqSendOutput) : PqBuiltOutput :=
  buildPqOutput sha3_256 chacha_encrypt (fst (fst (randomness i))) (snd (fst (randomness i))) (recipientSpendPub so) ih (Z.of_nat i) (so_amount so)
    (snd (randomness i)) (so_subaddrIndexT so).
Definition wire_output (so : PqSendOutput) (b : PqBuiltOutput) : TransactionOutput :=
  mkTransactionOutput (so_amount so) (so_unlockHeight so) (OutPq (mkPqOutput (b_kemCt b) (b_encPayload b) (b_spendCommit b))).
Fixpoint output_list (ih : bytes) (i : nat) (outs : list PqSendOutput) : list TransactionOutput :=
  match outs with
  | [] => []
  | so :: outs => wire_output so (built_output ih i so) :: output_list ih (S i) outs
  end.
Definition rho_list (i n : nat) : list bytes := map (fun j => snd (randomness j)) (seq i n).

(** The widths of the C++ fields. *)
Definition out_typed (so : PqSendOutput) : Prop := in_w 64 (so_amount so) /\ in_w 64 (so_subaddrIndexT so).

Lemma build_outputs_iff ih outs : forall i s o rhos s', in_w 64 s -> Forall out_typed outs ->
  build_outputs sha3_256 chacha_encrypt chacha_decrypt randomness ih i outs s = Ok (o, rhos, s') <->
  o = output_list ih i outs /\ rhos = rho_list i (length outs) /\ s' = s + total (map so_amount outs) /\ s' < 2 ^ 64.
Proof.
  induction outs as [|so outs IH]; intros i s o rhos s' Hs F; cbn [build_outputs output_list map total fold_right].
  - rewrite Z.add_0_r. unfold in_w in Hs. split; [intros; inv_ok; repeat split; lia|intros (-> & -> & -> & _); reflexivity].
  - inversion_clear F as [|? ? [Ha Ht] Fs]. destruct (randomness_sized i) as [Lc Lr]. destruct (randomness i) as [[ct ss] rho] eqn:R.
    cbn [fst snd] in *. rewrite built_checked by assumption. rewrite sum_test by assumption.
    assert (P : 0 <= total (map so_amount outs)) by exact (amounts_total_nonneg _ (proj2 (Forall_map _ _ _) (Forall_impl _ (fun _ H => proj1 H) Fs))).
    fold (total (map so_amount outs)). destruct (Z.ltb_spec (s + so_amount so) (2 ^ 64)) as [B|B]; cbn [guard bind]; [|split; [discriminate|lia]].
    rewrite wrap_small by (unfold in_w in *; lia). assert (Hs' : in_w 64 (s + so_amount so)) by (unfold in_w in *; lia).
    assert (IH' := fun o rhos s' => IH (S i) (s + so_amount so) o rhos s' Hs' Fs).
    replace (s + (so_amount so + total (map so_amount outs))) with (s + so_amount so + total (map so_amount outs)) by lia.
    unfold built_output, rho_list. rewrite R. cbn [fst snd length seq map]. rewrite R.
    destruct (build_outputs sha3_256 chacha_encrypt chacha_decrypt randomness ih (S i) outs (s + so_amount so)) as [[[o' rhos'] sum]|e]; cbn [bind fst snd].
    + destruct (proj1 (IH' o' rhos' sum) eq_refl) as (-> & -> & -> & B'). cbn [b_rho buildPqOutput].
      split; [intros; inv_ok; auto|intros (-> & -> & -> & _); reflexivity].
    + split; [discriminate|]. intros (-> & -> & -> & B'). discriminate (proj2 (IH' _ _ _) (conj eq_refl (conj eq_refl (conj eq_refl B')))).
Qed.

Lemma traverse_map {A B C} (f : B -> result string C) (g : A -> B) (h : A -> C) l : (forall x, f (g x) = Ok (h x)) -> traverse f (map g l) = Ok (map h l).
Proof. intros H. induction l as [|x l IH]; cbn; [reflexivity|]. now rewrite H, IH. Qed.

(** A transfer's inputs, prefix and signed form. *)
Definition transfer_inputs (signing : PqSigningContext) (ins : list PqSpendInput) (auth : list PqInputAuth) : list TransactionInput :=
  map InPq (input_list (groupedAuth signing) [] (combine ins auth)).
Definition transfer_hash (signing : PqSigningContext) (ins : list PqSpendInput) (auth : list PqInputAuth) : bytes :=
  pqTransactionInputsHash sha3_256 (mkTransactionPrefix TRANSACTION_VERSION_1 (ctx_txType signing) 0 (transfer_inputs signing ins auth) [] []).
Definition transfer_prefix (signing : PqSigningContext) (ins : list PqSpendInput) (auth : list PqInputAuth) (outs : list PqSendOutput) (ext : bytes)
  : TransactionPrefix :=
  mkTransactionPrefix TRANSACTION_VERSION_1 (ctx_txType signing) 0 (transfer_inputs signing ins auth)
    (output_list (transfer_hash signing ins auth) 0 outs) ext.
Definition transfer_fee (ins : list PqSpendInput) (outs : list PqSendOutput) : Z := total (map si_amount ins) - total (map so_amount outs).
Definition digest_view (p : TransactionPrefix) (fee : Z) : UnsignedTx :=
  match pqUnsignedTx (mkTransaction p []) fee with Ok u => u | Err _ => mkUnsignedTx 0 0 0 [] [] [] 0 end.
Definition transfer (signing : PqSigningContext) (ins : list PqSpendInput) (auth : list PqInputAuth) (outs : list PqSendOutput) (ext : bytes) : Transaction :=
  let p := transfer_prefix signing ins auth outs ext in
  let signers := key_positions 0 (inputs p) in
  mkTransaction p (sign_all dsa_sign auth signers (signing_digests sha3_256 signing (digest_view p (transfer_fee ins outs)) signers)).

Lemma output_list_targets ih outs : forall i, Forall (fun o => exists p, target o = OutPq p) (output_list ih i outs).
Proof. induction outs as [|so outs IH]; intros i; constructor; [eexists; reflexivity|apply IH]. Qed.

Lemma digest_view_ok p fee : Forall (fun o => exists po, target o = OutPq po) (outputs p) -> (exists ks, inputs p = map InPq ks) ->
  forall sigs, pqUnsignedTx (mkTransaction p sigs) fee = Ok (digest_view p fee).
Proof.
  intros F (ks & E) sigs. unfold digest_view, pqUnsignedTx. cbn [prefix]. rewrite E.
  erewrite (traverse_map digest_input InPq) by reflexivity. cbn [bind].
  assert (O : exists l, traverse digest_output (outputs p) = Ok l).
  { induction F as [|o l (po & Eo) _ (l' & IH)]; [eexists; reflexivity|]. cbn. unfold digest_output at 1. rewrite Eo. cbn [get_PqOutput bind]. rewrite IH. eexists. reflexivity. }
  destruct O as (l & ->). reflexivity.
Qed.

(** When the wallet can build at all. *)
Definition buildable (signing : PqSigningContext) (ins : list PqSpendInput) (auth : list PqInputAuth) (outs : list PqSendOutput) : Prop :=
  1 <= Z.of_nat (length ins) <= (if groupedAuth signing then 256 else 32) /\ 1 <= Z.of_nat (length outs) <= 64 /\
  length auth = length ins /\ (groupedAuth signing = true -> useV2 signing = true) /\
  (pqCount (transfer_inputs signing ins auth) <= 32)%nat /\
  total (map so_amount outs) <= total (map si_amount ins) < 2 ^ 64.

Section Built.
Variables (ins : list PqSpendInput) (outs : list PqSendOutput) (auth : list PqInputAuth) (ext : bytes) (signing : PqSigningContext).
Hypothesis ins_typed : Forall (fun si => in_w 64 (si_amount si)) ins.
Hypothesis outs_typed : Forall out_typed outs.

Lemma transfer_unsigned sigs : let p := transfer_prefix signing ins auth outs ext in
  pqUnsignedTx (mkTransaction p sigs) (transfer_fee ins outs) = Ok (digest_view p (transfer_fee ins outs)).
Proof. apply digest_view_ok; [apply output_list_targets|eexists; reflexivity]. Qed.

Lemma build_iff unlock r : build ins outs auth unlock ext signing = Ok r <->
  unlock = 0 /\ buildable signing ins auth outs /\ r = mkBuildResult (transfer signing ins auth outs ext) (rho_list 0 (length outs)).
Proof.
  unfold buildPqTransactionWithProof, buildable, parameters.MAX_PQ_GROUPED_INPUTS_PER_TX, parameters.MAX_PQ_INPUTS_PER_TX, parameters.MAX_PQ_OUTPUTS_PER_TX, key_count. split.
  - intros H. do 7 inv_bind H. inv_bind H. destruct a6 as [txins sumIn]. inv_bind H. inv_bind H. destruct a7 as [[o rhos] sumOut]. inv_bind H. inv_guard. bprop.
    apply build_inputs_iff in E6 as (-> & -> & B); [|lia|split; lia|assumption]. apply build_outputs_iff in E8 as (-> & -> & -> & _); [|split; lia|assumption].
    assert (unlock = 0) as -> by lia. split; [reflexivity|]. cbn [fst snd] in H. rewrite !Z.add_0_l in *. change (map InPq _) with (transfer_inputs signing ins auth) in *.
    change (pqTransactionInputsHash _ _) with (transfer_hash signing ins auth) in H.
    change (mkTransactionPrefix _ _ _ _ _ _) with (transfer_prefix signing ins auth outs ext) in H. rewrite transfer_unsigned in H. cbn [bind] in H. inv_ok.
    split; [|reflexivity]. unfold pqCount. destruct (groupedAuth signing), (useV2 signing); cbn in *; try discriminate; repeat split; lia || auto.
  - intros (-> & (Li & Lo & La & Hg & Hk & Ht) & ->).
    assert (Li' := proj1 Li). replace (length ins =? 0)%nat with false by (symmetry; apply Nat.eqb_neq; lia).
    replace (length outs =? 0)%nat with false by (symmetry; apply Nat.eqb_neq; lia). rewrite La, Nat.eqb_refl. cbn [negb guard bind Z.eqb].
    replace (groupedAuth signing && negb (useV2 signing)) with false by (destruct (groupedAuth signing); [now rewrite Hg|reflexivity]). cbn [negb guard bind].
    replace (_ <? Z.of_nat (length ins)) with false by (destruct (groupedAuth signing); lia). replace (64 <? Z.of_nat (length outs)) with false by lia. cbn [negb guard bind].
    rewrite (proj2 (build_inputs_iff _ ins auth [] 0 _ _ La (conj (Z.le_refl 0) eq_refl) ins_typed) (conj eq_refl (conj eq_refl (proj2 Ht)))). cbn [bind].
    change (map InPq _) with (transfer_inputs signing ins auth). replace (32 <? _) with false by (unfold pqCount in Hk; lia). cbn [negb guard bind].
    change (pqTransactionInputsHash _ _) with (transfer_hash signing ins auth).
    rewrite (proj2 (build_outputs_iff _ outs 0 0 _ _ _ (conj (Z.le_refl 0) eq_refl) outs_typed) (conj eq_refl (conj eq_refl (conj eq_refl (Z.le_lt_trans _ _ _ (proj1 Ht) (proj2 Ht)))))).
    cbn [bind fst snd]. rewrite !Z.add_0_l. replace (_ <? _) with false by lia. cbn [negb guard bind].
    change (mkTransactionPrefix _ _ _ _ _ _) with (transfer_prefix signing ins auth outs ext). rewrite transfer_unsigned. reflexivity.
Qed.

(** An input is backed by the output the chain has for it: the key and the opening
    it reveals are those the output commits to, and the amount is right. *)
Definition backed (x : PqSpendInput * PqInputAuth) (r : PqResolvedInput) : Prop :=
  len (ia_spendPub (snd x)) = PQ_AUTH_PUB_SIZE /\ len (si_rho (fst x)) = PQ_RHO_SIZE /\ r_exists r = true /\ r_isPqOutput r = true /\
  r_spendCommit r = spendCommit sha3_256 (ia_spendPub (snd x)) (si_rho (fst x)) /\ r_amount r = si_amount (fst x).
(** A key pair of ML-DSA: what the secret signs, the public key verifies. *)
Definition signs (a : PqInputAuth) : Prop := forall m, dsa_verify (ia_spendPub a) m (dsa_sign (ia_spendSk a) m) = true.
Definition spent_outpoint (si : PqSpendInput) : bytes * Z := (si_prevTxid si, si_prevOutIndex si).
Definition outpoint_typed (si : PqSpendInput) : Prop := length (si_prevTxid si) = 32%nat /\ in_w 32 (si_prevOutIndex si).

Lemma backed_owned grouped l resolved : Forall2 backed l resolved -> forall earlier, Forall2 (owned sha3_256) (input_list grouped earlier l) resolved.
Proof.
  induction 1 as [|[si a] r l rs (Lp & Lr & X & P & C & _) _ IH]; intros earlier; constructor; [|apply IH].
  unfold owned, pqInputFieldsValid. cbn [authPub rhoReveal fst snd] in *. rewrite Lp, Lr. auto.
Qed.

Lemma backed_amounts l resolved : Forall2 backed l resolved -> map r_amount resolved = map si_amount (map fst l).
Proof. induction 1 as [|x r l rs (_ & _ & _ & _ & _ & A) _ IH]; cbn; [reflexivity|]. now rewrite A, IH. Qed.

Lemma fst_combine {A B} (l : list A) : forall (l' : list B), length l' = length l -> map fst (combine l l') = l.
Proof. induction l as [|x l IH]; intros [|y l'] L; try discriminate; cbn; [reflexivity|]. rewrite IH; [reflexivity|]. now injection L. Qed.
Lemma snd_combine {A B} (l : list A) : forall (l' : list B), length l' = length l -> map snd (combine l l') = l'.
Proof. induction l as [|x l IH]; intros [|y l'] L; try discriminate; cbn; [reflexivity|]. rewrite IH; [reflexivity|]. now injection L. Qed.

Lemma input_list_outpoints grouped l : forall earlier, map outpoint (input_list grouped earlier l) = map spent_outpoint (map fst l).
Proof. induction l as [|[si a] l IH]; intros earlier; cbn; [reflexivity|]. now rewrite IH. Qed.

Lemma input_list_nth grouped l : forall earlier n x, nth_error (input_list grouped earlier l) n = Some x ->
  exists si a, nth_error l n = Some (si, a) /\ authPub x = ia_spendPub a /\ rhoReveal x = si_rho si /\ outpoint x = spent_outpoint si.
Proof.
  induction l as [|[si a] l IH]; intros earlier [|n] x H; try discriminate; cbn in H.
  - injection H as <-. exists si, a. repeat split.
  - exact (IH _ _ _ H).
Qed.

Definition nullified (i : PqInput) : bytes := hashed (DNullifier (authPub i) (rhoReveal i) (prevTxid i) (prevOutIndex i)).

(** Different outputs have different nullifiers. *)
Lemma nullifiers_distinct ks : Forall (fun i => pqInputFieldsValid i = true /\ length (prevTxid i) = 32%nat /\ in_w 32 (prevOutIndex i)) ks ->
  NoDup (map outpoint ks) -> NoDup (map (pqNullifier sha3_256) ks) \/ collides sha3_256 (map nullified ks).
Proof.
  induction 1 as [|x ks (Vx & Lx & Ix) F IH]; intros N; cbn in *; [left; constructor|]. inversion_clear N as [|? ? Nx Nk].
  destruct (IH Nk) as [IHn|C]; [|right; revert C; apply collides_incl, incl_tl, incl_refl].
  destruct (in_dec bytes_eq_dec (pqNullifier sha3_256 x) (map (pqNullifier sha3_256) ks)) as [I|I]; [right|left; now constructor].
  apply in_map_iff in I as (y & E & Hy). rewrite Forall_forall in F. destruct (F y Hy) as (Vy & Ly & Iy).
  pose proof Vx as Vx'. pose proof Vy as Vy'. unfold pqInputFieldsValid, len in Vx', Vy'. bprop. change PQ_AUTH_PUB_SIZE with 1952 in *. change PQ_RHO_SIZE with 32 in *.
  unfold pqNullifier in E. rewrite Vx, Vy in E. cbn [negb] in E. symmetry in E.
  apply nullifier_inj in E; [|unfold sized; assumption || lia ..]. destruct E as [(_ & _ & Et & Ei)|C].
  - exfalso. apply Nx. apply in_map_iff. exists y. split; [|exact Hy]. unfold outpoint. now rewrite Et, Ei.
  - revert C. apply collides_incl. intros z [<-|[<-|[]]]; [now left|right; now apply (in_map nullified)].
Qed.

Lemma transfer_refs : refs_nonneg (transfer_inputs signing ins auth).
Proof.
  unfold refs_nonneg, transfer_inputs. rewrite Forall_map. generalize (@nil PqInputAuth).
  induction (combine ins auth) as [|[si a] l IH]; intros earlier; constructor; [|apply IH]. cbn [keyRef]. unfold ref_of. destruct (groupedAuth signing); [|easy].
  destruct (first_of_key_cases earlier 0 (ia_spendPub a)) as [->|(l1 & b & l2 & _ & _ & -> & _)]; [easy|lia].
Qed.

Lemma transfer_carries : groupedAuth signing = false -> Forall (fun x => carries_key x = true) (transfer_inputs signing ins auth).
Proof.
  intros G. unfold transfer_inputs. rewrite G, Forall_map. generalize (@nil PqInputAuth).
  induction (combine ins auth) as [|[si a] l IH]; intros earlier; constructor; [reflexivity|apply IH].
Qed.

Lemma output_list_amounts ih l : forall i, map amount (output_list ih i l) = map so_amount l.
Proof. induction l as [|so l IH]; intros i; cbn; [reflexivity|]. now rewrite IH. Qed.
Lemma output_list_length ih l : forall i, length (output_list ih i l) = length l.
Proof. induction l as [|so l IH]; intros i; cbn; [reflexivity|]. now rewrite IH. Qed.
Lemma output_list_nth ih l : forall i n so, nth_error l n = Some so ->
  nth_error (output_list ih i l) n = Some (wire_output so (built_output ih (i + n) so)).
Proof.
  induction l as [|x l IH]; intros i [|n] so H; try discriminate; cbn in *; [injection H as ->; now rewrite Nat.add_0_r|].
  rewrite Nat.add_succ_r, <- Nat.add_succ_l. now apply IH.
Qed.

Lemma output_list_ok ih l : Forall (fun so => so_amount so <> 0) l -> forall i, Forall output_ok_pq (output_list ih i l).
Proof.
  induction 1 as [|so l Ha _ IH]; intros i; constructor; [|apply IH]. eexists. split; [reflexivity|]. split; [exact Ha|].
  destruct (randomness_sized i) as [Lc Lr]. unfold pqOutputFieldsValid, built_output, len. cbn [kemCt encPayload b_kemCt b_encPayload buildPqOutput].
  unfold aead_encrypt. rewrite aead_size, length_app, Lc, Lr. unfold le64. rewrite length_le_split. reflexivity.
Qed.

(** The signatures are those the check verifies. *)
Lemma transfer_verifies u : length auth = length ins -> Forall signs auth ->
  let x := transfer_inputs signing ins auth in
  verify_loop dsa_verify x (key_positions 0 x) (signing_digests sha3_256 signing u (key_positions 0 x))
    (sign_all dsa_sign auth (key_positions 0 x) (signing_digests sha3_256 signing u (key_positions 0 x))) = Ok tt.
Proof.
  intros La F x. apply verify_loop_complete. intros s d g I. unfold sign_all in I. set (P := key_positions 0 x) in *. rewrite signing_digests_map in I.
  assert (R : forall q, In q P -> 0 <= q < Z.of_nat (length x)) by (intros q Hq; pose proof (key_positions_range x 0 q Hq); lia).
  assert (Hs : In s P /\ g = dsa_sign (ia_spendSk (nth (Z.to_nat s) auth (mkPqInputAuth [] []))) d).
  { clear R. revert I. induction P as [|q P IH]; cbn; [intros []|]. intros [E|I]; [injection E as <- <- <-; auto|]. destruct (IH I). auto. }
  destruct Hs as (Hs & ->). specialize (R s Hs). unfold x, transfer_inputs in *. rewrite length_map in R.
  destruct (nth_error (input_list (groupedAuth signing) [] (combine ins auth)) (Z.to_nat s)) as [i|] eqn:N; [|apply nth_error_None in N; lia].
  exists i. rewrite nth_error_map, N. split; [reflexivity|]. apply input_list_nth in N as (si & a & N & -> & _).
  assert (Na : nth_error auth (Z.to_nat s) = Some a) by (rewrite <- (snd_combine ins auth La), nth_error_map, N; reflexivity).
  rewrite (nth_error_nth _ _ _ Na). rewrite Forall_forall in F. apply (F a). exact (nth_error_In _ _ Na).
Qed.

Lemma sign_all_length x u : length (sign_all dsa_sign auth (key_positions 0 x) (signing_digests sha3_256 signing u (key_positions 0 x))) = pqCount x.
Proof. unfold sign_all. rewrite signing_digests_map, length_map, length_combine, length_map, Nat.min_id. apply key_positions_length. Qed.

Abbreviation sent := (transfer signing ins auth outs ext).
Abbreviation nullified_inputs := (map nullified (input_list (groupedAuth signing) [] (combine ins auth))).

Lemma transfer_shape resolved : buildable signing ins auth outs -> Forall2 backed (combine ins auth) resolved -> isPqTransfer (ctx_txType signing) = true ->
  Forall (fun so => so_amount so <> 0) outs -> len ext <= 4096 -> serialized_size sent <= 262144 -> pq_shape sent.
Proof.
  intros (Li & Lo & La & Hg & Hk & Ht) B T Z0 Le Ls. unfold pq_shape. unfold transfer at 1 2 3 4 5 6 7 8 9 10 11 12. cbn [prefix pqSignatures].
  unfold transfer_prefix. cbn [txType inputs outputs unlockHeight extra].
  assert (Lx : length (transfer_inputs signing ins auth) = length ins) by (unfold transfer_inputs; rewrite length_map, input_list_length, length_combine; lia).
  split; [exact T|]. split; [rewrite Lx; destruct (groupedAuth signing); lia|]. split; [rewrite output_list_length; exact Lo|]. split; [reflexivity|].
  split; [|split; [apply input_list_structure|split; [exact Hk|split; [apply sign_all_length|split; [exact Le|split; [now apply output_list_ok|exact Ls]]]]]].
  unfold transfer_inputs. rewrite Forall_map. pose proof (backed_owned (groupedAuth signing) _ _ B []) as O.
  clear - O. induction O as [|k r ks rs Hk' _ IH]; [constructor|]. constructor; [exists k; split; [reflexivity|apply Hk']|exact IH].
Qed.

Lemma transfer_nullifiers resolved : length auth = length ins -> Forall2 backed (combine ins auth) resolved -> NoDup (map spent_outpoint ins) -> Forall outpoint_typed ins ->
  NoDup (map (pqNullifier sha3_256) (input_list (groupedAuth signing) [] (combine ins auth))) \/ collides sha3_256 nullified_inputs.
Proof.
  intros La B N F. apply nullifiers_distinct.
  - apply Forall_forall. intros i I. apply In_nth_error in I as (n & I). pose proof I as I'. apply input_list_nth in I as (si & a & C & _ & _ & Eo).
    assert (T : outpoint_typed si) by (rewrite Forall_forall in F; apply F; exact (in_combine_l _ _ _ _ (nth_error_In _ _ C))).
    injection Eo as -> ->. split; [|exact T]. pose proof (backed_owned (groupedAuth signing) _ _ B []) as O.
    clear - O I'. revert n I'. induction O as [|k r ks rs (V & _) _ IH]; intros [|n] I; try discriminate; [injection I as <-; exact V|exact (IH n I)].
  - now rewrite input_list_outpoints, fst_combine.
Qed.

Lemma transfer_inputs_check resolved minFee : buildable signing ins auth outs -> Forall2 backed (combine ins auth) resolved -> Forall signs auth ->
  NoDup (map (pqNullifier sha3_256) (input_list (groupedAuth signing) [] (combine ins auth))) ->
  minFee = 0 \/ parameters.pqTxFeeFloor minFee (len ext) <= transfer_fee ins outs ->
  checkPqTransactionInputs sha3_256 dsa_verify sent resolved minFee signing =
  Ok (map (pqNullifier sha3_256) (input_list (groupedAuth signing) [] (combine ins auth))).
Proof.
  intros (Li & Lo & La & Hg & Hk & Ht) B S N Hf. set (ks := input_list (groupedAuth signing) [] (combine ins auth)) in *.
  assert (Lx : length (transfer_inputs signing ins auth) = length ins) by (unfold transfer_inputs; rewrite length_map, input_list_length, length_combine; lia).
  assert (Lr : length resolved = length ins) by (rewrite <- (Forall2_length B), length_combine; lia).
  assert (A := backed_amounts _ _ B). rewrite fst_combine in A by exact La.
  assert (Fr : Forall (fun r => in_w 64 (r_amount r)) resolved) by (apply (Forall_map r_amount (in_w 64)); rewrite A; now apply Forall_map).
  assert (P := proj2 (Forall_map so_amount (in_w 64) outs) (Forall_impl _ (fun _ H => proj1 H) outs_typed)). apply amounts_total_nonneg in P as P0.
  unfold checkPqTransactionInputs. unfold transfer at 1 2 3 4 5 6 8. cbn [prefix pqSignatures].
  change (inputs (transfer_prefix signing ins auth outs ext)) with (transfer_inputs signing ins auth).
  change (extra (transfer_prefix signing ins auth outs ext)) with ext.
  change (outputs (transfer_prefix signing ins auth outs ext)) with (output_list (transfer_hash signing ins auth) 0 outs).
  rewrite Lr, Lx, Z.eqb_refl. cbn [guard bind]. rewrite (signers_loop_complete _ _ []); [|cbn [length]; rewrite Lx; destruct (groupedAuth signing); lia|apply transfer_refs| |].
  2: { intros G. apply transfer_carries. destruct (groupedAuth signing); [|reflexivity]. rewrite Hg in G by reflexivity. discriminate. }
  2: { intros b x a E. cbn [app]. exact (input_list_structure _ _ b x a E). }
  cbn [bind length Z.of_nat]. rewrite sign_all_length, key_positions_length, Z.eqb_refl. cbn [guard bind].
  change (transfer_inputs signing ins auth) with (map InPq ks) at 1. rewrite (inputs_loop_complete sha3_256 ks resolved [] 0); [|apply backed_owned; exact B|exact N|easy|exact Fr|rewrite A; lia]. cbn [bind app].
  rewrite outputs_loop_complete; [|easy| |rewrite output_list_amounts; lia].
  2: { apply (Forall_map amount (in_w 64)). rewrite output_list_amounts. exact P. }
  cbn [bind]. rewrite !Z.add_0_l, A, output_list_amounts. fold (transfer_fee ins outs).
  replace (_ <? _) with false by lia. cbn [negb guard bind].
  replace ((minFee =? 0) || _) with true by (destruct Hf as [->|Hf]; [reflexivity|]; lia). cbn [guard bind].
  unfold transfer at 1. rewrite transfer_unsigned. cbn [bind]. unfold transfer. rewrite transfer_verifies by assumption. reflexivity.
Qed.

(** What a wallet builds, the network accepts: a transfer built from outputs the
    chain has, under the keys they commit to, passes the shape check and the input
    check of the consensus rules, grouped or not, provided it declares a transfer
    type, pays at least the fee floor, has no empty output and stays within the size
    limits; the nullifiers the check returns are those of the spent outputs. The one
    exception would be two different outputs with one nullifier, a collision of SHA3. *)
Theorem built_accepted resolved unlock minFee r : build ins outs auth unlock ext signing = Ok r ->
  Forall2 backed (combine ins auth) resolved -> Forall signs auth -> NoDup (map spent_outpoint ins) -> Forall outpoint_typed ins ->
  isPqTransfer (ctx_txType signing) = true -> Forall (fun so => so_amount so <> 0) outs -> len ext <= parameters.MAX_EXTRA_SIZE_PQ ->
  serialized_size (br_tx r) <= parameters.MAX_PQ_TX_SIZE ->
  minFee = 0 \/ parameters.pqTxFeeFloor minFee (len ext) <= total (map si_amount ins) - total (map so_amount outs) ->
  checkPqTransactionSemantic (br_tx r) = Ok tt /\
  (checkPqTransactionInputs sha3_256 dsa_verify (br_tx r) resolved minFee signing =
     Ok (map (fun x => nullifier sha3_256 (ia_spendPub (snd x)) (si_rho (fst x)) (si_prevTxid (fst x)) (si_prevOutIndex (fst x))) (combine ins auth)) \/
   collides sha3_256 nullified_inputs).
Proof.
  intros H B S N T Ty Z0 Le Ls Hf. apply build_iff in H as (-> & Bu & ->); [|assumption..]. cbn [br_tx] in *. split.
  - apply semantic_iff; [apply transfer_refs|]. now apply (transfer_shape resolved).
  - destruct (transfer_nullifiers resolved (proj1 (proj2 (proj2 Bu))) B N T) as [D|C]; [left|now right].
    rewrite (transfer_inputs_check resolved minFee Bu B S D Hf). f_equal. clear - B. revert resolved B. generalize (@nil PqInputAuth).
    induction (combine ins auth) as [|[si a] l IH]; intros earlier resolved B; inversion B as [|? r ? rs (Lp & Lr & _) B']; subst; [reflexivity|].
    cbn [input_list map fst snd]. rewrite (IH _ _ B'). f_equal. unfold pqNullifier, pqInputFieldsValid. cbn [authPub rhoReveal prevTxid prevOutIndex fst snd] in *.
    now rewrite Lp, Lr.
Qed.

(** C34: Every recipient is paid: the output at a recipient's place carries the amount
    and the lock that were asked for, the recipient's wallet recognises it with the
    routing index that was asked for, in every mode of scanning, and the opening
    handed back to the sender is the one the recipient recovers. *)
Theorem built_delivered (kem_decaps : bytes -> bytes -> bytes) unlock r n so keys mode : build ins outs auth unlock ext signing = Ok r ->
  nth_error outs n = Some so -> k_spendPub keys = recipientSpendPub so ->
  kem_decaps (viewSk keys) (fst (fst (randomness n))) = snd (fst (randomness n)) ->
  exists out po w, nth_error (outputs (prefix (br_tx r))) n = Some out /\ target out = OutPq po /\
    amount out = so_amount so /\ out_unlockHeight out = so_unlockHeight so /\
    scanPqOutput sha3_256 kem_decaps chacha_decrypt keys (pqTransactionInputsHash sha3_256 (prefix (br_tx r)))
      (mkPqScanOutput (Z.of_nat n) (amount out) (kemCt po) (encPayload po) (pq_spendCommit po)) mode = Some w /\
    w_amount w = so_amount so /\ w_subaddrIndexT w = so_subaddrIndexT so /\ nth_error (outputRhos r) n = Some (w_rho w).
Proof.
  intros H Hn Ek Hd. apply build_iff in H as (-> & Bu & ->); [|assumption..]. cbn [br_tx outputRhos].
  destruct (proj1 (Forall_forall _ _) outs_typed so (nth_error_In _ _ Hn)) as [_ Ht]. destruct (randomness_sized n) as [_ Lr].
  destruct (built_scanned sha3_256 kem_decaps chacha_encrypt chacha_decrypt keys (fst (fst (randomness n))) (snd (fst (randomness n)))
    (transfer_hash signing ins auth) (Z.of_nat n) (so_amount so) (snd (randomness n)) (so_subaddrIndexT so) mode 0 Hd Lr Ht) as [E _].
  rewrite Ek in E. eexists _, _, _. split; [exact (output_list_nth _ outs 0 n so Hn)|]. split; [reflexivity|]. split; [reflexivity|]. split; [reflexivity|].
  split; [exact E|]. split; [reflexivity|]. split; [reflexivity|]. cbn [w_rho]. unfold rho_list.
  rewrite nth_error_map. assert (L : (n < length outs)%nat) by (apply nth_error_Some; congruence).
  rewrite (nth_error_nth' _ 0%nat) by (rewrite length_seq; exact L). rewrite seq_nth by exact L. reflexivity.
Qed.
End Built.
End Transfer.

(** A free registration is built in the one form the grammar allows, and it is
    accepted exactly when its nonce solves the puzzle. *)
Theorem free_registration_accepted y_slow_hash viewPub spendPub ref nonce target evaluations :
  len viewPub = TX_EXTRA_PQ_VIEW_PUBKEY_SIZE -> len spendPub = TX_EXTRA_PQ_SPEND_PUBKEY_SIZE -> len ref = 32 -> in_w 64 nonce ->
  let tx := buildFreeRegTransaction viewPub spendPub ref nonce in
  isCanonicalFreeRegExtra (extra (prefix tx)) = true /\
  (fst (checkFreeRegTransactionSemantic y_slow_hash tx target evaluations) = Ok tt <-> checkFreeRegPow y_slow_hash viewPub spendPub ref nonce target = true).
Proof.
  intros Hv Hs Hr Hn tx. split; [apply canonical_shape; exists viewPub, spendPub, ref, nonce; auto|].
  destruct (parse_written [PqAccountRegistration viewPub spendPub; Pow ref nonce] 0) as (b & Hw & Hp);
    [constructor; [split; assumption|constructor; [split; assumption|constructor]] | auto |].
  cbn [app Z.eqb writeTransactionExtra write_field] in Hw, Hp.
  assert (Eb : extra (prefix tx) = b) by (cbn in Hw; injection Hw as <-; reflexivity).
  unfold checkFreeRegTransactionSemantic, checkFreeRegTransactionShape, checkFreeRegTransactionPow. rewrite Eb.
  destruct (freereg_canonical_fields _ _ _ _ _ Hp) as (Hl & Hreg & Hpow). rewrite Hp, Hl, Hreg, Hpow. cbn.
  destruct (checkFreeRegPow _ _ _ _ _ _); split; easy.
Qed.

(** ** A transfer of two outputs under one key *)

Definition sample_sign (sk m : bytes) : bytes := m ++ repeat (b8 0) 3277.
Definition sample_auth : PqInputAuth := mkPqInputAuth (repeat (b8 7) 1952) (repeat (b8 9) 4032).
Definition sample_spend (i amount : Z) : PqSpendInput := mkPqSpendInput (repeat (b8 4) 32) i amount (repeat (b8 5) 32) PQ_PRIMARY_DEPOSIT.
Definition sample_randomness (i : nat) : bytes * bytes * bytes := (repeat (b8 1) 1088, repeat (b8 1) 32, repeat (b8 6) 32).
Definition sample_payment (amount : Z) : PqSendOutput := mkPqSendOutput (repeat (b8 2) 1184) (repeat (b8 7) 1952) amount 5 0.
Definition sample_v2 : PqSigningContext := mkPqSigningContext true (repeat (b8 3) 32) true TX_PQ.
Definition sample_build : result string PqTransactionBuildResult :=
  buildPqTransactionWithProof sample_sha3 sample_cipher sample_decipher sample_sign sample_randomness [sample_spend 0 300; sample_spend 1 200]
    [sample_payment 450] [sample_auth; sample_auth] 0 [] sample_v2.
Definition sample_back (amount : Z) : PqResolvedInput :=
  mkPqResolvedInput (spendCommit sample_sha3 (repeat (b8 7) 1952) (repeat (b8 5) 32)) amount true true false.

Lemma sample_randomness_sized i : length (fst (fst (sample_randomness i))) = 1088%nat /\ length (snd (sample_randomness i)) = 32%nat.
Proof. split; reflexivity. Qed.
Definition sample_check (key m sig : bytes) : bool := sig ==b sample_sign [] m.
Lemma sample_signs : signs sample_sign sample_check sample_auth.
Proof. intros m. apply bytes_eqb_refl. Qed.

Lemma sample_built : match sample_build with Ok _ => True | Err _ => False end.
Proof. vm_compute. exact I. Qed.

Lemma built_accepted_witness : exists r, sample_build = Ok r /\ checkPqTransactionSemantic (br_tx r) = Ok tt.
Proof.
  pose proof sample_built as G. destruct sample_build as [r|] eqn:E; [clear G|contradiction]. exists r. split; [reflexivity|].
  apply (built_accepted sample_sha3 sample_cipher sample_decipher sample_sign sample_check sample_randomness sample_randomness_sized
           [sample_spend 0 300; sample_spend 1 200] [sample_payment 450] [sample_auth; sample_auth] [] sample_v2) with (resolved := [sample_back 300; sample_back 200]) (unlock := 0) (minFee := 1).
  - clear E; repeat constructor; easy.
  - clear E; repeat constructor; easy.
  - exact E.
  - clear E; repeat constructor.
  - clear E; repeat constructor; apply sample_signs.
  - clear E. constructor; [intros [E|[]]; apply (f_equal snd) in E; discriminate|]. constructor; [intros []|constructor].
  - clear E; repeat constructor; easy.
  - reflexivity.
  - clear E; repeat constructor; easy.
  - clear E; easy.
  - replace r with (match sample_build with Ok r => r | Err _ => r end) by (now rewrite E). vm_compute. discriminate.
  - clear E; right; easy.
Defined.

Lemma built_delivered_witness : exists r out po w, sample_build = Ok r /\ nth_error (outputs (prefix (br_tx r))) 0 = Some out /\ target out = OutPq po /\
  scanPqOutput sample_sha3 (fun _ ct => firstn 32 ct) sample_decipher sample_keys (pqTransactionInputsHash sample_sha3 (prefix (br_tx r)))
    (mkPqScanOutput 0 (amount out) (kemCt po) (encPayload po) (pq_spendCommit po)) StrictV2 = Some w /\ w_amount w = 450 /\ w_subaddrIndexT w = 5.
Proof.
  pose proof sample_built as G. destruct sample_build as [r|] eqn:E; [clear G|contradiction].
  destruct (built_delivered sample_sha3 sample_cipher sample_decipher sample_sign sample_randomness sample_randomness_sized
           [sample_spend 0 300; sample_spend 1 200] [sample_payment 450] [sample_auth; sample_auth] [] sample_v2) with
    (kem_decaps := fun _ ct : bytes => firstn 32 ct) (unlock := 0) (r := r) (n := 0%nat) (so := sample_payment 450) (keys := sample_keys) (mode := StrictV2)
    as (out & po & w & H1 & H2 & _ & _ & H3 & H4 & H5 & _).
  - clear E; repeat constructor; easy.
  - clear E; repeat constructor; easy.
  - exact E.
  - reflexivity.
  - reflexivity.
  - reflexivity.
  - exists r, out, po, w. auto 7.
Defined.
