(* ===== verification/PqSender.v ===== *)
(** * The spend path

    [Wallet/PqSender.cpp]: selecting inputs for a payment, sweeping small ones,
    building and signing the transaction within the size limit, the payment proofs,
    and consolidation. The composition with the builder, the consensus checks and the
    payment proofs is at the end.

    [std::sort] is a parameter with the promise the standard makes; the randomness of
    every attempt to build is an argument. A [PqSendError] carries its code; its text
    is not modelled. *)

From Stdlib Require Import ZArith String List Lia Bool Permutation Sorted.
From coqutil Require Import Byte Word.LittleEndianList.
From S2P Require Import Prelude Config Varint Wire Transaction Extra PqHash PqDerive PqValidation PqOutputs PqPaymentProof Seeds WalletLedger PqTransactionBuilder.
Import ListNotations.
Open Scope string_scope.
Open Scope list_scope.
Open Scope Z_scope.
Open Scope discrete_scope.
Import Serialization PqDerive PqValidation PqOutputs PqPaymentProof PqSeed PqWallet PqTransactionBuilder.

Module PqSender.

Definition PQ_SWEEP_KEEP_OUTPUTS : nat := 32.
Definition PQ_SWEEP_MAX_EXTRA_INPUTS : nat := 8.
Definition PQ_SWEEP_VALUE_DIVISOR : Z := 10.
Definition PQ_SWEEP_MAX_EXTRA_KEY_REFERENCES : nat := 64.

Inductive PqSendErrorCode := NoRecipients | ZeroAmount | InsufficientFunds | TooLarge | UnsupportedUnlockHeight.
(** [PqSendError] and [std::runtime_error]; [OutOfFuel] is not a value of the program,
    and [build_loop_spec] shows it is never reached. *)
Inductive Failure := PqSendError (code : PqSendErrorCode) | RuntimeError (what : string) | OutOfFuel.
Definition runtime {A} (r : result string A) : result Failure A := match r with Ok x => Ok x | Err s => Err (RuntimeError s) end.

Record PqSendRequest := mkPqSendRequest {
  recipients : list PqSendOutput;
  explicitFee : Z;
  rq_unlockHeight : Z;
  rq_extra : bytes;
  rq_genesisId : bytes;
  signingHeight : Z;
  deliveryV2Height : Z;
  scheme : PqDepositScheme;
  sourceBuckets : list Z;
  changeDest : option PqSendOutput;      (** [hasChangeDest], [changeDest] *)
  sweepSmallInputs : bool
}.
Record PqSendResult := mkPqSendResult {
  sr_tx : Transaction;
  sr_fee : Z;
  sr_sent : Z;
  sr_change : Z;
  sr_selected : list PqSpendInput;
  sr_proofs : list PqPaymentProof
}.

(** ** Selecting *)

Definition keyGroupOf (i : PqSpendInput) (scheme : PqDepositScheme) : Z :=
  match scheme with
  | SingleKeyIndex => PQ_PRIMARY_DEPOSIT
  | AggregatedMultikey => if si_depositIndex i =? PQ_UNATTRIBUTED_DEPOSIT then PQ_PRIMARY_DEPOSIT else si_depositIndex i
  end.

Record InputCaps := mkInputCaps { totalInputs : nat; keyInputs : nat }.
Definition capsFor (signing : PqSigningContext) : InputCaps :=
  mkInputCaps (Z.to_nat (if groupedAuth signing then parameters.MAX_PQ_GROUPED_INPUTS_PER_TX else parameters.MAX_PQ_INPUTS_PER_TX))
    (Z.to_nat parameters.MAX_PQ_INPUTS_PER_TX).

(** [keys] is a [std::set]: no key twice. *)
Record Selection := mkSelection { sel_inputs : list PqSpendInput; sel_keys : list Z; sel_sum : Z; sel_scheme : PqDepositScheme; sel_caps : InputCaps }.
Definition has_key (k : Z) (keys : list Z) : bool := existsb (Z.eqb k) keys.
Definition insert_key (k : Z) (keys : list Z) : list Z := if has_key k keys then keys else keys ++ [k].
Definition keys_of (scheme : PqDepositScheme) (l : list PqSpendInput) : list Z := fold_left (fun keys i => insert_key (keyGroupOf i scheme) keys) l [].

Definition canTake (s : Selection) (i : PqSpendInput) : bool :=
  if (totalInputs (sel_caps s) <=? length (sel_inputs s))%nat then false
  else if negb (has_key (keyGroupOf i (sel_scheme s)) (sel_keys s)) && (keyInputs (sel_caps s) <=? length (sel_keys s))%nat then false
  else sel_sum s <=? 2 ^ 64 - 1 - si_amount i.
Definition take (s : Selection) (i : PqSpendInput) : Selection :=
  mkSelection (sel_inputs s ++ [i]) (insert_key (keyGroupOf i (sel_scheme s)) (sel_keys s)) (w64 (sel_sum s + si_amount i)) (sel_scheme s) (sel_caps s).
Definition drop (s : Selection) : Selection :=
  let kept := removelast (sel_inputs s) in
  let amount := match rev (sel_inputs s) with i :: _ => si_amount i | [] => 0 end in
  mkSelection kept (keys_of (sel_scheme s) kept) (w64 (sel_sum s - amount)) (sel_scheme s) (sel_caps s).
Definition none_selected (scheme : PqDepositScheme) (caps : InputCaps) : Selection := mkSelection [] [] 0 scheme caps.

Definition sameOutpoint (a b : PqSpendInput) : bool := (si_prevOutIndex a =? si_prevOutIndex b) && (si_prevTxid a ==b si_prevTxid b).

(** [memcmp(..) < 0] *)
Fixpoint memcmp_lt (a b : bytes) : bool :=
  match a, b with
  | x :: a, y :: b => if u8 x =? u8 y then memcmp_lt a b else u8 x <? u8 y
  | _, _ => false
  end.
Definition smallestFirst (lhs rhs : PqSpendInput) : bool :=
  if negb (si_amount lhs =? si_amount rhs) then si_amount lhs <? si_amount rhs
  else if negb (si_prevTxid lhs ==b si_prevTxid rhs) then memcmp_lt (si_prevTxid lhs) (si_prevTxid rhs)
  else si_prevOutIndex lhs <? si_prevOutIndex rhs.
Definition largestFirst (a b : PqSpendInput) : bool := si_amount b <? si_amount a.

Definition filterBuckets (available : list PqSpendInput) (sourceBuckets : list Z) : list PqSpendInput :=
  match sourceBuckets with
  | [] => available
  | _ => filter (fun si => existsb (Z.eqb (si_depositIndex si)) sourceBuckets) available
  end.

(** The sum of everything spendable, saturating. *)
Fixpoint total_available (l : list PqSpendInput) (sum : Z) : Z :=
  match l with
  | [] => sum
  | si :: l => if 2 ^ 64 - 1 - si_amount si <? sum then 2 ^ 64 - 1 else total_available l (w64 (sum + si_amount si))
  end.

(** Largest first until the payment is covered; the second component is [skipped]. *)
Fixpoint cover (required : Z) (sorted : list PqSpendInput) (s : Selection) (skipped : list PqSpendInput) : Selection * list PqSpendInput :=
  match sorted with
  | [] => (s, skipped)
  | si :: sorted =>
      if required <=? sel_sum s then cover required sorted s (skipped ++ [si])
      else if canTake s si then cover required sorted (take s si) skipped
      else cover required sorted s (skipped ++ [si])
  end.

(** The sweep over [skipped], smallest first. *)
Fixpoint sweep (limit : nat) (valueBudget : Z) (l : list PqSpendInput) (s : Selection) (sweptValue : Z) (remaining swept : nat) : Selection :=
  match l with
  | [] => s
  | it :: l =>
      if (limit <=? swept)%nat then s
      else if (remaining <=? PQ_SWEEP_KEEP_OUTPUTS)%nat then s
      else if w64 (valueBudget - sweptValue) <? si_amount it then s
      else if negb (has_key (keyGroupOf it (sel_scheme s)) (sel_keys s)) then sweep limit valueBudget l s sweptValue remaining swept
      else if negb (canTake s it) then sweep limit valueBudget l s sweptValue remaining swept
      else sweep limit valueBudget l (take s it) (w64 (sweptValue + si_amount it)) (remaining - 1) (S swept)
  end.
Definition sweep_limit (signing : PqSigningContext) : nat := if groupedAuth signing then PQ_SWEEP_MAX_EXTRA_KEY_REFERENCES else PQ_SWEEP_MAX_EXTRA_INPUTS.

(** The recipients' amounts: none zero, the sum within 64 bits. *)
Fixpoint sum_recipients (l : list PqSendOutput) (sent : Z) : result Failure Z :=
  match l with
  | [] => Ok sent
  | r :: l =>
      check negb (so_amount r =? 0) else PqSendError ZeroAmount ;;
      check negb (w64 (sent + so_amount r) <? sent) else PqSendError TooLarge ;;
      sum_recipients l (w64 (sent + so_amount r))
  end.

Section Send.
Variable sha3_256 cn_fast_hash : bytes -> bytes.
Variable chacha_encrypt : bytes -> bytes -> bytes -> bytes -> bytes.
Variable chacha_decrypt : bytes -> bytes -> bytes -> bytes -> option bytes.
Variable dsa_keygen_from_seed : bytes -> bytes * bytes.
Variable dsa_sign : bytes -> bytes -> bytes.
Variable sort : (PqSpendInput -> PqSpendInput -> bool) -> list PqSpendInput -> list PqSpendInput.
(** For each attempt to build, the randomness of its outputs. *)
Variable randomness : nat -> nat -> bytes * bytes * bytes.

(** [authForSelection]: the key pair that signs an input. *)
Definition auth_for (keys : PqWalletKeys) (scheme : PqDepositScheme) (si : PqSpendInput) : PqInputAuth :=
  let wallet := mkPqInputAuth (wk_spendPub keys) (wk_spendSk keys) in
  match scheme with
  | SingleKeyIndex => wallet
  | AggregatedMultikey =>
      if (si_depositIndex si =? PQ_PRIMARY_DEPOSIT) || (si_depositIndex si =? PQ_UNATTRIBUTED_DEPOSIT) then wallet
      else let derived := deriveDepositSpendKeys sha3_256 dsa_keygen_from_seed (seedMaster keys) (si_depositIndex si) in
           mkPqInputAuth (fst derived) (snd derived)
  end.
Definition authForSelection (keys : PqWalletKeys) (scheme : PqDepositScheme) (sel : list PqSpendInput) : list PqInputAuth := map (auth_for keys scheme) sel.

Definition set_amount (o : PqSendOutput) (a : Z) : PqSendOutput :=
  mkPqSendOutput (recipientViewPub o) (recipientSpendPub o) a (so_subaddrIndexT o) (so_unlockHeight o).
Definition own_output (keys : PqWalletKeys) : PqSendOutput := mkPqSendOutput (wk_viewPub keys) (wk_spendPub keys) 0 0 0.
Definition send_outputs (keys : PqWalletKeys) (req : PqSendRequest) (change : Z) : list PqSendOutput :=
  recipients req ++
  if 0 <? change then [set_amount (match changeDest req with Some d => d | None => own_output keys end) change] else [].

(** Build, shedding swept inputs while the transaction is over the size limit. *)
Fixpoint build_loop (fuel attempt : nat) (keys : PqWalletKeys) (req : PqSendRequest) (signing : PqSigningContext) (required : Z) (coverCount : nat) (s : Selection)
  : result Failure (PqTransactionBuildResult * Selection) :=
  let outs := send_outputs keys req (w64 (sel_sum s - required)) in
  let auth := authForSelection keys (scheme req) (sel_inputs s) in
  let* draft := runtime (buildPqTransactionWithProof sha3_256 chacha_encrypt chacha_decrypt dsa_sign (randomness attempt) (sel_inputs s) outs auth 0 (rq_extra req) signing) in
  if serialized_size (br_tx draft) <=? parameters.MAX_PQ_TX_SIZE then Ok (draft, s)
  else
    check negb (length (sel_inputs s) <=? coverCount)%nat else PqSendError TooLarge ;;
    match fuel with
    | O => Err OutOfFuel
    | S fuel => build_loop fuel (S attempt) keys req signing required coverCount (drop s)
    end.

(** A proof for every recipient row. *)
Fixpoint send_proofs (genesisId : bytes) (proofTx : PqPaymentProofTransaction) (rs : list PqSendOutput) (outs : list TransactionOutput) (rhos : list bytes) (i : Z)
  : result Failure (list PqPaymentProof) :=
  match rs, outs, rhos with
  | r :: rs, out :: outs, rho :: rhos =>
      check amount out =? so_amount r else RuntimeError "buildPqSend: incomplete recipient proof" ;;
      let recipient := mkResolvedRecipient (recipientViewPub r) (recipientSpendPub r) (so_subaddrIndexT r) in
      let* proof := runtime (makePqPaymentProof sha3_256 genesisId (pt_txid proofTx) recipient [mkEntry (w32 i) rho]) in
      let* verified := runtime (verifyPqPaymentProof sha3_256 proof genesisId proofTx recipient) in
      check verified =? so_amount r else RuntimeError "buildPqSend: final payment proof total mismatch" ;;
      let* rest := send_proofs genesisId proofTx rs outs rhos (i + 1) in
      Ok (proof :: rest)
  | _, _, _ => Ok []
  end.

Definition send_fee (req : PqSendRequest) : Z :=
  if negb (explicitFee req =? 0) then explicitFee req else parameters.pqTxFeeFloor parameters.MINIMUM_FEE (len (rq_extra req)).
Definition send_context (req : PqSendRequest) : PqSigningContext :=
  let ctx := pqSigningContextForHeight (signingHeight req) (rq_genesisId req) in
  mkPqSigningContext (useV2 ctx) (chainId ctx) (groupedAuth ctx) (pqTransferTypeForHeight (signingHeight req) (deliveryV2Height req)).

Definition buildPqSend (available : list PqSpendInput) (keys : PqWalletKeys) (req : PqSendRequest) : result Failure PqSendResult :=
  check negb (length (recipients req) =? 0)%nat else PqSendError NoRecipients ;;
  check rq_unlockHeight req =? 0 else PqSendError UnsupportedUnlockHeight ;;
  let* sent := sum_recipients (recipients req) 0 in
  check negb (parameters.MAX_PQ_OUTPUTS_PER_TX <? Z.of_nat (length (recipients req)) + 1) else PqSendError TooLarge ;;
  let fee := send_fee req in
  check negb (2 ^ 64 - 1 - fee <? sent) else PqSendError TooLarge ;;
  let required := sent + fee in
  let signing := send_context req in
  let sorted := sort largestFirst (filterBuckets available (sourceBuckets req)) in
  let totalAvail := total_available sorted 0 in
  let '(selected, skipped) := cover required sorted (none_selected (scheme req) (capsFor signing)) [] in
  check negb (sel_sum selected <? required) else PqSendError (if required <=? totalAvail then TooLarge else InsufficientFunds) ;;
  let coverCount := length (sel_inputs selected) in
  let selected :=
    if sweepSmallInputs req
    then sweep (sweep_limit signing) (totalAvail / PQ_SWEEP_VALUE_DIVISOR) (rev skipped) selected 0 (length skipped) 0
    else selected in
  let* (draft, selected) := build_loop (length (sel_inputs selected)) 0 keys req signing required coverCount selected in
  let outs := outputs (prefix (br_tx draft)) in
  check negb (negb (length (outputRhos draft) =? length outs)%nat || (length outs <? length (recipients req))%nat)
    else RuntimeError "buildPqSend: output provenance/opening mismatch" ;;
  let* proofTx := runtime (makePqPaymentProofTransaction sha3_256 cn_fast_hash (br_tx draft)) in
  let* proofs := send_proofs (rq_genesisId req) proofTx (recipients req) outs (outputRhos draft) 0 in
  Ok (mkPqSendResult (br_tx draft) fee sent (w64 (sel_sum selected - required)) (sel_inputs selected) proofs).

(** ** Consolidation *)

Record PqConsolidationPlan := mkPlan { pl_availableInputs : nat; pl_selectedInputs : nat; pl_resultingOutputs : nat; pl_amount : Z; pl_fee : Z }.
Record PqConsolidationRequest := mkConsolidationRequest {
  cr_explicitFee : Z;
  cr_genesisId : bytes;
  cr_signingHeight : Z;
  cr_deliveryV2Height : Z;
  cr_scheme : PqDepositScheme;
  cr_sourceBuckets : list Z;
  cr_destination : option PqSendOutput      (** [hasDestination], [destination] *)
}.
Record PqConsolidationResult := mkConsolidationResult { co_plan : PqConsolidationPlan; co_transaction : PqSendResult }.

Definition useful (p : PqConsolidationPlan) : bool :=
  (2 <=? pl_selectedInputs p)%nat && (pl_resultingOutputs p <? pl_selectedInputs p)%nat && (0 <? pl_amount p).

Fixpoint pick (sorted : list PqSpendInput) (s : Selection) : Selection :=
  match sorted with
  | [] => s
  | i :: sorted =>
      if (totalInputs (sel_caps s) <=? length (sel_inputs s))%nat then s
      else pick sorted (if canTake s i then take s i else s)
  end.

Definition selectConsolidationInputs (available : list PqSpendInput) (req : PqConsolidationRequest) : PqConsolidationPlan * list PqSpendInput :=
  let fee := if negb (cr_explicitFee req =? 0) then cr_explicitFee req else parameters.pqTxFeeFloor parameters.MINIMUM_FEE 0 in
  let sorted := filterBuckets available (cr_sourceBuckets req) in
  let useless := (mkPlan (length sorted) 0 0 0 fee, []) in
  if (length sorted <? 2)%nat then useless
  else
    let sorted := sort smallestFirst sorted in
    let signing := pqSigningContextForHeight (cr_signingHeight req) (cr_genesisId req) in
    let picked := pick sorted (none_selected (cr_scheme req) (capsFor signing)) in
    if (length (sel_inputs picked) <? 2)%nat || (sel_sum picked <=? fee) then useless
    else (mkPlan (length sorted) (length (sel_inputs picked)) 1 (sel_sum picked - fee) fee, sel_inputs picked).

(** The default request with a fee, and the full one. *)
Definition planPqConsolidation_fee (available : list PqSpendInput) (explicitFee : Z) : PqConsolidationPlan :=
  fst (selectConsolidationInputs available (mkConsolidationRequest explicitFee NULL_HASH 0 0xFFFFFFFF AggregatedMultikey [] None)).
Definition planPqConsolidation (available : list PqSpendInput) (req : PqConsolidationRequest) : PqConsolidationPlan :=
  fst (selectConsolidationInputs available req).

Definition consolidation_send (keys : PqWalletKeys) (req : PqConsolidationRequest) (plan : PqConsolidationPlan) : PqSendRequest :=
  mkPqSendRequest [set_amount (match cr_destination req with Some d => d | None => own_output keys end) (pl_amount plan)]
    (pl_fee plan) 0 [] (cr_genesisId req) (cr_signingHeight req) (cr_deliveryV2Height req) (cr_scheme req) [] None false.

Definition buildPqConsolidation (available : list PqSpendInput) (keys : PqWalletKeys) (req : PqConsolidationRequest) : result Failure PqConsolidationResult :=
  let (plan, picked) := selectConsolidationInputs available req in
  check useful plan else PqSendError TooLarge ;;
  let* t := buildPqSend picked keys (consolidation_send keys req plan) in
  let outs := outputs (prefix (sr_tx t)) in
  check negb (negb (length (sr_selected t) =? pl_selectedInputs plan)%nat || negb (length outs =? pl_resultingOutputs plan)%nat ||
              negb (sr_change t =? 0) || negb (sr_sent t =? pl_amount plan) || negb (sr_fee t =? pl_fee plan) ||
              (length (inputs (prefix (sr_tx t))) <=? length outs)%nat)
    else RuntimeError "buildPqConsolidation: final transaction does not match its plan" ;;
  check forallb (fun p => existsb (fun used => sameOutpoint used p) (sr_selected t)) picked
    else RuntimeError "buildPqConsolidation: planned input was not spent" ;;
  Ok (mkConsolidationResult plan t).

End Send.
End PqSender.
Import PqSender.

(** ** Selections *)

Abbreviation value l := (total (map si_amount l)).
Definition amounts_typed (l : list PqSpendInput) : Prop := Forall (fun i => in_w 64 (si_amount i)) l.

Lemma inputs_value_app a b : value (a ++ b) = value a + value b.
Proof. rewrite map_app. apply total_app. Qed.
Lemma inputs_value_nonneg l : amounts_typed l -> 0 <= value l.
Proof. intros F. apply amounts_total_nonneg. now apply Forall_map. Qed.
Lemma value_perm l l' : Permutation l l' -> value l = value l'.
Proof. induction 1; cbn in *; unfold total in *; cbn in *; lia. Qed.

Lemma has_key_in k l : has_key k l = true <-> In k l.
Proof.
  unfold has_key. rewrite existsb_exists. split; [intros (x & I & E); apply Z.eqb_eq in E; now subst|intros I; exists k; split; [exact I|apply Z.eqb_refl]].
Qed.

Lemma keys_of_snoc sch l i : keys_of sch (l ++ [i]) = insert_key (keyGroupOf i sch) (keys_of sch l).
Proof. unfold keys_of. now rewrite fold_left_app. Qed.

Lemma keys_of_spec sch l : NoDup (keys_of sch l) /\ forall k, In k (keys_of sch l) <-> In k (map (fun i => keyGroupOf i sch) l).
Proof.
  induction l as [|i l [IHn IHi]] using rev_ind; [split; [constructor|intros; reflexivity]|]. rewrite keys_of_snoc. unfold insert_key.
  destruct (has_key (keyGroupOf i sch) (keys_of sch l)) eqn:E.
  - split; [exact IHn|]. intros k. rewrite map_app, in_app_iff, IHi. apply has_key_in, IHi in E. cbn. split; [auto|]. intros [H|[<-|[]]]; assumption.
  - assert (N : ~ In (keyGroupOf i sch) (keys_of sch l)) by (intros I; apply has_key_in in I; congruence). split.
    + apply NoDup_app; [exact IHn|repeat constructor; auto|]. intros x Hx [<-|[]]. contradiction.
    + intros k. rewrite map_app, !in_app_iff, IHi. reflexivity.
Qed.

Lemma keys_of_incl sch l l' : incl l l' -> (length (keys_of sch l) <= length (keys_of sch l'))%nat.
Proof.
  intros I. destruct (keys_of_spec sch l) as [N H], (keys_of_spec sch l') as [_ H']. apply NoDup_incl_length; [exact N|].
  intros k Hk. apply H', (incl_map _ I), H, Hk.
Qed.

(** What a selection maintains. *)
Record sel_ok (s : Selection) : Prop := {
  ok_sum : sel_sum s = value (sel_inputs s);
  ok_bound : value (sel_inputs s) < 2 ^ 64;
  ok_keys : sel_keys s = keys_of (sel_scheme s) (sel_inputs s);
  ok_total : (length (sel_inputs s) <= totalInputs (sel_caps s))%nat;
  ok_count : (length (sel_keys s) <= keyInputs (sel_caps s))%nat;
  ok_typed : amounts_typed (sel_inputs s)
}.

Lemma none_selected_ok sch caps : sel_ok (none_selected sch caps).
Proof. constructor; cbn; try lia; [reflexivity|constructor]. Qed.

Lemma take_ok s i : sel_ok s -> in_w 64 (si_amount i) -> canTake s i = true -> sel_ok (take s i).
Proof.
  intros [S B K T C F] Hi H. unfold canTake in H. destruct (Nat.leb_spec (totalInputs (sel_caps s)) (length (sel_inputs s))) as [L|L]; [discriminate|].
  destruct (negb _ && _) eqn:G in H; [discriminate|]. apply Z.leb_le in H. assert (P := inputs_value_nonneg _ F).
  assert (W : w64 (sel_sum s + si_amount i) = sel_sum s + si_amount i) by (apply wrap_small; unfold in_w in *; lia).
  constructor; cbn [take sel_inputs sel_keys sel_sum sel_scheme sel_caps]; rewrite ?length_app, ?inputs_value_app; cbn [map total fold_right length].
  - rewrite W, S. lia.
  - lia.
  - now rewrite keys_of_snoc, K.
  - lia.
  - unfold insert_key. destruct (has_key _ _); [exact C|]. cbn [negb andb] in G. apply Nat.leb_gt in G. rewrite length_app. cbn. lia.
  - apply Forall_app. split; [exact F|]. constructor; [exact Hi|constructor].
Qed.

Lemma drop_ok s l i : sel_ok s -> sel_inputs s = l ++ [i] -> sel_ok (drop s) /\ sel_inputs (drop s) = l.
Proof.
  intros [S B K T C F] E. assert (El : sel_inputs (drop s) = l) by (cbn [drop sel_inputs]; rewrite E; apply removelast_last).
  split; [|exact El]. rewrite E in *. apply Forall_app in F as [Fl Fi]. inversion_clear Fi as [|? ? Hi _]. rewrite inputs_value_app in *. cbn in S, B.
  assert (P := inputs_value_nonneg _ Fl). constructor; rewrite ?El; cbn [drop sel_sum sel_keys sel_scheme sel_caps]; rewrite ?E, ?removelast_last, ?rev_app_distr; cbn [rev app].
  - rewrite wrap_small; unfold in_w in *; lia.
  - unfold in_w in *. lia.
  - reflexivity.
  - rewrite length_app in T. lia.
  - rewrite K in C. etransitivity; [|exact C]. apply keys_of_incl. intros x Hx. apply in_or_app. now left.
  - exact Fl.
Qed.

(** A selection within the caps can take any input that leaves it within them. *)
Lemma canTake_iff s i : sel_ok s -> in_w 64 (si_amount i) -> canTake s i = true <->
  (length (sel_inputs s ++ [i]) <= totalInputs (sel_caps s))%nat /\ value (sel_inputs s ++ [i]) < 2 ^ 64 /\
  (length (keys_of (sel_scheme s) (sel_inputs s ++ [i])) <= keyInputs (sel_caps s))%nat.
Proof.
  intros O Hi. split.
  - intros H. destruct (take_ok s i O Hi H) as [_ B K T C _]. rewrite K in C. auto.
  - destruct O as [S B K T C F]. intros (T' & B' & C'). unfold canTake. rewrite length_app in T'. cbn in T'. rewrite (proj2 (Nat.leb_gt _ _)) by lia.
    rewrite keys_of_snoc, <- K in C'. rewrite inputs_value_app in B'. cbn in B'. unfold insert_key in C'. destruct (has_key _ _); cbn [negb andb].
    + apply Z.leb_le. lia.
    + rewrite length_app in C'. cbn in C'. rewrite (proj2 (Nat.leb_gt _ _)) by lia. apply Z.leb_le. lia.
Qed.

(** The context a selection keeps. *)
Definition same_rules (s s' : Selection) : Prop := sel_scheme s' = sel_scheme s /\ sel_caps s' = sel_caps s.

(** What the covering loop does: it takes some of [l] and passes over the rest, and
    before its last input the payment was not covered. *)
Definition covered (required : Z) (l : list PqSpendInput) (s : Selection) (skipped : list PqSpendInput) (s' : Selection) (skipped' : list PqSpendInput) : Prop :=
  sel_ok s' /\ same_rules s s' /\ exists taken left, sel_inputs s' = sel_inputs s ++ taken /\ skipped' = skipped ++ left /\ Permutation l (taken ++ left) /\
    (forall init last, taken = init ++ [last] -> value (sel_inputs s ++ init) < required).

Lemma cover_spec required l : forall s skipped s' skipped', sel_ok s -> amounts_typed l -> cover required l s skipped = (s', skipped') ->
  covered required l s skipped s' skipped'.
Proof.
  induction l as [|si l IH]; intros s skipped s' skipped' O F H; cbn [cover] in H.
  - injection H as <- <-. split; [exact O|]. split; [split; reflexivity|]. exists [], []. rewrite !app_nil_r. repeat split; [constructor|]. intros [|] ? E; discriminate.
  - inversion_clear F as [|? ? Hi F']. assert (Skip : cover required l s (skipped ++ [si]) = (s', skipped') -> covered required (si :: l) s skipped s' skipped').
    { intros H'. destruct (IH _ _ _ _ O F' H') as (O' & R & taken & left & Ei & Es & P & M). split; [exact O'|]. split; [exact R|].
      exists taken, (si :: left). rewrite <- app_assoc in Es. split; [exact Ei|]. split; [exact Es|]. split; [|exact M].
      etransitivity; [apply perm_skip, P|]. apply Permutation_middle. }
    destruct (Z.leb_spec required (sel_sum s)) as [L|L]; [exact (Skip H)|]. destruct (canTake s si) eqn:C; [|exact (Skip H)]. clear Skip.
    destruct (IH _ _ _ _ (take_ok s si O Hi C) F' H) as (O' & R & taken & left & Ei & Es & P & M). split; [exact O'|]. split; [exact R|].
    exists (si :: taken), left. cbn [take sel_inputs] in Ei, M. rewrite <- app_assoc in Ei. split; [exact Ei|]. split; [exact Es|]. split; [now apply perm_skip|].
    intros [|x init] last E; injection E as <- E.
    + rewrite app_nil_r, <- (ok_sum _ O). exact L.
    + specialize (M init last E). rewrite <- app_assoc in M. exact M.
Qed.

(** What the sweep does: it takes some of [l], within the limits, under keys already
    in use. *)
Definition swept_from (limit : nat) (budget : Z) (l : list PqSpendInput) (s : Selection) (value0 : Z) (remaining swept : nat) (s' : Selection) : Prop :=
  sel_ok s' /\ same_rules s s' /\ exists taken left, sel_inputs s' = sel_inputs s ++ taken /\ Permutation l (taken ++ left) /\
    (length taken <= limit - swept)%nat /\ value0 + value taken <= budget /\ (taken <> [] -> 32 + length taken <= remaining)%nat /\
    Forall (fun i => In (keyGroupOf i (sel_scheme s)) (sel_keys s)) taken.

Lemma swept_none limit budget l s value0 remaining swept : sel_ok s -> value0 <= budget -> swept_from limit budget l s value0 remaining swept s.
Proof.
  intros O B. split; [exact O|]. split; [split; reflexivity|]. exists [], l. cbn. rewrite app_nil_r. repeat split; try lia; [apply Permutation_refl|congruence|constructor].
Qed.
Lemma swept_skip limit budget it l s value0 remaining swept s' : swept_from limit budget l s value0 remaining swept s' ->
  swept_from limit budget (it :: l) s value0 remaining swept s'.
Proof.
  intros (O & R & taken & left & Ei & P & Rest). split; [exact O|]. split; [exact R|]. exists taken, (it :: left). split; [exact Ei|]. split; [|exact Rest].
  etransitivity; [apply perm_skip, P|]. apply Permutation_middle.
Qed.

Lemma sweep_spec limit budget l : forall s value0 remaining swept, sel_ok s -> amounts_typed l -> 0 <= value0 <= budget -> budget < 2 ^ 64 ->
  swept_from limit budget l s value0 remaining swept (sweep limit budget l s value0 remaining swept).
Proof.
  induction l as [|it l IH]; intros s sv remaining swept O F B Hb; [now apply swept_none|]. inversion_clear F as [|? ? Hi F']. cbn [sweep].
  destruct (Nat.leb_spec limit swept); [now apply swept_none|]. unfold PQ_SWEEP_KEEP_OUTPUTS.
  destruct (Nat.leb_spec remaining 32); [now apply swept_none|]. rewrite wrap_small by (unfold in_w; lia).
  destruct (Z.ltb_spec (budget - sv) (si_amount it)); [now apply swept_none|].
  destruct (has_key _ _) eqn:K; cbn [negb]; [|apply swept_skip; now apply IH]. destruct (canTake s it) eqn:C; cbn [negb]; [|apply swept_skip; now apply IH].
  apply has_key_in in K. rewrite wrap_small by (unfold in_w in *; lia).
  destruct (IH (take s it) (sv + si_amount it) (remaining - 1)%nat (S swept) (take_ok s it O Hi C) F') as (O' & R & taken & left & Ei & P & L & V & Rm & Fk); [unfold in_w in *; lia|exact Hb|].
  split; [exact O'|]. split; [exact R|]. exists (it :: taken), left. cbn [take sel_inputs] in Ei. rewrite <- app_assoc in Ei.
  split; [exact Ei|]. split; [now apply perm_skip|]. cbn [length map total fold_right]. unfold total in V. split; [lia|]. split; [lia|]. split.
  { intros _. destruct taken; [cbn; lia|]. specialize (Rm ltac:(discriminate)). cbn in *. lia. }
  constructor; [exact K|]. revert Fk. apply Forall_impl. intros i Hk. cbn [take sel_scheme sel_keys] in Hk. unfold insert_key in Hk.
  rewrite (proj2 (has_key_in _ _) K) in Hk. exact Hk.
Qed.

Lemma total_available_spec l : forall s, amounts_typed l -> in_w 64 s -> total_available l s = Z.min (2 ^ 64 - 1) (s + value l).
Proof.
  induction l as [|i l IH]; intros s F Hs; cbn [total_available map total fold_right]; [unfold in_w in Hs; lia|]. inversion_clear F as [|? ? Hi F'].
  assert (P := inputs_value_nonneg _ F'). fold (value l). destruct (Z.ltb_spec (2 ^ 64 - 1 - si_amount i) s); [lia|].
  rewrite wrap_small by (unfold in_w in *; lia). rewrite IH; [f_equal; lia|exact F'|unfold in_w in *; lia].
Qed.

(** When the keys and the value of everything spendable are within the caps, the
    covering loop takes a prefix. *)
Lemma cover_prefix required l : forall s skipped, sel_ok s -> amounts_typed l -> value (sel_inputs s ++ l) < 2 ^ 64 ->
  (length (keys_of (sel_scheme s) (sel_inputs s ++ l)) <= keyInputs (sel_caps s))%nat ->
  exists k, sel_inputs (fst (cover required l s skipped)) = sel_inputs s ++ firstn k l /\
    (required <= sel_sum (fst (cover required l s skipped)) \/ (k >= length l)%nat \/ (totalInputs (sel_caps s) <= length (sel_inputs s ++ firstn k l))%nat).
Proof.
  assert (Skips : forall l s skipped, required <= sel_sum s \/ (totalInputs (sel_caps s) <= length (sel_inputs s))%nat -> fst (cover required l s skipped) = s).
  { induction l0 as [|x l0 IH]; intros s skipped H; cbn [cover]; [reflexivity|]. destruct (Z.leb_spec required (sel_sum s)); [now apply IH|].
    destruct H as [H|H]; [lia|]. unfold canTake. rewrite (proj2 (Nat.leb_le _ _)) by exact H. apply IH. now right. }
  induction l as [|x l IH]; intros s skipped O F V K.
  { exists 0%nat. cbn. rewrite app_nil_r. split; [reflexivity|]. right. left. lia. }
  inversion_clear F as [|? ? Hx F']. cbn [cover]. destruct (Z.leb_spec required (sel_sum s)) as [L|L].
  { exists 0%nat. rewrite Skips by (now left). cbn [firstn]. rewrite app_nil_r. auto. }
  destruct (canTake s x) eqn:C.
  - destruct (IH (take s x) skipped (take_ok s x O Hx C) F') as (k & Ek & Hk); cbn [take sel_inputs sel_scheme sel_caps] in *; rewrite <- ?app_assoc; try assumption.
    exists (S k). cbn [firstn length]. rewrite <- app_assoc in Ek, Hk. split; [exact Ek|]. destruct Hk as [Hk|[Hk|Hk]]; [now left|right; left; lia|right; right; exact Hk].
  - exists 0%nat. cbn [firstn]. rewrite app_nil_r. destruct (Nat.le_gt_cases (totalInputs (sel_caps s)) (length (sel_inputs s))) as [T|T].
    + rewrite Skips by (now right). auto.
    + exfalso. apply not_true_iff_false in C. apply C. apply canTake_iff; [exact O|exact Hx|]. rewrite length_app. cbn [length]. split; [lia|].
      change (x :: l) with ([x] ++ l) in V, K. rewrite app_assoc in V, K. rewrite inputs_value_app in V. pose proof (inputs_value_nonneg _ F').
      split; [lia|]. etransitivity; [|exact K]. apply keys_of_incl. apply incl_appl, incl_refl.
Qed.

(** No selection of as many inputs is worth more than the largest ones. *)
Lemma largest_best l : StronglySorted (fun a b => largestFirst b a = false) l -> amounts_typed l -> forall a b, Permutation l (a ++ b) -> value a <= value (firstn (length a) l).
Proof.
  induction 1 as [|x l _ IH Hx]; intros T a b P.
  { apply Permutation_nil, app_eq_nil in P as [-> _]. reflexivity. }
  inversion_clear T as [|? ? Hw T']. assert (Ix : In x (a ++ b)) by (apply (Permutation_in x P); now left). apply in_app_or in Ix as [I|I].
  - apply in_split in I as (a1 & a2 & ->). rewrite <- app_assoc in P. cbn [app] in P. apply Permutation_cons_app_inv in P.
    rewrite app_assoc in P. specialize (IH T' (a1 ++ a2) b P). rewrite length_app in *. cbn [length]. rewrite Nat.add_succ_r. cbn [firstn].
    rewrite !inputs_value_app in *. cbn [map total fold_right]. unfold total in *. lia.
  - destruct a as [|y a]; [apply inputs_value_nonneg; constructor|]. apply in_split in I as (b1 & b2 & ->).
    assert (P' : Permutation l (a ++ y :: b1 ++ b2)).
    { rewrite app_assoc in P. apply Permutation_cons_app_inv in P. etransitivity; [exact P|]. rewrite <- app_assoc. apply Permutation_middle. }
    specialize (IH T' a _ P'). assert (Iy : In y l) by (apply (Permutation_in y (Permutation_sym P')), in_elt).
    rewrite Forall_forall in Hx. specialize (Hx y Iy). unfold largestFirst in Hx. apply Z.ltb_ge in Hx. cbn [length firstn map total fold_right]. unfold total in *. lia.
Qed.

Lemma pick_spec l : forall s, sel_ok s -> amounts_typed l ->
  sel_ok (pick l s) /\ same_rules s (pick l s) /\ exists taken left, sel_inputs (pick l s) = sel_inputs s ++ taken /\ Permutation l (taken ++ left).
Proof.
  induction l as [|i l IH]; intros s O F; cbn [pick].
  - split; [exact O|]. split; [split; reflexivity|]. exists [], []. now rewrite app_nil_r.
  - inversion_clear F as [|? ? Hi F']. destruct (_ <=? _)%nat.
    { split; [exact O|]. split; [split; reflexivity|]. exists [], (i :: l). now rewrite app_nil_r. }
    destruct (canTake s i) eqn:C.
    + destruct (IH _ (take_ok s i O Hi C) F') as (O' & R & taken & left & Ei & P). split; [exact O'|]. split; [exact R|]. exists (i :: taken), left.
      cbn [take sel_inputs] in Ei. rewrite <- app_assoc in Ei. split; [exact Ei|]. now apply perm_skip.
    + destruct (IH s O F') as (O' & R & taken & left & Ei & P). split; [exact O'|]. split; [exact R|]. exists taken, (i :: left). split; [exact Ei|].
      etransitivity; [apply perm_skip, P|]. apply Permutation_middle.
Qed.

Lemma sum_recipients_spec l : forall s, Forall out_typed l -> in_w 64 s ->
  match sum_recipients l s with
  | Ok s' => Forall (fun r => so_amount r <> 0) l /\ s' = s + total (map so_amount l) /\ s' < 2 ^ 64
  | Err e => (e = PqSendError ZeroAmount /\ Exists (fun r => so_amount r = 0) l) \/ (e = PqSendError TooLarge /\ 2 ^ 64 <= s + total (map so_amount l))
  end.
Proof.
  induction l as [|r l IH]; intros s F Hs; cbn [sum_recipients map total fold_right]; [rewrite Z.add_0_r; unfold in_w in Hs; repeat split; [constructor|lia]|].
  inversion_clear F as [|? ? [Ha _] F']. assert (P := amounts_total_nonneg _ (proj2 (Forall_map so_amount (in_w 64) l) (Forall_impl _ (fun _ H => proj1 H) F'))).
  unfold total in P. fold (total (map so_amount l)) in *. destruct (Z.eqb_spec (so_amount r) 0) as [Z0|Z0]; cbn [negb guard bind]; [left; split; [reflexivity|now left]|].
  rewrite sum_test by assumption. destruct (Z.ltb_spec (s + so_amount r) (2 ^ 64)) as [L|L]; cbn [guard bind]; [|right; split; [reflexivity|lia]].
  rewrite wrap_small by (unfold in_w in *; lia). specialize (IH (s + so_amount r) F' ltac:(unfold in_w in *; lia)). rewrite Z.add_assoc.
  destruct (sum_recipients l _) as [s'|e].
  - destruct IH as (Fz & -> & B). repeat split; [now constructor|exact B].
  - destruct IH as [[-> E]|IH]; [left; split; [reflexivity|now right]|right; exact IH].
Qed.

Lemma firstn_plus {A} (l : list A) : forall m n, firstn (m + n) l = firstn m l ++ firstn n (skipn m l).
Proof. induction l as [|x l IH]; intros [|m] n; cbn; [now rewrite firstn_nil..|reflexivity|]. now rewrite IH. Qed.

Lemma app_prefix {A} (a b c d : list A) : a ++ b = c ++ d -> (length a <= length c)%nat -> exists b', c = a ++ b' /\ b = b' ++ d.
Proof.
  revert c. induction a as [|x a IH]; intros c E L; [exists c; auto|]. destruct c as [|y c]; [cbn in L; lia|]. injection E as <- E.
  destruct (IH c E ltac:(cbn in L; lia)) as (b' & -> & ->). exists b'. auto.
Qed.

(** ** Building *)

Lemma first_of_key_found earlier : forall j pub, 0 <= j -> j + Z.of_nat (length earlier) <= PQ_NO_KEY_REF -> In pub (map ia_spendPub earlier) ->
  first_of_key earlier j pub < PQ_NO_KEY_REF.
Proof.
  induction earlier as [|a earlier IH]; intros j pub Hj Hb I; [contradiction|]. cbn [first_of_key length map] in *. destruct (_ ==b pub) eqn:E; [lia|].
  apply IH; [lia|lia|]. destruct I as [I|I]; [|exact I]. rewrite I, bytes_eqb_refl in E. discriminate.
Qed.

(** ** The proofs of a built transfer *)

Lemma Forall2_rows {A B} (P : A -> B -> Prop) (f : A -> nat -> B) l : (forall i x, nth_error l i = Some x -> P x (f x i)) ->
  Forall2 P l (map (fun p => f (fst p) (snd p)) (combine l (seq 0 (length l)))).
Proof.
  enough (G : forall k, (forall i x, nth_error l i = Some x -> P x (f x (k + i)%nat)) -> Forall2 P l (map (fun p => f (fst p) (snd p)) (combine l (seq k (length l))))) by apply (G 0%nat).
  induction l as [|x l IH]; intros k H; cbn; constructor.
  - specialize (H 0%nat x eq_refl). now rewrite Nat.add_0_r in H.
  - apply IH. intros i y E. specialize (H (S i) y E). now rewrite Nat.add_succ_r in H.
Qed.

Section Proofs.
Variable sha3_256 : bytes -> bytes.
Variable chacha_encrypt : bytes -> bytes -> bytes -> bytes -> bytes.
Variable chacha_decrypt : bytes -> bytes -> bytes -> bytes -> option bytes.
Context {aead : Aead chacha_encrypt chacha_decrypt}.
Variable random : nat -> bytes * bytes * bytes.
Hypothesis random_sized : forall i, length (fst (fst (random i))) = 1088%nat /\ length (snd (random i)) = 32%nat.

Abbreviation built_output := (built_output sha3_256 chacha_encrypt random).
Abbreviation output_list := (output_list sha3_256 chacha_encrypt random).

(** The outputs as a proof sees them. *)
Fixpoint scan_list (ih : bytes) (i : nat) (outs : list PqSendOutput) : list PqScanOutput :=
  match outs with
  | [] => []
  | so :: outs => on_chain (Z.of_nat i) (so_amount so) (built_output ih i so) :: scan_list ih (S i) outs
  end.

Lemma proof_outputs_built ih outs : forall i, Z.of_nat (i + length outs) < 2 ^ 32 -> proof_outputs (output_list ih i outs) (Z.of_nat i) = Ok (scan_list ih i outs).
Proof.
  induction outs as [|so outs IH]; intros i B; cbn [PqTransactionBuilder.output_list proof_outputs scan_list length] in *; [reflexivity|].
  cbn [target wire_output kemCt encPayload]. destruct (random_sized i) as [Lc Lr]. unfold PqTransactionBuilder.built_output at 1 2. cbn [b_kemCt b_encPayload buildPqOutput].
  unfold aead_encrypt, len. rewrite aead_size, length_app, Lc, Lr. unfold le64. rewrite length_le_split. cbn [guard bind negb orb Z.eqb Z.of_nat Pos.of_succ_nat Nat.add Pos.succ].
  rewrite wrap_small by (unfold in_w; lia). replace (Z.of_nat i + 1) with (Z.of_nat (S i)) by lia.
  change (guard _ _) with (Ok (E := string) tt). cbn [bind]. rewrite IH by lia. reflexivity.
Qed.

Lemma scan_list_nth ih outs : forall i n so, nth_error outs n = Some so ->
  nth_error (scan_list ih i outs) n = Some (on_chain (Z.of_nat (i + n)) (so_amount so) (built_output ih (i + n) so)).
Proof.
  induction outs as [|x outs IH]; intros i [|n] so H; try discriminate; cbn in *; [injection H as ->; now rewrite Nat.add_0_r|].
  rewrite Nat.add_succ_r, <- Nat.add_succ_l. now apply IH.
Qed.

Definition row_recipient (r : PqSendOutput) : ResolvedRecipient := mkResolvedRecipient (recipientViewPub r) (recipientSpendPub r) (so_subaddrIndexT r).
(** The proof of one row. *)
Definition row_proof (genesisId txid : bytes) (r : PqSendOutput) (i : nat) : PqPaymentProof :=
  mkPqPaymentProof kPqPaymentProofVersion genesisId txid (pqSpendAuthorityHash sha3_256 (recipientSpendPub r)) [mkEntry (Z.of_nat i) (snd (random i))].

Lemma row_proof_verifies genesisId ptx r i : in_w 64 (so_amount r) ->
  (exists ih, nth_error (pt_outputs ptx) i = Some (on_chain (Z.of_nat i) (so_amount r) (built_output ih i r))) ->
  verifyPqPaymentProof sha3_256 (row_proof genesisId (pt_txid ptx) r i) genesisId ptx (row_recipient r) = Ok (so_amount r).
Proof.
  intros Ha (ih & N). unfold verifyPqPaymentProof, row_proof. cbn [p_version p_genesisId p_txid p_spendAuthorityHash p_entries row_recipient r_spendPub].
  rewrite !bytes_eqb_refl. cbn [guard bind Z.eqb length Nat.eqb orb negb verify_entries e_outputIndex e_rho].
  rewrite Nat2Z.id, N. change (Pos.eqb 2 2) with true. change (kPqPaymentProofVersion =? kPqPaymentProofVersion) with true. change (kMaxPqPaymentProofEntries <? _) with false.
  cbn [guard bind negb existsb on_chain s_outputIndex s_spendCommit s_amount]. rewrite Z.eqb_refl.
  unfold PqTransactionBuilder.built_output. cbn [b_spendCommit buildPqOutput]. rewrite bytes_eqb_refl. cbn [guard bind].
  rewrite (proj2 (Z.ltb_ge _ _)) by (unfold in_w in Ha; lia). reflexivity.
Qed.

Lemma send_proofs_built genesisId ptx ih rs more : forall i, Forall out_typed rs -> Z.of_nat (i + length rs) < 2 ^ 32 ->
  (forall n so, nth_error rs n = Some so -> nth_error (pt_outputs ptx) (i + n) = Some (on_chain (Z.of_nat (i + n)) (so_amount so) (built_output ih (i + n) so))) ->
  send_proofs sha3_256 genesisId ptx rs (output_list ih i (rs ++ more)) (rho_list random i (length (rs ++ more))) (Z.of_nat i) =
  Ok (map (fun p => row_proof genesisId (pt_txid ptx) (fst p) (snd p)) (combine rs (seq i (length rs)))).
Proof.
  induction rs as [|r rs IH]; intros i F B H; [reflexivity|]. inversion_clear F as [|? ? [Ha _] F'].
  cbn [app PqTransactionBuilder.output_list send_proofs length seq combine map fst snd] in *. unfold rho_list. cbn [seq map]. fold (rho_list random (S i) (length (rs ++ more))).
  cbn [amount wire_output]. rewrite Z.eqb_refl. cbn [guard bind]. rewrite wrap_small by (unfold in_w; lia).
  change (makePqPaymentProof _ _ _ _ _) with (Ok (E := string) (row_proof genesisId (pt_txid ptx) r i)). cbn [runtime bind].
  fold (row_recipient r). rewrite row_proof_verifies; [|exact Ha|exists ih; specialize (H 0%nat r eq_refl); now rewrite Nat.add_0_r in H].
  cbn [runtime bind]. rewrite Z.eqb_refl. cbn [guard bind]. replace (Z.of_nat i + 1) with (Z.of_nat (S i)) by lia.
  rewrite IH; [reflexivity|exact F'|lia|]. intros n so Hn. specialize (H (S n) so Hn). now rewrite Nat.add_succ_r in H.
Qed.
End Proofs.

Section Sent.
Variable sha3_256 cn_fast_hash : bytes -> bytes.
Variable chacha_encrypt : bytes -> bytes -> bytes -> bytes -> bytes.
Variable chacha_decrypt : bytes -> bytes -> bytes -> bytes -> option bytes.
Context {aead : Aead chacha_encrypt chacha_decrypt}.
Variable dsa_keygen_from_seed : bytes -> bytes * bytes.
Variable dsa_sign : bytes -> bytes -> bytes.
Variable dsa_verify : bytes -> bytes -> bytes -> bool.
Variable sort : (PqSpendInput -> PqSpendInput -> bool) -> list PqSpendInput -> list PqSpendInput.
Hypothesis sort_perm : forall cmp l, Permutation l (sort cmp l).
Variable randomness : nat -> nat -> bytes * bytes * bytes.
Hypothesis randomness_sized : forall n i, length (fst (fst (randomness n i))) = 1088%nat /\ length (snd (randomness n i)) = 32%nat.

Abbreviation auth_for := (auth_for sha3_256 dsa_keygen_from_seed).
Abbreviation authForSelection := (authForSelection sha3_256 dsa_keygen_from_seed).
Abbreviation build n := (buildPqTransactionWithProof sha3_256 chacha_encrypt chacha_decrypt dsa_sign (randomness n)).
Abbreviation build_loop := (build_loop sha3_256 chacha_encrypt chacha_decrypt dsa_keygen_from_seed dsa_sign randomness).
Abbreviation buildPqSend := (buildPqSend sha3_256 cn_fast_hash chacha_encrypt chacha_decrypt dsa_keygen_from_seed dsa_sign sort randomness).

(** Inputs of one group are signed by one key. *)
Lemma auth_group keys sch a b : keyGroupOf a sch = keyGroupOf b sch -> auth_for keys sch a = auth_for keys sch b.
Proof.
  destruct sch; [|reflexivity]. unfold keyGroupOf, PqSender.auth_for.
  destruct (Z.eqb_spec (si_depositIndex a) PQ_UNATTRIBUTED_DEPOSIT), (Z.eqb_spec (si_depositIndex b) PQ_UNATTRIBUTED_DEPOSIT); intros E;
    rewrite <- ?E, ?E, ?Z.eqb_refl, ?orb_true_r; try reflexivity.
Qed.

(** Under grouped authorization, no more keys are carried than groups selected. *)
Lemma grouped_keys keys sch l : Z.of_nat (length l) <= PQ_NO_KEY_REF ->
  (pqCount (map InPq (input_list true [] (combine l (authForSelection keys sch l)))) <= length (keys_of sch l))%nat.
Proof.
  unfold PqSender.authForSelection. induction l as [|x l IH] using rev_ind; intros B; [cbn; lia|]. rewrite length_app in B. cbn [length] in B.
  rewrite map_app. cbn [map]. assert (C : combine (l ++ [x]) (map (auth_for keys sch) l ++ [auth_for keys sch x]) = combine l (map (auth_for keys sch) l) ++ [(x, auth_for keys sch x)]).
  { clear. induction l as [|y l IH]; cbn; [reflexivity|]. now rewrite IH. }
  rewrite C, input_list_app, map_app. unfold pqCount in *. rewrite filter_app, length_app, snd_combine by apply length_map. rewrite keys_of_snoc. unfold insert_key.
  cbn [app input_list map filter carries_key keyRef ref_of]. specialize (IH ltac:(lia)). destruct (has_key _ _) eqn:K.
  - apply has_key_in, (proj2 (keys_of_spec sch l)), in_map_iff in K as (y & E & Iy).
    assert (R : first_of_key (map (auth_for keys sch) l) 0 (ia_spendPub (auth_for keys sch x)) < PQ_NO_KEY_REF).
    { apply first_of_key_found; [lia|rewrite length_map; lia|]. rewrite map_map. apply in_map_iff. exists y. split; [|exact Iy]. now rewrite (auth_group keys sch y x E). }
    rewrite (proj2 (Z.eqb_neq _ _)) by lia. cbn [length]. lia.
  - rewrite length_app. cbn [length]. destruct (_ =? PQ_NO_KEY_REF); cbn [length]; lia.
Qed.

Variables (keys : PqWalletKeys) (req : PqSendRequest).
Abbreviation signing := (send_context req).
Abbreviation required := (total (map so_amount (recipients req)) + send_fee req).

(** The widths of the request's fields. *)
Record request_typed : Prop := {
  rt_recipients : Forall out_typed (recipients req);
  rt_fee : in_w 64 (explicitFee req);
  rt_extra : len (rq_extra req) <= parameters.MAX_EXTRA_SIZE_PQ;
  rt_change : match changeDest req with Some d => in_w 64 (so_subaddrIndexT d) | None => True end
}.
Hypothesis typed : request_typed.
Abbreviation spendable available := (filterBuckets available (sourceBuckets req)).

Section Rows.
Hypothesis some_recipient : recipients req <> [].
Hypothesis few_recipients : Z.of_nat (length (recipients req)) + 1 <= 64.

Lemma fee_bounds : 0 <= send_fee req < 2 ^ 64.
Proof.
  destruct typed as [_ Hf He _]. unfold send_fee. destruct (Z.eqb_spec (explicitFee req) 0); cbn [negb]; [|exact Hf].
  rewrite pqTxFeeFloor_exact; [|easy|unfold len in *; lia]. unfold parameters.MINIMUM_FEE, parameters.MAX_EXTRA_SIZE_PQ, len in *. dmlia.
Qed.

Lemma recipients_nonneg : 0 <= total (map so_amount (recipients req)).
Proof. exact (amounts_total_nonneg _ (proj2 (Forall_map _ _ _) (Forall_impl _ (fun _ H => proj1 H) (rt_recipients typed)))). Qed.

Lemma send_outputs_spec change : in_w 64 change ->
  Forall out_typed (send_outputs keys req change) /\ total (map so_amount (send_outputs keys req change)) = total (map so_amount (recipients req)) + change /\
  1 <= Z.of_nat (length (send_outputs keys req change)) <= 64.
Proof.
  intros Hc. unfold send_outputs. destruct typed as [Fr _ _ Hd]. assert (L : (0 < length (recipients req))%nat) by (destruct (recipients req); [congruence|cbn; lia]).
  destruct (Z.ltb_spec 0 change) as [P|P].
  - rewrite Forall_app, map_app, total_app, length_app. cbn [map total fold_right length set_amount so_amount]. repeat split; try lia; [exact Fr|].
    constructor; [|constructor]. split; [exact Hc|]. cbn [set_amount so_subaddrIndexT]. destruct (changeDest req); [exact Hd|easy].
  - rewrite app_nil_r. repeat split; [exact Fr|unfold in_w in Hc; lia|lia|lia].
Qed.

(** A selection that covers the payment can be built, and the result is the transfer
    of those inputs. *)
Definition selected_for (s : Selection) : Prop := sel_ok s /\ sel_scheme s = scheme req /\ sel_caps s = capsFor signing /\ required <= value (sel_inputs s).

Lemma selected_buildable s : selected_for s -> 0 < required ->
  buildable signing (sel_inputs s) (authForSelection keys (scheme req) (sel_inputs s)) (send_outputs keys req (value (sel_inputs s) - required)).
Proof.
  intros ([S B K T C F] & Es & Ec & R) P. assert (N := recipients_nonneg). pose proof fee_bounds as Fb.
  destruct (send_outputs_spec (value (sel_inputs s) - required)) as (_ & Et & Lo); [unfold in_w; lia|]. rewrite Ec in T, C. rewrite K, Es in C. unfold capsFor in T, C. cbn [totalInputs keyInputs] in T, C.
  change (Z.to_nat parameters.MAX_PQ_INPUTS_PER_TX) with 32%nat in C.
  assert (L1 : (0 < length (sel_inputs s))%nat) by (destruct (sel_inputs s); [cbn in R; lia|cbn; lia]).
  assert (G : groupedAuth signing = true -> useV2 signing = true).
  { cbn. unfold parameters.PQ_GROUPED_AUTH_HEIGHT, parameters.PQ_TRANSCRIPT_V2_HEIGHT. intros H. apply Z.leb_le in H. apply Z.leb_le. lia. }
  unfold buildable. split; [|split; [exact Lo|split; [apply length_map|split; [exact G|split; [|lia]]]]].
  - destruct (groupedAuth signing); unfold parameters.MAX_PQ_GROUPED_INPUTS_PER_TX, parameters.MAX_PQ_INPUTS_PER_TX in T; lia.
  - unfold transfer_inputs. destruct (groupedAuth signing).
    + etransitivity; [apply grouped_keys|exact C]. unfold parameters.MAX_PQ_GROUPED_INPUTS_PER_TX, PQ_NO_KEY_REF in *. lia.
    + etransitivity; [apply filter_length_le|]. unfold PqSender.authForSelection. rewrite length_map, input_list_length, length_combine, length_map, Nat.min_id.
      unfold parameters.MAX_PQ_INPUTS_PER_TX in T. lia.
Qed.

Definition outputs_for (s : Selection) : list PqSendOutput := send_outputs keys req (value (sel_inputs s) - required).
Abbreviation transfer_of n s := (transfer sha3_256 chacha_encrypt dsa_sign (randomness n) signing (sel_inputs s)
  (authForSelection keys (scheme req) (sel_inputs s)) (outputs_for s) (rq_extra req)).

Lemma selected_change s : selected_for s -> 0 < required -> in_w 64 (value (sel_inputs s) - required).
Proof. intros (O & _ & _ & R) P. pose proof (ok_bound _ O). unfold in_w. lia. Qed.

Lemma selected_build n s : selected_for s -> 0 < required ->
  build n (sel_inputs s) (outputs_for s) (authForSelection keys (scheme req) (sel_inputs s)) 0 (rq_extra req) signing =
  Ok (mkBuildResult (transfer_of n s) (rho_list (randomness n) 0 (length (outputs_for s)))).
Proof.
  intros H P. apply build_iff; [exact aead|apply randomness_sized|exact (ok_typed _ (proj1 H))|apply send_outputs_spec; now apply selected_change|].
  split; [reflexivity|]. split; [now apply selected_buildable|reflexivity].
Qed.

(** The loop ends with the transfer of a selection that still has the covering
    inputs, or because even those are too large. *)
Lemma build_loop_spec coverCount : 0 < required -> forall fuel attempt s, selected_for s -> required <= value (firstn coverCount (sel_inputs s)) ->
  (coverCount <= length (sel_inputs s) <= coverCount + fuel)%nat ->
  match build_loop fuel attempt keys req signing required coverCount s with
  | Ok (draft, s') => selected_for s' /\ exists dropped n, sel_inputs s = sel_inputs s' ++ dropped /\ (coverCount <= length (sel_inputs s'))%nat /\
      draft = mkBuildResult (transfer_of n s') (rho_list (randomness n) 0 (length (outputs_for s'))) /\ serialized_size (br_tx draft) <= parameters.MAX_PQ_TX_SIZE
  | Err e => e = PqSendError TooLarge
  end.
Proof.
  intros P. induction fuel as [|fuel IH]; intros attempt s H R L.
  all: cbn [PqSender.build_loop]; rewrite (ok_sum _ (proj1 H)), (wrap_small 64) by (now apply selected_change); fold (outputs_for s); rewrite (selected_build attempt s H P); cbn [runtime bind];
    destruct (Z.leb_spec (serialized_size (br_tx (mkBuildResult (transfer_of attempt s) (rho_list (randomness attempt) 0 (length (outputs_for s)))))) parameters.MAX_PQ_TX_SIZE) as [Sz|Sz].
  1, 3: split; [exact H|]; exists [], attempt; rewrite app_nil_r; repeat split; [lia|exact Sz].
  all: destruct (Nat.leb_spec (length (sel_inputs s)) coverCount) as [C|C]; cbn [negb guard bind]; [reflexivity|].
  - lia.
  - destruct (exists_last (l := sel_inputs s)) as (l & i & E); [destruct (sel_inputs s); [cbn in C; lia|discriminate]|].
    destruct H as (O & Es & Ec & Rs). destruct (drop_ok s l i O E) as [O' El]. rewrite E, length_app in L, C. cbn [length] in L, C.
    rewrite E, firstn_app in R. replace (coverCount - length l)%nat with 0%nat in R by lia. cbn [firstn] in R. rewrite app_nil_r in R.
    assert (Rl : required <= value l).
    { rewrite <- (firstn_skipn coverCount l), inputs_value_app. pose proof (ok_typed _ O') as T. rewrite El, <- (firstn_skipn coverCount l) in T. apply Forall_app in T as [_ T].
      apply inputs_value_nonneg in T. lia. }
    assert (H' : selected_for (drop s)) by (split; [exact O'|]; split; [exact Es|]; split; [exact Ec|]; rewrite El; exact Rl).
    specialize (IH (S attempt) (drop s) H'). rewrite El in IH. specialize (IH R ltac:(lia)).
    destruct (build_loop fuel (S attempt) keys req signing required coverCount (drop s)) as [[draft s']|e]; [|exact IH].
    destruct IH as (Hs & dropped & n & Ei & Rest). split; [exact Hs|]. exists (dropped ++ [i]), n. rewrite E, Ei, <- app_assoc. auto.
Qed.

(** ** A payment *)

(** The policy: the inputs that cover the payment, none of them needless, then the
    swept ones. *)
Record chosen (available covering swept : list PqSpendInput) : Prop := {
  ch_cover : covering = sel_inputs (fst (cover required (sort largestFirst (spendable available)) (none_selected (scheme req) (capsFor signing)) []));
  ch_covers : required <= value covering;
  ch_minimal : forall init last, covering = init ++ [last] -> value init < required;
  ch_limit : (length swept <= if sweepSmallInputs req then sweep_limit signing else 0)%nat;
  ch_value : 10 * value swept <= value (spendable available);
  ch_keys : Forall (fun i => exists c, In c covering /\ keyGroupOf c (scheme req) = keyGroupOf i (scheme req)) swept;
  ch_kept : exists kept, Permutation (spendable available) ((covering ++ swept) ++ kept) /\ (swept <> [] -> 32 <= length kept)%nat
}.

Lemma chosen_prefix available covering swept dropped : amounts_typed (swept ++ dropped) -> chosen available covering (swept ++ dropped) -> chosen available covering swept.
Proof.
  intros T [E C M L V K (kept & P & Hk)]. apply Forall_app in T as [_ T]. apply inputs_value_nonneg in T. rewrite length_app in L. rewrite inputs_value_app in V. apply Forall_app in K as [K _].
  constructor; auto; [lia|lia|]. exists (dropped ++ kept). split; [rewrite !app_assoc in *; exact P|]. intros N. rewrite length_app. etransitivity; [apply Hk|lia].
  destruct swept; [contradiction|discriminate].
Qed.

Lemma selection_chosen available selected skipped : amounts_typed available ->
  cover required (sort largestFirst (spendable available)) (none_selected (scheme req) (capsFor signing)) [] = (selected, skipped) ->
  required <= sel_sum selected ->
  let s := if sweepSmallInputs req
    then sweep (sweep_limit signing) (total_available (sort largestFirst (spendable available)) 0 / PQ_SWEEP_VALUE_DIVISOR) (rev skipped) selected 0 (length skipped) 0
    else selected in
  selected_for s /\ exists swept, sel_inputs s = sel_inputs selected ++ swept /\ chosen available (sel_inputs selected) swept.
Proof.
  intros T H R. set (sorted := sort largestFirst (spendable available)) in *.
  assert (Ts : amounts_typed (spendable available)).
  { unfold filterBuckets. destruct (sourceBuckets req); [exact T|]. unfold amounts_typed in *. rewrite Forall_forall in *. intros x I. apply filter_In in I as [I _]. auto. }
  assert (Tl : amounts_typed sorted) by exact (Permutation_Forall (sort_perm largestFirst _) Ts).
  destruct (cover_spec _ _ _ _ _ _ (none_selected_ok _ _) Tl H) as (O & [Rs Rc] & taken & left & Ei & Es & P & M). cbn [none_selected sel_inputs app sel_scheme sel_caps] in *. subst skipped.
  rewrite (ok_sum _ O) in R. assert (Pt := Permutation_trans (sort_perm largestFirst (spendable available)) P).
  assert (V := value_perm _ _ Pt). rewrite inputs_value_app in V. pose proof (Permutation_Forall P Tl) as Tp. apply Forall_app in Tp as [Tt Tk].
  assert (Base : chosen available taken []).
  { constructor; [fold sorted; rewrite H; now symmetry|rewrite <- Ei; exact R|exact M|cbn; lia| |constructor|].
    - cbn [map total fold_right]. pose proof (inputs_value_nonneg _ Ts). lia.
    - exists left. rewrite app_nil_r. split; [exact Pt|congruence]. }
  cbv zeta. destruct (sweepSmallInputs req) eqn:Sw; [|split; [exact (conj O (conj Rs (conj Rc R)))|exists []; rewrite app_nil_r, Ei; auto]].
  rewrite total_available_spec by (exact Tl || easy). set (budget := _ / PQ_SWEEP_VALUE_DIVISOR).
  assert (Vs : value sorted = value (spendable available)) by (symmetry; apply value_perm, sort_perm). pose proof (inputs_value_nonneg _ Ts) as Np.
  assert (Bb : 0 <= budget < 2 ^ 64 /\ 10 * budget <= value (spendable available)) by (subst budget; unfold PQ_SWEEP_VALUE_DIVISOR; rewrite Vs; dmlia).
  assert (Tr : amounts_typed (rev left)) by exact (Permutation_Forall (Permutation_rev left) Tk).
  destruct (sweep_spec (sweep_limit signing) budget (rev left) selected 0 (length left) 0 O Tr) as (O' & [Rs' Rc'] & swept & kept & Ei' & P' & L & Vb & K & Fk); [lia|lia|].
  assert (Pl : Permutation left (swept ++ kept)) by (etransitivity; [apply Permutation_rev|exact P']).
  split.
  { split; [exact O'|]. rewrite Rs', Rc'. split; [exact Rs|]. split; [exact Rc|]. rewrite Ei', inputs_value_app. rewrite Ei in R |- *.
    pose proof (Permutation_Forall Pl Tk) as Tsw. apply Forall_app in Tsw as [Tsw _]. apply inputs_value_nonneg in Tsw. lia. }
  exists swept. split; [exact Ei'|]. rewrite Ei. destruct Base as [Ec C Mi _ _ _ _].
  constructor; [exact Ec|exact C|exact Mi|rewrite Sw; lia|lia| |].
  - rewrite (ok_keys _ O), Rs in Fk. revert Fk. apply Forall_impl. intros i I. apply keys_of_spec, in_map_iff in I as (c & E & I). rewrite Ei in I. eauto.
  - exists kept. split; [etransitivity; [exact Pt|]; rewrite <- app_assoc; now apply Permutation_app_head|]. intros N. specialize (K N). apply Permutation_length in Pl. rewrite length_app in Pl. lia.
Qed.
End Rows.

(** What a successful send is. *)
Definition sent_as (available : list PqSpendInput) (r : PqSendResult) (covering swept : list PqSpendInput) (n : nat) : Prop :=
  let ins := covering ++ swept in
  let auth := authForSelection keys (scheme req) ins in
  let outs := send_outputs keys req (sr_change r) in
  chosen available covering swept /\ sr_selected r = ins /\ sr_fee r = send_fee req /\ sr_sent r = total (map so_amount (recipients req)) /\
  in_w 64 (sr_change r) /\ value ins = sr_sent r + sr_fee r + sr_change r /\
  recipients req <> [] /\ Z.of_nat (length (recipients req)) + 1 <= 64 /\ Forall (fun o => so_amount o <> 0) (recipients req) /\
  amounts_typed ins /\ buildable signing ins auth outs /\
  sr_tx r = transfer sha3_256 chacha_encrypt dsa_sign (randomness n) signing ins auth outs (rq_extra req) /\
  serialized_size (sr_tx r) <= parameters.MAX_PQ_TX_SIZE /\
  sr_proofs r = map (fun p => row_proof sha3_256 (randomness n) (rq_genesisId req) (snd (getObjectHash cn_fast_hash tx_codec (sr_tx r))) (fst p) (snd p))
    (combine (recipients req) (seq 0 (length (recipients req)))).

(** Why a send is refused. *)
Definition refused_for (available : list PqSpendInput) (c : PqSendErrorCode) : Prop :=
  match c with
  | NoRecipients => recipients req = []
  | UnsupportedUnlockHeight => rq_unlockHeight req <> 0
  | ZeroAmount => Exists (fun o => so_amount o = 0) (recipients req)
  | InsufficientFunds => value (spendable available) < required
  | TooLarge => 63 < Z.of_nat (length (recipients req)) \/ 2 ^ 64 <= required \/ required <= value (spendable available)
  end.

Lemma spendable_typed available : amounts_typed available -> amounts_typed (spendable available).
Proof.
  intros T. unfold filterBuckets. destruct (sourceBuckets req); [exact T|]. unfold amounts_typed in *. rewrite Forall_forall in *. intros x I. apply filter_In in I as [I _]. auto.
Qed.

(** The tail of [buildPqSend], once a transaction is built: the proofs come out. *)
Lemma send_tail n ins auth outs : let tx := transfer sha3_256 chacha_encrypt dsa_sign (randomness n) signing ins auth (recipients req ++ outs) (rq_extra req) in
  let rhos := rho_list (randomness n) 0 (length (recipients req ++ outs)) in
  Z.of_nat (length (recipients req ++ outs)) < 2 ^ 32 ->
  length rhos = length (outputs (prefix tx)) /\ (length (recipients req) <= length (outputs (prefix tx)))%nat /\
  exists proofTx, makePqPaymentProofTransaction sha3_256 cn_fast_hash tx = Ok proofTx /\
    send_proofs sha3_256 (rq_genesisId req) proofTx (recipients req) (outputs (prefix tx)) rhos 0 =
    Ok (map (fun p => row_proof sha3_256 (randomness n) (rq_genesisId req) (snd (getObjectHash cn_fast_hash tx_codec tx)) (fst p) (snd p))
      (combine (recipients req) (seq 0 (length (recipients req))))).
Proof.
  intros tx rhos B. assert (Eo : outputs (prefix tx) = output_list sha3_256 chacha_encrypt (randomness n) (transfer_hash sha3_256 signing ins auth) 0 (recipients req ++ outs)) by reflexivity.
  rewrite Eo, output_list_length. split; [unfold rhos, rho_list; now rewrite length_map, length_seq|]. split; [rewrite length_app; lia|].
  unfold makePqPaymentProofTransaction. rewrite Eo, (proof_outputs_built sha3_256 chacha_encrypt chacha_decrypt (randomness n) (randomness_sized n) _ _ 0) by exact B.
  cbn [bind]. eexists. split; [reflexivity|]. rewrite length_app in B. set (ptx := mkProofTransaction _ _ _).
  refine (send_proofs_built sha3_256 chacha_encrypt (randomness n) (rq_genesisId req) ptx (transfer_hash sha3_256 signing ins auth) (recipients req) outs 0 _ _ _).
  - exact (rt_recipients typed).
  - lia.
  - intros m so H. subst ptx. cbn [pt_outputs]. rewrite scan_list_nth with (so := so); [reflexivity|]. cbn [Nat.add]. rewrite nth_error_app1; [exact H|]. apply nth_error_Some. congruence.
Qed.

Lemma send_spec available : amounts_typed available ->
  match buildPqSend available keys req with
  | Ok r => exists covering swept n, sent_as available r covering swept n
  | Err (PqSendError c) => refused_for available c
  | Err _ => False
  end.
Proof.
  intros T. unfold PqSender.buildPqSend. pose proof fee_bounds as Fb.
  destruct (Nat.eqb_spec (length (recipients req)) 0) as [E0|E0]; cbn [negb guard bind]; [now apply length_zero_iff_nil in E0|].
  destruct (Z.eqb_spec (rq_unlockHeight req) 0) as [Eu|Eu]; cbn [guard bind]; [|exact Eu].
  pose proof (sum_recipients_spec (recipients req) 0 (rt_recipients typed) ltac:(easy)) as Sr. rewrite Z.add_0_l in Sr.
  destruct (sum_recipients (recipients req) 0) as [sent|e]; cbn [bind].
  2: { destruct Sr as [[-> X]|[-> X]]; [exact X|]. right. left. lia. }
  destruct Sr as (Nz & -> & Bs). unfold parameters.MAX_PQ_OUTPUTS_PER_TX. destruct (Z.ltb_spec 64 (Z.of_nat (length (recipients req)) + 1)) as [L|L]; cbn [negb guard bind]; [left; lia|].
  destruct (Z.ltb_spec (2 ^ 64 - 1 - send_fee req) (total (map so_amount (recipients req)))) as [Ov|Ov]; cbn [negb guard bind]; [right; left; lia|].
  assert (Ts := spendable_typed _ T). assert (Tl : amounts_typed (sort largestFirst (spendable available))) by exact (Permutation_Forall (sort_perm largestFirst _) Ts).
  assert (Vs : value (sort largestFirst (spendable available)) = value (spendable available)) by (symmetry; apply value_perm, sort_perm).
  assert (some : recipients req <> []) by (destruct (recipients req); [contradiction|discriminate]). assert (few : Z.of_nat (length (recipients req)) + 1 <= 64) by lia.
  assert (Rp : 0 < required).
  { destruct (recipients req) as [|x l] eqn:Er; [contradiction|]. pose proof (rt_recipients typed) as F. rewrite Er in F. inversion_clear F as [|? ? [Hx _] F'].
    inversion_clear Nz as [|? ? Nx _]. apply (Forall_impl _ (fun _ H => proj1 H)) in F'. apply (Forall_map so_amount (in_w 64)), amounts_total_nonneg in F'.
    cbn [map total fold_right]. unfold in_w, total in *. lia. }
  destruct (cover _ _ _ _) as [selected skipped] eqn:Ec. pose proof (cover_spec _ _ _ _ _ _ (none_selected_ok _ _) Tl Ec) as (O & _).
  destruct (Z.ltb_spec (sel_sum selected) required) as [Ls|Ls]; cbn [negb guard bind].
  { rewrite total_available_spec, Vs by (exact Tl || easy). destruct (Z.leb_spec required (Z.min (2 ^ 64 - 1) (0 + value (spendable available)))); cbn [refused_for]; [right; right|]; lia. }
  destruct (selection_chosen available selected skipped T Ec Ls) as (Hs & swept & Ei & Ch). set (s := if sweepSmallInputs req then _ else _) in *.
  assert (Hc : required <= value (firstn (length (sel_inputs selected)) (sel_inputs s))) by (rewrite Ei, firstn_app_exact by reflexivity; exact (ch_covers _ _ _ Ch)).
  pose proof (build_loop_spec some few (length (sel_inputs selected)) Rp (length (sel_inputs s)) 0 s Hs Hc ltac:(rewrite Ei, length_app; lia)) as Bl.
  destruct (build_loop _ _ _ _ _ _ _ _) as [[draft s']|e]; cbn [bind].
  2: { subst e. right. right. destruct (ch_kept _ _ _ Ch) as (kept & P & _). rewrite (value_perm _ _ P), !inputs_value_app.
       pose proof (Permutation_Forall P Ts) as Tp. apply Forall_app in Tp as [Tp Tk]. apply Forall_app in Tp as [_ Tp]. apply inputs_value_nonneg in Tp, Tk. pose proof (ch_covers _ _ _ Ch). lia. }
  destruct Bl as (Hs' & dropped & n & Ed & Lc & -> & Sz). cbn [br_tx outputRhos] in *.
  destruct (app_prefix (sel_inputs selected) swept (sel_inputs s') dropped) as (swept' & Es & ->); [congruence|exact Lc|].
  unfold outputs_for, send_outputs. set (more := if 0 <? _ then _ else _).
  destruct (send_tail n (sel_inputs s') (authForSelection keys (scheme req) (sel_inputs s')) more) as (L1 & L2 & proofTx & E1 & E2).
  { destruct (send_outputs_spec some few (value (sel_inputs s') - required) (selected_change s' Hs' Rp)) as (_ & _ & Lo). unfold send_outputs in Lo. fold more in Lo. lia. }
  rewrite L1, Nat.eqb_refl, (proj2 (Nat.ltb_ge _ _)) by exact L2. cbn [negb orb guard bind]. rewrite E1. cbn [runtime bind]. rewrite E2. cbn [bind].
  exists (sel_inputs selected), swept', n. unfold sent_as. cbn [sr_tx sr_fee sr_sent sr_change sr_selected sr_proofs].
  rewrite (ok_sum _ (proj1 Hs')), (wrap_small 64) by (now apply selected_change). rewrite <- Es. fold more.
  split; [apply (chosen_prefix _ _ _ dropped); [|exact Ch]|].
  { pose proof (ok_typed _ (proj1 Hs)) as Tt. rewrite Ei in Tt. apply Forall_app in Tt. apply Tt. }
  pose proof (selected_change s' Hs' Rp) as Hch. pose proof (selected_buildable some few s' Hs' Rp) as Bu. pose proof (ok_typed _ (proj1 Hs')) as Tt.
  repeat split; try assumption; try apply Hch; try lia; apply Bu.
Qed.

(** C7: A send conserves value and keeps to its request: the inputs it spends are
    some of the spendable ones of the requested buckets, each once, and their exact sum
    is what the recipients get plus the fee plus the change; the transaction spends
    exactly those inputs in that order, and its outputs are one per recipient row, with
    the amount and the lock asked for, then the change if there is any; it is within the
    size limit; and each row comes with a payment proof that verifies for its amount. *)
Theorem send_conserves available r : amounts_typed available -> buildPqSend available keys req = Ok r ->
  value (sr_selected r) = sr_sent r + sr_fee r + sr_change r /\ 0 <= sr_change r /\
  sr_sent r = total (map so_amount (recipients req)) /\ sr_fee r = send_fee req /\
  (exists kept, Permutation (spendable available) (sr_selected r ++ kept)) /\
  (exists ks, inputs (prefix (sr_tx r)) = map InPq ks /\ map outpoint ks = map spent_outpoint (sr_selected r)) /\
  map (fun o => (amount o, out_unlockHeight o)) (outputs (prefix (sr_tx r))) =
    map (fun o => (so_amount o, so_unlockHeight o)) (send_outputs keys req (sr_change r)) /\
  serialized_size (sr_tx r) <= parameters.MAX_PQ_TX_SIZE /\
  exists proofTx, makePqPaymentProofTransaction sha3_256 cn_fast_hash (sr_tx r) = Ok proofTx /\
    Forall2 (fun o p => verifyPqPaymentProof sha3_256 p (rq_genesisId req) proofTx (row_recipient o) = Ok (so_amount o)) (recipients req) (sr_proofs r).
Proof.
  intros T H. pose proof (send_spec available T) as S. rewrite H in S. destruct S as (covering & swept & n & Ch & -> & -> & -> & Hc & V & some & few & _ & Ti & Bu & Et & Sz & Ep).
  split; [exact V|]. split; [apply Hc|]. split; [reflexivity|]. split; [reflexivity|]. split; [destruct (ch_kept _ _ _ Ch) as (kept & P & _); eauto|].
  assert (La : length (authForSelection keys (scheme req) (covering ++ swept)) = length (covering ++ swept)) by apply length_map.
  split; [|split; [|split; [exact Sz|]]].
  - rewrite Et. eexists. split; [reflexivity|]. now rewrite input_list_outpoints, fst_combine.
  - rewrite Et. cbn [transfer prefix transfer_prefix outputs]. generalize (send_outputs keys req (sr_change r)) 0%nat.
    induction l as [|o l IH]; intros i; cbn; [reflexivity|]. now rewrite IH.
  - rewrite Et, Ep. unfold send_outputs in *. set (more := if 0 <? _ then _ else _) in *.
    destruct (send_outputs_spec some few (sr_change r) Hc) as (_ & _ & Lo). unfold send_outputs in Lo. fold more in Lo.
    unfold makePqPaymentProofTransaction. cbn [transfer prefix transfer_prefix outputs].
    rewrite (proof_outputs_built sha3_256 chacha_encrypt chacha_decrypt (randomness n) (randomness_sized n) _ _ 0) by lia. cbn [bind]. eexists. split; [reflexivity|].
    apply Forall2_rows. intros i o Ho. rewrite Et. set (ptx := mkProofTransaction _ _ _).
    refine (row_proof_verifies sha3_256 chacha_encrypt (randomness n) (rq_genesisId req) ptx o i _ _).
    + destruct (proj1 (Forall_forall _ _) (rt_recipients typed) o (nth_error_In _ _ Ho)) as [Ha _]. exact Ha.
    + eexists. subst ptx. cbn [pt_outputs]. rewrite scan_list_nth with (so := o); [reflexivity|]. rewrite nth_error_app1; [exact Ho|]. apply nth_error_Some. congruence.
Qed.

(** The input policy, on every send: the inputs are a covering set, none of whose
    inputs is needless when it is taken, followed by swept ones; the sweep takes at most
    eight inputs (64 under grouped authorization), at most a tenth of the spendable
    value, leaves at least 32 spendable outputs, and uses no key the payment did not
    already reveal. *)
Theorem send_policy available r : amounts_typed available -> buildPqSend available keys req = Ok r ->
  exists covering swept, sr_selected r = covering ++ swept /\ chosen available covering swept.
Proof.
  intros T H. pose proof (send_spec available T) as S. rewrite H in S. destruct S as (covering & swept & n & Ch & E & _). eauto.
Qed.

(** C37: A send either succeeds or is refused for a reason the caller can act on:
    none of the internal consistency errors (a build error, a proof that does not
    verify, an amount that does not match) can occur; no recipients, a zero amount or a
    transaction-level lock are reported as such; insufficient funds are reported
    only when everything spendable is less than the payment and its fee. *)
Theorem send_errors available e : amounts_typed available -> buildPqSend available keys req = Err e ->
  exists c, e = PqSendError c /\ refused_for available c.
Proof.
  intros T H. pose proof (send_spec available T) as S. rewrite H in S. destruct e as [c|what|]; [eauto|contradiction..].
Qed.


(** [std::sort]'s other promise, for the order used here. *)
Hypothesis sort_sorted : forall l, StronglySorted (fun a b => largestFirst b a = false) (sort largestFirst l).

(** C38: The cover uses the fewest inputs: when the wallet's keys and total are within
    the caps of one transaction, no set of spendable outputs with fewer inputs than the
    covering set would pay. *)
Theorem cover_fewest available r : amounts_typed available -> value (spendable available) < 2 ^ 64 ->
  (length (keys_of (scheme req) (spendable available)) <= 32)%nat -> buildPqSend available keys req = Ok r ->
  exists covering swept, sr_selected r = covering ++ swept /\ chosen available covering swept /\
    forall other rest, Permutation (spendable available) (other ++ rest) -> required <= value other -> (length covering <= length other)%nat.
Proof.
  intros T Vb Kb H. pose proof (send_spec available T) as S. rewrite H in S. destruct S as (covering & swept & n & Ch & E & _). exists covering, swept. split; [exact E|]. split; [exact Ch|].
  intros other rest P Hr. set (sorted := sort largestFirst (spendable available)). assert (Ps : Permutation (spendable available) sorted) by apply sort_perm.
  assert (Tl : amounts_typed sorted) by exact (Permutation_Forall Ps (spendable_typed _ T)).
  assert (Best := largest_best sorted (sort_sorted _) Tl other rest (Permutation_trans (Permutation_sym Ps) P)).
  destruct (cover_prefix required sorted (none_selected (scheme req) (capsFor signing)) [] (none_selected_ok _ _) Tl) as (k & Ek & _); cbn [none_selected sel_inputs app sel_scheme sel_caps] in *.
  { now rewrite <- (value_perm _ _ Ps). }
  { etransitivity; [apply keys_of_incl; intros x I; exact (Permutation_in x (Permutation_sym Ps) I)|exact Kb]. }
  pose proof (ch_cover _ _ _ Ch) as Ev. fold sorted in Ev. unfold none_selected in Ek, Ev. rewrite <- Ev in Ek. destruct (Nat.le_gt_cases (length covering) (length other)) as [L|L]; [exact L|]. exfalso.
  destruct (exists_last (l := covering)) as (init & last & Ec); [destruct covering; [cbn in L; lia|discriminate]|].
  pose proof (ch_minimal _ _ _ Ch init last Ec) as Mi. rewrite Ec, length_app in L. cbn [length] in L.
  assert (Ei : init = firstn (length init) sorted).
  { rewrite Ec in Ek. apply (f_equal (firstn (length init))) in Ek. rewrite firstn_app_exact, firstn_firstn in Ek by reflexivity. rewrite Ek at 1. f_equal.
    assert (Lk : (length (firstn k sorted) <= k)%nat) by (rewrite length_firstn; lia). apply (f_equal (@length _)) in Ek. rewrite length_firstn in Ek. lia. }
  assert (value (firstn (length other) sorted) <= value (firstn (length init) sorted)).
  { replace (length init) with (length other + (length init - length other))%nat by lia. rewrite firstn_plus, inputs_value_app.
    assert (Tf := Tl). rewrite <- (firstn_skipn (length other) sorted) in Tf. apply Forall_app in Tf as [_ Tf].
    rewrite <- (firstn_skipn (length init - length other) (skipn _ _)) in Tf. apply Forall_app in Tf as [Tf _]. apply inputs_value_nonneg in Tf. lia. }
  rewrite <- Ei in *. lia.
Qed.
End Sent.

(** ** Consolidation *)

Section Consolidation.
Variable sha3_256 cn_fast_hash : bytes -> bytes.
Variable chacha_encrypt : bytes -> bytes -> bytes -> bytes -> bytes.
Variable chacha_decrypt : bytes -> bytes -> bytes -> bytes -> option bytes.
Context {aead : Aead chacha_encrypt chacha_decrypt}.
Variable dsa_keygen_from_seed : bytes -> bytes * bytes.
Variable dsa_sign : bytes -> bytes -> bytes.
Variable sort : (PqSpendInput -> PqSpendInput -> bool) -> list PqSpendInput -> list PqSpendInput.
Hypothesis sort_perm : forall cmp l, Permutation l (sort cmp l).
Variable randomness : nat -> nat -> bytes * bytes * bytes.
Hypothesis randomness_sized : forall n i, length (fst (fst (randomness n i))) = 1088%nat /\ length (snd (randomness n i)) = 32%nat.

Variables (keys : PqWalletKeys) (req : PqConsolidationRequest) (available : list PqSpendInput).
Hypothesis fee_typed : in_w 64 (cr_explicitFee req).
Hypothesis destination_typed : match cr_destination req with Some d => in_w 64 (so_subaddrIndexT d) | None => True end.
Hypothesis available_typed : amounts_typed available.
(** No output of the chain is empty. *)
Hypothesis available_positive : Forall (fun i => 0 < si_amount i) available.

Abbreviation selection := (selectConsolidationInputs sort available req).
Abbreviation plan := (fst selection).
Abbreviation picked := (snd selection).
Abbreviation buildPqConsolidation := (buildPqConsolidation sha3_256 cn_fast_hash chacha_encrypt chacha_decrypt dsa_keygen_from_seed dsa_sign sort randomness).

(** A useful plan merges at least two inputs of the wanted buckets, pays the fee out
    of them and returns the rest. *)
Lemma plan_spec : useful plan = true ->
  pl_selectedInputs plan = length picked /\ (2 <= length picked)%nat /\ pl_resultingOutputs plan = 1%nat /\ 0 < pl_amount plan /\ 0 < pl_fee plan /\
  value picked = pl_amount plan + pl_fee plan /\ value picked < 2 ^ 64 /\ pl_fee plan < 2 ^ 64 /\
  exists kept, Permutation (filterBuckets available (cr_sourceBuckets req)) (picked ++ kept).
Proof.
  unfold selectConsolidationInputs. set (fee := if negb _ then _ else _). set (l := filterBuckets _ _). cbv zeta. intros U.
  assert (Hf : 0 < fee < 2 ^ 64) by (unfold fee; destruct (Z.eqb_spec (cr_explicitFee req) 0); cbn [negb]; [easy|unfold in_w in fee_typed; lia]).
  destruct (Nat.ltb_spec (length l) 2); [discriminate|]. assert (Tl : amounts_typed (sort smallestFirst l)).
  { apply (Permutation_Forall (sort_perm smallestFirst l)). unfold l, filterBuckets. destruct (cr_sourceBuckets req); [exact available_typed|].
    unfold amounts_typed. rewrite Forall_forall. intros x I. apply filter_In in I as [I _]. exact (proj1 (Forall_forall _ _) available_typed x I). }
  destruct (pick_spec (sort smallestFirst l) _ (none_selected_ok (cr_scheme req) (capsFor (pqSigningContextForHeight (cr_signingHeight req) (cr_genesisId req)))) Tl)
    as (O & _ & taken & left & Ei & P). set (s := pick _ _) in *. cbn [none_selected sel_inputs app] in Ei.
  destruct (Nat.ltb_spec (length (sel_inputs s)) 2); cbn [orb] in *; [discriminate|]. destruct (Z.leb_spec (sel_sum s) fee); [discriminate|].
  cbn [fst snd pl_selectedInputs pl_resultingOutputs pl_amount pl_fee]. pose proof (ok_bound _ O). rewrite (ok_sum _ O) in *.
  repeat split; try lia. exists left. rewrite Ei. etransitivity; [apply sort_perm|exact P].
Qed.

(** Consolidation does what its plan says: when the plan is useful the result
    spends exactly the planned inputs, pays exactly the planned amount in one output to
    the destination and leaves no change; when it is not, or the transaction is too
    large, the caller is told so. The consistency checks after the build never fail. *)
Theorem consolidation_follows_plan : match buildPqConsolidation available keys req with
  | Ok r => useful plan = true /\ co_plan r = plan /\ Permutation (sr_selected (co_transaction r)) picked /\
      value picked = pl_amount plan + pl_fee plan /\ sr_change (co_transaction r) = 0 /\ sr_fee (co_transaction r) = pl_fee plan /\
      exists o, outputs (prefix (sr_tx (co_transaction r))) = [o] /\ amount o = pl_amount plan /\
        (length (inputs (prefix (sr_tx (co_transaction r)))) = length picked)%nat
  | Err e => e = PqSendError TooLarge
  end.
Proof.
  unfold PqSender.buildPqConsolidation. destruct selection as [pl pk] eqn:Esel.
  destruct (useful pl) eqn:U; cbn [guard bind]; [|reflexivity].
  pose proof plan_spec as Ps. rewrite Esel in Ps. cbn [fst snd] in Ps. destruct (Ps U) as (Es & L2 & Eo & Pa & Pf & V & Vb & Fb & kept & P). clear Ps.
  set (sreq := consolidation_send keys req pl). assert (Tp : amounts_typed pk /\ Forall (fun i => 0 < si_amount i) pk).
  { assert (I : incl pk available).
    { intros x Hx. assert (Hi : In x (filterBuckets available (cr_sourceBuckets req))) by (apply (Permutation_in x (Permutation_sym P)), in_or_app; now left).
      unfold filterBuckets in Hi. destruct (cr_sourceBuckets req); [exact Hi|]. now apply filter_In in Hi. }
    split; apply Forall_forall; intros x Hx; [exact (proj1 (Forall_forall _ _) available_typed x (I x Hx))|exact (proj1 (Forall_forall _ _) available_positive x (I x Hx))]. }
  destruct Tp as [Tp Pp]. assert (St : request_typed sreq).
  { constructor; cbn [sreq consolidation_send recipients explicitFee rq_extra changeDest]; [|unfold in_w; lia|easy|exact I].
    constructor; [|constructor]. split; cbn [set_amount so_amount so_subaddrIndexT]; [unfold in_w; lia|]. destruct (cr_destination req); [exact destination_typed|easy]. }
  assert (Er : total (map so_amount (recipients sreq)) + send_fee sreq = value pk).
  { unfold send_fee. cbn [sreq consolidation_send recipients explicitFee map total fold_right set_amount so_amount]. rewrite (proj2 (Z.eqb_neq (pl_fee pl) 0)) by lia. cbn [negb]. lia. }
  pose proof (send_spec sha3_256 cn_fast_hash chacha_encrypt chacha_decrypt dsa_keygen_from_seed dsa_sign sort sort_perm randomness randomness_sized keys sreq St pk Tp) as S.
  destruct (PqSender.buildPqSend _ _ _ _ _ _ _ _ pk keys sreq) as [t|e]; cbn [bind].
  2: { destruct e as [c|?|]; [|contradiction..]. destruct c; cbn [refused_for] in S; try reflexivity; try discriminate; try contradiction.
       - inversion_clear S as [? ? Z0|? ? N]; [|inversion N]. cbn in Z0. lia.
       - change (filterBuckets pk (sourceBuckets sreq)) with pk in S. lia. }
  destruct S as (covering & swept & n & Ch & El & Ef & En & Hc & Vi & _ & _ & _ & _ & _ & Et & _).
  assert (swept = []) as -> by (pose proof (ch_limit _ _ _ _ _ Ch) as L0; cbn in L0; apply length_zero_iff_nil; lia).
  destruct (ch_kept _ _ _ _ _ Ch) as (kept' & Pk & _). pose proof (ch_covers _ _ _ _ _ Ch) as Cv. change (filterBuckets pk (sourceBuckets sreq)) with pk in Pk. rewrite app_nil_r in *.
  assert (kept' = []) as ->.
  { pose proof (value_perm _ _ Pk) as Vk. rewrite inputs_value_app in Vk. pose proof (Permutation_Forall Pk Pp) as Fk. apply Forall_app in Fk as [_ Fk].
    pose proof (Permutation_Forall Pk Tp) as Tk. apply Forall_app in Tk as [_ Tk]. destruct kept' as [|x kept']; [reflexivity|]. exfalso.
    inversion_clear Fk as [|? ? Hx _]. inversion_clear Tk as [|? ? _ Tk']. apply inputs_value_nonneg in Tk'. cbn [map total fold_right] in Vk. unfold total in *. lia. }
  rewrite app_nil_r in Pk. assert (Vc := value_perm _ _ Pk). assert (Lc := Permutation_length Pk).
  assert (C0 : sr_change t = 0) by (rewrite En, Ef in Vi; lia).
  assert (Fe : sr_fee t = pl_fee pl) by (rewrite Ef; unfold send_fee; cbn [sreq consolidation_send explicitFee]; now rewrite (proj2 (Z.eqb_neq (pl_fee pl) 0)) by lia).
  assert (Sn : sr_sent t = pl_amount pl) by lia.
  assert (Eouts : exists o, outputs (prefix (sr_tx t)) = [o] /\ amount o = pl_amount pl) by (rewrite Et, C0; eexists; split; reflexivity).
  assert (Ein : length (inputs (prefix (sr_tx t))) = length pk).
  { rewrite Et. cbn [transfer prefix transfer_prefix inputs]. unfold transfer_inputs, authForSelection. rewrite length_map, input_list_length, length_combine, length_map. lia. }
  destruct Eouts as (o & Eout & Ea). rewrite Eout, Ein, El, Es, Eo, C0, Fe, Sn, <- Lc, Nat.eqb_refl, !Z.eqb_refl. cbn [length Nat.eqb negb orb].
  rewrite (proj2 (Nat.leb_gt _ _)) by lia. cbn [negb guard bind].
  rewrite (proj2 (forallb_forall _ _)).
  2: { intros x Hx. apply existsb_exists. exists x. split; [exact (Permutation_in x Pk Hx)|]. unfold sameOutpoint. now rewrite Z.eqb_refl, bytes_eqb_refl. }
  cbn [guard bind co_plan co_transaction]. rewrite El. repeat split; try assumption; [now symmetry|eauto].
Qed.
End Consolidation.

(** ** A wallet with two outputs

    [std::sort] by insertion keeps both promises. *)

Fixpoint insert_by (cmp : PqSpendInput -> PqSpendInput -> bool) (x : PqSpendInput) (l : list PqSpendInput) : list PqSpendInput :=
  match l with
  | [] => [x]
  | y :: l => if cmp y x then y :: insert_by cmp x l else x :: y :: l
  end.
Definition insertion_sort (cmp : PqSpendInput -> PqSpendInput -> bool) (l : list PqSpendInput) : list PqSpendInput := fold_right (insert_by cmp) [] l.

Lemma insert_by_perm cmp x l : Permutation (x :: l) (insert_by cmp x l).
Proof.
  induction l as [|y l IH]; cbn; [reflexivity|]. destruct (cmp y x); [|reflexivity]. etransitivity; [apply perm_swap|]. now apply perm_skip.
Qed.
Lemma insertion_sort_perm cmp l : Permutation l (insertion_sort cmp l).
Proof. induction l as [|x l IH]; cbn; [reflexivity|]. etransitivity; [apply perm_skip, IH|]. apply insert_by_perm. Qed.
Lemma insert_by_sorted x l : StronglySorted (fun a b => largestFirst b a = false) l -> StronglySorted (fun a b => largestFirst b a = false) (insert_by largestFirst x l).
Proof.
  unfold largestFirst. induction 1 as [|y l S IH Hy]; cbn; [repeat constructor|]. destruct (Z.ltb_spec (si_amount x) (si_amount y)) as [L|L].
  - constructor; [exact IH|]. apply (Permutation_Forall (insert_by_perm _ x l)). constructor; [apply Z.ltb_ge; lia|exact Hy].
  - constructor; [now constructor|]. constructor; [apply Z.ltb_ge; lia|]. revert Hy. apply Forall_impl. intros a Ha. apply Z.ltb_ge in Ha. apply Z.ltb_ge. lia.
Qed.
Lemma insertion_sort_sorted l : StronglySorted (fun a b => largestFirst b a = false) (insertion_sort largestFirst l).
Proof. induction l as [|x l IH]; [constructor|]. now apply insert_by_sorted. Qed.

Definition sample_request : PqSendRequest :=
  mkPqSendRequest [sample_payment 350] 0 0 [] (repeat (b8 3) 32) 0 0xFFFFFFFF AggregatedMultikey [] None true.
Definition sample_available : list PqSpendInput := [sample_spend 0 300; sample_spend 1 200].
Abbreviation sample_send :=
  (buildPqSend sample_sha3 sample_sha3 sample_cipher sample_decipher sample_keygen sample_sign insertion_sort (fun _ => sample_randomness) sample_available sample_wallet sample_request).

(** The send succeeds. *)
Lemma sample_sent : match sample_send with Ok _ => True | Err _ => False end.
Proof. vm_compute. exact I. Qed.

Lemma sample_request_typed : request_typed sample_request.
Proof. constructor; cbn; try easy. repeat constructor; easy. Qed.
Lemma sample_available_typed : amounts_typed sample_available.
Proof. repeat constructor; easy. Qed.
Abbreviation sample_random_sized := (fun _ : nat => sample_randomness_sized).

Lemma send_conserves_witness : exists r, sample_send = Ok r /\ value (sr_selected r) = sr_sent r + sr_fee r + sr_change r.
Proof.
  pose proof sample_sent as G. destruct sample_send as [r|] eqn:E; [clear G|contradiction]. exists r. split; [reflexivity|].
  apply (send_conserves sample_sha3 sample_sha3 sample_cipher sample_decipher sample_keygen sample_sign insertion_sort insertion_sort_perm
    (fun _ => sample_randomness) sample_random_sized sample_wallet sample_request sample_request_typed sample_available r sample_available_typed E).
Defined.

Lemma send_errors_witness : exists c, buildPqSend sample_sha3 sample_sha3 sample_cipher sample_decipher sample_keygen sample_sign insertion_sort (fun _ => sample_randomness)
    [sample_spend 0 300] sample_wallet sample_request = Err (PqSendError c) /\ refused_for sample_request [sample_spend 0 300] c.
Proof.
  destruct (send_errors sample_sha3 sample_sha3 sample_cipher sample_decipher sample_keygen sample_sign insertion_sort insertion_sort_perm
    (fun _ => sample_randomness) sample_random_sized sample_wallet sample_request sample_request_typed [sample_spend 0 300] (PqSendError InsufficientFunds))
    as (c & E & R); [repeat constructor; easy|vm_compute; reflexivity|].
  exists c. split; [rewrite <- E; vm_compute; reflexivity|exact R].
Defined.


Lemma cover_fewest_witness : exists r covering swept, sample_send = Ok r /\ sr_selected r = covering ++ swept /\
  forall other rest, Permutation sample_available (other ++ rest) -> 351 <= value other -> (length covering <= length other)%nat.
Proof.
  pose proof sample_sent as G. destruct sample_send as [r|] eqn:E; [clear G|contradiction].
  destruct (cover_fewest sample_sha3 sample_sha3 sample_cipher sample_decipher sample_keygen sample_sign insertion_sort insertion_sort_perm
    (fun _ => sample_randomness) sample_random_sized sample_wallet sample_request sample_request_typed insertion_sort_sorted sample_available r sample_available_typed)
    as (covering & swept & Es & _ & H); [reflexivity|vm_compute; lia|exact E|].
  exists r, covering, swept. split; [reflexivity|]. split; [exact Es|]. exact H.
Defined.

Definition sample_consolidation : PqConsolidationRequest := mkConsolidationRequest 0 (repeat (b8 3) 32) 0 0xFFFFFFFF AggregatedMultikey [] None.
Lemma consolidation_follows_plan_witness : exists r, buildPqConsolidation sample_sha3 sample_sha3 sample_cipher sample_decipher sample_keygen sample_sign insertion_sort
    (fun _ => sample_randomness) sample_available sample_wallet sample_consolidation = Ok r /\ sr_change (co_transaction r) = 0.
Proof.
  pose proof (consolidation_follows_plan sample_sha3 sample_sha3 sample_cipher sample_decipher sample_keygen sample_sign insertion_sort insertion_sort_perm
    (fun _ => sample_randomness) sample_random_sized sample_wallet sample_consolidation sample_available) as H.
  destruct (buildPqConsolidation _ _ _ _ _ _ _ _ _ _ _) as [r|] eqn:E; [|vm_compute in E; discriminate]. exists r. split; [reflexivity|]. clear E.
  apply H; [easy|exact I|exact sample_available_typed|repeat constructor; easy].
Defined.
